(* ===== verification/_CoqProject ===== *)
-Q . S2P
Prelude.v
InetAddress.v
Posix.v
Buffer.v
Channel.v
Epoll.v
EventLoop.v
Reactor.v
TcpConnection.v
TcpConnectionSpec.v
TcpConnectionRuns.v
TcpConnectionRace.v
TcpReply.v
TcpRemote.v
Http.v
TimerQueue.v
TimerQueueSpec.v
EventLoopLife.v
LoopProtocol.v
LoopRefine.v
Calendar.v
AsyncLogging.v
AsyncLoggingSpec.v
Logger.v
AsyncDemo.v
AsyncDemoSpec.v
ThreadPool.v
EventLoopThread.v
Acceptor.v
ConnectionI.v
Connector.v
TcpClient.v
TcpClientSpec.v
ConsoleClient.v
EndToEnd.v
TcpServerSingle.v
TcpServerSingleSpec.v
TcpServer.v
TcpServerSpec.v
Programs.v
Legacy.v
