(* ===== verification/Prelude.v ===== *)
(** * KnetLib: a verification development

    KnetLib is a C++ network library of the reactor kind: an event loop per
    thread waits on epoll and calls the callbacks of channels; buffers, timers,
    connections, servers and clients are built on it, and a logger with an
    asynchronous writer stands beside it.  This development models the code
    under include/knetlib/ and src/ as executable definitions and proves what
    makes each part correct, and, where the code does not do what it means to,
    what it does instead.

    ** How the code is translated

    - A member function is a computation of the state and fault monad [M] of
      this file: it reads and writes the members it reads and writes in C++, and
      ends with a value or a [fault].  A fault is an assert (the build has no
      NDEBUG), abort() by the logger, exit() by errif, an exception, or a step
      outside defined behaviour: access to a deleted object, a null pointer, an
      invalidated iterator, a range outside a vector.
    - size_t and the integers of the wire formats are integers of Z with their
      wrap-around written out ([u64], [signed]); masks use the bit operations
      of Z; bytes are Stdlib's [byte], text is [string].
    - The operating system is a parameter, class [Posix] (Posix.v): abstract
      system calls on an abstract kernel.  What a proof needs of them is a class
      of laws beside the component that needs it ([SocketLaws], [ReadvLaws],
      [EpollLaws], [AsyncConnect], ...).  [SimK] is a concrete kernel that
      satisfies the laws; the witnesses execute the definitions on it.
      inet_pton, inet_ntop and operator new are parameters too.
    - A std::function is a name that its owner interprets; user callbacks are
      lists of calls of the interface, or arguments.
    - Components with one thread at a time are written against [Loop]
      (Epoll.v), whose [current_tid] is the thread that runs; the components
      whose point is concurrency are step relations that interleave threads.

    ** The files

    - Prelude: faults, the monad, the predicate [wp] ("returns with the
      postcondition, or stops with an allowed fault") with its rules and
      tactics, machine integers, lists indexed by Z.
    - InetAddress (src/InetAddress.cpp): addresses; text and port round trip.
    - Posix: the system calls and the concrete kernel.
    - Buffer (Buffer.h, src/Buffer.cpp): the byte vector with its two indices.
      [buffer_refines_queue]: any run of its operations acts like a specification
      over the readable bytes, the headroom and the size, and decides exactly
      which prepends and retrievals fail their assert; round trips of the integers in network order; the two searches;
      readFd; and the wrap-around of the size arithmetic.
    - Channel, Epoll, EventLoop (src/Channel.cpp, Epoll.cpp, EventLoop.cpp): the
      masks, the registration protocol, wakeup, the task queue, poll, dispatch.
      [channel_registration_synced]: the kernel's interest list follows the
      channel.  Reactor puts them together: one turn of the loop runs exactly
      the selected callbacks and then the tasks.  EventLoopLife holds the
      constructor and the destructor of EventLoop.
    - TcpConnection, TcpConnectionSpec, TcpConnectionRuns (src/TcpConnection.cpp):
      every operation of a connection; [Inv], the invariant its operations keep;
      runs of events.  The bytes sent are a prefix of the bytes accepted, every
      member holds a value of its type ([connection_well_typed]), the half-close
      waits for the output, the output drains, and an event stops only in the ways
      that [event_fault] lists ([handlers_do_not_fail]): a dispatch with a hang-up
      and an error is one of them ([bad_dispatch]).
    - TcpConnectionRace: forceClose and shutdown of other threads, cut into load,
      exchange and queueInLoop.  The close callback runs once per move to
      kDisconnected, and an exchange that a close has overtaken is what moves the
      state back ([close_callback_counted]); without one the callback runs once.
      [remote_split] and [race_atomic] tie the three steps to the single step
      that the runs of TcpConnectionRuns have.
    - TcpReply: the composition of a connection with a message callback that
      answers its input: what is sent is the answers to what was received, in
      order ([connection_answers]), and all of them are sent if the peer reads
      ([answers_delivered]).  Http is the callback of
      examples/benchmark_server.cpp with its request parser: a printed request is
      read back ([request_roundtrip]), responses are well formed, and the server
      replies once to every read.  TcpRemote: calls of send from other threads,
      split at the load of the state, keep their order, also when a shutdown of
      any thread comes between them ([remote_sends_in_order]).
    - TimerQueue, TimerQueueSpec (Timer.h, src/TimerQueue.cpp): timers as heap
      objects, the set of entries, the timerfd.  The invariant of runs, what a
      firing does, and the use of a timer that cancels itself.  Times are int64_t:
      runs whose times are [bounded] do not overflow, and runAfter is exact or
      overflows ([runAfter_exact_or_overflows]).
    - LoopProtocol (src/EventLoop.cpp again): loop, queueInLoop, quit and wakeup
      as interleaved steps: tasks run once and in order, no wakeup is lost but for
      a task queued before loop(), pushed tasks run when nothing but the wakeups
      on their way helps ([quiet_step], [pushed_tasks_run]).  LoopRefine: the definitions of EventLoop.v are runs of
      these steps ([eventloop_refines_protocol]).
    - AsyncLogging, AsyncLoggingSpec (src/AsyncLogging.cpp): the double buffers,
      the writer thread cut at its lock, rolling of files.  While the writer is
      busy nothing is lost but what a batch of more than 25 buffers drops
      ([nothing_lost]); what an idle iteration loses.
    - Calendar (timestamp of Logger.h, the stamp of AsyncLogging::rollFile): gmtime
      and strftime, tied to the calendar by [gmtime_tick]; the texts compare like
      the times, and so do the names of rolled files and log lines.
    - Logger (Logger.h, src/Logger.cpp): levels, lines, sinks, configuration.
      [log_call_delivers], [log_lines_sort], [disable_flushes].
    - AsyncDemo, AsyncDemoSpec (examples/async_logging_demo.cpp): main, its five
      threads and the writer as interleaved steps over the logger: the file holds
      every line, in order ([demo_log_complete]); the last line is lost when the
      writer's wait times out during the sleep ([demo_idle_loses_last]).
    - ThreadPool (ThreadPool.h, src/ThreadPool.cpp): workers, condition variable
      and destructor as steps: every added task is run before the destructor ends,
      and nobody waits for a spurious wakeup ([own_step]).
    - EventLoopThread (EventLoopThread.cpp, EventLoopThreadPool.cpp): the start and
      stop handshake as steps; the round robin of the pool.
    - Acceptor (src/Acceptor.cpp) and ConnectionI: the interface, a class with
      laws, that servers and clients rely on, and its implementation by
      TcpConnection.  It names the loop a connection is given and the thread that
      calls; between the events of a connection the rest of the process may
      change the system in any way but by writing to its descriptor ([Others]).
      TcpServerSingle, TcpServerSingleSpec, TcpServer,
      TcpServerSpec, Connector, TcpClient, TcpClientSpec are written against it.
      [server_streams] and [pool_server_streams] put servers and connections
      together again: what runs of a connection guarantee holds of every
      connection of a server, with one loop or with worker threads, and a
      connection runs on the loop, and on the thread, that it was assigned to.
    - ConsoleClient (examples/client.cpp): main with its callbacks, the input thread
      and the signal handler, which share the program's globals, as interleaved
      steps over a connection with remote calls: what is typed is sent in order
      ([typed_lines_are_sent]), the program ends ([client_exits]), and a signal
      inside the connection callback hangs it.  EndToEnd joins it to a server's
      connection over a network that delays and splits ([echo_end_to_end]).
    - Programs (main of examples/server.cpp and examples/benchmark_server.cpp): the
      arguments with std::stoi and std::stoul, and the server set up to loop().
    - Legacy (Socket.cpp, Connection.cpp, Server.cpp, utils.cpp): the first
      server of the library, whose constructor fails as soon as it makes a
      sub-reactor, and its destructor.

    ** Bounds and fuel

    Loops of the code are Fixpoints with fuel only where they are not structural.
    [EventLoop.iterate] is bounded by its argument (the loop ends when quit is
    asked for); rollFile's search has as much fuel as there are files and one
    more, which [rollFile_total] shows to be enough; the nesting of close
    callbacks has depth 1, since a closed connection does not close again;
    [Legacy.send_loop] needs one unit per byte and [Legacy.echo] one per read.
    [ConsoleClient.steps_left] counts the steps that main takes to return.
    Elsewhere a bound is a hypothesis about the machine: a vector has at most
    2^63 - 1 bytes; the clock shows less than 2^62 nanoseconds ([ClockLaws], up to
    the year 2116); and the texts of times have a fixed width up to the year 9999.
    In AsyncDemoSpec a process id has at most 7 digits, so that the 503 lines, of at
    most 120 bytes each, fit one buffer of the writer.

    ** What is not modelled, and why

    - Threads of components that are written for one thread at a time: their
      interleavings are in LoopProtocol, ThreadPool, EventLoopThread and
      AsyncLogging (cut at the mutex); data races outside them, such as reads of
      loop_ without the lock, are not.  A connection's calls from other threads
      are atomic in TcpConnectionRuns and what is built on it; TcpConnectionRace
      cuts shutdown and forceClose into their accesses, TcpRemote send at its load.
      A handler of the loop's thread is one step everywhere.
    - The queue that the connections of one loop share: each has its own view of
      it, with its own tasks in order.
    - Reference counts of shared_ptr: a connection is alive as long as an owner
      named by the model holds it (TcpServer shows when none does); one that the
      user keeps is kept for the rest of the run.
    - The base loop of a TcpServer after start(): what its accept4 returns is an
      event (Acceptor.handleRead itself is part of TcpServerSingle).
    - The text that printf formats produce: the formatted message of a log call is
      an input, except in AsyncDemo.
    - How long a wait lasts: a timeout is a step that may come at any time.
    - Text on standard output; SIGPIPE, which EventLoop.cpp ignores, so that a write
      to a closed connection fails with EPIPE.
    - Callbacks.h, noncopyable.h and the aliases of Timestamp.h (type names), the
      other programs of src/examples and src/test (tests of the library), scripts
      and build files. *)

From stdpp Require Export base list gmap strings sorting.
From Stdlib Require Export ZArith Lia Strings.Byte.

#[global] Open Scope Z_scope.
#[global] Set Default Goal Selector "!".

(** ** Faults: how the C++ program stops or leaves defined behaviour *)

Inductive fault : Type :=
| AssertFailed (site : string)   (* assert() in a build without NDEBUG *)
| Aborted (site : string)        (* FATAL or SYSFATAL: the logger calls abort() *)
| ExitFailure (site : string)    (* errif: perror and exit(EXIT_FAILURE) *)
| LengthError                    (* std::vector::resize beyond max_size *)
| OutOfBounds                    (* access outside a std::vector or array *)
| UseAfterFree (site : string)   (* access to a deleted object *)
| NullDeref (site : string)      (* member call through a null pointer *)
| IteratorInvalidated (site : string)
| Thrown (what : string)         (* an exception that leaves the function *)
| DivisionByZero                 (* integer division or remainder by zero *)
| IntegerOverflow (site : string) (* arithmetic of int64_t outside its range *)
| OutOfFuel.                     (* a bound of the model, shown to be unreachable *)

#[export] Instance fault_eq_dec : EqDecision fault.
Proof. solve_decision. Defined.

Inductive result (A : Type) : Type :=
| Ok (a : A)
| Err (f : fault).
Arguments Ok {A} a.
Arguments Err {A} f.

(** ** The state and fault monad *)

Definition M (S A : Type) : Type := S -> result (A * S).

Section monad.
Context {S : Type}.

Definition ret {A} (a : A) : M S A := fun s => Ok (a, s).

Definition bind {A B} (m : M S A) (k : A -> M S B) : M S B :=
  fun s => match m s with
           | Ok (a, s') => k a s'
           | Err f => Err f
           end.

Definition throw {A} (f : fault) : M S A := fun _ => Err f.

Definition gets {A} (f : S -> A) : M S A := fun s => Ok (f s, s).

Definition modify (f : S -> S) : M S unit := fun s => Ok (tt, f s).

Definition ensure (f : fault) (b : bool) : M S unit :=
  if b then ret tt else throw f.

Definition assert_ (site : string) (b : bool) : M S unit :=
  ensure (AssertFailed site) b.

Definition when (b : bool) (m : M S unit) : M S unit :=
  if b then m else ret tt.

Fixpoint forM {A} (l : list A) (f : A -> M S unit) : M S unit :=
  match l with
  | [] => ret tt
  | a :: l' => bind (f a) (fun _ => forM l' f)
  end.
End monad.

(** A computation on a part of the state. *)
Definition zoom {S T A} (get : S -> T) (put : T -> S -> S) (m : M T A) : M S A :=
  fun s => match m (get s) with
           | Ok (a, t) => Ok (a, put t s)
           | Err f => Err f
           end.

Declare Scope cpp_scope.
Delimit Scope cpp_scope with cpp.
Notation "x <- m ;; k" := (bind m (fun x => k))
  (at level 100, m at next level, right associativity) : cpp_scope.
Notation "m ;;; k" := (bind m (fun _ => k))
  (at level 100, right associativity) : cpp_scope.
#[global] Open Scope cpp_scope.

(** ** Weakest preconditions

    [wp F m Q s]: run from [s], [m] either returns with [Q], or stops with a
    fault that [F] allows.  [safe] allows none. *)

Definition wp {S A} (F : fault -> Prop) (m : M S A) (Q : A -> S -> Prop) (s : S) : Prop :=
  match m s with
  | Ok (a, s') => Q a s'
  | Err f => F f
  end.

Definition no_fault (f : fault) : Prop := False.

Section wp_rules.
Context {S : Type} (F : fault -> Prop).

Lemma wp_ret {A} (a : A) Q (s : S) : wp F (ret a) Q s = Q a s.
Proof. reflexivity. Qed.

Lemma wp_bind {A B} (m : M S A) (k : A -> M S B) Q s :
  wp F (bind m k) Q s = wp F m (fun a => wp F (k a) Q) s.
Proof. unfold wp, bind. by destruct (m s) as [[a s']|f]. Qed.

Lemma wp_gets {A} (g : S -> A) Q s : wp F (gets g) Q s = Q (g s) s.
Proof. reflexivity. Qed.

Lemma wp_modify (g : S -> S) Q s : wp F (modify g) Q s = Q tt (g s).
Proof. reflexivity. Qed.

Lemma wp_throw {A} f (Q : A -> S -> Prop) s : wp F (throw f) Q s = F f.
Proof. reflexivity. Qed.

Lemma wp_ensure f b (Q : unit -> S -> Prop) s :
  wp F (ensure f b) Q s = if b then Q tt s else F f.
Proof. by destruct b. Qed.

Lemma wp_assert site b (Q : unit -> S -> Prop) s :
  wp F (assert_ site b) Q s = if b then Q tt s else F (AssertFailed site).
Proof. by destruct b. Qed.

Lemma wp_when b m (Q : unit -> S -> Prop) s :
  wp F (when b m) Q s = if b then wp F m Q s else Q tt s.
Proof. by destruct b. Qed.

Lemma wp_zoom {T A} (get : S -> T) (put : T -> S -> S) (m : M T A) Q s :
  wp F (zoom get put m) Q s = wp F m (fun a t => Q a (put t s)) (get s).
Proof. unfold wp, zoom. by destruct (m (get s)) as [[a t]|f]. Qed.

Lemma wp_mono {A} (m : M S A) (Q Q' : A -> S -> Prop) s :
  wp F m Q s -> (forall a s', Q a s' -> Q' a s') -> wp F m Q' s.
Proof. unfold wp. destruct (m s) as [[a s']|f]; auto. Qed.

Lemma wp_and {A} (m : M S A) (Q Q' : A -> S -> Prop) s :
  wp F m Q s -> wp F m Q' s -> wp F m (fun a s' => Q a s' /\ Q' a s') s.
Proof. unfold wp. destruct (m s) as [[a s']|f]; auto. Qed.

Lemma wp_forM {A} (I : list A -> S -> Prop) (l : list A) (f : A -> M S unit) s :
  I l s ->
  (forall a l' s', I (a :: l') s' -> wp F (f a) (fun _ => I l') s') ->
  wp F (forM l f) (fun _ => I []) s.
Proof.
  intros HI Hstep. revert s HI. induction l as [|a l IH]; intros s HI; simpl; [done|].
  rewrite wp_bind. eapply wp_mono; [by apply Hstep|]. auto.
Qed.
End wp_rules.

Lemma wp_fault_mono {S A} (F F' : fault -> Prop) (m : M S A) Q s :
  wp F m Q s -> (forall f, F f -> F' f) -> wp F' m Q s.
Proof. unfold wp. destruct (m s) as [[a s']|f]; auto. Qed.

(** A computation that never returns stops with its only possible fault. *)
Lemma wp_fails {S A} (f0 : fault) (m : M S A) s :
  wp (fun f => f = f0) m (fun _ _ => False) s -> m s = Err f0.
Proof. unfold wp. destruct (m s) as [[a s']|f]; [done|by intros ->]. Qed.

(** The converse direction: from a returned value to the postcondition. *)
Lemma wp_ok {S A} (m : M S A) Q s :
  wp no_fault m Q s -> exists a s', m s = Ok (a, s') /\ Q a s'.
Proof. unfold wp. destruct (m s) as [[a s']|f]; [eauto|done]. Qed.

Lemma wp_of_ok {S A} F (m : M S A) (Q : A -> S -> Prop) s a s' :
  m s = Ok (a, s') -> Q a s' -> wp F m Q s.
Proof. unfold wp. by intros ->. Qed.

Create Rewrite HintDb wp.
#[export] Hint Rewrite @wp_ret @wp_bind @wp_gets @wp_modify @wp_throw @wp_ensure
  @wp_assert @wp_when @wp_zoom : wp.

(** Symbolic execution of a computation in a [wp] goal. *)
Ltac wp_simpl := repeat (progress (autorewrite with wp; cbn beta iota)).
(** Use a specification of the call at the head of the goal. *)
Tactic Notation "wp_call" uconstr(spec) :=
  eapply wp_mono; [eapply spec | cbn beta].
Ltac bool_solve :=
  repeat match goal with
  | H : (_ && _)%bool = true |- _ => apply andb_prop in H as [? ?]
  | H : (_ <? _) = true |- _ => apply Z.ltb_lt in H
  | H : (_ <? _) = false |- _ => apply Z.ltb_ge in H
  | H : (_ <=? _) = true |- _ => apply Z.leb_le in H
  | H : (_ <=? _) = false |- _ => apply Z.leb_gt in H
  | H : (_ =? _) = true |- _ => apply Z.eqb_eq in H
  | H : (_ =? _) = false |- _ => apply Z.eqb_neq in H
  end.
(** Case on the first boolean comparison of the goal. *)
Ltac case_bool :=
  match goal with
  | |- context [if ?b then _ else _] => let E := fresh "E" in destruct b eqn:E; bool_solve
  end.

(** ** Bytes *)

#[export] Instance byte_eq_dec : EqDecision byte := Byte.byte_eq_dec.

Definition byte_to_Z (b : byte) : Z := Z.of_N (Byte.to_N b).

Definition byte_of_Z (z : Z) : byte :=
  match Byte.of_N (Z.to_N (z mod 256)) with
  | Some b => b
  | None => x00
  end.

Lemma byte_to_Z_bound b : 0 <= byte_to_Z b < 256.
Proof. unfold byte_to_Z. pose proof (Byte.to_N_bounded b). lia. Qed.

Lemma byte_of_to_Z b : byte_of_Z (byte_to_Z b) = b.
Proof. by destruct b. Qed.

Lemma byte_to_of_Z z : byte_to_Z (byte_of_Z z) = z mod 256.
Proof.
  unfold byte_to_Z, byte_of_Z.
  pose proof (Z.mod_pos_bound z 256 eq_refl) as Hb.
  destruct (Byte.of_N (Z.to_N (z mod 256))) as [b|] eqn:E.
  - apply Byte.to_of_N in E. rewrite E. lia.
  - apply Byte.of_N_None_iff in E. lia.
Qed.

(** Big-endian ("network order") images of integers. *)
Fixpoint be_bytes (n : nat) (z : Z) : list byte :=
  match n with
  | O => []
  | S n' => byte_of_Z (Z.shiftr z (8 * Z.of_nat n')) :: be_bytes n' z
  end.

Definition be_value (l : list byte) : Z :=
  foldl (fun acc b => acc * 256 + byte_to_Z b) 0 l.

Lemma length_be_bytes n z : length (be_bytes n z) = n.
Proof. induction n; simpl; auto. Qed.

Lemma be_value_fold l acc :
  foldl (fun acc b => acc * 256 + byte_to_Z b) acc l
  = acc * 2 ^ (8 * Z.of_nat (length l)) + be_value l.
Proof.
  unfold be_value. revert acc.
  induction l as [|b l IH]; intros acc; simpl foldl; [simpl; lia|].
  rewrite IH, (IH (0 * 256 + byte_to_Z b)). simpl length.
  replace (8 * Z.of_nat (S (length l))) with (8 + 8 * Z.of_nat (length l)) by lia.
  rewrite Z.pow_add_r by lia. change (2 ^ 8) with 256. lia.
Qed.

Lemma be_value_cons b l :
  be_value (b :: l) = byte_to_Z b * 2 ^ (8 * Z.of_nat (length l)) + be_value l.
Proof. unfold be_value at 1. simpl foldl. rewrite be_value_fold. lia. Qed.

Lemma be_value_bytes n z : be_value (be_bytes n z) = z mod 2 ^ (8 * Z.of_nat n).
Proof.
  induction n as [|n IH]; [simpl; by rewrite Z.mod_1_r|].
  simpl be_bytes. rewrite be_value_cons, IH, byte_to_of_Z, length_be_bytes.
  set (k := 8 * Z.of_nat n).
  replace (8 * Z.of_nat (S n)) with (k + 8) by lia.
  rewrite Z.shiftr_div_pow2, Z.pow_add_r by lia.
  assert (0 < 2 ^ k) by (apply Z.pow_pos_nonneg; lia).
  rewrite Z.rem_mul_r by lia. change (2 ^ 8) with 256. lia.
Qed.

(** Two's complement reading of the low [w] bits. *)
Definition signed (w z : Z) : Z :=
  let m := z mod 2 ^ w in if m <? 2 ^ (w - 1) then m else m - 2 ^ w.

Definition int_range (w z : Z) : Prop := - 2 ^ (w - 1) <= z < 2 ^ (w - 1).

#[export] Instance int_range_dec w z : Decision (int_range w z).
Proof. unfold int_range. apply _. Defined.

Lemma signed_mod w z : signed w (z mod 2 ^ w) = signed w z.
Proof. unfold signed. by rewrite Z.mod_mod_divide by apply Z.divide_refl. Qed.

Lemma signed_id w z : 0 < w -> int_range w z -> signed w z = z.
Proof.
  intros Hw [Hl Hu]. unfold signed.
  assert (2 ^ w = 2 * 2 ^ (w - 1)) as Hp by (rewrite <- Z.pow_succ_r; [f_equal|]; lia).
  assert (0 < 2 ^ (w - 1)) by (apply Z.pow_pos_nonneg; lia).
  destruct (Z.le_gt_cases 0 z).
  - rewrite Z.mod_small by lia. case_bool; lia.
  - replace (z mod 2 ^ w) with (z + 2 ^ w).
    + case_bool; lia.
    + rewrite <- (Z.mod_small (z + 2 ^ w) (2 ^ w)) at 1 by lia.
      rewrite <- (Z.mul_1_l (2 ^ w)) at 1. apply Z.mod_add; lia.
Qed.

(** A result of signed 64-bit arithmetic, whose overflow is undefined. *)
Definition i64 {S} (site : string) (z : Z) : M S Z :=
  ensure (IntegerOverflow site) (bool_decide (int_range 64 z));;; ret z.

Lemma wp_i64 {S} F site z (Q : Z -> S -> Prop) s :
  int_range 64 z -> Q z s -> wp F (i64 site z) Q s.
Proof. intros Hz HQ. unfold i64. wp_simpl. by rewrite bool_decide_eq_true_2. Qed.

(** ** size_t: unsigned 64-bit arithmetic *)

Definition u64 (z : Z) : Z := z mod 2 ^ 64.

Lemma u64_small z : 0 <= z < 2 ^ 64 -> u64 z = z.
Proof. apply Z.mod_small. Qed.

Lemma u64_bound z : 0 <= u64 z < 2 ^ 64.
Proof. apply Z.mod_pos_bound. lia. Qed.

(** Remove the wrap-around where the value is in range, innermost first. *)
Ltac u64_tac :=
  repeat match goal with
  | |- context [u64 ?x] => rewrite (u64_small x) by lia
  | H : context [u64 ?x] |- _ => rewrite (u64_small x) in H by lia
  end.

(** ** Vectors of bytes as lists indexed by Z *)

Definition zlen {A} (l : list A) : Z := Z.of_nat (length l).
Definition ztake {A} (n : Z) (l : list A) : list A := take (Z.to_nat n) l.
Definition zdrop {A} (n : Z) (l : list A) : list A := drop (Z.to_nat n) l.
(** The elements at positions [i, i + n). *)
Definition zslice {A} (i n : Z) (l : list A) : list A := ztake n (zdrop i l).
(** Overwrite the elements at [i, i + zlen d) with [d]. *)
Definition splice {A} (i : Z) (d l : list A) : list A :=
  ztake i l ++ d ++ zdrop (i + zlen d) l.

Section zlists.
Context {A : Type}.
Implicit Types (l d : list A) (i n : Z).

Lemma zlen_nonneg l : 0 <= zlen l.
Proof. unfold zlen. lia. Qed.

Lemma zlen_nil : zlen (@nil A) = 0.
Proof. reflexivity. Qed.

Lemma zlen_app l d : zlen (l ++ d) = zlen l + zlen d.
Proof. unfold zlen. rewrite length_app. lia. Qed.

Lemma zlen_ztake n l : 0 <= n <= zlen l -> zlen (ztake n l) = n.
Proof. unfold zlen, ztake. rewrite length_take. lia. Qed.

Lemma zlen_zdrop n l : 0 <= n <= zlen l -> zlen (zdrop n l) = zlen l - n.
Proof. unfold zlen, zdrop. rewrite length_drop. lia. Qed.

Lemma zlen_zslice i n l :
  0 <= i -> 0 <= n -> i + n <= zlen l -> zlen (zslice i n l) = n.
Proof. intros. unfold zslice. rewrite zlen_ztake; [done|]. rewrite zlen_zdrop; lia. Qed.

Lemma zlen_splice i d l :
  0 <= i -> i + zlen d <= zlen l -> zlen (splice i d l) = zlen l.
Proof.
  intros. pose proof (zlen_nonneg d). unfold splice.
  rewrite !zlen_app, zlen_ztake, zlen_zdrop; lia.
Qed.

Lemma zlen_0_nil l : zlen l = 0 -> l = [].
Proof. unfold zlen. destruct l; simpl; [done|lia]. Qed.

Lemma ztake_all n l : zlen l <= n -> ztake n l = l.
Proof. unfold zlen, ztake. intros. apply take_ge. lia. Qed.

Lemma zdrop_all n l : zlen l <= n -> zdrop n l = [].
Proof. unfold zlen, zdrop. intros. apply drop_ge. lia. Qed.

Lemma ztake_0 l : ztake 0 l = [].
Proof. done. Qed.

Lemma zdrop_0 l : zdrop 0 l = l.
Proof. done. Qed.

Lemma ztake_zdrop n l : ztake n l ++ zdrop n l = l.
Proof. apply take_drop. Qed.

Lemma zdrop_zdrop i n l : 0 <= i -> 0 <= n -> zdrop n (zdrop i l) = zdrop (i + n) l.
Proof. intros. unfold zdrop. rewrite drop_drop. f_equal. lia. Qed.

Lemma zslice_split i n m l :
  0 <= i -> 0 <= n -> 0 <= m ->
  zslice i (n + m) l = zslice i n l ++ zslice (i + n) m l.
Proof.
  intros. unfold zslice. rewrite <- (zdrop_zdrop i n) by lia.
  unfold ztake, zdrop. generalize (drop (Z.to_nat i) l) as k. intros k.
  rewrite Z2Nat.inj_add by lia.
  rewrite <- (take_drop (Z.to_nat n) k) at 1.
  rewrite take_app. rewrite take_take, length_take.
  f_equal; [f_equal; lia|].
  destruct (decide (Z.to_nat n <= length k)%nat).
  - f_equal. lia.
  - rewrite (drop_ge k) by lia. by rewrite !take_nil.
Qed.

(** Reading a spliced vector: before, inside and after the written part. *)
Lemma zslice_splice_before i d l j n :
  0 <= j -> 0 <= n -> j + n <= i -> i <= zlen l ->
  zslice j n (splice i d l) = zslice j n l.
Proof.
  intros. unfold zslice, splice, ztake, zdrop, zlen in *.
  rewrite drop_app_le by (rewrite length_take; lia).
  rewrite take_app_le by (rewrite length_drop, length_take; lia).
  rewrite !take_drop_commute, take_take. do 2 f_equal. lia.
Qed.

Lemma zslice_splice_inside i d l :
  0 <= i -> i <= zlen l -> zslice i (zlen d) (splice i d l) = d.
Proof.
  intros. unfold zslice, splice, ztake, zdrop, zlen in *.
  rewrite drop_app_ge by (rewrite length_take; lia).
  rewrite length_take.
  replace (Z.to_nat i - Z.to_nat i `min` length l)%nat with O by lia.
  rewrite drop_0, take_app_le by lia. apply take_ge. lia.
Qed.

Lemma zslice_splice_after i d l j n :
  0 <= i -> i + zlen d <= j -> i + zlen d <= zlen l -> 0 <= n ->
  zslice j n (splice i d l) = zslice j n l.
Proof.
  intros. unfold zslice, splice, ztake, zdrop, zlen in *. f_equal.
  rewrite app_assoc, drop_app_ge by (rewrite length_app, length_take; lia).
  rewrite drop_drop, length_app, length_take. f_equal. lia.
Qed.
End zlists.

Lemma filter_none {A} (P : A -> Prop) `{!forall x, Decision (P x)} (l : list A) :
  (forall x, x ∈ l -> ~ P x) -> filter P l = [].
Proof.
  induction l as [|x l IH]; intros Hl; [done|].
  rewrite filter_cons, decide_False by (apply Hl; by left). apply IH. set_solver.
Qed.

Create Rewrite HintDb zlen.
#[export] Hint Rewrite @zlen_app @zlen_nil : zlen.
