(* ===== verification/InetAddress.v ===== *)
(** * InetAddress: an IPv4 address and port
    (include/knetlib/InetAddress.h, src/InetAddress.cpp)

    [sockaddr_in] is kept as it is in memory on a little-endian host: port and
    address in network byte order.  inet_pton and inet_ntop are the C
    library's: class [Inet], with what the code relies on in [InetLaws]. *)

From Stdlib Require Import Ascii DecimalString DecimalN Decimal.
From stdpp Require Import pretty.
From S2P Require Import Prelude.

Record sockaddr_in : Type := mkSockaddr {
  sin_family : Z;
  sin_port : Z;     (* uint16_t, network order *)
  s_addr : Z        (* uint32_t, network order *)
}.

Class Inet : Type := {
  inet_pton : string -> option Z;     (* Some: the 32-bit address in network order *)
  inet_ntop : Z -> string             (* text of an address in network order *)
}.

Class InetLaws `{Inet} : Prop := {
  pton_ntop : forall a, 0 <= a < 2 ^ 32 -> inet_pton (inet_ntop a) = Some a;
  ntop_no_colon : forall a, ":"%char ∉ String.list_ascii_of_string (inet_ntop a);
  pton_range : forall s a, inet_pton s = Some a -> 0 <= a < 2 ^ 32
}.

Module InetAddress.

Definition AF_INET : Z := 2.
Definition INADDR_ANY : Z := 0.
Definition INADDR_LOOPBACK : Z := 0x7f000001.

(** htons, ntohs, htonl: the bytes of the value in reverse order. *)
Definition htons (x : Z) : Z := Z.lor (Z.shiftl (Z.land x 255) 8) (Z.land (Z.shiftr x 8) 255).
Definition ntohs : Z -> Z := htons.
Definition htonl (x : Z) : Z :=
  Z.lor (Z.shiftl (htons (Z.land x 65535)) 16) (htons (Z.land (Z.shiftr x 16) 65535)).

(** InetAddress(uint16_t port, bool loopback) *)
Definition of_port (port : Z) (loopback : bool) : sockaddr_in :=
  let ip := if loopback then INADDR_LOOPBACK else INADDR_ANY in
  mkSockaddr AF_INET (htons port) (htonl ip).

(** InetAddress() *)
Definition default : sockaddr_in := mkSockaddr AF_INET 0 0.

Definition setAddress (addr : sockaddr_in) (_ : sockaddr_in) : sockaddr_in := addr.
Definition getSockaddr (a : sockaddr_in) : sockaddr_in := a.
Definition getSocklen (_ : sockaddr_in) : Z := 16.
Definition setInetAddr (addr : sockaddr_in) (len : Z) (_ : sockaddr_in) : sockaddr_in := addr.
Definition getAddr (a : sockaddr_in) : sockaddr_in := a.
Definition getAddr_len (_ : sockaddr_in) : Z := 16.

Section text.
Context `{Inet}.

(** InetAddress(const std::string& ip, uint16_t port): an address that does
    not parse ends the program. *)
Definition of_ip (ip : string) (port : Z) : result sockaddr_in :=
  match inet_pton ip with
  | None => Err (ExitFailure "InetAddress::inet_pton")
  | Some a => Ok (mkSockaddr AF_INET (htons port) a)
  end.

(** The buffer of toIp holds any dotted quad, so inet_ntop does not fail. *)
Definition toIp (a : sockaddr_in) : string := inet_ntop (s_addr a).
Definition toPort (a : sockaddr_in) : Z := ntohs (sin_port a).

(** std::to_string of an unsigned value. *)
Definition to_string (n : Z) : string := pretty (Z.to_N n).

Definition toIpPort (a : sockaddr_in) : string := (toIp a ++ ":" ++ to_string (toPort a))%string.
End text.

(** ** Lemmas *)

(** By evaluation on the 65536 values of uint16_t. *)
Lemma htons_htons x : 0 <= x < 2 ^ 16 -> ntohs (htons x) = x.
Proof.
  intros Hx.
  assert (forallb (fun h => forallb (fun l => ntohs (htons (256 * h + l)) =? 256 * h + l)
                              (seqZ 0 256)) (seqZ 0 256) = true) as Hall
    by (vm_compute; reflexivity).
  rewrite forallb_forall in Hall. rewrite (Z.div_mod x 256) by lia.
  assert (0 <= x / 256 < 256) as Hh by (split; [apply Z.div_pos|apply Z.div_lt_upper_bound]; lia).
  assert (0 <= x mod 256 < 256) as Hl by (apply Z.mod_pos_bound; lia).
  specialize (Hall (x / 256)). rewrite forallb_forall in Hall.
  apply Z.eqb_eq, Hall; apply list_elem_of_In, elem_of_seqZ; lia.
Qed.

Lemma toPort_range a : 0 <= toPort a.
Proof.
  unfold toPort, ntohs, htons. apply Z.lor_nonneg. split.
  - apply Z.shiftl_nonneg, Z.land_nonneg. by right.
  - apply Z.land_nonneg. by right.
Qed.

(** Splitting a text at its first colon is unambiguous. *)
Lemma colon_split s1 s2 t1 t2 :
  ":"%char ∉ String.list_ascii_of_string s1 -> ":"%char ∉ String.list_ascii_of_string s2 ->
  (s1 ++ ":" ++ t1)%string = (s2 ++ ":" ++ t2)%string -> s1 = s2 /\ t1 = t2.
Proof.
  revert s2. induction s1 as [|c s1 IH]; intros [|c2 s2] H1 H2 Heq;
    cbn [String.append] in Heq; simpl in H1, H2;
    rewrite ?elem_of_cons in H1; rewrite ?elem_of_cons in H2; injection Heq; clear Heq; intros; subst.
  - done.
  - by destruct H2; left.
  - by destruct H1; left.
  - destruct (IH s2) as [-> ->]; [by intros ?; apply H1; right|by intros ?; apply H2; right|done|done].
Qed.

(** ** Properties *)

(** An address built from a text that inet_ntop produces and a port prints
    as that text, a colon and the port in decimal; toPort and toIp give back
    the two parts. *)
Lemma address_roundtrip `{InetLaws} a port :
  0 <= a < 2 ^ 32 -> 0 <= port < 2 ^ 16 ->
  exists addr, of_ip (inet_ntop a) port = Ok addr
    /\ toIp addr = inet_ntop a /\ toPort addr = port
    /\ toIpPort addr = (inet_ntop a ++ ":" ++ to_string port)%string.
Proof.
  intros Ha Hp. unfold of_ip. rewrite pton_ntop by done. eexists. split; [done|].
  unfold toIpPort, toIp, toPort; simpl. by rewrite htons_htons.
Qed.

(** The printed form identifies an address: two addresses with the same
    toIpPort have the same IP and the same port. *)
Theorem toIpPort_injective `{InetLaws} a b :
  0 <= s_addr a < 2 ^ 32 -> 0 <= s_addr b < 2 ^ 32 -> toIpPort a = toIpPort b ->
  s_addr a = s_addr b /\ toPort a = toPort b.
Proof.
  intros Ha Hb Heq. apply colon_split in Heq as [Hip Hport]; [|apply ntop_no_colon..].
  split.
  - unfold toIp in Hip. apply (f_equal inet_pton) in Hip.
    rewrite !pton_ntop in Hip by done. by injection Hip.
  - unfold to_string in Hport. apply (inj pretty) in Hport.
    pose proof (toPort_range a). pose proof (toPort_range b). lia.
Qed.

(** A concrete pair of functions, for executions: addresses in decimal. *)
#[export] Instance decimal_inet : Inet := {|
  inet_ntop a := NilZero.string_of_uint (N.to_uint (Z.to_N a));
  inet_pton s := match NilZero.uint_of_string s with
                 | Some d => let a := Z.of_N (N.of_uint d) in
                             if a <? 2 ^ 32 then Some a else None
                 | None => None
                 end
|}.

Lemma uint_no_colon d : ":"%char ∉ String.list_ascii_of_string (NilEmpty.string_of_uint d).
Proof. induction d; simpl; rewrite ?elem_of_cons; try (intros [?|?]; [done|by auto]). set_solver. Qed.

#[export] Instance decimal_inet_laws : InetLaws.
Proof.
  constructor.
  - intros a Ha. unfold inet_pton, inet_ntop; simpl.
    rewrite NilZero.usu.
    + rewrite DecimalN.Unsigned.of_to, Z2N.id by lia. by rewrite (proj2 (Z.ltb_lt _ _)) by lia.
    + intros Hn. apply (f_equal N.of_uint) in Hn as Hz.
      rewrite DecimalN.Unsigned.of_to in Hz. rewrite Hz in Hn. done.
  - intros a. unfold inet_ntop; simpl. unfold NilZero.string_of_uint.
    destruct (N.to_uint (Z.to_N a)) eqn:E; [set_solver|rewrite <- E; apply uint_no_colon..].
  - intros s a. unfold inet_pton; simpl. destruct (NilZero.uint_of_string s); [|done].
    case_bool; [intros [= <-]; lia|done].
Qed.

Lemma address_roundtrip_witness :
  exists addr, of_ip (inet_ntop 16777343) 8888 = Ok addr
    /\ toIp addr = inet_ntop 16777343 /\ toPort addr = 8888
    /\ toIpPort addr = (inet_ntop 16777343 ++ ":" ++ to_string 8888)%string.
Proof. apply (address_roundtrip 16777343 8888); lia. Defined.

Lemma toIpPort_injective_witness :
  s_addr (of_port 80 true) = s_addr (mkSockaddr AF_INET (htons 80) 16777343)
  /\ toPort (of_port 80 true) = toPort (mkSockaddr AF_INET (htons 80) 16777343).
Proof.
  apply (toIpPort_injective (of_port 80 true) (mkSockaddr AF_INET (htons 80) 16777343));
    [by split|by split|reflexivity].
Defined.
End InetAddress.
