(* ===== verification/Posix.v ===== *)
(** * The operating system as an interface

    The system calls that src/ makes are not code of the repository, so they
    are a parameter: a class [Posix K] of operations on an abstract kernel
    state [K].  What a component relies on is stated as a law next to the
    component that uses it.  [SimK] is a concrete kernel, driven by scripted
    answers, on which the definitions are executed. *)

From S2P Require Import Prelude InetAddress.

(** The outcome of a system call: a value, or -1 with an errno. *)
Inductive sysres (A : Type) : Type :=
| SysOk (a : A)
| SysErr (errno : Z).
Arguments SysOk {A} a.
Arguments SysErr {A} errno.

(** errno values (Linux). *)
Definition ENOENT : Z := 2.
Definition EINTR : Z := 4.
Definition EBADF : Z := 9.
Definition EAGAIN : Z := 11.
Definition EEXIST : Z := 17.
Definition EMFILE : Z := 24.
Definition EPIPE : Z := 32.
Definition ENETUNREACH : Z := 101.
Definition ECONNABORTED : Z := 103.
Definition ECONNRESET : Z := 104.
Definition ECONNREFUSED : Z := 111.
Definition EINPROGRESS : Z := 115.

(** epoll event bits and operations (sys/epoll.h). *)
Definition EPOLLIN : Z := 1.
Definition EPOLLPRI : Z := 2.
Definition EPOLLOUT : Z := 4.
Definition EPOLLERR : Z := 8.
Definition EPOLLHUP : Z := 16.
Definition EPOLLRDHUP : Z := 8192.

Inductive epoll_op : Type := EPOLL_CTL_ADD | EPOLL_CTL_DEL | EPOLL_CTL_MOD.
#[export] Instance epoll_op_eq_dec : EqDecision epoll_op.
Proof. solve_decision. Defined.

(** One [epoll_event]: the event bits and the user pointer. *)
Record epoll_event : Type := mkEvent { ev_events : Z; ev_ptr : Z }.

Class Posix (K : Type) : Type := {
  (* readv over buffers of the given lengths: the bytes delivered, in the
     order in which they fill the buffers *)
  sys_readv : Z -> list Z -> K -> sysres (list byte) * K;
  sys_read : Z -> Z -> K -> sysres (list byte) * K;
  sys_write : Z -> list byte -> K -> sysres Z * K;
  sys_shutdown_wr : Z -> K -> sysres unit * K;
  sys_close : Z -> K -> sysres unit * K;
  (* getsockopt(SOL_SOCKET, SO_ERROR) *)
  sys_so_error : Z -> K -> sysres Z * K;
  (* epoll_ctl epfd op fd event *)
  sys_epoll_ctl : Z -> epoll_op -> Z -> epoll_event -> K -> sysres unit * K;
  (* epoll_wait epfd maxevents timeout *)
  sys_epoll_wait : Z -> Z -> Z -> K -> sysres (list epoll_event) * K;
  (* system_clock::now, in nanoseconds *)
  sys_now : K -> Z * K;
  (* timerfd_settime fd (tv_sec, tv_nsec), relative, one shot *)
  sys_timerfd_settime : Z -> Z * Z -> K -> sysres unit * K;
  (* socket, setsockopt(SO_REUSEADDR), bind, listen, accept4, connect and
     getsockname of a nonblocking TCP socket *)
  sys_socket : K -> sysres Z * K;
  sys_reuseaddr : Z -> K -> sysres unit * K;
  sys_bind : Z -> sockaddr_in -> K -> sysres unit * K;
  sys_listen : Z -> K -> sysres unit * K;
  sys_accept4 : Z -> K -> sysres (Z * sockaddr_in) * K;
  sys_connect : Z -> sockaddr_in -> K -> sysres unit * K;
  sys_getsockname : Z -> K -> sysres sockaddr_in * K;
  (* the value of errno after the logger has written a SYSERR line, given its
     value before: the logger runs library code that may set errno *)
  errno_after_log : Z -> K -> Z * K
}.

(** What readv(2) promises: it delivers no more than the buffers hold. *)
Class ReadvLaws (K : Type) `{Posix K} : Prop :=
  readv_len : forall fd lens k d k',
    Forall (Z.le 0) lens -> sys_readv fd lens k = (SysOk d, k') -> zlen d <= foldr Z.add 0 lens.

(** A system call as a computation on the kernel state. *)
Definition sys {K A} (f : K -> A * K) : M K A :=
  fun k => let '(a, k') := f k in Ok (a, k').

Lemma wp_sys {K A} F (f : K -> A * K) (Q : A -> K -> Prop) k :
  wp F (sys f) Q k = Q (f k).1 (f k).2.
Proof. unfold wp, sys. by destruct (f k). Qed.
#[export] Hint Rewrite @wp_sys : wp.

(** ** A concrete kernel *)

(** Scripted answers are consumed in order; an empty script answers with the
    default of the call.  [sk_sent] holds the bytes each descriptor accepted,
    [sk_epoll] the interest list, [sk_armed] the last timer setting, [sk_got] the
    bytes that reads have returned. *)
Record SimK : Type := mkSimK {
  sk_reads : list (sysres (list byte));
  sk_writes : list (sysres Z);
  sk_soerrors : list (sysres Z);
  sk_connects : list (sysres unit);
  sk_waits : list (list epoll_event);
  sk_accepts : list (sysres (Z * sockaddr_in));
  sk_clock : Z;
  sk_sent : gmap Z (list byte);
  sk_epoll : gmap Z epoll_event;
  sk_shut : list Z;
  sk_closed : list Z;
  sk_armed : option (Z * Z);
  sk_nextfd : Z;
  sk_got : list byte
}.

Definition sim_init : SimK :=
  mkSimK [] [] [] [] [] [] 0 ∅ ∅ [] [] None 100 [].

(** Scripts. *)
Definition with_reads (l : list (sysres (list byte))) (k : SimK) : SimK :=
  mkSimK l (sk_writes k) (sk_soerrors k) (sk_connects k) (sk_waits k) (sk_accepts k)
    (sk_clock k) (sk_sent k) (sk_epoll k) (sk_shut k) (sk_closed k) (sk_armed k) (sk_nextfd k) (sk_got k).
Definition with_writes (l : list (sysres Z)) (k : SimK) : SimK :=
  mkSimK (sk_reads k) l (sk_soerrors k) (sk_connects k) (sk_waits k) (sk_accepts k)
    (sk_clock k) (sk_sent k) (sk_epoll k) (sk_shut k) (sk_closed k) (sk_armed k) (sk_nextfd k) (sk_got k).
Definition with_soerrors (l : list (sysres Z)) (k : SimK) : SimK :=
  mkSimK (sk_reads k) (sk_writes k) l (sk_connects k) (sk_waits k) (sk_accepts k)
    (sk_clock k) (sk_sent k) (sk_epoll k) (sk_shut k) (sk_closed k) (sk_armed k) (sk_nextfd k) (sk_got k).
Definition with_connects (l : list (sysres unit)) (k : SimK) : SimK :=
  mkSimK (sk_reads k) (sk_writes k) (sk_soerrors k) l (sk_waits k) (sk_accepts k)
    (sk_clock k) (sk_sent k) (sk_epoll k) (sk_shut k) (sk_closed k) (sk_armed k) (sk_nextfd k) (sk_got k).
Definition with_waits (l : list (list epoll_event)) (k : SimK) : SimK :=
  mkSimK (sk_reads k) (sk_writes k) (sk_soerrors k) (sk_connects k) l (sk_accepts k)
    (sk_clock k) (sk_sent k) (sk_epoll k) (sk_shut k) (sk_closed k) (sk_armed k) (sk_nextfd k) (sk_got k).
Definition with_accepts (l : list (sysres (Z * sockaddr_in))) (k : SimK) : SimK :=
  mkSimK (sk_reads k) (sk_writes k) (sk_soerrors k) (sk_connects k) (sk_waits k) l
    (sk_clock k) (sk_sent k) (sk_epoll k) (sk_shut k) (sk_closed k) (sk_armed k) (sk_nextfd k) (sk_got k).
Definition with_clock (z : Z) (k : SimK) : SimK :=
  mkSimK (sk_reads k) (sk_writes k) (sk_soerrors k) (sk_connects k) (sk_waits k) (sk_accepts k)
    z (sk_sent k) (sk_epoll k) (sk_shut k) (sk_closed k) (sk_armed k) (sk_nextfd k) (sk_got k).
Definition with_sent (m : gmap Z (list byte)) (k : SimK) : SimK :=
  mkSimK (sk_reads k) (sk_writes k) (sk_soerrors k) (sk_connects k) (sk_waits k) (sk_accepts k)
    (sk_clock k) m (sk_epoll k) (sk_shut k) (sk_closed k) (sk_armed k) (sk_nextfd k) (sk_got k).
Definition with_epoll (m : gmap Z epoll_event) (k : SimK) : SimK :=
  mkSimK (sk_reads k) (sk_writes k) (sk_soerrors k) (sk_connects k) (sk_waits k) (sk_accepts k)
    (sk_clock k) (sk_sent k) m (sk_shut k) (sk_closed k) (sk_armed k) (sk_nextfd k) (sk_got k).
Definition with_shut (l : list Z) (k : SimK) : SimK :=
  mkSimK (sk_reads k) (sk_writes k) (sk_soerrors k) (sk_connects k) (sk_waits k) (sk_accepts k)
    (sk_clock k) (sk_sent k) (sk_epoll k) l (sk_closed k) (sk_armed k) (sk_nextfd k) (sk_got k).
Definition with_closed (l : list Z) (k : SimK) : SimK :=
  mkSimK (sk_reads k) (sk_writes k) (sk_soerrors k) (sk_connects k) (sk_waits k) (sk_accepts k)
    (sk_clock k) (sk_sent k) (sk_epoll k) (sk_shut k) l (sk_armed k) (sk_nextfd k) (sk_got k).
Definition with_armed (o : option (Z * Z)) (k : SimK) : SimK :=
  mkSimK (sk_reads k) (sk_writes k) (sk_soerrors k) (sk_connects k) (sk_waits k) (sk_accepts k)
    (sk_clock k) (sk_sent k) (sk_epoll k) (sk_shut k) (sk_closed k) o (sk_nextfd k) (sk_got k).
Definition with_nextfd (z : Z) (k : SimK) : SimK :=
  mkSimK (sk_reads k) (sk_writes k) (sk_soerrors k) (sk_connects k) (sk_waits k) (sk_accepts k)
    (sk_clock k) (sk_sent k) (sk_epoll k) (sk_shut k) (sk_closed k) (sk_armed k) z (sk_got k).

Definition with_got (d : list byte) (k : SimK) : SimK :=
  mkSimK (sk_reads k) (sk_writes k) (sk_soerrors k) (sk_connects k) (sk_waits k) (sk_accepts k)
    (sk_clock k) (sk_sent k) (sk_epoll k) (sk_shut k) (sk_closed k) (sk_armed k) (sk_nextfd k) d.

Definition clip (n hi : Z) : Z := Z.max 0 (Z.min n hi).

Definition sim_readv (lens : list Z) (k : SimK) : sysres (list byte) * SimK :=
  match sk_reads k with
  | [] => (SysErr EAGAIN, k)
  | SysOk d :: l =>
      let d' := ztake (foldr Z.add 0 lens) d in
      (SysOk d', with_got (sk_got k ++ d') (with_reads l k))
  | SysErr e :: l => (SysErr e, with_reads l k)
  end.

Definition sim_write (fd : Z) (d : list byte) (k : SimK) : sysres Z * SimK :=
  let accept n k' := (SysOk n, with_sent (<[fd := default [] (sk_sent k !! fd) ++ ztake n d]> (sk_sent k)) k') in
  match sk_writes k with
  | [] => accept (zlen d) k
  | SysOk n :: l => accept (clip n (zlen d)) (with_writes l k)
  | SysErr e :: l => (SysErr e, with_writes l k)
  end.

Definition sim_epoll_ctl (op : epoll_op) (fd : Z) (ev : epoll_event) (k : SimK)
  : sysres unit * SimK :=
  match op, sk_epoll k !! fd with
  | EPOLL_CTL_ADD, None => (SysOk tt, with_epoll (<[fd := ev]> (sk_epoll k)) k)
  | EPOLL_CTL_ADD, Some _ => (SysErr EEXIST, k)
  | EPOLL_CTL_MOD, Some _ => (SysOk tt, with_epoll (<[fd := ev]> (sk_epoll k)) k)
  | EPOLL_CTL_DEL, Some _ => (SysOk tt, with_epoll (delete fd (sk_epoll k)) k)
  | _, None => (SysErr ENOENT, k)
  end.

#[export] Instance SimPosix : Posix SimK := {|
  sys_readv _ lens k := sim_readv lens k;
  sys_read _ n k := sim_readv [n] k;
  sys_write := sim_write;
  sys_shutdown_wr fd k := (SysOk tt, with_shut (fd :: sk_shut k) k);
  sys_close fd k := (SysOk tt, with_closed (fd :: sk_closed k) k);
  sys_so_error _ k := match sk_soerrors k with
                      | [] => (SysOk 0, k)
                      | r :: l => (r, with_soerrors l k)
                      end;
  sys_epoll_ctl _ op fd ev k := sim_epoll_ctl op fd ev k;
  sys_epoll_wait _ n _ k := match sk_waits k with
                            | [] => (SysErr EINTR, k)
                            | l :: w => (SysOk (ztake n l), with_waits w k)
                            end;
  sys_now k := (sk_clock k mod 2 ^ 62, k);
  sys_timerfd_settime _ t k := (SysOk tt, with_armed (Some t) k);
  sys_reuseaddr _ k := (SysOk tt, k);
  sys_bind _ _ k := (SysOk tt, k);
  sys_getsockname _ k := (SysOk InetAddress.default, k);
  sys_connect _ _ k := match sk_connects k with
                     | [] => (SysErr EINPROGRESS, k)
                     | r :: l => (r, with_connects l k)
                     end;
  sys_socket k := (SysOk (sk_nextfd k), with_nextfd (sk_nextfd k + 1) k);
  sys_listen _ k := (SysOk tt, k);
  sys_accept4 _ k := match sk_accepts k with
                     | [] => (SysErr EAGAIN, k)
                     | r :: l => (r, with_accepts l k)
                     end;
  errno_after_log e k := (e, k)
|}.

#[export] Instance SimReadvLaws : ReadvLaws SimK.
Proof.
  intros fd lens k d k' Hlens. simpl. unfold sim_readv.
  destruct (sk_reads k) as [|[x|e] l]; [done| |done]. intros [= <- _].
  assert (0 <= foldr Z.add 0 lens) by (induction Hlens; simpl; lia).
  unfold zlen, ztake. rewrite length_take. lia.
Qed.
