(* ===== verification/Buffer.v ===== *)
(** * Buffer: the growable byte buffer (include/knetlib/Buffer.h, src/Buffer.cpp)

    [buffer_] is the std::vector<char>, the two indices are size_t.  Pointers
    into the vector ([peek], [beginWrite], the results of the searches) are
    offsets from [begin()].  std::copy and memcpy are [vec_read]/[vec_write],
    which report an access outside the vector as [OutOfBounds]; asserts are on.
    [content] is the abstract value: the readable bytes. *)

From S2P Require Import Prelude Posix.

Record Buffer : Type := mkBuffer {
  buffer_ : list byte;
  readerIndex_ : Z;
  writerIndex_ : Z
}.

Module Buffer.

Definition kCheapPrepend : Z := 8.
Definition kInitialSize : Z := 1024.
Definition kCRLF : list byte := [x0d; x0a].
Definition LF : byte := x0a.

(** std::vector<char>::max_size() of a 64-bit build. *)
Definition max_size : Z := 2 ^ 63 - 1.

Definition set_buffer (v : list byte) (b : Buffer) : Buffer :=
  mkBuffer v (readerIndex_ b) (writerIndex_ b).
Definition set_reader (i : Z) (b : Buffer) : Buffer :=
  mkBuffer (buffer_ b) i (writerIndex_ b).
Definition set_writer (i : Z) (b : Buffer) : Buffer :=
  mkBuffer (buffer_ b) (readerIndex_ b) i.

(** ** Construction and sizes *)

Definition readableBytes (b : Buffer) : Z := u64 (writerIndex_ b - readerIndex_ b).
Definition writableBytes (b : Buffer) : Z := u64 (zlen (buffer_ b) - writerIndex_ b).
Definition prependableBytes (b : Buffer) : Z := readerIndex_ b.

(** std::vector::resize: new elements are zero. *)
Definition vec_resize (n : Z) : M Buffer unit :=
  ensure LengthError (n <=? max_size);;;
  modify (fun b => set_buffer (resize (Z.to_nat n) x00 (buffer_ b)) b).

Definition vec_read (i n : Z) : M Buffer (list byte) :=
  v <- gets buffer_;;
  ensure OutOfBounds ((0 <=? i) && (0 <=? n) && (i + n <=? zlen v))%bool;;;
  ret (zslice i n v).

Definition vec_write (i : Z) (d : list byte) : M Buffer unit :=
  v <- gets buffer_;;
  ensure OutOfBounds ((0 <=? i) && (i + zlen d <=? zlen v))%bool;;;
  modify (fun b => set_buffer (splice i d (buffer_ b)) b).

(** explicit Buffer(size_t initialSize): the three asserts follow the member
    initialisation. *)
Definition new_Buffer (initialSize : Z) : result Buffer :=
  let n := u64 (kCheapPrepend + initialSize) in
  if n <=? max_size then
    let b := mkBuffer (replicate (Z.to_nat n) x00) kCheapPrepend kCheapPrepend in
    if (readableBytes b =? 0) && (writableBytes b =? initialSize)
       && (prependableBytes b =? kCheapPrepend)
    then Ok b else Err (AssertFailed "Buffer::Buffer")
  else Err LengthError.

Definition swap (b rhs : Buffer) : Buffer * Buffer := (rhs, b).

Definition peek (b : Buffer) : Z := readerIndex_ b.
Definition beginWrite (b : Buffer) : Z := writerIndex_ b.

(** ** Consuming *)

Definition retrieveAll : M Buffer unit :=
  modify (fun b => set_writer kCheapPrepend (set_reader kCheapPrepend b)).

Definition retrieve (len : Z) : M Buffer unit :=
  n <- gets readableBytes;;
  assert_ "Buffer::retrieve" (len <=? n);;;
  if len <? n
  then modify (fun b => set_reader (u64 (readerIndex_ b + len)) b)
  else retrieveAll.

Definition retrieveUntil (end_ : Z) : M Buffer unit :=
  b <- gets id;;
  assert_ "Buffer::retrieveUntil" (peek b <=? end_);;;
  assert_ "Buffer::retrieveUntil" (end_ <=? beginWrite b);;;
  retrieve (end_ - peek b).

Definition retrieveInt64 : M Buffer unit := retrieve 8.
Definition retrieveInt32 : M Buffer unit := retrieve 4.
Definition retrieveInt16 : M Buffer unit := retrieve 2.
Definition retrieveInt8 : M Buffer unit := retrieve 1.

Definition retrieveAsString (len : Z) : M Buffer (list byte) :=
  n <- gets readableBytes;;
  assert_ "Buffer::retrieveAsString" (len <=? n);;;
  p <- gets peek;;
  s <- vec_read p len;;
  retrieve len;;;
  ret s.

Definition retrieveAllAsString : M Buffer (list byte) :=
  n <- gets readableBytes;;
  retrieveAsString n.

(** ** Growing *)

Definition makeSpace (len : Z) : M Buffer unit :=
  b <- gets id;;
  if u64 (writableBytes b + prependableBytes b) <? u64 (len + kCheapPrepend)
  then vec_resize (u64 (writerIndex_ b + len))
  else
    assert_ "Buffer::makeSpace" (kCheapPrepend <? readerIndex_ b);;;
    let readable := readableBytes b in
    d <- vec_read (readerIndex_ b) (writerIndex_ b - readerIndex_ b);;
    vec_write kCheapPrepend d;;;
    modify (set_reader kCheapPrepend);;;
    modify (fun b => set_writer (u64 (readerIndex_ b + readable)) b);;;
    n <- gets readableBytes;;
    assert_ "Buffer::makeSpace" (readable =? n).

Definition ensureWritableBytes (len : Z) : M Buffer unit :=
  n <- gets writableBytes;;
  when (n <? len) (makeSpace len);;;
  n' <- gets writableBytes;;
  assert_ "Buffer::ensureWritableBytes" (len <=? n').

Definition hasWritten (len : Z) : M Buffer unit :=
  n <- gets writableBytes;;
  assert_ "Buffer::hasWritten" (len <=? n);;;
  modify (fun b => set_writer (u64 (writerIndex_ b + len)) b).

(** append(const char*, size_t); the other overloads forward to it. *)
Definition append (data : list byte) : M Buffer unit :=
  ensureWritableBytes (zlen data);;;
  w <- gets beginWrite;;
  vec_write w data;;;
  hasWritten (zlen data).

Definition prepend (data : list byte) : M Buffer unit :=
  n <- gets prependableBytes;;
  assert_ "Buffer::prepend" (zlen data <=? n);;;
  modify (fun b => set_reader (u64 (readerIndex_ b - zlen data)) b);;;
  r <- gets readerIndex_;;
  vec_write r data.

(** ** Integers in network byte order

    htobe64(x) has the bytes of x, most significant first, as its image in
    memory, and be64toh undoes it; likewise for the narrower types. *)

Definition appendInt64 (x : Z) : M Buffer unit := append (be_bytes 8 x).
Definition appendInt32 (x : Z) : M Buffer unit := append (be_bytes 4 x).
Definition appendInt16 (x : Z) : M Buffer unit := append (be_bytes 2 x).
Definition appendInt8 (x : Z) : M Buffer unit := append (be_bytes 1 x).

Definition peekInt (n : Z) (site : string) : M Buffer Z :=
  r <- gets readableBytes;;
  assert_ site (n <=? r);;;
  p <- gets peek;;
  d <- vec_read p n;;
  ret (signed (8 * n) (be_value d)).

Definition peekInt64 : M Buffer Z := peekInt 8 "Buffer::peekInt64".
Definition peekInt32 : M Buffer Z := peekInt 4 "Buffer::peekInt32".
Definition peekInt16 : M Buffer Z := peekInt 2 "Buffer::peekInt16".
Definition peekInt8 : M Buffer Z := peekInt 1 "Buffer::peekInt8".

Definition readInt64 : M Buffer Z := x <- peekInt64;; retrieveInt64;;; ret x.
Definition readInt32 : M Buffer Z := x <- peekInt32;; retrieveInt32;;; ret x.
Definition readInt16 : M Buffer Z := x <- peekInt16;; retrieveInt16;;; ret x.
Definition readInt8 : M Buffer Z := x <- peekInt8;; retrieveInt8;;; ret x.

Definition prependInt64 (x : Z) : M Buffer unit := prepend (be_bytes 8 x).
Definition prependInt32 (x : Z) : M Buffer unit := prepend (be_bytes 4 x).
Definition prependInt16 (x : Z) : M Buffer unit := prepend (be_bytes 2 x).
Definition prependInt8 (x : Z) : M Buffer unit := prepend (be_bytes 1 x).

(** ** Searching *)

Fixpoint is_prefix (pat l : list byte) : bool :=
  match pat, l with
  | [], _ => true
  | p :: pat', x :: l' => bool_decide (p = x) && is_prefix pat' l'
  | _ :: _, [] => false
  end.

(** std::search: the position of the first occurrence, or the length. *)
Fixpoint search (pat l : list byte) : nat :=
  if is_prefix pat l then O
  else match l with
       | [] => O
       | _ :: l' => S (search pat l')
       end.

(** memchr: the position of the first occurrence. *)
Fixpoint memchr (c : byte) (l : list byte) : option nat :=
  match l with
  | [] => None
  | x :: l' => if bool_decide (x = c) then Some O else S <$> memchr c l'
  end.

Definition region (start : Z) (b : Buffer) : list byte :=
  zslice start (writerIndex_ b - start) (buffer_ b).

Definition search_at (start : Z) (b : Buffer) : option Z :=
  let crlf := start + Z.of_nat (search kCRLF (region start b)) in
  if crlf =? beginWrite b then None else Some crlf.

Definition findCRLF (b : Buffer) : option Z := search_at (peek b) b.

Definition findCRLF_from (start : Z) : M Buffer (option Z) :=
  b <- gets id;;
  assert_ "Buffer::findCRLF" (peek b <=? start);;;
  assert_ "Buffer::findCRLF" (start <=? beginWrite b);;;
  ret (search_at start b).

Definition findEOL (b : Buffer) : option Z :=
  (fun i => peek b + Z.of_nat i) <$> memchr LF (zslice (peek b) (readableBytes b) (buffer_ b)).

Definition findEOL_from (start : Z) : M Buffer (option Z) :=
  b <- gets id;;
  assert_ "Buffer::findEOL" (peek b <=? start);;;
  assert_ "Buffer::findEOL" (start <=? beginWrite b);;;
  ret ((fun i => start + Z.of_nat i) <$> memchr LF (region start b)).

(** ** Compatibility interface *)

Definition c_str (b : Buffer) : Z := peek b.
Definition size (b : Buffer) : Z := signed 64 (readableBytes b).
Definition clear : M Buffer unit := retrieveAll.

(** ** Reading from a descriptor *)

Definition extrabuf_size : Z := 65536.

Section readFd.
Context {K : Type} `{Posix K}.

(** The scatter read: vec[0] is the writable part of the vector, vec[1] the
    stack buffer, used when the vector has less than its size left. *)
Definition readFd (fd : Z) : M (Buffer * K) (sysres Z) :=
  writable <- gets (writableBytes ∘ fst);;
  let lens := if writable <? extrabuf_size then [writable; extrabuf_size] else [writable] in
  r <- zoom snd (fun k s => (s.1, k)) (sys (sys_readv fd lens));;
  match r with
  | SysErr e => ret (SysErr e)
  | SysOk d =>
      let n := zlen d in
      zoom fst (fun b s => (b, s.2))
        (if n <=? writable then
           w <- gets beginWrite;;
           vec_write w d;;;
           modify (fun b => set_writer (u64 (writerIndex_ b + n)) b)
         else
           w <- gets beginWrite;;
           vec_write w (ztake writable d);;;
           modify (fun b => set_writer (zlen (buffer_ b)) b);;;
           append (zdrop writable d));;;
      ret (SysOk n)
  end.
End readFd.

(** ** Invariant and abstract value *)

Record wf (b : Buffer) : Prop := mk_wf {
  wf_min : kCheapPrepend <= zlen (buffer_ b);
  wf_reader : 0 <= readerIndex_ b;
  wf_order : readerIndex_ b <= writerIndex_ b;
  wf_writer : writerIndex_ b <= zlen (buffer_ b);
  wf_size : zlen (buffer_ b) <= max_size
}.

(** The readable bytes. *)
Definition content (b : Buffer) : list byte :=
  zslice (readerIndex_ b) (writerIndex_ b - readerIndex_ b) (buffer_ b).

(** Room for [n] more bytes in a vector of maximal size. *)
Definition fits (b : Buffer) (n : Z) : Prop := zlen (buffer_ b) + n + kCheapPrepend <= max_size.

(** The same, or the exception of std::vector is one of the faults allowed. *)
Definition room (F : fault -> Prop) (b : Buffer) (n : Z) : Prop :=
  fits b n \/ (n <= max_size /\ F LengthError).

#[local] Ltac buf_unfold :=
  unfold room, fits, readableBytes, writableBytes, prependableBytes, peek, beginWrite,
    kCheapPrepend, max_size in *.

Lemma readable_wf b : wf b -> readableBytes b = writerIndex_ b - readerIndex_ b.
Proof. intros []. buf_unfold. by u64_tac. Qed.

Lemma writable_wf b : wf b -> writableBytes b = zlen (buffer_ b) - writerIndex_ b.
Proof. intros []. buf_unfold. by u64_tac. Qed.

Lemma zlen_content b : wf b -> zlen (content b) = readableBytes b.
Proof. intros Hb. rewrite readable_wf by done. destruct Hb. apply zlen_zslice; lia. Qed.

Lemma content_nil b : wf b -> readableBytes b = 0 <-> content b = [].
Proof.
  intros Hb. rewrite <- zlen_content by done. split; [apply zlen_0_nil|by intros ->].
Qed.

Lemma new_Buffer_spec n :
  0 <= n -> kCheapPrepend + n <= max_size ->
  exists b, new_Buffer n = Ok b /\ wf b /\ content b = [] /\ writableBytes b = n.
Proof.
  intros Hn Hmax. unfold new_Buffer. buf_unfold. u64_tac.
  rewrite (proj2 (Z.leb_le _ _)) by lia. simpl.
  assert (zlen (replicate (Z.to_nat (8 + n)) x00) = 8 + n) as Hz
    by (unfold zlen; rewrite length_replicate; lia).
  rewrite Hz. replace (8 + n - 8) with n by lia. u64_tac. rewrite Z.eqb_refl.
  eexists. split; [done|]. simpl. rewrite Hz. u64_tac.
  split; [constructor; simpl; rewrite ?Hz; buf_unfold; lia|]. split; [done|lia].
Qed.

(** *** Specifications of the operations, used by every later proof *)

Section specs.
Context (F : fault -> Prop).

Lemma vec_read_spec i n b (Q : list byte -> Buffer -> Prop) :
  0 <= i -> 0 <= n -> i + n <= zlen (buffer_ b) ->
  Q (zslice i n (buffer_ b)) b -> wp F (vec_read i n) Q b.
Proof.
  intros ? ? ? HQ. unfold vec_read. wp_simpl.
  rewrite !(proj2 (Z.leb_le _ _)) by lia. done.
Qed.

Lemma vec_write_spec i d b (Q : unit -> Buffer -> Prop) :
  0 <= i -> i + zlen d <= zlen (buffer_ b) ->
  Q tt (set_buffer (splice i d (buffer_ b)) b) -> wp F (vec_write i d) Q b.
Proof.
  intros ? ? HQ. unfold vec_write. wp_simpl.
  rewrite !(proj2 (Z.leb_le _ _)) by lia. done.
Qed.

Lemma retrieveAll_spec b :
  wf b ->
  wp F retrieveAll (fun _ b' => wf b' /\ content b' = [] /\ buffer_ b' = buffer_ b) b.
Proof.
  intros []. unfold retrieveAll. wp_simpl. buf_unfold.
  split; [|done]. constructor; simpl; buf_unfold; lia.
Qed.

Lemma retrieve_spec len b :
  wf b -> 0 <= len <= readableBytes b ->
  wp F (retrieve len)
    (fun _ b' => wf b' /\ content b' = zdrop len (content b) /\ buffer_ b' = buffer_ b) b.
Proof.
  intros Hb Hlen. unfold retrieve. wp_simpl.
  rewrite (proj2 (Z.leb_le _ _)) by lia.
  destruct (len <? readableBytes b) eqn:E; bool_solve.
  - wp_simpl. rewrite readable_wf in * by done. destruct Hb. buf_unfold. u64_tac.
    split; [constructor; simpl; buf_unfold; lia|]. split; [|done].
    unfold content; simpl.
    replace (writerIndex_ b - readerIndex_ b)
      with (len + (writerIndex_ b - (readerIndex_ b + len))) by lia.
    rewrite (zslice_split _ len) by lia.
    unfold zdrop. rewrite drop_app_ge.
    + replace (Z.to_nat len - _)%nat with O; [done|].
      pose proof (zlen_zslice (readerIndex_ b) len (buffer_ b)). unfold zlen in *. lia.
    + pose proof (zlen_zslice (readerIndex_ b) len (buffer_ b)). unfold zlen in *. lia.
  - wp_call retrieveAll_spec; [done|]. intros _ b' (? & -> & ?). split; [done|].
    split; [|done]. symmetry. apply zdrop_all. rewrite zlen_content by done. lia.
Qed.

Lemma retrieveAsString_spec len b :
  wf b -> 0 <= len <= readableBytes b ->
  wp F (retrieveAsString len)
    (fun s b' => s = ztake len (content b) /\ wf b' /\ content b' = zdrop len (content b)
                 /\ buffer_ b' = buffer_ b) b.
Proof.
  intros Hb Hlen. unfold retrieveAsString. wp_simpl.
  rewrite (proj2 (Z.leb_le _ _)) by lia. wp_simpl.
  pose proof (readable_wf b Hb) as Hr. pose proof Hb as [].
  apply vec_read_spec; unfold peek; try lia. wp_simpl.
  wp_call retrieve_spec; [done|lia|]. intros _ b' (? & ? & ?). wp_simpl.
  split; [|done]. unfold content, zslice, ztake. rewrite take_take. f_equal. lia.
Qed.

Lemma retrieveAllAsString_spec b :
  wf b ->
  wp F retrieveAllAsString
    (fun s b' => s = content b /\ wf b' /\ content b' = [] /\ buffer_ b' = buffer_ b) b.
Proof.
  intros Hb. unfold retrieveAllAsString. wp_simpl.
  pose proof (zlen_content b Hb). pose proof (zlen_nonneg (content b)).
  wp_call retrieveAsString_spec; [done|lia|]. intros s b' (-> & ? & -> & ?).
  rewrite ztake_all, zdrop_all by lia. done.
Qed.

(** Compaction or growth.  The asserts of makeSpace hold, the readable bytes
    are kept, and the vector grows only when the free space does not suffice. *)
Lemma makeSpace_spec len b :
  wf b -> writableBytes b < len -> room F b len ->
  wp F (makeSpace len)
    (fun _ b' => wf b' /\ content b' = content b /\ len <= writableBytes b'
       /\ zlen (buffer_ b') =
          (if zlen (buffer_ b) <? readableBytes b + len + kCheapPrepend
           then writerIndex_ b + len else zlen (buffer_ b))
       /\ readerIndex_ b' =
          (if zlen (buffer_ b) <? readableBytes b + len + kCheapPrepend
           then readerIndex_ b else kCheapPrepend)) b.
Proof.
  intros Hb Hlt Hfit. unfold makeSpace. wp_simpl. unfold id.
  rewrite writable_wf in * by done. rewrite readable_wf by done.
  pose proof Hb as []. buf_unfold. u64_tac.
  case_bool.
  - rewrite (proj2 (Z.ltb_lt (zlen _) _)) by lia.
    unfold vec_resize. wp_simpl. buf_unfold.
    destruct (_ <=? 2 ^ 63 - 1) eqn:Emax; bool_solve;
      [|destruct Hfit as [Hfit|[_ Hfit]]; [lia|done]]. clear Hfit.
    assert (zlen (resize (Z.to_nat (writerIndex_ b + len)) x00 (buffer_ b))
            = writerIndex_ b + len) as Hz.
    { unfold zlen. rewrite length_resize. lia. }
    assert (wf (set_buffer (resize (Z.to_nat (writerIndex_ b + len)) x00 (buffer_ b)) b))
      as Hb' by (constructor; simpl; rewrite ?Hz; buf_unfold; lia).
    split; [done|]. split; [|split; [|done]].
    + unfold content, zslice, zdrop, ztake; simpl.
      rewrite resize_ge by (unfold zlen in *; lia).
      rewrite drop_app_le by (unfold zlen in *; lia).
      apply take_app_le. rewrite length_drop. unfold zlen in *. lia.
    + simpl. rewrite Hz. u64_tac. lia.
  - rewrite (proj2 (Z.ltb_ge (zlen _) _)) by lia.
    wp_simpl. rewrite (proj2 (Z.ltb_lt _ _)) by lia. wp_simpl.
    apply vec_read_spec; try lia. wp_simpl. fold (content b).
    pose proof (zlen_content b Hb) as Hc. rewrite readable_wf in Hc by done.
    apply vec_write_spec; buf_unfold; try lia. wp_simpl. simpl. u64_tac.
    set (v := splice 8 (content b) (buffer_ b)).
    assert (zlen v = zlen (buffer_ b)) as Hv by (apply zlen_splice; lia).
    replace (8 + (writerIndex_ b - readerIndex_ b) - 8)
      with (writerIndex_ b - readerIndex_ b) by lia. u64_tac. rewrite Z.eqb_refl.
    split; [constructor; simpl; rewrite ?Hv; buf_unfold; lia|].
    split; [|simpl; rewrite Hv; u64_tac; lia].
    unfold content at 1; simpl. rewrite <- Hc.
    replace (8 + zlen (content b) - 8) with (zlen (content b)) by lia.
    apply zslice_splice_inside; lia.
Qed.

Lemma ensureWritableBytes_spec len b :
  wf b -> room F b len ->
  wp F (ensureWritableBytes len)
    (fun _ b' => wf b' /\ content b' = content b /\ len <= writableBytes b'
       /\ zlen (buffer_ b') =
          (if (writableBytes b <? len)
              && (zlen (buffer_ b) <? readableBytes b + len + kCheapPrepend)
           then writerIndex_ b + len else zlen (buffer_ b))
       /\ readerIndex_ b' =
          (if (writableBytes b <? len)
              && negb (zlen (buffer_ b) <? readableBytes b + len + kCheapPrepend)
           then kCheapPrepend else readerIndex_ b)) b.
Proof.
  intros Hb Hfit. unfold ensureWritableBytes. wp_simpl.
  destruct (writableBytes b <? len) eqn:E; bool_solve; simpl.
  - wp_call makeSpace_spec; [done..|]. intros _ b' (? & ? & ? & ? & Hr). wp_simpl.
    rewrite (proj2 (Z.leb_le _ _)) by lia. rewrite Hr. by destruct (_ <? _).
  - wp_simpl. by rewrite (proj2 (Z.leb_le _ _)) by lia.
Qed.

(** Bytes written behind the readable ones extend the content. *)
Lemma content_write d b :
  wf b -> writerIndex_ b + zlen d <= zlen (buffer_ b) ->
  content (set_writer (writerIndex_ b + zlen d)
             (set_buffer (splice (writerIndex_ b) d (buffer_ b)) b)) = content b ++ d.
Proof.
  intros [] Hle. pose proof (zlen_nonneg d). unfold content; simpl.
  replace (writerIndex_ b + zlen d - readerIndex_ b)
    with ((writerIndex_ b - readerIndex_ b) + zlen d) by lia.
  rewrite zslice_split by lia. f_equal.
  - apply zslice_splice_before; lia.
  - replace (readerIndex_ b + _) with (writerIndex_ b) by lia.
    apply zslice_splice_inside; lia.
Qed.

(** What append does to the indices and the vector is what
    ensureWritableBytes does. *)
Lemma append_exact d b :
  wf b -> room F b (zlen d) ->
  wp F (append d)
    (fun _ b' => wf b' /\ content b' = content b ++ d
       /\ zlen (buffer_ b') =
          (if (writableBytes b <? zlen d)
              && (zlen (buffer_ b) <? readableBytes b + zlen d + kCheapPrepend)
           then writerIndex_ b + zlen d else zlen (buffer_ b))
       /\ readerIndex_ b' =
          (if (writableBytes b <? zlen d)
              && negb (zlen (buffer_ b) <? readableBytes b + zlen d + kCheapPrepend)
           then kCheapPrepend else readerIndex_ b)) b.
Proof.
  intros Hb Hfit. unfold append. wp_simpl. pose proof (zlen_nonneg d).
  wp_call ensureWritableBytes_spec; [done..|].
  intros _ b' (Hb' & Hcont & Hw & Hsz & Hr). wp_simpl. buf_unfold.
  pose proof (writable_wf b' Hb') as Hw'. pose proof Hb' as [].
  unfold writableBytes in Hw'. rewrite Hw' in Hw.
  apply vec_write_spec; [lia..|]. unfold hasWritten. wp_simpl.
  set (v := splice (writerIndex_ b') d (buffer_ b')).
  assert (zlen v = zlen (buffer_ b')) as Hv by (apply zlen_splice; lia).
  buf_unfold. simpl. rewrite Hv. u64_tac. rewrite (proj2 (Z.leb_le _ _)) by lia.
  split; [constructor; simpl; rewrite ?Hv; buf_unfold; lia|]. split; [|done].
  rewrite <- Hcont. apply content_write; [done|lia].
Qed.

(** The vector grows by no more than the bytes added. *)
Lemma append_spec d b :
  wf b -> room F b (zlen d) ->
  wp F (append d)
    (fun _ b' => wf b' /\ content b' = content b ++ d
       /\ zlen (buffer_ b) <= zlen (buffer_ b') <= zlen (buffer_ b) + zlen d) b.
Proof.
  intros Hb Hfit. wp_call append_exact; [done..|]. intros _ b' (? & ? & Hsz & _).
  pose proof (writable_wf b Hb) as Hw. pose proof (zlen_nonneg d). destruct Hb.
  split_and!; [done|done|..]; rewrite Hsz, Hw; buf_unfold; case_bool; lia.
Qed.

Lemma prepend_spec d b :
  wf b -> zlen d <= prependableBytes b ->
  wp F (prepend d)
    (fun _ b' => wf b' /\ content b' = d ++ content b
                 /\ zlen (buffer_ b') = zlen (buffer_ b)
                 /\ readerIndex_ b' = readerIndex_ b - zlen d) b.
Proof.
  intros Hb Hd. unfold prepend. wp_simpl. pose proof (zlen_nonneg d).
  pose proof Hb as []. buf_unfold. rewrite (proj2 (Z.leb_le _ _)) by lia. wp_simpl.
  simpl. u64_tac. apply vec_write_spec; simpl; [lia..|].
  set (r := readerIndex_ b - zlen d).
  assert (zlen (splice r d (buffer_ b)) = zlen (buffer_ b)) as Hv
    by (apply zlen_splice; lia).
  split; [constructor; simpl; rewrite ?Hv; buf_unfold; lia|]. split; [|done].
  unfold content; simpl.
  replace (writerIndex_ b - r) with (zlen d + (writerIndex_ b - readerIndex_ b)) by lia.
  rewrite zslice_split by lia. f_equal; [apply zslice_splice_inside; lia|].
  replace (r + zlen d) with (readerIndex_ b) by lia.
  apply zslice_splice_after; lia.
Qed.

Lemma peekInt_spec n site b :
  wf b -> 0 <= n <= readableBytes b ->
  wp F (peekInt n site)
    (fun x b' => x = signed (8 * n) (be_value (ztake n (content b))) /\ b' = b) b.
Proof.
  intros Hb Hn. unfold peekInt. wp_simpl. rewrite (proj2 (Z.leb_le _ _)) by lia. wp_simpl.
  pose proof (readable_wf b Hb) as Hr. pose proof Hb as [].
  apply vec_read_spec; unfold peek; try lia. wp_simpl. split; [|done].
  unfold content, zslice, ztake. rewrite take_take. do 3 f_equal. lia.
Qed.

(** A big-endian image of [x] at the front of the buffer is read back as [x]. *)
Lemma peekInt_be_bytes (n : nat) site x rest b :
  wf b -> (0 < n)%nat -> int_range (8 * Z.of_nat n) x -> content b = be_bytes n x ++ rest ->
  wp F (peekInt (Z.of_nat n) site) (fun y b' => y = x /\ b' = b) b.
Proof.
  intros Hb Hn Hx Hc. pose proof (zlen_content b Hb) as Hl.
  assert (zlen (be_bytes n x) = Z.of_nat n) as Hz by (unfold zlen; by rewrite length_be_bytes).
  rewrite Hc, zlen_app, Hz in Hl. pose proof (zlen_nonneg rest).
  wp_call peekInt_spec; [done|lia|]. intros y b' [-> ->]. split; [|done].
  rewrite Hc. unfold ztake. rewrite take_app_le by (rewrite length_be_bytes; lia).
  rewrite take_ge by (rewrite length_be_bytes; lia).
  rewrite be_value_bytes, signed_mod. apply signed_id; [lia|done].
Qed.

(** Reading the integer also consumes its image. *)
Lemma readInt_be_bytes (n : nat) site x rest b :
  wf b -> (0 < n)%nat -> int_range (8 * Z.of_nat n) x -> content b = be_bytes n x ++ rest ->
  wp F (y <- peekInt (Z.of_nat n) site;; retrieve (Z.of_nat n);;; ret y)
    (fun y b' => y = x /\ wf b' /\ content b' = rest) b.
Proof.
  intros Hb Hn Hx Hc. pose proof (zlen_content b Hb) as Hl.
  assert (zlen (be_bytes n x) = Z.of_nat n) as Hz by (unfold zlen; by rewrite length_be_bytes).
  rewrite Hc, zlen_app, Hz in Hl. pose proof (zlen_nonneg rest).
  wp_simpl. wp_call peekInt_be_bytes; [done..|]. intros y b' [-> ->]. wp_simpl.
  wp_call retrieve_spec; [done|lia|]. intros _ b' (? & Hc' & _). wp_simpl.
  split; [done|]. split; [done|]. rewrite Hc', Hc. unfold zdrop.
  rewrite drop_app_ge by (rewrite length_be_bytes; lia).
  rewrite length_be_bytes. by replace (_ - n)%nat with O by lia.
Qed.

Lemma append_readInt (n : nat) site x b :
  wf b -> (0 < n)%nat -> int_range (8 * Z.of_nat n) x -> fits b (Z.of_nat n) ->
  wp F (append (be_bytes n x);;; retrieve (readableBytes b);;;
        y <- peekInt (Z.of_nat n) site;; retrieve (Z.of_nat n);;; ret y)
    (fun y b' => y = x /\ wf b' /\ content b' = []) b.
Proof.
  intros Hb Hn Hx Hfit. rewrite !wp_bind.
  assert (zlen (be_bytes n x) = Z.of_nat n) as Hz by (unfold zlen; by rewrite length_be_bytes).
  wp_call append_spec; [done|left; by rewrite Hz|]. intros _ b1 (Hb1 & Hc1 & _). rewrite wp_bind.
  pose proof (zlen_content b Hb) as Hl. pose proof (zlen_content b1 Hb1) as Hl1.
  rewrite Hc1, zlen_app, Hz in Hl1. pose proof (zlen_nonneg (content b)).
  wp_call retrieve_spec; [done|lia|]. intros _ b2 (Hb2 & Hc2 & _).
  apply readInt_be_bytes; [done..|]. rewrite Hc2, Hc1, app_nil_r. unfold zdrop, zlen in *.
  rewrite drop_app_ge by lia. replace (_ - _)%nat with O by lia. done.
Qed.

Lemma prepend_readInt (n : nat) site x b :
  wf b -> (0 < n)%nat -> int_range (8 * Z.of_nat n) x -> Z.of_nat n <= prependableBytes b ->
  wp F (prepend (be_bytes n x);;;
        y <- peekInt (Z.of_nat n) site;; retrieve (Z.of_nat n);;; ret y)
    (fun y b' => y = x /\ wf b' /\ content b' = content b) b.
Proof.
  intros Hb Hn Hx Hp. rewrite wp_bind.
  assert (zlen (be_bytes n x) = Z.of_nat n) as Hz by (unfold zlen; by rewrite length_be_bytes).
  wp_call prepend_spec; [done|by rewrite Hz|]. intros _ b1 (Hb1 & Hc1 & _).
  by apply readInt_be_bytes.
Qed.
End specs.

(** ** Searching: the first occurrence *)

Lemma is_prefix_spec pat l : is_prefix pat l = true <-> exists post, l = pat ++ post.
Proof.
  revert l. induction pat as [|p pat IH]; intros l; simpl; [split; eauto|].
  destruct l as [|x l]; [split; [done|by intros [? [=]]]|].
  rewrite andb_true_iff, bool_decide_eq_true, IH. split.
  - intros [-> [post ->]]. eauto.
  - intros [post [= -> ->]]. eauto.
Qed.

Lemma search_spec pat l :
  pat <> [] ->
  (search pat l <= length l)%nat
  /\ (forall pre post, l = pre ++ pat ++ post -> (search pat l <= length pre)%nat)
  /\ ((search pat l < length l)%nat -> exists post, l = take (search pat l) l ++ pat ++ post)
  /\ (search pat l = length l -> forall pre post, l <> pre ++ pat ++ post).
Proof.
  intros Hpat. induction l as [|x l (IHle & IHfirst & IHocc & IHnone)]; simpl.
  - destruct pat as [|p pat]; [done|]. simpl. split_and!; [lia|intros; lia|lia|].
    intros _ pre post Heq. by destruct pre.
  - destruct (is_prefix pat (x :: l)) eqn:E.
    + apply is_prefix_spec in E as [post E].
      split_and!; [lia|intros; lia|simpl; eauto|lia].
    + assert (forall post, x :: l <> pat ++ post) as Hno.
      { intros post Heq. rewrite (proj2 (is_prefix_spec _ _)) in E by eauto. done. }
      split_and!; simpl.
      * lia.
      * intros [|y pre] post Heq; [by destruct (Hno post)|]. injection Heq as -> Heq.
        simpl. specialize (IHfirst _ _ Heq). lia.
      * intros Hlt. destruct IHocc as [post Hp]; [lia|]. exists post. by rewrite <- Hp.
      * intros Heq [|y pre] post Hl; [by destruct (Hno post)|]. injection Hl as -> Hl.
        apply (IHnone ltac:(lia) pre post Hl).
Qed.

Lemma memchr_spec c l :
  match memchr c l with
  | Some i => exists pre post, l = pre ++ c :: post /\ length pre = i /\ c ∉ pre
  | None => c ∉ l
  end.
Proof.
  induction l as [|x l IH]; simpl; [set_solver|].
  case_bool_decide as Hx; [subst; exists [], l; split_and!; [done..|apply not_elem_of_nil]|].
  destruct (memchr c l) as [i|]; simpl; [|by rewrite not_elem_of_cons].
  destruct IH as (pre & post & -> & <- & Hni).
  exists (x :: pre), post. split; [done|]. split; [done|]. by rewrite not_elem_of_cons.
Qed.

(** ** Reading from a descriptor *)

(** What readFd does with the bytes delivered, whichever buffers they fill. *)
Lemma readFd_store_spec F d b :
  wf b -> room F b extrabuf_size -> zlen d <= writableBytes b + extrabuf_size ->
  wp F (if zlen d <=? writableBytes b then
          w <- gets beginWrite;;
          vec_write w d;;;
          modify (fun b => set_writer (u64 (writerIndex_ b + zlen d)) b)
        else
          w <- gets beginWrite;;
          vec_write w (ztake (writableBytes b) d);;;
          modify (fun b => set_writer (zlen (buffer_ b)) b);;;
          append (zdrop (writableBytes b) d))
    (fun _ b' => wf b' /\ content b' = content b ++ d
       /\ zlen (buffer_ b') <= zlen (buffer_ b) + extrabuf_size) b.
Proof.
  intros Hb Hfit Hle. pose proof (zlen_nonneg d). unfold extrabuf_size in *.
  rewrite writable_wf in * by done. case_bool; wp_simpl.
  - pose proof Hb as []. unfold beginWrite. apply vec_write_spec; [lia..|]. wp_simpl.
    buf_unfold. simpl. u64_tac.
    rewrite zlen_splice by lia. split; [|split; [|lia]].
    + constructor; simpl; rewrite ?zlen_splice by lia; buf_unfold; lia.
    + apply content_write; [done|lia].
  - pose proof Hb as []. set (n := zlen (buffer_ b) - writerIndex_ b) in *.
    assert (zlen (ztake n d) = n) as Hn by (apply zlen_ztake; lia).
    unfold beginWrite. apply vec_write_spec; [lia..|]. wp_simpl. simpl.
    set (b1 := set_writer _ _).
    assert (b1 = set_writer (writerIndex_ b + zlen (ztake n d))
                   (set_buffer (splice (writerIndex_ b) (ztake n d) (buffer_ b)) b)) as Hb1.
    { subst b1. unfold set_writer; simpl. rewrite zlen_splice by lia. f_equal. lia. }
    assert (content b1 = content b ++ ztake n d) as Hc1.
    { rewrite Hb1. apply content_write; [done|lia]. }
    assert (zlen (buffer_ b1) = zlen (buffer_ b)) as Hz1 by (apply zlen_splice; lia).
    assert (wf b1) as Hwf1.
    { rewrite Hb1 in *. simpl in Hz1. constructor; simpl; rewrite ?Hz1; buf_unfold; lia. }
    assert (zlen (zdrop n d) = zlen d - n) as Hdn by (apply zlen_zdrop; lia).
    wp_call append_spec; [done| |].
    { unfold room, fits in *. destruct Hfit as [Hfit|[Hf1 Hf2]]; [left; lia|right; split; [lia|done]]. }
    intros _ b2 (? & -> & ?). split; [done|]. split; [|lia].
    by rewrite Hc1, <- app_assoc, ztake_zdrop.
Qed.

Section readFd_spec.
Context {K : Type} `{Posix K} `{!ReadvLaws K}.

Definition readFd_lens (b : Buffer) : list Z :=
  if writableBytes b <? extrabuf_size then [writableBytes b; extrabuf_size]
  else [writableBytes b].

(** The most that one call can deliver. *)
Definition readFd_max (b : Buffer) : Z := foldr Z.add 0 (readFd_lens b).

Lemma readFd_spec F fd b k :
  wf b -> room F b extrabuf_size ->
  wp F (readFd fd)
    (fun r s => match sys_readv fd (readFd_lens b) k with
       | (SysErr e, k') => r = SysErr e /\ s = (b, k')
       | (SysOk d, k') => r = SysOk (zlen d) /\ s.2 = k' /\ wf s.1
           /\ content s.1 = content b ++ d
           /\ zlen (buffer_ s.1) <= zlen (buffer_ b) + extrabuf_size
       end) (b, k).
Proof.
  intros Hb Hfit. unfold readFd. wp_simpl. simpl. fold (readFd_lens b).
  destruct (sys_readv fd (readFd_lens b) k) as [[d|e] k'] eqn:E; simpl; wp_simpl; [|done].
  pose proof (writable_wf b Hb) as Hw. pose proof (zlen_nonneg d) as Hd.
  apply readv_len in E;
    [|destruct Hb; unfold readFd_lens, extrabuf_size; case_bool; repeat constructor; lia].
  assert (zlen d <= writableBytes b + extrabuf_size) as Hle.
  { unfold readFd_lens, extrabuf_size in *. destruct (_ <? _); simpl in E; lia. }
  clear E. wp_call readFd_store_spec; [done..|].
  intros _ b' (? & ? & ?). wp_simpl. done.
Qed.
End readFd_spec.

(** ** The abstract specification: a queue of bytes

    What the class promises to its clients: a sequence of operations acts on
    the readable bytes as on a plain list, whatever the indices and the vector
    do underneath.  Which prepends are allowed depends on the headroom, so the
    specification keeps the free space too: [view] is the list, the bytes free in
    front of it, and the size of the vector. *)

Inductive op : Type :=
| OpAppend (d : list byte)
| OpPrepend (d : list byte)
| OpRetrieve (n : Z)
| OpRetrieveAll
| OpRetrieveAsString (n : Z)
| OpRetrieveAllAsString
| OpEnsureWritable (n : Z)
| OpReadable.

(** Outputs: the bytes returned by the retrieving calls, or a size. *)
Inductive output : Type := OutUnit | OutBytes (d : list byte) | OutSize (n : Z).

Definition run_op (o : op) : M Buffer output :=
  match o with
  | OpAppend d => append d;;; ret OutUnit
  | OpPrepend d => prepend d;;; ret OutUnit
  | OpRetrieve n => retrieve n;;; ret OutUnit
  | OpRetrieveAll => retrieveAll;;; ret OutUnit
  | OpRetrieveAsString n => s <- retrieveAsString n;; ret (OutBytes s)
  | OpRetrieveAllAsString => s <- retrieveAllAsString;; ret (OutBytes s)
  | OpEnsureWritable n => ensureWritableBytes n;;; ret OutUnit
  | OpReadable => n <- gets readableBytes;; ret (OutSize n)
  end.

Fixpoint run_ops (l : list op) : M Buffer (list output) :=
  match l with
  | [] => ret []
  | o :: l' => x <- run_op o;; xs <- run_ops l';; ret (x :: xs)
  end.

Record view : Type := mkView { bytes : list byte; headroom : Z; capacity : Z }.

(** [n] bytes of room behind the list: by compaction to a headroom of 8, or, when
    that is not enough, by growing the vector. *)
Definition spec_reserve (n : Z) (v : view) : view :=
  if capacity v - headroom v - zlen (bytes v) <? n then
    if capacity v <? zlen (bytes v) + n + 8
    then mkView (bytes v) (headroom v) (headroom v + zlen (bytes v) + n)
    else mkView (bytes v) 8 (capacity v)
  else v.

(** Taking [n] bytes; an emptied buffer starts again with a headroom of 8. *)
Definition spec_take (n : Z) (v : view) : view :=
  mkView (zdrop n (bytes v)) (if n <? zlen (bytes v) then headroom v + n else 8) (capacity v).

(** The view after an operation and its output, or the assert that fails. *)
Definition spec_op (o : op) (v : view) : string + output * view :=
  match o with
  | OpAppend d =>
      let v' := spec_reserve (zlen d) v in
      inr (OutUnit, mkView (bytes v ++ d) (headroom v') (capacity v'))
  | OpPrepend d =>
      if zlen d <=? headroom v
      then inr (OutUnit, mkView (d ++ bytes v) (headroom v - zlen d) (capacity v))
      else inl "Buffer::prepend"
  | OpRetrieve n =>
      if n <=? zlen (bytes v) then inr (OutUnit, spec_take n v) else inl "Buffer::retrieve"
  | OpRetrieveAll => inr (OutUnit, mkView [] 8 (capacity v))
  | OpRetrieveAsString n =>
      if n <=? zlen (bytes v) then inr (OutBytes (ztake n (bytes v)), spec_take n v)
      else inl "Buffer::retrieveAsString"
  | OpRetrieveAllAsString => inr (OutBytes (bytes v), mkView [] 8 (capacity v))
  | OpEnsureWritable n => inr (OutUnit, spec_reserve n v)
  | OpReadable => inr (OutSize (zlen (bytes v)), v)
  end.

Fixpoint spec_ops (l : list op) (v : view) : string + list output * view :=
  match l with
  | [] => inr ([], v)
  | o :: l' =>
      match spec_op o v with
      | inl site => inl site
      | inr (x, v') =>
          match spec_ops l' v' with
          | inl site => inl site
          | inr (xs, v'') => inr (x :: xs, v'')
          end
      end
  end.

(** Sizes are of type size_t. *)
Definition size_arg (o : op) : Prop :=
  match o with OpRetrieve n | OpRetrieveAsString n | OpEnsureWritable n => 0 <= n | _ => True end.

(** What an operation may add to the vector. *)
Definition demand (o : op) : Z :=
  match o with
  | OpAppend d => zlen d
  | OpEnsureWritable n => Z.max 0 n
  | _ => 0
  end.

Definition demands (l : list op) : Z := foldr (fun o acc => demand o + acc) 0 l.

Definition view_of (b : Buffer) : view :=
  mkView (content b) (readerIndex_ b) (zlen (buffer_ b)).

(** [m] does what the specification says: it returns the output and leaves the
    view, or the assert fails. *)
Definition implements {A} (m : M Buffer A) (r : string + A * view) (b : Buffer) : Prop :=
  match r with
  | inr (x, v) => wp no_fault m (fun y b' => y = x /\ wf b' /\ view_of b' = v) b
  | inl site => m b = Err (AssertFailed site)
  end.

Lemma demand_nonneg o : 0 <= demand o.
Proof. destruct o; simpl; try lia. apply zlen_nonneg. Qed.

Lemma demands_nonneg l : 0 <= demands l.
Proof.
  induction l as [|o l IH]; [done|]. change (0 <= demand o + demands l).
  pose proof (demand_nonneg o). lia.
Qed.

Lemma view_eq b q h n :
  content b = q -> readerIndex_ b = h -> zlen (buffer_ b) = n -> view_of b = mkView q h n.
Proof. unfold view_of. by intros -> -> ->. Qed.

(** The free space of a buffer, read off its view. *)
Lemma reserve_view n b :
  wf b ->
  headroom (spec_reserve n (view_of b)) =
    (if (writableBytes b <? n) && negb (zlen (buffer_ b) <? readableBytes b + n + kCheapPrepend)
     then kCheapPrepend else readerIndex_ b)
  /\ capacity (spec_reserve n (view_of b)) =
    (if (writableBytes b <? n) && (zlen (buffer_ b) <? readableBytes b + n + kCheapPrepend)
     then writerIndex_ b + n else zlen (buffer_ b))
  /\ bytes (spec_reserve n (view_of b)) = content b.
Proof.
  intros Hb. unfold spec_reserve. simpl. rewrite (zlen_content b Hb).
  rewrite (writable_wf b Hb), (readable_wf b Hb). unfold kCheapPrepend.
  replace (zlen (buffer_ b) - readerIndex_ b - (writerIndex_ b - readerIndex_ b))
    with (zlen (buffer_ b) - writerIndex_ b) by lia.
  destruct (_ <? n); [|done]. simpl. destruct (_ <? _ + 8); simpl; [|done].
  split_and!; [done|lia|done].
Qed.

Lemma fails_bind {A B} (m : M Buffer A) (k : A -> M Buffer B) f b :
  m b = Err f -> bind m k b = Err f.
Proof. unfold bind. by intros ->. Qed.

Lemma retrieve_reader F len b :
  len <= readableBytes b ->
  wp F (retrieve len) (fun _ b' => readerIndex_ b' =
    if len <? readableBytes b then u64 (readerIndex_ b + len) else kCheapPrepend) b.
Proof.
  intros Hle. unfold retrieve. wp_simpl. rewrite (proj2 (Z.leb_le _ _)) by lia.
  by destruct (len <? readableBytes b).
Qed.

Lemma retrieve_implements F n b :
  wf b -> 0 <= n -> n <= zlen (content b) ->
  wp F (retrieve n) (fun _ b' => wf b' /\ view_of b' = spec_take n (view_of b)) b.
Proof.
  intros Hb Hn Hle. pose proof (zlen_content b Hb) as Hl.
  pose proof (readable_wf b Hb) as Hr. pose proof Hb as [].
  eapply wp_mono; [apply wp_and; [apply (retrieve_spec F n b Hb); lia|apply retrieve_reader; lia]|].
  intros _ b' [(? & Hc & Hv) Hi]. split; [done|]. apply view_eq; [done| |by rewrite Hv].
  rewrite Hi. simpl. rewrite Hl. buf_unfold. case_bool; [by u64_tac|done].
Qed.

Lemma retrieveAsString_implements F n b :
  wf b -> 0 <= n -> n <= zlen (content b) ->
  wp F (retrieveAsString n)
    (fun s b' => s = ztake n (content b) /\ wf b' /\ view_of b' = spec_take n (view_of b)) b.
Proof.
  intros Hb Hn Hle. pose proof (zlen_content b Hb) as Hl. unfold retrieveAsString. wp_simpl.
  rewrite (proj2 (Z.leb_le _ _)) by lia. wp_simpl.
  pose proof (readable_wf b Hb) as Hr. pose proof Hb as [].
  apply vec_read_spec; unfold peek; try lia. wp_simpl.
  wp_call retrieve_implements; [done..|]. intros _ b' [? ?]. wp_simpl.
  split; [|done]. unfold content, zslice, ztake. rewrite take_take. f_equal. lia.
Qed.

Lemma retrieveAll_implements F b :
  wf b -> wp F retrieveAll (fun _ b' => wf b' /\ view_of b' = mkView [] 8 (zlen (buffer_ b))) b.
Proof. intros []. unfold retrieveAll. wp_simpl. split; [constructor; simpl; buf_unfold; lia|done]. Qed.

Lemma run_op_implements o b :
  wf b -> fits b (demand o) -> size_arg o -> implements (run_op o) (spec_op o (view_of b)) b.
Proof.
  intros Hb Hfit Hsz. pose proof (zlen_content b Hb) as Hl.
  destruct o as [d|d|n| |n| |n|]; simpl in *.
  - wp_simpl. wp_call append_exact; [done|by left|]. intros _ b' (? & ? & Hc & Hr). wp_simpl.
    destruct (reserve_view (zlen d) b Hb) as (E1 & E2 & _). split_and!; [done|done|].
    apply view_eq; [done|by rewrite Hr|by rewrite Hc].
  - destruct (zlen d <=? readerIndex_ b) eqn:E; bool_solve.
    + simpl. wp_simpl. wp_call prepend_spec; [done|done|]. intros _ b' (? & ? & ? & ?). wp_simpl.
      split_and!; [done|done|]. by apply view_eq.
    + simpl. apply wp_fails. wp_simpl. unfold prepend. wp_simpl.
      by rewrite (proj2 (Z.leb_gt _ _)) by (buf_unfold; lia).
  - destruct (n <=? zlen (content b)) eqn:E; bool_solve.
    + simpl. wp_simpl. wp_call retrieve_implements; [done..|]. intros _ b' [? ?]. by wp_simpl.
    + simpl. apply wp_fails. wp_simpl. unfold retrieve. wp_simpl.
      by rewrite (proj2 (Z.leb_gt _ _)) by lia.
  - wp_simpl. wp_call retrieveAll_implements; [done|]. intros _ b' [? ?]. by wp_simpl.
  - destruct (n <=? zlen (content b)) eqn:E; bool_solve.
    + simpl. wp_simpl. wp_call retrieveAsString_implements; [done..|].
      intros s b' (-> & ? & ?). by wp_simpl.
    + simpl. apply wp_fails. wp_simpl. unfold retrieveAsString. wp_simpl.
      by rewrite (proj2 (Z.leb_gt _ _)) by lia.
  - unfold retrieveAllAsString. wp_simpl. pose proof (zlen_nonneg (content b)).
    wp_call retrieveAsString_implements; [done|lia|lia|]. intros s b' (-> & ? & Hv). wp_simpl.
    rewrite Hv, <- Hl, ztake_all by lia. split_and!; [done|done|]. unfold spec_take. simpl.
    by rewrite zdrop_all, Z.ltb_irrefl by lia.
  - wp_simpl. wp_call ensureWritableBytes_spec; [done|left; unfold fits in *; lia|].
    intros _ b' (? & Hc & _ & Hn & Hr). wp_simpl. split_and!; [done|done|].
    destruct (reserve_view n b Hb) as (E1 & E2 & E3).
    destruct (spec_reserve n (view_of b)) as [q h c]. simpl in *. subst. by apply view_eq.
  - wp_simpl. by rewrite Hl.
Qed.

(** The vector never grows by more than the demand. *)
Lemma spec_op_capacity o b x v :
  wf b -> spec_op o (view_of b) = inr (x, v) -> capacity v <= capacity (view_of b) + demand o.
Proof.
  intros Hb. pose proof (writable_wf b Hb) as Hw. pose proof Hb as [].
  destruct o as [d|d|n| |n| |n|]; simpl; try (case_match; [|done]); intros [= <- <-]; simpl;
    try lia.
  - destruct (reserve_view (zlen d) b Hb) as (_ & -> & _). pose proof (zlen_nonneg d).
    rewrite Hw. case_bool; lia.
  - destruct (reserve_view n b Hb) as (_ & -> & _). rewrite Hw. case_bool; lia.
Qed.

Lemma run_ops_implements l b :
  wf b -> fits b (demands l) -> Forall size_arg l ->
  implements (run_ops l) (spec_ops l (view_of b)) b.
Proof.
  revert b. induction l as [|o l IH]; intros b Hb Hfit Hsz; simpl; [by wp_simpl|].
  apply Forall_cons in Hsz as [Ho Hsz]. pose proof (demands_nonneg l). pose proof (demand_nonneg o).
  unfold fits in *. change (demands (o :: l)) with (demand o + demands l) in Hfit.
  pose proof (run_op_implements o b Hb ltac:(unfold fits; lia) Ho) as Himp.
  destruct (spec_op o (view_of b)) as [site|[x v]] eqn:E; simpl in *; [by apply fails_bind|].
  apply wp_ok in Himp as (y & b1 & E1 & -> & Hb1 & <-).
  pose proof (spec_op_capacity o b x _ Hb E) as Hcap. simpl in Hcap.
  specialize (IH b1 Hb1 ltac:(lia) Hsz). unfold implements in *.
  destruct (spec_ops l (view_of b1)) as [site|[xs v']]; simpl in *.
  - unfold bind at 1. rewrite E1. by apply fails_bind.
  - rewrite wp_bind. eapply wp_of_ok; [exact E1|]. rewrite wp_bind. wp_call IH.
    intros ys b2 (-> & ? & ?). by wp_simpl.
Qed.

(** ** Properties *)

(** C14: from a well-formed buffer, any sequence of appends, prepends,
    retrievals and reservations, of any sizes that a vector can hold, does what
    the specification says: it returns what the same sequence returns on a plain
    list of bytes and leaves that list as the readable bytes, with the headroom
    and the vector's size that the specification computes, and no assert fails
    and no access leaves the vector; unless the sequence comes to a prepend
    longer than the headroom or a retrieval of more bytes than are readable,
    where the assert of that function fails, and no other. *)
Theorem buffer_refines_queue l b :
  wf b -> fits b (demands l) -> Forall size_arg l ->
  implements (run_ops l) (spec_ops l (view_of b)) b.
Proof. apply run_ops_implements. Qed.

Definition buf0 : Buffer := mkBuffer (replicate 16 x00) 8 8.

Lemma buf0_wf : wf buf0.
Proof. by constructor. Defined.

(** Eight bytes of headroom take a prepend of eight bytes, and then none. *)
Lemma buffer_refines_queue_witness :
  wp no_fault
    (run_ops [OpAppend [x41; x42; x43]; OpRetrieve 1; OpPrepend [x44; x45];
              OpAppend (replicate 12 x46); OpRetrieveAsString 3; OpReadable])
    (fun ys b' => ys = [OutUnit; OutUnit; OutUnit; OutUnit; OutBytes [x44; x45; x42]; OutSize 13]
       /\ wf b' /\ view_of b' = mkView (x43 :: replicate 12 x46) 10 23) buf0
  /\ wp no_fault (run_ops [OpPrepend (replicate 8 x41)])
       (fun ys b' => ys = [OutUnit] /\ wf b' /\ view_of b' = mkView (replicate 8 x41) 0 16) buf0
  /\ run_ops [OpPrepend (replicate 8 x41); OpPrepend [x42]] buf0
     = Err (AssertFailed "Buffer::prepend").
Proof.
  split_and!.
  - apply (buffer_refines_queue [OpAppend [x41; x42; x43]; OpRetrieve 1; OpPrepend [x44; x45];
      OpAppend (replicate 12 x46); OpRetrieveAsString 3; OpReadable] buf0);
      [exact buf0_wf|vm_compute; discriminate|repeat constructor; vm_compute; discriminate].
  - apply (buffer_refines_queue [OpPrepend (replicate 8 x41)] buf0);
      [exact buf0_wf|vm_compute; discriminate|repeat constructor].
  - apply (buffer_refines_queue [OpPrepend (replicate 8 x41); OpPrepend [x42]] buf0);
      [exact buf0_wf|vm_compute; discriminate|repeat constructor].
Defined.

(** EnsureWritableBytes keeps the readable bytes, makes [len] bytes
    writable, and enlarges the vector only when the free space in front and
    behind together (less the reserved 8 bytes) is too small. *)
Theorem ensureWritable_compacts_or_grows len b :
  wf b -> fits b len ->
  wp no_fault (ensureWritableBytes len)
    (fun _ b' => wf b' /\ content b' = content b /\ len <= writableBytes b'
       /\ zlen (buffer_ b') =
          (if (writableBytes b <? len)
              && (zlen (buffer_ b) <? readableBytes b + len + kCheapPrepend)
           then writerIndex_ b + len else zlen (buffer_ b))) b.
Proof.
  intros Hb Hfit. wp_call ensureWritableBytes_spec; [done|by left|].
  by intros _ b' (? & ? & ? & ? & _).
Qed.

Lemma ensureWritable_compacts_or_grows_witness :
  let b := mkBuffer (replicate 16 x41) 12 15 in
  wp no_fault (ensureWritableBytes 5)
    (fun _ b' => wf b' /\ content b' = [x41; x41; x41] /\ 5 <= writableBytes b'
       /\ zlen (buffer_ b') = 16) b.
Proof.
  apply (ensureWritable_compacts_or_grows 5 (mkBuffer (replicate 16 x41) 12 15));
    [by constructor|vm_compute; discriminate].
Defined.

(** C15: an integer appended in network order and read after what was in the
    buffer before, or prepended and read at once, comes back unchanged, for
    each of the four widths. *)
Theorem int_roundtrip x b :
  wf b -> fits b 8 -> 8 <= prependableBytes b ->
  (int_range 64 x ->
     wp no_fault (appendInt64 x;;; retrieve (readableBytes b);;; readInt64)
       (fun y b' => y = x /\ wf b' /\ content b' = []) b
     /\ wp no_fault (prependInt64 x;;; readInt64)
       (fun y b' => y = x /\ wf b' /\ content b' = content b) b)
  /\ (int_range 32 x ->
     wp no_fault (appendInt32 x;;; retrieve (readableBytes b);;; readInt32)
       (fun y b' => y = x /\ wf b' /\ content b' = []) b
     /\ wp no_fault (prependInt32 x;;; readInt32)
       (fun y b' => y = x /\ wf b' /\ content b' = content b) b)
  /\ (int_range 16 x ->
     wp no_fault (appendInt16 x;;; retrieve (readableBytes b);;; readInt16)
       (fun y b' => y = x /\ wf b' /\ content b' = []) b
     /\ wp no_fault (prependInt16 x;;; readInt16)
       (fun y b' => y = x /\ wf b' /\ content b' = content b) b)
  /\ (int_range 8 x ->
     wp no_fault (appendInt8 x;;; retrieve (readableBytes b);;; readInt8)
       (fun y b' => y = x /\ wf b' /\ content b' = []) b
     /\ wp no_fault (prependInt8 x;;; readInt8)
       (fun y b' => y = x /\ wf b' /\ content b' = content b) b).
Proof.
  intros Hb Hfit Hp. unfold fits in Hfit. split_and!; intros Hx; split.
  - apply (append_readInt no_fault 8); [done|lia|done|unfold fits; lia].
  - apply (prepend_readInt no_fault 8); [done|lia|done|lia].
  - apply (append_readInt no_fault 4); [done|lia|done|unfold fits; lia].
  - apply (prepend_readInt no_fault 4); [done|lia|done|lia].
  - apply (append_readInt no_fault 2); [done|lia|done|unfold fits; lia].
  - apply (prepend_readInt no_fault 2); [done|lia|done|lia].
  - apply (append_readInt no_fault 1); [done|lia|done|unfold fits; lia].
  - apply (prepend_readInt no_fault 1); [done|lia|done|lia].
Qed.

Lemma int_roundtrip_witness :
  wp no_fault (appendInt32 (-2);;; retrieve (readableBytes buf0);;; readInt32)
    (fun y b' => y = -2 /\ wf b' /\ content b' = []) buf0.
Proof.
  destruct (int_roundtrip (-2) buf0) as (_ & H & _);
    [exact buf0_wf|vm_compute; discriminate..|].
  refine (proj1 (H _)). split; vm_compute; congruence.
Defined.

(** findCRLF returns the first CR LF of the readable bytes, and nothing
    exactly when there is none; findEOL does the same for LF. *)
Lemma find_first b :
  wf b ->
  match findCRLF b with
  | Some p => peek b <= p /\ p + 2 <= beginWrite b
      /\ (exists post, content b = ztake (p - peek b) (content b) ++ kCRLF ++ post)
      /\ (forall pre post, content b = pre ++ kCRLF ++ post -> p - peek b <= zlen pre)
  | None => forall pre post, content b <> pre ++ kCRLF ++ post
  end
  /\ match findEOL b with
     | Some p => exists pre post, content b = pre ++ LF :: post
                   /\ zlen pre = p - peek b /\ LF ∉ pre
     | None => LF ∉ content b
     end.
Proof.
  intros Hb. pose proof (zlen_content b Hb) as Hl. rewrite readable_wf in Hl by done. split.
  - unfold findCRLF, search_at. change (region (peek b) b) with (content b).
    destruct (search_spec kCRLF (content b)) as (Hle & Hfirst & Hocc & Hnone); [done|].
    unfold peek, beginWrite, zlen in *. case_bool; [apply Hnone; lia|].
    destruct Hocc as [post Hpost]; [lia|]. split_and!.
    + lia.
    + apply (f_equal length) in Hpost. rewrite !length_app, length_take in Hpost.
      simpl in Hpost. lia.
    + exists post. unfold ztake.
      by replace (Z.to_nat _) with (search kCRLF (content b)) by lia.
    + intros pre post' Hp. specialize (Hfirst _ _ Hp). lia.
  - unfold findEOL. rewrite readable_wf by done.
    change (zslice (peek b) (writerIndex_ b - readerIndex_ b) (buffer_ b)) with (content b).
    pose proof (memchr_spec LF (content b)) as Hm. destruct (memchr _ _) as [i|]; simpl; [|done].
    destruct Hm as (pre & post & ? & ? & ?). exists pre, post. unfold zlen. split_and!; [done|lia|done].
Qed.

Lemma find_first_witness :
  let b := mkBuffer (replicate 8 x00 ++ [x41; x0d; x0d; x0a; x42; x0d; x0a; x00]) 8 15 in
  findCRLF b = Some 10
  /\ (exists post, content b = ztake (10 - peek b) (content b) ++ kCRLF ++ post).
Proof.
  set (b := mkBuffer _ _ _). split; [reflexivity|].
  destruct (find_first b) as [H _]; [by constructor|]. apply H.
Defined.

(** C25: readFd hands the bytes of one readv to the buffer, in order and
    complete, whichever of the two areas they arrive in; an error leaves the
    buffer unchanged.  With less than 64 KiB writable one call delivers at
    most 128 KiB - 1 bytes. *)
Theorem readFd_appends {K} `{Posix K} `{!ReadvLaws K} fd b k :
  wf b -> fits b extrabuf_size ->
  wp no_fault (readFd fd)
    (fun r s => match sys_readv fd (readFd_lens b) k with
       | (SysErr e, k') => r = SysErr e /\ s = (b, k')
       | (SysOk d, k') => r = SysOk (zlen d) /\ s.2 = k' /\ wf s.1
           /\ content s.1 = content b ++ d
           /\ zlen (buffer_ s.1) <= zlen (buffer_ b) + extrabuf_size
       end) (b, k)
  /\ (writableBytes b < extrabuf_size -> readFd_max b <= 128 * 1024 - 1).
Proof.
  intros Hb Hfit. split; [apply readFd_spec; [done|by left]|].
  intros Hw. unfold readFd_max, readFd_lens.
  rewrite (proj2 (Z.ltb_lt _ _)) by lia. unfold extrabuf_size in *. simpl. lia.
Qed.

Lemma readFd_appends_witness :
  let k := with_reads [SysOk (replicate 20 x41)] sim_init in
  wp no_fault (readFd 5)
    (fun r s => r = SysOk 20 /\ content s.1 = replicate 20 x41) (buf0, k).
Proof.
  set (k := with_reads _ _).
  destruct (readFd_appends 5 buf0 k) as [H _]; [exact buf0_wf|vm_compute; discriminate|].
  eapply wp_mono; [exact H|]. intros r s (-> & _ & _ & -> & _). split; reflexivity.
Defined.

(** The size arithmetic of ensureWritableBytes is modulo 2^64: asked for
    2^64 - 1 more bytes behind eight prepended ones, it passes every assert and
    leaves a vector shorter than the write index. *)
Lemma ensureWritable_wraps :
  exists b b', wf b /\ ensureWritableBytes (2 ^ 64 - 1) b = Ok (tt, b')
    /\ zlen (buffer_ b') < writerIndex_ b'.
Proof.
  exists (mkBuffer (replicate 8 x00) 0 8).
  eexists. split; [by constructor|]. split; [reflexivity|]. reflexivity.
Qed.

End Buffer.
