(* ===== verification/Channel.v ===== *)
(** * Channel: a descriptor, its interest mask and its callbacks
    (include/knetlib/Channel.h, src/Channel.cpp)

    The data of the class and the operations that do not leave it.  The
    methods that go through the event loop ([update], [enableRead], ...,
    [handleEvents]) are in EventLoop.v, after the poller they call.  [Cb] is
    the type of the callbacks: a std::function is a name that the owner of the
    channel interprets.  [addr_] is the address of the object, which epoll
    carries as data.ptr. *)

From S2P Require Import Prelude Posix.

Record Channel (Cb : Type) : Type := mkChannel {
  pooling : bool;
  addr_ : Z;
  fd_ : Z;
  tie_ : option Z;          (* the object the weak_ptr refers to *)
  tied_ : bool;
  events_ : Z;
  revents_ : Z;
  handlingEvents_ : bool;
  readCallback_ : option Cb;
  writeCallback_ : option Cb;
  closeCallback_ : option Cb;
  errorCallback_ : option Cb
}.
Arguments mkChannel {Cb}.
Arguments pooling {Cb}.
Arguments addr_ {Cb}.
Arguments fd_ {Cb}.
Arguments tie_ {Cb}.
Arguments tied_ {Cb}.
Arguments events_ {Cb}.
Arguments revents_ {Cb}.
Arguments handlingEvents_ {Cb}.
Arguments readCallback_ {Cb}.
Arguments writeCallback_ {Cb}.
Arguments closeCallback_ {Cb}.
Arguments errorCallback_ {Cb}.

Module Channel.
Section channel.
Context {Cb : Type}.
Implicit Types c : Channel Cb.

Definition new (addr fd : Z) : Channel Cb :=
  mkChannel false addr fd None false 0 0 false None None None None.

(** Assignments to one member. *)
Definition set_pooling (b : bool) c : Channel Cb :=
  mkChannel b (addr_ c) (fd_ c) (tie_ c) (tied_ c) (events_ c) (revents_ c) (handlingEvents_ c)
    (readCallback_ c) (writeCallback_ c) (closeCallback_ c) (errorCallback_ c).
Definition set_events (e : Z) c : Channel Cb :=
  mkChannel (pooling c) (addr_ c) (fd_ c) (tie_ c) (tied_ c) e (revents_ c) (handlingEvents_ c)
    (readCallback_ c) (writeCallback_ c) (closeCallback_ c) (errorCallback_ c).
Definition setRevents (e : Z) c : Channel Cb :=
  mkChannel (pooling c) (addr_ c) (fd_ c) (tie_ c) (tied_ c) (events_ c) e (handlingEvents_ c)
    (readCallback_ c) (writeCallback_ c) (closeCallback_ c) (errorCallback_ c).
Definition set_handling (b : bool) c : Channel Cb :=
  mkChannel (pooling c) (addr_ c) (fd_ c) (tie_ c) (tied_ c) (events_ c) (revents_ c) b
    (readCallback_ c) (writeCallback_ c) (closeCallback_ c) (errorCallback_ c).
Definition tie (obj : Z) c : Channel Cb :=
  mkChannel (pooling c) (addr_ c) (fd_ c) (Some obj) true (events_ c) (revents_ c)
    (handlingEvents_ c)
    (readCallback_ c) (writeCallback_ c) (closeCallback_ c) (errorCallback_ c).
Definition setReadCallback (f : option Cb) c : Channel Cb :=
  mkChannel (pooling c) (addr_ c) (fd_ c) (tie_ c) (tied_ c) (events_ c) (revents_ c)
    (handlingEvents_ c) f (writeCallback_ c) (closeCallback_ c) (errorCallback_ c).
Definition setWriteCallback (f : option Cb) c : Channel Cb :=
  mkChannel (pooling c) (addr_ c) (fd_ c) (tie_ c) (tied_ c) (events_ c) (revents_ c)
    (handlingEvents_ c) (readCallback_ c) f (closeCallback_ c) (errorCallback_ c).
Definition setCloseCallback (f : option Cb) c : Channel Cb :=
  mkChannel (pooling c) (addr_ c) (fd_ c) (tie_ c) (tied_ c) (events_ c) (revents_ c)
    (handlingEvents_ c) (readCallback_ c) (writeCallback_ c) f (errorCallback_ c).
Definition setErrorCallback (f : option Cb) c : Channel Cb :=
  mkChannel (pooling c) (addr_ c) (fd_ c) (tie_ c) (tied_ c) (events_ c) (revents_ c)
    (handlingEvents_ c) (readCallback_ c) (writeCallback_ c) (closeCallback_ c) f.

(** ~Channel(): the channel must not be dispatching. *)
Definition destroy c : result unit :=
  if handlingEvents_ c then Err (AssertFailed "Channel::~Channel") else Ok tt.

Definition isNoneEvents c : bool := events_ c =? 0.

(** A test of one bit of a mask: [m & bit]. *)
Definition has (m bit : Z) : bool := negb (Z.land m bit =? 0).

Definition isReading c : bool := has (events_ c) EPOLLIN.
Definition isWriting c : bool := has (events_ c) EPOLLOUT.

(** The new masks of the enabling and disabling calls. *)
Definition mask_enableRead (e : Z) : Z := Z.lor e (Z.lor EPOLLIN EPOLLPRI).
Definition mask_enableWrite (e : Z) : Z := Z.lor e EPOLLOUT.
Definition mask_disableRead (e : Z) : Z := Z.land e (Z.lnot EPOLLIN).
Definition mask_disableWrite (e : Z) : Z := Z.land e (Z.lnot EPOLLOUT).

(** The callbacks that handleEventWithGuard calls for the events [r], in
    order: close, error, read, write. *)
Definition wants_close (r : Z) : bool := has r EPOLLHUP && negb (has r EPOLLIN).
Definition wants_error (r : Z) : bool := has r EPOLLERR.
Definition wants_read (r : Z) : bool := has r (Z.lor EPOLLIN (Z.lor EPOLLPRI EPOLLRDHUP)).
Definition wants_write (r : Z) : bool := has r EPOLLOUT.
End channel.

(** Bit tests on masks. *)
Lemma has_testbit m i : 0 <= i -> has m (2 ^ i) = Z.testbit m i.
Proof.
  intros Hi. unfold has. destruct (Z.testbit m i) eqn:E.
  - rewrite negb_true_iff, Z.eqb_neq. intros H.
    apply (f_equal (fun z => Z.testbit z i)) in H.
    rewrite Z.land_spec, E, Z.pow2_bits_true, Z.bits_0 in H by done. done.
  - rewrite negb_false_iff, Z.eqb_eq. apply Z.bits_inj'. intros j Hj.
    rewrite Z.land_spec, Z.bits_0, Z.pow2_bits_eqb by done.
    destruct (i =? j) eqn:Ej; [apply Z.eqb_eq in Ej; subst; by rewrite E|by rewrite andb_false_r].
Qed.

Lemma has_in m : has m EPOLLIN = Z.testbit m 0.
Proof. by apply (has_testbit m 0). Qed.
Lemma has_out m : has m EPOLLOUT = Z.testbit m 2.
Proof. by apply (has_testbit m 2). Qed.

Lemma mask_bits_enableWrite e i :
  0 <= i -> Z.testbit (mask_enableWrite e) i = Z.testbit e i || (2 =? i).
Proof.
  intros. unfold mask_enableWrite. change EPOLLOUT with (2 ^ 2).
  by rewrite Z.lor_spec, Z.pow2_bits_eqb.
Qed.

Lemma mask_bits_disableWrite e i :
  0 <= i -> Z.testbit (mask_disableWrite e) i = Z.testbit e i && negb (2 =? i).
Proof.
  intros. unfold mask_disableWrite. change EPOLLOUT with (2 ^ 2).
  by rewrite Z.land_spec, Z.lnot_spec, Z.pow2_bits_eqb.
Qed.

Lemma mask_bits_disableRead e i :
  0 <= i -> Z.testbit (mask_disableRead e) i = Z.testbit e i && negb (0 =? i).
Proof.
  intros. unfold mask_disableRead. change EPOLLIN with (2 ^ 0).
  by rewrite Z.land_spec, Z.lnot_spec, Z.pow2_bits_eqb.
Qed.

Lemma mask_bits_enableRead e i :
  0 <= i -> Z.testbit (mask_enableRead e) i = Z.testbit e i || ((0 =? i) || (1 =? i)).
Proof.
  intros. unfold mask_enableRead. change EPOLLIN with (2 ^ 0). change EPOLLPRI with (2 ^ 1).
  by rewrite !Z.lor_spec, !Z.pow2_bits_eqb.
Qed.

Lemma isWriting_enableWrite e : has (mask_enableWrite e) EPOLLOUT = true.
Proof. rewrite has_out, mask_bits_enableWrite by done. apply orb_true_r. Qed.
Lemma isWriting_disableWrite e : has (mask_disableWrite e) EPOLLOUT = false.
Proof. rewrite has_out, mask_bits_disableWrite by done. apply andb_false_r. Qed.
Lemma isWriting_enableRead e : has (mask_enableRead e) EPOLLOUT = has e EPOLLOUT.
Proof. rewrite !has_out, mask_bits_enableRead by done. apply orb_false_r. Qed.
Lemma isWriting_disableRead e : has (mask_disableRead e) EPOLLOUT = has e EPOLLOUT.
Proof. rewrite !has_out, mask_bits_disableRead by done. apply andb_true_r. Qed.

(** The masks of a channel that reads or has read: EPOLLPRI stays set, since
    disableRead only clears EPOLLIN, and no other bit than EPOLLIN and EPOLLOUT
    joins it.  Such a mask is a uint32_t and what its two flags say. *)
Definition mask_ok (e : Z) : Prop := Z.testbit e 1 = true /\ 0 <= e < 8.

Lemma mask_ok_cases e (P : Z -> Prop) :
  0 <= e < 8 -> P 0 -> P 1 -> P 2 -> P 3 -> P 4 -> P 5 -> P 6 -> P 7 -> P e.
Proof.
  intros He. intros. assert (e = 0 \/ e = 1 \/ e = 2 \/ e = 3 \/ e = 4 \/ e = 5 \/ e = 6 \/ e = 7)
    as Hc by lia. by repeat destruct Hc as [->|Hc]; [done..|subst].
Qed.

Lemma mask_ok_enableRead e : 0 <= e < 8 -> mask_ok (mask_enableRead e).
Proof. intros He. apply (mask_ok_cases e); try done; by vm_compute. Qed.
Lemma mask_ok_disableRead e : mask_ok e -> mask_ok (mask_disableRead e).
Proof. intros [Hb He]. revert Hb. apply (mask_ok_cases e); try done; by vm_compute. Qed.
Lemma mask_ok_enableWrite e : mask_ok e -> mask_ok (mask_enableWrite e).
Proof. intros [Hb He]. revert Hb. apply (mask_ok_cases e); try done; by vm_compute. Qed.
Lemma mask_ok_disableWrite e : mask_ok e -> mask_ok (mask_disableWrite e).
Proof. intros [Hb He]. revert Hb. apply (mask_ok_cases e); try done; by vm_compute. Qed.

(** The mask is what the two flags say. *)
Lemma mask_ok_flags e : mask_ok e ->
  e = Z.lor EPOLLPRI (Z.lor (if has e EPOLLIN then EPOLLIN else 0) (if has e EPOLLOUT then EPOLLOUT else 0)).
Proof. intros [Hb He]. revert Hb. apply (mask_ok_cases e); try done; by vm_compute. Qed.

(** A mask with a bit set is not the empty mask. *)
Lemma testbit_nonzero e i : Z.testbit e i = true -> (e =? 0) = false.
Proof. intros H. apply Z.eqb_neq. intros ->. by rewrite Z.bits_0 in H. Qed.
End Channel.
