(* ===== verification/Epoll.v ===== *)
(** * Epoll: the poller (include/knetlib/Epoll.h, src/Epoll.cpp) and the state
    of the event loop that owns it

    [Loop] holds the members of class EventLoop that the poller, the channels
    and the tasks read and write; [T] is the type of the queued tasks, [K] the
    kernel state.  [current_tid] is the thread that executes the code. *)

From S2P Require Import Prelude Posix Channel.

Record Epoll : Type := mkEpoll {
  events_size : Z;      (* events_.size(): how many events one wait may return *)
  epollfd_ : Z
}.

Record Loop (K T : Type) : Type := mkLoop {
  kernel : K;
  tid_ : Z;
  current_tid : Z;
  quit_ : bool;
  doingPendingTasks_ : bool;
  poller_ : Epoll;
  activeChannels_ : list Z;
  wakeupfd_ : Z;
  pendingTasks_ : list T
}.
Arguments mkLoop {K T}.
Arguments kernel {K T}.
Arguments tid_ {K T}.
Arguments current_tid {K T}.
Arguments quit_ {K T}.
Arguments doingPendingTasks_ {K T}.
Arguments poller_ {K T}.
Arguments activeChannels_ {K T}.
Arguments wakeupfd_ {K T}.
Arguments pendingTasks_ {K T}.

Section setters.
Context {K T : Type}.
Implicit Types l : Loop K T.
Definition set_kernel (k : K) l : Loop K T :=
  mkLoop k (tid_ l) (current_tid l) (quit_ l) (doingPendingTasks_ l) (poller_ l)
    (activeChannels_ l) (wakeupfd_ l) (pendingTasks_ l).
Definition set_quit (b : bool) l : Loop K T :=
  mkLoop (kernel l) (tid_ l) (current_tid l) b (doingPendingTasks_ l) (poller_ l)
    (activeChannels_ l) (wakeupfd_ l) (pendingTasks_ l).
Definition set_doing (b : bool) l : Loop K T :=
  mkLoop (kernel l) (tid_ l) (current_tid l) (quit_ l) b (poller_ l)
    (activeChannels_ l) (wakeupfd_ l) (pendingTasks_ l).
Definition set_poller (p : Epoll) l : Loop K T :=
  mkLoop (kernel l) (tid_ l) (current_tid l) (quit_ l) (doingPendingTasks_ l) p
    (activeChannels_ l) (wakeupfd_ l) (pendingTasks_ l).
Definition set_active (a : list Z) l : Loop K T :=
  mkLoop (kernel l) (tid_ l) (current_tid l) (quit_ l) (doingPendingTasks_ l) (poller_ l)
    a (wakeupfd_ l) (pendingTasks_ l).
Definition set_pending (ts : list T) l : Loop K T :=
  mkLoop (kernel l) (tid_ l) (current_tid l) (quit_ l) (doingPendingTasks_ l) (poller_ l)
    (activeChannels_ l) (wakeupfd_ l) ts.
Definition set_current (t : Z) l : Loop K T :=
  mkLoop (kernel l) (tid_ l) t (quit_ l) (doingPendingTasks_ l) (poller_ l)
    (activeChannels_ l) (wakeupfd_ l) (pendingTasks_ l).
End setters.

(** A system call made by code that runs on the loop's state. *)
Definition loop_sys {K T A} (f : K -> A * K) : M (Loop K T) A :=
  zoom kernel set_kernel (sys f).

(** EventLoop::isInLoopThread and its assert: src/EventLoop.cpp. *)
Definition isInLoopThread {K T} (l : Loop K T) : bool := tid_ l =? current_tid l.

Definition assertInLoopThread {K T} : M (Loop K T) unit :=
  b <- gets isInLoopThread;;
  assert_ "EventLoop::assertInLoopThread" b.

Definition assertNotInLoopThread {K T} : M (Loop K T) unit :=
  b <- gets isInLoopThread;;
  assert_ "EventLoop::assertNotInLoopThread" (negb b).

(** States that contain the event loop. *)
Class HasLoop (K T S : Type) : Type := {
  get_loop : S -> Loop K T;
  put_loop : Loop K T -> S -> S
}.

Class HasLoopLaws (K T S : Type) `{HasLoop K T S} : Prop := {
  get_put_loop : forall l (s : S), get_loop (put_loop l s) = l;
  put_put_loop : forall l l' (s : S), put_loop l (put_loop l' s) = put_loop l s;
  put_get_loop : forall (s : S), put_loop (get_loop s) s = s
}.

#[export] Instance loop_has_loop {K T} : HasLoop K T (Loop K T) :=
  {| get_loop l := l; put_loop l _ := l |}.
#[export] Instance loop_has_loop_laws {K T} : HasLoopLaws K T (Loop K T).
Proof. by constructor. Qed.

Definition on_loop {K T S A} `{HasLoop K T S} (m : M (Loop K T) A) : M S A :=
  zoom get_loop put_loop m.

Lemma wp_on_loop {K T S A} `{HasLoop K T S} F (m : M (Loop K T) A) (Q : A -> S -> Prop) s :
  wp F (on_loop m) Q s = wp F m (fun a l => Q a (put_loop l s)) (get_loop s).
Proof. apply wp_zoom. Qed.
#[export] Hint Rewrite @wp_on_loop : wp.

Module Epoll.
Section epoll.
Context {K : Type} `{Posix K} {T Cb : Type}.

(** The state of a call that takes a Channel*: the channel and the loop. *)
Abbreviation CL := (Channel Cb * Loop K T)%type.

Definition chan {A} (m : M (Channel Cb) A) : M CL A := zoom fst (fun c s => (c, s.2)) m.
Definition lp {A} (m : M (Loop K T) A) : M CL A := zoom snd (fun l s => (s.1, l)) m.

(** Epoll::updateChannel(int op, Channel* ) *)
Definition updateChannel_op (op : epoll_op) : M CL unit :=
  c <- gets fst;;
  ep <- lp (gets poller_);;
  r <- lp (loop_sys (sys_epoll_ctl (epollfd_ ep) op (fd_ c) (mkEvent (events_ c) (addr_ c))));;
  match r with
  | SysOk _ => ret tt
  | SysErr e =>
      if (e =? ENOENT) && (bool_decide (op = EPOLL_CTL_MOD) || bool_decide (op = EPOLL_CTL_DEL))
      then ret tt
      else if e =? EBADF then ret tt
      else throw (ExitFailure "Epoll::epoll_ctl")
  end.

(** Epoll::updateChannel(Channel* ) *)
Definition updateChannel : M CL unit :=
  lp assertInLoopThread;;;
  c <- gets fst;;
  if negb (pooling c) then
    assert_ "Epoll::updateChannel" (negb (Channel.isNoneEvents c));;;
    chan (modify (Channel.set_pooling true));;;
    updateChannel_op EPOLL_CTL_ADD
  else if negb (Channel.isNoneEvents c) then
    updateChannel_op EPOLL_CTL_MOD
  else
    chan (modify (Channel.set_pooling false));;;
    updateChannel_op EPOLL_CTL_DEL.

(** Epoll::removeChannel *)
Definition removeChannel : M CL unit :=
  lp assertInLoopThread;;;
  c <- gets fst;;
  when (pooling c)
    (updateChannel_op EPOLL_CTL_DEL;;;
     chan (modify (Channel.set_pooling false))).
End epoll.

(** Epoll::poll.  The channels are reached through their addresses:
    [setRevents] stores the events of one of them.  The timeout is the default
    of the declaration. *)
Section poll.
Context {K : Type} `{Posix K} {T S : Type} `{HasLoop K T S}.
Variable setRevents : Z -> Z -> M S unit.

Definition poll : M S unit :=
  on_loop assertInLoopThread;;;
  ep <- on_loop (gets poller_);;
  let maxEvents := signed 32 (events_size ep) in
  r <- on_loop (loop_sys (sys_epoll_wait (epollfd_ ep) maxEvents (-1)));;
  match r with
  | SysErr e => when (negb (e =? EINTR)) (throw (ExitFailure "Epoll::epoll_wait"))
  | SysOk evs =>
      forM evs (fun ev =>
        setRevents (ev_ptr ev) (ev_events ev);;;
        on_loop (modify (fun l => set_active (activeChannels_ l ++ [ev_ptr ev]) l)));;;
      when (zlen evs =? maxEvents)
        (on_loop (modify (fun l => set_poller (mkEpoll (2 * events_size (poller_ l))
                                                        (epollfd_ (poller_ l))) l)))
  end.
End poll.

(** ** Specifications *)

Section specs.
Context {K : Type} `{Posix K} {T Cb : Type} (F : fault -> Prop).
Abbreviation CL := (Channel Cb * Loop K T)%type.

(** The operation that updateChannel chooses, and the answers it accepts. *)
Definition ctl_op (c : Channel Cb) : epoll_op :=
  if negb (pooling c) then EPOLL_CTL_ADD
  else if negb (Channel.isNoneEvents c) then EPOLL_CTL_MOD else EPOLL_CTL_DEL.

Definition tolerated (op : epoll_op) (r : sysres unit) : Prop :=
  match r with
  | SysOk _ => True
  | SysErr e => (e = ENOENT /\ op <> EPOLL_CTL_ADD) \/ e = EBADF
  end.

Definition ctl (op : epoll_op) (c : Channel Cb) (l : Loop K T) : sysres unit * K :=
  sys_epoll_ctl (epollfd_ (poller_ l)) op (fd_ c) (mkEvent (events_ c) (addr_ c)) (kernel l).

Lemma updateChannel_op_wp op c l (Q : unit -> CL -> Prop) :
  F (ExitFailure "Epoll::epoll_ctl") ->
  (forall r k', ctl op c l = (r, k') -> tolerated op r -> Q tt (c, set_kernel k' l)) ->
  wp F (updateChannel_op op) Q (c, l).
Proof.
  intros HF HQ. unfold updateChannel_op, lp, loop_sys. wp_simpl. simpl.
  fold (ctl op c l). destruct (ctl op c l) as [r k'] eqn:E. simpl.
  specialize (HQ _ _ eq_refl). destruct r as [[]|e]; simpl in *; [by apply HQ|].
  destruct ((e =? ENOENT) && _)%bool eqn:E1.
  { apply HQ. bool_solve. left. split; [done|]. intros ->. done. }
  destruct (e =? EBADF) eqn:E2; [|done]. apply HQ. bool_solve. by right.
Qed.

Lemma assertInLoopThread_wp l (Q : unit -> Loop K T -> Prop) :
  isInLoopThread l = true -> Q tt l -> wp F assertInLoopThread Q l.
Proof. intros Hl HQ. unfold assertInLoopThread. wp_simpl. by rewrite Hl. Qed.

Lemma updateChannel_wp c l (Q : unit -> CL -> Prop) :
  isInLoopThread l = true ->
  (pooling c = false -> Channel.isNoneEvents c = false) ->
  F (ExitFailure "Epoll::epoll_ctl") ->
  (forall r k', ctl (ctl_op c) c l = (r, k') -> tolerated (ctl_op c) r ->
     Q tt (Channel.set_pooling (negb (Channel.isNoneEvents c)) c, set_kernel k' l)) ->
  wp F updateChannel Q (c, l).
Proof.
  intros Hl Hev HF HQ. unfold updateChannel, lp, chan. wp_simpl.
  apply assertInLoopThread_wp; [done|]. wp_simpl. cbn [fst snd].
  unfold ctl_op in HQ. destruct (pooling c) eqn:Ep; cbn [negb] in *.
  - destruct (Channel.isNoneEvents c) eqn:Ee; cbn [negb] in *; wp_simpl.
    + apply updateChannel_op_wp; [done|]. intros r k' Hr Ht. by apply (HQ r).
    + apply updateChannel_op_wp; [done|]. intros r k' Hr Ht.
      replace c with (Channel.set_pooling true c) at 1; [by apply (HQ r)|].
      destruct c; simpl in *; by subst.
  - rewrite Hev in HQ by done. wp_simpl. rewrite Hev by done.
    apply updateChannel_op_wp; [done|]. intros r k' Hr Ht. by apply (HQ r).
Qed.

Lemma removeChannel_wp c l (Q : unit -> CL -> Prop) :
  isInLoopThread l = true ->
  F (ExitFailure "Epoll::epoll_ctl") ->
  (pooling c = false -> Q tt (c, l)) ->
  (pooling c = true -> forall r k', ctl EPOLL_CTL_DEL c l = (r, k') ->
     tolerated EPOLL_CTL_DEL r -> Q tt (Channel.set_pooling false c, set_kernel k' l)) ->
  wp F removeChannel Q (c, l).
Proof.
  intros Hl HF HQ0 HQ1. unfold removeChannel, lp, chan. wp_simpl.
  apply assertInLoopThread_wp; [done|]. wp_simpl. cbn [fst snd].
  destruct (pooling c); [|by apply HQ0]. wp_simpl.
  apply updateChannel_op_wp; [done|]. intros r k' Hr Ht. wp_simpl. by apply (HQ1 eq_refl r).
Qed.
End specs.

End Epoll.

(** ** What the kernel's interest list promises (epoll_ctl(2)) *)

Class EpollLaws (K : Type) `{Posix K} : Type := {
  (* the entry of a descriptor in an epoll instance, and open descriptors *)
  registered : K -> Z -> Z -> option epoll_event;
  fd_open : K -> Z -> Prop;
  ctl_ok : forall ep op fd ev k u k',
    sys_epoll_ctl ep op fd ev k = (SysOk u, k') ->
    registered k' ep fd = (if decide (op = EPOLL_CTL_DEL) then None else Some ev);
  ctl_err : forall ep op fd ev k e k',
    sys_epoll_ctl ep op fd ev k = (SysErr e, k') ->
    registered k' ep fd = registered k ep fd
    /\ (e = ENOENT -> registered k ep fd = None)
    /\ (e = EBADF -> ~ fd_open k fd);
  ctl_frame : forall ep op fd ev k r k' ep' fd',
    sys_epoll_ctl ep op fd ev k = (r, k') -> fd' <> fd ->
    registered k' ep' fd' = registered k ep' fd';
  ctl_open : forall ep op fd ev k r k' fd',
    sys_epoll_ctl ep op fd ev k = (r, k') -> fd_open k' fd' <-> fd_open k fd'
}.

#[export] Instance SimEpollLaws : EpollLaws SimK.
Proof.
  refine {| registered k _ fd := sk_epoll k !! fd; fd_open _ _ := True |}; simpl.
  - intros _ op fd ev k u k'. unfold sim_epoll_ctl.
    destruct op, (sk_epoll k !! fd); intros [=]; subst; simpl;
      by rewrite ?lookup_insert_eq, ?lookup_delete_eq.
  - intros _ op fd ev k e k'. unfold sim_epoll_ctl.
    destruct op, (sk_epoll k !! fd) eqn:E; intros [=]; subst; rewrite ?E; split_and!; done.
  - intros _ op fd ev k r k' _ fd' He Hne. unfold sim_epoll_ctl in He.
    destruct op, (sk_epoll k !! fd); injection He as <- <-; simpl;
      by rewrite ?lookup_insert_ne, ?lookup_delete_ne by done.
  - done.
Defined.
