(* ===== verification/EventLoop.v ===== *)
(** * EventLoop: the reactor (include/knetlib/EventLoop.h, src/EventLoop.cpp)
    and the channel methods that go through it (src/Channel.cpp)

    The operations are written for one thread at a time: [current_tid] says
    which thread runs.  Their interleaving between threads is in
    LoopProtocol.v.  Tasks are values of a type [T] that [run_task] executes;
    callbacks are values of [Cb] that [run_callback] executes. *)

From S2P Require Import Prelude Posix Channel Epoll.

Module EventLoop.
Section operations.
Context {K : Type} `{Posix K} {T : Type}.

(** The eventfd counter increment: a uint64_t 1 in memory (little endian). *)
Definition one_bytes : list byte := [x01; x00; x00; x00; x00; x00; x00; x00].

(** EventLoop::wakeup.  A failed or short write is only logged. *)
Definition wakeup : M (Loop K T) unit :=
  fd <- gets wakeupfd_;;
  r <- loop_sys (sys_write fd one_bytes);;
  match r with
  | SysErr e => e' <- loop_sys (errno_after_log e);; ret tt
  | SysOk _ => ret tt
  end.

(** EventLoop::handleRead, the callback of the wakeup channel. *)
Definition handleRead : M (Loop K T) unit :=
  fd <- gets wakeupfd_;;
  r <- loop_sys (sys_read fd 8);;
  match r with
  | SysErr e => e' <- loop_sys (errno_after_log e);; ret tt
  | SysOk _ => ret tt
  end.

(** EventLoop::quit. *)
Definition quit : M (Loop K T) unit :=
  modify (set_quit true);;;
  b <- gets isInLoopThread;;
  when (negb b) wakeup.

(** EventLoop::queueInLoop (both overloads). *)
Definition queueInLoop (task : T) : M (Loop K T) unit :=
  modify (fun l => set_pending (pendingTasks_ l ++ [task]) l);;;
  b <- gets isInLoopThread;;
  d <- gets doingPendingTasks_;;
  when (negb b || d) wakeup.
End operations.

Section running.
Context {K : Type} `{Posix K} {T S : Type} `{HasLoop K T S}.
Variable run_task : T -> M S unit.

(** EventLoop::runInLoop (both overloads). *)
Definition runInLoop (task : T) : M S unit :=
  b <- on_loop (gets isInLoopThread);;
  if (b : bool) then run_task task else on_loop (queueInLoop task).

(** EventLoop::doPendingTasks: the queue is taken out in one step, so tasks
    queued while it runs wait for the next round. *)
Definition doPendingTasks : M S unit :=
  on_loop assertInLoopThread;;;
  tasks <- on_loop (gets pendingTasks_);;
  on_loop (modify (set_pending []));;;
  on_loop (modify (set_doing true));;;
  forM tasks run_task;;;
  on_loop (modify (set_doing false)).

Variable setRevents : Z -> Z -> M S unit.
Variable handleEvents : Z -> M S unit.

(** The body of the loop: wait, dispatch the active channels, run the tasks. *)
Definition iteration : M S unit :=
  on_loop (modify (set_active []));;;
  Epoll.poll setRevents;;;
  act <- on_loop (gets activeChannels_);;
  forM act handleEvents;;;
  doPendingTasks.

(** while (!quit_): [fuel] bounds the number of iterations. *)
Fixpoint iterate (fuel : nat) : M S unit :=
  q <- on_loop (gets quit_);;
  if (q : bool) then ret tt
  else match fuel with
       | O => throw OutOfFuel
       | Datatypes.S n => iteration;;; iterate n
       end.

(** EventLoop::loop. *)
Definition loop (fuel : nat) : M S unit :=
  on_loop assertInLoopThread;;;
  on_loop (modify (set_quit false));;;
  iterate fuel.
End running.
End EventLoop.

(** ** The channel methods that go through the loop (src/Channel.cpp) *)

Module ChannelOps.
Section ops.
Context {K : Type} `{Posix K} {T Cb : Type}.
Abbreviation CL := (Channel Cb * Loop K T)%type.

(** Channel::update and Channel::remove, through EventLoop::updateChannel and
    EventLoop::removeChannel, which assert the thread once more. *)
Definition loop_updateChannel : M CL unit :=
  Epoll.lp assertInLoopThread;;; Epoll.updateChannel.
Definition loop_removeChannel : M CL unit :=
  Epoll.lp assertInLoopThread;;; Epoll.removeChannel.

Definition update : M CL unit := loop_updateChannel.
Definition remove : M CL unit :=
  c <- gets fst;;
  assert_ "Channel::remove" (pooling c);;;
  loop_removeChannel.

Definition change_mask (f : Z -> Z) : M CL unit :=
  Epoll.chan (modify (fun c => Channel.set_events (f (events_ c)) c));;;
  update.

Definition enableRead : M CL unit := change_mask Channel.mask_enableRead.
Definition enableWrite : M CL unit := change_mask Channel.mask_enableWrite.
Definition disableRead : M CL unit := change_mask Channel.mask_disableRead.
Definition disableWrite : M CL unit := change_mask Channel.mask_disableWrite.
Definition disableAll : M CL unit := change_mask (fun _ => 0).
End ops.

(** Dispatch.  The state [S] contains the channel; the members are read again
    at each step, as the callbacks may change them. *)
Section dispatch.
Context {K : Type} {T Cb S : Type} `{HasLoop K T S}.
Variable get_chan : S -> Channel Cb.
Variable put_chan : Channel Cb -> S -> S.
Variable run_callback : Cb -> M S unit.
(** whether the object a weak_ptr refers to is still alive *)
Variable alive : S -> Z -> bool.

Definition call_if (cond : Z -> bool) (cb : Channel Cb -> option Cb) : M S unit :=
  c <- gets get_chan;;
  when (cond (revents_ c))
    (match cb c with
     | Some f => run_callback f
     | None => ret tt
     end).

(** Channel::handleEventWithGuard. *)
Definition handleEventWithGuard : M S unit :=
  modify (fun s => put_chan (Channel.set_handling true (get_chan s)) s);;;
  call_if Channel.wants_close closeCallback_;;;
  call_if Channel.wants_error errorCallback_;;;
  call_if Channel.wants_read readCallback_;;;
  call_if Channel.wants_write writeCallback_;;;
  modify (fun s => put_chan (Channel.set_handling false (get_chan s)) s).

(** Channel::handleEvents. *)
Definition handleEvents : M S unit :=
  on_loop assertInLoopThread;;;
  c <- gets get_chan;;
  if tied_ c then
    ok <- gets (fun s => match tie_ c with Some o => alive s o | None => false end);;
    when ok handleEventWithGuard
  else handleEventWithGuard.
End dispatch.
End ChannelOps.

(** ** Specifications of the channel methods *)

Module ChannelSpecs.
Import ChannelOps.
Section specs.
Context {K : Type} `{Posix K} {T Cb : Type} (F : fault -> Prop).
Abbreviation CL := (Channel Cb * Loop K T)%type.

Lemma update_wp c l (Q : unit -> CL -> Prop) :
  isInLoopThread l = true ->
  (pooling c = false -> Channel.isNoneEvents c = false) ->
  F (ExitFailure "Epoll::epoll_ctl") ->
  (forall r k', Epoll.ctl (Epoll.ctl_op c) c l = (r, k') -> Epoll.tolerated (Epoll.ctl_op c) r ->
     Q tt (Channel.set_pooling (negb (Channel.isNoneEvents c)) c, set_kernel k' l)) ->
  wp F update Q (c, l).
Proof.
  intros Hl Hev HF HQ. unfold update, loop_updateChannel, Epoll.lp. wp_simpl.
  apply Epoll.assertInLoopThread_wp; [done|]. simpl. by apply Epoll.updateChannel_wp.
Qed.

(** Changing the mask to [f events_], when the channel is registered or the
    new mask is not empty. *)
Lemma change_mask_wp f c l (Q : unit -> CL -> Prop) :
  let c1 := Channel.set_events (f (events_ c)) c in
  isInLoopThread l = true ->
  (pooling c = false -> (f (events_ c) =? 0) = false) ->
  F (ExitFailure "Epoll::epoll_ctl") ->
  (forall r k', Epoll.ctl (Epoll.ctl_op c1) c1 l = (r, k') ->
     Epoll.tolerated (Epoll.ctl_op c1) r ->
     Q tt (Channel.set_pooling (negb (f (events_ c) =? 0)) c1, set_kernel k' l)) ->
  wp F (change_mask f) Q (c, l).
Proof.
  intros c1 Hl Hev HF HQ. unfold change_mask, Epoll.chan. wp_simpl. cbn [fst snd].
  by apply update_wp.
Qed.

Lemma loop_removeChannel_wp c l (Q : unit -> CL -> Prop) :
  isInLoopThread l = true ->
  F (ExitFailure "Epoll::epoll_ctl") ->
  (pooling c = false -> Q tt (c, l)) ->
  (pooling c = true -> forall r k', Epoll.ctl EPOLL_CTL_DEL c l = (r, k') ->
     Epoll.tolerated EPOLL_CTL_DEL r -> Q tt (Channel.set_pooling false c, set_kernel k' l)) ->
  wp F loop_removeChannel Q (c, l).
Proof.
  intros Hl HF HQ0 HQ1. unfold loop_removeChannel, Epoll.lp. wp_simpl.
  apply Epoll.assertInLoopThread_wp; [done|]. simpl. by apply Epoll.removeChannel_wp.
Qed.

(** Removing a channel that is not registered does nothing. *)
Lemma loop_removeChannel_idle c l (Q : unit -> CL -> Prop) :
  isInLoopThread l = true -> pooling c = false -> Q tt (c, l) -> wp F loop_removeChannel Q (c, l).
Proof.
  intros Hl Hp HQ. unfold loop_removeChannel, Epoll.lp, Epoll.removeChannel. wp_simpl.
  apply Epoll.assertInLoopThread_wp; [done|]. simpl. unfold Epoll.lp. wp_simpl.
  apply Epoll.assertInLoopThread_wp; [done|]. wp_simpl. simpl. rewrite Hp. by wp_simpl.
Qed.
End specs.

(** *** The interest list follows the channel *)

(** The calls of the public interface that change what is registered. *)
Inductive call : Type :=
| CallEnableRead | CallEnableWrite | CallDisableRead | CallDisableWrite
| CallDisableAll | CallRemove.

Definition mask_of (a : call) (m : Z) : Z :=
  match a with
  | CallEnableRead => Channel.mask_enableRead m
  | CallEnableWrite => Channel.mask_enableWrite m
  | CallDisableRead => Channel.mask_disableRead m
  | CallDisableWrite => Channel.mask_disableWrite m
  | CallDisableAll => 0
  | CallRemove => m
  end.

Definition run_call {K} `{Posix K} {T Cb} (a : call) : M (Channel Cb * Loop K T) unit :=
  match a with
  | CallEnableRead => enableRead
  | CallEnableWrite => enableWrite
  | CallDisableRead => disableRead
  | CallDisableWrite => disableWrite
  | CallDisableAll => disableAll
  | CallRemove => remove
  end.

(** The reference: a mask and whether it is registered.  [None]: the assert of
    updateChannel or remove fails. *)
Definition ref_call (a : call) (s : Z * bool) : option (Z * bool) :=
  let '(m, reg) := s in
  let m' := mask_of a m in
  match a with
  | CallRemove => if reg then Some (m, false) else None
  | _ => if reg || negb (m' =? 0) then Some (m', negb (m' =? 0)) else None
  end.

Fixpoint ref_calls (l : list call) (s : Z * bool) : option (Z * bool) :=
  match l with
  | [] => Some s
  | a :: l' => match ref_call a s with Some s' => ref_calls l' s' | None => None end
  end.

(** The kernel's entry for the channel's descriptor is what the channel
    says: its mask and address when [pooling], nothing otherwise. *)
Definition synced {K} `{Posix K} `{!EpollLaws K} {T Cb} (s : Channel Cb * Loop K T) : Prop :=
  registered (kernel s.2) (epollfd_ (poller_ s.2)) (fd_ s.1)
  = if pooling s.1 then Some (mkEvent (events_ s.1) (addr_ s.1)) else None.

(** epoll_ctl may still fail for want of memory: perror and exit. *)
Definition ctl_fault (f : fault) : Prop := f = ExitFailure "Epoll::epoll_ctl".

Section sync.
Context {K : Type} `{Posix K} `{!EpollLaws K} {T Cb : Type}.
Abbreviation CL := (Channel Cb * Loop K T)%type.

(** The properties of a state that the calls keep. *)
Definition ready (s : CL) : Prop :=
  isInLoopThread s.2 = true /\ fd_open (kernel s.2) (fd_ s.1) /\ synced s.

Lemma ctl_synced op (c : Channel Cb) (l : Loop K T) r k' :
  fd_open (kernel l) (fd_ c) ->
  registered (kernel l) (epollfd_ (poller_ l)) (fd_ c) = None <-> op = EPOLL_CTL_ADD ->
  Epoll.ctl op c l = (r, k') -> Epoll.tolerated op r ->
  registered k' (epollfd_ (poller_ l)) (fd_ c)
  = (if decide (op = EPOLL_CTL_DEL) then None else Some (mkEvent (events_ c) (addr_ c)))
  /\ fd_open k' (fd_ c).
Proof.
  intros Hopen Hreg Hctl Ht. unfold Epoll.ctl in Hctl.
  split; [|by apply (ctl_open _ _ _ _ _ _ _ (fd_ c) Hctl)].
  destruct r as [u|e]; [by apply (ctl_ok _ _ _ _ _ _ _ Hctl)|].
  apply ctl_err in Hctl as (Hsame & Hnoent & Hbadf).
  destruct Ht as [[He Hop]|He]; [|by destruct (Hbadf He)].
  exfalso. by apply Hop, Hreg, Hnoent.
Qed.

Lemma change_mask_synced f (s : CL) :
  ready s -> (pooling s.1 || negb (f (events_ s.1) =? 0)) = true ->
  wp ctl_fault (change_mask f)
    (fun _ s' => ready s' /\ events_ s'.1 = f (events_ s.1)
       /\ pooling s'.1 = negb (f (events_ s.1) =? 0)) s.
Proof.
  destruct s as [c l]. intros (Hl & Hopen & Hsync) Hok. unfold synced in Hsync; simpl in *.
  apply change_mask_wp; [done| |done|].
  { intros Hp. rewrite Hp in Hok. by apply negb_true_iff in Hok. }
  intros r k' Hctl Ht. unfold ready, synced. simpl.
  apply ctl_synced in Hctl as [Hreg Hopen']; simpl in *; [|done| |done].
  - split_and!; try done. rewrite Hreg. unfold Epoll.ctl_op, Channel.isNoneEvents; simpl.
    destruct (pooling c), (f (events_ c) =? 0); simpl in *; by try case_decide.
  - rewrite Hsync. unfold Epoll.ctl_op; simpl.
    destruct (pooling c), (Channel.isNoneEvents _); simpl; split; congruence.
Qed.

Lemma remove_synced (s : CL) :
  ready s -> pooling s.1 = true ->
  wp ctl_fault remove
    (fun _ s' => ready s' /\ events_ s'.1 = events_ s.1 /\ pooling s'.1 = false) s.
Proof.
  destruct s as [c l]. intros (Hl & Hopen & Hsync) Hp. unfold synced in Hsync; simpl in *.
  unfold remove. wp_simpl. simpl. rewrite Hp in *.
  apply loop_removeChannel_wp; [done|done|congruence|].
  intros _ r k' Hctl Ht. unfold ready, synced. simpl.
  apply ctl_synced in Hctl as [Hreg Hopen']; [|done|rewrite Hsync; done|done].
  by rewrite Hreg.
Qed.

Lemma run_call_ref a (s : CL) m reg :
  ready s -> ref_call a (events_ s.1, pooling s.1) = Some (m, reg) ->
  wp ctl_fault (run_call a)
    (fun _ s' => ready s' /\ events_ s'.1 = m /\ pooling s'.1 = reg) s.
Proof.
  intros Hs. destruct a; simpl.
  6: { destruct (pooling s.1) eqn:Hp; [|done]. intros [= <- <-]. by apply remove_synced. }
  all: match goal with |- (if ?b then _ else _) = _ -> _ => destruct b eqn:E end; [|done].
  all: intros [= <- <-].
  - by apply (change_mask_synced Channel.mask_enableRead).
  - by apply (change_mask_synced Channel.mask_enableWrite).
  - by apply (change_mask_synced Channel.mask_disableRead).
  - by apply (change_mask_synced Channel.mask_disableWrite).
  - by apply (change_mask_synced (fun _ => 0)).
Qed.

Lemma run_calls_ref calls (s : CL) m reg :
  ready s -> ref_calls calls (events_ s.1, pooling s.1) = Some (m, reg) ->
  wp ctl_fault (forM calls run_call)
    (fun _ s' => ready s' /\ events_ s'.1 = m /\ pooling s'.1 = reg) s.
Proof.
  revert s. induction calls as [|a calls IH]; intros s Hs; cbn [ref_calls forM].
  - by intros [= <- <-].
  - destruct (ref_call a (events_ s.1, pooling s.1)) as [[m1 r1]|] eqn:E; [|done]. intros Hrest. wp_simpl.
    wp_call run_call_ref; [done..|]. intros _ s1 (Hs1 & Hm1 & Hr1).
    apply IH; [done|]. by rewrite Hm1, Hr1.
Qed.
End sync.

(** ** Properties *)

(** C26: through any sequence of channel calls that the reference state machine
    accepts, the kernel's interest list holds exactly the channel's mask and
    address while the channel is [pooling], and nothing otherwise; no assert of
    the poller fails. *)
Theorem channel_registration_synced {K} `{Posix K} `{!EpollLaws K} {T Cb} calls
  (s : Channel Cb * Loop K T) m reg :
  isInLoopThread s.2 = true -> fd_open (kernel s.2) (fd_ s.1) -> synced s ->
  ref_calls calls (events_ s.1, pooling s.1) = Some (m, reg) ->
  wp ctl_fault (forM calls run_call)
    (fun _ s' => synced s' /\ events_ s'.1 = m /\ pooling s'.1 = reg) s.
Proof.
  intros Hl Ho Hs Hr. wp_call run_calls_ref; [by split_and!|exact Hr|].
  by intros _ s' ((_ & _ & ?) & ? & ?).
Qed.

Definition loop0 : Loop SimK unit := mkLoop sim_init 1 1 false false (mkEpoll 128 3) [] 4 [].
Definition chan0 : Channel unit := Channel.new 7 10.

Lemma channel_registration_synced_witness :
  wp ctl_fault (forM [CallEnableRead; CallEnableWrite; CallDisableRead; CallDisableWrite;
                      CallRemove; CallEnableWrite] run_call)
    (fun _ s' => synced s' /\ events_ s'.1 = Z.lor EPOLLPRI EPOLLOUT /\ pooling s'.1 = true)
    (chan0, loop0).
Proof. by apply (channel_registration_synced _ (chan0, loop0)). Defined.

(** DisableRead does not undo enableRead: EPOLLPRI stays in the mask, so
    the channel that says it is not reading is still registered, and an urgent
    event still calls the read callback. *)
Theorem disableRead_keeps_PRI {K} `{Posix K} `{!EpollLaws K} {T Cb}
  (s : Channel Cb * Loop K T) :
  isInLoopThread s.2 = true -> fd_open (kernel s.2) (fd_ s.1) -> synced s -> events_ s.1 = 0 ->
  wp ctl_fault (enableRead;;; disableRead)
    (fun _ s' => Channel.isReading s'.1 = false /\ pooling s'.1 = true
       /\ registered (kernel s'.2) (epollfd_ (poller_ s'.2)) (fd_ s'.1)
          = Some (mkEvent EPOLLPRI (addr_ s'.1))
       /\ Channel.wants_read EPOLLPRI = true) s.
Proof.
  intros Hl Ho Hs He. rewrite wp_bind. wp_call (run_call_ref CallEnableRead s 3 true).
  { by split_and!. }
  { rewrite He. simpl. by rewrite orb_true_r. }
  intros _ s1 (Hs1 & Hm1 & Hp1). wp_call (run_call_ref CallDisableRead s1 2 true); [done| |].
  { by rewrite Hm1, Hp1. }
  intros _ s' ((_ & _ & Hs') & Hm & Hp). unfold synced in Hs'.
  unfold Channel.isReading. by rewrite Hs', Hp, Hm.
Qed.

Lemma disableRead_keeps_PRI_witness :
  wp ctl_fault (enableRead;;; disableRead)
    (fun _ s' => Channel.isReading s'.1 = false /\ pooling s'.1 = true
       /\ registered (kernel s'.2) (epollfd_ (poller_ s'.2)) (fd_ s'.1)
          = Some (mkEvent EPOLLPRI (addr_ s'.1))
       /\ Channel.wants_read EPOLLPRI = true) (chan0, loop0).
Proof. by apply (disableRead_keeps_PRI (chan0, loop0)). Defined.
End ChannelSpecs.

(** ** Dispatch *)

Module DispatchSpecs.
Import ChannelOps.
Section dispatch.
Context {K : Type} {T Cb S : Type} `{HasLoop K T S}.
Context (get_chan : S -> Channel Cb) (put_chan : Channel Cb -> S -> S).
Context (run_callback : Cb -> M S unit).

(** The conditions and callbacks of handleEventWithGuard, in order. *)
Definition dispatch_table : list ((Z -> bool) * (Channel Cb -> option Cb)) :=
  [ (Channel.wants_close, closeCallback_); (Channel.wants_error, errorCallback_);
    (Channel.wants_read, readCallback_); (Channel.wants_write, writeCallback_) ].

(** The callbacks that the events of [c] select, in order. *)
Definition selected (c : Channel Cb) (p : (Z -> bool) * (Channel Cb -> option Cb)) : option Cb :=
  if p.1 (revents_ c) then p.2 c else None.
Definition dispatch_order (c : Channel Cb) : list Cb := omap (selected c) dispatch_table.

(** Two values of a channel that dispatch alike. *)
Definition same_dispatch (c c' : Channel Cb) : Prop :=
  revents_ c' = revents_ c /\ closeCallback_ c' = closeCallback_ c
  /\ errorCallback_ c' = errorCallback_ c /\ readCallback_ c' = readCallback_ c
  /\ writeCallback_ c' = writeCallback_ c /\ tied_ c' = tied_ c /\ tie_ c' = tie_ c.

#[export] Instance same_dispatch_equiv : Equivalence same_dispatch.
Proof.
  split.
  - by intros c.
  - by intros c c' (? & ? & ? & ? & ? & ? & ?).
  - intros c1 c2 c3 (? & ? & ? & ? & ? & ? & ?) (? & ? & ? & ? & ? & ? & ?).
    repeat split; congruence.
Qed.

#[export] Instance dispatch_order_proper : Proper (same_dispatch ==> eq) dispatch_order.
Proof.
  intros c c' (H0 & H1 & H2 & H3 & H4 & _). unfold dispatch_order, selected, dispatch_table. simpl.
  by rewrite H0, H1, H2, H3, H4.
Qed.

Hypothesis get_put_chan : forall c s, get_chan (put_chan c s) = c.
Hypothesis callbacks_keep : forall cb s u s',
  run_callback cb s = Ok (u, s') -> same_dispatch (get_chan s) (get_chan s').

Lemma call_if_table (l : list ((Z -> bool) * (Channel Cb -> option Cb))) c0 s :
  l ⊆ dispatch_table -> same_dispatch c0 (get_chan s) ->
  forM l (fun p => call_if get_chan run_callback p.1 p.2) s
  = forM (omap (selected c0) l) run_callback s.
Proof.
  revert s. induction l as [|p l IH]; intros s Hl Hs; [done|].
  assert (selected (get_chan s) p = selected c0 p) as Hp.
  { assert (p ∈ dispatch_table) as Hin by set_solver. unfold selected, dispatch_table in *.
    destruct Hs as (-> & H1 & H2 & H3 & H4 & _).
    repeat (apply elem_of_cons in Hin as [->|Hin]; simpl; [by rewrite ?H1, ?H2, ?H3, ?H4|]).
    set_solver. }
  simpl. rewrite <- Hp. unfold selected, call_if, bind at 1, gets, when.
  assert (forall s', same_dispatch c0 (get_chan s') ->
    forM l (fun p => call_if get_chan run_callback p.1 p.2) s'
    = forM (omap (selected c0) l) run_callback s') as IH' by (intros; apply IH; set_solver).
  unfold bind at 1. destruct (p.1 (revents_ (get_chan s))); simpl; [|by apply IH'].
  destruct (p.2 (get_chan s)) as [f|]; simpl; [|by apply IH']. unfold bind.
  destruct (run_callback f s) as [[[] s']|e] eqn:E; [|done].
  apply IH'. etrans; [done|]. by apply (callbacks_keep f s ()).
Qed.

Lemma guard_body (k : M S unit) s :
  (call_if get_chan run_callback Channel.wants_close closeCallback_;;;
   call_if get_chan run_callback Channel.wants_error errorCallback_;;;
   call_if get_chan run_callback Channel.wants_read readCallback_;;;
   call_if get_chan run_callback Channel.wants_write writeCallback_;;; k) s
  = bind (forM dispatch_table (fun p => call_if get_chan run_callback p.1 p.2)) (fun _ => k) s.
Proof.
  unfold dispatch_table, forM, bind, ret. simpl.
  repeat match goal with
  | |- context [match call_if ?g ?r ?c ?f ?s with _ => _ end] =>
      destruct (call_if g r c f s) as [[[] ?]|?]; simpl; [|done]
  end. done.
Qed.

Lemma handleEventWithGuard_order s :
  handleEventWithGuard get_chan put_chan run_callback s
  = (modify (fun s => put_chan (Channel.set_handling true (get_chan s)) s);;;
     forM (dispatch_order (get_chan s)) run_callback;;;
     modify (fun s => put_chan (Channel.set_handling false (get_chan s)) s)) s.
Proof.
  unfold handleEventWithGuard. unfold bind at 1 6, modify at 1 3.
  rewrite guard_body. unfold bind.
  rewrite (call_if_table dispatch_table (get_chan s)); [done|done|].
  by rewrite get_put_chan.
Qed.
End dispatch.

(** HandleEvents runs the callbacks selected by the returned events in the
    order close (hang-up without input), error, read (input, urgent or peer
    hang-up), write, each once and only if set, between raising and lowering
    the flag; and it runs none when the channel is tied to an object that is
    gone. *)
Theorem dispatch_in_order {K T Cb S} `{!HasLoop K T S, !HasLoopLaws K T S}
  (get_chan : S -> Channel Cb) (put_chan : Channel Cb -> S -> S)
  (run_callback : Cb -> M S unit) (alive : S -> Z -> bool) s
  (get_put : forall c s, get_chan (put_chan c s) = c)
  (keep : forall cb s u s', run_callback cb s = Ok (u, s') ->
     same_dispatch (get_chan s) (get_chan s')) :
  isInLoopThread (get_loop s) = true ->
  handleEvents get_chan put_chan run_callback alive s
  = if tied_ (get_chan s)
       && negb (match tie_ (get_chan s) with Some o => alive s o | None => false end)
    then Ok (tt, s)
    else (modify (fun s => put_chan (Channel.set_handling true (get_chan s)) s);;;
          forM (dispatch_order (get_chan s)) run_callback;;;
          modify (fun s => put_chan (Channel.set_handling false (get_chan s)) s)) s.
Proof.
  intros Hl. rewrite <- handleEventWithGuard_order by done.
  unfold handleEvents, on_loop, zoom, assertInLoopThread, assert_, ensure, bind at 1 2 3, gets at 1.
  rewrite Hl. simpl. rewrite put_get_loop. unfold bind, gets, when. simpl.
  destruct (tied_ (get_chan s)); [|done]. simpl.
  destruct (match tie_ _ with Some o => alive s o | None => false end); done.
Qed.

(** A state for executions: the loop, one channel and the callbacks run. *)
Record demo : Type := mkDemo { d_loop : Loop SimK unit; d_chan : Channel nat; d_log : list nat }.
#[export] Instance demo_has_loop : HasLoop SimK unit demo :=
  {| get_loop := d_loop; put_loop l d := mkDemo l (d_chan d) (d_log d) |}.
#[export] Instance demo_has_loop_laws : HasLoopLaws SimK unit demo.
Proof. constructor; [done..|by intros []]. Qed.

Definition demo_put (c : Channel nat) (d : demo) : demo := mkDemo (d_loop d) c (d_log d).
Definition demo_run (cb : nat) : M demo unit :=
  modify (fun d => mkDemo (d_loop d) (d_chan d) (d_log d ++ [cb])).

Definition demo_chan (r : Z) : Channel nat :=
  mkChannel true 7 10 (Some 1) true 7 r false (Some 3%nat) (Some 4%nat) (Some 1%nat) (Some 2%nat).

Lemma dispatch_in_order_witness :
  let d := mkDemo ChannelSpecs.loop0 (demo_chan (Z.lor EPOLLHUP (Z.lor EPOLLERR EPOLLOUT))) [] in
  d_log <$> (match handleEvents d_chan demo_put demo_run (fun _ _ => true) d with
             | Ok (_, d') => Some d' | Err _ => None end) = Some [1; 2; 4]%nat.
Proof.
  intros d. unfold d.
  rewrite (dispatch_in_order d_chan demo_put demo_run (fun _ _ => true)); [reflexivity|done| |done].
  intros cb s u s' [= <- <-]. by split_and!.
Defined.
End DispatchSpecs.
