(* ===== verification/Reactor.v ===== *)
(** * Reactor: one turn of the event loop over its channels
    (src/EventLoop.cpp, src/Epoll.cpp, src/Channel.cpp)

    The loop, the channels by address, and a trace of the callbacks and tasks
    that run; they are opaque and leave the loop alone.  [alive] says which
    objects channels are tied to still exist. *)

From S2P Require Import Prelude Posix Channel Epoll EventLoop.

Module Reactor.
Section reactor.
Context {K : Type} `{Posix K} {T Cb : Type} (alive : Z -> bool).

Record reactor : Type := mkReactor {
  rloop : Loop K T;
  chans : gmap Z (Channel Cb);
  trace : list (Cb + T)
}.
Implicit Types s : reactor.

#[export] Instance reactor_has_loop : HasLoop K T reactor :=
  {| get_loop := rloop; put_loop l s := mkReactor l (chans s) (trace s) |}.

(** activeChannels[i]->setRevents(events): the channel must exist. *)
Definition setRevents (a r : Z) : M reactor unit :=
  m <- gets chans;;
  match m !! a with
  | None => throw (UseAfterFree "Epoll::poll")
  | Some c => modify (fun s => mkReactor (rloop s) (<[a := Channel.setRevents r c]> m) (trace s))
  end.

Definition emit (e : Cb + T) : M reactor unit :=
  modify (fun s => mkReactor (rloop s) (chans s) (trace s ++ [e])).
Definition run_task (t : T) : M reactor unit := emit (inr t).

(** channel->handleEvents() *)
Definition get_chan (a : Z) s : Channel Cb := default (Channel.new 0 0) (chans s !! a).
Definition put_chan (a : Z) (c : Channel Cb) s : reactor :=
  mkReactor (rloop s) (<[a := c]> (chans s)) (trace s).
Definition handleEvents (a : Z) : M reactor unit :=
  m <- gets chans;;
  match m !! a with
  | None => throw (UseAfterFree "Channel::handleEvents")
  | Some _ =>
      ChannelOps.handleEvents (get_chan a) (put_chan a) (fun cb => emit (inl cb))
        (fun _ o => alive o)
  end.

(** The body of EventLoop::loop. *)
Definition turn : M reactor unit := EventLoop.iteration run_task setRevents handleEvents.

(** ** Specification *)

(** What the callbacks of a channel are for an event. *)
Definition callbacks (m : gmap Z (Channel Cb)) (ev : epoll_event) : list Cb :=
  match m !! ev_ptr ev with
  | None => []
  | Some c =>
      if tied_ c && negb (match tie_ c with Some o => alive o | None => false end) then []
      else DispatchSpecs.dispatch_order (Channel.setRevents (ev_events ev) c)
  end.

Definition in_loop s : bool := isInLoopThread (rloop s).

(** Storing the events. *)
Definition reported (evs : list epoll_event) (m : gmap Z (Channel Cb)) : gmap Z (Channel Cb) :=
  foldl (fun m ev => alter (Channel.setRevents (ev_events ev)) (ev_ptr ev) m) m evs.

Lemma reported_other evs m a : a ∉ map ev_ptr evs -> reported evs m !! a = m !! a.
Proof.
  revert m. induction evs as [|ev evs IH]; intros m Ha; simpl in *; [done|].
  rewrite IH by set_solver. apply lookup_alter_ne. set_solver.
Qed.

Lemma reported_lookup evs m ev :
  NoDup (map ev_ptr evs) -> ev ∈ evs ->
  reported evs m !! ev_ptr ev = Channel.setRevents (ev_events ev) <$> m !! ev_ptr ev.
Proof.
  revert m. induction evs as [|ev' evs IH]; intros m Hn Hev; [by apply elem_of_nil in Hev|].
  apply NoDup_cons in Hn as [Hni Hn]. simpl.
  apply elem_of_cons in Hev as [->|Hev].
  - rewrite reported_other by done. apply lookup_alter_eq.
  - rewrite IH by done. f_equal. apply lookup_alter_ne.
    intros Heq. apply Hni. rewrite Heq. by apply (list_elem_of_fmap_2 ev_ptr).
Qed.

Lemma store_wp F evs (Q : unit -> reactor -> Prop) s :
  Forall (fun ev => is_Some (chans s !! ev_ptr ev)) evs ->
  Q tt (mkReactor (set_active (activeChannels_ (rloop s) ++ map ev_ptr evs) (rloop s))
          (reported evs (chans s)) (trace s)) ->
  wp F (forM evs (fun ev =>
          setRevents (ev_ptr ev) (ev_events ev);;;
          on_loop (modify (fun l => set_active (activeChannels_ l ++ [ev_ptr ev]) l)))) Q s.
Proof.
  revert s. induction evs as [|ev evs IH]; intros s Hm HQ; simpl.
  { wp_simpl. rewrite app_nil_r in HQ. by destruct s as [[] ? ?]. }
  apply Forall_cons in Hm as [[c Hc] Hm]. wp_simpl. unfold setRevents. wp_simpl. rewrite Hc.
  wp_simpl. apply IH; simpl.
  - eapply Forall_impl; [exact Hm|]. simpl. intros ev' Hs. by rewrite lookup_insert_is_Some'; right.
  - rewrite <- app_assoc. simpl. simpl in HQ.
    replace (<[ev_ptr ev:=Channel.setRevents (ev_events ev) c]> (chans s))
      with (alter (Channel.setRevents (ev_events ev)) (ev_ptr ev) (chans s)); [done|].
    apply map_eq. intros a. destruct (decide (a = ev_ptr ev)) as [->|].
    + by rewrite lookup_alter_eq, lookup_insert_eq, Hc.
    + by rewrite lookup_alter_ne, lookup_insert_ne by done.
Qed.

Lemma emit_all_wp F (l : list Cb) (Q : unit -> reactor -> Prop) s :
  Q tt (mkReactor (rloop s) (chans s) (trace s ++ map inl l)) ->
  wp F (forM l (fun cb => emit (inl cb))) Q s.
Proof.
  revert s. induction l as [|cb l IH]; intros s HQ; simpl.
  { wp_simpl. rewrite app_nil_r in HQ. by destruct s. }
  wp_simpl. unfold emit at 1. wp_simpl. apply IH. simpl. by rewrite <- app_assoc.
Qed.

Lemma tasks_wp F (l : list T) (Q : unit -> reactor -> Prop) s :
  Q tt (mkReactor (rloop s) (chans s) (trace s ++ map inr l)) ->
  wp F (forM l run_task) Q s.
Proof.
  revert s. induction l as [|t l IH]; intros s HQ; simpl.
  { wp_simpl. rewrite app_nil_r in HQ. by destruct s. }
  wp_simpl. unfold run_task at 1, emit. wp_simpl. apply IH. simpl. by rewrite <- app_assoc.
Qed.

(** One channel: its callbacks run, other channels are left alone. *)
Definition channel_callbacks (c : Channel Cb) : list Cb :=
  if tied_ c && negb (match tie_ c with Some o => alive o | None => false end) then []
  else DispatchSpecs.dispatch_order c.

Lemma reactor_handleEvents_wp F a c (Q : unit -> reactor -> Prop) s :
  in_loop s = true -> chans s !! a = Some c ->
  (forall m, (forall b, b <> a -> m !! b = chans s !! b) ->
     Q tt (mkReactor (rloop s) m (trace s ++ map inl (channel_callbacks c)))) ->
  wp F (handleEvents a) Q s.
Proof.
  intros Hl Hc HQ. unfold handleEvents. wp_simpl. rewrite Hc. unfold ChannelOps.handleEvents.
  wp_simpl. apply Epoll.assertInLoopThread_wp; [done|]. wp_simpl. simpl.
  replace (mkReactor (rloop s) (chans s) (trace s)) with s by by destruct s.
  assert (get_chan a s = c) as Hg by (unfold get_chan; by rewrite Hc).
  rewrite Hg. unfold channel_callbacks in HQ.
  assert (wp F (ChannelOps.handleEventWithGuard (get_chan a) (put_chan a) (fun cb => emit (inl cb)))
    (fun _ s' => exists m, (forall b, b <> a -> m !! b = chans s !! b)
       /\ s' = mkReactor (rloop s) m (trace s ++ map inl (DispatchSpecs.dispatch_order c))) s) as Hwp.
  { unfold wp. rewrite DispatchSpecs.handleEventWithGuard_order.
    - rewrite Hg. match goal with |- match ?prog ?st with _ => _ end => change (wp F prog
        (fun _ s' => exists m, (forall b, b <> a -> m !! b = chans s !! b)
           /\ s' = mkReactor (rloop s) m (trace s ++ map inl (DispatchSpecs.dispatch_order c))) st) end.
      wp_simpl. apply emit_all_wp. wp_simpl. simpl. eexists. split; [|reflexivity].
      intros b Hb. rewrite lookup_insert_ne by congruence. simpl. by rewrite lookup_insert_ne by congruence.
    - intros c' s'. unfold get_chan. simpl. by rewrite lookup_insert_eq.
    - by intros cb s1 u s2 [= <- <-]. }
  destruct (tied_ c); simpl in HQ; wp_simpl.
  - destruct (match tie_ c with Some o => alive o | None => false end); simpl in HQ.
    + eapply wp_mono; [exact Hwp|]. intros [] s' (m & Hm & ->). by apply HQ.
    + specialize (HQ (chans s) (fun _ _ => eq_refl)). rewrite app_nil_r in HQ. by destruct s.
  - eapply wp_mono; [exact Hwp|]. intros [] s' (m & Hm & ->). by apply HQ.
Qed.

Lemma dispatch_all_wp F evs (m : gmap Z (Channel Cb)) (Q : unit -> reactor -> Prop) s :
  in_loop s = true -> NoDup (map ev_ptr evs) ->
  Forall (fun ev => exists c, m !! ev_ptr ev = Some c
            /\ chans s !! ev_ptr ev = Some (Channel.setRevents (ev_events ev) c)) evs ->
  (forall m', Q tt (mkReactor (rloop s) m' (trace s ++ concat (map (fun ev => map inl (callbacks m ev)) evs)))) ->
  wp F (forM (map ev_ptr evs) handleEvents) Q s.
Proof.
  revert s. induction evs as [|ev evs IH]; intros s Hl Hn Hm HQ; simpl.
  { wp_simpl. specialize (HQ (chans s)). rewrite app_nil_r in HQ. by destruct s. }
  apply NoDup_cons in Hn as [Hni Hn]. apply Forall_cons in Hm as [(c & Hc & Hs) Hm]. wp_simpl.
  eapply reactor_handleEvents_wp; [done|exact Hs|]. intros m1 Hm1. apply IH; [done|done| |].
  - rewrite Forall_forall in Hm |- *. intros ev' Hin. destruct (Hm ev' Hin) as (c' & Hc' & Hs').
    exists c'. split; [done|].
    rewrite Hm1; [done|]. intros Heq. apply Hni. rewrite <- Heq. by apply (list_elem_of_fmap_2 ev_ptr).
  - intros m2. simpl in *. specialize (HQ m2). rewrite <- app_assoc.
    replace (channel_callbacks (Channel.setRevents (ev_events ev) c)) with (callbacks m ev); [done|].
    unfold callbacks, channel_callbacks. by rewrite Hc.
Qed.

(** What the wait returns: a failed wait that was interrupted has no events. *)
Definition wait_result (s : reactor) : sysres (list epoll_event) * K :=
  sys_epoll_wait (epollfd_ (poller_ (rloop s))) (signed 32 (events_size (poller_ (rloop s)))) (-1)
    (kernel (rloop s)).
Definition events_of (r : sysres (list epoll_event)) : list epoll_event :=
  match r with SysOk evs => evs | SysErr _ => [] end.

(** The poller after a wait: the array doubles when it was filled. *)
Definition grown (r : sysres (list epoll_event)) (ep : Epoll) : Epoll :=
  match r with
  | SysOk evs =>
      if zlen evs =? signed 32 (events_size ep) then mkEpoll (2 * events_size ep) (epollfd_ ep) else ep
  | SysErr _ => ep
  end.

Lemma poll_wp F (Q : unit -> reactor -> Prop) s r k' :
  in_loop s = true -> wait_result s = (r, k') -> (forall e, r = SysErr e -> e = EINTR) ->
  Forall (fun ev => is_Some (chans s !! ev_ptr ev)) (events_of r) ->
  Q tt (mkReactor (set_poller (grown r (poller_ (rloop s)))
          (set_active (activeChannels_ (rloop s) ++ map ev_ptr (events_of r)) (set_kernel k' (rloop s))))
          (reported (events_of r) (chans s)) (trace s)) ->
  wp F (Epoll.poll setRevents) Q s.
Proof.
  intros Hl Hw He Hm HQ. unfold Epoll.poll, loop_sys, wait_result in *. wp_simpl.
  apply Epoll.assertInLoopThread_wp; [done|]. wp_simpl. simpl. rewrite Hw. simpl.
  destruct r as [evs|e]; simpl in *.
  - wp_simpl. apply store_wp; [done|]. simpl.
    destruct (zlen evs =? signed 32 (events_size (poller_ (rloop s)))); wp_simpl; simpl; (eapply eq_rect; [exact HQ|]; f_equal; by destruct s as [[? ? ? ? ? [] ? ? ?] ? ?]).
  - rewrite (He e eq_refl). wp_simpl. rewrite app_nil_r in HQ. by destruct s as [[] ? ?].
Qed.

Definition failed (r : sysres (list epoll_event)) : bool :=
  match r with SysErr e => negb (e =? EINTR) | SysOk _ => false end.

Lemma turn_fails s e k' :
  in_loop s = true -> wait_result s = (SysErr e, k') -> (e =? EINTR) = false ->
  turn s = Err (ExitFailure "Epoll::epoll_wait").
Proof.
  intros Hl Hw He. apply (wp_fails _ turn). unfold turn, EventLoop.iteration. wp_simpl. simpl.
  unfold Epoll.poll, loop_sys, wait_result in *. wp_simpl.
  apply Epoll.assertInLoopThread_wp; [done|]. wp_simpl. simpl. rewrite Hw. simpl. rewrite He.
  by wp_simpl.
Qed.

Lemma doPendingTasks_wp F (Q : unit -> reactor -> Prop) s :
  in_loop s = true ->
  Q tt (mkReactor (set_doing false (set_doing true (set_pending [] (rloop s)))) (chans s)
          (trace s ++ map inr (pendingTasks_ (rloop s)))) ->
  wp F (EventLoop.doPendingTasks run_task) Q s.
Proof.
  intros Hl HQ. unfold EventLoop.doPendingTasks. wp_simpl.
  apply Epoll.assertInLoopThread_wp; [done|]. wp_simpl. apply tasks_wp. wp_simpl. exact HQ.
Qed.

Lemma turn_wp F s r k' (Q : unit -> reactor -> Prop) :
  in_loop s = true -> wait_result s = (r, k') -> failed r = false ->
  NoDup (map ev_ptr (events_of r)) ->
  Forall (fun ev => is_Some (chans s !! ev_ptr ev)) (events_of r) ->
  (forall l m, activeChannels_ l = map ev_ptr (events_of r) -> pendingTasks_ l = [] ->
     poller_ l = grown r (poller_ (rloop s)) -> doingPendingTasks_ l = false ->
     Q tt (mkReactor l m (trace s
        ++ concat (map (fun ev => map inl (callbacks (chans s) ev)) (events_of r))
        ++ map inr (pendingTasks_ (rloop s))))) ->
  wp F turn Q s.
Proof.
  intros Hl Hw Hf Hn Hm HQ. unfold turn, EventLoop.iteration. wp_simpl. simpl.
  eapply poll_wp; [done|exact Hw| |exact Hm|].
  { intros e ->. simpl in Hf. by apply negb_false_iff, Z.eqb_eq in Hf. }
  simpl. wp_simpl. simpl.
  apply (dispatch_all_wp F (events_of r) (chans s)); [done|done| |].
  - rewrite Forall_forall in Hm |- *. intros ev Hev. destruct (Hm ev Hev) as [c Hc]. exists c.
    split; [done|]. simpl. by rewrite reported_lookup, Hc.
  - intros m'. apply doPendingTasks_wp; [done|]. simpl. rewrite <- app_assoc. by apply HQ.
Qed.
End reactor.

(** C20: one turn of the loop runs, for the events that epoll_wait returned and in
    their order, exactly the callbacks their channels select, each event reaching
    its own channel only, and then the tasks that were queued, first in first
    out; an interrupted wait counts as no events and any other failure ends the
    program; the event array doubles exactly when a wait filled it. *)
Theorem turn_dispatches {K} `{Posix K} {T Cb : Type} (alive : Z -> bool) (s : reactor) r k' :
  in_loop (T := T) (Cb := Cb) s = true -> wait_result s = (r, k') ->
  NoDup (map ev_ptr (events_of r)) ->
  Forall (fun ev => is_Some (chans s !! ev_ptr ev)) (events_of r) ->
  if failed r then turn alive s = Err (ExitFailure "Epoll::epoll_wait") else
  exists s', turn alive s = Ok (tt, s')
    /\ trace s' = trace s
         ++ concat (map (fun ev => map inl (callbacks alive (chans s) ev)) (events_of r))
         ++ map inr (pendingTasks_ (rloop s))
    /\ pendingTasks_ (rloop s') = [] /\ doingPendingTasks_ (rloop s') = false
    /\ activeChannels_ (rloop s') = map ev_ptr (events_of r)
    /\ poller_ (rloop s') = grown r (poller_ (rloop s)).
Proof.
  intros Hl Hw Hn Hm. destruct (failed r) eqn:Hf.
  - destruct r as [|e]; [done|]. apply (turn_fails alive s e k'); [done|done|].
    by apply negb_true_iff in Hf.
  - assert (wp no_fault (turn alive) (fun _ s' => trace s' = trace s
         ++ concat (map (fun ev => map inl (callbacks alive (chans s) ev)) (events_of r))
         ++ map inr (pendingTasks_ (rloop s))
      /\ pendingTasks_ (rloop s') = [] /\ doingPendingTasks_ (rloop s') = false
      /\ activeChannels_ (rloop s') = map ev_ptr (events_of r)
      /\ poller_ (rloop s') = grown r (poller_ (rloop s))) s) as Hwp.
    { apply (turn_wp alive no_fault s r k'); [done..|]. intros l m Ha Hp Hg Hd. by split_and!. }
    apply wp_ok in Hwp as ([] & s' & ? & ?). by exists s'.
Qed.

(** Three channels: one readable, one tied to an object that is gone, one
    writable with an error; one task; an array of three events. *)
Definition chan_at (a r : Z) (tied : bool) : Channel nat :=
  mkChannel true a a (Some a) tied 7 r false (Some 3%nat) (Some 4%nat) (Some 1%nat) (Some 2%nat).
Definition reactor0 : reactor (K := SimK) (T := bool) (Cb := nat) :=
  mkReactor
    (mkLoop (with_waits [[mkEvent EPOLLIN 10; mkEvent EPOLLIN 11;
                          mkEvent (Z.lor EPOLLERR EPOLLOUT) 12]] sim_init)
       1 1 false false (mkEpoll 3 3) [] 4 [true])
    (list_to_map [(10, chan_at 10 0 false); (11, chan_at 11 0 true); (12, chan_at 12 0 false)]) [].

Lemma turn_dispatches_witness :
  exists s', turn (fun _ => false) reactor0 = Ok (tt, s')
    /\ trace s' = [inl 3%nat; inl 2%nat; inl 4%nat; inr true]
    /\ events_size (poller_ (rloop s')) = 6.
Proof.
  destruct (turn_dispatches (fun _ => false) reactor0 (wait_result reactor0).1 (wait_result reactor0).2)
    as (s' & Ht & Htr & _ & _ & _ & Hp).
  - reflexivity.
  - reflexivity.
  - apply (bool_decide_unpack _). vm_compute. exact I.
  - apply (bool_decide_unpack _). vm_compute. exact I.
  - exists s'. split; [exact Ht|]. rewrite Htr, Hp. clear Ht Htr Hp. split; vm_compute; reflexivity.
Defined.
End Reactor.
