(* ===== verification/TcpConnection.v ===== *)
(** * TcpConnection: one connection on its event loop
    (include/knetlib/TcpConnection.h, src/TcpConnection.cpp)

    The state is the object together with the loop it belongs to.  User code
    is a list of calls of the public interface ([api]) for each invocation of a
    callback: a callback may do anything the interface allows, and the list is
    arbitrary.  Queued tasks are values of [ConnTask].  [obs] records what the
    outside sees of a run (callbacks invoked, the half-close) and the data that
    sendInLoop accepts; no definition reads it. *)

From S2P Require Import Prelude Posix Buffer InetAddress Channel Epoll EventLoop.

(** enum ConnectState *)
Inductive ConnectState : Type := kConnecting | kConnected | kDisconnecting | kDisconnected.
#[export] Instance ConnectState_eq_dec : EqDecision ConnectState.
Proof. solve_decision. Defined.

(** The callbacks that the constructor installs in the channel. *)
Inductive ConnCb : Type := CbRead | CbWrite | CbClose | CbError.

(** The closures that a connection queues on its loop. *)
Inductive ConnTask : Type :=
| TSend (str : list byte)       (* sendInLoop(str) *)
| TShutdown                     (* shutdownInLoop *)
| TForceClose                   (* forceCloseInLoop *)
| TWriteComplete                (* writeCompleteCallback_(conn) *)
| THighWaterMark (n : Z)        (* highWaterMarkCallback_(conn, n) *)
| TStopRead
| TStartRead.

(** Calls that user code makes on a connection (and on the Buffer& it is
    handed in the message callback). *)
Inductive api : Type :=
| ASend (data : list byte)
| ASendInput                    (* send(Buffer&) with the input buffer *)
| AShutdown
| AForceClose
| AStopRead
| AStartRead
| ARetrieve (n : Z)             (* inputBuffer.retrieve(n) *)
| ARetrieveAll.                 (* inputBuffer.retrieveAllAsString() *)

Inductive obs : Type :=
| OAccept (data : list byte)    (* sendInLoop took responsibility for data *)
| OMessage (input : list byte)  (* messageCallback_ with this input buffer *)
| OClose                        (* closeCallback_ *)
| OShutdownWr (unsent : list byte). (* shutdown(SHUT_WR), with the output buffer *)

Record TcpConnection : Type := mkConn {
  sockfd_ : Z;
  channel_ : Channel ConnCb;
  state_ : ConnectState;
  local_ : sockaddr_in;
  peer_ : sockaddr_in;
  inputBuffer_ : Buffer;
  outputBuffer_ : Buffer;
  highWaterMark_ : Z;
  context_ : option (list byte);      (* std::any *)
  messageCallback_ : bool;            (* whether the callback is set *)
  writeCompleteCallback_ : bool;
  highWaterMarkCallback_ : bool;
  closeCallback_ : bool
}.

(** A connection, its loop and the record of the run. *)
Record CW (K : Type) : Type := mkCW {
  conn : TcpConnection;
  loop : Loop K ConnTask;
  trace : list obs
}.
Arguments mkCW {K}.
Arguments conn {K}.
Arguments loop {K}.
Arguments trace {K}.

Module TcpConnection.

(** Assignments to one member. *)
Definition set_channel (ch : Channel ConnCb) (c : TcpConnection) : TcpConnection :=
  mkConn (sockfd_ c) ch (state_ c) (local_ c) (peer_ c) (inputBuffer_ c) (outputBuffer_ c)
    (highWaterMark_ c) (context_ c) (messageCallback_ c) (writeCompleteCallback_ c)
    (highWaterMarkCallback_ c) (closeCallback_ c).
Definition set_state (st : ConnectState) (c : TcpConnection) : TcpConnection :=
  mkConn (sockfd_ c) (channel_ c) st (local_ c) (peer_ c) (inputBuffer_ c) (outputBuffer_ c)
    (highWaterMark_ c) (context_ c) (messageCallback_ c) (writeCompleteCallback_ c)
    (highWaterMarkCallback_ c) (closeCallback_ c).
Definition set_input (b : Buffer) (c : TcpConnection) : TcpConnection :=
  mkConn (sockfd_ c) (channel_ c) (state_ c) (local_ c) (peer_ c) b (outputBuffer_ c)
    (highWaterMark_ c) (context_ c) (messageCallback_ c) (writeCompleteCallback_ c)
    (highWaterMarkCallback_ c) (closeCallback_ c).
Definition set_output (b : Buffer) (c : TcpConnection) : TcpConnection :=
  mkConn (sockfd_ c) (channel_ c) (state_ c) (local_ c) (peer_ c) (inputBuffer_ c) b
    (highWaterMark_ c) (context_ c) (messageCallback_ c) (writeCompleteCallback_ c)
    (highWaterMarkCallback_ c) (closeCallback_ c).

(** The setters of the public interface. *)
Definition setMessageCallback (f : bool) (c : TcpConnection) : TcpConnection :=
  mkConn (sockfd_ c) (channel_ c) (state_ c) (local_ c) (peer_ c) (inputBuffer_ c)
    (outputBuffer_ c) (highWaterMark_ c) (context_ c) f (writeCompleteCallback_ c)
    (highWaterMarkCallback_ c) (closeCallback_ c).
Definition setWriteCompleteCallback (f : bool) (c : TcpConnection) : TcpConnection :=
  mkConn (sockfd_ c) (channel_ c) (state_ c) (local_ c) (peer_ c) (inputBuffer_ c)
    (outputBuffer_ c) (highWaterMark_ c) (context_ c) (messageCallback_ c) f
    (highWaterMarkCallback_ c) (closeCallback_ c).
Definition setHighWaterMarkCallback (f : bool) (mark : Z) (c : TcpConnection) : TcpConnection :=
  mkConn (sockfd_ c) (channel_ c) (state_ c) (local_ c) (peer_ c) (inputBuffer_ c)
    (outputBuffer_ c) mark (context_ c) (messageCallback_ c) (writeCompleteCallback_ c)
    f (closeCallback_ c).
Definition setCloseCallback (f : bool) (c : TcpConnection) : TcpConnection :=
  mkConn (sockfd_ c) (channel_ c) (state_ c) (local_ c) (peer_ c) (inputBuffer_ c)
    (outputBuffer_ c) (highWaterMark_ c) (context_ c) (messageCallback_ c)
    (writeCompleteCallback_ c) (highWaterMarkCallback_ c) f.
Definition setContext (x : option (list byte)) (c : TcpConnection) : TcpConnection :=
  mkConn (sockfd_ c) (channel_ c) (state_ c) (local_ c) (peer_ c) (inputBuffer_ c)
    (outputBuffer_ c) (highWaterMark_ c) x (messageCallback_ c)
    (writeCompleteCallback_ c) (highWaterMarkCallback_ c) (closeCallback_ c).

(** The constructor; [addr] is the address of the channel member. *)
Definition new (addr sockfd : Z) (local peer : sockaddr_in) (empty : Buffer) : TcpConnection :=
  let ch := Channel.setErrorCallback (Some CbError) (Channel.setCloseCallback (Some CbClose)
              (Channel.setWriteCallback (Some CbWrite) (Channel.setReadCallback (Some CbRead)
                 (Channel.new addr sockfd)))) in
  mkConn sockfd ch kConnecting local peer empty empty 0 None false false false false.

(** Queries. *)
Definition connected (c : TcpConnection) : bool := bool_decide (state_ c = kConnected).
Definition disconnected (c : TcpConnection) : bool := bool_decide (state_ c = kDisconnected).
Definition local (c : TcpConnection) : sockaddr_in := local_ c.
Definition peer (c : TcpConnection) : sockaddr_in := peer_ c.
Definition name `{Inet} (c : TcpConnection) : string :=
  (InetAddress.toIpPort (peer_ c) ++ " -> " ++ InetAddress.toIpPort (local_ c))%string.
Definition getContext (c : TcpConnection) : option (list byte) := context_ c.
Definition isReading (c : TcpConnection) : bool := Channel.isReading (channel_ c).
Definition inputBuffer (c : TcpConnection) : Buffer := inputBuffer_ c.
Definition outputBuffer (c : TcpConnection) : Buffer := outputBuffer_ c.

#[export] Instance cw_has_loop {K} : HasLoop K ConnTask (CW K) :=
  {| get_loop := loop; put_loop l w := mkCW (conn w) l (trace w) |}.
#[export] Instance cw_has_loop_laws {K} : HasLoopLaws K ConnTask (CW K).
Proof. constructor; [done..|by intros []]. Qed.

Section handlers.
Context {K : Type} `{Posix K}.
Abbreviation MC := (M (CW K)).

Definition upd_conn (f : TcpConnection -> TcpConnection) : MC unit :=
  modify (fun w => mkCW (f (conn w)) (loop w) (trace w)).
Definition record (o : obs) : MC unit :=
  modify (fun w => mkCW (conn w) (loop w) (trace w ++ [o])).
Definition get_state : MC ConnectState := gets (fun w => state_ (conn w)).

(** Computations on the channel (with the loop), the buffers, and the input
    buffer with the kernel. *)
Definition on_chan {A} (m : M (Channel ConnCb * Loop K ConnTask) A) : MC A :=
  zoom (fun w => (channel_ (conn w), loop w))
    (fun p w => mkCW (set_channel p.1 (conn w)) p.2 (trace w)) m.
Definition on_output {A} (m : M Buffer A) : MC A :=
  zoom (fun w => outputBuffer_ (conn w))
    (fun b w => mkCW (set_output b (conn w)) (loop w) (trace w)) m.
Definition on_input {A} (m : M Buffer A) : MC A :=
  zoom (fun w => inputBuffer_ (conn w))
    (fun b w => mkCW (set_input b (conn w)) (loop w) (trace w)) m.
Definition on_input_kernel {A} (m : M (Buffer * K) A) : MC A :=
  zoom (fun w => (inputBuffer_ (conn w), kernel (loop w)))
    (fun p w => mkCW (set_input p.1 (conn w)) (set_kernel p.2 (loop w)) (trace w)) m.
Definition os {A} (f : K -> A * K) : MC A := on_loop (loop_sys f).

Definition isWriting : MC bool := gets (fun w => Channel.isWriting (channel_ (conn w))).
Definition output_size : MC Z := gets (fun w => Buffer.readableBytes (outputBuffer_ (conn w))).

(** TcpConnection::connectEstablished; [self] stands for shared_from_this(). *)
Definition connectEstablished (self : Z) : MC unit :=
  st <- get_state;;
  assert_ "TcpConnection::connectEstablished" (bool_decide (st = kConnecting));;;
  upd_conn (set_state kConnected);;;
  upd_conn (fun c => set_channel (Channel.tie self (channel_ c)) c);;;
  on_chan ChannelOps.enableRead.

(** TcpConnection::shutdownInLoop. *)
Definition shutdownInLoop : MC unit :=
  on_loop assertInLoopThread;;;
  st <- get_state;;
  w <- isWriting;;
  when (negb (bool_decide (st = kDisconnected)) && negb w)
    (unsent <- gets (fun w => Buffer.content (outputBuffer_ (conn w)));;
     record (OShutdownWr unsent);;;
     fd <- gets (fun w => sockfd_ (conn w));;
     r <- os (sys_shutdown_wr fd);;
     match r with
     | SysErr e => _ <- os (errno_after_log e);; ret tt
     | SysOk _ => ret tt
     end).

(** TcpConnection::stateAtomicGetAndSet *)
Definition stateAtomicGetAndSet (st : ConnectState) : MC ConnectState :=
  old <- get_state;;
  upd_conn (set_state st);;;
  ret old.

(** TcpConnection::shutdown. *)
Definition shutdown : MC unit :=
  st <- get_state;;
  assert_ "TcpConnection::shutdown" (negb (bool_decide (st = kDisconnected)));;;
  old <- stateAtomicGetAndSet kDisconnecting;;
  when (bool_decide (old = kConnected))
    (b <- on_loop (gets isInLoopThread);;
     if (b : bool) then shutdownInLoop
     else on_loop (EventLoop.queueInLoop TShutdown)).

(** The lambdas of stopRead and startRead. *)
Definition stopReadInLoop : MC unit :=
  r <- gets (fun w => isReading (conn w));;
  when r (on_chan ChannelOps.disableRead).
Definition startReadInLoop : MC unit :=
  r <- gets (fun w => isReading (conn w));;
  when (negb r) (on_chan ChannelOps.enableRead).

Definition stopRead : MC unit :=
  EventLoop.runInLoop (fun _ => stopReadInLoop) TStopRead.
Definition startRead : MC unit :=
  EventLoop.runInLoop (fun _ => startReadInLoop) TStartRead.

(** ** Handlers, given what closing does *)

Section closing.
Variable handleClose : MC unit.

(** TcpConnection::handleError.  The error is only logged. *)
Definition handleError_with : MC unit :=
  on_loop assertInLoopThread;;;
  fd <- gets (fun w => sockfd_ (conn w));;
  r <- os (sys_so_error fd);;
  let e := match r with SysOk e => e | SysErr e => e end in
  _ <- os (errno_after_log e);;
  handleClose.

(** The write attempt of sendInLoop, when no earlier data waits: the bytes
    written, the bytes left and whether the connection failed. *)
Definition direct_write (data : list byte) : MC (Z * Z * bool) :=
  let len := zlen data in
  n0 <- output_size;;
  assert_ "TcpConnection::sendInLoop" (n0 =? 0);;;
  fd <- gets (fun w => sockfd_ (conn w));;
  r <- os (sys_write fd data);;
  match r with
  | SysErr e =>
      if negb (e =? EAGAIN) then
        e' <- os (errno_after_log e);;
        if (e' =? EPIPE) || (e' =? ECONNRESET)
        then handleClose;;; ret (0, len, true)
        else ret (0, len, false)
      else ret (0, len, false)
  | SysOk n =>
      let remain := u64 (len - n) in
      wcc <- gets (fun w => writeCompleteCallback_ (conn w));;
      when ((remain =? 0) && wcc) (on_loop (EventLoop.queueInLoop TWriteComplete));;;
      ret (n, remain, false)
  end.

(** The part of sendInLoop that keeps what could not be written. *)
Definition buffer_rest (data : list byte) (n remain : Z) : MC unit :=
  hw <- gets (fun w => highWaterMarkCallback_ (conn w));;
  when hw
    (oldLen <- output_size;;
     let newLen := u64 (oldLen + remain) in
     mark <- gets (fun w => highWaterMark_ (conn w));;
     when ((oldLen <? mark) && (mark <=? newLen))
       (on_loop (EventLoop.queueInLoop (THighWaterMark newLen))));;;
  on_output (Buffer.append (zslice n remain data));;;
  on_chan ChannelOps.enableWrite.

(** TcpConnection::sendInLoop (both overloads). *)
Definition sendInLoop (data : list byte) : MC unit :=
  on_loop assertInLoopThread;;;
  st <- get_state;;
  if bool_decide (st = kDisconnected) then ret tt
  else
    record (OAccept data);;;
    w <- isWriting;;
    t <- (if negb w then direct_write data else ret (0, zlen data, false));;
    let '(n, remain, faultError) := t in
    when (negb faultError && (0 <? remain)) (buffer_rest data n remain).

(** TcpConnection::send(const char*, size_t) and send(const std::string&). *)
Definition send (data : list byte) : MC unit :=
  st <- get_state;;
  if negb (bool_decide (st = kConnected)) then ret tt
  else
    b <- on_loop (gets isInLoopThread);;
    if (b : bool) then sendInLoop data
    else on_loop (EventLoop.queueInLoop (TSend data)).

(** TcpConnection::send(Buffer&) with the connection's own input buffer. *)
Definition send_input : MC unit :=
  st <- get_state;;
  if negb (bool_decide (st = kConnected)) then ret tt
  else
    b <- on_loop (gets isInLoopThread);;
    if (b : bool) then
      data <- gets (fun w => Buffer.content (inputBuffer_ (conn w)));;
      sendInLoop data;;;
      on_input Buffer.retrieveAll
    else
      str <- on_input Buffer.retrieveAllAsString;;
      on_loop (EventLoop.queueInLoop (TSend str)).

(** TcpConnection::forceCloseInLoop. *)
Definition forceCloseInLoop : MC unit :=
  on_loop assertInLoopThread;;;
  st <- get_state;;
  when (negb (bool_decide (st = kDisconnected))) handleClose.

(** TcpConnection::forceClose, after and with the first load of the state. *)
Definition forceClose_exchange : MC unit :=
  old <- stateAtomicGetAndSet kDisconnecting;;
  when (negb (bool_decide (old = kDisconnected)))
    (b <- on_loop (gets isInLoopThread);;
     if (b : bool) then forceCloseInLoop
     else on_loop (EventLoop.queueInLoop TForceClose)).
Definition forceClose : MC unit :=
  st <- get_state;;
  when (negb (bool_decide (st = kDisconnected))) forceClose_exchange.

Definition run_api (a : api) : MC unit :=
  match a with
  | ASend d => send d
  | ASendInput => send_input
  | AShutdown => shutdown
  | AForceClose => forceClose
  | AStopRead => stopRead
  | AStartRead => startRead
  | ARetrieve n => on_input (Buffer.retrieve n)
  | ARetrieveAll => _ <- on_input Buffer.retrieveAllAsString;; ret tt
  end.
End closing.

(** ** Closing

    [on_close]: what the user's close callback does.  handleClose runs it, and
    it may close again; [depth] bounds the nesting. *)
Section callbacks.
Variable on_close : list api.

Definition handleClose_with (user : MC unit) : MC unit :=
  on_loop assertInLoopThread;;;
  st <- get_state;;
  assert_ "TcpConnection::handleClose"
    (bool_decide (st = kConnected) || bool_decide (st = kDisconnecting));;;
  upd_conn (set_state kDisconnected);;;
  on_chan ChannelOps.loop_removeChannel;;;
  cb <- gets (fun w => closeCallback_ (conn w));;
  when cb (record OClose;;; user).

(** TcpConnection::handleClose. *)
Fixpoint handleClose_depth (depth : nat) : MC unit :=
  handleClose_with
    (match depth with
     | O => throw OutOfFuel
     | S d => forM on_close (run_api (handleClose_depth d))
     end).

Definition handleClose : MC unit := handleClose_depth 1.
Definition handleError : MC unit := handleError_with handleClose.

(** Calls of user code, outside or inside a callback. *)
Definition call (a : api) : MC unit := run_api handleClose a.

(** [on_message]: what the message callback (or a queued callback) does. *)
Variable on_message : list api.

(** TcpConnection::handleRead. *)
Definition handleRead : MC unit :=
  on_loop assertInLoopThread;;;
  st <- get_state;;
  if bool_decide (st = kDisconnected) then ret tt
  else
    fd <- gets (fun w => sockfd_ (conn w));;
    r <- on_input_kernel (Buffer.readFd fd);;
    match r with
    | SysErr e => _ <- os (errno_after_log e);; handleError
    | SysOk n =>
        if n =? 0 then handleClose
        else
          cb <- gets (fun w => messageCallback_ (conn w));;
          when cb
            (input <- gets (fun w => Buffer.content (inputBuffer_ (conn w)));;
             record (OMessage input);;;
             forM on_message call)
    end.

(** TcpConnection::handleWrite. *)
Definition handleWrite : MC unit :=
  on_loop assertInLoopThread;;;
  st <- get_state;;
  if bool_decide (st = kDisconnected) then ret tt
  else
    n0 <- output_size;;
    assert_ "TcpConnection::handleWrite" (0 <? n0);;;
    w <- isWriting;;
    assert_ "TcpConnection::handleWrite" w;;;
    fd <- gets (fun w => sockfd_ (conn w));;
    data <- gets (fun w => Buffer.content (outputBuffer_ (conn w)));;
    r <- os (sys_write fd data);;
    match r with
    | SysErr e =>
        when (negb (e =? EAGAIN))
          (_ <- os (errno_after_log e);;
           when ((e =? EPIPE) || (e =? ECONNRESET)) handleError)
    | SysOk n =>
        on_output (Buffer.retrieve n);;;
        left <- output_size;;
        when (left =? 0)
          (on_chan ChannelOps.disableWrite;;;
           st <- get_state;;
           when (bool_decide (st = kDisconnecting)) shutdownInLoop;;;
           wcc <- gets (fun w => writeCompleteCallback_ (conn w));;
           when wcc (on_loop (EventLoop.queueInLoop TWriteComplete)))
    end.

(** The callbacks of the channel. *)
Definition run_callback (cb : ConnCb) : MC unit :=
  match cb with
  | CbRead => handleRead
  | CbWrite => handleWrite
  | CbClose => handleClose
  | CbError => handleError
  end.

(** A queued task; [on_message] is what the user callback does, if it is one. *)
Definition run_task (t : ConnTask) : MC unit :=
  match t with
  | TSend d => sendInLoop handleClose d
  | TShutdown => shutdownInLoop
  | TForceClose => forceCloseInLoop handleClose
  | TWriteComplete => forM on_message call
  | THighWaterMark _ => forM on_message call
  | TStopRead => stopReadInLoop
  | TStartRead => startReadInLoop
  end.

(** Dispatch of the events [r] that epoll_wait returned for the channel, while
    some shared_ptr keeps the connection alive. *)
Definition get_chan (w : CW K) : Channel ConnCb := channel_ (conn w).
Definition put_chan (ch : Channel ConnCb) (w : CW K) : CW K :=
  mkCW (set_channel ch (conn w)) (loop w) (trace w).

Definition dispatch (r : Z) : MC unit :=
  modify (fun w => put_chan (Channel.setRevents r (get_chan w)) w);;;
  ChannelOps.handleEvents get_chan put_chan run_callback (fun _ _ => true).

(** The loop takes the first pending task and runs it. *)
Definition run_next : MC unit :=
  ts <- on_loop (gets pendingTasks_);;
  match ts with
  | [] => ret tt
  | t :: ts' => on_loop (modify (set_pending ts'));;; run_task t
  end.

(** A call of the interface made on another thread, as one step;
    TcpConnectionRace cuts forceClose and shutdown into their accesses. *)
Definition remote_call (other : Z) (a : api) : MC unit :=
  me <- on_loop (gets current_tid);;
  on_loop (modify (set_current other));;;
  call a;;;
  on_loop (modify (set_current me)).
End callbacks.

(** ~TcpConnection: the descriptor is closed, whatever the state. *)
Definition destroy : MC unit :=
  fd <- gets (fun w => sockfd_ (conn w));;
  when (negb (fd =? -1)) (_ <- os (sys_close fd);; ret tt).
End handlers.
End TcpConnection.
