(* ===== verification/TcpConnectionSpec.v ===== *)
(** * TcpConnection: invariant and specifications

    [Inv] is the invariant of a connection on its loop after
    connectEstablished: the buffers are well formed, EPOLLOUT is watched
    exactly while output waits, and the bytes given to the kernel followed by
    the output buffer are the bytes accepted for sending.  Every handler and
    every call of the interface preserves it. *)

From S2P Require Import Prelude Posix Buffer InetAddress Channel Epoll EventLoop TcpConnection.
Import TcpConnection DispatchSpecs.

#[local] Arguments Z.testbit : simpl never.

(** Symbolic execution that leaves the calls into the loop to their lemmas. *)
Ltac cw_simpl :=
  unfold get_state, isWriting, output_size, record, upd_conn;
  repeat (progress (rewrite ?wp_bind, ?wp_gets, ?wp_modify, ?wp_ret, ?wp_throw, ?wp_assert,
    ?wp_when; cbn beta iota delta [negb])).

(** What the socket promises: write(2) accepts a prefix of what it is given,
    and nothing else changes the bytes a descriptor has accepted. *)
Class SocketLaws (K : Type) `{Posix K} : Type := {
  sent : K -> Z -> list byte;
  write_ok : forall fd d k n k',
    sys_write fd d k = (SysOk n, k') ->
    0 <= n <= zlen d /\ sent k' fd = sent k fd ++ ztake n d;
  write_err : forall fd d k e k',
    sys_write fd d k = (SysErr e, k') -> sent k' fd = sent k fd;
  write_other : forall fd d k r k' fd',
    sys_write fd d k = (r, k') -> fd' <> fd -> sent k' fd' = sent k fd';
  readv_sent : forall fd lens k fd', sent (sys_readv fd lens k).2 fd' = sent k fd';
  so_error_sent : forall fd k fd', sent (sys_so_error fd k).2 fd' = sent k fd';
  shutdown_sent : forall fd k fd', sent (sys_shutdown_wr fd k).2 fd' = sent k fd';
  log_sent : forall e k fd', sent (errno_after_log e k).2 fd' = sent k fd';
  ctl_sent : forall ep op fd ev k fd', sent (sys_epoll_ctl ep op fd ev k).2 fd' = sent k fd'
}.

#[export] Instance SimSocketLaws : SocketLaws SimK.
Proof.
  refine {| sent k fd := default [] (sk_sent k !! fd) |}; simpl.
  - intros fd d k n k'. unfold sim_write. pose proof (zlen_nonneg d).
    destruct (sk_writes k) as [|[m|e] l]; intros [= <- <-]; simpl; rewrite lookup_insert_eq;
      split; try done; unfold clip; lia.
  - intros fd d k e k'. unfold sim_write.
    by destruct (sk_writes k) as [|[m|e'] l]; intros [= <- <-].
  - intros fd d k r k' fd'. unfold sim_write.
    by destruct (sk_writes k) as [|[m|e'] l]; intros [= <- <-] Hne; simpl;
      rewrite ?lookup_insert_ne by done.
  - intros fd lens k fd'. unfold sim_readv. by destruct (sk_reads k) as [|[d|e] l].
  - intros fd k fd'. by destruct (sk_soerrors k).
  - done.
  - done.
  - intros ep op fd ev k fd'. unfold sim_epoll_ctl. by destruct op, (sk_epoll k !! fd).
Defined.

(** ** Observations *)

(** The bytes accepted for sending, in order. *)
Definition accepted (l : list obs) : list byte :=
  concat (map (fun o => match o with OAccept d => d | _ => [] end) l).

Definition closes (l : list obs) : nat :=
  foldr (fun o n => match o with OClose => S n | _ => n end) O l.

(** At the half-close nothing waits in the output buffer. *)
Definition flushed (o : obs) : Prop :=
  match o with OShutdownWr d => d = [] | _ => True end.

Lemma accepted_app l l' : accepted (l ++ l') = accepted l ++ accepted l'.
Proof. unfold accepted. by rewrite map_app, concat_app. Qed.

Lemma closes_app l l' : closes (l ++ l') = (closes l + closes l')%nat.
Proof. induction l as [|[] l IH]; simpl; rewrite ?IH; done. Qed.

(** Sizes that a std::string or a buffer can have. *)
Definition task_ok (t : ConnTask) : Prop :=
  match t with TSend d => zlen d <= Buffer.max_size | _ => True end.
Definition api_ok (a : api) : Prop :=
  match a with
  | ASend d => zlen d <= Buffer.max_size
  | ARetrieve n => 0 <= n
  | _ => True
  end.

(** ** The faults that remain: a failing epoll_ctl, a vector of 2^63 bytes,
    and two contracts of the caller (shutdown after the close, retrieving more
    than there is). *)
Definition env_fault (f : fault) : Prop :=
  f = ExitFailure "Epoll::epoll_ctl" \/ f = LengthError.
Definition caller_fault (f : fault) : Prop :=
  f = AssertFailed "TcpConnection::shutdown" \/ f = AssertFailed "Buffer::retrieve".
Definition conn_fault (f : fault) : Prop := env_fault f \/ caller_fault f.

(** A call of the interface whose breach of contract, if it is one that can be
    breached, is among the faults [F]. *)
Definition api_allowed (F : fault -> Prop) (a : api) : Prop :=
  api_ok a
  /\ match a with
     | AShutdown => F (AssertFailed "TcpConnection::shutdown")
     | ARetrieve _ => F (AssertFailed "Buffer::retrieve")
     | _ => True
     end.

Lemma api_conn_allowed (F : fault -> Prop) a :
  (forall f, conn_fault f -> F f) -> api_ok a -> api_allowed F a.
Proof.
  intros HF Ha. split; [done|]. destruct a; try done; apply HF; right; [by left|by right].
Qed.

Lemma apis_conn_allowed (F : fault -> Prop) l :
  (forall f, conn_fault f -> F f) -> Forall api_ok l -> Forall (api_allowed F) l.
Proof. intros HF Hl. eapply Forall_impl; [exact Hl|]. intros a. by apply api_conn_allowed. Qed.

Definition rank (s : ConnectState) : nat :=
  match s with kConnecting => 0 | kConnected => 1 | kDisconnecting => 2 | kDisconnected => 3 end.

Section invariant.
Context {K : Type} `{Posix K} `{!SocketLaws K}.
Implicit Types w : CW K.

Abbreviation st w := (state_ (conn w)).
Abbreviation ch w := (channel_ (conn w)).
Abbreviation outb w := (outputBuffer_ (conn w)).
Abbreviation in_loop w := (isInLoopThread (loop w) = true).

(** [base]: what the descriptor had accepted before. *)
Record Inv0 (base : list byte) (w : CW K) : Prop := mkInv0 {
  inv_wake : wakeupfd_ (loop w) <> sockfd_ (conn w);
  inv_state : st w <> kConnecting;
  inv_in : Buffer.wf (inputBuffer_ (conn w));
  inv_out : Buffer.wf (outb w);
  inv_writing : Channel.isWriting (ch w) = negb (bool_decide (Buffer.content (outb w) = []));
  inv_mask : Channel.mask_ok (events_ (ch w));
  inv_flushed : Forall flushed (trace w);
  inv_closes : closes (trace w)
    = (if closeCallback_ (conn w) && bool_decide (st w = kDisconnected) then 1 else 0)%nat;
  inv_prefix : sent (kernel (loop w)) (sockfd_ (conn w)) `prefix_of` base ++ accepted (trace w);
  inv_tasks : Forall task_ok (pendingTasks_ (loop w))
}.

Definition Inv (base : list byte) (w : CW K) : Prop :=
  Inv0 base w
  /\ (st w <> kDisconnected ->
      sent (kernel (loop w)) (sockfd_ (conn w)) ++ Buffer.content (outb w)
      = base ++ accepted (trace w)).

Lemma idle_nil base w :
  Inv0 base w -> Channel.isWriting (ch w) = false -> Buffer.content (outb w) = [].
Proof.
  intros [] Hw. rewrite inv_writing0 in Hw. apply negb_false_iff in Hw.
  by apply bool_decide_eq_true_1 in Hw.
Qed.

Lemma busy_cons base w :
  Inv0 base w -> Channel.isWriting (ch w) = true -> Buffer.content (outb w) <> [].
Proof.
  intros [] Hw. rewrite inv_writing0 in Hw. apply negb_true_iff in Hw.
  by apply bool_decide_eq_false_1 in Hw.
Qed.

(** What no operation changes, and what only moves forward. *)
Record frame (w w' : CW K) : Prop := mkFrame {
  fr_tid : tid_ (loop w') = tid_ (loop w);
  fr_cur : current_tid (loop w') = current_tid (loop w);
  fr_wake : wakeupfd_ (loop w') = wakeupfd_ (loop w);
  fr_fd : sockfd_ (conn w') = sockfd_ (conn w);
  fr_close : closeCallback_ (conn w') = closeCallback_ (conn w);
  fr_chan : DispatchSpecs.same_dispatch (ch w) (ch w');
  fr_rank : (rank (st w) <= rank (st w'))%nat
}.

#[export] Instance frame_preorder : PreOrder frame.
Proof.
  split.
  - intros w. by constructor.
  - intros w1 w2 w3 [] []. constructor; try congruence; [by etrans|lia].
Qed.

Lemma frame_disc w w' : frame w w' -> st w = kDisconnected -> st w' = kDisconnected.
Proof. intros [] E. rewrite E in *. by destruct (st w'); simpl in *; try lia. Qed.

Lemma frame_loop w w' : frame w w' -> in_loop w -> in_loop w'.
Proof. unfold isInLoopThread. intros []. congruence. Qed.

(** Output does not stop waiting, except by the end of the connection. *)
Definition keeps (w w' : CW K) : Prop :=
  frame w w' /\ (Channel.isWriting (ch w) = true ->
                 Channel.isWriting (ch w') = true \/ st w' = kDisconnected).

#[export] Instance keeps_preorder : PreOrder keeps.
Proof.
  split.
  - intros w. split; [done|by left].
  - intros w1 w2 w3 [F1 K1] [F2 K2]. split; [by etrans|].
    intros E. destruct (K1 E) as [?|?]; [by apply K2|]. right. by apply (frame_disc w2).
Qed.

(** Loops that differ in the kernel state and in tasks appended. *)
Record quiet (fd : Z) (l l' : Loop K ConnTask) : Prop := mkQuiet {
  q_tid : tid_ l' = tid_ l;
  q_cur : current_tid l' = current_tid l;
  q_wake : wakeupfd_ l' = wakeupfd_ l;
  q_sent : sent (kernel l') fd = sent (kernel l) fd;
  q_tasks : Forall task_ok (pendingTasks_ l) -> Forall task_ok (pendingTasks_ l')
}.

Lemma quiet_refl fd l : quiet fd l l.
Proof. by constructor. Qed.

Lemma quiet_kernel fd l k' : sent k' fd = sent (kernel l) fd -> quiet fd l (set_kernel k' l).
Proof. by constructor. Qed.

Lemma Inv0_loop base w l' :
  quiet (sockfd_ (conn w)) (loop w) l' -> Inv0 base w -> Inv0 base (mkCW (conn w) l' (trace w)).
Proof. intros [] []. constructor; simpl; try done; try congruence; auto. Qed.

Lemma Inv_loop base w l' :
  quiet (sockfd_ (conn w)) (loop w) l' -> Inv base w -> Inv base (mkCW (conn w) l' (trace w)).
Proof.
  intros Hq [H0 Hs]. split; [by apply Inv0_loop|]. simpl. intros Hd.
  destruct Hq. rewrite q_sent0. by apply Hs.
Qed.

Lemma keeps_loop w l' :
  quiet (sockfd_ (conn w)) (loop w) l' -> keeps w (mkCW (conn w) l' (trace w)).
Proof. intros []. split; [by constructor|by left]. Qed.

(** ** The calls into the loop and the kernel *)

Section calls.
Context (F : fault -> Prop).

Lemma wakeup_wp fd (l : Loop K ConnTask) (Q : unit -> Loop K ConnTask -> Prop) :
  fd <> wakeupfd_ l -> (forall l', quiet fd l l' -> pendingTasks_ l' = pendingTasks_ l -> Q tt l') ->
  wp F EventLoop.wakeup Q l.
Proof.
  intros Hfd HQ. unfold EventLoop.wakeup, loop_sys. wp_simpl.
  destruct (sys_write (wakeupfd_ l) EventLoop.one_bytes (kernel l)) as [[n|e] k'] eqn:E; simpl;
    wp_simpl; apply HQ; try done; apply (write_other _ _ _ _ _ fd) in E; try done.
  constructor; simpl; try done. by rewrite log_sent.
Qed.

Lemma queueInLoop_wp fd t (l : Loop K ConnTask) (Q : unit -> Loop K ConnTask -> Prop) :
  fd <> wakeupfd_ l -> task_ok t ->
  (forall l', quiet fd l l' -> pendingTasks_ l' = pendingTasks_ l ++ [t] -> Q tt l') ->
  wp F (EventLoop.queueInLoop t) Q l.
Proof.
  intros Hfd Ht HQ. unfold EventLoop.queueInLoop. wp_simpl.
  set (l1 := set_pending (pendingTasks_ l ++ [t]) l).
  assert (quiet fd l l1) as Hq.
  { constructor; try done. intros Hl. apply Forall_app. split; [done|]. by constructor. }
  destruct (_ || _); wp_simpl; [|by apply HQ].
  apply (wakeup_wp fd); [done|]. intros l' Hq' Hp. apply HQ; [|by rewrite Hp].
  destruct Hq, Hq'. constructor; try congruence; auto.
Qed.

(** The channel after a call that only changed its mask and registration. *)
Definition masked (e : Z) (c c' : Channel ConnCb) : Prop :=
  events_ c' = e /\ same_dispatch c c'.

Lemma chan_mask_wp f w (Q : unit -> CW K -> Prop) :
  in_loop w -> Z.testbit (f (events_ (ch w))) 1 = true -> F (ExitFailure "Epoll::epoll_ctl") ->
  (forall c' l', masked (f (events_ (ch w))) (ch w) c' -> quiet (sockfd_ (conn w)) (loop w) l' ->
     pendingTasks_ l' = pendingTasks_ (loop w) ->
     Q tt (mkCW (set_channel c' (conn w)) l' (trace w))) ->
  wp F (on_chan (ChannelOps.change_mask f)) Q w.
Proof.
  intros Hl Hbit HF HQ. unfold on_chan. rewrite wp_zoom.
  apply ChannelSpecs.change_mask_wp; [done|intros _; by apply (Channel.testbit_nonzero _ 1)|done|].
  intros r k' Hctl _. simpl. apply HQ; [by repeat split| |done].
  apply quiet_kernel. unfold Epoll.ctl in Hctl.
  match type of Hctl with ?x = _ => change k' with (r, k').2; rewrite <- Hctl end.
  apply ctl_sent.
Qed.

Lemma chan_remove_wp w (Q : unit -> CW K -> Prop) :
  in_loop w -> F (ExitFailure "Epoll::epoll_ctl") ->
  (forall c' l', masked (events_ (ch w)) (ch w) c' -> quiet (sockfd_ (conn w)) (loop w) l' ->
     pendingTasks_ l' = pendingTasks_ (loop w) ->
     Q tt (mkCW (set_channel c' (conn w)) l' (trace w))) ->
  wp F (on_chan ChannelOps.loop_removeChannel) Q w.
Proof.
  intros Hl HF HQ. unfold on_chan. rewrite wp_zoom.
  apply ChannelSpecs.loop_removeChannel_wp; [done|done| |].
  - intros _. simpl. apply HQ; [by repeat split|apply quiet_refl|done].
  - intros _ r k' Hctl _. simpl. apply HQ; [by repeat split| |done].
    apply quiet_kernel. unfold Epoll.ctl in Hctl.
    match type of Hctl with ?x = _ => change k' with (r, k').2; rewrite <- Hctl end.
    apply ctl_sent.
Qed.

Lemma os_wp {A} (f : K -> A * K) w (Q : A -> CW K -> Prop) :
  Q (f (kernel (loop w))).1 (mkCW (conn w) (set_kernel (f (kernel (loop w))).2 (loop w)) (trace w)) ->
  wp F (os f) Q w.
Proof. unfold os, loop_sys. by wp_simpl. Qed.

Lemma assert_loop_wp w (Q : unit -> CW K -> Prop) :
  in_loop w -> Q tt w -> wp F (on_loop assertInLoopThread) Q w.
Proof.
  intros Hl HQ. rewrite wp_on_loop. apply Epoll.assertInLoopThread_wp; [done|]. by destruct w.
Qed.

Lemma in_loop_wp w (Q : bool -> CW K -> Prop) :
  Q (isInLoopThread (loop w)) w -> wp F (on_loop (gets isInLoopThread)) Q w.
Proof. intros HQ. rewrite wp_on_loop, wp_gets. by destruct w. Qed.

Lemma queue_wp t w (Q : unit -> CW K -> Prop) :
  wakeupfd_ (loop w) <> sockfd_ (conn w) -> task_ok t ->
  (forall l', quiet (sockfd_ (conn w)) (loop w) l' ->
     pendingTasks_ l' = pendingTasks_ (loop w) ++ [t] -> Q tt (mkCW (conn w) l' (trace w))) ->
  wp F (on_loop (EventLoop.queueInLoop t)) Q w.
Proof.
  intros Hw Ht HQ. rewrite wp_on_loop. apply (queueInLoop_wp (sockfd_ (conn w))); [done..|].
  intros l' Hq Hp. by apply HQ.
Qed.
End calls.

(** ** Operations that keep the invariant *)

Section operations.
Context (F : fault -> Prop) (HF : forall f, env_fault f -> F f).

#[local] Lemma F_ctl : F (ExitFailure "Epoll::epoll_ctl").
Proof. apply HF. by left. Qed.
#[local] Lemma F_len : F LengthError.
Proof. apply HF. by right. Qed.
#[local] Hint Resolve F_ctl F_len : core.

Definition op_ok (m : M (CW K) unit) (w : CW K) : Prop :=
  forall base, Inv base w -> wp F m (fun _ w' => Inv base w' /\ keeps w w') w.

(** Sequencing of operations that keep the invariant. *)
Lemma op_ok_ret w : op_ok (ret tt) w.
Proof. intros base Hi. wp_simpl. by split. Qed.

Lemma op_ok_bind (m : M (CW K) unit) (k : unit -> M (CW K) unit) w :
  op_ok m w -> (forall w', keeps w w' -> op_ok (k tt) w') -> op_ok (bind m k) w.
Proof.
  intros Hm Hk base Hi. rewrite wp_bind. wp_call Hm; [done|].
  intros [] w1 [Hi1 Hk1]. wp_call (Hk w1 Hk1); [done|]. intros _ w2 [Hi2 Hk2].
  split; [done|by etrans].
Qed.

Lemma op_ok_forM {A} (l : list A) (f : A -> M (CW K) unit) w :
  (forall a w', a ∈ l -> keeps w w' -> op_ok (f a) w') -> op_ok (forM l f) w.
Proof.
  revert w. induction l as [|a l IH]; intros w Hf; simpl; [apply op_ok_ret|].
  apply op_ok_bind; [apply Hf; [by left|done]|]. intros w1 Hk1. apply IH.
  intros b w' Hb Hk'. apply Hf; [by right|by etrans].
Qed.

(** The invariant only reads the mask of the channel. *)
Lemma Inv_chan base w c' l' :
  masked (events_ (ch w)) (ch w) c' -> quiet (sockfd_ (conn w)) (loop w) l' ->
  Inv base w -> Inv base (mkCW (set_channel c' (conn w)) l' (trace w)).
Proof.
  intros [He _] Hq Hi. apply (Inv_loop base w l' Hq) in Hi as [[] Hs].
  split; [|done]. constructor; simpl in *; try done; unfold Channel.isWriting in *; congruence.
Qed.

Lemma keeps_chan w c' l' e :
  masked e (ch w) c' -> quiet (sockfd_ (conn w)) (loop w) l' ->
  (Channel.has (events_ (ch w)) EPOLLOUT = true -> Channel.has e EPOLLOUT = true) ->
  keeps w (mkCW (set_channel c' (conn w)) l' (trace w)).
Proof.
  intros [He Hd] [] Hw. split; [by constructor|]. simpl. unfold Channel.isWriting.
  rewrite He. intros E. left. auto.
Qed.

Lemma Inv_mask base w c' l' e :
  masked e (ch w) c' -> quiet (sockfd_ (conn w)) (loop w) l' ->
  Channel.has e EPOLLOUT = Channel.has (events_ (ch w)) EPOLLOUT -> Channel.mask_ok e ->
  Inv base w -> Inv base (mkCW (set_channel c' (conn w)) l' (trace w)).
Proof.
  intros [He _] Hq Hout Hbit Hi. apply (Inv_loop base w l' Hq) in Hi as [[] Hs].
  split; [|done]. constructor; simpl in *; rewrite ?He; try done; unfold Channel.isWriting in *; congruence.
Qed.

(** Recording an observation that accepts no data and is no close. *)
Lemma Inv_record base w o :
  flushed o -> accepted [o] = [] -> closes [o] = O ->
  Inv base w -> Inv base (mkCW (conn w) (loop w) (trace w ++ [o])).
Proof.
  intros Hf Ha Hc [[] Hs].
  assert (accepted (trace w ++ [o]) = accepted (trace w)) as Hacc
    by (by rewrite accepted_app, Ha, app_nil_r).
  split; [|by simpl; rewrite Hacc]. constructor; simpl; try done.
  - apply Forall_app. split; [done|]. by constructor.
  - by rewrite closes_app, Hc, Nat.add_0_r.
  - by rewrite Hacc.
Qed.

Lemma keeps_record w o : keeps w (mkCW (conn w) (loop w) (trace w ++ [o])).
Proof. split; [by constructor|by left]. Qed.

(** A system call that does not write, then a continuation. *)
Lemma os_ok {A} (f : K -> A * K) (k : A -> M (CW K) unit) w :
  (forall kn, sent (f kn).2 (sockfd_ (conn w)) = sent kn (sockfd_ (conn w))) ->
  (forall a w', keeps w w' -> conn w' = conn w -> op_ok (k a) w') -> op_ok (bind (os f) k) w.
Proof.
  intros Hf Hk base Hi. cw_simpl. apply os_wp.
  set (l1 := set_kernel _ _).
  assert (quiet (sockfd_ (conn w)) (loop w) l1) as Hq by (apply quiet_kernel; apply Hf).
  wp_call Hk; [by apply (keeps_loop w l1)|done|by apply (Inv_loop base w l1)|].
  intros _ w2 [Hi2 Hk2]. split; [done|]. etrans; [|done]. by apply keeps_loop.
Qed.

Lemma shutdownInLoop_ok w : in_loop w -> op_ok shutdownInLoop w.
Proof.
  intros Hl base Hi. unfold shutdownInLoop. cw_simpl. apply assert_loop_wp; [done|].
  cw_simpl. destruct (_ && _)%bool eqn:E; [|done]. bool_solve. rewrite <- wp_bind.
  assert (Buffer.content (outb w) = []) as Hout.
  { apply (idle_nil base w); [apply Hi|]. by apply negb_true_iff. }
  apply (Inv_record base w (OShutdownWr (Buffer.content (outb w)))) in Hi; [|done..].
  pose proof (keeps_record w (OShutdownWr (Buffer.content (outb w)))) as Hk.
  wp_call os_ok; [| |exact Hi|].
  - intros kn. apply shutdown_sent.
  - intros [u|e] w1 _ _; [apply op_ok_ret|]. apply os_ok; [intros; apply log_sent|].
    intros. apply op_ok_ret.
  - intros _ w' [Hi' Hk']. split; [done|by etrans].
Qed.

(** *** Closing *)

(** What handleClose promises.  It needs less than the invariant: sendInLoop
    calls it when accepted bytes are already lost. *)
Definition close_ok (hc : M (CW K) unit) (w : CW K) : Prop :=
  st w <> kDisconnected -> in_loop w ->
  forall base, Inv0 base w ->
  wp F hc (fun _ w' => Inv base w' /\ keeps w w' /\ st w' = kDisconnected) w.

(** A state that leads to no further close. *)
Lemma close_ok_disc hc w : st w = kDisconnected -> close_ok hc w.
Proof. by intros Hd Hn. Qed.

Lemma close_ok_op hc w : close_ok hc w -> st w <> kDisconnected -> in_loop w -> op_ok hc w.
Proof.
  intros Hc Hs Hl base [Hi _]. wp_call Hc; [done..|]. by intros _ w' (? & ? & _).
Qed.

Lemma Inv0_weaken base w : Inv base w -> Inv0 base w.
Proof. by intros []. Qed.

Lemma st_cases base w :
  Inv0 base w -> st w <> kDisconnected -> st w = kConnected \/ st w = kDisconnecting.
Proof. intros [] Hd. destruct (st w); try done; auto. Qed.

(** The moves of handleClose before the user's callback. *)
Lemma Inv_closed base w c' l' :
  let w' := mkCW (set_channel c' (set_state kDisconnected (conn w))) l'
              (trace w ++ if closeCallback_ (conn w) then [OClose] else []) in
  Inv0 base w -> st w <> kDisconnected ->
  masked (events_ (ch w)) (ch w) c' -> quiet (sockfd_ (conn w)) (loop w) l' ->
  Inv base w' /\ keeps w w' /\ st w' = kDisconnected.
Proof.
  intros w' [] Hd [He Hm] []. subst w'. split_and!; [|split|done].
  - split; [|done].
    assert (accepted (trace w ++ if closeCallback_ (conn w) then [OClose] else [])
            = accepted (trace w)) as Hacc
      by (rewrite accepted_app; by destruct (closeCallback_ _); simpl; rewrite app_nil_r).
    constructor; simpl; unfold Channel.isWriting in *; try done; try congruence; auto.
    + apply Forall_app. split; [done|]. destruct (closeCallback_ _); by repeat constructor.
    + rewrite closes_app, inv_closes0, (bool_decide_eq_false_2 _ Hd), andb_false_r.
      by destruct (closeCallback_ _).
  - constructor; simpl; try done. by destruct (st w); simpl; lia.
  - intros _. by right.
Qed.

Lemma handleClose_with_ok user w :
  (forall w', keeps w w' -> st w' = kDisconnected -> op_ok user w') ->
  close_ok (handleClose_with user) w.
Proof.
  intros Hu Hd Hl base Hi. unfold handleClose_with. cw_simpl. apply assert_loop_wp; [done|].
  cw_simpl.
  assert (bool_decide (st w = kConnected) || bool_decide (st w = kDisconnecting) = true) as ->.
  { destruct (st_cases base w) as [-> | ->]; done. }
  cw_simpl. apply chan_remove_wp; [done|auto|]. simpl. intros c' l' Hm Hq Hp. cw_simpl. simpl.
  destruct (Inv_closed base w c' l' Hi Hd Hm Hq) as (Hi1 & Hk1 & Hd1).
  destruct (closeCallback_ (conn w)); simpl in *; cw_simpl.
  - wp_call Hu; [exact Hk1|done|exact Hi1|].
    intros _ w' [Hi' Hk']. split_and!; [done|by etrans|]. by destruct Hk'; eapply frame_disc.
  - rewrite app_nil_r in *. done.
Qed.

(** *** Sending *)

(** The invariant while [rest] is accepted but neither written nor buffered. *)
Definition Pend (base rest : list byte) w : Prop :=
  Inv0 base w
  /\ (st w <> kDisconnected ->
      sent (kernel (loop w)) (sockfd_ (conn w)) ++ Buffer.content (outb w) ++ rest
      = base ++ accepted (trace w)).

Lemma Pend_nil base w : Pend base [] w <-> Inv base w.
Proof. unfold Pend, Inv. by rewrite app_nil_r. Qed.

Lemma Pend_loop base rest w l' :
  quiet (sockfd_ (conn w)) (loop w) l' -> Pend base rest w ->
  Pend base rest (mkCW (conn w) l' (trace w)).
Proof.
  intros Hq [H0 Hs]. split; [by apply Inv0_loop|]. simpl. intros Hd.
  destruct Hq. rewrite q_sent0. by apply Hs.
Qed.

(** Recording what is accepted. *)
Lemma Pend_accept base w d :
  Inv base w -> Pend base d (mkCW (conn w) (loop w) (trace w ++ [OAccept d])).
Proof.
  intros [[] Hs].
  assert (accepted (trace w ++ [OAccept d]) = accepted (trace w) ++ d) as Hacc
    by (rewrite accepted_app; change (accepted [OAccept d]) with (d ++ []); by rewrite app_nil_r).
  split.
  - constructor; simpl; try done.
    + apply Forall_app. split; [done|]. by constructor.
    + by rewrite closes_app, Nat.add_0_r.
    + rewrite Hacc, app_assoc. by apply prefix_app_r.
  - simpl. intros Hd. rewrite Hacc, (app_assoc base), <- Hs, app_assoc; done.
Qed.

(** Buffering the rest restores the invariant, once EPOLLOUT is enabled. *)
Lemma Inv_buffered base w b c' l' rest :
  Pend base rest w -> rest <> [] -> Buffer.wf b ->
  Buffer.content b = Buffer.content (outb w) ++ rest ->
  masked (Channel.mask_enableWrite (events_ (ch w))) (ch w) c' ->
  quiet (sockfd_ (conn w)) (loop w) l' ->
  let w' := mkCW (set_channel c' (set_output b (conn w))) l' (trace w) in
  Inv base w' /\ keeps w w'.
Proof.
  intros Hp Hr Hb Hc [He Hm] Hq. apply (Pend_loop _ _ _ l' Hq) in Hp as [[] Hs].
  destruct Hq. simpl in *. split; [split|split].
  - constructor; simpl; try done.
    + unfold Channel.isWriting. rewrite He, Channel.isWriting_enableWrite, Hc.
      rewrite bool_decide_eq_false_2; [done|]. by intros [_ ?]%app_eq_nil.
    + rewrite He. by apply Channel.mask_ok_enableWrite.
  - simpl. intros Hd. by rewrite Hc, Hs.
  - by constructor.
  - simpl. left. unfold Channel.isWriting. by rewrite He, Channel.isWriting_enableWrite.
Qed.

Lemma keep_rest_wp base w rest (Q : unit -> CW K -> Prop) :
  in_loop w -> Pend base rest w -> rest <> [] -> zlen rest <= Buffer.max_size ->
  (forall w', Inv base w' -> keeps w w' -> Q tt w') ->
  wp F (on_output (Buffer.append rest)) (fun _ => wp F (on_chan ChannelOps.enableWrite) Q) w.
Proof.
  intros Hl Hp Hr Hlen HQ. pose proof Hp as [[] _]. unfold on_output.
  rewrite wp_zoom. wp_call Buffer.append_spec; [done|by right; auto|].
  intros [] b (Hb & Hc & _). apply chan_mask_wp; simpl; [done| |auto|].
  { by apply Channel.mask_ok_enableWrite. }
  intros c' l' Hm Hq _. destruct (Inv_buffered base w b c' l' rest) as [Hi Hk]; try done.
  by apply HQ.
Qed.

Lemma buffer_rest_wp base w data n remain (Q : unit -> CW K -> Prop) :
  in_loop w -> Pend base (zslice n remain data) w ->
  0 <= n -> 0 < remain -> n + remain = zlen data -> zlen data <= Buffer.max_size ->
  (forall w', Inv base w' -> keeps w w' -> Q tt w') ->
  wp F (buffer_rest data n remain) Q w.
Proof.
  intros Hl Hp Hn Hr Hlen Hmax HQ.
  assert (zlen (zslice n remain data) = remain) as Hz by (apply zlen_zslice; lia).
  assert (zslice n remain data <> []) as Hne by (intros E; rewrite E, zlen_nil in Hz; lia).
  unfold buffer_rest. cw_simpl.
  destruct (highWaterMarkCallback_ (conn w)); [|apply (keep_rest_wp base); (done || lia)].
  cw_simpl. destruct (_ && _); [|apply (keep_rest_wp base); (done || lia)].
  apply queue_wp; [by destruct Hp as [[] _]|done|]. intros l' Hq _. cw_simpl.
  apply (keep_rest_wp base); [|by apply Pend_loop|done|lia|].
  { by apply (frame_loop w); [apply (keeps_loop w)|]. }
  intros w' Hi Hk. apply HQ; [done|]. etrans; [|done]. by apply keeps_loop.
Qed.

(** A successful write moves a prefix of [rest] to the kernel. *)
Lemma Pend_written base rest w n k' :
  Pend base rest w -> Buffer.content (outb w) = [] -> st w <> kDisconnected ->
  sys_write (sockfd_ (conn w)) rest (kernel (loop w)) = (SysOk n, k') ->
  0 <= n <= zlen rest
  /\ Pend base (zdrop n rest) (mkCW (conn w) (set_kernel k' (loop w)) (trace w)).
Proof.
  intros [[] Hs] Hout Hd Hw. apply write_ok in Hw as [Hn Hw]. split; [done|].
  specialize (Hs Hd). rewrite Hout in Hs. simpl in Hs.
  assert (sent k' (sockfd_ (conn w)) ++ zdrop n rest = base ++ accepted (trace w)) as Hs'
    by (by rewrite Hw, <- app_assoc, ztake_zdrop).
  split; [|simpl; intros _; by rewrite Hout].
  constructor; simpl; try done. rewrite <- Hs'. by apply prefix_app_r.
Qed.

(** direct_write: nothing is lost unless the connection is closed. *)
Lemma direct_write_wp hc base w data (Q : Z * Z * bool -> CW K -> Prop) :
  (forall w', keeps w w' -> close_ok hc w') ->
  in_loop w -> st w <> kDisconnected -> Channel.isWriting (ch w) = false ->
  zlen data <= Buffer.max_size -> Pend base data w ->
  (forall n remain w', 0 <= n -> 0 <= remain -> n + remain = zlen data ->
     Pend base (zdrop n data) w' -> keeps w w' -> Q (n, remain, false) w') ->
  (forall n remain w', Inv base w' -> keeps w w' -> Q (n, remain, true) w') ->
  wp F (direct_write hc data) Q w.
Proof.
  intros Hc Hl Hd Hw Hmax Hp HQ HQc. pose proof Hp as [[] _]. pose proof (zlen_nonneg data).
  assert (Buffer.content (outb w) = []) as Hout.
  { by apply (idle_nil base w); [destruct Hp|]. }
  unfold direct_write. cw_simpl.
  rewrite (proj2 (Buffer.content_nil _ inv_out0) Hout). cw_simpl. apply os_wp.
  destruct (sys_write _ _ _) as [[n|e] k'] eqn:E; cbn [fst snd]; cw_simpl.
  - apply (Pend_written base) in E as [Hn Hp1]; try done.
    unfold Buffer.max_size in *. u64_tac. simpl.
    set (w1 := mkCW (conn w) (set_kernel k' (loop w)) (trace w)) in *.
    assert (keeps w w1) as Hk1 by (split; [by constructor|by left]).
    case_bool; cw_simpl; [|apply HQ; (done || lia)].
    apply queue_wp; [done|done|]. intros l' Hq _. cw_simpl.
    apply HQ; try lia; [by apply Pend_loop|]. etrans; [done|]. by apply keeps_loop.
  - pose proof E as Es. apply write_err in Es.
    assert (quiet (sockfd_ (conn w)) (loop w) (set_kernel k' (loop w))) as Hq
      by by apply quiet_kernel.
    set (w1 := mkCW (conn w) (set_kernel k' (loop w)) (trace w)) in *.
    assert (keeps w w1) as Hk1 by by apply keeps_loop.
    assert (Pend base data w1) as Hp1 by by apply Pend_loop.
    destruct (negb (e =? EAGAIN)); cw_simpl; [|by apply HQ; rewrite ?zdrop_0].
    apply os_wp. simpl.
    set (l2 := set_kernel _ _).
    assert (quiet (sockfd_ (conn w1)) (loop w1) l2) as Hq2 by (apply quiet_kernel, log_sent).
    assert (keeps w (mkCW (conn w) l2 (trace w))) as Hk2.
    { etrans; [exact Hk1|]. by apply (keeps_loop w1). }
    apply (Pend_loop _ _ _ _ Hq2) in Hp1. simpl in Hp1.
    case_bool; cw_simpl; [|by apply HQ; rewrite ?zdrop_0].
    wp_call Hc; [exact Hk2|done|by apply (frame_loop w); [apply Hk2|]|by destruct Hp1|].
    intros _ w' (Hi & Hk & _). cw_simpl. apply HQc; [done|by etrans].
Qed.

Lemma sendInLoop_ok hc w data :
  (forall w', keeps w w' -> close_ok hc w') ->
  in_loop w -> zlen data <= Buffer.max_size -> op_ok (sendInLoop hc data) w.
Proof.
  intros Hc Hl Hmax base Hi. unfold sendInLoop. cw_simpl. apply assert_loop_wp; [done|].
  cw_simpl. case_bool_decide as Hd; [by cw_simpl|]. cw_simpl.
  apply (Pend_accept _ _ data) in Hi. pose proof (keeps_record w (OAccept data)) as Hk1.
  set (w1 := mkCW _ _ _) in *. pose proof (zlen_nonneg data).
  change (ch w) with (ch w1).
  destruct (Channel.isWriting (ch w1)) eqn:Ew; cbn [negb]; cw_simpl.
  - destruct (_ && _) eqn:E; cw_simpl.
    + apply (buffer_rest_wp base); try done; try lia.
      { rewrite <- (ztake_zdrop (zlen data) data) in Hi at 1.
        by rewrite zdrop_all, app_nil_r in Hi by lia. }
      intros w' Hi' Hk'. split; [done|by etrans].
    + simpl in E. bool_solve. split; [|done]. apply Pend_nil.
      by rewrite (zlen_0_nil data) in Hi by lia.
  - apply (direct_write_wp hc base); try done.
    + intros w' Hk. apply Hc. by etrans.
    + intros n remain w' Hn Hr Hsum Hp Hk. cw_simpl. simpl. case_bool.
      * apply (buffer_rest_wp base); try done; try lia.
        { by apply (frame_loop w1); [apply Hk|]. }
        { unfold zslice. rewrite ztake_all; [done|]. rewrite zlen_zdrop; lia. }
        intros w2 Hi2 Hk2. split; [done|]. etrans; [done|by etrans].
      * split; [|by etrans]. apply Pend_nil. by rewrite zdrop_all in Hp by lia.
    + intros n remain w' Hi' Hk. cw_simpl. simpl. split; [done|by etrans].
Qed.

(** *** The calls of the interface *)

Lemma Inv_input base w b k' :
  Buffer.wf b -> sent k' (sockfd_ (conn w)) = sent (kernel (loop w)) (sockfd_ (conn w)) ->
  Inv base w -> Inv base (mkCW (set_input b (conn w)) (set_kernel k' (loop w)) (trace w)).
Proof.
  intros Hb Hs Hi. apply (Inv_loop base w (set_kernel k' (loop w))) in Hi as [[] Hi].
  - split; [|done]. by constructor.
  - by apply quiet_kernel.
Qed.

Lemma keeps_input w b k' :
  keeps w (mkCW (set_input b (conn w)) (set_kernel k' (loop w)) (trace w)).
Proof. split; [by constructor|by left]. Qed.

Lemma set_kernel_same {T} (l : Loop K T) : set_kernel (kernel l) l = l.
Proof. by destruct l. Qed.

(** An operation of the input buffer. *)
Lemma on_input_ok {A} (m : M Buffer A) (k : A -> M (CW K) unit) w :
  (Buffer.wf (inputBuffer_ (conn w)) -> wp F m (fun _ => Buffer.wf) (inputBuffer_ (conn w))) ->
  (forall a b, op_ok (k a) (mkCW (set_input b (conn w)) (loop w) (trace w))) ->
  op_ok (bind (on_input m) k) w.
Proof.
  intros Hm Hk base Hi. cw_simpl. unfold on_input. rewrite wp_zoom.
  wp_call Hm; [by destruct Hi as [[] _]|]. intros a b Hb.
  pose proof (Inv_input base w b (kernel (loop w)) Hb eq_refl Hi) as Hi1.
  pose proof (keeps_input w b (kernel (loop w))) as Hk1. rewrite set_kernel_same in *.
  wp_call Hk; [exact Hi1|]. intros _ w' [? ?]. split; [done|by etrans].
Qed.

Lemma retrieveAll_wf b : Buffer.wf b -> wp F Buffer.retrieveAll (fun _ => Buffer.wf) b.
Proof. intros Hb. wp_call Buffer.retrieveAll_spec; [done|]. by intros _ b' [? _]. Qed.

Lemma retrieveAllAsString_wf b :
  Buffer.wf b -> wp F Buffer.retrieveAllAsString (fun _ => Buffer.wf) b.
Proof. intros Hb. wp_call Buffer.retrieveAllAsString_spec; [done|]. by intros _ b' (_ & ? & _). Qed.

Lemma retrieve_wf n b :
  0 <= n -> (Buffer.readableBytes b < n -> F (AssertFailed "Buffer::retrieve")) -> Buffer.wf b ->
  wp F (Buffer.retrieve n) (fun _ => Buffer.wf) b.
Proof.
  intros Hn Hbad Hb. destruct (Z.le_gt_cases n (Buffer.readableBytes b)).
  - wp_call Buffer.retrieve_spec; [done|lia|]. by intros _ b' [? _].
  - unfold Buffer.retrieve. wp_simpl. rewrite (proj2 (Z.leb_gt _ _)) by lia. auto.
Qed.

Lemma bind_ret_op (m : M (CW K) unit) w : op_ok (m;;; ret tt) w -> op_ok m w.
Proof.
  intros Hm base Hi. specialize (Hm base Hi). rewrite wp_bind in Hm.
  eapply wp_mono; [exact Hm|]. by intros [] w'.
Qed.

Lemma input_size w base :
  Inv base w -> zlen (Buffer.content (inputBuffer_ (conn w))) <= Buffer.max_size.
Proof.
  intros [[] _]. rewrite Buffer.zlen_content, Buffer.readable_wf by done.
  destruct inv_in0. lia.
Qed.

Lemma send_ok hc w data :
  (forall w', keeps w w' -> close_ok hc w') ->
  zlen data <= Buffer.max_size -> op_ok (send hc data) w.
Proof.
  intros Hc Hmax base Hi. unfold send. cw_simpl. case_bool_decide; [|by cw_simpl].
  cw_simpl. apply in_loop_wp. destruct (isInLoopThread (loop w)) eqn:Hl.
  - by apply (sendInLoop_ok hc w data).
  - apply queue_wp; [by destruct Hi as [[] _]|done|]. intros l' Hq _.
    split; [by apply Inv_loop|by apply keeps_loop].
Qed.

Lemma send_input_ok hc w :
  (forall w', keeps w w' -> close_ok hc w') -> op_ok (send_input hc) w.
Proof.
  intros Hc base Hi. pose proof (input_size w base Hi) as Hmax.
  unfold send_input. cw_simpl. case_bool_decide; [|by cw_simpl].
  cw_simpl. apply in_loop_wp. destruct (isInLoopThread (loop w)) eqn:Hl; cw_simpl.
  - wp_call (sendInLoop_ok hc w); [done..|]. intros [] w1 [Hi1 Hk1].
    assert (op_ok (on_input Buffer.retrieveAll) w1) as Hr.
    { apply bind_ret_op, on_input_ok; [apply retrieveAll_wf|]. intros. apply op_ok_ret. }
    wp_call Hr; [done|]. intros _ w2 [? ?]. split; [done|by etrans].
  - unfold on_input. rewrite wp_zoom.
    wp_call Buffer.retrieveAllAsString_spec; [by destruct Hi as [[] _]|].
    intros str b (-> & Hb & _).
    pose proof (Inv_input base w b (kernel (loop w)) Hb eq_refl Hi) as Hi1.
    pose proof (keeps_input w b (kernel (loop w))) as Hk1. rewrite set_kernel_same in *.
    set (w1 := mkCW _ _ _) in *.
    apply queue_wp; [by destruct Hi1 as [[] _]|done|]. intros l' Hq _.
    split; [by apply (Inv_loop base w1)|]. etrans; [done|by apply (keeps_loop w1)].
Qed.

(** state_.exchange(kDisconnecting) on a connection that is not closed. *)
Lemma Inv_disconnecting base w :
  st w <> kDisconnected -> Inv base w ->
  let w' := mkCW (set_state kDisconnecting (conn w)) (loop w) (trace w) in
  Inv base w' /\ keeps w w'.
Proof.
  intros Hd [[] Hs]. split; [split|split].
  - constructor; simpl; try done.
    rewrite inv_closes0, (bool_decide_eq_false_2 _ Hd), andb_false_r.
    by destruct (closeCallback_ _).
  - simpl. intros _. by apply Hs.
  - constructor; simpl; try done. destruct (st w); simpl; try lia; done.
  - by left.
Qed.

Lemma shutdown_ok w :
  (st w = kDisconnected -> F (AssertFailed "TcpConnection::shutdown")) -> op_ok shutdown w.
Proof.
  intros Hbad base Hi. unfold shutdown, stateAtomicGetAndSet. cw_simpl.
  case_bool_decide as Hd; [by simpl; auto|]. cbn [negb]. cw_simpl.
  destruct (Inv_disconnecting base w Hd Hi) as [Hi1 Hk1]. set (w1 := mkCW _ _ _) in *.
  case_bool_decide; [|by split]. cw_simpl. apply in_loop_wp.
  destruct (isInLoopThread (loop w1)) eqn:Hl.
  - wp_call shutdownInLoop_ok; [done..|]. intros _ w2 [? ?]. split; [done|by etrans].
  - apply queue_wp; [by destruct Hi1 as [[] _]|done|]. intros l' Hq _.
    split; [by apply (Inv_loop base w1)|]. etrans; [done|by apply (keeps_loop w1)].
Qed.

Lemma forceCloseInLoop_ok hc w :
  close_ok hc w -> in_loop w -> op_ok (forceCloseInLoop hc) w.
Proof.
  intros Hc Hl base Hi. unfold forceCloseInLoop. cw_simpl. apply assert_loop_wp; [done|].
  cw_simpl. case_bool_decide; simpl; [done|]. by apply (close_ok_op hc w).
Qed.

Lemma forceClose_ok hc w : (forall w', keeps w w' -> close_ok hc w') -> op_ok (forceClose hc) w.
Proof.
  intros Hc base Hi. unfold forceClose, forceClose_exchange, stateAtomicGetAndSet. cw_simpl.
  case_bool_decide as Hd; simpl; [done|]. cw_simpl.
  destruct (Inv_disconnecting base w Hd Hi) as [Hi1 Hk1]. set (w1 := mkCW _ _ _) in *.
  apply in_loop_wp.
  destruct (isInLoopThread (loop w1)) eqn:Hl.
  - wp_call forceCloseInLoop_ok; [by apply Hc|done|exact Hi1|].
    intros _ w2 [? ?]. split; [done|by etrans].
  - apply queue_wp; [by destruct Hi1 as [[] _]|done|]. intros l' Hq _.
    split; [by apply (Inv_loop base w1)|]. etrans; [done|by apply (keeps_loop w1)].
Qed.

(** Mask changes that leave EPOLLOUT alone. *)
Lemma change_mask_ok f w :
  in_loop w -> (forall e, Channel.has (f e) EPOLLOUT = Channel.has e EPOLLOUT) ->
  (forall e, Channel.mask_ok e -> Channel.mask_ok (f e)) ->
  op_ok (on_chan (ChannelOps.change_mask f)) w.
Proof.
  intros Hl Hf Hb base Hi.
  assert (Channel.mask_ok (f (events_ (ch w)))) as Hbit by (apply Hb; apply Hi).
  apply chan_mask_wp; [done|apply Hbit|auto|]. intros c' l' Hm Hq _.
  split; [by eapply Inv_mask|]. eapply keeps_chan; [done|done|]. by rewrite Hf.
Qed.

Lemma stopReadInLoop_ok w : in_loop w -> op_ok stopReadInLoop w.
Proof.
  intros Hl base Hi. unfold stopReadInLoop. cw_simpl.
  destruct (isReading (conn w)); [|done]. apply change_mask_ok; [done| | |done].
  - apply Channel.isWriting_disableRead.
  - apply Channel.mask_ok_disableRead.
Qed.

Lemma startReadInLoop_ok w : in_loop w -> op_ok startReadInLoop w.
Proof.
  intros Hl base Hi. unfold startReadInLoop. cw_simpl.
  destruct (isReading (conn w)); [done|]. apply change_mask_ok; [done| | |done].
  - apply Channel.isWriting_enableRead.
  - intros e [_ He]. by apply Channel.mask_ok_enableRead.
Qed.

Lemma runInLoop_ok (f : ConnTask -> M (CW K) unit) t w :
  (in_loop w -> op_ok (f t) w) -> task_ok t -> op_ok (EventLoop.runInLoop f t) w.
Proof.
  intros Hf Ht base Hi. unfold EventLoop.runInLoop. cw_simpl. apply in_loop_wp.
  destruct (isInLoopThread (loop w)) eqn:Hl; [by apply Hf|].
  apply queue_wp; [by destruct Hi as [[] _]|done|]. intros l' Hq _.
  split; [by apply Inv_loop|by apply keeps_loop].
Qed.

(** The contract of a call, read off the connection: shutdown() before the
    close, retrieve() of bytes that are there. *)
Definition api_may (a : api) w : Prop :=
  api_ok a
  /\ match a with
     | AShutdown => st w = kDisconnected -> F (AssertFailed "TcpConnection::shutdown")
     | ARetrieve n =>
         Buffer.readableBytes (inputBuffer_ (conn w)) < n -> F (AssertFailed "Buffer::retrieve")
     | _ => True
     end.

Lemma allowed_may a w : api_allowed F a -> api_may a w.
Proof. intros [? ?]. split; [done|]. by destruct a. Qed.

Lemma run_api_ok hc a w :
  (forall w', keeps w w' -> close_ok hc w') -> api_may a w -> op_ok (run_api hc a) w.
Proof.
  intros Hc [Ha Hm]. destruct a; simpl in *.
  - by apply send_ok.
  - by apply send_input_ok.
  - by apply shutdown_ok.
  - by apply forceClose_ok.
  - apply runInLoop_ok; [apply stopReadInLoop_ok|done].
  - apply runInLoop_ok; [apply startReadInLoop_ok|done].
  - apply bind_ret_op, on_input_ok; [by apply retrieve_wf|]. intros. apply op_ok_ret.
  - apply on_input_ok; [apply retrieveAllAsString_wf|]. intros. apply op_ok_ret.
Qed.

(** *** Callbacks *)

Section callbacks.
Context (on_close : list api) (on_close_ok : Forall (api_allowed F) on_close).

(** One level of nesting is enough: a callback that runs after the close
    cannot close again. *)
Lemma handleClose_ok w : close_ok (handleClose on_close) w.
Proof.
  unfold handleClose. cbn [handleClose_depth].
  apply handleClose_with_ok. intros w1 Hk1 Hd1. apply op_ok_forM. intros a w2 Ha Hk2.
  apply run_api_ok; [|by apply allowed_may; eapply Forall_forall].
  intros w3 Hk3. apply close_ok_disc. eapply frame_disc; [apply Hk3|].
  by eapply frame_disc; [apply Hk2|].
Qed.

Lemma call_ok a w : api_may a w -> op_ok (call on_close a) w.
Proof. intros Ha. apply run_api_ok; [|done]. intros w' _. apply handleClose_ok. Qed.

Lemma calls_ok l w : Forall (api_allowed F) l -> op_ok (forM l (call on_close)) w.
Proof.
  intros Hl. apply op_ok_forM. intros a w' Ha _. apply call_ok, allowed_may. by eapply Forall_forall.
Qed.

(** A connection that is closed cannot be closed again: the assert fails. *)
Lemma handleClose_closed w Q :
  st w = kDisconnected -> in_loop w -> F (AssertFailed "TcpConnection::handleClose") ->
  wp F (handleClose on_close) Q w.
Proof.
  intros Hd Hl Hf. unfold handleClose. cbn [handleClose_depth]. unfold handleClose_with.
  rewrite wp_bind. apply assert_loop_wp; [exact Hl|]. cw_simpl. by rewrite Hd.
Qed.

Lemma handleError_closed w Q :
  st w = kDisconnected -> in_loop w -> F (AssertFailed "TcpConnection::handleClose") ->
  wp F (handleError on_close) Q w.
Proof.
  intros Hd Hl Hf. unfold handleError, handleError_with. rewrite wp_bind.
  apply assert_loop_wp; [exact Hl|]. cw_simpl. apply os_wp. cw_simpl. apply os_wp.
  by apply handleClose_closed.
Qed.

Lemma handleError_ok w :
  st w <> kDisconnected -> in_loop w -> op_ok (handleError on_close) w.
Proof.
  intros Hd Hl base Hi. unfold handleError, handleError_with. rewrite wp_bind.
  apply assert_loop_wp; [done|]. rewrite wp_bind, wp_gets. revert base Hi.
  apply os_ok; [intros; apply so_error_sent|]. intros r w1 Hk1 Hc1.
  apply os_ok; [intros; apply log_sent|]. intros e w2 Hk2 Hc2.
  apply close_ok_op; [apply handleClose_ok|congruence|].
  apply (frame_loop w1); [apply Hk2|]. apply (frame_loop w); [apply Hk1|done].
Qed.

Context (on_message : list api) (on_message_ok : Forall (api_allowed F) on_message).
Context `{!ReadvLaws K}.

Lemma handleRead_ok w : in_loop w -> op_ok (handleRead on_close on_message) w.
Proof.
  intros Hl base Hi. unfold handleRead. cw_simpl. apply assert_loop_wp; [done|]. cw_simpl.
  case_bool_decide as Hd; [done|]. cw_simpl. unfold on_input_kernel. rewrite wp_zoom.
  wp_call Buffer.readFd_spec; [by destruct Hi as [[] _]|right; split; [|auto]|].
  { done. }
  intros r [b k']. pose proof (readv_sent (sockfd_ (conn w))
    (Buffer.readFd_lens (inputBuffer_ (conn w))) (kernel (loop w)) (sockfd_ (conn w))) as Hs.
  destruct (sys_readv _ _ _) as [[d|e] k1]; simpl in *.
  - intros (-> & -> & Hb & _). cw_simpl.
    pose proof (Inv_input base w b k1 Hb Hs Hi) as Hi1.
    pose proof (keeps_input w b k1) as Hk1. set (w1 := mkCW _ _ _) in *.
    case_bool.
    + wp_call (close_ok_op (handleClose on_close) w1);
        [apply handleClose_ok|done|done|exact Hi1|].
      intros _ w2 [? ?]. split; [done|by etrans].
    + cw_simpl. destruct (messageCallback_ _); [|by split]. cw_simpl.
      set (o := OMessage _).
      apply (Inv_record base w1 o) in Hi1; try done.
      wp_call calls_ok; [done|exact Hi1|]. intros _ w2 [? ?]. split; [done|].
      etrans; [done|]. etrans; [apply (keeps_record w1 o)|done].
  - intros [-> [= -> ->]]. cw_simpl.
    assert (Buffer.wf (inputBuffer_ (conn w))) as Hb by by destruct Hi as [[] _].
    pose proof (Inv_input base w _ k1 Hb Hs Hi) as Hi1.
    pose proof (keeps_input w (inputBuffer_ (conn w)) k1) as Hk1.
    set (w1 := mkCW _ _ _) in *. rewrite <- wp_bind.
    wp_call (os_ok (errno_after_log e) (fun _ => handleError on_close) w1);
      [intros; apply log_sent| |exact Hi1|].
    + intros _ w2 Hk2 Hc2. apply handleError_ok; [by rewrite Hc2|].
      apply (frame_loop w1); [apply Hk2|done].
    + intros _ w2 [? ?]. split; [done|by etrans].
Qed.

Lemma shutdownInLoop_conn w :
  in_loop w -> wp F shutdownInLoop (fun _ w' => conn w' = conn w) w.
Proof.
  intros Hl. unfold shutdownInLoop. cw_simpl. apply assert_loop_wp; [done|]. cw_simpl.
  case_bool; [|done]. cw_simpl. apply os_wp.
  destruct (sys_shutdown_wr _ _).1; cw_simpl; [done|]. by apply os_wp.
Qed.

(** The effect of a successful write on the output. *)
Definition drains w w' : Prop :=
  match (sys_write (sockfd_ (conn w)) (Buffer.content (outb w)) (kernel (loop w))).1 with
  | SysOk n => Buffer.content (outb w') = zdrop n (Buffer.content (outb w)) /\ st w' = st w
  | SysErr _ => True
  end.

(** After a write that left something: the invariant as it is. *)
Lemma Inv_written base w n k' b :
  Inv base w -> st w <> kDisconnected ->
  sys_write (sockfd_ (conn w)) (Buffer.content (outb w)) (kernel (loop w)) = (SysOk n, k') ->
  Buffer.wf b -> Buffer.content b = zdrop n (Buffer.content (outb w)) ->
  let w' := mkCW (set_output b (conn w)) (set_kernel k' (loop w)) (trace w) in
  (Channel.isWriting (ch w) = true -> Buffer.content b <> [] -> Inv base w') /\
  frame w w' /\
  (Buffer.content b = [] -> forall c' l',
     masked (Channel.mask_disableWrite (events_ (ch w))) (ch w) c' ->
     quiet (sockfd_ (conn w)) (loop w') l' ->
     let w2 := mkCW (set_channel c' (conn w')) l' (trace w) in Inv base w2 /\ frame w w2).
Proof.
  intros [[] Hs] Hd Hw Hb Hc w'. apply write_ok in Hw as [Hn Hw]. specialize (Hs Hd).
  assert (sent k' (sockfd_ (conn w)) ++ Buffer.content b = base ++ accepted (trace w)) as Hs'
    by (by rewrite Hw, Hc, <- app_assoc, ztake_zdrop).
  split_and!.
  - intros Hwr Hne. split; [|done]. constructor; simpl; try done.
    + by rewrite Hwr, bool_decide_eq_false_2.
    + rewrite <- Hs'. by apply prefix_app_r.
  - by constructor.
  - intros Hnil c' l' [He Hm] []. simpl in *. split; [split|by constructor].
    + constructor; simpl; try done; try congruence; auto.
      * unfold Channel.isWriting. by rewrite He, Channel.isWriting_disableWrite, Hnil.
      * rewrite He. by apply Channel.mask_ok_disableWrite.
      * rewrite q_sent0, <- Hs'. by apply prefix_app_r.
    + simpl. by rewrite q_sent0.
Qed.

(** What handleWrite does once the output is empty. *)
Lemma write_done_ok base w :
  in_loop w -> Inv base w ->
  wp F (st <- get_state;; when (bool_decide (st = kDisconnecting)) shutdownInLoop;;;
        wcc <- gets (fun w => writeCompleteCallback_ (conn w));;
        when wcc (on_loop (EventLoop.queueInLoop TWriteComplete)))
    (fun _ w' => Inv base w' /\ keeps w w' /\ conn w' = conn w) w.
Proof.
  intros Hl Hi. unfold get_state. rewrite wp_bind, wp_gets, wp_bind.
  apply (wp_mono _ _ (fun _ w' => (Inv base w' /\ keeps w w') /\ conn w' = conn w)).
  - rewrite wp_when. case_bool; [|done].
    apply wp_and; [by apply shutdownInLoop_ok|by apply shutdownInLoop_conn].
  - intros _ w' [[Hi' Hk'] Hc']. cw_simpl. case_bool; [|by split_and!].
    apply queue_wp; [by destruct Hi' as [[] _]|done|]. intros l' Hq _.
    split_and!; [by apply Inv_loop| |done]. etrans; [done|by apply keeps_loop].
Qed.

(** EPOLLOUT is dispatched only while it is watched: the precondition. *)
Lemma handleWrite_ok base w :
  in_loop w -> Channel.isWriting (ch w) = true \/ st w = kDisconnected -> Inv base w ->
  wp F (handleWrite on_close)
    (fun _ w' => Inv base w' /\ frame w w' /\ (st w <> kDisconnected -> drains w w')) w.
Proof.
  intros Hl Hwd Hi. unfold handleWrite. cw_simpl. apply assert_loop_wp; [done|]. cw_simpl.
  case_bool_decide as Hd; [by split_and!|]. cw_simpl. destruct Hwd as [Hw|]; [|done].
  pose proof (busy_cons base w (proj1 Hi) Hw) as Hne.
  assert (Buffer.wf (outb w)) as Hwf by by destruct Hi as [[] _].
  assert (0 < Buffer.readableBytes (outb w)) as Hpos.
  { rewrite <- Buffer.zlen_content by done. pose proof (zlen_nonneg (Buffer.content (outb w))).
    destruct (decide (zlen (Buffer.content (outb w)) = 0)) as [E|]; [|lia].
    by apply zlen_0_nil in E. }
  rewrite (proj2 (Z.ltb_lt _ _) Hpos). cw_simpl. rewrite Hw. cw_simpl. apply os_wp.
  unfold drains. destruct (sys_write _ _ _) as [[n|e] k'] eqn:E; cbn [fst snd]; cw_simpl.
  - pose proof E as En. apply write_ok in En as [Hn _]. rewrite Buffer.zlen_content in Hn by done.
    unfold on_output. rewrite wp_zoom. wp_call Buffer.retrieve_spec; [done|simpl; lia|].
    intros _ b (Hb & Hc & _). cw_simpl. simpl in *.
    destruct (Inv_written base w n k' b) as (Hsome & Hfr & Hnone); try done.
    case_bool.
    + apply Buffer.content_nil in E0; [|done]. cw_simpl.
      apply chan_mask_wp; simpl; [done| |auto|].
      { apply Channel.mask_ok_disableWrite. by destruct Hi as [[] _]. }
      intros c' l' Hm Hq _. destruct (Hnone E0 c' l' Hm Hq) as [Hi2 Hf2]. simpl in *.
      wp_call write_done_ok; [by apply (frame_loop w)|exact Hi2|].
      intros _ w' (Hi' & [Hf' _] & Hcn). split_and!; [done|by etrans|].
      intros _. by rewrite Hcn.
    + split_and!; [|done|done]. apply Hsome; [done|].
      by rewrite <- Buffer.content_nil.
  - pose proof E as Es. apply write_err in Es.
    assert (quiet (sockfd_ (conn w)) (loop w) (set_kernel k' (loop w))) as Hq
      by by apply quiet_kernel.
    pose proof (Inv_loop base w _ Hq Hi) as Hi1. pose proof (keeps_loop w _ Hq) as [Hf1 _].
    set (w1 := mkCW _ _ _) in *.
    case_bool; [|by split_and!]. rewrite <- wp_bind.
    wp_call (os_ok (errno_after_log e)
               (fun _ => when ((e =? EPIPE) || (e =? ECONNRESET)) (handleError on_close)) w1);
      [intros; apply log_sent| |exact Hi1|].
    + intros _ w2 [Hf2 _] Hc2. unfold when. case_bool; [|apply op_ok_ret].
      apply handleError_ok; [by rewrite Hc2|]. by apply (frame_loop w1).
    + intros _ w' [Hi' [Hf' _]]. split_and!; [done|by etrans|done].
Qed.

Lemma run_task_ok t w :
  in_loop w -> task_ok t -> op_ok (run_task on_close on_message t) w.
Proof.
  intros Hl Ht. destruct t; simpl.
  - apply sendInLoop_ok; [|done..]. intros w' _. apply handleClose_ok.
  - by apply shutdownInLoop_ok.
  - apply forceCloseInLoop_ok; [apply handleClose_ok|done].
  - by apply calls_ok.
  - by apply calls_ok.
  - by apply stopReadInLoop_ok.
  - by apply startReadInLoop_ok.
Qed.

(** Taking the first task out of the queue. *)
Lemma Inv_pop base w t ts :
  pendingTasks_ (loop w) = t :: ts -> Inv base w ->
  task_ok t /\ Inv base (mkCW (conn w) (set_pending ts (loop w)) (trace w))
  /\ keeps w (mkCW (conn w) (set_pending ts (loop w)) (trace w)).
Proof.
  intros Hp [[] Hs]. rewrite Hp in inv_tasks0. apply Forall_cons in inv_tasks0 as [Ht Hts].
  split_and!; [done| |split; [by constructor|by left]]. split; [by constructor|done].
Qed.

Lemma run_next_ok w : in_loop w -> op_ok (run_next on_close on_message) w.
Proof.
  intros Hl base Hi. unfold run_next. cw_simpl. rewrite wp_on_loop, wp_gets.
  assert (put_loop (get_loop w) w = w) as -> by (by destruct w). simpl.
  destruct (pendingTasks_ (loop w)) as [|t ts] eqn:Hp; cw_simpl; [done|].
  rewrite wp_on_loop, wp_modify. simpl.
  destruct (Inv_pop base w t ts Hp Hi) as (Ht & Hi1 & Hk1). set (w1 := mkCW _ _ _) in *.
  wp_call run_task_ok; [by apply (frame_loop w); [apply Hk1|]|done|exact Hi1|].
  intros _ w' [? ?]. split; [done|by etrans].
Qed.

(** *** Dispatch *)

(** The callbacks that the constructor installs. *)
Definition installed (c : Channel ConnCb) : Prop :=
  readCallback_ c = Some CbRead /\ writeCallback_ c = Some CbWrite
  /\ Channel.closeCallback_ c = Some CbClose /\ errorCallback_ c = Some CbError.

(** EPOLLOUT comes only while it is watched, or for a connection that another
    callback of the same turn has closed. *)
Definition events_ok (r : Z) w : Prop :=
  Channel.wants_write r = true -> Channel.isWriting (ch w) = true \/ st w = kDisconnected.

(** The events for which handleClose runs on a closed connection: a hang-up with
    an error, or either of them once the connection is closed. *)
Definition closes_twice (r : Z) w : bool :=
  if bool_decide (st w = kDisconnected)
  then Channel.wants_close r || Channel.wants_error r
  else Channel.wants_close r && Channel.wants_error r.

Abbreviation run_cb := (run_callback (K:=K) on_close on_message).
Abbreviation call_cb := (ChannelOps.call_if (S:=CW K) get_chan run_cb).

Lemma call_if_wp (cond : Z -> bool) (sel : Channel ConnCb -> option ConnCb) cb w (Q : unit -> CW K -> Prop) :
  sel (ch w) = Some cb ->
  (if cond (revents_ (ch w)) then wp F (run_cb cb) Q w else Q tt w) ->
  wp F (call_cb cond sel) Q w.
Proof.
  intros Hs HQ. unfold ChannelOps.call_if, get_chan. cw_simpl. rewrite Hs. by case_bool.
Qed.

Lemma frame_installed w w' : frame w w' -> installed (ch w) -> installed (ch w').
Proof.
  intros [] (? & ? & ? & ?). destruct fr_chan0 as (_ & ? & ? & ? & ? & _).
  repeat split; congruence.
Qed.

Lemma frame_revents w w' : frame w w' -> revents_ (ch w') = revents_ (ch w).
Proof. intros []. by destruct fr_chan0. Qed.

(** The close and the error callback: if both run, or one of them on a closed
    connection, the assert of handleClose fails. *)
Lemma close_error_ok base w :
  in_loop w -> installed (ch w) -> Inv base w ->
  (closes_twice (revents_ (ch w)) w = true -> F (AssertFailed "TcpConnection::handleClose")) ->
  wp F (call_cb Channel.wants_close Channel.closeCallback_;;;
        call_cb Channel.wants_error errorCallback_)
    (fun _ w' => closes_twice (revents_ (ch w)) w = false /\ Inv base w' /\ keeps w w') w.
Proof.
  intros Hl Hin Hi Hbad. rewrite wp_bind. pose proof Hin as (H1 & H2 & H3 & H4).
  unfold closes_twice in *. apply (call_if_wp _ _ CbClose); [done|].
  destruct (Channel.wants_close (revents_ (ch w))) eqn:Ec; simpl in *.
  - case_bool_decide as Hd; [apply handleClose_closed; auto|].
    wp_call (handleClose_ok w); [done|done|by apply Inv0_weaken|].
    intros _ w1 (Hi1 & Hk1 & Hd1). pose proof Hk1 as [Hf1 _].
    apply (call_if_wp _ _ CbError); [by apply (frame_installed w w1)|].
    rewrite (frame_revents w w1) by done.
    destruct (Channel.wants_error _); [|done].
    apply handleError_closed; [done|by apply (frame_loop w)|auto].
  - apply (call_if_wp _ _ CbError); [done|].
    destruct (Channel.wants_error _); [|by case_bool_decide].
    case_bool_decide as Hd; [apply handleError_closed; auto|].
    wp_call handleError_ok; [done|done|exact Hi|]. intros _ w1 [? ?]. by split_and!.
Qed.

Lemma read_write_ok base w :
  in_loop w -> installed (ch w) -> Inv base w ->
  (Channel.wants_write (revents_ (ch w)) = true ->
   Channel.isWriting (ch w) = true \/ st w = kDisconnected) ->
  wp F (call_cb Channel.wants_read readCallback_;;;
        call_cb Channel.wants_write writeCallback_)
    (fun _ w' => Inv base w' /\ frame w w') w.
Proof.
  intros Hl Hin Hi Hw. rewrite wp_bind.
  apply (wp_mono _ _ (fun _ w' => Inv base w' /\ keeps w w')).
  - apply (call_if_wp _ _ CbRead); [by destruct Hin|]. case_bool; [|done].
    by apply handleRead_ok.
  - intros _ w1 [Hi1 [Hf1 Hk1]].
    apply (call_if_wp _ _ CbWrite); [by apply (frame_installed w w1)|].
    rewrite (frame_revents w w1) by done. case_bool; [|done].
    wp_call handleWrite_ok; [by apply (frame_loop w)| |exact Hi1|].
    + destruct (Hw eq_refl) as [?|?]; [by apply Hk1|]. right. by apply (frame_disc w).
    + intros _ w2 (? & ? & _). split; [done|by etrans].
Qed.

(** What holds across a dispatch, which changes the events of the channel. *)
Record later (w w' : CW K) : Prop := mkLater {
  lt_tid : tid_ (loop w') = tid_ (loop w);
  lt_cur : current_tid (loop w') = current_tid (loop w);
  lt_fd : sockfd_ (conn w') = sockfd_ (conn w);
  lt_chan : installed (ch w) -> installed (ch w');
  lt_tied : is_Some (tie_ (ch w)) -> is_Some (tie_ (ch w'));
  lt_close : closeCallback_ (conn w') = closeCallback_ (conn w);
  lt_rank : (rank (st w) <= rank (st w'))%nat
}.

#[export] Instance later_preorder : PreOrder later.
Proof.
  split; [by intros w; constructor|].
  intros w1 w2 w3 [] []. constructor; try congruence; [auto..|lia].
Qed.

Lemma frame_later w w' : frame w w' -> later w w'.
Proof.
  intros Hf. pose proof (frame_installed w w' Hf). destruct Hf. constructor; try done.
  by destruct fr_chan0 as (_ & _ & _ & _ & _ & _ & ->).
Qed.

(** Changes of the channel that leave its mask alone. *)
Lemma Inv_events base w c' :
  events_ c' = events_ (ch w) -> Inv base w -> Inv base (put_chan c' w).
Proof.
  intros He [[] Hs]. split; [|done].
  constructor; simpl; try done; unfold Channel.isWriting in *; congruence.
Qed.

Lemma guard_ok base w :
  in_loop w -> installed (ch w) -> events_ok (revents_ (ch w)) w -> Inv base w ->
  (closes_twice (revents_ (ch w)) w = true -> F (AssertFailed "TcpConnection::handleClose")) ->
  wp F (ChannelOps.handleEventWithGuard get_chan put_chan run_cb)
    (fun _ w' => closes_twice (revents_ (ch w)) w = false /\ Inv base w' /\ later w w') w.
Proof.
  intros Hl Hin Hev Hi Hbad.
  unfold ChannelOps.handleEventWithGuard. rewrite wp_bind, wp_modify. set (w2 := put_chan _ w).
  assert (Inv base w2) as Hi2 by by apply Inv_events.
  assert (later w w2) as Hk2 by by constructor.
  pose proof (close_error_ok base w2 Hl Hin Hi2 Hbad) as Hce. rewrite wp_bind in Hce.
  rewrite wp_bind. eapply wp_mono; [exact Hce|]. clear Hce. intros [] w3 Hce. cbn beta in Hce.
  rewrite wp_bind. eapply wp_mono; [exact Hce|]. clear Hce. intros _ w4 (Hb & Hi4 & [Hf4 Hk4]).
  assert (wp F (call_cb Channel.wants_read readCallback_;;;
                call_cb Channel.wants_write writeCallback_)
            (fun _ w' => Inv base w' /\ frame w4 w') w4) as Hrw.
  { apply read_write_ok; [by apply (frame_loop w2)|by apply (frame_installed w2)|done|].
    rewrite (frame_revents w2) by done. intros Hw.
    destruct (Hev Hw) as [?|?]; [by apply Hk4|]. right. by apply (frame_disc w2). }
  rewrite wp_bind in Hrw. rewrite wp_bind. eapply wp_mono; [exact Hrw|].
  clear Hrw. intros [] w5 Hrw. cbn beta in Hrw.
  rewrite wp_bind. eapply wp_mono; [exact Hrw|]. clear Hrw. intros _ w6 [Hi6 Hf6].
  rewrite wp_modify. split; [exact Hb|]. split; [by apply Inv_events|].
  etrans; [exact Hk2|]. etrans; [by apply frame_later|].
  etrans; [by apply (frame_later w4 w6)|]. by constructor.
Qed.

Lemma dispatch_ok base r w :
  in_loop w -> installed (ch w) -> is_Some (tie_ (ch w)) -> events_ok r w -> Inv base w ->
  (closes_twice r w = true -> F (AssertFailed "TcpConnection::handleClose")) ->
  wp F (dispatch on_close on_message r)
    (fun _ w' => closes_twice r w = false /\ Inv base w' /\ later w w') w.
Proof.
  intros Hl Hin Htie Hev Hi Hbad. unfold dispatch. cw_simpl.
  set (w1 := put_chan _ w).
  assert (Inv base w1) as Hi1 by by apply Inv_events.
  assert (later w w1) as Hk1 by by constructor.
  assert (wp F (ChannelOps.handleEventWithGuard get_chan put_chan run_cb)
            (fun _ w' => closes_twice r w = false /\ Inv base w' /\ later w w') w1) as Hg.
  { wp_call (guard_ok base w1); [done..|]. intros _ w' (? & ? & ?).
    split_and!; [done|done|by etrans]. }
  unfold ChannelOps.handleEvents. cw_simpl. apply assert_loop_wp; [done|]. cw_simpl.
  change (get_chan w1) with (Channel.setRevents r (ch w)). simpl.
  case_bool; [|done]. cw_simpl. by destruct Htie as [o ->].
Qed.
End callbacks.
End operations.
End invariant.
