(* ===== verification/TcpConnectionRuns.v ===== *)
(** * TcpConnection: runs

    A run starts with connectEstablished and goes on with events: a dispatch
    of what epoll_wait returned, a queued task, or a call of the interface from
    the loop's thread or from another one.  [reach] is reachability by such
    events; the properties are invariants of it. *)

From S2P Require Import Prelude Posix Buffer InetAddress Channel Epoll EventLoop TcpConnection TcpConnectionSpec.
Import TcpConnection.

#[local] Arguments Z.testbit : simpl never.

(** [user]: what the user's callback does, if the event runs one. *)
Inductive event : Type :=
| EvDispatch (revents : Z) (user : list api)
| EvTask (user : list api)
| EvCall (a : api)
| EvRemote (thread : Z) (a : api).

Definition api_okb (a : api) : bool :=
  match a with
  | ASend d => zlen d <=? Buffer.max_size
  | ARetrieve n => 0 <=? n
  | _ => true
  end.

Lemma api_okb_ok a : api_okb a = true -> api_ok a.
Proof. destruct a; simpl; try done; apply Z.leb_le. Qed.

Lemma apis_okb_ok l : forallb api_okb l = true -> Forall api_ok l.
Proof.
  intros Hl. apply Forall_forall. intros a Ha. apply api_okb_ok.
  rewrite forallb_forall in Hl. apply Hl. by apply list_elem_of_In.
Qed.

Section runs.
Context {K : Type} `{Posix K}.
Variable on_close : list api.

Definition run_event (e : event) : M (CW K) unit :=
  match e with
  | EvDispatch r user => dispatch on_close user r
  | EvTask user => run_next on_close user
  | EvCall a => call on_close a
  | EvRemote t a => remote_call on_close t a
  end.

(** What the environment does: [events_ok] for the poller, sizes that a string
    can have for the user, and remote calls come from another thread.  Hang-ups
    and errors are reported in any combination and at any time, also for a
    connection that is closed. *)
Definition enabled (e : event) (w : CW K) : bool :=
  match e with
  | EvDispatch r user =>
      (negb (Channel.wants_write r) || Channel.isWriting (channel_ (conn w))
       || bool_decide (state_ (conn w) = kDisconnected))
      && forallb api_okb user
  | EvTask user => forallb api_okb user
  | EvCall a => api_okb a
  | EvRemote t a => api_okb a && negb (t =? tid_ (loop w))
  end.

Inductive reach (w0 : CW K) : CW K -> Prop :=
| reach_start self w :
    connectEstablished self w0 = Ok (tt, w) -> reach w0 w
| reach_event e w w' :
    reach w0 w -> enabled e w = true -> run_event e w = Ok (tt, w') -> reach w0 w'.

(** Runs as lists of events. *)
Fixpoint play (es : list event) (w : CW K) : option (CW K) :=
  match es with
  | [] => Some w
  | e :: es' =>
      if enabled e w then
        match run_event e w with
        | Ok (_, w') => play es' w'
        | Err _ => None
        end
      else None
  end.

Definition start_play (es : list event) (w0 : CW K) : option (CW K) :=
  match connectEstablished 1 w0 with
  | Ok (_, w) => play es w
  | Err _ => None
  end.

Lemma play_reach es w0 w w' : reach w0 w -> play es w = Some w' -> reach w0 w'.
Proof.
  revert w. induction es as [|e es IH]; simpl; intros w Hr; [by intros [= <-]|].
  destruct (enabled e w) eqn:E; [|done].
  destruct (run_event e w) as [[[] w1]|] eqn:Er; [|done].
  apply IH. by eapply reach_event.
Qed.

Lemma start_play_reach es w0 w : start_play es w0 = Some w -> reach w0 w.
Proof.
  unfold start_play. destruct (connectEstablished 1 w0) as [[[] w1]|] eqn:E; [|done].
  apply play_reach. by eapply reach_start.
Qed.
End runs.

(** A connection as its constructor leaves it, on the thread of its loop. *)
Record fresh {K} (w : CW K) : Prop := mkFresh {
  fresh_state : state_ (conn w) = kConnecting;
  fresh_installed : installed (channel_ (conn w));
  fresh_events : events_ (channel_ (conn w)) = 0;
  fresh_in : Buffer.wf (inputBuffer_ (conn w));
  fresh_out : Buffer.wf (outputBuffer_ (conn w));
  fresh_empty : Buffer.content (outputBuffer_ (conn w)) = [];
  fresh_wake : wakeupfd_ (loop w) <> sockfd_ (conn w);
  fresh_thread : isInLoopThread (loop w) = true;
  fresh_tasks : pendingTasks_ (loop w) = [];
  fresh_trace : trace w = []
}.

Lemma new_fresh {K} addr fd local peer b (l : Loop K ConnTask) :
  Buffer.new_Buffer Buffer.kInitialSize = Ok b -> wakeupfd_ l <> fd -> isInLoopThread l = true ->
  pendingTasks_ l = [] -> fresh (mkCW (new addr fd local peer b) l []).
Proof.
  intros Hb ? ? ?. destruct (Buffer.new_Buffer_spec Buffer.kInitialSize) as (b' & Hb' & Hwf & Hc & _).
  - by vm_compute.
  - by vm_compute.
  - rewrite Hb in Hb'. injection Hb' as <-. by constructor.
Qed.

(** ** The invariant of runs *)

Section invariant.
Context {K : Type} `{Posix K} `{!SocketLaws K} `{!ReadvLaws K}.
Implicit Types w : CW K.

(** The bytes that the connection's descriptor has accepted. *)
Definition sent_by w : list byte := sent (kernel (loop w)) (sockfd_ (conn w)).

Record RInv (base : list byte) w : Prop := mkRInv {
  r_inv : Inv base w;
  r_thread : isInLoopThread (loop w) = true;
  r_installed : installed (channel_ (conn w));
  r_tied : is_Some (tie_ (channel_ (conn w)))
}.

Lemma RInv_later base w w' : RInv base w -> Inv base w' -> later w w' -> RInv base w'.
Proof.
  intros [] Hi []. constructor; [done| |auto..]. unfold isInLoopThread in *. congruence.
Qed.

Lemma connectEstablished_ok self w :
  fresh w ->
  wp conn_fault (connectEstablished self)
    (fun _ w' => RInv (sent_by w) w' /\ later w w') w.
Proof.
  intros []. unfold connectEstablished. cw_simpl. rewrite bool_decide_eq_true_2 by done.
  cw_simpl. simpl. set (c1 := set_channel _ _).
  apply chan_mask_wp; simpl; [done|by rewrite fresh_events0|by left; left|].
  intros c' l' [He Hd] [] Hp. rewrite fresh_events0 in He.
  assert (installed (channel_ (conn w)) -> installed c') as Hin.
  { intros (? & ? & ? & ?). destruct Hd as (_ & ? & ? & ? & ? & _). simpl in *.
    repeat split; congruence. }
  assert (is_Some (tie_ c')) as Htie by (destruct Hd as (_ & _ & _ & _ & _ & _ & ->); done).
  split.
  - constructor; [split| |by apply Hin|done]; simpl.
    + constructor; simpl; try done.
      * congruence.
      * unfold Channel.isWriting. by rewrite He, fresh_empty0.
      * by rewrite He.
      * by rewrite fresh_trace0.
      * by rewrite fresh_trace0, andb_false_r.
      * rewrite fresh_trace0, q_sent. simpl. by rewrite app_nil_r.
      * by rewrite Hp, fresh_tasks0.
    + intros _. by rewrite fresh_trace0, q_sent, fresh_empty0.
    + unfold isInLoopThread in *. congruence.
  - constructor; simpl; try done. rewrite fresh_state0. simpl. lia.
Qed.

Context (on_close : list api) (on_close_ok : forallb api_okb on_close = true).

(** The asserts that the calls [l] of the user's callbacks can break: shutdown()
    on a closed connection, retrieve() of more than there is. *)
Definition caller_faults (l : list api) (f : fault) : Prop :=
  (AShutdown ∈ l /\ f = AssertFailed "TcpConnection::shutdown")
  \/ ((exists n, ARetrieve n ∈ l) /\ f = AssertFailed "Buffer::retrieve").

(** The same for one call made on a connection in the state [w]. *)
Definition breach (a : api) w (f : fault) : Prop :=
  match a with
  | AShutdown => state_ (conn w) = kDisconnected /\ f = AssertFailed "TcpConnection::shutdown"
  | ARetrieve n =>
      Buffer.readableBytes (inputBuffer_ (conn w)) < n /\ f = AssertFailed "Buffer::retrieve"
  | _ => False
  end.

(** The dispatches for which handleClose runs on a closed connection. *)
Definition bad_dispatch (e : event) w : bool :=
  match e with EvDispatch r _ => closes_twice r w | _ => false end.

(** How an event can stop: by the environment, by what the caller asks for, and a
    bad dispatch by the assert of handleClose. *)
Definition event_fault (e : event) w (f : fault) : Prop :=
  env_fault f
  \/ match e with
     | EvDispatch _ user =>
         caller_faults (on_close ++ user) f
         \/ (bad_dispatch e w = true /\ f = AssertFailed "TcpConnection::handleClose")
     | EvTask user => caller_faults (on_close ++ user) f
     | EvCall a | EvRemote _ a => breach a w f \/ caller_faults on_close f
     end.

Lemma caller_faults_conn l f : caller_faults l f -> caller_fault f.
Proof. intros [[_ ->]|[_ ->]]; [by left|by right]. Qed.

Lemma event_fault_conn e w f :
  event_fault e w f -> conn_fault f \/ f = AssertFailed "TcpConnection::handleClose".
Proof.
  assert (forall a, breach a w f -> caller_fault f) as Hb.
  { intros a Ha. destruct a; try done; destruct Ha as [_ ->]; [by left|by right]. }
  intros [?|Hf]; [by left; left|]. destruct e as [r user|user|a|t a].
  - destruct Hf as [Hf|[_ ->]]; [left; right; by eapply caller_faults_conn|by right].
  - left; right; by eapply caller_faults_conn.
  - destruct Hf as [Hf|Hf]; left; right; [by eapply Hb|by eapply caller_faults_conn].
  - destruct Hf as [Hf|Hf]; left; right; [by eapply Hb|by eapply caller_faults_conn].
Qed.

Lemma event_fault_quiet e w f : bad_dispatch e w = false -> event_fault e w f -> conn_fault f.
Proof.
  intros Hb Hf. pose proof (event_fault_conn e w f Hf) as [?| ->]; [done|].
  destruct Hf as [[? |?]|Hf]; try done. unfold caller_faults, breach in Hf.
  destruct e as [r user|user|a|t a]; [rewrite Hb in Hf|..|destruct a|destruct a]; naive_solver.
Qed.

Lemma calls_allowed (F : fault -> Prop) l :
  (forall f, caller_faults l f -> F f) -> forallb api_okb l = true -> Forall (api_allowed F) l.
Proof.
  intros HF Hl%apis_okb_ok. rewrite Forall_forall in *. intros a Ha. split; [by apply Hl|].
  destruct a; try done; apply HF; [by left|right]. split; [by eexists|done].
Qed.

Lemma api_breach (F : fault -> Prop) a w :
  (forall f, breach a w f -> F f) -> api_ok a -> api_may F a w.
Proof. intros HF Ha. split; [done|]. destruct a; try done; intros ?; by apply HF. Qed.

Lemma remote_ok base t a w :
  RInv base w -> api_ok a -> wp (event_fault (EvRemote t a) w) (remote_call on_close t a)
    (fun _ w' => RInv base w' /\ later w w') w.
Proof.
  intros [] Ha. unfold remote_call. cw_simpl. rewrite wp_on_loop, wp_gets. cw_simpl.
  rewrite wp_on_loop, wp_modify. cw_simpl. simpl. set (w1 := mkCW (conn w) (set_current t (loop w)) (trace w)).
  assert (Inv base w1) as Hi1 by (destruct r_inv0 as [[] Hs]; split; [by constructor|done]).
  wp_call (call_ok (event_fault (EvRemote t a) w) ltac:(by left) on_close); [|
    |exact Hi1|].
  { apply calls_allowed; [|done]. intros f Hf. right. by right. }
  { apply api_breach; [|done]. intros f Hf. right. by left. }
  intros _ w2 [[[] Hs] [[] _]]. rewrite wp_on_loop, wp_modify. simpl in *.
  split; [constructor|constructor]; simpl; try done.
  - unfold isInLoopThread in *. simpl. congruence.
  - destruct fr_chan as (_ & ? & ? & ? & ? & _), r_installed0 as (? & ? & ? & ?).
    repeat split; congruence.
  - by destruct fr_chan as (_ & _ & _ & _ & _ & _ & ->).
  - destruct fr_chan as (_ & ? & ? & ? & ? & _). intros (? & ? & ? & ?). repeat split; congruence.
  - by destruct fr_chan as (_ & _ & _ & _ & _ & _ & ->).
Qed.

Lemma event_ok base e w :
  RInv base w -> enabled e w = true ->
  wp (event_fault e w) (run_event on_close e)
    (fun _ w' => bad_dispatch e w = false /\ RInv base w' /\ later w w') w.
Proof.
  intros Hr. pose proof Hr as []. set (F := event_fault e w).
  assert (forall f, env_fault f -> F f) as HF by by left.
  assert (forall m : M (CW K) unit, op_ok F m w ->
    wp F m (fun _ w' => RInv base w' /\ later w w') w) as Hop.
  { intros m Hm. wp_call Hm; [done|]. intros _ w' [Hi' [Hf' _]]. apply frame_later in Hf'.
    split; [by eapply RInv_later|done]. }
  assert (forall user, (forall f, caller_faults (on_close ++ user) f -> F f) ->
    forallb api_okb user = true ->
    Forall (api_allowed F) on_close /\ Forall (api_allowed F) user) as Hall.
  { intros user Hu Hok. apply Forall_app, calls_allowed; [done|]. by rewrite forallb_app, on_close_ok. }
  destruct e as [r user|user|a|t a]; simpl; intros He; bool_solve.
  - destruct (Hall user) as [Hc Hu]; [by right; left|done|].
    wp_call (dispatch_ok F HF on_close Hc user Hu base r w); [done|done|done| |done| |].
    + intros Hw. rewrite Hw in H0. simpl in H0. destruct (Channel.isWriting _); [by left|right].
      by apply bool_decide_eq_true in H0.
    + intros Hb. right. by right.
    + intros _ w' (Hb & Hi' & Hl'). split_and!; [done|by eapply RInv_later|done].
  - destruct (Hall user) as [Hc Hu]; [by right|done|].
    eapply wp_mono; [apply Hop, run_next_ok; done|]. by split.
  - eapply wp_mono; [apply Hop, call_ok|]; [done|..|by split].
    + apply calls_allowed; [|done]. intros f Hf. right. by right.
    + apply api_breach; [|by apply api_okb_ok]. intros f Hf. right. by left.
  - eapply wp_mono; [apply remote_ok; [done|by apply api_okb_ok]|]. by split.
Qed.

Lemma reach_inv w0 w :
  fresh w0 -> reach on_close w0 w -> RInv (sent_by w0) w /\ later w0 w.
Proof.
  intros Hf. induction 1 as [self w Hc|e w w' Hr [IH IHl] He Hrun].
  - pose proof (connectEstablished_ok self w0 Hf) as Hw. unfold wp in Hw. by rewrite Hc in Hw.
  - pose proof (event_ok _ e w IH He) as Hw. unfold wp in Hw. rewrite Hrun in Hw.
    destruct Hw as (_ & ? & ?). split; [done|by etrans].
Qed.
End invariant.

(** ** Draining the output *)

(** A kernel that takes at least one byte of every write: the peer reads. *)
Class Accepting (K : Type) `{Posix K} (acc : K -> Prop) : Prop :=
  acc_write : forall fd d k, acc k -> d <> [] ->
    exists n k', sys_write fd d k = (SysOk n, k') /\ 1 <= n /\ acc k'.

#[export] Instance SimAccepting : Accepting SimK (fun k => sk_writes k = []).
Proof.
  intros fd d k Hk Hd. simpl. unfold sim_write. rewrite Hk.
  eexists _, _. split; [done|]. split; [|done].
  destruct d; [done|]. unfold zlen. simpl. lia.
Qed.

Section drain.
Context {K : Type} `{Posix K} `{!SocketLaws K}.
Context (F : fault -> Prop) (Fctl : F (ExitFailure "Epoll::epoll_ctl")).
Context (on_close : list api).
Implicit Types w : CW K.

Abbreviation outc w := (Buffer.content (outputBuffer_ (conn w))).

Lemma queue_trace_wp t w :
  wp F (on_loop (EventLoop.queueInLoop t)) (fun _ w' => trace w' = trace w) w.
Proof.
  rewrite wp_on_loop. unfold EventLoop.queueInLoop, EventLoop.wakeup, loop_sys. wp_simpl.
  case_bool; [|done]. wp_simpl. destruct (sys_write _ _ _) as [[]]; simpl; by wp_simpl.
Qed.

(** The half-close that handleWrite makes for a connection that shuts down. *)
Lemma write_done_trace w :
  isInLoopThread (loop w) = true -> Channel.isWriting (channel_ (conn w)) = false ->
  wp F (st <- get_state;; when (bool_decide (st = kDisconnecting)) shutdownInLoop;;;
        wcc <- gets (fun w => writeCompleteCallback_ (conn w));;
        when wcc (on_loop (EventLoop.queueInLoop TWriteComplete)))
    (fun _ w' => state_ (conn w) = kDisconnecting ->
       trace w' = trace w ++ [OShutdownWr (outc w)]) w.
Proof.
  intros Hl Hw. unfold get_state. rewrite wp_bind, wp_gets, wp_bind.
  apply (wp_mono _ _ (fun _ w' => state_ (conn w) = kDisconnecting ->
                        trace w' = trace w ++ [OShutdownWr (outc w)])).
  - rewrite wp_when. case_bool_decide as Hd; [|done].
    unfold shutdownInLoop. cw_simpl. apply assert_loop_wp; [done|]. cw_simpl.
    rewrite Hd, Hw. rewrite bool_decide_eq_false_2 by done. cw_simpl. simpl. cw_simpl.
    apply os_wp. destruct (sys_shutdown_wr _ _).1; cw_simpl; [done|]. by apply os_wp.
  - intros _ w1 Hw1. cw_simpl. case_bool; [|done].
    wp_call queue_trace_wp. intros _ w' ->. done.
Qed.

(** One EPOLLOUT event whose write takes [n] bytes. *)
Record step_out (base : list byte) (n : Z) (k' : K) w w' : Prop := mkStepOut {
  so_inv : Inv base w';
  so_later : later w w';
  so_out : outc w' = zdrop n (outc w);
  so_state : state_ (conn w') = state_ (conn w);
  so_kernel : outc w' <> [] -> kernel (loop w') = k';
  so_shut : outc w' = [] -> state_ (conn w) = kDisconnecting ->
    last (trace w') = Some (OShutdownWr [])
}.

Lemma handleWrite_accepts base w n k' :
  isInLoopThread (loop w) = true -> Inv base w -> state_ (conn w) <> kDisconnected ->
  outc w <> [] ->
  sys_write (sockfd_ (conn w)) (outc w) (kernel (loop w)) = (SysOk n, k') ->
  wp F (handleWrite on_close) (fun _ w' => step_out base n k' w w') w.
Proof.
  intros Hl Hi Hd Hne E. pose proof Hi as [[] _].
  assert (Channel.isWriting (channel_ (conn w)) = true) as Hw
    by (by rewrite inv_writing, bool_decide_eq_false_2).
  assert (0 < Buffer.readableBytes (outputBuffer_ (conn w))) as Hpos.
  { pose proof (Buffer.content_nil _ inv_out). rewrite <- Buffer.zlen_content in * by done.
    pose proof (zlen_nonneg (outc w)). assert (zlen (outc w) <> 0) by tauto. lia. }
  unfold handleWrite. cw_simpl. apply assert_loop_wp; [done|]. cw_simpl.
  rewrite bool_decide_eq_false_2 by done. cw_simpl.
  rewrite (proj2 (Z.ltb_lt _ _) Hpos), Hw. cw_simpl.
  apply os_wp. rewrite E. cbn [fst snd]. cw_simpl.
  pose proof E as En. apply write_ok in En as [Hn _].
  rewrite Buffer.zlen_content in Hn by done.
  unfold on_output. rewrite wp_zoom. wp_call Buffer.retrieve_spec; [done|simpl; lia|].
  intros _ b (Hb & Hc & _). cw_simpl. simpl in *.
  destruct (Inv_written base w n k' b) as (Hsome & Hfr & Hnone); try done.
  case_bool.
  - apply Buffer.content_nil in E0; [|done]. cw_simpl.
    apply chan_mask_wp; simpl; [done| |done|].
    { by apply Channel.mask_ok_disableWrite. }
    intros c' l' Hm Hq _. destruct (Hnone E0 c' l' Hm Hq) as [Hi2 Hf2]. simpl in *.
    eapply wp_mono; [apply wp_and; [apply (write_done_ok F base)|apply write_done_trace]|].
    { by apply (frame_loop w). }
    { done. }
    { by apply (frame_loop w). }
    { destruct Hm as [He _]. simpl. unfold Channel.isWriting.
      by rewrite He, Channel.isWriting_disableWrite. }
    cbn beta. intros _ w' [(Hi' & [Hf' _] & Hcn) Htr]. simpl in *.
    constructor; rewrite ?Hcn; simpl; try done.
    + apply frame_later. by etrans.
    + intros _ Hs. rewrite Htr, E0 by done. by rewrite last_snoc.
  - rewrite Buffer.content_nil in E0 by done.
    constructor; simpl; try done. by apply Hsome.
Qed.

(** Such an event dispatched by the channel: only handleWrite runs. *)
Lemma dispatch_accepts base n k' w :
  RInv base w -> state_ (conn w) <> kDisconnected -> outc w <> [] ->
  sys_write (sockfd_ (conn w)) (outc w) (kernel (loop w)) = (SysOk n, k') ->
  wp F (dispatch on_close [] EPOLLOUT)
    (fun _ w' => RInv base w' /\ step_out base n k' w w') w.
Proof.
  intros [Hi Hl Hin Htie] Hd Hne E. unfold dispatch. cw_simpl.
  set (w1 := put_chan _ w).
  assert (wp F (ChannelOps.handleEventWithGuard get_chan put_chan (run_callback on_close []))
            (fun _ w' => RInv base w' /\ step_out base n k' w w') w1) as Hg.
  { unfold ChannelOps.handleEventWithGuard, ChannelOps.call_if. cw_simpl. simpl. cw_simpl.
    set (w2 := put_chan _ w1). pose proof Hin as (_ & Hcb & _ & _).
    change (writeCallback_ (get_chan w)) with (writeCallback_ (channel_ (conn w))).
    rewrite Hcb. simpl.
    wp_call (handleWrite_accepts base w2 n k'); [done|by apply Inv_events; [|apply Inv_events]|done..|].
    intros _ w3 []. cw_simpl.
    assert (later w (put_chan (Channel.set_handling false (get_chan w3)) w3)) as Hlt.
    { assert (later w w2) as H1 by by constructor. etrans; [exact H1|].
      etrans; [exact so_later0|]. by constructor. }
    assert (Inv base (put_chan (Channel.set_handling false (get_chan w3)) w3)) as Hi3
      by by apply Inv_events.
    split; [|by constructor]. by apply (RInv_later base w). }
  unfold ChannelOps.handleEvents. cw_simpl. apply assert_loop_wp; [done|]. cw_simpl.
  change (get_chan w1) with (Channel.setRevents EPOLLOUT (channel_ (conn w))). simpl.
  case_bool; [|done]. cw_simpl. by destruct Htie as [o ->].
Qed.

(** A connection whose output is empty. *)
Lemma empty_idle base w :
  RInv base w -> state_ (conn w) <> kDisconnected -> outc w = [] ->
  Channel.isWriting (channel_ (conn w)) = false /\ sent_by w = base ++ accepted (trace w).
Proof.
  intros [[[] Hs] _ _ _] Hd Ho. specialize (Hs Hd).
  rewrite Ho, app_nil_r in Hs. by rewrite inv_writing, bool_decide_eq_true_2.
Qed.

Context (acc : K -> Prop) `{!Accepting K acc}.

(** By induction on the length of the output: every event shortens it. *)
Lemma drain_wp base m w :
  RInv base w -> state_ (conn w) <> kDisconnected -> acc (kernel (loop w)) ->
  (length (outc w) <= m)%nat ->
  exists n, (n <= length (outc w))%nat /\
    wp F (forM (replicate n EPOLLOUT) (dispatch on_close []))
      (fun _ w' => RInv base w' /\ outc w' = [] /\ state_ (conn w') = state_ (conn w)
         /\ (outc w <> [] -> state_ (conn w) = kDisconnecting ->
             last (trace w') = Some (OShutdownWr []))) w.
Proof.
  revert w. induction m as [|m IH]; intros w Hr Hd Ha Hm.
  - exists O. split; [lia|]. destruct (outc w) eqn:E; simpl in *; [|lia]. cw_simpl.
    by rewrite E.
  - destruct (decide (outc w = [])) as [E|Hne].
    { exists O. simpl. split; [lia|]. cw_simpl. by rewrite E. }
    destruct (acc_write (sockfd_ (conn w)) (outc w) _ Ha Hne) as (n & k' & E & Hn & Ha').
    pose proof E as En. apply write_ok in En as [Hn' _].
    pose proof (dispatch_accepts base n k' w Hr Hd Hne E) as Hstep. unfold wp in Hstep.
    assert (zlen (outc w) <> 0) as Hz by (intros ?%zlen_0_nil; done). unfold zlen in *.
    destruct (dispatch on_close [] EPOLLOUT w) as [[[] w1]|f] eqn:Ed.
    2:{ exists 1%nat. split; [lia|]. simpl. cw_simpl. unfold wp at 1. by rewrite Ed. }
    destruct Hstep as [Hr1 []].
    destruct (decide (outc w1 = [])) as [E1|Hne1].
    + exists 1%nat. split; [lia|]. simpl. cw_simpl. apply (wp_of_ok _ _ _ w tt w1 Ed).
      cw_simpl. split_and!; try done. intros _. by apply so_shut0.
    + assert (length (outc w1) < length (outc w))%nat as Hlt.
      { rewrite so_out0. unfold zdrop. rewrite length_drop. lia. }
      destruct (IH w1) as (n2 & Hn2 & Hwp); [done|congruence|by rewrite so_kernel0|lia|].
      exists (S n2). split; [lia|]. simpl. cw_simpl. apply (wp_of_ok _ _ _ w tt w1 Ed).
      eapply wp_mono; [exact Hwp|]. cbn beta. intros _ w' (? & ? & Hs & Hl).
      rewrite so_state0 in *. split_and!; try done. intros _. by apply Hl.
Qed.
End drain.

(** ** Properties *)

(** A concrete connection for the witnesses: descriptor 10, wakeup descriptor
    4, high-water mark 4; the first write is short, the second would block. *)
Definition b0 : Buffer :=
  match Buffer.new_Buffer Buffer.kInitialSize with Ok b => b | Err _ => mkBuffer [] 0 0 end.

Definition conn0 : TcpConnection :=
  setHighWaterMarkCallback true 4 (setCloseCallback true (setWriteCompleteCallback true
    (setMessageCallback true (new 7 10 InetAddress.default InetAddress.default b0)))).

Definition w_init (writes : list (sysres Z)) : CW SimK :=
  mkCW conn0 (mkLoop (with_writes writes sim_init) 1 1 false false (mkEpoll 128 3) [] 4 []) [].

Lemma w_init_fresh l : fresh (w_init l).
Proof.
  destruct (Buffer.new_Buffer_spec Buffer.kInitialSize) as (b & Hb & Hwf & Hc & _);
    [by vm_compute..|].
  assert (b = b0) as -> by (unfold b0; by rewrite Hb). by constructor.
Qed.

Definition abcdef : list byte := [x61; x62; x63; x64; x65; x66].

(** Send while connected, then shut down from another thread. *)
Definition script : list event :=
  [EvCall (ASend abcdef); EvRemote 9 AShutdown; EvTask []; EvTask []; EvDispatch EPOLLOUT []].

(** C1: in every run the bytes given to the descriptor are a prefix of the bytes
    accepted by send, in order; until the connection is closed they and the
    output buffer are exactly the accepted bytes, and EPOLLOUT is watched
    exactly while the output buffer is not empty. *)
Theorem stream_integrity {K} `{Posix K} `{!SocketLaws K} `{!ReadvLaws K} on_close w0 w :
  forallb api_okb on_close = true -> fresh w0 -> reach on_close w0 w ->
  sent_by w `prefix_of` sent_by w0 ++ accepted (trace w)
  /\ Channel.isWriting (channel_ (conn w))
     = negb (bool_decide (Buffer.content (outputBuffer_ (conn w)) = []))
  /\ (state_ (conn w) <> kDisconnected ->
      sent_by w ++ Buffer.content (outputBuffer_ (conn w)) = sent_by w0 ++ accepted (trace w)).
Proof.
  intros Hc Hf Hr. destruct (reach_inv on_close Hc w0 w Hf Hr) as [[[[] Hs] _ _ _] _]. done.
Qed.

Lemma stream_integrity_witness :
  match start_play [] script (w_init [SysOk 3; SysErr EAGAIN]) with
  | Some w => sent_by w ++ Buffer.content (outputBuffer_ (conn w)) = abcdef
  | None => False
  end.
Proof.
  destruct (start_play [] script (w_init [SysOk 3; SysErr EAGAIN])) as [w|] eqn:E.
  - pose proof (start_play_reach [] _ _ _ E) as Hr.
    destruct (stream_integrity [] _ w eq_refl (w_init_fresh _) Hr) as (_ & _ & Hs).
    vm_compute in E. injection E as <-. rewrite Hs; done.
  - vm_compute in E. discriminate E.
Defined.

(** What the types of the members promise. *)
Definition well_typed {K} `{Posix K} (w : CW K) : Prop :=
  let c := channel_ (conn w) in
  let sizes b := Buffer.prependableBytes b + Buffer.readableBytes b + Buffer.writableBytes b in
  events_ c = Z.lor EPOLLPRI (Z.lor (if Channel.isReading c then EPOLLIN else 0)
    (if bool_decide (Buffer.content (outputBuffer_ (conn w)) = []) then 0 else EPOLLOUT))
  /\ 0 <= events_ c < 2 ^ 32
  /\ (forall b, b = inputBuffer_ (conn w) \/ b = outputBuffer_ (conn w) ->
      0 <= readerIndex_ b <= writerIndex_ b /\ writerIndex_ b <= zlen (buffer_ b)
      /\ sizes b = zlen (buffer_ b) /\ sizes b < 2 ^ 63)
  /\ state_ (conn w) <> kConnecting
  /\ Forall task_ok (pendingTasks_ (loop w)).

(** C4: in every run each member of a connection holds a value of its type and
    means one thing: events_ is a uint32_t made of EPOLLPRI and the two flags
    for reading and for a waiting output, and nothing else; the indices of both
    buffers are size_t values in order, and the three lengths that the size
    arithmetic computes from them add up to the vector without a wrap-around;
    the state never returns to kConnecting, the descriptor never changes, and
    the data of queued sends has a size that a string can have. *)
Theorem connection_well_typed {K} `{Posix K} `{!SocketLaws K} `{!ReadvLaws K} on_close w0 w :
  forallb api_okb on_close = true -> fresh w0 -> reach on_close w0 w ->
  well_typed w /\ sockfd_ (conn w) = sockfd_ (conn w0).
Proof.
  intros Hc Hf Hr. destruct (reach_inv on_close Hc w0 w Hf Hr) as [[[[] _] _ _ _] []].
  split; [|done]. destruct inv_mask as [Hm1 Hm2] eqn:E. clear E.
  split; [|split; [lia|split; [|done]]].
  - rewrite (Channel.mask_ok_flags _ inv_mask) at 1. do 2 f_equal.
    change (Channel.has _ EPOLLOUT) with (Channel.isWriting (channel_ (conn w))).
    rewrite inv_writing. by destruct (bool_decide _).
  - assert (forall b, Buffer.wf b -> 0 <= readerIndex_ b <= writerIndex_ b
      /\ writerIndex_ b <= zlen (buffer_ b)
      /\ Buffer.prependableBytes b + Buffer.readableBytes b + Buffer.writableBytes b = zlen (buffer_ b)
      /\ zlen (buffer_ b) < 2 ^ 63) as Hb.
    { intros b []. unfold Buffer.prependableBytes, Buffer.readableBytes, Buffer.writableBytes.
      unfold Buffer.max_size in *. u64_tac. lia. }
    intros b [-> | ->]; [destruct (Hb _ inv_in) as (? & ? & -> & ?)
                        |destruct (Hb _ inv_out) as (? & ? & -> & ?)]; done.
Qed.

(** While a byte waits the mask is EPOLLIN | EPOLLPRI | EPOLLOUT. *)
Lemma connection_well_typed_witness :
  match start_play [] [EvCall (ASend abcdef)] (w_init [SysOk 3]) with
  | Some w => events_ (channel_ (conn w)) = 7 /\ well_typed w
  | None => False
  end.
Proof.
  destruct (start_play [] [EvCall (ASend abcdef)] (w_init [SysOk 3])) as [w|] eqn:E.
  - pose proof (start_play_reach [] _ _ _ E) as Hr.
    destruct (connection_well_typed [] _ w eq_refl (w_init_fresh _) Hr) as [Ht _].
    split; [|exact Ht]. vm_compute in E. injection E as <-. reflexivity.
  - vm_compute in E. discriminate E.
Defined.

(** C2: in every run an event either is handled, or stops in one of these ways,
    and no other assert of the handlers, the buffers, the channel or the poller
    fails.  The environment: epoll_ctl fails, or a vector would exceed 2^63 bytes.
    The caller: shutdown() of a closed connection and retrieve() of more than is
    readable; a direct call fails so exactly when it asks for that, an event only
    if such a call is among those of the callbacks that it runs.  And a dispatch
    that reports a hang-up together with an error, or either of them for a
    connection that is closed, never returns: handleClose runs on the closed
    connection and its assert fails.  Closing from the close callback does not
    close twice.  Calls of other threads are single steps here. *)
Theorem handlers_do_not_fail {K} `{Posix K} `{!SocketLaws K} `{!ReadvLaws K} on_close w0 w e :
  forallb api_okb on_close = true -> fresh w0 -> reach on_close w0 w ->
  enabled e w = true ->
  wp (event_fault on_close e w) (run_event on_close e)
    (fun _ w' => bad_dispatch e w = false /\ reach on_close w0 w') w.
Proof.
  intros Hc Hf Hr He. destruct (reach_inv on_close Hc w0 w Hf Hr) as [Hi _].
  pose proof (event_ok on_close Hc _ e w Hi He) as Hw. unfold wp in *.
  destruct (run_event on_close e w) as [[[] w']|] eqn:E; [|done].
  destruct Hw as [Hb _]. split; [done|]. by eapply reach_event.
Qed.

(** A close returns although its callback closes again, and a hang-up with an
    error does not return. *)
Lemma handlers_do_not_fail_witness :
  match start_play [AForceClose] script (w_init [SysOk 3; SysErr EAGAIN]) with
  | Some w =>
      wp env_fault (run_event [AForceClose] (EvCall AForceClose))
        (fun _ w' => reach [AForceClose] (w_init [SysOk 3; SysErr EAGAIN]) w') w
      /\ wp (fun f => env_fault f \/ f = AssertFailed "TcpConnection::handleClose")
           (run_event [AForceClose] (EvDispatch (Z.lor EPOLLHUP EPOLLERR) [])) (fun _ _ => False) w
  | None => False
  end.
Proof.
  destruct (start_play [AForceClose] script (w_init [SysOk 3; SysErr EAGAIN])) as [w|] eqn:E.
  - pose proof (start_play_reach [AForceClose] _ _ _ E) as Hr.
    assert (forall f, ~ caller_faults [AForceClose] f) as Hno.
    { intros f [[Hin _]|[[n Hin] _]]; apply list_elem_of_singleton in Hin; discriminate Hin. }
    assert (closes_twice (Z.lor EPOLLHUP EPOLLERR) w = true) as Hb
      by (clear Hr; vm_compute in E; injection E as <-; reflexivity).
    split.
    + eapply wp_fault_mono; [eapply wp_mono;
        [exact (handlers_do_not_fail [AForceClose] _ w (EvCall AForceClose) eq_refl (w_init_fresh _)
                  Hr eq_refl)|by intros _ w' [_ ?]]|].
      intros f [?|[[]|Hf]]; [done|by destruct (Hno f)].
    + eapply wp_fault_mono; [eapply wp_mono;
        [exact (handlers_do_not_fail [AForceClose] _ w (EvDispatch (Z.lor EPOLLHUP EPOLLERR) [])
                  eq_refl (w_init_fresh _) Hr eq_refl)|]|].
      * intros _ w' [Hf _]. simpl in Hf. by rewrite Hb in Hf.
      * intros f [?|[Hf|[_ ?]]]; [by left|by destruct (Hno f)|by right].
  - vm_compute in E. discriminate E.
Defined.

(** While the calls of other threads are single steps, the close callback has run
    exactly once when the connection is disconnected and not at all before, and
    the state only moves forward.  TcpConnectionRace cuts them into their steps. *)
Lemma close_callback_once {K} `{Posix K} `{!SocketLaws K} `{!ReadvLaws K} on_close w0 w e w' :
  forallb api_okb on_close = true -> fresh w0 -> reach on_close w0 w ->
  enabled e w = true -> run_event on_close e w = Ok (tt, w') ->
  closes (trace w)
  = (if closeCallback_ (conn w0) && bool_decide (state_ (conn w) = kDisconnected) then 1 else 0)%nat
  /\ (rank (state_ (conn w)) <= rank (state_ (conn w')))%nat.
Proof.
  intros Hc Hf Hr He Hrun. destruct (reach_inv on_close Hc w0 w Hf Hr) as [Hi []].
  pose proof (event_ok on_close Hc _ e w Hi He) as Hw. unfold wp in Hw. rewrite Hrun in Hw.
  destruct Hw as (_ & _ & []), Hi as [[[] _] _ _ _]. split; [by rewrite <- lt_close|done].
Qed.

(** C5: the connection is never half-closed while output waits: every
    shutdown(SHUT_WR) of a run finds the output buffer empty. *)
Theorem shutdown_after_flush {K} `{Posix K} `{!SocketLaws K} `{!ReadvLaws K} on_close w0 w :
  forallb api_okb on_close = true -> fresh w0 -> reach on_close w0 w ->
  forall unsent, OShutdownWr unsent ∈ trace w -> unsent = [].
Proof.
  intros Hc Hf Hr unsent Hin. destruct (reach_inv on_close Hc w0 w Hf Hr) as [[[[] _] _ _ _] _].
  rewrite Forall_forall in inv_flushed. by apply inv_flushed in Hin.
Qed.

Lemma shutdown_after_flush_witness :
  match start_play [] script (w_init [SysOk 3; SysOk 3]) with
  | Some w => exists unsent, OShutdownWr unsent ∈ trace w /\ unsent = []
  | None => False
  end.
Proof.
  destruct (start_play _ _ _) as [w|] eqn:E.
  - pose proof (start_play_reach _ _ _ _ E) as Hr. exists [].
    assert (OShutdownWr [] ∈ trace w) as Hin.
    { clear Hr. vm_compute in E. injection E as <-. simpl. set_solver. }
    split; [exact Hin|].
    exact (shutdown_after_flush [] _ w eq_refl (w_init_fresh _) Hr [] Hin).
  - vm_compute in E. discriminate E.
Defined.

(** C6: if every write takes at least one byte, the output drains: no more
    EPOLLOUT events than there are bytes empty it; then everything accepted is
    sent, EPOLLOUT is no longer watched, and a connection that was shutting down
    has just half-closed with nothing unsent. *)
Theorem output_drains {K} `{Posix K} `{!SocketLaws K} `{!ReadvLaws K}
  (acc : K -> Prop) `{!Accepting K acc} on_close w0 w :
  forallb api_okb on_close = true -> fresh w0 -> reach on_close w0 w ->
  state_ (conn w) <> kDisconnected -> acc (kernel (loop w)) ->
  exists n, (n <= length (Buffer.content (outputBuffer_ (conn w))))%nat /\
    wp ChannelSpecs.ctl_fault (forM (replicate n EPOLLOUT) (dispatch on_close []))
      (fun _ w' => Buffer.content (outputBuffer_ (conn w')) = []
         /\ sent_by w' = sent_by w0 ++ accepted (trace w')
         /\ Channel.isWriting (channel_ (conn w')) = false
         /\ (Buffer.content (outputBuffer_ (conn w)) <> [] ->
             state_ (conn w) = kDisconnecting -> last (trace w') = Some (OShutdownWr []))) w.
Proof.
  intros Hc Hf Hr Hd Ha. destruct (reach_inv on_close Hc w0 w Hf Hr) as [Hi _].
  destruct (drain_wp ChannelSpecs.ctl_fault eq_refl on_close acc _ _ w Hi Hd Ha (le_n _))
    as (n & Hn & Hwp).
  exists n. split; [done|]. eapply wp_mono; [exact Hwp|]. intros _ w' (Hr' & Ho & Hs & Hl).
  destruct (empty_idle (sent_by w0) w') as [? ?]; [done|by rewrite Hs|done|]. done.
Qed.

Lemma output_drains_witness :
  match start_play [] [EvCall (ASend abcdef); EvCall AShutdown] (w_init [SysOk 3]) with
  | Some w => exists n, (n <= 3)%nat /\
      wp ChannelSpecs.ctl_fault (forM (replicate n EPOLLOUT) (dispatch [] []))
        (fun _ w' => sent_by w' = accepted (trace w') /\ last (trace w') = Some (OShutdownWr [])) w
  | None => False
  end.
Proof.
  destruct (start_play _ _ _) as [w|] eqn:E.
  - pose proof (start_play_reach _ _ _ _ E) as Hr.
    assert (state_ (conn w) = kDisconnecting /\ sk_writes (kernel (loop w)) = []
            /\ Buffer.content (outputBuffer_ (conn w)) = [x64; x65; x66]) as (Hst & Hk & Ho)
      by (vm_compute in E; injection E as <-; by vm_compute).
    destruct (output_drains (fun k => sk_writes k = []) [] _ w eq_refl (w_init_fresh _) Hr)
      as (n & Hn & Hwp); [by rewrite Hst|done|].
    exists n. rewrite Ho in Hn, Hwp. split; [exact Hn|].
    eapply wp_mono; [exact Hwp|]. intros _ w' (_ & Hs & _ & Hl).
    split; [exact Hs|by apply Hl].
  - vm_compute in E. discriminate E.
Defined.

(** ** Back pressure *)

Section backpressure.
Context {K : Type} `{Posix K} `{!SocketLaws K}.
Implicit Types w : CW K.
Abbreviation outc w := (Buffer.content (outputBuffer_ (conn w))).

(** The bytes of [data] that sendInLoop hands to write directly. *)
Definition direct w (data : list byte) : Z :=
  if Channel.isWriting (channel_ (conn w)) then 0
  else match (sys_write (sockfd_ (conn w)) data (kernel (loop w))).1 with
       | SysOk n => n
       | SysErr _ => 0
       end.

(** Whether that was all. *)
Definition wrote_all w (data : list byte) : bool :=
  negb (Channel.isWriting (channel_ (conn w)))
  && match (sys_write (sockfd_ (conn w)) data (kernel (loop w))).1 with
     | SysOk n => zlen data - n =? 0
     | SysErr _ => false
     end.

(** The callbacks that it queues. *)
Definition queued w (data : list byte) : list ConnTask :=
  let n := direct w data in
  let old := zlen (outc w) in
  let remain := zlen data - n in
  (if wrote_all w data && writeCompleteCallback_ (conn w) then [TWriteComplete] else [])
  ++ (if (0 <? remain) && highWaterMarkCallback_ (conn w)
         && (old <? highWaterMark_ (conn w)) && (highWaterMark_ (conn w) <=? old + remain)
      then [THighWaterMark (old + remain)] else []).

Lemma buffer_rest_tasks w data n remain :
  isInLoopThread (loop w) = true -> wakeupfd_ (loop w) <> sockfd_ (conn w) ->
  Buffer.wf (outputBuffer_ (conn w)) -> Channel.mask_ok (events_ (channel_ (conn w))) ->
  0 <= n -> 0 < remain -> n + remain = zlen data ->
  zlen data + zlen (outc w) <= Buffer.max_size ->
  wp conn_fault (buffer_rest data n remain)
    (fun _ w' => outc w' = outc w ++ zdrop n data
       /\ pendingTasks_ (loop w') = pendingTasks_ (loop w)
          ++ (if highWaterMarkCallback_ (conn w)
                 && (zlen (outc w) <? highWaterMark_ (conn w))
                 && (highWaterMark_ (conn w) <=? zlen (outc w) + remain)
              then [THighWaterMark (zlen (outc w) + remain)] else [])) w.
Proof.
  intros Hl Hwake Hwf Hpri Hn Hr Hlen Hmax.
  assert (zslice n remain data = zdrop n data) as Hz.
  { apply ztake_all. rewrite zlen_zdrop; lia. }
  pose proof (zlen_nonneg (outc w)).
  assert (zlen (zslice n remain data) <= Buffer.max_size) as Hzl
    by (rewrite Hz, zlen_zdrop; lia).
  assert (forall l' ts, isInLoopThread l' = true -> pendingTasks_ l' = ts ->
    wp conn_fault (on_output (Buffer.append (zslice n remain data)))
      (fun _ => wp conn_fault (on_chan ChannelOps.enableWrite)
        (fun _ w' => outc w' = outc w ++ zdrop n data /\ pendingTasks_ (loop w') = ts))
      (mkCW (conn w) l' (trace w))) as Hrest.
  { intros l' ts Hl' Hp. unfold on_output. rewrite wp_zoom.
    wp_call Buffer.append_spec; [done|right; split; [done|by left; right]|].
    intros _ b (Hb & Hc & _). apply chan_mask_wp; simpl; [done| |by left; left|].
    { by apply Channel.mask_ok_enableWrite. }
    intros c' l2 _ _ Hp2. simpl in *. rewrite Hc, Hz, Hp2. done. }
  unfold buffer_rest. cw_simpl.
  destruct (highWaterMarkCallback_ (conn w)); cbn [andb].
  2:{ rewrite app_nil_r. specialize (Hrest (loop w) _ Hl eq_refl). by destruct w. }
  cw_simpl. rewrite <- Buffer.zlen_content by done.
  unfold Buffer.max_size in *. u64_tac.
  case_bool.
  2:{ rewrite app_nil_r. specialize (Hrest (loop w) _ Hl eq_refl). by destruct w. }
  apply queue_wp; [done|done|]. intros l' Hq Hp. cw_simpl. apply Hrest; [|done].
  destruct Hq. unfold isInLoopThread in *. congruence.
Qed.
End backpressure.

(** C7: sendInLoop writes directly only when nothing waits, appends exactly the
    rest to the output buffer, queues the write-complete callback exactly when
    all was written at once, and the high-water-mark callback exactly when the
    output crosses the mark from below; the mark is compared with the whole
    backlog. *)
Theorem sendInLoop_backpressure {K} `{Posix K} `{!SocketLaws K} on_close base data (w : CW K) :
  let out w := Buffer.content (outputBuffer_ (conn w)) in
  isInLoopThread (loop w) = true -> Inv0 base w -> state_ (conn w) <> kDisconnected ->
  zlen data + zlen (out w) <= Buffer.max_size ->
  (forall e, (sys_write (sockfd_ (conn w)) data (kernel (loop w))).1 = SysErr e -> e = EAGAIN) ->
  wp conn_fault (sendInLoop (handleClose on_close) data)
    (fun _ w' => out w' = out w ++ zdrop (direct w data) data
       /\ pendingTasks_ (loop w') = pendingTasks_ (loop w) ++ queued w data) w.
Proof.
  intros out Hl Hi Hd Hmax Hwr. unfold out in *. clear out.
  pose proof (zlen_nonneg (Buffer.content (outputBuffer_ (conn w)))) as Hold.
  pose proof (zlen_nonneg data) as Hlen.
  unfold sendInLoop. cw_simpl. apply assert_loop_wp; [done|]. cw_simpl.
  rewrite bool_decide_eq_false_2 by done. cw_simpl. unfold queued, direct, wrote_all.
  set (w1 := mkCW _ _ _). pose proof Hi as [].
  change (channel_ (conn w1)) with (channel_ (conn w)).
  destruct (Channel.isWriting (channel_ (conn w))) eqn:Ew; cbn [negb andb app]; cw_simpl.
  - rewrite Z.sub_0_r. destruct (0 <? zlen data) eqn:E; bool_solve; cbn [andb negb]; cw_simpl.
    + wp_call (buffer_rest_tasks w1 data 0 (zlen data)); try done; lia.
    + split; [|by rewrite app_nil_r]. by rewrite (zlen_0_nil data), app_nil_r by lia.
  - unfold direct_write. cw_simpl. change (conn w1) with (conn w).
    pose proof (idle_nil base w Hi Ew) as Hout.
    rewrite (proj2 (Buffer.content_nil _ inv_out) Hout). cw_simpl. apply os_wp.
    change (loop w1) with (loop w).
    destruct (sys_write _ data _) as [[n|e] k'] eqn:E; cbn [fst snd] in *; cw_simpl.
    + apply write_ok in E as [Hn _]. unfold Buffer.max_size in *. u64_tac.
      set (w2 := mkCW _ _ _).
      destruct (zlen data - n =? 0) eqn:E0; bool_solve; cbn [andb].
      * rewrite (proj2 (Z.ltb_ge 0 _)) by lia. cbn [andb].
        assert (zdrop n data = []) as -> by (apply zdrop_all; lia).
        change (writeCompleteCallback_ (conn w2)) with (writeCompleteCallback_ (conn w)).
        destruct (writeCompleteCallback_ (conn w)); cw_simpl; cbn [andb negb]; cw_simpl.
        { apply queue_wp; [done|done|]. intros l' _ Hp. cw_simpl.
          rewrite (proj2 (Z.ltb_ge 0 _)) by lia. cbn [andb]. by rewrite !app_nil_r. }
        { by rewrite !app_nil_r. }
      * rewrite (proj2 (Z.ltb_lt 0 _)) by lia. cw_simpl. cbn [andb negb]. cw_simpl.
        wp_call (buffer_rest_tasks w2 data n (zlen data - n)); try done; lia.
    + specialize (Hwr e eq_refl) as ->. change (negb (EAGAIN =? EAGAIN)) with false.
      cw_simpl. rewrite Z.sub_0_r. set (w2 := mkCW _ _ _).
      destruct (0 <? zlen data) eqn:E0; bool_solve; cbn [andb]; cw_simpl.
      * wp_call (buffer_rest_tasks w2 data 0 (zlen data)); try done; lia.
      * rewrite (zlen_0_nil data) by lia. by rewrite !app_nil_r.
Qed.

Lemma sendInLoop_backpressure_witness :
  match start_play [] [] (w_init [SysOk 1]) with
  | Some w => wp conn_fault (sendInLoop (handleClose []) abcdef)
      (fun _ w' => Buffer.content (outputBuffer_ (conn w')) = [x62; x63; x64; x65; x66]
         /\ pendingTasks_ (loop w') = [THighWaterMark 5]) w
  | None => False
  end.
Proof.
  destruct (start_play [] [] (w_init [SysOk 1])) as [w|] eqn:E.
  - assert (isInLoopThread (loop w) = true /\ Inv0 [] w /\ state_ (conn w) = kConnected
            /\ Buffer.content (outputBuffer_ (conn w)) = [] /\ direct w abcdef = 1
            /\ pendingTasks_ (loop w) = [] /\ queued w abcdef = [THighWaterMark 5])
      as (Hl & Hi & Hs & Ho & Hd & Hp & Hq).
    { pose proof (start_play_reach [] _ _ _ E) as Hr.
      destruct (reach_inv [] eq_refl _ w (w_init_fresh _) Hr) as [[[Hi _] Hl _ _] _].
      vm_compute in E. injection E as <-. by split_and!. }
    assert (forall e, (sys_write (sockfd_ (conn w)) abcdef (kernel (loop w))).1 = SysErr e ->
              e = EAGAIN) as Hw.
    { clear - E. vm_compute in E. injection E as <-. intros e. vm_compute. discriminate. }
    assert (state_ (conn w) <> kDisconnected) as Hs' by by rewrite Hs.
    assert (zlen abcdef + zlen (Buffer.content (outputBuffer_ (conn w))) <= Buffer.max_size)
      as Hm by by rewrite Ho.
    pose proof (sendInLoop_backpressure [] [] abcdef w Hl Hi Hs' Hm Hw) as Hwp.
    eapply wp_mono; [exact Hwp|]. intros _ w' [-> ->]. by rewrite Ho, Hd, Hp, Hq.
  - vm_compute in E. discriminate E.
Defined.

(** ** What the code does not do *)

(** Two calls of forceClose from another thread, of which the first has loaded
    the state before the loop closed the connection and exchanges it after. *)
Definition late_exchange {K} `{Posix K} (on_close : list api) (other : Z) : M (CW K) unit :=
  me <- on_loop (gets current_tid);;
  on_loop (modify (set_current other));;;
  forceClose_exchange (handleClose on_close);;;
  forceClose (handleClose on_close);;;
  on_loop (modify (set_current me)).

(** The load and the exchange of forceClose are two steps.  If the loop
    closes the connection between them, the exchange turns kDisconnected back
    into kDisconnecting, the next forceClose is queued, and the close callback
    runs a second time. *)
Lemma forceClose_race_closes_twice {K} `{Posix K} `{!SocketLaws K} `{!ReadvLaws K} w0 w other :
  fresh w0 -> reach [] w0 w -> state_ (conn w) = kDisconnected ->
  closeCallback_ (conn w) = true -> other <> tid_ (loop w) -> pendingTasks_ (loop w) = [] ->
  wp conn_fault (late_exchange [] other;;; run_next [] [])
    (fun _ w' => closes (trace w') = 2%nat) w.
Proof.
  intros Hf Hr Hd Hcb Ht Hp. destruct (reach_inv [] eq_refl w0 w Hf Hr) as [[Hi Hl Hin Htie] _].
  assert (closes (trace w) = 1%nat) as Hn.
  { destruct Hi as [[] _]. by rewrite inv_closes, Hcb, Hd. }
  assert (wakeupfd_ (loop w) <> sockfd_ (conn w)) as Hw by by destruct Hi as [[] _].
  unfold late_exchange. cw_simpl. rewrite wp_on_loop, wp_gets. cw_simpl.
  rewrite wp_on_loop, wp_modify. cw_simpl.
  assert (forall w1 : CW K, tid_ (loop w1) = tid_ (loop w) -> current_tid (loop w1) = other ->
    isInLoopThread (loop w1) = false) as Hout.
  { intros w1 H1 H2. unfold isInLoopThread. rewrite H1, H2. apply Z.eqb_neq. congruence. }
  unfold forceClose, forceClose_exchange, stateAtomicGetAndSet. cw_simpl. simpl. rewrite Hd.
  cw_simpl. simpl. cw_simpl. simpl. cw_simpl. apply in_loop_wp. rewrite Hout by done.
  apply queue_wp; [done|done|]. intros l' [] Hp'. cw_simpl.
  rewrite wp_on_loop, wp_modify. cw_simpl. simpl in *. rewrite Hp in Hp'. simpl in Hp'.
  unfold run_next. cw_simpl. rewrite wp_on_loop, wp_gets. simpl. rewrite Hp'. cw_simpl.
  rewrite wp_on_loop, wp_modify. simpl. unfold forceCloseInLoop. cw_simpl.
  assert (isInLoopThread (set_pending [] (set_current (current_tid (loop w)) l')) = true) as Hl'.
  { unfold isInLoopThread in *. simpl. congruence. }
  apply assert_loop_wp; [done|]. cw_simpl. simpl. cw_simpl.
  unfold handleClose. cbn [handleClose_depth]. unfold handleClose_with. cw_simpl.
  apply assert_loop_wp; [done|]. cw_simpl. simpl. cw_simpl.
  apply chan_remove_wp; [done|by left; left|]. intros c' l2 _ _ _. cw_simpl. simpl.
  rewrite Hcb. cw_simpl. simpl. by rewrite closes_app, Hn.
Qed.

Lemma forceClose_race_closes_twice_witness :
  match start_play [] [EvCall AForceClose] (w_init []) with
  | Some w => wp conn_fault (late_exchange [] 9;;; run_next [] [])
                (fun _ w' => closes (trace w') = 2%nat) w
  | None => False
  end.
Proof.
  destruct (start_play [] [EvCall AForceClose] (w_init [])) as [w|] eqn:E.
  - pose proof (start_play_reach [] _ _ _ E) as Hr.
    apply (forceClose_race_closes_twice _ w 9 (w_init_fresh _) Hr);
      clear Hr; vm_compute in E; injection E as <-; done.
  - vm_compute in E. discriminate E.
Defined.
