(* ===== verification/TcpConnectionRace.v ===== *)
(** * TcpConnection: forceClose and shutdown of other threads, step by step

    On a thread other than the loop's, forceClose and shutdown load the state,
    exchange it, and queue a task, and the loop and other threads may do anything
    between these accesses.  [race] is a connection with the threads that are in
    the middle of such a call; the events of its loop, and the calls whose
    accesses follow each other, are those of TcpConnectionRuns.  [remote_split]
    says that a [remote_call] is exactly the three steps of this file. *)

From S2P Require Import Prelude Posix Buffer InetAddress Channel Epoll EventLoop TcpConnection TcpConnectionSpec TcpConnectionRuns.
Import TcpConnection.

#[local] Arguments Z.testbit : simpl never.

(** The calls, and where a thread is in one: before the exchange, or before
    queueInLoop. *)
Inductive closing : Type := CShutdown | CForceClose.
Inductive stage : Type := Loaded (c : closing) | Exchanged (t : ConnTask).

Record race (K : Type) : Type := mkRace {
  cw : CW K;
  stages : gmap Z stage;     (* by thread *)
  revived : nat              (* exchanges that found the connection closed *)
}.
Arguments mkRace {K}.
Arguments cw {K}.
Arguments stages {K}.
Arguments revived {K}.

Definition api_of (c : closing) : api :=
  match c with CShutdown => AShutdown | CForceClose => AForceClose end.

Section steps.
Context {K : Type} `{Posix K}.
Abbreviation MC := (M (CW K)).

(** The load of the state: whether the call goes on. *)
Definition load (c : closing) : MC bool :=
  st <- get_state;;
  match c with
  | CShutdown =>
      assert_ "TcpConnection::shutdown" (negb (bool_decide (st = kDisconnected)));;; ret true
  | CForceClose => ret (negb (bool_decide (st = kDisconnected)))
  end.

(** The exchange: what is to be queued. *)
Definition exchange (c : closing) : MC (option ConnTask) :=
  old <- stateAtomicGetAndSet kDisconnecting;;
  ret (match c with
       | CShutdown => if bool_decide (old = kConnected) then Some TShutdown else None
       | CForceClose => if negb (bool_decide (old = kDisconnected)) then Some TForceClose else None
       end).

(** queueInLoop on the thread [t]. *)
Definition enqueue (t : Z) (task : ConnTask) : MC unit :=
  me <- on_loop (gets current_tid);;
  on_loop (modify (set_current t));;;
  on_loop (EventLoop.queueInLoop task);;;
  on_loop (modify (set_current me)).

(** On a thread other than the loop's, the calls are these steps. *)
Lemma remote_split on_close t c (w : CW K) :
  t <> tid_ (loop w) ->
  remote_call on_close t (api_of c) w
  = (b <- load c;;
     if (b : bool) then
       o <- exchange c;;
       match o with Some task => enqueue t task | None => ret tt end
     else ret tt) w.
Proof.
  intros Ht%Z.eqb_neq. destruct w as [cn l tr]. simpl in Ht.
  assert (isInLoopThread (set_current t l) = false) as Hl.
  { unfold isInLoopThread. simpl. by rewrite Z.eqb_sym. }
  assert (set_current (current_tid l) (set_current t l) = l) as Hb by by destruct l.
  unfold remote_call, enqueue, call, load, exchange, stateAtomicGetAndSet, get_state, upd_conn.
  destruct c; simpl; unfold shutdown, forceClose, forceClose_exchange, stateAtomicGetAndSet,
    get_state, upd_conn, on_loop, zoom, bind, gets, modify, ret, assert_, ensure, when; simpl;
    repeat (case_bool_decide; simpl); rewrite ?Hl, ?Hb; try done.
Qed.
End steps.

(** ** Runs *)

Inductive race_event : Type :=
| REvent (e : event)
| RLoad (t : Z) (c : closing)
| RExchange (t : Z)
| RQueue (t : Z).

Section runs.
Context {K : Type} `{Posix K}.
Variable on_close : list api.

Definition lift {A} (m : M (CW K) A) (k : A -> CW K -> race K) (w : CW K) : result (race K) :=
  match m w with Ok (a, w') => Ok (k a w') | Err f => Err f end.

(** [revived] counts the exchanges that turn kDisconnected into kDisconnecting. *)
Definition race_step (e : race_event) (r : race K) : result (race K) :=
  match e with
  | REvent e => lift (run_event on_close e) (fun _ w => mkRace w (stages r) (revived r)) (cw r)
  | RLoad t c =>
      lift (load c) (fun go w => mkRace w
        (if go then <[t := Loaded c]> (stages r) else stages r) (revived r)) (cw r)
  | RExchange t =>
      match stages r !! t with
      | Some (Loaded c) =>
          lift (exchange c) (fun o w => mkRace w
            (match o with
             | Some task => <[t := Exchanged task]> (stages r)
             | None => delete t (stages r)
             end)
            (if disconnected (conn (cw r)) then S (revived r) else revived r)) (cw r)
      | _ => Ok r
      end
  | RQueue t =>
      match stages r !! t with
      | Some (Exchanged task) =>
          lift (enqueue t task) (fun _ w => mkRace w (delete t (stages r)) (revived r)) (cw r)
      | _ => Ok r
      end
  end.

(** A thread does one call at a time, and is not the loop's. *)
Definition race_enabled (e : race_event) (r : race K) : bool :=
  match e with
  | REvent e =>
      enabled e (cw r)
      && match e with EvRemote t _ => bool_decide (stages r !! t = None) | _ => true end
  | RLoad t c => bool_decide (stages r !! t = None) && negb (t =? tid_ (loop (cw r)))
  | RExchange t => match stages r !! t with Some (Loaded _) => true | _ => false end
  | RQueue t => match stages r !! t with Some (Exchanged _) => true | _ => false end
  end.

Inductive race_reach (w0 : CW K) : race K -> Prop :=
| race_start self w :
    connectEstablished self w0 = Ok (tt, w) -> race_reach w0 (mkRace w ∅ 0)
| race_next e r r' :
    race_reach w0 r -> race_enabled e r = true -> race_step e r = Ok r' -> race_reach w0 r'.

Fixpoint race_play (es : list race_event) (r : race K) : option (race K) :=
  match es with
  | [] => Some r
  | e :: es' =>
      if race_enabled e r then
        match race_step e r with Ok r' => race_play es' r' | Err _ => None end
      else None
  end.

Lemma race_play_reach es w0 r r' : race_reach w0 r -> race_play es r = Some r' -> race_reach w0 r'.
Proof.
  revert r. induction es as [|e es IH]; simpl; intros r Hr; [by intros [= <-]|].
  destruct (race_enabled e r) eqn:E; [|done].
  destruct (race_step e r) as [r1|] eqn:Er; [|done]. apply IH. by eapply race_next.
Qed.

(** A call whose steps follow each other is the call of [EvRemote]. *)
Lemma race_atomic t c r r1 r2 r3 :
  race_enabled (RLoad t c) r = true ->
  race_step (RLoad t c) r = Ok r1 -> race_step (RExchange t) r1 = Ok r2 ->
  race_step (RQueue t) r2 = Ok r3 ->
  run_event on_close (EvRemote t (api_of c)) (cw r) = Ok (tt, cw r3)
  /\ stages r3 = stages r /\ revived r3 = revived r.
Proof.
  intros [Hn%bool_decide_eq_true Ht%negb_true_iff%Z.eqb_neq]%andb_prop H1 H2 H3.
  cbn [run_event]. rewrite remote_split by done. unfold race_step, lift, bind in *.
  destruct (load c (cw r)) as [[go w1]|] eqn:El; [|done]. injection H1 as <-. cbn [cw stages revived] in *.
  assert (w1 = cw r /\ (go = true -> disconnected (conn (cw r)) = false)) as [-> Hgo].
  { clear -El. unfold load, get_state, bind, gets, assert_, ensure, ret, disconnected in *.
    destruct c; case_bool_decide; simpl in El; by simplify_eq. }
  destruct go.
  - rewrite lookup_insert_eq, Hgo in H2 by done.
    destruct (exchange c (cw r)) as [[o w2]|]; [|done]. injection H2 as <-. cbn [cw stages revived] in *.
    destruct o as [task|].
    + rewrite lookup_insert_eq in H3. destruct (enqueue t task w2) as [[[] w3]|]; [|done].
      injection H3 as <-. cbn [cw stages revived]. by rewrite insert_insert_eq, delete_insert_id.
    + rewrite lookup_delete_eq in H3. injection H3 as <-. cbn [cw stages revived]. by rewrite delete_insert_id.
  - rewrite Hn in H2. injection H2 as <-. cbn [stages] in H3. rewrite Hn in H3. by injection H3 as <-.
Qed.
End runs.

(** ** What every step keeps, whatever the state *)

Section steady.
Context {K : Type} `{Posix K}.
Implicit Types w : CW K.

Definition anything (f : fault) : Prop := True.

(** The closes that a state accounts for. *)
Definition due w : nat :=
  if closeCallback_ (conn w) && bool_decide (state_ (conn w) = kDisconnected) then 1 else 0.

(** Closes are counted, and the state moves forward. *)
Record steady w w' : Prop := mkSteady {
  sd_cb : closeCallback_ (conn w') = closeCallback_ (conn w);
  sd_closes : (closes (trace w') + due w = closes (trace w) + due w')%nat;
  sd_rank : (rank (state_ (conn w)) <= rank (state_ (conn w')))%nat
}.

#[export] Instance steady_preorder : PreOrder steady.
Proof.
  split; [by intros w; constructor|].
  intros w1 w2 w3 [] []. constructor; [congruence|lia|lia].
Qed.

Definition keeps_steady {A} (m : M (CW K) A) : Prop :=
  forall w, wp anything m (fun _ w' => steady w w') w.

(** The parts of the state that [steady] looks at. *)
Definition alike w w' : Prop :=
  closeCallback_ (conn w') = closeCallback_ (conn w) /\ state_ (conn w') = state_ (conn w)
  /\ trace w' = trace w.

Lemma alike_steady w w' : alike w w' -> steady w w'.
Proof.
  intros (Hc & Hs & Ht). constructor; [done| |by rewrite Hs].
  unfold due. by rewrite Hc, Hs, Ht.
Qed.

Lemma steady_ret {A} (a : A) : keeps_steady (ret a).
Proof. by intros w. Qed.
Lemma steady_gets {A} (g : CW K -> A) : keeps_steady (gets g).
Proof. by intros w. Qed.
Lemma steady_throw {A} f : keeps_steady (throw f : M (CW K) A).
Proof. by intros w. Qed.
Lemma steady_assert site b : keeps_steady (assert_ site b).
Proof. intros w. by destruct b. Qed.
Lemma steady_when b m : keeps_steady m -> keeps_steady (when b m).
Proof. intros Hm w. destruct b; [apply Hm|by rewrite wp_when]. Qed.

Lemma steady_bind {A B} (m : M (CW K) A) (f : A -> M (CW K) B) :
  keeps_steady m -> (forall a, keeps_steady (f a)) -> keeps_steady (bind m f).
Proof.
  intros Hm Hf w. rewrite wp_bind. wp_call Hm. intros a w1 H1. wp_call Hf. intros _ w2 H2. by etrans.
Qed.

Lemma zoom_alike {A T} (get : CW K -> T) put (m : M T A) w :
  (forall t w, alike w (put t w)) -> wp anything (zoom get put m) (fun _ w' => alike w w') w.
Proof. intros Hp. rewrite wp_zoom. unfold wp. by destruct (m (get w)) as [[a t]|f]. Qed.

Lemma steady_zoom {A T} (get : CW K -> T) put (m : M T A) :
  (forall t w, alike w (put t w)) -> keeps_steady (zoom get put m).
Proof. intros Hp w. wp_call zoom_alike; [done|]. intros _ w'. apply alike_steady. Qed.

Lemma steady_from {A} (m : M (CW K) A) w w1 :
  steady w w1 -> keeps_steady m -> wp anything m (fun _ w' => steady w w') w1.
Proof. intros H1 Hm. wp_call Hm. intros _ w2 H2. by etrans. Qed.

Lemma steady_modify (g : CW K -> CW K) : (forall w, alike w (g w)) -> keeps_steady (modify g).
Proof. intros Hg w. rewrite wp_modify. by apply alike_steady. Qed.

Lemma steady_forM {A} (l : list A) (f : A -> M (CW K) unit) :
  (forall a, keeps_steady (f a)) -> keeps_steady (forM l f).
Proof. intros Hf. induction l as [|a l IH]; [apply steady_ret|by apply steady_bind]. Qed.

Lemma steady_record o : o <> OClose -> keeps_steady (record o).
Proof.
  intros Ho w. cw_simpl. constructor; simpl; try done. unfold due. simpl. rewrite closes_app.
  destruct o; simpl; [lia|lia|done|lia].
Qed.
End steady.

Create HintDb steady.

Ltac steady_step :=
  match goal with
  | |- keeps_steady (bind _ _) => apply steady_bind; [|intros ?]
  | |- keeps_steady (ret _) => apply steady_ret
  | |- keeps_steady (gets _) => apply steady_gets
  | |- keeps_steady (throw _) => apply steady_throw
  | |- keeps_steady (assert_ _ _) => apply steady_assert
  | |- keeps_steady (when _ _) => apply steady_when
  | |- keeps_steady (record _) => by apply steady_record
  | |- keeps_steady (forM _ _) => apply steady_forM; intros ?
  | |- keeps_steady (match ?x with _ => _ end) => destruct x
  | |- keeps_steady (let '(_, _) := ?x in _) => destruct x
  | |- keeps_steady (zoom _ _ _) => by apply steady_zoom
  | |- keeps_steady (modify _) => by apply steady_modify
  end.
Ltac steady_tac :=
  unfold os, on_loop, on_chan, on_output, on_input, on_input_kernel, get_state, isWriting, output_size;
  repeat first [steady_step | solve [auto with steady]].

Section operations.
Context {K : Type} `{Posix K}.
Implicit Types w : CW K.
Abbreviation ks := (keeps_steady (K := K)).

Lemma shutdownInLoop_steady : ks shutdownInLoop.
Proof. unfold shutdownInLoop. steady_tac. Qed.
#[local] Hint Resolve shutdownInLoop_steady : steady.

(** An exchange on a connection that is open. *)
Lemma exchange_steady w :
  state_ (conn w) <> kDisconnected ->
  steady w (mkCW (set_state kDisconnecting (conn w)) (loop w) (trace w)).
Proof.
  intros Hd. constructor; simpl; [done| |].
  - unfold due. simpl. by rewrite (bool_decide_eq_false_2 _ Hd), !andb_false_r.
  - destruct (state_ (conn w)); simpl; try lia; done.
Qed.

Lemma shutdown_steady : ks shutdown.
Proof.
  intros w. unfold shutdown, stateAtomicGetAndSet. cw_simpl. case_bool_decide as Hd; [done|].
  cw_simpl. pose proof (exchange_steady w Hd) as Hs. set (w1 := mkCW _ _ _) in *.
  destruct (bool_decide (state_ (conn w) = kConnected)); cw_simpl; [|done].
  rewrite <- wp_bind. apply steady_from; [done|]. steady_tac.
Qed.
#[local] Hint Resolve shutdown_steady : steady.

Lemma queueInLoop_steady t : ks (on_loop (EventLoop.queueInLoop t)).
Proof. steady_tac. Qed.

Lemma stopReadInLoop_steady : ks stopReadInLoop.
Proof. unfold stopReadInLoop. steady_tac. Qed.
Lemma startReadInLoop_steady : ks startReadInLoop.
Proof. unfold startReadInLoop. steady_tac. Qed.
#[local] Hint Resolve stopReadInLoop_steady startReadInLoop_steady : steady.

(** Handlers, for a handleClose that is steady. *)
Section closing.
Variable hc : M (CW K) unit.
Hypothesis hc_steady : ks hc.
#[local] Hint Resolve hc_steady : steady.

Lemma handleError_with_steady : ks (handleError_with hc).
Proof. unfold handleError_with. steady_tac. Qed.

Lemma sendInLoop_steady data : ks (sendInLoop hc data).
Proof. unfold sendInLoop, direct_write, buffer_rest. steady_tac. Qed.
#[local] Hint Resolve sendInLoop_steady : steady.

Lemma forceCloseInLoop_steady : ks (forceCloseInLoop hc).
Proof. unfold forceCloseInLoop. steady_tac. Qed.
#[local] Hint Resolve forceCloseInLoop_steady : steady.

Lemma forceClose_steady : ks (forceClose hc).
Proof.
  intros w. unfold forceClose, forceClose_exchange, stateAtomicGetAndSet. cw_simpl.
  case_bool_decide as Hd; cbn [negb]; cw_simpl; [done|].
  pose proof (exchange_steady w Hd) as Hs. set (w1 := mkCW _ _ _) in *.
  rewrite <- wp_bind. apply steady_from; [done|]. steady_tac.
Qed.
#[local] Hint Resolve forceClose_steady : steady.

Lemma run_api_steady a : ks (run_api hc a).
Proof.
  unfold run_api, send, send_input, stopRead, startRead, EventLoop.runInLoop. steady_tac.
Qed.
End closing.

Section callbacks.
Variables on_close on_message : list api.

(** handleClose: the state becomes kDisconnected and the callback is recorded. *)
Lemma handleClose_with_steady user : ks user -> ks (handleClose_with user).
Proof.
  intros Hu w. unfold handleClose_with, on_loop, on_chan. rewrite wp_bind.
  wp_call zoom_alike; [done|]. intros _ w1 (Hc1 & Hs1 & Ht1). cw_simpl.
  destruct (_ || _) eqn:Eopen; [|done].
  assert (state_ (conn w) <> kDisconnected) as Hopen by (intros Hd; rewrite Hs1, Hd in Eopen; done).
  set (w2 := mkCW (set_state kDisconnected (conn w1)) (loop w1) (trace w1)).
  wp_call zoom_alike; [done|]. intros _ w3 (Hc3 & Hs3 & Ht3). simpl in Hs3.
  assert (forall l, closes l = (closes (trace w) + if closeCallback_ (conn w) then 1 else 0)%nat ->
    steady w (mkCW (conn w3) (loop w3) l)) as Hfin.
  { intros l Hl. constructor; simpl; [by rewrite Hc3| |rewrite Hs3; destruct (state_ (conn w)); simpl; lia].
    unfold due. simpl. rewrite Hl, Hs3, Hc3, (bool_decide_eq_false_2 _ Hopen), andb_false_r. simpl.
    rewrite Hc1. destruct (closeCallback_ (conn w)); simpl; lia. }
  cw_simpl. rewrite Hc3. simpl. rewrite Hc1. destruct (closeCallback_ (conn w)) eqn:Ecb; cw_simpl.
  - apply steady_from; [|done]. apply Hfin. rewrite closes_app, Ht3. simpl. by rewrite Ht1.
  - destruct w3. apply Hfin. simpl in Ht3 |- *. subst. rewrite Ht1. lia.
Qed.

Lemma handleClose_steady : ks (handleClose on_close).
Proof.
  unfold handleClose. cbn [handleClose_depth]. apply handleClose_with_steady, steady_forM. intros a.
  apply run_api_steady, handleClose_with_steady, steady_throw.
Qed.
#[local] Hint Resolve handleClose_steady : steady.

Lemma handleError_steady : ks (handleError on_close).
Proof. apply handleError_with_steady, handleClose_steady. Qed.
Lemma call_steady a : ks (call on_close a).
Proof. apply run_api_steady, handleClose_steady. Qed.
#[local] Hint Resolve handleError_steady call_steady : steady.

Lemma run_callback_steady cb : ks (run_callback on_close on_message cb).
Proof. destruct cb; simpl; unfold handleRead, handleWrite; steady_tac. Qed.
#[local] Hint Resolve run_callback_steady : steady.

Lemma dispatch_steady r : ks (dispatch on_close on_message r).
Proof.
  unfold dispatch, ChannelOps.handleEvents, ChannelOps.handleEventWithGuard, ChannelOps.call_if.
  steady_tac.
Qed.

Lemma run_next_steady : ks (run_next on_close on_message).
Proof.
  pose proof (sendInLoop_steady (handleClose on_close) handleClose_steady).
  pose proof (forceCloseInLoop_steady (handleClose on_close) handleClose_steady).
  unfold run_next, run_task. steady_tac.
Qed.
End callbacks.

Lemma run_event_steady on_close e : ks (run_event on_close e).
Proof.
  destruct e as [r user|user|a|t a]; simpl;
    [apply dispatch_steady|apply run_next_steady|apply call_steady|].
  pose proof (call_steady on_close a). unfold remote_call. steady_tac.
Qed.

Lemma load_steady c : ks (load c).
Proof. unfold load. steady_tac. Qed.
Lemma enqueue_steady t task : ks (enqueue t task).
Proof. unfold enqueue. steady_tac. Qed.
End operations.

(** ** The invariant of runs *)

Section invariant.
Context {K : Type} `{Posix K} `{!SocketLaws K} `{!ReadvLaws K}.
Context (on_close : list api) (on_close_ok : forallb api_okb on_close = true).
Implicit Types r : race K.

Definition is_closed r : bool := bool_decide (state_ (conn (cw r)) = kDisconnected).

Definition stage_ok (s : stage) : Prop := match s with Exchanged t => task_ok t | Loaded _ => True end.

Record RaceInv (w0 : CW K) r : Prop := mkRaceInv {
  rc_cb : closeCallback_ (conn (cw r)) = closeCallback_ (conn w0);
  rc_closes : closes (trace (cw r))
    = if closeCallback_ (conn w0) then (revived r + if is_closed r then 1 else 0)%nat else O;
  rc_inv : revived r = O ->
    RInv (sent_by w0) (cw r) /\ map_Forall (fun _ => stage_ok) (stages r)
}.

(** An exchange that finds the connection closed. *)
Definition revives (e : race_event) r r' : Prop :=
  exists t c, e = RExchange t /\ stages r !! t = Some (Loaded c)
    /\ state_ (conn (cw r)) = kDisconnected
    /\ cw r' = mkCW (set_state kDisconnecting (conn (cw r))) (loop (cw r)) (trace (cw r))
    /\ revived r' = S (revived r).

Lemma lift_steady {A} (m : M (CW K) A) k r r' :
  keeps_steady m -> (forall a w, cw (k a w) = w /\ revived (k a w) = revived r) ->
  lift m k (cw r) = Ok r' -> steady (cw r) (cw r') /\ revived r' = revived r.
Proof.
  intros Hm Hk. specialize (Hm (cw r)). unfold lift, wp in *.
  destruct (m (cw r)) as [[a w]|]; [|done]. intros [= <-]. by destruct (Hk a w) as [-> ->].
Qed.

Lemma race_step_cases e r r' :
  race_step on_close e r = Ok r' ->
  (steady (cw r) (cw r') /\ revived r' = revived r) \/ revives e r r'.
Proof.
  destruct e as [e|t c|t|t]; simpl.
  - intros Hs. left. by eapply lift_steady; [apply run_event_steady| |exact Hs].
  - intros Hs. left. by eapply lift_steady; [apply (load_steady c)| |exact Hs].
  - destruct (stages r !! t) as [[c|task]|] eqn:Et; [|intros [= <-]; by left..].
    unfold lift, exchange, stateAtomicGetAndSet, get_state, upd_conn, bind, gets, modify, ret.
    intros [= <-]. unfold disconnected.
    destruct (decide (state_ (conn (cw r)) = kDisconnected)) as [Hd|Hd]; [right; exists t, c|left]; simpl.
    + split_and!; try done. simpl. by rewrite (bool_decide_eq_true_2 _ Hd).
    + rewrite (bool_decide_eq_false_2 _ Hd). split; [by apply exchange_steady|done].
  - destruct (stages r !! t) as [[c|task]|]; [intros [= <-]; by left| |intros [= <-]; by left].
    intros Hs. left. by eapply lift_steady; [apply (enqueue_steady t task)| |exact Hs].
Qed.

(** The count of the closes, for a step of either kind. *)
Lemma race_step_closes w0 e r r' :
  RaceInv w0 r -> race_step on_close e r = Ok r' ->
  closeCallback_ (conn (cw r')) = closeCallback_ (conn w0)
  /\ closes (trace (cw r'))
     = if closeCallback_ (conn w0) then (revived r' + if is_closed r' then 1 else 0)%nat else O.
Proof.
  intros [Hcb Hn _] Hs. unfold is_closed in *.
  destruct (race_step_cases e r r' Hs) as [[[] ->]|(t & c & _ & _ & Hd & Hw & ->)].
  - split; [congruence|]. unfold due in sd_closes0. rewrite sd_cb0, Hcb, Hn in *.
    destruct (closeCallback_ (conn w0)); simpl in *; repeat case_bool_decide; lia.
  - rewrite Hw. simpl. split; [done|]. rewrite Hn, Hd.
    destruct (closeCallback_ (conn w0)); simpl; lia.
Qed.

(** *** While no exchange has found the connection closed *)

Lemma exchange_RInv base w c :
  state_ (conn w) <> kDisconnected -> RInv base w ->
  wp anything (exchange c) (fun o w' => RInv base w' /\ forall t, o = Some t -> task_ok t) w.
Proof.
  intros Hd Hr. unfold exchange, stateAtomicGetAndSet. cw_simpl. split.
  - destruct (Inv_disconnecting base w Hd (r_inv _ _ Hr)) as [Hi [Hf _]].
    eapply RInv_later; [done|exact Hi|by apply frame_later].
  - intros t. destruct c; case_bool_decide; simpl; by intros [= <-].
Qed.

Lemma enqueue_RInv base w t task :
  task_ok task -> RInv base w -> wp anything (enqueue t task) (fun _ => RInv base) w.
Proof.
  intros Ht [Hi Hl Hin Htie]. unfold enqueue. cw_simpl. rewrite wp_on_loop, wp_gets. cw_simpl.
  rewrite wp_on_loop, wp_modify. cw_simpl. simpl.
  set (w1 := mkCW (conn w) (set_current t (loop w)) (trace w)).
  assert (Inv base w1) as Hi1 by (destruct Hi as [[] Hs]; split; [by constructor|done]).
  apply queue_wp; [by destruct Hi1 as [[] _]|done|]. intros l' Hq _. rewrite wp_on_loop, wp_modify.
  apply (Inv_loop base w1 l' Hq) in Hi1. destruct Hi1 as [[] Hs], Hq. simpl in *.
  constructor; simpl; [split; [by constructor|done]| |done|done].
  unfold isInLoopThread in *. simpl. congruence.
Qed.

Lemma race_step_RInv w0 e r r' :
  RaceInv w0 r -> race_enabled e r = true -> race_step on_close e r = Ok r' -> revived r' = O ->
  RInv (sent_by w0) (cw r') /\ map_Forall (fun _ => stage_ok) (stages r').
Proof.
  intros [_ _ Hi] He Hs Hz.
  assert (revived r = O) as Hr0.
  { destruct (race_step_cases e r r' Hs) as [[_ ?]|(? & ? & _ & _ & _ & _ & ?)]; congruence. }
  specialize (Hi Hr0) as [Hi Hst]. destruct e as [e|t c|t|t]; simpl in *; unfold lift in Hs.
  - apply andb_prop in He as [He _].
    pose proof (event_ok on_close on_close_ok _ e (cw r) Hi He) as Hw. unfold wp in Hw.
    destruct (run_event on_close e (cw r)) as [[[] w']|]; [|done]. injection Hs as <-. by destruct Hw as (_ & ? & _).
  - destruct (load c (cw r)) as [[go w]|] eqn:El; [|done]. injection Hs as <-. simpl.
    assert (w = cw r) as ->.
    { clear -El. unfold load, get_state, bind, gets, assert_, ensure, ret in El.
      destruct c; case_bool_decide; simpl in El; by simplify_eq. }
    split; [done|]. destruct go; [|done]. by apply map_Forall_insert_2.
  - destruct (stages r !! t) as [[c|]|] eqn:Et; try done.
    assert (state_ (conn (cw r)) <> kDisconnected) as Hd.
    { intros Hd. destruct (race_step_cases (RExchange t) r r') as [[[] _]|(? & ? & _ & _ & _ & _ & ?)].
      - simpl. by rewrite Et.
      - rewrite Hd in sd_rank0. destruct (exchange c (cw r)) as [[o w]|] eqn:Ex; [|done].
        injection Hs as <-. simpl in *. unfold disconnected in Hz. by rewrite (bool_decide_eq_true_2 _ Hd) in Hz.
      - congruence. }
    pose proof (exchange_RInv _ (cw r) c Hd Hi) as Hw. unfold wp in Hw.
    destruct (exchange c (cw r)) as [[o w]|]; [|done]. injection Hs as <-. simpl.
    destruct Hw as [Hw Ho]. split; [done|]. destruct o; [|by apply map_Forall_delete].
    apply map_Forall_insert_2; [by apply Ho|done].
  - destruct (stages r !! t) as [[|task]|] eqn:Et; try done.
    pose proof (enqueue_RInv _ (cw r) t task (Hst _ _ Et) Hi) as Hw. unfold wp in Hw.
    destruct (enqueue t task (cw r)) as [[[] w]|]; [|done]. injection Hs as <-. simpl.
    split; [done|]. by apply map_Forall_delete.
Qed.

Lemma race_reach_inv w0 r : fresh w0 -> race_reach on_close w0 r -> RaceInv w0 r.
Proof.
  intros Hf. induction 1 as [self w Hc|e r r' _ IH He Hs].
  - pose proof (connectEstablished_ok self w0 Hf) as Hw. unfold wp in Hw. rewrite Hc in Hw.
    destruct Hw as [Hi []]. pose proof Hi as [[[] _] _ _ _]. constructor; simpl; [done| |done].
    rewrite inv_closes, lt_close. unfold is_closed. simpl. by destruct (closeCallback_ (conn w0)).
  - destruct (race_step_closes w0 e r r' IH Hs). constructor; [done|done|]. by apply (race_step_RInv w0 e r).
Qed.
End invariant.

(** ** Property *)

(** C3: forceClose and shutdown of other threads, with their load, exchange and
    queueInLoop as separate steps between which anything may happen.  The close
    callback has run once for every time the connection went to kDisconnected:
    once if it is closed now, and once more for every exchange that found it
    closed and turned it back into kDisconnecting (the load had found it open).
    Only such an exchange moves the state back.  As long as there was none, the
    callback has run exactly once when the connection is disconnected and not at
    all before, and the invariant of the runs with whole calls holds (RInv). *)
Theorem close_callback_counted {K} `{Posix K} `{!SocketLaws K} `{!ReadvLaws K} on_close w0 (r : race K) :
  forallb api_okb on_close = true -> fresh w0 -> race_reach on_close w0 r ->
  closes (trace (cw r))
  = (if closeCallback_ (conn w0) then (revived r + if is_closed r then 1 else 0)%nat else O)
  /\ (revived r = O -> RInv (sent_by w0) (cw r))
  /\ forall e r', race_step on_close e r = Ok r' ->
      ((rank (state_ (conn (cw r))) <= rank (state_ (conn (cw r'))))%nat /\ revived r' = revived r)
      \/ revives e r r'.
Proof.
  intros Hc Hf Hr. destruct (race_reach_inv on_close Hc w0 r Hf Hr) as [_ Hn Hi]. split_and!; [done|by apply Hi|].
  intros e r' Hs. destruct (race_step_cases on_close e r r' Hs) as [[[] ?]|?]; [by left|by right].
Qed.

(** Thread 9 loads the state in forceClose, the loop closes the connection,
    thread 9 exchanges; another forceClose closes it again.  In the second run
    the exchange comes before the loop's close. *)
Definition overtaken : list race_event :=
  [RLoad 9 CForceClose; REvent (EvCall AForceClose); RExchange 9;
   REvent (EvRemote 8 AForceClose); REvent (EvTask [])].
Definition in_time : list race_event :=
  [RLoad 9 CForceClose; RExchange 9; REvent (EvCall AForceClose); RQueue 9; REvent (EvTask [])].


Definition race_run (es : list race_event) : option (race SimK) :=
  match connectEstablished 1 (w_init []) with
  | Ok (_, w) => race_play [] es (mkRace w ∅ 0)
  | Err _ => None
  end.

Lemma race_run_reach es r : race_run es = Some r -> race_reach [] (w_init []) r.
Proof.
  unfold race_run. destruct (connectEstablished 1 (w_init [])) as [[[] w]|] eqn:E; [|done].
  apply race_play_reach. by apply (race_start [] (w_init []) 1).
Qed.

Lemma close_callback_counted_witness :
  match race_run overtaken, race_run in_time with
  | Some r, Some r' => closes (trace (cw r)) = 2%nat /\ closes (trace (cw r')) = 1%nat
  | _, _ => False
  end.
Proof.
  destruct (race_run overtaken) as [r|] eqn:E; [|vm_compute in E; discriminate E].
  destruct (race_run in_time) as [r'|] eqn:E'; [|vm_compute in E'; discriminate E'].
  destruct (close_callback_counted [] _ r eq_refl (w_init_fresh _) (race_run_reach _ _ E)) as [Hn _].
  destruct (close_callback_counted [] _ r' eq_refl (w_init_fresh _) (race_run_reach _ _ E')) as [Hn' _].
  vm_compute in E, E'. injection E as <-. injection E' as <-. split; [exact Hn|exact Hn'].
Defined.
