(* ===== verification/TcpReply.v ===== *)
(** * TcpReply: a connection whose message callback answers what it received

    The composition of a connection, its two buffers, its channel and its loop
    with a user callback of the kind that the examples use: it takes all the
    input and sends an answer computed from it (the echo of examples/server.cpp,
    the HTTP server of examples/benchmark_server.cpp), or sends the buffer back.
    [RecvLaws] adds to the kernel the bytes that a descriptor has delivered;
    [same_io] is what everything but reading and sending keeps. *)

From S2P Require Import Prelude Posix Buffer Channel Epoll EventLoop TcpConnection TcpConnectionSpec TcpConnectionRuns.
Import TcpConnection.

#[local] Arguments Z.testbit : simpl never.

(** Text in the source. *)
Definition lit (s : string) : list byte := String.list_byte_of_string s.

(** What readv(2) and the other calls promise about the bytes delivered. *)
Class RecvLaws (K : Type) `{Posix K} : Type := {
  got : K -> Z -> list byte;
  readv_got : forall fd lens k d k',
    sys_readv fd lens k = (SysOk d, k') -> got k' fd = got k fd ++ d;
  readv_err_got : forall fd lens k e k',
    sys_readv fd lens k = (SysErr e, k') -> got k' fd = got k fd;
  write_got : forall fd d k fd', got (sys_write fd d k).2 fd' = got k fd';
  so_error_got : forall fd k fd', got (sys_so_error fd k).2 fd' = got k fd';
  shutdown_got : forall fd k fd', got (sys_shutdown_wr fd k).2 fd' = got k fd';
  log_got : forall e k fd', got (errno_after_log e k).2 fd' = got k fd';
  ctl_got : forall ep op fd ev k fd', got (sys_epoll_ctl ep op fd ev k).2 fd' = got k fd'
}.

#[export] Instance SimRecvLaws : RecvLaws SimK.
Proof.
  refine {| got k _ := sk_got k |}; simpl.
  - intros _ lens k d k'. unfold sim_readv. by destruct (sk_reads k) as [|[x|e] l]; intros [= <- <-].
  - intros _ lens k e k'. unfold sim_readv. by destruct (sk_reads k) as [|[x|e'] l]; intros [= <- <-].
  - intros fd d k _. unfold sim_write. by destruct (sk_writes k) as [|[n|e] l].
  - intros _ k _. by destruct (sk_soerrors k).
  - done.
  - done.
  - intros _ op fd ev k _. unfold sim_epoll_ctl. by destruct op, (sk_epoll k !! fd).
Defined.

(** ** What does not touch the input and the record of sends *)

Section frame.
Context {K : Type} `{Posix K} `{!RecvLaws K}.
Implicit Types w : CW K.

Definition got_by w : list byte := got (kernel (loop w)) (sockfd_ (conn w)).

(** The inputs that the message callback was called with. *)
Definition messages (l : list obs) : list (list byte) :=
  omap (fun o => match o with OMessage d => Some d | _ => None end) l.

Lemma messages_app l l' : messages (l ++ l') = messages l ++ messages l'.
Proof. apply omap_app. Qed.

(** Tasks that only run a user's callback. *)
Definition notice (t : ConnTask) : Prop :=
  match t with TWriteComplete | THighWaterMark _ => True | _ => False end.

(** [ts'] is [ts] with notices behind. *)
Definition more_notices (ts ts' : list ConnTask) : Prop :=
  exists ns, Forall notice ns /\ ts' = ts ++ ns.

Lemma more_notices_refl ts : more_notices ts ts.
Proof. exists []. split; [constructor|by rewrite app_nil_r]. Qed.
#[local] Hint Resolve more_notices_refl : core.
Lemma more_notices_trans ts1 ts2 ts3 :
  more_notices ts1 ts2 -> more_notices ts2 ts3 -> more_notices ts1 ts3.
Proof.
  intros (n1 & H1 & ->) (n2 & H2 & ->). exists (n1 ++ n2). rewrite app_assoc.
  split; [by apply Forall_app|done].
Qed.
Lemma more_notices_Forall (P : ConnTask -> Prop) ts ts' :
  (forall t, notice t -> P t) -> more_notices ts ts' -> Forall P ts -> Forall P ts'.
Proof.
  intros HP (ns & Hn & ->) Ht. apply Forall_app. split; [done|]. by eapply Forall_impl.
Qed.

Record same_io w w' : Prop := mkSameIo {
  io_input : inputBuffer_ (conn w') = inputBuffer_ (conn w);
  io_accepted : accepted (trace w') = accepted (trace w);
  io_messages : messages (trace w') = messages (trace w);
  io_got : got_by w' = got_by w;
  io_fd : sockfd_ (conn w') = sockfd_ (conn w);
  io_message : messageCallback_ (conn w') = messageCallback_ (conn w);
  io_state : state_ (conn w') = state_ (conn w) \/ state_ (conn w') = kDisconnected;
  io_wcb : writeCallback_ (channel_ (conn w')) = writeCallback_ (channel_ (conn w));
  io_loop : isInLoopThread (loop w') = isInLoopThread (loop w);
  io_tasks : more_notices (pendingTasks_ (loop w)) (pendingTasks_ (loop w'))
}.

#[export] Instance same_io_preorder : PreOrder same_io.
Proof.
  split.
  - intros w. constructor; auto.
  - intros w1 w2 w3 [] []. constructor; try congruence; [|by eapply more_notices_trans].
    destruct io_state1 as [E|E]; rewrite E; [done|by right].
Qed.

Definition any_fault (f : fault) : Prop := True.

(** [m] keeps the input and the record, whatever else it does. *)
Definition io_ok {A} (m : M (CW K) A) : Prop :=
  forall w, wp any_fault m (fun _ w' => same_io w w') w.

Lemma io_ret {A} (a : A) : io_ok (ret a).
Proof. intros w. by rewrite wp_ret. Qed.
Lemma io_gets {A} (f : CW K -> A) : io_ok (gets f).
Proof. intros w. by rewrite wp_gets. Qed.
Lemma io_throw {A} f : io_ok (throw (A := A) f).
Proof. intros w. by rewrite wp_throw. Qed.
Lemma io_bind {A B} (m : M (CW K) A) (k : A -> M (CW K) B) :
  io_ok m -> (forall a, io_ok (k a)) -> io_ok (bind m k).
Proof.
  intros Hm Hk w. rewrite wp_bind. wp_call Hm. intros a w1 H1. wp_call Hk. intros b w2 H2.
  by etrans.
Qed.
Lemma io_when b (m : M (CW K) unit) : io_ok m -> io_ok (when b m).
Proof. intros Hm. destruct b; [done|apply io_ret]. Qed.
Lemma io_assert site b : io_ok (assert_ site b).
Proof. intros w. rewrite wp_assert. by destruct b. Qed.
Lemma io_record o : match o with OAccept _ | OMessage _ => False | _ => True end -> io_ok (record o).
Proof.
  intros Ho w. unfold record. rewrite wp_modify. constructor; simpl; auto.
  - rewrite accepted_app. destruct o; unfold accepted; simpl; rewrite ?app_nil_r; done.
  - rewrite messages_app. destruct o; simpl; rewrite ?app_nil_r; done.
Qed.
Lemma io_close : io_ok (upd_conn (set_state kDisconnected)).
Proof. intros w. unfold upd_conn. rewrite wp_modify. constructor; simpl; auto. Qed.
Lemma io_os {A} (f : K -> A * K) : (forall k fd, got (f k).2 fd = got k fd) -> io_ok (os f).
Proof.
  intros Hf w. unfold os, loop_sys. wp_simpl. constructor; simpl; auto. apply Hf.
Qed.
Lemma io_on_output {A} (m : M Buffer A) : io_ok (on_output m).
Proof.
  intros w. unfold on_output. rewrite wp_zoom. unfold wp. destruct (m _) as [[a b]|f]; [|done].
  constructor; simpl; auto.
Qed.

Lemma accepted_one d : accepted [OAccept d] = d.
Proof. unfold accepted. simpl. apply app_nil_r. Qed.

(** Computations on the loop and on a channel with its loop. *)
Definition loop_io (l l' : Loop K ConnTask) : Prop :=
  (forall fd, got (kernel l') fd = got (kernel l) fd) /\ isInLoopThread l' = isInLoopThread l
  /\ more_notices (pendingTasks_ l) (pendingTasks_ l').

Lemma loop_io_refl l : loop_io l l.
Proof. split_and!; auto. Qed.
#[local] Hint Resolve loop_io_refl : core.

Lemma io_on_loop {A} (m : M (Loop K ConnTask) A) :
  (forall l, wp any_fault m (fun _ l' => loop_io l l') l) -> io_ok (on_loop m).
Proof.
  intros Hm w. rewrite wp_on_loop. wp_call Hm. intros a l' (Hg & Hl & Ht). constructor; simpl; auto.
  apply Hg.
Qed.
Lemma io_assert_loop : io_ok (on_loop assertInLoopThread).
Proof.
  apply io_on_loop. intros l. unfold assertInLoopThread. wp_simpl.
  by destruct (isInLoopThread l).
Qed.
Lemma io_queue t : notice t -> io_ok (on_loop (EventLoop.queueInLoop t)).
Proof.
  intros Ht. apply io_on_loop. intros l. unfold EventLoop.queueInLoop, EventLoop.wakeup, loop_sys.
  wp_simpl. assert (more_notices (pendingTasks_ l) (pendingTasks_ l ++ [t])) as Hp.
  { exists [t]. split; [by repeat constructor|done]. }
  destruct (_ || _); [|by split_and!].
  pose proof (write_got (wakeupfd_ l) EventLoop.one_bytes (kernel l)) as Hw.
  destruct (sys_write _ _ _) as [[n|e] k'] eqn:E; simpl in *; wp_simpl; simpl;
    split_and!; try done. intros fd. simpl. by rewrite log_got.
Qed.

(** The calls of the channel into the loop. *)
Abbreviation CL := (Channel ConnCb * Loop K ConnTask)%type.
Definition chan_rel (p p' : CL) : Prop :=
  loop_io p.2 p'.2 /\ writeCallback_ p'.1 = writeCallback_ p.1.
Definition chan_io {A} (m : M CL A) : Prop :=
  forall p, wp any_fault m (fun _ p' => chan_rel p p') p.

#[export] Instance chan_rel_preorder : PreOrder chan_rel.
Proof.
  split; [by intros p; split|]. intros p1 p2 p3 [(G1 & L1 & T1) W1] [(G2 & L2 & T2) W2].
  split; [split_and!|congruence]; [|congruence|by eapply more_notices_trans].
  intros fd. by rewrite G2, G1.
Qed.

Lemma chan_io_bind {A B} (m : M CL A) (k : A -> M CL B) :
  chan_io m -> (forall a, chan_io (k a)) -> chan_io (bind m k).
Proof.
  intros Hm Hk p. rewrite wp_bind. wp_call Hm. intros a p1 H1. wp_call Hk. intros b p2 H2.
  by etrans.
Qed.
Lemma chan_io_ret {A} (a : A) : chan_io (ret a).
Proof. intros p. rewrite wp_ret. reflexivity. Qed.
Lemma chan_io_gets {A} (f : CL -> A) : chan_io (gets f).
Proof. intros p. rewrite wp_gets. reflexivity. Qed.
Lemma chan_io_local (f : Channel ConnCb -> Channel ConnCb) :
  (forall c, writeCallback_ (f c) = writeCallback_ c) -> chan_io (Epoll.chan (modify f)).
Proof. intros Hf p. unfold Epoll.chan. wp_simpl. split; [done|apply Hf]. Qed.
Lemma chan_io_assert : chan_io (Epoll.lp assertInLoopThread).
Proof.
  intros [c l]. unfold Epoll.lp, assertInLoopThread. wp_simpl. simpl.
  destruct (isInLoopThread l); [by split|done].
Qed.
Lemma chan_io_ctl op : chan_io (Epoll.updateChannel_op op).
Proof.
  intros [c l]. unfold Epoll.updateChannel_op, Epoll.lp, loop_sys. wp_simpl. simpl.
  pose proof (ctl_got (epollfd_ (poller_ l)) op (fd_ c) (mkEvent (events_ c) (addr_ c)) (kernel l)) as Hg.
  destruct (sys_epoll_ctl _ _ _ _ _) as [[u|e] k']; simpl in *.
  - wp_simpl. by split.
  - destruct (_ && _)%bool; wp_simpl; [by split|]. destruct (e =? EBADF); by wp_simpl.
Qed.

Ltac chan_step :=
  lazymatch goal with
  | |- chan_io (bind _ _) => apply chan_io_bind; [|intros ?]
  | |- chan_io (ret _) => apply chan_io_ret
  | |- chan_io (gets _) => apply chan_io_gets
  | |- chan_io (Epoll.chan (modify _)) => by apply chan_io_local
  | |- chan_io (Epoll.lp assertInLoopThread) => apply chan_io_assert
  | |- chan_io (Epoll.updateChannel_op _) => apply chan_io_ctl
  | |- chan_io (assert_ _ _) => intros p; rewrite wp_assert; case_bool; [reflexivity|done]
  | |- chan_io (if ?b then _ else _) => destruct b
  end.

Lemma chan_io_change f : chan_io (ChannelOps.change_mask f).
Proof.
  unfold ChannelOps.change_mask, ChannelOps.update, ChannelOps.loop_updateChannel, Epoll.updateChannel.
  repeat chan_step.
Qed.
Lemma chan_io_remove : chan_io ChannelOps.loop_removeChannel.
Proof.
  unfold ChannelOps.loop_removeChannel, Epoll.removeChannel, when. repeat chan_step.
Qed.

Lemma io_on_chan (m : M CL unit) : chan_io m -> io_ok (on_chan m).
Proof.
  intros Hm w. unfold on_chan. rewrite wp_zoom. wp_call Hm. intros [] [c l'] [(Hg & Hl & Ht) Hw].
  constructor; simpl; auto. apply Hg.
Qed.

(** One step of the structure of a computation. *)
Ltac io_step :=
  lazymatch goal with
  | |- io_ok (bind _ _) => apply io_bind; [|intros ?]
  | |- io_ok (ret _) => apply io_ret
  | |- io_ok (gets _) => apply io_gets
  | |- io_ok (throw _) => apply io_throw
  | |- io_ok (when _ _) => apply io_when
  | |- io_ok (assert_ _ _) => apply io_assert
  | |- io_ok (record _) => apply io_record; exact I
  | |- io_ok (upd_conn (set_state kDisconnected)) => apply io_close
  | |- io_ok (on_output _) => apply io_on_output
  | |- io_ok (on_loop assertInLoopThread) => apply io_assert_loop
  | |- io_ok (on_loop (EventLoop.queueInLoop _)) => apply io_queue; exact I
  | |- io_ok (on_chan (ChannelOps.loop_removeChannel)) => apply io_on_chan, chan_io_remove
  | |- io_ok (on_chan _) => apply io_on_chan, chan_io_change
  | |- io_ok (os (sys_write _ _)) => apply io_os; intros; apply write_got
  | |- io_ok (os (sys_so_error _)) => apply io_os; intros; apply so_error_got
  | |- io_ok (os (sys_shutdown_wr _)) => apply io_os; intros; apply shutdown_got
  | |- io_ok (os (errno_after_log _)) => apply io_os; intros; apply log_got
  | |- io_ok (match ?r with SysOk _ => _ | SysErr _ => _ end) => destruct r
  | |- io_ok (if ?b then _ else _) => destruct b
  | |- io_ok (let '(_, _) := ?p in _) => destruct p
  end.
Ltac io_solve := repeat (cbv zeta; io_step).

(** The user's close callback does nothing. *)
Lemma io_handleClose : io_ok (handleClose []).
Proof. unfold handleClose. cbn [handleClose_depth forM]. unfold handleClose_with, get_state. io_solve. Qed.
Lemma io_handleError : io_ok (handleError []).
Proof. unfold handleError, handleError_with. io_solve. apply io_handleClose. Qed.
Lemma io_shutdownInLoop : io_ok shutdownInLoop.
Proof. unfold shutdownInLoop, get_state, isWriting. io_solve. Qed.
Lemma io_handleWrite : io_ok (handleWrite []).
Proof.
  unfold handleWrite, get_state, isWriting, output_size. io_solve.
  - apply io_shutdownInLoop.
  - apply io_handleError.
Qed.
Lemma io_direct_write data : io_ok (direct_write (handleClose []) data).
Proof. unfold direct_write, output_size. io_solve. apply io_handleClose. Qed.
Lemma io_buffer_rest data n remain : io_ok (buffer_rest data n remain).
Proof. unfold buffer_rest, output_size. io_solve. Qed.

(** Closing ends in kDisconnected. *)
Lemma wp_any {S A} (m : M S A) (Q : A -> S -> Prop) s :
  (forall a s', Q a s') -> wp any_fault m Q s.
Proof. intros HQ. unfold wp. by destruct (m s) as [[a s']|f]. Qed.

Lemma handleClose_disconnects w :
  wp any_fault (handleClose []) (fun _ w' => same_io w w' /\ state_ (conn w') = kDisconnected) w.
Proof.
  apply wp_and; [apply io_handleClose|]. unfold handleClose. cbn [handleClose_depth forM].
  unfold handleClose_with. cw_simpl. rewrite wp_on_loop. apply wp_any. intros _ l. cw_simpl.
  case_bool; [|done]. cw_simpl. unfold on_chan. rewrite wp_zoom. apply wp_any. intros _ [c l']. cw_simpl.
  by case_bool; cw_simpl.
Qed.

Lemma handleError_disconnects w :
  wp any_fault (handleError []) (fun _ w' => same_io w w' /\ state_ (conn w') = kDisconnected) w.
Proof.
  apply wp_and; [apply io_handleError|]. unfold handleError, handleError_with. cw_simpl.
  rewrite wp_on_loop. apply wp_any. intros _ l. cw_simpl.
  apply os_wp. cw_simpl. apply os_wp. cw_simpl.
  wp_call handleClose_disconnects. intros _ w' [_ Hd]. exact Hd.
Qed.
(** ** The invariant *)

(** What a read delivers: something, and no more than a vector can hold. *)
Definition input_ok (d : list byte) : Prop := d <> [] /\ zlen d <= Buffer.max_size.

(** The callback [cb] takes the whole input [i] and sends [f i], or sends the
    buffer itself. *)
Definition answers (cb : list byte -> list api) (f : list byte -> list byte) : Prop :=
  forall i, input_ok i -> cb i = [ARetrieveAll; ASend (f i)] \/ (cb i = [ASendInput] /\ f i = i).

Context (cb : list byte -> list api) (f : list byte -> list byte) (Hcb : answers cb f).

(** [base]: what the descriptor had delivered before. *)
Record EInv (base : list byte) w : Prop := mkEInv {
  e_wf : Buffer.wf (inputBuffer_ (conn w));
  e_empty : Buffer.content (inputBuffer_ (conn w)) = [];
  e_message : messageCallback_ (conn w) = true;
  e_state : state_ (conn w) = kConnected \/ state_ (conn w) = kDisconnected;
  e_wcb : writeCallback_ (channel_ (conn w)) = Some CbWrite;
  e_thread : isInLoopThread (loop w) = true;
  e_tasks : Forall notice (pendingTasks_ (loop w));
  e_got : got_by w = base ++ concat (messages (trace w));
  e_answers : accepted (trace w) = concat (map f (messages (trace w)));
  e_nonempty : Forall input_ok (messages (trace w))
}.

Lemma EInv_same base w w' : EInv base w -> same_io w w' -> EInv base w'.
Proof.
  intros [] []. constructor; try congruence; [|by eapply more_notices_Forall].
  destruct io_state0 as [E|E]; rewrite E; [done|by right].
Qed.

Definition keeps_EInv (m : M (CW K) unit) : Prop :=
  forall base w, EInv base w -> wp any_fault m (fun _ w' => EInv base w') w.

Lemma keeps_io m : io_ok m -> keeps_EInv m.
Proof. intros Hm base w Hi. wp_call Hm. intros _ w' Hs. by eapply EInv_same. Qed.

(** Taking responsibility for [data] in a connected connection. *)
Lemma sendInLoop_wp data (Q : unit -> CW K -> Prop) w :
  state_ (conn w) <> kDisconnected -> isInLoopThread (loop w) = true ->
  (forall w', same_io (mkCW (conn w) (loop w) (trace w ++ [OAccept data])) w' -> Q tt w') ->
  wp any_fault (sendInLoop (handleClose []) data) Q w.
Proof.
  intros Hs Hl HQ. unfold sendInLoop. rewrite wp_bind. apply assert_loop_wp; [done|].
  unfold get_state. rewrite wp_bind, wp_gets, bool_decide_eq_false_2 by congruence.
  rewrite wp_bind. unfold record. rewrite wp_modify.
  assert (io_ok (w <- isWriting;;
    t <- (if negb w then direct_write (handleClose []) data else ret (0, zlen data, false));;
    let '(n, remain, faultError) := t in
    when (negb faultError && (0 <? remain)) (buffer_rest data n remain))) as Hio.
  { unfold isWriting. io_solve; [apply io_direct_write|apply io_buffer_rest]. }
  wp_call Hio. intros [] w' Hw. by apply HQ.
Qed.

(** What holds when the message callback is called with the input [i]. *)
Record MInv (base i : list byte) w : Prop := mkMInv {
  m_wf : Buffer.wf (inputBuffer_ (conn w));
  m_input : Buffer.content (inputBuffer_ (conn w)) = i;
  m_message : messageCallback_ (conn w) = true;
  m_state : state_ (conn w) = kConnected;
  m_wcb : writeCallback_ (channel_ (conn w)) = Some CbWrite;
  m_thread : isInLoopThread (loop w) = true;
  m_tasks : Forall notice (pendingTasks_ (loop w));
  m_got : got_by w = base ++ concat (messages (trace w));
  m_answers : accepted (trace w) ++ f i = concat (map f (messages (trace w)));
  m_nonempty : Forall input_ok (messages (trace w))
}.

(** The input taken and its answer sent, in either order. *)
Lemma answered base i w w1 b0 b :
  MInv base i w -> Buffer.wf b -> Buffer.content b = [] ->
  same_io (mkCW (set_input b0 (conn w)) (loop w) (trace w ++ [OAccept (f i)])) w1 ->
  EInv base (mkCW (set_input b (conn w1)) (loop w1) (trace w1)).
Proof.
  intros [] Hb Hc []. simpl in *. constructor; simpl; try done; try congruence.
  - by eapply more_notices_Forall.
  - unfold got_by in *. simpl in *. by rewrite io_got0, io_messages0, messages_app, app_nil_r.
  - by rewrite io_accepted0, io_messages0, accepted_app, accepted_one, messages_app, app_nil_r.
  - by rewrite io_messages0, messages_app, app_nil_r.
Qed.

Lemma message_wp base i w :
  input_ok i -> MInv base i w -> wp any_fault (forM (cb i) (call [])) (fun _ w' => EInv base w') w.
Proof.
  intros Hok Hm. destruct Hm as [] eqn:E. clear E.
  destruct (Hcb i Hok) as [->|[-> Hf]]; cbn [forM]; rewrite wp_bind; unfold call; cbn [run_api].
  - rewrite wp_bind. unfold on_input. rewrite wp_zoom.
    wp_call Buffer.retrieveAllAsString_spec; [done|]. intros s b (_ & Hb & Hc & _).
    rewrite wp_ret, wp_bind. unfold send, get_state.
    rewrite wp_bind, wp_gets, bool_decide_eq_true_2 by done. cbn [negb].
    rewrite wp_bind. apply in_loop_wp. simpl. rewrite m_thread0.
    apply sendInLoop_wp; [simpl; congruence|done|]. intros w1 Hw1. rewrite wp_ret.
    pose proof (answered base i w w1 b b Hm Hb Hc Hw1) as Hi.
    apply io_input in Hw1. simpl in Hw1. destruct w1 as [[] l t]. simpl in *. by subst.
  - unfold send_input, get_state. rewrite wp_bind, wp_gets, bool_decide_eq_true_2 by done. cbn [negb].
    rewrite wp_bind. apply in_loop_wp. rewrite m_thread0, wp_bind, wp_gets, wp_bind.
    apply sendInLoop_wp; [simpl; congruence|done|]. intros w1 Hw1. unfold on_input. rewrite wp_zoom.
    wp_call Buffer.retrieveAll_spec; [by rewrite (io_input _ _ Hw1)|]. intros _ b (Hb & Hc & _).
    rewrite wp_ret. apply (answered base i w w1 (inputBuffer_ (conn w)) b); [done..|].
    rewrite Hf. rewrite m_input0 in Hw1. by destruct w as [[] l t].
Qed.

(** ** The handlers *)

Context `{!ReadvLaws K}.

(** The input that the message callback would see if the socket were read now. *)
Definition arriving w : list byte :=
  Buffer.content (inputBuffer_ (conn w))
  ++ match (sys_readv (sockfd_ (conn w)) (Buffer.readFd_lens (inputBuffer_ (conn w)))
              (kernel (loop w))).1 with
     | SysOk d => d
     | SysErr _ => []
     end.

Lemma any_room b n : n <= Buffer.max_size -> Buffer.room any_fault b n.
Proof. intros Hn. right. by split. Qed.

Lemma handleRead_reply base w :
  EInv base w ->
  wp any_fault (handleRead [] (cb (arriving w))) (fun _ w' => EInv base w') w.
Proof.
  intros Hi. pose proof Hi as []. unfold arriving. rewrite e_empty0. cbn [app].
  unfold handleRead. rewrite wp_bind. apply assert_loop_wp; [done|].
  unfold get_state. rewrite wp_bind, wp_gets. case_bool_decide as Hd; [by rewrite wp_ret|].
  rewrite wp_bind, wp_gets, wp_bind. unfold on_input_kernel. rewrite wp_zoom.
  assert (state_ (conn w) = kConnected) as Hs by by destruct e_state0.
  wp_call Buffer.readFd_spec; [done|by apply any_room|]. intros r [b k'].
  destruct (sys_readv _ _ _) as [[d|e] k1] eqn:E; cbn [fst].
  - intros (-> & Hk & Hb & Hc & _). simpl in Hk, Hb, Hc. subst k'. apply readv_got in E.
    rewrite e_empty0 in Hc. simpl in Hc. set (w1 := mkCW _ _ _).
    assert (got_by w1 = base ++ concat (messages (trace w1)) ++ d) as Hg.
    { unfold got_by in *. simpl. by rewrite E, e_got0, <- app_assoc. }
    case_bool; bool_solve.
    + apply (keeps_io _ io_handleClose). apply zlen_0_nil in E0.
      rewrite E0, app_nil_r in Hg. rewrite E0 in Hc. by constructor.
    + rewrite wp_bind, wp_gets. simpl. rewrite e_message0. simpl.
      rewrite wp_bind, wp_gets, wp_bind. unfold record. rewrite wp_modify.
      assert (input_ok d) as Hok.
      { split; [by intros ->|]. rewrite <- Hc, Buffer.zlen_content, Buffer.readable_wf by done.
        destruct Hb. lia. }
      apply message_wp; [done|]. constructor; simpl; try done.
      * rewrite messages_app, concat_app. simpl. by rewrite app_nil_r, Hc.
      * rewrite accepted_app, messages_app, map_app, concat_app. simpl.
        unfold accepted at 2. simpl. by rewrite !app_nil_r, Hc, e_answers0.
      * rewrite messages_app. apply Forall_app. split; [done|]. constructor; [|constructor]. by rewrite Hc.
  - intros [-> [= -> ->]]. apply readv_err_got in E. set (w1 := mkCW _ _ _).
    assert (io_ok (_ <- os (errno_after_log e);; handleError [])) as Hio
      by (io_solve; apply io_handleError).
    apply (keeps_io _ Hio). constructor; simpl; try done.
    unfold got_by in *. simpl. by rewrite E.
Qed.

Lemma handleRead_closed user base w :
  EInv base w -> state_ (conn w) = kDisconnected ->
  wp any_fault (handleRead [] user) (fun _ w' => EInv base w') w.
Proof.
  intros Hi Hd. unfold handleRead. rewrite wp_bind. apply assert_loop_wp; [apply Hi|].
  unfold get_state. by rewrite wp_bind, wp_gets, bool_decide_eq_true_2.
Qed.

(** Once closed, no callback does more than report. *)
Definition closed_inv base w : Prop := EInv base w /\ state_ (conn w) = kDisconnected.

Lemma closed_io base (m : M (CW K) unit) w :
  io_ok m -> closed_inv base w -> wp any_fault m (fun _ w' => closed_inv base w') w.
Proof.
  intros Hm [Hi Hd]. wp_call Hm. intros _ w' Hw. split; [by eapply EInv_same|].
  destruct (io_state _ _ Hw); congruence.
Qed.

Lemma closed_callback user c base w :
  closed_inv base w ->
  wp any_fault (run_callback [] user c) (fun _ w' => closed_inv base w') w.
Proof.
  intros Hi. destruct c; simpl;
    [|by apply closed_io; [apply io_handleWrite|]|by apply closed_io; [apply io_handleClose|]
     |by apply closed_io; [apply io_handleError|]].
  unfold handleRead. rewrite wp_bind. apply assert_loop_wp; [apply Hi|].
  unfold get_state. rewrite wp_bind, wp_gets, bool_decide_eq_true_2; [done|apply Hi].
Qed.

(** A callback of the channel runs, or none. *)
Lemma call_if_any user cond sel (Q : unit -> CW K -> Prop) w :
  Q tt w ->
  (forall c, sel (get_chan w) = Some c -> wp any_fault (run_callback [] user c) Q w) ->
  wp any_fault (ChannelOps.call_if get_chan (run_callback [] user) cond sel) Q w.
Proof.
  intros H1 H2. unfold ChannelOps.call_if. rewrite wp_bind, wp_gets, wp_when. case_bool; [|done].
  destruct (sel (get_chan w)) as [c|] eqn:Es; [by apply H2|by rewrite wp_ret].
Qed.

(** The close or the error callback: the connection is closed, or nothing ran. *)
Lemma call_if_closes user cond sel c base w0 w (m : M (CW K) unit) :
  run_callback [] user c = m ->
  (forall w, wp any_fault m (fun _ w' => same_io w w' /\ state_ (conn w') = kDisconnected) w) ->
  sel (get_chan w0) = Some c -> EInv base w0 -> closed_inv base w \/ w = w0 ->
  wp any_fault (ChannelOps.call_if get_chan (run_callback [] user) cond sel)
    (fun _ w' => closed_inv base w' \/ w' = w0) w.
Proof.
  intros Hm Hc Hsel Hi Hw. apply call_if_any; [done|]. intros c' Hc'. destruct Hw as [Hw| ->].
  - wp_call closed_callback; [done|]. intros _ w' ?. by left.
  - assert (c' = c) as -> by congruence. rewrite Hm. wp_call Hc. intros _ w' [Hs Hd].
    left. split; [by eapply EInv_same|done].
Qed.

Lemma guarded_reply user base w :
  EInv base w -> installed (get_chan w) -> user = cb (arriving w) ->
  wp any_fault (ChannelOps.handleEventWithGuard get_chan put_chan (run_callback [] user))
    (fun _ w' => EInv base w') w.
Proof.
  intros Hi Hin Hu. unfold ChannelOps.handleEventWithGuard. rewrite wp_bind, wp_modify.
  set (w2 := put_chan _ w). destruct Hin as (Hr & Hw & Hc & He).
  assert (EInv base w2) as Hi2 by (eapply EInv_same; [exact Hi|constructor; simpl; auto]).
  change (arriving w) with (arriving w2) in Hu.
  rewrite wp_bind. wp_call (call_if_closes user _ _ CbClose base w2);
    [done|apply handleClose_disconnects|done|done|by right|]. intros [] w3 H3.
  rewrite wp_bind. wp_call (call_if_closes user _ _ CbError base w2);
    [done|apply handleError_disconnects|done|done|done|]. intros [] w4 H4.
  rewrite wp_bind. apply (wp_mono _ _ (fun _ w' => EInv base w')).
  { apply call_if_any; [by destruct H4 as [[]| ->]|]. intros c Hc4.
    destruct H4 as [H4| ->].
    - wp_call closed_callback; [done|]. by intros _ w' [].
    - assert (c = CbRead) as -> by (change (readCallback_ (get_chan w2)) with
        (readCallback_ (get_chan w)) in Hc4; congruence).
      subst user. by apply handleRead_reply. }
  intros [] w5 H5. rewrite wp_bind. apply (wp_mono _ _ (fun _ w' => EInv base w')).
  { apply call_if_any; [done|]. intros c Hc5.
    assert (c = CbWrite) as -> by (pose proof (e_wcb _ _ H5) as E; unfold get_chan in Hc5; congruence).
    by apply (keeps_io _ io_handleWrite). }
  intros [] w6 H6. rewrite wp_modify. eapply EInv_same; [done|]. constructor; simpl; auto.
Qed.

Lemma dispatch_reply r base w :
  EInv base w -> installed (get_chan w) ->
  wp any_fault (dispatch [] (cb (arriving w)) r) (fun _ w' => EInv base w') w.
Proof.
  intros Hi Hin. unfold dispatch. rewrite wp_bind, wp_modify. set (w1 := put_chan _ w).
  assert (EInv base w1) as Hi1 by (eapply EInv_same; [exact Hi|constructor; simpl; auto]).
  unfold ChannelOps.handleEvents. rewrite wp_bind. apply assert_loop_wp; [apply Hi1|].
  rewrite wp_bind, wp_gets.
  case_bool; [rewrite wp_bind, wp_gets, wp_when; case_bool; [|done]|]; by apply guarded_reply.
Qed.

Lemma run_next_reply : keeps_EInv (run_next (K:=K) [] []).
Proof.
  intros base w Hi. unfold run_next. rewrite wp_bind, wp_on_loop, wp_gets. simpl.
  destruct (pendingTasks_ (loop w)) as [|t ts] eqn:Hp.
  - rewrite wp_ret. by destruct w.
  - rewrite wp_bind, wp_on_loop, wp_modify. destruct Hi. rewrite Hp in e_tasks0.
    apply Forall_cons in e_tasks0 as [Ht Hts].
    destruct t; try done; cbn [run_task forM]; rewrite wp_ret; by constructor.
Qed.

(** A connection as its owner hands it to the loop: with the message callback. *)
Definition ready w : Prop :=
  fresh w /\ messageCallback_ (conn w) = true /\ Buffer.content (inputBuffer_ (conn w)) = [].

Lemma connectEstablished_reply self w :
  ready w -> wp any_fault (connectEstablished self) (fun _ w' => EInv (got_by w) w') w.
Proof.
  intros ([] & Hm & Hc). unfold connectEstablished, get_state, upd_conn.
  rewrite wp_bind, wp_gets, wp_bind, wp_assert. case_bool; [|done].
  rewrite wp_bind, wp_modify, wp_bind, wp_modify.
  apply (keeps_io _ (io_on_chan _ (chan_io_change _))). constructor; simpl; try done.
  - by left.
  - by destruct fresh_installed as (_ & ? & _).
  - by rewrite fresh_tasks.
  - rewrite fresh_trace. by rewrite app_nil_r.
  - by rewrite fresh_trace.
  - rewrite fresh_trace. constructor.
Qed.

(** ** Runs *)

(** The loop dispatches what epoll_wait returned, or runs a queued task. *)
Inductive reply_event : Type := RDispatch (revents : Z) | RTask.

Definition to_event (e : reply_event) w : event :=
  match e with
  | RDispatch r => EvDispatch r (cb (arriving w))
  | RTask => EvTask []
  end.

Inductive reply_run w0 : CW K -> Prop :=
| reply_start self w :
    connectEstablished self w0 = Ok (tt, w) -> reply_run w0 w
| reply_step e w w' :
    reply_run w0 w -> enabled (to_event e w) w = true ->
    run_event [] (to_event e w) w = Ok (tt, w') -> reply_run w0 w'.

Lemma reply_run_reach w0 w : reply_run w0 w -> reach [] w0 w.
Proof. induction 1; [by eapply reach_start|by eapply reach_event]. Qed.

(** Runs as lists of events. *)
Fixpoint reply_play (es : list reply_event) w : option (CW K) :=
  match es with
  | [] => Some w
  | e :: es' =>
      if enabled (to_event e w) w then
        match run_event [] (to_event e w) w with
        | Ok (_, w') => reply_play es' w'
        | Err _ => None
        end
      else None
  end.
Definition start_reply (es : list reply_event) w0 : option (CW K) :=
  match connectEstablished 1 w0 with
  | Ok (_, w) => reply_play es w
  | Err _ => None
  end.

Lemma start_reply_run es w0 w : start_reply es w0 = Some w -> reply_run w0 w.
Proof.
  unfold start_reply. destruct (connectEstablished 1 w0) as [[[] w1]|] eqn:E; [|done].
  assert (reply_run w0 w1) as Hr by by eapply reply_start.
  clear E. revert w1 Hr. induction es as [|e es IH]; simpl; intros w1 Hr; [by intros [= <-]|].
  destruct (enabled _ w1) eqn:En; [|done].
  destruct (run_event [] _ w1) as [[[] w2]|] eqn:Er; [|done].
  apply IH. by eapply reply_step.
Qed.

Context `{!SocketLaws K}.

Lemma reply_run_inv w0 w : ready w0 -> reply_run w0 w -> EInv (got_by w0) w.
Proof.
  intros Hf. induction 1 as [self w E|e w w' Hr IH Hen E].
  - pose proof (connectEstablished_reply self w0 Hf) as Hw. unfold wp in Hw. by rewrite E in Hw.
  - apply reply_run_reach in Hr. destruct Hf as [Hf _].
    destruct (reach_inv [] eq_refl w0 w Hf Hr) as [[] _].
    assert (wp any_fault (run_event [] (to_event e w)) (fun _ w' => EInv (got_by w0) w') w) as Hw
      by (destruct e; [by apply dispatch_reply|by apply run_next_reply]).
    unfold wp in Hw. by rewrite E in Hw.
Qed.

(** What a run shows: the answers, in order, to what the reads delivered. *)
Lemma reply_run_answers w0 w :
  ready w0 -> reply_run w0 w ->
  Forall input_ok (messages (trace w))
  /\ got_by w = got_by w0 ++ concat (messages (trace w))
  /\ sent_by w `prefix_of` sent_by w0 ++ concat (map f (messages (trace w)))
  /\ (state_ (conn w) <> kDisconnected ->
      Buffer.content (inputBuffer_ (conn w)) = []
      /\ sent_by w ++ Buffer.content (outputBuffer_ (conn w))
         = sent_by w0 ++ concat (map f (messages (trace w)))).
Proof.
  intros Hw Hr. destruct (reply_run_inv w0 w Hw Hr). destruct Hw as [Hf _].
  apply reply_run_reach in Hr. destruct (reach_inv [] eq_refl w0 w Hf Hr) as [[[[] Hs] _ _ _] _].
  rewrite <- e_answers0. split_and!; [done..|]. intros Hd. by split; [|apply Hs].
Qed.

(** ** Sending the answers *)

(** A dispatch of EPOLLOUT alone runs handleWrite or nothing. *)
Lemma dispatch_out_same w :
  writeCallback_ (get_chan w) = Some CbWrite -> isInLoopThread (loop w) = true ->
  wp any_fault (dispatch [] [] EPOLLOUT) (fun _ w' => same_io w w') w.
Proof.
  intros Hw Hl. unfold dispatch. rewrite wp_bind, wp_modify. set (w1 := put_chan _ w).
  assert (same_io w w1) as H1 by (constructor; simpl; auto).
  assert (wp any_fault (ChannelOps.handleEventWithGuard get_chan put_chan (run_callback [] []))
            (fun _ w' => same_io w w') w1) as Hg.
  { unfold ChannelOps.handleEventWithGuard, ChannelOps.call_if. wp_simpl. simpl. wp_simpl.
    set (w2 := put_chan _ w1). assert (same_io w w2) as H2 by (constructor; simpl; auto).
    rewrite Hw. simpl. wp_call (io_handleWrite w2). intros _ w3 H3. wp_simpl.
    etrans; [exact H2|]. etrans; [exact H3|]. constructor; simpl; auto. }
  unfold ChannelOps.handleEvents. rewrite wp_bind. apply assert_loop_wp; [done|].
  rewrite wp_bind, wp_gets.
  case_bool; [rewrite wp_bind, wp_gets, wp_when; case_bool; [|done]|]; exact Hg.
Qed.

Lemma drain_same n w :
  writeCallback_ (get_chan w) = Some CbWrite -> isInLoopThread (loop w) = true ->
  wp any_fault (forM (replicate n EPOLLOUT) (dispatch [] [])) (fun _ w' => same_io w w') w.
Proof.
  revert w. induction n as [|n IH]; intros w Hw Hl; cbn [replicate forM]; [by rewrite wp_ret|].
  rewrite wp_bind. wp_call dispatch_out_same; [done|done|]. intros _ w1 H1. destruct H1 as [] eqn:E.
  clear E. wp_call IH; [by unfold get_chan in *; rewrite io_wcb0|by rewrite io_loop0|].
  intros _ w2 H2. by etrans.
Qed.
End frame.

(** ** The echo server of examples/server.cpp *)

(** Its message callback; the INFO lines are omitted. *)
Definition echo_answer (msg : list byte) : list byte := lit "Echo: " ++ msg.
Definition echo_server_callback (msg : list byte) : list api :=
  [ARetrieveAll; ASend (echo_answer msg)].

(** ** Property *)

(** A connection, with the kernel that a script needs. *)
Definition e_init (reads : list (sysres (list byte))) (writes : list (sysres Z)) : CW SimK :=
  mkCW conn0 (mkLoop (with_reads reads (with_writes writes sim_init)) 1 1 false false
    (mkEpoll 128 3) [] 4 []) [].

Lemma e_init_ready r l : ready (e_init r l).
Proof.
  destruct (Buffer.new_Buffer_spec Buffer.kInitialSize) as (b & Hb & Hwf & Hc & _);
    [by vm_compute..|].
  assert (b = b0) as -> by (unfold b0; by rewrite Hb).
  split; [by constructor|by split].
Qed.

(** C8: a connection whose message callback answers all of its input with
    conn->send: in every run the descriptor has been given a prefix of the
    answers to what the successive reads delivered, in order; until the close
    that and the output buffer are exactly the answers, and the input buffer is
    empty, however the kernel splits the reads and the writes. *)
Theorem connection_answers {K} `{Posix K} `{!SocketLaws K} `{!ReadvLaws K} `{!RecvLaws K} cb f w0 w :
  answers cb f -> ready w0 -> reply_run cb w0 w ->
  exists reads, Forall input_ok reads
    /\ got_by w = got_by w0 ++ concat reads
    /\ sent_by w `prefix_of` sent_by w0 ++ concat (map f reads)
    /\ (state_ (conn w) <> kDisconnected ->
        Buffer.content (inputBuffer_ (conn w)) = []
        /\ sent_by w ++ Buffer.content (outputBuffer_ (conn w))
           = sent_by w0 ++ concat (map f reads)).
Proof. intros Ha Hw Hr. exists (messages (trace w)). by apply (reply_run_answers cb). Qed.

(** C9: every request is answered.  When the peer takes at least one byte of
    every write, a connection whose message callback answers all of its input
    needs no more dispatches of EPOLLOUT than bytes wait in its output buffer
    until the answers to everything that was read so far have been sent, and
    EPOLLOUT is no longer watched. *)
Theorem answers_delivered {K} `{Posix K} `{!SocketLaws K} `{!ReadvLaws K} `{!RecvLaws K}
  (acc : K -> Prop) `{!Accepting K acc} cb f w0 w :
  answers cb f -> ready w0 -> reply_run cb w0 w ->
  state_ (conn w) <> kDisconnected -> acc (kernel (loop w)) ->
  exists reads n, (n <= length (Buffer.content (outputBuffer_ (conn w))))%nat
    /\ got_by w = got_by w0 ++ concat reads
    /\ wp ChannelSpecs.ctl_fault (forM (replicate n EPOLLOUT) (dispatch [] []))
        (fun _ w' => got_by w' = got_by w /\ sent_by w' = sent_by w0 ++ concat (map f reads)
           /\ Channel.isWriting (channel_ (conn w')) = false) w.
Proof.
  intros Ha Hw Hr Hd Hacc. pose proof (reply_run_inv cb f Ha w0 w Hw Hr) as He.
  pose proof (reply_run_reach cb w0 w Hr) as Hre. destruct Hw as [Hf _].
  destruct (reach_inv [] eq_refl w0 w Hf Hre) as [Hi _].
  destruct (drain_wp ChannelSpecs.ctl_fault eq_refl [] acc _ _ w Hi Hd Hacc (le_n _)) as (n & Hn & Hwp).
  pose proof (drain_same n w (e_wcb _ _ _ He) (r_thread _ _ Hi)) as Hsame.
  exists (messages (trace w)), n. split; [done|]. split; [by destruct He|].
  unfold wp in *. destruct (forM _ _ w) as [[[] w']|]; [|done].
  destruct Hwp as (Hr' & Ho & Hs & _), Hsame.
  destruct (empty_idle (sent_by w0) w') as [Hw' Hsent]; [done|by rewrite Hs|done|].
  split_and!; [done| |done]. rewrite Hsent, io_accepted0. by destruct He as [? ? ? ? ? ? ? ? ->].
Qed.

(** The echo server: six bytes arrive in two reads; the first write is short. *)
Definition echo_w0 : CW SimK :=
  e_init [SysOk [x61; x62; x63; x64]; SysOk [x65; x66]] [SysOk 3].
Definition echo_script : list reply_event :=
  [RDispatch EPOLLIN; RDispatch EPOLLIN; RDispatch EPOLLOUT; RTask].
Definition echo_end : CW SimK :=
  Eval vm_compute in default echo_w0 (start_reply echo_server_callback echo_script echo_w0).

Lemma echo_script_ends : start_reply echo_server_callback echo_script echo_w0 = Some echo_end.
Proof. vm_compute. reflexivity. Qed.

Lemma connection_answers_witness :
  exists reads, concat reads = abcdef
    /\ sent_by echo_end ++ Buffer.content (outputBuffer_ (conn echo_end))
       = concat (map echo_answer reads).
Proof.
  destruct (connection_answers echo_server_callback echo_answer echo_w0 echo_end
    (fun i _ => or_introl eq_refl) (e_init_ready _ _) (start_reply_run _ _ _ _ echo_script_ends))
    as (reads & _ & Hg & _ & Hd).
  exists reads. split; [symmetry; exact Hg|]. destruct Hd as [_ Hd]; [discriminate|]. exact Hd.
Defined.

(** The same connection before the first EPOLLOUT: 15 bytes wait. *)
Definition echo_mid : CW SimK :=
  Eval vm_compute in
    default echo_w0 (start_reply echo_server_callback [RDispatch EPOLLIN; RDispatch EPOLLIN] echo_w0).

Lemma echo_mid_run :
  start_reply echo_server_callback [RDispatch EPOLLIN; RDispatch EPOLLIN] echo_w0 = Some echo_mid.
Proof. vm_compute. reflexivity. Qed.

Lemma answers_delivered_witness :
  exists reads n, (n <= 15)%nat /\ concat reads = abcdef
    /\ wp ChannelSpecs.ctl_fault (forM (replicate n EPOLLOUT) (dispatch [] []))
        (fun _ w' => got_by w' = got_by echo_mid /\ sent_by w' = concat (map echo_answer reads)
           /\ Channel.isWriting (channel_ (conn w')) = false) echo_mid.
Proof.
  destruct (answers_delivered (fun k => sk_writes k = []) echo_server_callback echo_answer echo_w0 echo_mid
    (fun i _ => or_introl eq_refl) (e_init_ready _ _) (start_reply_run _ _ _ _ echo_mid_run))
    as (reads & n & Hn & Hg & Hwp); [discriminate|reflexivity|].
  exists reads, n. split; [exact Hn|]. split; [symmetry; exact Hg|exact Hwp].
Defined.
