(* ===== verification/TcpRemote.v ===== *)
(** * TcpRemote: senders on other threads

    Calls of send from threads other than the loop's, and of shutdown from any
    thread, interleaved with the dispatches and the tasks of the loop.  A call of
    send is two steps, the load of the state and the rest, and anything may
    happen between them. *)

From S2P Require Import Prelude Posix Buffer Channel Epoll EventLoop TcpConnection TcpConnectionSpec TcpConnectionRuns TcpReply.
Import TcpConnection.

#[local] Arguments Z.testbit : simpl never.

Section remote.
Context {K : Type} `{Posix K}.
Implicit Types w : CW K.

(** TcpConnection::send after the load of the state. *)
Definition finish_send (seen : ConnectState) (data : list byte) : M (CW K) unit :=
  if negb (bool_decide (seen = kConnected)) then ret tt
  else
    b <- on_loop (gets isInLoopThread);;
    if (b : bool) then sendInLoop (handleClose []) data
    else on_loop (EventLoop.queueInLoop (TSend data)).

Lemma send_split data w :
  send (handleClose []) data w = (seen <- get_state;; finish_send seen data) w.
Proof. reflexivity. Qed.

(** The second step on the thread [other]. *)
Definition finish_remote (other : Z) (seen : ConnectState) (data : list byte) : M (CW K) unit :=
  me <- on_loop (gets current_tid);;
  on_loop (modify (set_current other));;;
  finish_send seen data;;;
  on_loop (modify (set_current me)).

(** Runs of a connection that other threads send on and that any thread shuts
    down, with the data of the calls in the order of their second steps.
    [seen] is what the first step of the call found, whenever that was.  The
    message callback takes the input. *)
Inductive remote_run w0 : list (list byte) -> CW K -> Prop :=
| remote_start self w :
    connectEstablished self w0 = Ok (tt, w) -> remote_run w0 [] w
| remote_dispatch r ds w w' :
    remote_run w0 ds w -> enabled (EvDispatch r [ARetrieveAll]) w = true ->
    dispatch [] [ARetrieveAll] r w = Ok (tt, w') -> remote_run w0 ds w'
| remote_task ds w w' :
    remote_run w0 ds w -> run_next [] [] w = Ok (tt, w') -> remote_run w0 ds w'
| remote_send other seen d ds w w' :
    remote_run w0 ds w -> other <> tid_ (loop w) -> zlen d <= Buffer.max_size ->
    finish_remote other seen d w = Ok (tt, w') ->
    remote_run w0 (if bool_decide (seen = kConnected) then ds ++ [d] else ds) w'
| remote_shutdown thread ds w w' :
    remote_run w0 ds w -> remote_call [] thread AShutdown w = Ok (tt, w') -> remote_run w0 ds w'.

(** The data in the queue of the loop. *)
Definition queued_sends (ts : list ConnTask) : list byte :=
  concat (map (fun t => match t with TSend d => d | _ => [] end) ts).

Lemma queued_sends_app ts ts' : queued_sends (ts ++ ts') = queued_sends ts ++ queued_sends ts'.
Proof. unfold queued_sends. by rewrite map_app, concat_app. Qed.

Lemma queued_sends_notices ts ts' :
  more_notices ts ts' -> queued_sends ts' = queued_sends ts.
Proof.
  intros (ns & Hn & ->). rewrite queued_sends_app.
  assert (queued_sends ns = []) as ->; [|by rewrite app_nil_r].
  induction Hn as [|t ns Ht Hn IH]; [done|]. unfold queued_sends in *. simpl.
  by destruct t; simpl in *; try done; rewrite IH.
Qed.

Context `{!RecvLaws K}.

(** What every handler keeps when no callback sends. *)
Record same_sends w w' : Prop := mkSameSends {
  ss_accepted : accepted (trace w') = accepted (trace w);
  ss_state : state_ (conn w') = state_ (conn w) \/ state_ (conn w') = kDisconnected;
  ss_tasks : more_notices (pendingTasks_ (loop w)) (pendingTasks_ (loop w'))
}.

#[export] Instance same_sends_preorder : PreOrder same_sends.
Proof.
  split.
  - intros w. constructor; auto. apply more_notices_refl.
  - intros w1 w2 w3 [] []. constructor; [congruence| |by eapply more_notices_trans].
    destruct ss_state1 as [E|E]; rewrite E; [done|by right].
Qed.

Definition sends_ok {A} (m : M (CW K) A) : Prop :=
  forall w, wp any_fault m (fun _ w' => same_sends w w') w.

Lemma sends_io {A} (m : M (CW K) A) : io_ok m -> sends_ok m.
Proof. intros Hm w. wp_call Hm. intros a w' []. by constructor. Qed.
Lemma sends_bind {A B} (m : M (CW K) A) (k : A -> M (CW K) B) :
  sends_ok m -> (forall a, sends_ok (k a)) -> sends_ok (bind m k).
Proof.
  intros Hm Hk w. rewrite wp_bind. wp_call Hm. intros a w1 H1. wp_call Hk. intros b w2 H2.
  by etrans.
Qed.
Lemma sends_on_input {A} (m : M Buffer A) : sends_ok (on_input m).
Proof.
  intros w. unfold on_input. rewrite wp_zoom. apply wp_any. intros a b.
  constructor; simpl; auto. apply more_notices_refl.
Qed.
Lemma sends_on_input_kernel {A} (m : M (Buffer * K) A) : sends_ok (on_input_kernel m).
Proof.
  intros w. unfold on_input_kernel. rewrite wp_zoom. apply wp_any. intros a b.
  constructor; simpl; auto. apply more_notices_refl.
Qed.
Lemma sends_message d : sends_ok (record (OMessage d)).
Proof.
  intros w. unfold record. rewrite wp_modify. constructor; simpl; auto; [|apply more_notices_refl].
  rewrite accepted_app. unfold accepted at 2. simpl. apply app_nil_r.
Qed.
Lemma sends_modify f : (forall w, same_sends w (f w)) -> sends_ok (modify f).
Proof. intros Hf w. rewrite wp_modify. apply Hf. Qed.
Lemma sends_put_chan f : sends_ok (modify (fun w : CW K => put_chan (f (get_chan w)) w)).
Proof. apply sends_modify. intros w. constructor; simpl; auto. apply more_notices_refl. Qed.

Lemma sends_handleRead : sends_ok (handleRead [] [ARetrieveAll]).
Proof.
  unfold handleRead, get_state. apply sends_bind; [apply sends_io, io_assert_loop|intros _].
  apply sends_bind; [apply sends_io, io_gets|intros st]. case_match; [apply sends_io, io_ret|].
  apply sends_bind; [apply sends_io, io_gets|intros fd].
  apply sends_bind; [apply sends_on_input_kernel|intros [n|e]].
  - case_match; [apply sends_io, io_handleClose|].
    apply sends_bind; [apply sends_io, io_gets|intros [|]]; [|apply sends_io, io_ret].
    apply sends_bind; [apply sends_io, io_gets|intros d].
    apply sends_bind; [apply sends_message|intros _]. cbn [forM].
    apply sends_bind; [|intros _; apply sends_io, io_ret].
    apply sends_bind; [apply sends_on_input|intros _; apply sends_io, io_ret].
  - apply sends_io. apply io_bind; [apply io_os; intros; apply log_got|intros _]. apply io_handleError.
Qed.

Lemma sends_run_callback c : sends_ok (run_callback [] [ARetrieveAll] c).
Proof.
  destruct c; [apply sends_handleRead|apply sends_io, io_handleWrite|apply sends_io, io_handleClose
    |apply sends_io, io_handleError].
Qed.

Lemma sends_call_if cond sel :
  sends_ok (ChannelOps.call_if get_chan (run_callback [] [ARetrieveAll]) cond sel).
Proof.
  unfold ChannelOps.call_if. apply sends_bind; [apply sends_io, io_gets|intros c].
  unfold when. case_match; [|apply sends_io, io_ret].
  case_match; [apply sends_run_callback|apply sends_io, io_ret].
Qed.

Lemma sends_dispatch r : sends_ok (dispatch [] [ARetrieveAll] r).
Proof.
  assert (sends_ok (ChannelOps.handleEventWithGuard get_chan put_chan
    (run_callback [] [ARetrieveAll]))) as Hg.
  { unfold ChannelOps.handleEventWithGuard.
    apply sends_bind; [apply (sends_put_chan (Channel.set_handling true))|intros _].
    do 4 (apply sends_bind; [apply sends_call_if|intros _]).
    apply (sends_put_chan (Channel.set_handling false)). }
  unfold dispatch, ChannelOps.handleEvents.
  apply sends_bind; [apply (sends_put_chan (Channel.setRevents r))|intros _].
  apply sends_bind; [apply sends_io, io_assert_loop|intros _].
  apply sends_bind; [apply sends_io, io_gets|intros c]. case_match; [|done].
  apply sends_bind; [apply sends_io, io_gets|intros b]. unfold when.
  case_match; [done|apply sends_io, io_ret].
Qed.

(** ** The invariant *)

Definition sendable (t : ConnTask) : Prop :=
  notice t \/ t = TShutdown \/ exists d, t = TSend d.

Record RemInv (ds : list (list byte)) w : Prop := mkRemInv {
  rm_tasks : Forall sendable (pendingTasks_ (loop w));
  rm_prefix : accepted (trace w) `prefix_of` concat ds;
  rm_order : state_ (conn w) <> kDisconnected ->
    accepted (trace w) ++ queued_sends (pendingTasks_ (loop w)) = concat ds
}.

Lemma RemInv_same ds w w' : RemInv ds w -> same_sends w w' -> RemInv ds w'.
Proof.
  intros [] []. constructor.
  - eapply more_notices_Forall; [|done..]. by left.
  - congruence.
  - intros Hd. rewrite ss_accepted0, (queued_sends_notices _ _ ss_tasks0). apply rm_order0.
    destruct ss_state0; congruence.
Qed.

Lemma run_next_remote ds w :
  RemInv ds w -> isInLoopThread (loop w) = true ->
  wp any_fault (run_next [] []) (fun _ w' => RemInv ds w') w.
Proof.
  intros Hi Hl. unfold run_next. rewrite wp_bind, wp_on_loop, wp_gets. simpl.
  destruct (pendingTasks_ (loop w)) as [|t ts] eqn:Hp; [rewrite wp_ret; by destruct w|].
  rewrite wp_bind, wp_on_loop, wp_modify. simpl. set (w1 := mkCW _ _ _).
  destruct Hi. rewrite Hp in *. apply Forall_cons in rm_tasks0 as [Ht Hts].
  assert ((forall d, t <> TSend d) -> RemInv ds w1) as Hi1.
  { intros Hn. constructor; try done. intros Hd. rewrite <- (rm_order0 Hd).
    destruct t; try done. by edestruct Hn. }
  destruct Ht as [Ht|[->|[d ->]]].
  - destruct t; try done; cbn [run_task forM]; rewrite wp_ret; by apply Hi1.
  - cbn [run_task]. wp_call (sends_io _ io_shutdownInLoop). intros _ w' Hs.
    eapply RemInv_same; [by apply Hi1|done].
  - cbn [run_task]. change (queued_sends (TSend d :: ts)) with (d ++ queued_sends ts) in rm_order0.
    destruct (decide (state_ (conn w) = kDisconnected)) as [Hs|Hs].
    + unfold sendInLoop. rewrite wp_bind. apply assert_loop_wp; [done|].
      unfold get_state. rewrite wp_bind, wp_gets, bool_decide_eq_true_2 by done.
      rewrite wp_ret. constructor; [done|done|]. intros Hd. by destruct Hd.
    + apply sendInLoop_wp; [done|done|]. intros w' Hio. destruct Hio. simpl in *.
      assert (accepted (trace w') ++ queued_sends ts = concat ds) as E.
      { by rewrite io_accepted, accepted_app, accepted_one, <- app_assoc, rm_order0. }
      constructor.
      * eapply more_notices_Forall; [|done..]. by left.
      * by eexists.
      * intros _. by rewrite (queued_sends_notices _ _ io_tasks).
Qed.

Lemma queueInLoop_pending (t : ConnTask) (l : Loop K ConnTask) :
  wp any_fault (EventLoop.queueInLoop t)
    (fun _ l' => pendingTasks_ l' = pendingTasks_ l ++ [t] /\ tid_ l' = tid_ l) l.
Proof.
  unfold EventLoop.queueInLoop, EventLoop.wakeup, loop_sys. wp_simpl. simpl. case_bool; [|done].
  wp_simpl. destruct (sys_write _ _ _) as [[]]; simpl; by wp_simpl.
Qed.

Lemma finish_remote_order other seen d ds w :
  RemInv ds w -> other <> tid_ (loop w) ->
  wp any_fault (finish_remote other seen d)
    (fun _ w' => RemInv (if bool_decide (seen = kConnected) then ds ++ [d] else ds) w') w.
Proof.
  intros [] Ho. unfold finish_remote, finish_send. rewrite wp_bind, wp_on_loop, wp_gets.
  rewrite wp_bind, wp_on_loop, wp_modify, wp_bind. simpl. case_bool_decide; cbn [negb].
  - rewrite wp_bind. apply in_loop_wp.
    lazymatch goal with |- context [isInLoopThread ?l] =>
      assert (isInLoopThread l = false) as -> by (apply Z.eqb_neq; simpl; congruence) end.
    rewrite wp_on_loop. simpl.
    wp_call queueInLoop_pending. intros [] l' [Hp _]. simpl in Hp. rewrite wp_on_loop, wp_modify. constructor; simpl; rewrite ?Hp.
    + apply Forall_app. split; [done|]. constructor; [right; right; by exists d|constructor].
    + rewrite concat_app. by apply prefix_app_r.
    + intros Hd. rewrite queued_sends_app, concat_app, app_assoc, rm_order0 by done. done.
  - rewrite wp_ret, wp_on_loop, wp_modify. by constructor.
Qed.

(** Shutting down sends nothing: it queues or makes the half-close. *)
Lemma shutdown_remote thread ds w :
  RemInv ds w -> wp any_fault (remote_call [] thread AShutdown) (fun _ w' => RemInv ds w') w.
Proof.
  intros []. unfold remote_call, call, run_api, shutdown, stateAtomicGetAndSet, upd_conn, get_state.
  rewrite wp_bind, wp_on_loop, wp_gets, wp_bind, wp_on_loop, wp_modify, wp_bind. simpl.
  set (w1 := mkCW _ _ _).
  apply (wp_mono _ _ (fun _ w' => RemInv ds w')).
  2:{ intros _ w2 []. rewrite wp_on_loop, wp_modify. by constructor. }
  rewrite wp_bind, wp_gets, wp_bind, wp_assert. case_bool; [|exact I].
  rewrite !wp_bind, wp_gets, wp_bind, wp_modify, wp_ret, wp_when.
  assert (RemInv ds (mkCW (set_state kDisconnecting (conn w1)) (loop w1) (trace w1))) as Hi.
  { constructor; simpl; [done..|]. intros _. apply rm_order0. intros Hd. simpl in E.
    by rewrite bool_decide_eq_true_2 in E. }
  case_bool; [|exact Hi]. rewrite wp_bind. apply in_loop_wp. case_bool.
  - wp_call (sends_io _ io_shutdownInLoop). intros _ w' Hs. by eapply RemInv_same.
  - rewrite wp_on_loop. simpl.
    wp_call queueInLoop_pending. intros [] l' [Hp _]. destruct Hi.
    constructor; simpl in *; rewrite ?Hp; [|done|].
    + apply Forall_app. split; [done|]. constructor; [right; by left|constructor].
    + intros Hd. rewrite queued_sends_app. change (queued_sends [TShutdown]) with (@nil byte).
      by rewrite app_nil_r, rm_order1.
Qed.

(** ** Runs *)

Context `{!SocketLaws K} `{!ReadvLaws K}.

(** The second step of a remote call keeps the invariant of the connection. *)
Lemma finish_remote_inv base other seen d w :
  RInv base w -> other <> tid_ (loop w) -> zlen d <= Buffer.max_size ->
  wp any_fault (finish_remote other seen d) (fun _ w' => RInv base w') w.
Proof.
  intros [Hi Hl Hin Ht] Ho Hd. unfold finish_remote, finish_send. rewrite wp_bind, wp_on_loop, wp_gets.
  rewrite wp_bind, wp_on_loop, wp_modify, wp_bind. simpl. set (w1 := mkCW _ _ _).
  assert (forall l', quiet (sockfd_ (conn w)) (loop w1) l' ->
    RInv base (mkCW (conn w) (set_current (current_tid (loop w)) l') (trace w))) as Hq.
  { intros l' Hq. constructor; simpl; [|unfold isInLoopThread in *; destruct Hq; simpl in *; congruence|done..].
    apply (Inv_loop base w); [|done]. destruct Hq. by constructor. }
  case_bool_decide; cbn [negb].
  - rewrite wp_bind. apply in_loop_wp.
    assert (isInLoopThread (loop w1) = false) as -> by (apply Z.eqb_neq; simpl; congruence).
    apply queue_wp; [by destruct Hi as [[] _]|done|]. intros l' Hl' _.
    rewrite wp_on_loop, wp_modify. by apply Hq.
  - rewrite wp_ret, wp_on_loop, wp_modify. apply (Hq (loop w1)). apply quiet_refl.
Qed.

Lemma remote_run_inv w0 ds w :
  fresh w0 -> remote_run w0 ds w -> RInv (sent_by w0) w /\ RemInv ds w.
Proof.
  intros Hf. induction 1 as [self w E|r ds w w' Hr [IHr IHm] He E|ds w w' Hr [IHr IHm] E
    |other seen d ds w w' Hr [IHr IHm] Ho Hd E|t ds w w' Hr [IHr IHm] E].
  - pose proof (connectEstablished_ok self w0 Hf) as Hw. unfold wp in Hw. rewrite E in Hw.
    split; [apply Hw|]. clear Hw. revert E. destruct Hf.
    assert (wp any_fault (connectEstablished self) (fun _ w' => RemInv [] w') w0) as Hw.
    { unfold connectEstablished, get_state, upd_conn.
      rewrite wp_bind, wp_gets, wp_bind, wp_assert. case_bool; [|done].
      rewrite wp_bind, wp_modify, wp_bind, wp_modify. simpl.
      wp_call (sends_io _ (io_on_chan _ (chan_io_change _))). intros _ w1 Hs.
      eapply (RemInv_same []); [|exact Hs].
      constructor; simpl; rewrite ?fresh_tasks, ?fresh_trace; done. }
    intros E. unfold wp in Hw. by rewrite E in Hw.
  - pose proof (event_ok [] eq_refl _ (EvDispatch r [ARetrieveAll]) w IHr He) as Hw.
    unfold wp in Hw. simpl in Hw. rewrite E in Hw. split; [apply Hw|].
    pose proof (sends_dispatch r w) as Hs. unfold wp in Hs. rewrite E in Hs.
    by apply (RemInv_same ds w).
  - pose proof (event_ok [] eq_refl _ (EvTask []) w IHr eq_refl) as Hw.
    unfold wp in Hw. simpl in Hw. rewrite E in Hw. split; [apply Hw|].
    pose proof (run_next_remote ds w IHm (r_thread _ _ IHr)) as Hs. unfold wp in Hs. by rewrite E in Hs.
  - pose proof (finish_remote_inv _ other seen d w IHr Ho Hd) as Hw. unfold wp in Hw. rewrite E in Hw.
    pose proof (finish_remote_order other seen d ds w IHm Ho) as Hs. unfold wp in Hs. by rewrite E in Hs.
  - pose proof (remote_ok [] eq_refl _ t AShutdown w IHr I) as Hw. unfold wp in Hw. rewrite E in Hw.
    pose proof (shutdown_remote t ds w IHm) as Hs. unfold wp in Hs. rewrite E in Hs. by destruct Hw.
Qed.

(** Every step goes on from where the connection was: the same thread, the same
    descriptor, and a state that is not an earlier one. *)
Lemma finish_remote_later other seen d w w' :
  other <> tid_ (loop w) -> finish_remote other seen d w = Ok (tt, w') -> later w w'.
Proof.
  intros Ho E. assert (wp any_fault (finish_remote other seen d) (fun _ w' => later w w') w) as Hw;
    [|unfold wp in Hw; by rewrite E in Hw]. clear E.
  unfold finish_remote, finish_send. rewrite wp_bind, wp_on_loop, wp_gets.
  rewrite wp_bind, wp_on_loop, wp_modify, wp_bind. simpl. case_bool_decide; cbn [negb].
  - rewrite wp_bind. apply in_loop_wp.
    lazymatch goal with |- context [isInLoopThread ?l] =>
      assert (isInLoopThread l = false) as -> by (apply Z.eqb_neq; simpl; congruence) end.
    rewrite wp_on_loop. simpl. wp_call queueInLoop_pending. intros [] l' [_ Ht].
    rewrite wp_on_loop, wp_modify. by constructor.
  - rewrite wp_ret, wp_on_loop, wp_modify. by constructor.
Qed.

Lemma event_later base e w w' :
  RInv base w -> enabled e w = true -> run_event [] e w = Ok (tt, w') -> later w w'.
Proof.
  intros Hr He E. pose proof (event_ok [] eq_refl _ e w Hr He) as Hw. unfold wp in Hw.
  rewrite E in Hw. apply Hw.
Qed.

Lemma shutdown_later base thread w w' :
  RInv base w -> remote_call [] thread AShutdown w = Ok (tt, w') -> later w w'.
Proof.
  intros Hr E. pose proof (remote_ok [] eq_refl _ thread AShutdown w Hr I) as Hw. unfold wp in Hw.
  rewrite E in Hw. apply Hw.
Qed.

Lemma remote_run_later w0 ds w : fresh w0 -> remote_run w0 ds w -> later w0 w.
Proof.
  intros Hf. induction 1 as [self w E|r ds w w' Hr IH He E|ds w w' Hr IH E
    |other seen d ds w w' Hr IH Ho Hd E|t ds w w' Hr IH E].
  1:{ pose proof (connectEstablished_ok self w0 Hf) as Hw. unfold wp in Hw. rewrite E in Hw. apply Hw. }
  all: etrans; [exact IH|]; destruct (remote_run_inv w0 ds w Hf Hr) as [Hi _].
  - by apply (event_later _ (EvDispatch r [ARetrieveAll]) w w' Hi).
  - by apply (event_later _ (EvTask []) w w' Hi).
  - by apply (finish_remote_later other seen d).
  - by apply (shutdown_later _ t w w' Hi).
Qed.

(** ** What the message callback is given *)

(** [base]: what the descriptor had delivered before. *)
Record Heard (base : list byte) w : Prop := mkHeard {
  h_wf : Buffer.wf (inputBuffer_ (conn w));
  h_empty : Buffer.content (inputBuffer_ (conn w)) = [];
  h_message : messageCallback_ (conn w) = true;
  h_got : got_by w = base ++ concat (messages (trace w))
}.

Definition hears {A} (m : M (CW K) A) : Prop :=
  forall base w, Heard base w -> wp any_fault m (fun _ w' => Heard base w') w.

Lemma Heard_same base w w' : Heard base w -> same_io w w' -> Heard base w'.
Proof. intros [] []. constructor; congruence. Qed.
Lemma hears_io {A} (m : M (CW K) A) : io_ok m -> hears m.
Proof. intros Hm base w Hw. wp_call Hm. intros a w' Hs. by eapply Heard_same. Qed.
Lemma hears_bind {A B} (m : M (CW K) A) (k : A -> M (CW K) B) :
  hears m -> (forall a, hears (k a)) -> hears (bind m k).
Proof.
  intros Hm Hk base w Hw. rewrite wp_bind. wp_call Hm; [done|]. intros a w1 H1. by apply Hk.
Qed.
Lemma hears_loop {A} (m : M (Loop K ConnTask) A) :
  (forall l, wp any_fault m (fun _ l' => kernel l' = kernel l) l) -> hears (on_loop m).
Proof.
  intros Hm base w []. rewrite wp_on_loop. wp_call Hm. intros a l' Hl.
  constructor; simpl; try done. unfold got_by in *. simpl. by rewrite Hl.
Qed.
Lemma hears_set_loop f : (forall l : Loop K ConnTask, kernel (f l) = kernel l) -> hears (on_loop (modify f)).
Proof. intros Hf. apply hears_loop. intros l. by rewrite wp_modify. Qed.
Lemma hears_state st : hears (upd_conn (set_state st)).
Proof. intros base w []. unfold upd_conn. rewrite wp_modify. by constructor. Qed.
Lemma hears_put_chan f : hears (modify (fun w : CW K => put_chan (f (get_chan w)) w)).
Proof. intros base w []. rewrite wp_modify. by constructor. Qed.
Lemma hears_queue t : hears (on_loop (EventLoop.queueInLoop t)).
Proof.
  intros base w []. rewrite wp_on_loop. unfold EventLoop.queueInLoop, EventLoop.wakeup, loop_sys. wp_simpl.
  assert (forall l', got (kernel l') (sockfd_ (conn w)) = got (kernel (loop w)) (sockfd_ (conn w)) ->
    Heard base (mkCW (conn w) l' (trace w))) as Hl.
  { intros l' E. constructor; simpl; try done. unfold got_by in *. simpl. by rewrite E. }
  destruct (_ || _); [|by apply Hl].
  pose proof (write_got (wakeupfd_ (loop w)) EventLoop.one_bytes (kernel (loop w))) as Hw.
  simpl. destruct (sys_write _ _ _) as [[n|e] k'] eqn:E; simpl in *; wp_simpl; simpl; apply Hl; simpl;
    [apply Hw|by rewrite log_got].
Qed.

Lemma hears_sendInLoop d : hears (sendInLoop (handleClose []) d).
Proof.
  intros base w Hw. destruct (decide (isInLoopThread (loop w) = true)) as [Hl|Hl].
  - destruct (decide (state_ (conn w) = kDisconnected)) as [Hs|Hs].
    + unfold sendInLoop. rewrite wp_bind. apply assert_loop_wp; [done|].
      unfold get_state. by rewrite wp_bind, wp_gets, bool_decide_eq_true_2.
    + apply sendInLoop_wp; [done..|]. intros w' Hio.
      apply (Heard_same base (mkCW (conn w) (loop w) (trace w ++ [OAccept d]))); [|done].
      destruct Hw. constructor; simpl; try done. by rewrite messages_app, app_nil_r.
  - apply not_true_is_false in Hl. unfold sendInLoop. rewrite wp_bind, wp_on_loop.
    unfold assertInLoopThread. wp_simpl.
    change (get_loop w) with (loop w). by rewrite Hl.
Qed.

Lemma hears_handleRead : hears (handleRead [] [ARetrieveAll]).
Proof.
  unfold handleRead. apply hears_bind; [apply hears_io, io_assert_loop|intros _].
  apply hears_bind; [apply hears_io, io_gets|intros st]. case_match; [apply hears_io, io_ret|].
  intros base w Hw. pose proof Hw as []. rewrite wp_bind, wp_gets, wp_bind. unfold on_input_kernel.
  rewrite wp_zoom. wp_call Buffer.readFd_spec; [done|by apply any_room|]. intros r [b k'].
  destruct (sys_readv _ _ _) as [[d|e] k1] eqn:E; cbn [fst].
  - intros (-> & Hk & Hb & Hc & _). simpl in Hk, Hb, Hc. subst k'. apply readv_got in E.
    rewrite h_empty0 in Hc. simpl in Hc. set (w1 := mkCW _ _ _).
    assert (got_by w1 = base ++ concat (messages (trace w1)) ++ d) as Hg.
    { unfold got_by in *. simpl. by rewrite E, h_got0, <- app_assoc. }
    case_bool; bool_solve.
    + apply (hears_io _ io_handleClose). apply zlen_0_nil in E0.
      rewrite E0, app_nil_r in Hg. rewrite E0 in Hc. by constructor.
    + rewrite wp_bind, wp_gets. simpl. rewrite h_message0. simpl.
      rewrite wp_bind, wp_gets, wp_bind. unfold record. rewrite wp_modify. simpl.
      unfold call. cbn [forM run_api]. rewrite !wp_bind. unfold on_input. rewrite wp_zoom.
      wp_call Buffer.retrieveAllAsString_spec; [done|]. intros s b' (_ & Hb' & Hc' & _).
      rewrite !wp_ret. constructor; simpl; try done.
      rewrite messages_app, concat_app. simpl. rewrite app_nil_r, Hc. exact Hg.
  - intros [-> [= -> ->]]. apply readv_err_got in E. set (w1 := mkCW _ _ _).
    assert (io_ok (_ <- os (errno_after_log e);; handleError [])) as Hio
      by (apply io_bind; [apply io_os; intros; apply log_got|intros _; apply io_handleError]).
    apply (hears_io _ Hio). constructor; simpl; try done. unfold got_by in *. simpl. by rewrite E.
Qed.

Lemma hears_run_callback c : hears (run_callback [] [ARetrieveAll] c).
Proof.
  destruct c; [apply hears_handleRead|apply hears_io, io_handleWrite|apply hears_io, io_handleClose
    |apply hears_io, io_handleError].
Qed.
Lemma hears_call_if cond sel :
  hears (ChannelOps.call_if get_chan (run_callback [] [ARetrieveAll]) cond sel).
Proof.
  unfold ChannelOps.call_if. apply hears_bind; [apply hears_io, io_gets|intros c].
  unfold when. case_match; [|apply hears_io, io_ret].
  case_match; [apply hears_run_callback|apply hears_io, io_ret].
Qed.
Lemma hears_dispatch r : hears (dispatch [] [ARetrieveAll] r).
Proof.
  assert (hears (ChannelOps.handleEventWithGuard get_chan put_chan
    (run_callback [] [ARetrieveAll]))) as Hg.
  { unfold ChannelOps.handleEventWithGuard.
    apply hears_bind; [apply (hears_put_chan (Channel.set_handling true))|intros _].
    do 4 (apply hears_bind; [apply hears_call_if|intros _]).
    apply (hears_put_chan (Channel.set_handling false)). }
  unfold dispatch, ChannelOps.handleEvents.
  apply hears_bind; [apply (hears_put_chan (Channel.setRevents r))|intros _].
  apply hears_bind; [apply hears_io, io_assert_loop|intros _].
  apply hears_bind; [apply hears_io, io_gets|intros c]. case_match; [|done].
  apply hears_bind; [apply hears_io, io_gets|intros b]. unfold when.
  case_match; [done|apply hears_io, io_ret].
Qed.

Lemma hears_in_loop {A} (k : bool -> M (CW K) A) :
  (forall b, hears (k b)) -> hears (bind (on_loop (gets isInLoopThread)) k).
Proof. intros Hk. apply hears_bind; [|done]. apply hears_loop. intros l. by rewrite wp_gets. Qed.

Lemma hears_run_next ds base w :
  RemInv ds w -> Heard base w -> wp any_fault (run_next [] []) (fun _ w' => Heard base w') w.
Proof.
  intros [Ht _ _] Hw. unfold run_next. rewrite wp_bind, wp_on_loop, wp_gets. simpl.
  destruct (pendingTasks_ (loop w)) as [|t ts] eqn:Hp; [rewrite wp_ret; by destruct w|].
  rewrite wp_bind, wp_on_loop, wp_modify. simpl. set (w1 := mkCW _ _ _).
  assert (Heard base w1) as H1 by (by destruct Hw; constructor).
  apply Forall_cons in Ht as [Ht _]. destruct Ht as [Ht|[->|[d ->]]]; cbn [run_task].
  - destruct t; try done; cbn [run_task forM]; by rewrite wp_ret.
  - by apply (hears_io _ io_shutdownInLoop).
  - by apply hears_sendInLoop.
Qed.

Lemma hears_finish_remote other seen d : hears (finish_remote other seen d).
Proof.
  unfold finish_remote, finish_send.
  apply hears_bind; [apply hears_loop; intros l; by rewrite wp_gets|intros me].
  apply hears_bind; [by apply hears_set_loop|intros _].
  apply hears_bind; [|intros _; by apply hears_set_loop].
  case_match; [apply hears_io, io_ret|]. apply hears_in_loop. intros [].
  - apply hears_sendInLoop.
  - apply hears_queue.
Qed.

Lemma hears_shutdown thread : hears (remote_call [] thread AShutdown).
Proof.
  unfold remote_call, call, run_api, shutdown, stateAtomicGetAndSet, get_state.
  apply hears_bind; [apply hears_loop; intros l; by rewrite wp_gets|intros me].
  apply hears_bind; [by apply hears_set_loop|intros _].
  apply hears_bind; [|intros _; by apply hears_set_loop].
  apply hears_bind; [apply hears_io, io_gets|intros st].
  apply hears_bind; [apply hears_io, io_assert|intros _].
  apply hears_bind.
  - apply hears_bind; [apply hears_io, io_gets|intros old].
    apply hears_bind; [apply hears_state|intros _; apply hears_io, io_ret].
  - intros old. unfold when. case_match; [|apply hears_io, io_ret]. apply hears_in_loop. intros [].
    + apply hears_io, io_shutdownInLoop.
    + apply hears_queue.
Qed.

(** In every run the message callback has been given all that was read. *)
Lemma remote_run_heard w0 ds w : ready w0 -> remote_run w0 ds w -> Heard (got_by w0) w.
Proof.
  intros (Hf & Hm & Hc). assert (forall (m : M (CW K) unit) w w', m w = Ok (tt, w') ->
    wp any_fault m (fun _ w' => Heard (got_by w0) w') w -> Heard (got_by w0) w') as Hwp.
  { intros m w1 w2 E Hw. unfold wp in Hw. by rewrite E in Hw. }
  induction 1 as [self w E|r ds w w' Hr IH He E|ds w w' Hr IH E|other seen d ds w w' Hr IH Ho Hd E
    |t ds w w' Hr IH E]; eapply Hwp; try exact E.
  - clear E. unfold connectEstablished, get_state, upd_conn. destruct Hf.
    rewrite wp_bind, wp_gets, wp_bind, wp_assert. case_bool; [|done].
    rewrite wp_bind, wp_modify, wp_bind, wp_modify. simpl.
    apply (hears_io _ (io_on_chan _ (chan_io_change _))). constructor; simpl; try done.
    by rewrite fresh_trace, app_nil_r.
  - by apply hears_dispatch.
  - apply (hears_run_next ds); [|done]. by apply (remote_run_inv w0).
  - by apply hears_finish_remote.
  - by apply hears_shutdown.
Qed.
End remote.

(** ** Property *)

(** C10: calls of send from other threads, each made of two steps with anything
    between them, while any thread may shut the connection down: in every run
    the descriptor has been given a prefix of the
    data of the calls, in the order of their second steps; until the close what
    it has been given, the output buffer and the data in the loop's queue are
    exactly that data, so nothing is lost, duplicated or reordered on the way
    through the queue. *)
Theorem remote_sends_in_order {K} `{Posix K} `{!SocketLaws K} `{!ReadvLaws K} `{!RecvLaws K} w0 ds w :
  fresh w0 -> remote_run w0 ds w ->
  sent_by w `prefix_of` sent_by w0 ++ concat ds
  /\ (state_ (conn w) <> kDisconnected ->
      sent_by w ++ Buffer.content (outputBuffer_ (conn w)) ++ queued_sends (pendingTasks_ (loop w))
      = sent_by w0 ++ concat ds).
Proof.
  intros Hf Hr. destruct (remote_run_inv w0 ds w Hf Hr) as [[[[] Hs] _ _ _] []].
  split.
  - etrans; [exact inv_prefix|]. by apply prefix_app.
  - intros Hd. unfold sent_by at 1. by rewrite app_assoc, (Hs Hd), <- app_assoc, rm_order0.
Qed.

(** Runs as lists of steps. *)
Inductive remote_event : Type :=
| RmDispatch (r : Z)
| RmTask
| RmSend (other : Z) (seen : ConnectState) (d : list byte)
| RmShutdown (thread : Z).

Fixpoint remote_play {K} `{Posix K} (es : list remote_event) (ds : list (list byte)) (w : CW K) :
    option (list (list byte) * CW K) :=
  match es with
  | [] => Some (ds, w)
  | RmDispatch r :: es' =>
      if enabled (EvDispatch r [ARetrieveAll]) w then
        match dispatch [] [ARetrieveAll] r w with Ok (_, w') => remote_play es' ds w' | Err _ => None end
      else None
  | RmTask :: es' =>
      match run_next [] [] w with Ok (_, w') => remote_play es' ds w' | Err _ => None end
  | RmSend other seen d :: es' =>
      if negb (other =? tid_ (loop w)) && (zlen d <=? Buffer.max_size) then
        match finish_remote other seen d w with
        | Ok (_, w') => remote_play es' (if bool_decide (seen = kConnected) then ds ++ [d] else ds) w'
        | Err _ => None
        end
      else None
  | RmShutdown t :: es' =>
      match remote_call [] t AShutdown w with Ok (_, w') => remote_play es' ds w' | Err _ => None end
  end.

Lemma remote_play_run {K} `{Posix K} es (w0 : CW K) ds w ds' w' :
  remote_run w0 ds w -> remote_play es ds w = Some (ds', w') -> remote_run w0 ds' w'.
Proof.
  revert ds w. induction es as [|e es IH]; cbn [remote_play]; intros ds w Hr; [by intros [= <- <-]|].
  destruct e as [r| |other seen d|t].
  - destruct (enabled (EvDispatch r [ARetrieveAll]) w) eqn:En; [|done].
    destruct (dispatch [] [ARetrieveAll] r w) as [[[] w1]|] eqn:E; [|done]. apply IH. by eapply remote_dispatch.
  - destruct (run_next [] [] w) as [[[] w1]|] eqn:E; [|done]. apply IH. by eapply remote_task.
  - destruct (_ && _)%bool eqn:En; [|done]. apply andb_prop in En as [E1 E2].
    apply negb_true_iff, Z.eqb_neq in E1. apply Z.leb_le in E2.
    destruct (finish_remote other seen d w) as [[[] w1]|] eqn:E; [|done].
    apply IH. by eapply remote_send.
  - destruct (remote_call [] t AShutdown w) as [[[] w1]|] eqn:E; [|done]. apply IH. by eapply remote_shutdown.
Qed.

(** Threads 8 and 9 send, 9 after it has seen the connection connected; the loop
    runs the first task between the two calls and writes two of its bytes; then
    thread 8 shuts down while two tasks and a byte wait. *)
Definition remote_w : CW SimK :=
  match connectEstablished 1 (w_init [SysOk 8; SysOk 2]) with Ok (_, w) => w | Err _ => w_init [] end.
Definition remote_script : list remote_event :=
  [RmSend 8 kConnected [x61; x62; x63]; RmTask; RmSend 9 kConnected [x64; x65];
   RmSend 8 kDisconnected [x66]; RmShutdown 8; RmDispatch EPOLLOUT].
Definition remote_end : list (list byte) * CW SimK :=
  Eval vm_compute in default ([], remote_w) (remote_play remote_script [] remote_w).

Lemma remote_script_ends : remote_play remote_script [] remote_w = Some (remote_end.1, remote_end.2).
Proof. vm_compute. reflexivity. Qed.

Lemma remote_start_w : remote_run (w_init [SysOk 8; SysOk 2]) [] remote_w.
Proof. apply (remote_start _ 1). vm_compute. reflexivity. Qed.

Lemma remote_sends_in_order_witness :
  remote_end.1 = [[x61; x62; x63]; [x64; x65]]
  /\ sent_by remote_end.2 = [x61; x62; x63]
  /\ queued_sends (pendingTasks_ (loop remote_end.2)) = [x64; x65]
  /\ sent_by remote_end.2 ++ Buffer.content (outputBuffer_ (conn remote_end.2))
       ++ queued_sends (pendingTasks_ (loop remote_end.2)) = concat remote_end.1.
Proof.
  destruct (remote_sends_in_order (w_init [SysOk 8; SysOk 2]) remote_end.1 remote_end.2
    (w_init_fresh _) (remote_play_run _ _ _ _ _ _ remote_start_w remote_script_ends)) as [_ Hd].
  split; [reflexivity|]. split; [reflexivity|]. split; [reflexivity|]. apply Hd. discriminate.
Defined.
