(* ===== verification/Http.v ===== *)
(** * Http: the request parser and the replies of the HTTP server
    (examples/benchmark_server.cpp)

    [HttpRequest.parse] is a computation on the request object.  The Standard
    Library's streams and strings are modelled as far as parse uses them:
    getline and >> on a string stream as functions on the rest of the stream,
    find, find_first_not_of, find_last_not_of, substr and erase with npos and
    its wrap-around. *)

From S2P Require Import Prelude Posix Buffer InetAddress Channel Epoll EventLoop TcpConnection TcpConnectionSpec TcpConnectionRuns TcpReply.

#[export] Instance byte_countable : Countable byte :=
  inj_countable Byte.to_N Byte.of_N Byte.of_to_N.

(** ** std::string *)

Module Str.
Definition npos : Z := 2 ^ 64 - 1.

Definition ws (c : byte) : bool :=                          (* one of " \t\r\n" *)
  bool_decide (c ∈ [x20; x09; x0d; x0a]).

Definition find (c : byte) (s : list byte) : Z :=
  match list_find (fun x => x = c) s with Some (i, _) => Z.of_nat i | None => npos end.
Definition find_first_not_of (s : list byte) : Z :=
  match list_find (fun x => ws x = false) s with Some (i, _) => Z.of_nat i | None => npos end.
Definition find_last_not_of (s : list byte) : Z :=
  match list_find (fun x => ws x = false) (reverse s) with
  | Some (i, _) => zlen s - 1 - Z.of_nat i
  | None => npos
  end.

(** substr and erase; both throw for a position past the end. *)
Definition substr {S} (pos n : Z) (s : list byte) : M S (list byte) :=
  ensure (Thrown "std::out_of_range") (pos <=? zlen s);;;
  ret (zslice pos (Z.min n (zlen s - pos)) s).
Definition erase {S} (pos n : Z) (s : list byte) : M S (list byte) :=
  ensure (Thrown "std::out_of_range") (pos <=? zlen s);;;
  ret (ztake pos s ++ zdrop (pos + Z.min n (zlen s - pos)) s).
End Str.

(** ** std::istringstream, as the characters that are left *)

Module Stream.
Fixpoint split_line (s : list byte) : list byte * list byte :=
  match s with
  | [] => ([], [])
  | c :: s' =>
      if bool_decide (c = x0a) then ([], s')
      else let '(l, r) := split_line s' in (c :: l, r)
  end.

(** std::getline: fails when nothing is left. *)
Definition getline (s : list byte) : option (list byte * list byte) :=
  match s with [] => None | _ => Some (split_line s) end.

Definition isspace (c : byte) : bool :=
  bool_decide (c ∈ [x20; x09; x0a; x0b; x0c; x0d]).

Fixpoint skipws (s : list byte) : list byte :=
  match s with
  | c :: s' => if isspace c then skipws s' else s
  | [] => []
  end.
Fixpoint word (s : list byte) : list byte * list byte :=
  match s with
  | [] => ([], [])
  | c :: s' =>
      if isspace c then ([], s) else let '(l, r) := word s' in (c :: l, r)
  end.

(** operator>> for a string: fails, and leaves its target alone, when only
    white space is left. *)
Definition extract (s : list byte) : option (list byte * list byte) :=
  match skipws s with [] => None | s' => Some (word s') end.
End Stream.

(** ** struct HttpRequest *)

Record HttpRequest : Type := mkRequest {
  method : list byte;
  path : list byte;
  version : list byte;
  headers : gmap (list byte) (list byte);
  body : list byte
}.

Module HttpRequest.

Definition new : HttpRequest := mkRequest [] [] [] ∅ [].

Definition set_method (s : list byte) (r : HttpRequest) : HttpRequest :=
  mkRequest s (path r) (version r) (headers r) (body r).
Definition set_path (s : list byte) (r : HttpRequest) : HttpRequest :=
  mkRequest (method r) s (version r) (headers r) (body r).
Definition set_version (s : list byte) (r : HttpRequest) : HttpRequest :=
  mkRequest (method r) (path r) s (headers r) (body r).
Definition set_header (k v : list byte) (r : HttpRequest) : HttpRequest :=
  mkRequest (method r) (path r) (version r) (<[k := v]> (headers r)) (body r).

(** requestLine >> method >> path >> version: once one fails, the others do. *)
Definition read_request_line (line : list byte) : M HttpRequest unit :=
  match Stream.extract line with
  | None => ret tt
  | Some (m, s1) =>
      modify (set_method m);;;
      match Stream.extract s1 with
      | None => ret tt
      | Some (p, s2) =>
          modify (set_path p);;;
          match Stream.extract s2 with
          | None => ret tt
          | Some (v, _) => modify (set_version v)
          end
      end
  end.

(** The two erase calls that remove white space at the ends. *)
Definition trim (s : list byte) : M HttpRequest (list byte) :=
  s1 <- Str.erase 0 (Str.find_first_not_of s) s;;
  Str.erase (u64 (Str.find_last_not_of s1 + 1)) Str.npos s1.

(** The body of the header loop. *)
Definition read_header (line : list byte) : M HttpRequest unit :=
  let pos := Str.find x3a line in
  when (negb (pos =? Str.npos))
    (key <- Str.substr 0 pos line;;
     value <- Str.substr (u64 (pos + 1)) Str.npos line;;
     key' <- trim key;;
     value' <- trim value;;
     modify (set_header key' value')).

(** The loop over the header lines. *)
Fixpoint header_loop (fuel : nat) (s : list byte) : M HttpRequest unit :=
  match fuel with
  | O => throw OutOfFuel
  | S fuel' =>
      match Stream.getline s with
      | None => ret tt
      | Some (line, rest) =>
          if bool_decide (line = [x0d]) || bool_decide (line = []) then ret tt
          else read_header line;;; header_loop fuel' rest
      end
  end.

(** HttpRequest::parse. *)
Definition parse (raw : list byte) : M HttpRequest bool :=
  match Stream.getline raw with
  | None => ret false
  | Some (line, rest) =>
      read_request_line line;;;
      header_loop (S (length rest)) rest;;;
      ret true
  end.
End HttpRequest.

(** ** Replies *)

Module Http.

Definition crlf : list byte := [x0d; x0a].
Definition size_text (s : list byte) : list byte := lit (InetAddress.to_string (zlen s)).

Definition generateHttpResponse (content contentType : list byte) : list byte :=
  lit "HTTP/1.1 200 OK" ++ crlf
  ++ lit "Content-Type: " ++ contentType ++ crlf
  ++ lit "Content-Length: " ++ size_text content ++ crlf
  ++ lit "Connection: keep-alive" ++ crlf
  ++ lit "Server: KnetLib/1.0" ++ crlf
  ++ crlf
  ++ content.

Definition generateHtmlResponse (title text : list byte) : list byte :=
  lit "<!DOCTYPE html>" ++ [x0a]
  ++ lit "<html><head><title>" ++ title ++ lit "</title></head>" ++ [x0a]
  ++ lit "<body><h1>" ++ title ++ lit "</h1>" ++ [x0a]
  ++ lit "<p>" ++ text ++ lit "</p>" ++ [x0a]
  ++ lit "</body></html>" ++ [x0a].

Definition text_html : list byte := lit "text/html".

Definition not_found : list byte :=
  lit "HTTP/1.1 404 Not Found" ++ crlf ++ lit "Content-Type: text/html" ++ crlf
  ++ lit "Content-Length: 0" ++ crlf ++ lit "Connection: keep-alive" ++ crlf ++ crlf.
Definition bad_request : list byte :=
  lit "HTTP/1.1 400 Bad Request" ++ crlf ++ lit "Content-Type: text/html" ++ crlf
  ++ lit "Content-Length: 0" ++ crlf ++ lit "Connection: close" ++ crlf ++ crlf.

Definition json_text : list byte :=
  lit "{" ++ [x22] ++ lit "status" ++ [x22] ++ lit ":" ++ [x22] ++ lit "ok" ++ [x22]
  ++ lit "," ++ [x22] ++ lit "message" ++ [x22] ++ lit ":" ++ [x22]
  ++ lit "KnetLib Performance Test" ++ [x22] ++ lit "}".

(** The choice of a reply by the path. *)
Definition route (p : list byte) : list byte :=
  if bool_decide (p = lit "/") || bool_decide (p = lit "/index.html") then
    generateHttpResponse
      (generateHtmlResponse (lit "KnetLib Performance Test")
         (lit "Welcome to KnetLib HTTP Server Performance Test")) text_html
  else if bool_decide (p = lit "/hello") then
    generateHttpResponse
      (generateHtmlResponse (lit "Hello") (lit "Hello from KnetLib!")) text_html
  else if bool_decide (p = lit "/plain") then
    generateHttpResponse (lit "OK") (lit "text/plain")
  else if bool_decide (p = lit "/json") then
    generateHttpResponse json_text (lit "application/json")
  else not_found.

(** The text that the message callback sends for what it took from the buffer. *)
Definition reply (request : list byte) : result (list byte) :=
  match HttpRequest.parse request HttpRequest.new with
  | Ok (true, r) => Ok (route (path r))
  | Ok (false, _) => Ok bad_request
  | Err f => Err f
  end.
End Http.

(** ** The Standard Library functions on the texts that matter *)

Section strings.
Implicit Types a b v s : list byte.

Lemma list_find_first (P : byte -> Prop) `{forall x, Decision (P x)} l c r :
  Forall (fun x => ~ P x) l -> P c -> list_find P (l ++ c :: r) = Some (length l, c).
Proof.
  intros Hl Hc. induction Hl as [|x l Hx Hl IH]; simpl.
  - by rewrite decide_True.
  - by rewrite decide_False, IH.
Qed.

Lemma list_find_none (P : byte -> Prop) `{forall x, Decision (P x)} l :
  Forall (fun x => ~ P x) l -> list_find P l = None.
Proof. apply list_find_None. Qed.

Definition blank s : Prop := Forall (fun c => Str.ws c = true) s.

Lemma blank_not s : blank s -> Forall (fun c => ~ Str.ws c = false) s.
Proof. intros Hs. eapply Forall_impl; [exact Hs|]. intros c Hc. by rewrite Hc. Qed.

(** No white space at the ends. *)
Definition trimmed v : bool :=
  match v with
  | [] => true
  | c :: _ => negb (Str.ws c) && match last v with Some d => negb (Str.ws d) | None => true end
  end.

Lemma erase_wp {S} F pos n s (Q : list byte -> S -> Prop) r :
  0 <= pos <= zlen s -> 0 <= n ->
  Q (ztake pos s ++ zdrop (pos + Z.min n (zlen s - pos)) s) r ->
  wp F (Str.erase pos n s) Q r.
Proof.
  intros Hp Hn HQ. unfold Str.erase. wp_simpl. by rewrite (proj2 (Z.leb_le pos (zlen s))) by lia.
Qed.

Lemma zdrop_app s t : zdrop (zlen s) (s ++ t) = t.
Proof. unfold zdrop, zlen. by rewrite Nat2Z.id, drop_app_length. Qed.
Lemma ztake_app s t : ztake (zlen s) (s ++ t) = s.
Proof. unfold ztake, zlen. by rewrite Nat2Z.id, take_app_length. Qed.

Lemma find_first_not_of_blank a : blank a -> Str.find_first_not_of a = Str.npos.
Proof. intros Ha. unfold Str.find_first_not_of. by rewrite list_find_none by by apply blank_not. Qed.
Lemma find_first_not_of_app a c s :
  blank a -> Str.ws c = false -> Str.find_first_not_of (a ++ c :: s) = zlen a.
Proof.
  intros Ha Hc. unfold Str.find_first_not_of.
  by rewrite (list_find_first _ a c s) by (done || by apply blank_not).
Qed.
Lemma find_last_not_of_app s d b :
  blank b -> Str.ws d = false -> Str.find_last_not_of (s ++ d :: b) = zlen s.
Proof.
  intros Hb Hd. unfold Str.find_last_not_of. rewrite reverse_app, reverse_cons, <- app_assoc. simpl.
  rewrite (list_find_first _ (reverse b) d (reverse s)); [|by apply blank_not, Forall_reverse|done].
  rewrite length_reverse. unfold zlen. rewrite length_app. simpl. lia.
Qed.

Lemma trim_wp F a v b (Q : list byte -> HttpRequest -> Prop) r :
  blank a -> blank b -> trimmed v = true -> zlen (a ++ v ++ b) <= Buffer.max_size ->
  Q v r -> wp F (HttpRequest.trim (a ++ v ++ b)) Q r.
Proof.
  unfold Buffer.max_size. intros Ha Hb Hv Hlen HQ. unfold HttpRequest.trim. rewrite wp_bind.
  pose proof (zlen_nonneg a). pose proof (zlen_nonneg v). pose proof (zlen_nonneg b).
  destruct v as [|c v'].
  - rewrite find_first_not_of_blank by (apply Forall_app; by split).
    apply erase_wp; [pose proof (zlen_nonneg (a ++ [] ++ b)); lia|done|].
    rewrite zdrop_all by (unfold Str.npos; lia). rewrite ztake_0.
    apply erase_wp; [by vm_compute|done|]. exact HQ.
  - simpl in Hv. apply andb_prop in Hv as [Hc Hl]. apply negb_true_iff in Hc.
    destruct (last (c :: v')) as [d|] eqn:Ed; [|by apply last_None in Ed].
    apply negb_true_iff in Hl. rewrite !zlen_app in Hlen.
    change ((c :: v') ++ b) with (c :: v' ++ b). rewrite find_first_not_of_app by done.
    apply erase_wp; [rewrite zlen_app; pose proof (zlen_nonneg (c :: v' ++ b)); lia|lia|].
    rewrite Z.min_l, ztake_0, Z.add_0_l, zdrop_app
      by (rewrite zlen_app; pose proof (zlen_nonneg (c :: v' ++ b)); lia).
    change ([] ++ c :: v' ++ b) with ((c :: v') ++ b).
    apply last_Some in Ed as [w Ew]. rewrite Ew in *. rewrite <- app_assoc. simpl.
    rewrite find_last_not_of_app by done. rewrite zlen_app in *. unfold zlen at 3 in Hlen. simpl in Hlen.
    pose proof (zlen_nonneg w). u64_tac.
    replace (w ++ d :: b) with ((w ++ [d]) ++ b) by (by rewrite <- app_assoc).
    assert (zlen w + 1 = zlen (w ++ [d])) as -> by by rewrite zlen_app.
    apply erase_wp; [rewrite (zlen_app _ b); pose proof (zlen_nonneg (w ++ [d])); lia|done|].
    rewrite ztake_app, zdrop_all, app_nil_r; [done|].
    rewrite (zlen_app _ b). unfold Str.npos. lia.
Qed.
End strings.

(** ** parse never fails *)

Section total.
Implicit Types s : list byte.

Lemma find_last_bound s :
  Str.find_last_not_of s = Str.npos \/ 0 <= Str.find_last_not_of s < zlen s.
Proof.
  unfold Str.find_last_not_of. destruct (list_find _ _) as [[i x]|] eqn:E; [right|by left].
  apply list_find_Some in E as (Hi & _ & _). apply lookup_lt_Some in Hi.
  rewrite length_reverse in Hi. unfold zlen. lia.
Qed.

Lemma find_bound c s : Str.find c s = Str.npos \/ 0 <= Str.find c s < zlen s.
Proof.
  unfold Str.find. destruct (list_find _ _) as [[i x]|] eqn:E; [right|by left].
  apply list_find_Some in E as (Hi & _ & _). apply lookup_lt_Some in Hi. unfold zlen. lia.
Qed.

Lemma zlen_zdrop_le n s : zlen (zdrop n s) <= zlen s.
Proof. unfold zlen, zdrop. rewrite length_drop. lia. Qed.
Lemma zlen_zslice_le i n s : zlen (zslice i n s) <= zlen s.
Proof. unfold zlen, zslice, ztake, zdrop. rewrite length_take, length_drop. lia. Qed.

Lemma substr_wp {S} F pos n s (Q : list byte -> S -> Prop) r :
  0 <= pos <= zlen s -> Q (zslice pos (Z.min n (zlen s - pos)) s) r ->
  wp F (Str.substr pos n s) Q r.
Proof.
  intros Hp HQ. unfold Str.substr. wp_simpl. by rewrite (proj2 (Z.leb_le pos (zlen s))) by lia.
Qed.

Lemma trim_total s r : zlen s <= Buffer.max_size ->
  wp no_fault (HttpRequest.trim s) (fun _ r' => r' = r) r.
Proof.
  unfold Buffer.max_size. intros Hs. unfold HttpRequest.trim. rewrite wp_bind.
  pose proof (zlen_nonneg s). apply erase_wp; [lia| |].
  { unfold Str.find_first_not_of. destruct (list_find _ _) as [[]|]; [lia|done]. }
  set (s1 := _ ++ _). assert (zlen s1 <= zlen s) as Hs1 by apply zlen_zdrop_le.
  pose proof (zlen_nonneg s1).
  destruct (find_last_bound s1) as [E|E]; [rewrite E|].
  - apply erase_wp; [change (u64 _) with 0; lia|done|done].
  - u64_tac. apply erase_wp; [lia|done|done].
Qed.

Lemma read_header_total line r : zlen line <= Buffer.max_size ->
  wp no_fault (HttpRequest.read_header line)
    (fun _ r' => method r' = method r /\ path r' = path r /\ version r' = version r) r.
Proof.
  intros Hs. unfold HttpRequest.read_header. rewrite wp_when. case_bool; [|done].
  apply negb_true_iff, Z.eqb_neq in E. destruct (find_bound x3a line) as [?|Hf]; [done|].
  pose proof Hs as Hs'. unfold Buffer.max_size in Hs'.
  rewrite wp_bind. apply substr_wp; [lia|]. rewrite wp_bind. u64_tac. apply substr_wp; [lia|].
  rewrite wp_bind. wp_call trim_total; [etrans; [apply zlen_zslice_le|done]|]. intros k _ ->.
  rewrite wp_bind. wp_call trim_total; [etrans; [apply zlen_zslice_le|done]|]. intros v _ ->.
  done.
Qed.

Lemma split_line_length s : let '(l, r) := Stream.split_line s in
  (length l + length r <= length s)%nat /\ (s <> [] -> length r < length s)%nat.
Proof.
  induction s as [|c s IH]; simpl; [done|]. case_bool_decide; simpl; [lia|].
  destruct (Stream.split_line s) as [l r]. simpl. destruct IH as [IH _]. lia.
Qed.

Lemma getline_length s l rest : Stream.getline s = Some (l, rest) ->
  (length rest < length s)%nat /\ zlen l <= zlen s /\ zlen rest <= zlen s.
Proof.
  unfold Stream.getline. destruct s as [|c s]; [done|]. intros [= E].
  pose proof (split_line_length (c :: s)) as Hs. change (Stream.split_line (c :: s) = (l, rest)) in E.
  rewrite E in Hs. destruct Hs as [? Hs]. specialize (Hs ltac:(done)). unfold zlen. lia.
Qed.

(** The fuel of [parse] is enough. *)
Lemma header_loop_total fuel s r :
  (length s < fuel)%nat -> zlen s <= Buffer.max_size ->
  wp no_fault (HttpRequest.header_loop fuel s)
    (fun _ r' => method r' = method r /\ path r' = path r /\ version r' = version r) r.
Proof.
  revert s r. induction fuel as [|fuel IH]; [lia|]. intros s r Hf Hs. simpl.
  destruct (Stream.getline s) as [[line rest]|] eqn:E; [|done].
  apply getline_length in E as (H1 & H2 & H3). case_bool; [done|].
  rewrite wp_bind. wp_call read_header_total; [lia|]. intros _ r1 (? & ? & ?).
  wp_call IH; [lia|lia|]. intros _ r2 (? & ? & ?). split_and!; congruence.
Qed.

Lemma request_line_wp line r (Q : unit -> HttpRequest -> Prop) :
  (forall m p v, Q tt (mkRequest m p v (headers r) (body r))) ->
  wp no_fault (HttpRequest.read_request_line line) Q r.
Proof.
  intros HQ. unfold HttpRequest.read_request_line.
  destruct (Stream.extract line) as [[m s1]|]; [|destruct r; apply HQ].
  rewrite wp_bind, wp_modify. destruct (Stream.extract s1) as [[p s2]|]; [|apply HQ].
  rewrite wp_bind, wp_modify. destruct (Stream.extract s2) as [[v s3]|]; apply HQ.
Qed.

Lemma parse_total raw r : zlen raw <= Buffer.max_size ->
  wp no_fault (HttpRequest.parse raw) (fun b _ => b = negb (bool_decide (raw = []))) r.
Proof.
  intros Hs. unfold HttpRequest.parse. destruct (Stream.getline raw) as [[line rest]|] eqn:E.
  - assert (raw <> []) by by intros ->.
    apply getline_length in E as (H1 & H2 & H3). rewrite wp_bind. apply request_line_wp.
    intros m p v. rewrite wp_bind. wp_call header_loop_total; [lia|lia|]. intros _ r2 _.
    rewrite wp_ret. by rewrite bool_decide_eq_false_2.
  - by destruct raw.
Qed.
End total.

(** ** Printing a request *)

Section printing.
Implicit Types s k v : list byte.

(** A word of the request line; the name and the value of a header. *)
Definition token s : bool :=
  negb (bool_decide (s = [])) && forallb (fun c => negb (Stream.isspace c)) s.
Definition header_ok (h : list byte * list byte) : bool :=
  bool_decide (x3a ∉ h.1) && bool_decide (x0a ∉ h.1) && bool_decide (x0a ∉ h.2)
  && trimmed h.1 && trimmed h.2.

Definition print_header (h : list byte * list byte) : list byte :=
  h.1 ++ lit ": " ++ h.2 ++ Http.crlf.
Definition print_headers (hs : list (list byte * list byte)) : list byte :=
  concat (map print_header hs).
Definition print_request m p v hs (text : list byte) : list byte :=
  m ++ lit " " ++ p ++ lit " " ++ v ++ Http.crlf ++ print_headers hs ++ Http.crlf ++ text.

(** headers[key] = value for each header in turn. *)
Definition header_map (hs : list (list byte * list byte)) (h0 : gmap (list byte) (list byte)) :=
  foldl (fun h kv => <[kv.1 := kv.2]> h) h0 hs.

Lemma split_line_app l s : x0a ∉ l -> Stream.split_line (l ++ x0a :: s) = (l, s).
Proof.
  induction l as [|c l IH]; intros Hl; simpl; [done|]. apply not_elem_of_cons in Hl as [Hc Hl].
  by rewrite bool_decide_eq_false_2, IH by congruence.
Qed.

Lemma getline_app l s : x0a ∉ l -> Stream.getline (l ++ x0a :: s) = Some (l, s).
Proof.
  intros Hl. unfold Stream.getline. rewrite split_line_app by done. by destruct l.
Qed.

Lemma token_inv s : token s = true ->
  exists c s', s = c :: s' /\ Forall (fun c => Stream.isspace c = false) s.
Proof.
  unfold token. intros Hs. apply andb_prop in Hs as [Hne Hf].
  destruct s as [|c s]; [done|]. exists c, s. split; [done|].
  apply Forall_forall. intros x Hx. apply negb_true_iff.
  rewrite forallb_forall in Hf. by apply Hf, list_elem_of_In.
Qed.

Lemma token_no_newline s : token s = true -> x0a ∉ s.
Proof.
  intros Ht Hx. apply token_inv in Ht as (_ & _ & _ & Hf). rewrite Forall_forall in Hf.
  by specialize (Hf _ Hx).
Qed.

Lemma word_app w c s :
  Forall (fun c => Stream.isspace c = false) w -> Stream.isspace c = true ->
  Stream.word (w ++ c :: s) = (w, c :: s).
Proof. intros Hw Hc. induction Hw as [|x w Hx Hw IH]; simpl; [by rewrite Hc|by rewrite Hx, IH]. Qed.

Lemma extract_token a w c s :
  Forall (fun c => Stream.isspace c = true) a -> token w = true -> Stream.isspace c = true ->
  Stream.extract (a ++ w ++ c :: s) = Some (w, c :: s).
Proof.
  intros Ha Hw Hc. unfold Stream.extract.
  assert (Stream.skipws (a ++ w ++ c :: s) = w ++ c :: s) as ->.
  { apply token_inv in Hw as (x & w' & -> & Hf). apply Forall_cons in Hf as [Hx _].
    induction Ha as [|y a Hy Ha IH]; simpl in *; [by rewrite Hx|by rewrite Hy]. }
  apply token_inv in Hw as (x & w' & -> & Hf).
  change (Some (Stream.word ((x :: w') ++ c :: s)) = Some (x :: w', c :: s)). by rewrite word_app.
Qed.

Lemma extract_first w c s :
  token w = true -> Stream.isspace c = true -> Stream.extract (w ++ c :: s) = Some (w, c :: s).
Proof. by apply (extract_token []). Qed.
Lemma extract_next w c s :
  token w = true -> Stream.isspace c = true -> Stream.extract (x20 :: w ++ c :: s) = Some (w, c :: s).
Proof. apply (extract_token [x20]). by repeat constructor. Qed.

Lemma request_line_ok F m p v (Q : unit -> HttpRequest -> Prop) r :
  token m = true -> token p = true -> token v = true ->
  Q tt (mkRequest m p v (headers r) (body r)) ->
  wp F (HttpRequest.read_request_line (m ++ lit " " ++ p ++ lit " " ++ v ++ [x0d])) Q r.
Proof.
  intros Hm Hp Hv HQ. unfold HttpRequest.read_request_line. change (lit " ") with [x20]. cbn [app].
  rewrite extract_first, wp_bind, wp_modify by done.
  rewrite extract_next, wp_bind, wp_modify by done. by rewrite extract_next.
Qed.

Lemma header_ok_inv k v : header_ok (k, v) = true ->
  (x3a ∉ k) /\ (x0a ∉ k) /\ (x0a ∉ v) /\ trimmed k = true /\ trimmed v = true.
Proof.
  unfold header_ok. simpl. intros Hh. repeat (apply andb_prop in Hh as [Hh ?]).
  split_and!; try done; by eapply bool_decide_eq_true.
Qed.

Lemma find_app c l s : c ∉ l -> Str.find c (l ++ c :: s) = zlen l.
Proof.
  intros Hl. unfold Str.find. rewrite (list_find_first _ l c s); [done| |done].
  apply Forall_forall. by intros x Hx ->.
Qed.

Lemma read_header_ok F k v (Q : unit -> HttpRequest -> Prop) r :
  header_ok (k, v) = true -> zlen (k ++ lit ": " ++ v ++ [x0d]) <= Buffer.max_size ->
  Q tt (HttpRequest.set_header k v r) ->
  wp F (HttpRequest.read_header (k ++ lit ": " ++ v ++ [x0d])) Q r.
Proof.
  intros Hh Hs HQ. apply header_ok_inv in Hh as (Hc & _ & _ & Hk & Hv).
  unfold HttpRequest.read_header.
  change (lit ": ") with [x3a; x20] in *. cbn [app] in *.
  rewrite find_app by done. set (line := k ++ _) in *.
  pose proof (zlen_nonneg k). pose proof (zlen_nonneg (x20 :: v ++ [x0d])).
  assert (zlen line = zlen k + 1 + zlen (x20 :: v ++ [x0d])) as Hlen
    by (unfold line; rewrite zlen_app; unfold zlen; simpl; lia).
  unfold Buffer.max_size in *. rewrite wp_when, (proj2 (Z.eqb_neq (zlen k) Str.npos)) by (unfold Str.npos; lia).
  cbn [negb]. rewrite wp_bind. apply substr_wp; [lia|]. rewrite wp_bind. u64_tac. apply substr_wp; [lia|].
  rewrite Z.min_l, Z.min_r by (unfold Str.npos; lia).
  assert (zslice 0 (zlen k) line = k) as -> by apply ztake_app.
  assert (zslice (zlen k + 1) (zlen line - (zlen k + 1)) line = x20 :: v ++ [x0d]) as ->.
  { unfold zslice. rewrite <- zdrop_zdrop by lia. unfold line at 2. rewrite zdrop_app.
    change (zdrop 1 (x3a :: x20 :: v ++ [x0d])) with (x20 :: v ++ [x0d]). apply ztake_all. lia. }
  rewrite wp_bind. replace k with ([] ++ k ++ []) at 1 by by rewrite app_nil_r.
  apply trim_wp; [by constructor|by constructor|done|simpl; rewrite app_nil_r; unfold Buffer.max_size; lia|].
  rewrite wp_bind. apply (trim_wp _ [x20] v [x0d]); [by repeat constructor|by repeat constructor|done| |done].
  unfold Buffer.max_size. simpl. lia.
Qed.

Lemma header_line h s : header_ok h = true ->
  Stream.getline (print_header h ++ s) = Some (h.1 ++ lit ": " ++ h.2 ++ [x0d], s).
Proof.
  destruct h as [k v]. intros Hh. apply header_ok_inv in Hh as (_ & Hk & Hv & _ & _).
  unfold print_header. simpl fst. simpl snd.
  replace ((k ++ lit ": " ++ v ++ Http.crlf) ++ s)
    with ((k ++ lit ": " ++ v ++ [x0d]) ++ x0a :: s) by by rewrite <- !app_assoc.
  apply getline_app. change (lit ": ") with [x3a; x20]. set_solver.
Qed.

Lemma header_line_more k v : bool_decide (k ++ lit ": " ++ v ++ [x0d] = [x0d])
  || bool_decide (k ++ lit ": " ++ v ++ [x0d] = []) = false.
Proof.
  apply orb_false_iff. split; apply bool_decide_eq_false_2;
    intros E; apply (f_equal length) in E; rewrite !length_app in E; simpl in E; lia.
Qed.

Lemma length_headers hs : (length hs <= length (print_headers hs))%nat.
Proof.
  induction hs as [|h hs IH]; simpl; [lia|]. unfold print_headers in *. simpl.
  rewrite length_app. unfold print_header at 1. rewrite !length_app. simpl. lia.
Qed.

Lemma header_loop_ok F hs text fuel r (Q : unit -> HttpRequest -> Prop) :
  (length hs < fuel)%nat -> forallb header_ok hs = true ->
  zlen (print_headers hs) <= Buffer.max_size ->
  Q tt (mkRequest (method r) (path r) (version r) (header_map hs (headers r)) (body r)) ->
  wp F (HttpRequest.header_loop fuel (print_headers hs ++ Http.crlf ++ text)) Q r.
Proof.
  revert fuel r. induction hs as [|h hs IH]; intros fuel r Hf Hok Hs HQ.
  - destruct fuel as [|fuel]; [simpl in Hf; lia|]. simpl. by destruct r.
  - destruct fuel as [|fuel]; [simpl in Hf; lia|]. simpl in Hf, Hok.
    apply andb_prop in Hok as [Hh Hok].
    assert (print_headers (h :: hs) = print_header h ++ print_headers hs) as E by done.
    rewrite E in *. rewrite zlen_app in Hs.
    pose proof (zlen_nonneg (print_header h)). pose proof (zlen_nonneg (print_headers hs)).
    cbn [HttpRequest.header_loop]. rewrite <- app_assoc, header_line by done.
    destruct h as [k v]. simpl fst. simpl snd. rewrite header_line_more, wp_bind. apply read_header_ok; [done| |].
    { assert (zlen (print_header (k, v)) = zlen (k ++ lit ": " ++ v ++ [x0d]) + 1) as El
        by (unfold print_header; simpl fst; simpl snd; rewrite !zlen_app; unfold zlen; simpl; lia).
      lia. }
    apply IH; [lia|done|lia|]. exact HQ.
Qed.

Lemma print_request_ok F m p v hs text r (Q : bool -> HttpRequest -> Prop) :
  token m = true -> token p = true -> token v = true -> forallb header_ok hs = true ->
  zlen (print_headers hs) <= Buffer.max_size ->
  Q true (mkRequest m p v (header_map hs (headers r)) (body r)) ->
  wp F (HttpRequest.parse (print_request m p v hs text)) Q r.
Proof.
  intros Hm Hp Hv Hok Hs HQ. unfold HttpRequest.parse, print_request.
  set (rest := print_headers hs ++ Http.crlf ++ text).
  replace (m ++ _) with ((m ++ lit " " ++ p ++ lit " " ++ v ++ [x0d]) ++ x0a :: rest)
    by by rewrite <- !app_assoc.
  rewrite getline_app.
  - rewrite wp_bind. apply request_line_ok; [done..|]. rewrite wp_bind.
    apply header_loop_ok; [|done|done|exact HQ].
    unfold rest. rewrite !length_app. pose proof (length_headers hs). lia.
  - apply token_no_newline in Hm, Hp, Hv. change (lit " ") with [x20]. set_solver.
Qed.
End printing.

(** ** The text of a response *)

Section response.
Implicit Types s : list byte.

Definition digit (c : byte) : bool :=
  bool_decide (c ∈ [x30; x31; x32; x33; x34; x35; x36; x37; x38; x39]).

Lemma digits_trimmed s : Forall (fun c => digit c = true) s -> trimmed s = true.
Proof.
  assert (forall c, digit c = true -> Str.ws c = false) as Hd by by intros [].
  intros Hs. destruct Hs as [|c s Hc Hs]; [done|]. simpl. rewrite (Hd c) by done. simpl.
  destruct (last (c :: s)) as [d|] eqn:E; [|done].
  apply last_Some_elem_of in E.
  assert (Forall (fun c => digit c = true) (c :: s)) as Hf by by constructor.
  rewrite Forall_forall in Hf. by rewrite Hd by by apply Hf.
Qed.

Lemma digits_no_newline s : Forall (fun c => digit c = true) s -> x0a ∉ s.
Proof. intros Hs Hx. rewrite Forall_forall in Hs. by specialize (Hs _ Hx). Qed.

Lemma size_text_digits s : Forall (fun c => digit c = true) (Http.size_text s).
Proof.
  unfold Http.size_text, InetAddress.to_string, lit, pretty.pretty, pretty.pretty_N.
  case_decide; [by repeat constructor|].
  assert (forall x t, Forall (fun c => digit c = true) (String.list_byte_of_string t) ->
    Forall (fun c => digit c = true) (String.list_byte_of_string (pretty.pretty_N_go x t))) as Hgo.
  { intros x. induction x as [x IH] using (well_founded_ind N.lt_wf_0). intros t Ht.
    destruct (decide (x = 0)%N) as [->|Hx]; [done|].
    rewrite pretty.pretty_N_go_step by lia. apply IH; [apply N.div_lt; lia|].
    simpl. constructor; [|done]. unfold pretty.pretty_N_char. by repeat case_match. }
  apply Hgo. constructor.
Qed.

Definition response_headers content contentType : list (list byte * list byte) :=
  [(lit "Content-Type", contentType); (lit "Content-Length", Http.size_text content);
   (lit "Connection", lit "keep-alive"); (lit "Server", lit "KnetLib/1.0")].

(** A generated response has the form of the texts that parse reads. *)
Lemma response_printed content contentType :
  Http.generateHttpResponse content contentType
  = print_request (lit "HTTP/1.1") (lit "200") (lit "OK")
      (response_headers content contentType) content.
Proof.
  unfold Http.generateHttpResponse, print_request, print_headers, response_headers, print_header.
  cbn [map concat fst snd]. rewrite app_nil_r, <- !app_assoc. reflexivity.
Qed.

Lemma response_headers_ok content contentType :
  bool_decide (x0a ∉ contentType) && trimmed contentType = true ->
  forallb header_ok (response_headers content contentType) = true.
Proof.
  intros Hc. apply andb_prop in Hc as [Hn Ht]. pose proof (size_text_digits content) as Hd.
  unfold response_headers, header_ok. simpl. rewrite Hn, Ht.
  rewrite (bool_decide_eq_true_2 (x0a ∉ Http.size_text content)) by by apply digits_no_newline.
  rewrite (digits_trimmed (Http.size_text content)) by done. reflexivity.
Qed.
End response.

(** ** The message callback of the server *)

(** [reply] returns for every input that fits a string ([reply_total]). *)
Definition http_callback (request : list byte) : list api :=
  match Http.reply request with
  | Ok response => [ARetrieveAll; ASend response]
  | Err _ => [ARetrieveAll]
  end.

Definition reply_text (request : list byte) : list byte :=
  match Http.reply request with Ok response => response | Err _ => [] end.

Lemma reply_total d : input_ok d -> exists r, Http.reply d = Ok (Http.route r).
Proof.
  intros [Hne Hs]. pose proof (parse_total d HttpRequest.new Hs) as Hp.
  unfold Http.reply. unfold wp in Hp. destruct (HttpRequest.parse d _) as [[b r]|]; [|done].
  rewrite bool_decide_eq_false_2 in Hp by done. subst b. by exists (path r).
Qed.

Lemma http_answers : answers http_callback reply_text.
Proof.
  intros d Hd. left. destruct (reply_total d Hd) as [p Hp]. unfold http_callback, reply_text.
  by rewrite Hp.
Qed.

Lemma replies_concat reads : Forall input_ok reads ->
  exists pages, Forall2 (fun d p => Http.reply d = Ok (Http.route p)) reads pages
    /\ concat (map reply_text reads) = concat (map Http.route pages).
Proof.
  induction 1 as [|d reads Hd Hr (pages & IH & Hc)]; [by exists []|].
  destruct (reply_total d Hd) as [p Hp]. exists (p :: pages). split; [by constructor|].
  simpl. unfold reply_text at 1. by rewrite Hp, Hc.
Qed.

(** ** Properties *)

(** C40: a printed request is read back: the three words of its first line, and
    for every header name the last of its values; what follows the headers is
    ignored.  The server's reply to it is the page of its path. *)
Theorem request_roundtrip m p v hs text :
  token m = true -> token p = true -> token v = true -> forallb header_ok hs = true ->
  zlen (print_headers hs) <= Buffer.max_size ->
  exists r, HttpRequest.parse (print_request m p v hs text) HttpRequest.new = Ok (true, r)
    /\ method r = m /\ path r = p /\ version r = v /\ headers r = header_map hs ∅
    /\ Http.reply (print_request m p v hs text) = Ok (Http.route p).
Proof.
  intros Hm Hp Hv Hh Hs.
  assert (wp no_fault (HttpRequest.parse (print_request m p v hs text))
    (fun b r => b = true /\ r = mkRequest m p v (header_map hs ∅) []) HttpRequest.new) as Hw
    by by apply print_request_ok.
  apply wp_ok in Hw as (b & r & E & -> & ->). eexists. unfold Http.reply. by rewrite E.
Qed.

Lemma request_roundtrip_witness :
  exists r, HttpRequest.parse
      (lit "GET /plain HTTP/1.1" ++ Http.crlf ++ lit "Host: a" ++ Http.crlf
       ++ lit "Host: b" ++ Http.crlf ++ Http.crlf) HttpRequest.new = Ok (true, r)
    /\ headers r !! lit "Host" = Some (lit "b").
Proof.
  destruct (request_roundtrip (lit "GET") (lit "/plain") (lit "HTTP/1.1")
    [(lit "Host", lit "a"); (lit "Host", lit "b")] []) as (r & E & _ & _ & _ & Hh & _);
    [reflexivity..|by vm_compute|].
  exists r. split; [exact E|]. rewrite Hh. reflexivity.
Defined.

(** A generated response can be read by the same grammar, and its
    Content-Length is the decimal length of the content that follows. *)
Lemma response_wellformed content contentType :
  bool_decide (x0a ∉ contentType) && trimmed contentType = true ->
  zlen (print_headers (response_headers content contentType)) <= Buffer.max_size ->
  exists r head, HttpRequest.parse (Http.generateHttpResponse content contentType) HttpRequest.new
      = Ok (true, r)
    /\ path r = lit "200"
    /\ headers r !! lit "Content-Type" = Some contentType
    /\ headers r !! lit "Content-Length" = Some (lit (InetAddress.to_string (zlen content)))
    /\ Http.generateHttpResponse content contentType = head ++ Http.crlf ++ Http.crlf ++ content.
Proof.
  intros Hc Hs. rewrite response_printed.
  assert (wp no_fault (HttpRequest.parse (print_request (lit "HTTP/1.1") (lit "200") (lit "OK")
      (response_headers content contentType) content))
    (fun b r => b = true /\ r = mkRequest (lit "HTTP/1.1") (lit "200") (lit "OK")
       (header_map (response_headers content contentType) ∅) []) HttpRequest.new) as Hw
    by (apply print_request_ok; [done..|by apply response_headers_ok|done|done]).
  apply wp_ok in Hw as (b & r & E & -> & ->). eexists _.
  exists (lit "HTTP/1.1 200 OK" ++ Http.crlf ++ lit "Content-Type: " ++ contentType ++ Http.crlf
    ++ lit "Content-Length: " ++ Http.size_text content ++ Http.crlf
    ++ lit "Connection: keep-alive" ++ Http.crlf ++ lit "Server: KnetLib/1.0").
  split_and!; [exact E|done| | |].
  - unfold header_map. cbn [response_headers foldl fst snd headers].
    rewrite !lookup_insert_ne by done. by rewrite lookup_insert_eq.
  - unfold header_map. cbn [response_headers foldl fst snd headers].
    rewrite !lookup_insert_ne by done. by rewrite lookup_insert_eq.
  - rewrite <- response_printed. unfold Http.generateHttpResponse. by rewrite <- !app_assoc.
Qed.

Lemma response_wellformed_witness :
  exists r, HttpRequest.parse (Http.generateHttpResponse (lit "hello, world") (lit "text/plain"))
      HttpRequest.new = Ok (true, r)
    /\ headers r !! lit "Content-Length" = Some (lit "12").
Proof.
  destruct (response_wellformed (lit "hello, world") (lit "text/plain"))
    as (r & _ & E & _ & _ & Hl & _); [reflexivity|by vm_compute|].
  exists r. split; [exact E|exact Hl].
Defined.

(** The server replies once to every read, whatever part of a request, or
    how many requests, the read delivered: in every run the descriptor has been
    given a prefix of the pages for the successive reads, and until the close
    that and the output buffer are exactly those pages. *)
Lemma http_server_replies {K} `{Posix K} `{!SocketLaws K} `{!ReadvLaws K} `{!RecvLaws K} w0 w :
  ready w0 -> reply_run http_callback w0 w ->
  exists reads pages, got_by w = got_by w0 ++ concat reads
    /\ Forall2 (fun d p => Http.reply d = Ok (Http.route p)) reads pages
    /\ sent_by w `prefix_of` sent_by w0 ++ concat (map Http.route pages)
    /\ (state_ (conn w) <> kDisconnected ->
        sent_by w ++ Buffer.content (outputBuffer_ (conn w))
        = sent_by w0 ++ concat (map Http.route pages)).
Proof.
  intros Hw Hr.
  destruct (reply_run_answers http_callback reply_text http_answers w0 w Hw Hr) as (Hok & Hg & Hp & Hs).
  destruct (replies_concat _ Hok) as (pages & Hf & Hc). rewrite Hc in *.
  exists (messages (trace w)), pages. split_and!; [done..|]. intros Hd. by apply Hs.
Qed.

(** One request that arrives in two reads gets two replies: the page, and a 404
    for the rest. *)
Definition split_w0 : CW SimK :=
  e_init [SysOk (lit "GET /plain HT"); SysOk (lit "TP/1.1" ++ Http.crlf ++ Http.crlf)] [].
Definition split_script : list reply_event := [RDispatch EPOLLIN; RDispatch EPOLLIN].
Definition split_end : CW SimK :=
  Eval vm_compute in default split_w0 (start_reply http_callback split_script split_w0).

Lemma split_script_ends : start_reply http_callback split_script split_w0 = Some split_end.
Proof. vm_compute. reflexivity. Qed.

Lemma http_server_replies_witness :
  (exists pages, sent_by split_end ++ Buffer.content (outputBuffer_ (conn split_end))
                 = concat (map Http.route pages))
  /\ sent_by split_end = Http.generateHttpResponse (lit "OK") (lit "text/plain") ++ Http.not_found.
Proof.
  destruct (http_server_replies split_w0 split_end (e_init_ready _ _)
    (start_reply_run _ _ _ _ split_script_ends)) as (reads & pages & _ & _ & _ & Hs).
  split; [exists pages; apply Hs; discriminate|reflexivity].
Defined.
