(* ===== verification/TimerQueue.v ===== *)
(** * TimerQueue: timers over one timerfd
    (include/knetlib/Timer.h, include/knetlib/TimerQueue.h, src/TimerQueue.cpp)

    Timers are objects on the heap: a map from addresses to [Timer]; an
    address that is not in it was deleted or never allocated.  operator new is
    a parameter, [Allocator].  The std::set of (when, Timer* ) is a sorted list.
    A timer callback is the list of calls it makes on the queue, and may add and
    cancel timers.  Times are int64_t counts of nanoseconds: sums and differences
    go through [i64], which stops where they leave the range.  [fired] and
    [armed] record the run; no definition reads them. *)

From S2P Require Import Prelude Posix Channel Epoll EventLoop.

(** What a timer callback does. *)
#[warnings="-register-all"]
Inductive action : Type :=
| ACancel (timer : Z)
| AAdd (callback : list action) (when interval : Z)
| AAfter (callback : list action) (interval : Z)
| AEvery (callback : list action) (interval : Z).

Record Timer : Type := mkTimer {
  callback_ : list action;
  when_ : Z;
  interval_ : Z;
  repeat_ : bool;
  canceled_ : bool
}.

(** The closures of addTimer and cancelTimer. *)
Inductive TimerTask : Type :=
| TAddTimer (when timer : Z)
| TCancelTimer (timer : Z).

Abbreviation Entry := (Z * Z)%type.

Record TimerQueue : Type := mkTimerQueue {
  timerfd_ : Z;
  timerChannel_ : Channel unit;
  timers_ : list Entry
}.

(** The queue, its loop and the heap. *)
Record TW (K : Type) : Type := mkTW {
  queue : TimerQueue;
  tloop : Loop K TimerTask;
  heap : gmap Z Timer;
  fired : list Entry;            (* the entries whose callback ran *)
  armed : option (Z * Z)         (* the last timerfd_settime: when, for how long *)
}.
Arguments mkTW {K}.
Arguments queue {K}.
Arguments tloop {K}.
Arguments heap {K}.
Arguments fired {K}.
Arguments armed {K}.

(** operator new: an address that is not in use, and not null. *)
Class Allocator : Type := {
  alloc : gmap Z Timer -> Z;
  alloc_fresh : forall h, h !! alloc h = None;
  alloc_pos : forall h, 0 < alloc h
}.

Module Timer.
Definition new_Timer (callback : list action) (when interval : Z) : Timer :=
  mkTimer callback when interval (0 <? interval) false.
Definition repeat (t : Timer) : bool := repeat_ t.
Definition expired (now : Z) (t : Timer) : bool := when_ t <=? now.
Definition when (t : Timer) : Z := when_ t.
Definition canceled (t : Timer) : bool := canceled_ t.
Definition restart (t : Timer) : result Timer :=
  if repeat_ t then
    if bool_decide (int_range 64 (when_ t + interval_ t)) then
    Ok (mkTimer (callback_ t) (when_ t + interval_ t) (interval_ t) (repeat_ t) (canceled_ t))
    else Err (IntegerOverflow "Timer::restart")
  else Err (AssertFailed "Timer::restart").
Definition cancel (t : Timer) : result Timer :=
  if canceled_ t then Err (AssertFailed "Timer::cancel")
  else Ok (mkTimer (callback_ t) (when_ t) (interval_ t) (repeat_ t) true).
End Timer.

(** ** std::set of entries *)

(** operator< of std::pair. *)
Definition entry_lt (a b : Entry) : bool :=
  (a.1 <? b.1) || ((a.1 =? b.1) && (a.2 <? b.2)).

Fixpoint set_insert (e : Entry) (l : list Entry) : list Entry * bool :=
  match l with
  | [] => ([e], true)
  | x :: l' =>
      if entry_lt e x then (e :: x :: l', true)
      else if entry_lt x e then
        let '(l2, b) := set_insert e l' in (x :: l2, b)
      else (x :: l', false)
  end.

(** The elements below a key, and the rest: [begin, lower_bound) and
    [lower_bound, end). *)
Fixpoint lower_bound (k : Entry) (l : list Entry) : list Entry * list Entry :=
  match l with
  | [] => ([], [])
  | x :: l' =>
      if entry_lt x k then let '(a, b) := lower_bound k l' in (x :: a, b) else ([], x :: l')
  end.

(** Erasing the first entry of a timer. *)
Fixpoint erase_timer (p : Z) (l : list Entry) : list Entry :=
  match l with
  | [] => []
  | x :: l' => if x.2 =? p then l' else x :: erase_timer p l'
  end.

Module TimerQueue.

#[export] Instance tw_has_loop {K} : HasLoop K TimerTask (TW K) :=
  {| get_loop := tloop;
     put_loop l w := mkTW (queue w) l (heap w) (fired w) (armed w) |}.
#[export] Instance tw_has_loop_laws {K} : HasLoopLaws K TimerTask (TW K).
Proof. constructor; [done..|by intros []]. Qed.

(** durationFromNow, given the current time: at least one millisecond. *)
Definition duration (when now : Z) : Z :=
  let ns := when - now in if ns <? 1000000 then 1000000 else ns.
Definition timespec (ns : Z) : Z * Z := (Z.quot ns 1000000000, Z.rem ns 1000000000).

Section operations.
Context {K : Type} `{Posix K} `{Allocator}.
Abbreviation MT := (M (TW K)).

Definition upd_timers (f : list Entry -> list Entry) : MT unit :=
  modify (fun w => let q := queue w in
    mkTW (mkTimerQueue (timerfd_ q) (timerChannel_ q) (f (timers_ q)))
      (tloop w) (heap w) (fired w) (armed w)).
Definition upd_heap (f : gmap Z Timer -> gmap Z Timer) : MT unit :=
  modify (fun w => mkTW (queue w) (tloop w) (f (heap w)) (fired w) (armed w)).
Definition get_timers : MT (list Entry) := gets (fun w => timers_ (queue w)).
Definition os {A} (f : K -> A * K) : MT A := on_loop (loop_sys f).

(** time_utils of Timestamp.h. *)
Definition time_now : MT Z := os sys_now.
Definition nowAfter (interval : Z) : MT Z := t <- time_now;; i64 "nowAfter" (t + interval).
Definition nowBefore (interval : Z) : MT Z := t <- time_now;; i64 "nowBefore" (t - interval).

(** Member access through a Timer*. *)
Definition deref (site : string) (p : Z) : MT Timer :=
  if p =? 0 then throw (NullDeref site)
  else
    h <- gets heap;;
    match h !! p with
    | Some t => ret t
    | None => throw (UseAfterFree site)
    end.

Definition of_result {A} (r : result A) : MT A :=
  match r with Ok a => ret a | Err f => throw f end.

(** delete timer, of an object that was just accessed. *)
Definition delete_timer (p : Z) : MT unit := upd_heap (delete p).

(** timerfdRead: a short read is only logged. *)
Definition timerfdRead : MT unit :=
  fd <- gets (fun w => timerfd_ (queue w));;
  _ <- os (sys_read fd 8);; ret tt.

(** timerfdSet, with durationFromNow. *)
Definition timerfdSet (when : Z) : MT unit :=
  fd <- gets (fun w => timerfd_ (queue w));;
  now <- time_now;;
  _ <- i64 "durationFromNow" (when - now);;
  let ns := duration when now in
  r <- os (sys_timerfd_settime fd (timespec ns));;
  match r with
  | SysErr e => _ <- os (errno_after_log e);; ret tt
  | SysOk _ => modify (fun w => mkTW (queue w) (tloop w) (heap w) (fired w) (Some (now, ns)))
  end.

(** The lambda of addTimer. *)
Definition addTimerInLoop (at_ timer : Z) : MT unit :=
  l <- get_timers;;
  let '(l', inserted) := set_insert (at_, timer) l in
  upd_timers (fun _ => l');;;
  assert_ "TimerQueue::addTimer" inserted;;;
  when (bool_decide (head l' = Some (at_, timer))) (timerfdSet at_).

(** The lambda of cancelTimer. *)
Definition cancelTimerInLoop (timer : Z) : MT unit :=
  t <- deref "TimerQueue::cancelTimer" timer;;
  t' <- of_result (Timer.cancel t);;
  upd_heap (insert timer t');;;
  l <- get_timers;;
  if existsb (fun e => e.2 =? timer) l then
    upd_timers (erase_timer timer);;; delete_timer timer
  else delete_timer timer.

Definition run_task (t : TimerTask) : MT unit :=
  match t with
  | TAddTimer when timer => addTimerInLoop when timer
  | TCancelTimer timer => cancelTimerInLoop timer
  end.

(** TimerQueue::addTimer. *)
Definition addTimer (callback : list action) (when interval : Z) : MT Z :=
  p <- gets (fun w => alloc (heap w));;
  upd_heap (insert p (Timer.new_Timer callback when interval));;;
  EventLoop.runInLoop run_task (TAddTimer when p);;;
  ret p.

(** TimerQueue::cancelTimer. *)
Definition cancelTimer (timer : Z) : MT unit :=
  EventLoop.runInLoop run_task (TCancelTimer timer).

(** EventLoop::runAt, runAfter, runEvery and cancelTimer. *)
Definition runAt (when : Z) (callback : list action) : MT Z := addTimer callback when 0.
Definition runAfter (interval : Z) (callback : list action) : MT Z :=
  now <- time_now;; t <- i64 "EventLoop::runAfter" (now + interval);; runAt t callback.
Definition runEvery (interval : Z) (callback : list action) : MT Z :=
  now <- time_now;; t <- i64 "EventLoop::runEvery" (now + interval);;
  addTimer callback t interval.
Definition loop_cancelTimer (timer : Z) : MT unit := cancelTimer timer.

Definition run_action (a : action) : MT unit :=
  match a with
  | ACancel p => cancelTimer p
  | AAdd cb when interval => _ <- addTimer cb when interval;; ret tt
  | AAfter cb interval => _ <- runAfter interval cb;; ret tt
  | AEvery cb interval => _ <- runEvery interval cb;; ret tt
  end.

(** TimerQueue::getExpired. *)
Definition getExpired (now : Z) : MT (list Entry) :=
  t <- i64 "TimerQueue::getExpired" (now + 1);;
  l <- get_timers;;
  let '(ret_, rest) := lower_bound (t, 0) l in
  upd_timers (fun _ => rest);;;
  ret ret_.

(** The body of the loop of handleRead. *)
Definition process (now : Z) (e : Entry) : MT unit :=
  let timer := e.2 in
  t <- deref "TimerQueue::handleRead" timer;;
  assert_ "TimerQueue::handleRead" (Timer.expired now t);;;
  when (negb (Timer.canceled t))
    (modify (fun w => mkTW (queue w) (tloop w) (heap w) (fired w ++ [e]) (armed w));;;
     forM (callback_ t) run_action);;;
  t1 <- deref "TimerQueue::handleRead" timer;;
  if negb (Timer.canceled t1) && Timer.repeat t1 then
    t2 <- of_result (Timer.restart t1);;
    upd_heap (insert timer t2);;;
    upd_timers (fun l => (set_insert (Timer.when t2, timer) l).1)
  else delete_timer timer.

(** TimerQueue::handleRead. *)
Definition handleRead : MT unit :=
  on_loop assertInLoopThread;;;
  timerfdRead;;;
  now <- time_now;;
  l <- getExpired now;;
  forM l (process now);;;
  rest <- get_timers;;
  match rest with
  | [] => ret tt
  | e :: _ => timerfdSet e.1
  end.

(** The constructor, given what timerfd_create returned, and the destructor. *)
Definition construct (addr : Z) (fd : sysres Z) : MT unit :=
  match fd with
  | SysErr _ => throw (Aborted "timerfd_create")
  | SysOk fd =>
      on_loop assertInLoopThread;;;
      modify (fun w => mkTW (mkTimerQueue fd
          (Channel.setReadCallback (Some tt) (Channel.new addr fd)) [])
        (tloop w) (heap w) (fired w) (armed w));;;
      zoom (fun w => (timerChannel_ (queue w), tloop w))
        (fun p w => mkTW (mkTimerQueue (timerfd_ (queue w)) p.1 (timers_ (queue w))) p.2
                      (heap w) (fired w) (armed w))
        ChannelOps.enableRead
  end.

Definition destroy : MT unit :=
  l <- get_timers;;
  forM l (fun e => _ <- deref "TimerQueue::~TimerQueue" e.2;; delete_timer e.2);;;
  fd <- gets (fun w => timerfd_ (queue w));;
  when (negb (fd =? -1)) (_ <- os (sys_close fd);; ret tt).
End operations.
End TimerQueue.
