(* ===== verification/TimerQueueSpec.v ===== *)
(** * TimerQueue: invariant and properties

    [WF limbo w]: the set is sorted, its entries and the addresses in [limbo]
    (timers taken out of the set, or not yet put in) are exactly the objects on
    the heap, each entry carries its timer's time, and no timer is cancelled. *)

From Stdlib Require Import Sorting.Sorted.
From S2P Require Import Prelude Posix Channel Epoll EventLoop TimerQueue.
Import TimerQueue.

(** timerfd_settime(2) fails only for values that are not normalised. *)
Class TimerfdLaws (K : Type) `{Posix K} : Prop :=
  settime_ok : forall fd s ns k, 0 <= s -> 0 <= ns < 1000000000 ->
    exists k', sys_timerfd_settime fd (s, ns) k = (SysOk tt, k').

#[export] Instance SimTimerfdLaws : TimerfdLaws SimK.
Proof. intros fd s ns k _ _. by eexists. Qed.

(** system_clock counts nanoseconds since 1970: below 2^62 up to the year 2116. *)
Class ClockLaws (K : Type) `{Posix K} : Prop :=
  now_range : forall k, 0 <= (sys_now k).1 < 2 ^ 62.

#[export] Instance SimClockLaws : ClockLaws SimK.
Proof. intros k. apply Z.mod_pos_bound. lia. Qed.

(** ** The times that stay within int64_t *)

(** A point in time from which the clock can be subtracted, an interval that
    can be added to the clock. *)
Definition time_ok (t : Z) : bool := (- 2 ^ 62 <=? t) && (t <? 2 ^ 63).
Definition interval_ok (d : Z) : bool := (- 2 ^ 62 <=? d) && (d <? 2 ^ 62).

(** Calls whose times are such, in the callbacks they register too. *)
Fixpoint bounded (a : action) : bool :=
  match a with
  | ACancel _ => true
  | AAdd cb when interval => time_ok when && interval_ok interval && forallb bounded cb
  | AAfter cb interval | AEvery cb interval => interval_ok interval && forallb bounded cb
  end.

Record timer_bounded (t : Timer) : Prop := mkBounded {
  tb_when : time_ok (when_ t) = true;
  tb_interval : interval_ok (interval_ t) = true;
  tb_callback : forallb bounded (callback_ t) = true
}.

Ltac time_tac :=
  unfold time_ok, interval_ok, int_range in *; rewrite ?andb_true_iff, ?Z.leb_le, ?Z.ltb_lt in *; lia.

Lemma interval_time d : interval_ok d = true -> time_ok d = true.
Proof. time_tac. Qed.

(** ** The order of the set *)

Definition lt_entry (a b : Entry) : Prop := entry_lt a b = true.
Abbreviation sorted := (StronglySorted lt_entry).

Lemma entry_lt_spec a b : entry_lt a b = true <-> a.1 < b.1 \/ (a.1 = b.1 /\ a.2 < b.2).
Proof. unfold entry_lt. rewrite orb_true_iff, andb_true_iff. lia. Qed.

Lemma entry_lt_trans a b c : lt_entry a b -> lt_entry b c -> lt_entry a c.
Proof. unfold lt_entry. rewrite !entry_lt_spec. lia. Qed.

Lemma entry_total a b : entry_lt a b = false -> entry_lt b a = false -> a = b.
Proof.
  intros Ha Hb. apply not_true_iff_false in Ha, Hb. rewrite entry_lt_spec in *.
  destruct a, b; simpl in *. f_equal; lia.
Qed.

Lemma set_insert_perm e l : e ∉ l -> (set_insert e l).1 ≡ₚ e :: l /\ (set_insert e l).2 = true.
Proof.
  induction l as [|x l IH]; intros He; simpl; [done|].
  destruct (entry_lt e x) eqn:E1; [done|].
  destruct (entry_lt x e) eqn:E2.
  - destruct IH as [IHp IHb]; [set_solver|].
    destruct (set_insert e l) as [l2 b]. simpl in *. split; [|done].
    rewrite IHp. apply Permutation_swap.
  - exfalso. apply He. rewrite (entry_total e x) by done. by left.
Qed.

Lemma set_insert_sorted e l : sorted l -> sorted (set_insert e l).1.
Proof.
  induction 1 as [|x l Hs IH Hx]; simpl; [repeat constructor|].
  destruct (entry_lt e x) eqn:E1.
  { constructor; [by constructor|]. constructor; [done|].
    eapply Forall_impl; [exact Hx|]. intros y Hy. by eapply entry_lt_trans. }
  destruct (entry_lt x e) eqn:E2; [|by constructor].
  assert (Forall (lt_entry x) (set_insert e l).1) as Hf.
  { clear IH Hs. induction l as [|y l IHl]; simpl; [by repeat constructor|].
    apply Forall_cons in Hx as [Hxy Hx]. specialize (IHl Hx).
    destruct (entry_lt e y); [by repeat constructor|].
    destruct (entry_lt y e); [|by repeat constructor].
    destruct (set_insert e l). by constructor. }
  destruct (set_insert e l) as [l2 b]. simpl in *. by constructor.
Qed.

Lemma lower_bound_app k l : (lower_bound k l).1 ++ (lower_bound k l).2 = l.
Proof.
  induction l as [|x l IH]; simpl; [done|]. destruct (entry_lt x k); [|done].
  destruct (lower_bound k l). simpl in *. by rewrite IH.
Qed.

(** On positive addresses the key (now + 1, nullptr) separates the times. *)
Lemma lower_bound_filter now l :
  sorted l -> Forall (fun e => 0 < e.2) l ->
  (lower_bound (now + 1, 0) l).1 = filter (fun e => e.1 <= now) l.
Proof.
  induction 1 as [|x l Hs IH Hx]; intros Hp; [done|]. apply Forall_cons in Hp as [Hp Hps].
  cbn [lower_bound]. rewrite filter_cons. destruct (entry_lt x (now + 1, 0)) eqn:E.
  - apply entry_lt_spec in E. simpl in E. rewrite decide_True by lia.
    rewrite <- IH by done. by destruct (lower_bound _ l).
  - apply not_true_iff_false in E. rewrite entry_lt_spec in E. simpl in E.
    rewrite decide_False by lia.
    rewrite filter_none; [done|]. intros y Hy Hle. simpl in Hle.
    rewrite Forall_forall in Hx. apply Hx in Hy. unfold lt_entry in Hy.
    rewrite entry_lt_spec in Hy. lia.
Qed.

Lemma erase_timer_perm p l :
  p ∈ map snd l -> exists w, (w, p) ∈ l /\ l ≡ₚ (w, p) :: erase_timer p l.
Proof.
  induction l as [|[w q] l IH]; simpl; [by intros ?%elem_of_nil|]. intros Hp.
  destruct (q =? p) eqn:E; bool_solve.
  - subst. exists w. split; [by left|done].
  - apply elem_of_cons in Hp as [->|Hp]; [done|].
    destruct (IH Hp) as (w' & Hin & Hperm). exists w'. split; [by right|].
    rewrite Hperm at 1. apply Permutation_swap.
Qed.

Lemma erase_timer_Forall P p l : Forall P l -> Forall P (erase_timer p l).
Proof. induction 1 as [|x l Hx Hl IH]; simpl; [done|]. destruct (x.2 =? p); [done|by constructor]. Qed.

Lemma erase_timer_sorted p l : sorted l -> sorted (erase_timer p l).
Proof.
  induction 1 as [|x l Hs IH Hx]; simpl; [constructor|].
  destruct (x.2 =? p); [done|]. constructor; [done|by apply erase_timer_Forall].
Qed.

Lemma sorted_nodup l : sorted l -> NoDup l.
Proof.
  induction 1 as [|e l Hs IH Hall]; constructor; [|done]. intros Hin.
  rewrite Forall_forall in Hall. apply Hall in Hin. unfold lt_entry in Hin.
  rewrite entry_lt_spec in Hin. lia.
Qed.

Lemma sorted_app_r l1 l2 : sorted (l1 ++ l2) -> sorted l2.
Proof. induction l1 as [|x l1 IH]; simpl; [done|]. intros [Hs _]%StronglySorted_inv. auto. Qed.

Lemma erase_timer_in p l x q : q <> p -> (x, q) ∈ l -> (x, q) ∈ erase_timer p l.
Proof.
  intros Hq. induction l as [|y l IH]; simpl; [done|].
  destruct (y.2 =? p) eqn:E; bool_solve; intros [<-|Hin]%elem_of_cons; simpl in *.
  - by destruct Hq.
  - done.
  - by left.
  - right. by apply IH.
Qed.

(** ** The invariant *)

Section invariant.
Context {K : Type} `{Posix K} `{!TimerfdLaws K} `{!ClockLaws K} `{Allocator}.
Implicit Types w : TW K.
Abbreviation tm w := (timers_ (queue w)).
Abbreviation ptrs w := (map snd (timers_ (queue w))).
Abbreviation in_loop w := (isInLoopThread (tloop w) = true).

(** Callbacks that cancel no timer of [B]. *)
Fixpoint avoids (B : list Z) (a : action) : bool :=
  match a with
  | ACancel p => negb (existsb (Z.eqb p) B)
  | AAdd cb _ _ | AAfter cb _ | AEvery cb _ => forallb (avoids B) cb
  end.

Definition timer_ok (B : list Z) (t : Timer) : Prop :=
  canceled_ t = false /\ repeat_ t = (0 <? interval_ t) /\ forallb (avoids B) (callback_ t) = true
  /\ timer_bounded t.

Record WF (B limbo : list Z) w : Prop := mkWF {
  wf_sorted : sorted (tm w);
  wf_entry : forall e, e ∈ tm w -> 0 < e.2 /\ exists t, heap w !! e.2 = Some t /\ when_ t = e.1;
  wf_heap : forall p t, heap w !! p = Some t ->
    timer_ok B t /\ (p ∈ ptrs w \/ p ∈ limbo);
  wf_limbo : forall p, p ∈ limbo ->
    0 < p /\ is_Some (heap w !! p) /\ (p ∉ ptrs w);
  wf_nodup : NoDup limbo
}.

(** The timer is set, and for no later than the first entry (or one
    millisecond after the call, if that is later). *)
Definition Armed w : Prop :=
  match tm w with
  | [] => True
  | e :: _ => exists now ns, armed w = Some (now, ns) /\ 1000000 <= ns
      /\ now + ns <= Z.max e.1 (now + 1000000)
  end.

(** The times of the set are in range. *)
Lemma WF_time_ok B limbo w e : WF B limbo w -> e ∈ tm w -> time_ok e.1 = true.
Proof.
  intros [] (_ & t & Ht & <-)%wf_entry0. by destruct (wf_heap0 _ _ Ht) as [(_ & _ & _ & []) _].
Qed.

(** What the calls made by callbacks do to the rest of the world. *)
Record step (B : list Z) w w' : Prop := mkStep {
  st_tid : tid_ (tloop w') = tid_ (tloop w);
  st_cur : current_tid (tloop w') = current_tid (tloop w);
  st_tasks : pendingTasks_ (tloop w') = pendingTasks_ (tloop w);
  st_fired : fired w' = fired w;
  st_heap : forall q, q ∈ B -> is_Some (heap w !! q) -> heap w' !! q = heap w !! q;
  st_entry : forall x q, q ∈ B -> (x, q) ∈ tm w -> (x, q) ∈ tm w'
}.

#[export] Instance step_preorder B : PreOrder (step B).
Proof.
  split; [by intros w; constructor|].
  intros w1 w2 w3 [] []. constructor; try congruence; [|auto].
  intros q Hq Hs. rewrite st_heap1, st_heap0; [done|done|done|done|by rewrite st_heap0].
Qed.

Lemma step_loop B w w' : step B w w' -> in_loop w -> in_loop w'.
Proof. unfold isInLoopThread. intros []. congruence. Qed.

(** The timers of the set are not in limbo, and no address occurs twice. *)
Lemma entry_unique B limbo w x y p :
  WF B limbo w -> (x, p) ∈ tm w -> (y, p) ∈ tm w -> x = y.
Proof.
  intros [] Hx Hy. apply wf_entry0 in Hx as (_ & t & Ht & ?), Hy as (_ & t' & Ht' & ?).
  simpl in *. congruence.
Qed.

Lemma ptr_in p (l : list Entry) : p ∈ map snd l <-> exists x, (x, p) ∈ l.
Proof.
  split.
  - intros ([x q] & -> & Hin)%list_elem_of_fmap. by exists x.
  - intros [x Hin]. apply list_elem_of_fmap. by exists (x, p).
Qed.

Section calls.
Context (F : fault -> Prop).

(** Changes of the kernel state only. *)
Lemma tq_os_wp {A} (f : K -> A * K) w (Q : A -> TW K -> Prop) :
  (forall k', Q (f (kernel (tloop w))).1
     (mkTW (queue w) (set_kernel k' (tloop w)) (heap w) (fired w) (armed w))) ->
  wp F (os f) Q w.
Proof. intros HQ. unfold os, loop_sys. wp_simpl. apply HQ. Qed.

(** Reading the clock. *)
Lemma time_now_wp w (Q : Z -> TW K -> Prop) :
  (forall now k', 0 <= now < 2 ^ 62 ->
     Q now (mkTW (queue w) (set_kernel k' (tloop w)) (heap w) (fired w) (armed w))) ->
  wp F time_now Q w.
Proof. intros HQ. apply tq_os_wp. intros k'. apply HQ, now_range. Qed.

Lemma duration_ok when now :
  let ns := duration when now in
  1000000 <= ns /\ now + ns <= Z.max when (now + 1000000)
  /\ 0 <= (timespec ns).1 /\ 0 <= (timespec ns).2 < 1000000000
  /\ (timespec ns).1 * 1000000000 + (timespec ns).2 = ns.
Proof.
  unfold duration, timespec. simpl.
  assert (forall n, 0 <= n -> 0 <= n ÷ 1000000000 /\ 0 <= Z.rem n 1000000000 < 1000000000
            /\ n ÷ 1000000000 * 1000000000 + Z.rem n 1000000000 = n) as Hq.
  { intros n Hn. rewrite Z.quot_div_nonneg, Z.rem_mod_nonneg by lia.
    pose proof (Z.mod_pos_bound n 1000000000). pose proof (Z.div_mod n 1000000000). lia. }
  case_bool.
  - pose proof (Hq 1000000). lia.
  - pose proof (Hq (when - now)). lia.
Qed.

Lemma timerfdSet_wp at_ w (Q : unit -> TW K -> Prop) :
  time_ok at_ = true ->
  (forall now ns k', 1000000 <= ns -> now + ns <= Z.max at_ (now + 1000000) ->
     Q tt (mkTW (queue w) (set_kernel k' (tloop w)) (heap w) (fired w) (Some (now, ns)))) ->
  wp F (timerfdSet at_) Q w.
Proof.
  intros Hat HQ. unfold timerfdSet. rewrite wp_bind, wp_gets, wp_bind.
  unfold time_now, os, loop_sys. wp_simpl. simpl.
  pose proof (now_range (kernel (tloop w))) as Hnow.
  apply wp_i64; [time_tac|]. wp_simpl. simpl.
  destruct (duration_ok at_ (sys_now (kernel (tloop w))).1) as (H1 & H2 & H3 & H4 & _).
  destruct (timespec _) as [s ns] eqn:E. simpl in *.
  destruct (settime_ok (timerfd_ (queue w)) s ns (sys_now (kernel (tloop w))).2) as [k' Hk];
    [done..|].
  rewrite Hk. simpl. wp_simpl. simpl.
  match goal with |- Q tt (mkTW ?q ?l ?h ?f ?a) =>
    change l with (set_kernel k' (tloop w)) end.
  by apply HQ.
Qed.

(** Inserting a timer that is on the heap but in no entry. *)
Lemma addTimerInLoop_wp B limbo at_ p t w (Q : unit -> TW K -> Prop) :
  WF B (p :: limbo) w -> heap w !! p = Some t -> when_ t = at_ ->
  (forall w', WF B limbo w' -> step B w w' -> heap w' = heap w ->
     tm w' = (set_insert (at_, p) (tm w)).1 -> (Armed w -> Armed w') -> Q tt w') ->
  wp F (addTimerInLoop at_ p) Q w.
Proof.
  intros Hwf Ht Hat HQ. pose proof Hwf as [].
  destruct (wf_limbo0 p) as (Hpos & _ & Hp); [by left|].
  assert ((at_, p) ∉ tm w) as Hnin by (intros Hin; apply Hp, ptr_in; by exists at_).
  destruct (set_insert_perm _ _ Hnin) as [Hperm Hins].
  pose proof (set_insert_sorted (at_, p) _ wf_sorted0) as Hsort.
  unfold addTimerInLoop, get_timers, upd_timers. wp_simpl.
  destruct (set_insert (at_, p) (tm w)) as [l' b] eqn:E. simpl in Hperm, Hins, Hsort. subst b.
  wp_simpl. set (w1 := mkTW _ _ _ _ _).
  assert (forall x q, (x, q) ∈ l' <-> (x, q) = (at_, p) \/ (x, q) ∈ tm w) as Hin.
  { intros x q. by rewrite Hperm, elem_of_cons. }
  assert (WF B limbo w1) as Hwf1.
  { constructor; simpl; [done| | | |by inversion wf_nodup0].
    - intros [x q] [[= -> ->]|He]%Hin; [|by apply wf_entry0]. split; [done|]. by exists t.
    - intros q tq Hq. destruct (wf_heap0 q tq Hq) as [? Hor]. split; [done|].
      rewrite ptr_in in *. destruct Hor as [[x Hx]|[->|Hx]%elem_of_cons]; [|left|by right].
      + left. exists x. apply Hin. by right.
      + exists at_. apply Hin. by left.
    - intros q Hq. destruct (wf_limbo0 q) as (? & ? & Hnq); [by right|].
      split_and!; try done. rewrite ptr_in. intros (x & [[= -> ->]|Hx]%Hin).
      + by apply NoDup_cons in wf_nodup0 as [? _].
      + apply Hnq, ptr_in. by exists x. }
  assert (step B w w1) as Hst1.
  { constructor; try done. intros x q _ Hx. apply Hin. by right. }
  destruct (wf_heap0 p t Ht) as [(_ & _ & _ & Hbt) _].
  case_bool_decide as Hhd.
  - wp_call timerfdSet_wp; [rewrite <- Hat; apply Hbt| |intros ? ? HQ'; exact HQ']. intros now ns k' H1 H2. apply HQ.
    + destruct Hwf1. by constructor.
    + etrans; [exact Hst1|]. by constructor.
    + done.
    + done.
    + intros _. unfold Armed. simpl. destruct l' as [|e l']; [done|].
      simpl in Hhd. injection Hhd as ->. by eexists _, _.
  - apply HQ; try done. unfold Armed. simpl. intros Ha.
    destruct (tm w) as [|x l] eqn:El; simpl in E; [by simplify_eq/=|].
    destruct (entry_lt (at_, p) x); [by simplify_eq/=|].
    destruct (entry_lt x (at_, p)); [|by simplify_eq/=].
    destruct (set_insert _ l). by simplify_eq/=.
Qed.

Lemma runInLoop_wp (t : TimerTask) w (Q : unit -> TW K -> Prop) :
  in_loop w -> wp F (run_task t) Q w -> wp F (EventLoop.runInLoop run_task t) Q w.
Proof.
  intros Hl HQ. unfold EventLoop.runInLoop. wp_simpl. cbn [get_loop tw_has_loop].
  rewrite Hl. by destruct w.
Qed.

(** addTimer on the loop's thread. *)
Lemma addTimer_wp B limbo cb at_ iv w (Q : Z -> TW K -> Prop) :
  WF B limbo w -> in_loop w -> forallb (avoids B) cb = true ->
  timer_bounded (Timer.new_Timer cb at_ iv) ->
  (forall p w', heap w !! p = None -> WF B limbo w' -> step B w w' ->
     heap w' = <[p := Timer.new_Timer cb at_ iv]> (heap w) ->
     tm w' = (set_insert (at_, p) (tm w)).1 -> (Armed w -> Armed w') -> Q p w') ->
  wp F (addTimer cb at_ iv) Q w.
Proof.
  intros Hwf Hl Hcb Hbt HQ. unfold addTimer, upd_heap. wp_simpl.
  set (p := alloc (heap w)). set (t := Timer.new_Timer cb at_ iv).
  pose proof (alloc_fresh (heap w)) as Hnone. pose proof (alloc_pos (heap w)) as Hpos.
  fold p in Hnone, Hpos. set (w1 := mkTW _ _ _ _ _). pose proof Hwf as [].
  assert (forall q, is_Some (heap w !! q) -> q <> p) as Hne by (intros q [? ?] ->; congruence).
  assert (WF B (p :: limbo) w1) as Hwf1.
  { constructor; simpl; [done| | | |].
    - intros e He. destruct (wf_entry0 e He) as (? & te & Hte & ?). split; [done|].
      exists te. by rewrite lookup_insert_ne by (symmetry; apply Hne; eauto).
    - intros q tq [[<- <-]|[? Hq]]%lookup_insert_Some.
      + split; [by split_and!|]. right. by left.
      + destruct (wf_heap0 q tq Hq) as [? [?|?]]; split; auto. right. by right.
    - intros q [->|Hq]%elem_of_cons.
      + split_and!; [done|by rewrite lookup_insert_eq|]. intros (x & Hx)%ptr_in.
        destruct (wf_entry0 _ Hx) as (_ & tx & Htx & _). simpl in Htx. congruence.
      + destruct (wf_limbo0 q Hq) as (? & Hs & ?). split_and!; [done| |done].
        by rewrite lookup_insert_ne by (symmetry; by apply Hne).
    - apply NoDup_cons. split; [|done]. intros Hin. destruct (wf_limbo0 p Hin) as (_ & Hs & _).
      by apply (Hne p). }
  assert (step B w w1) as Hst1.
  { constructor; try done. simpl. intros q _ Hs.
    by rewrite lookup_insert_ne by (symmetry; by apply Hne). }
  apply runInLoop_wp; [done|]. simpl.
  apply (addTimerInLoop_wp B limbo at_ p t); [done|by simpl; rewrite lookup_insert_eq|done|].
  intros w' Hwf' Hst' Hh Htm Har. wp_simpl. apply HQ; try done.
  - etrans; [exact Hst1|done].
Qed.

Definition cancel_fault (f : fault) : Prop :=
  f = UseAfterFree "TimerQueue::cancelTimer" \/ f = NullDeref "TimerQueue::cancelTimer".

(** cancelTimer of a timer that is in the set; of one that is not on the heap
    it is a use after free. *)
Lemma cancelTimer_wp B limbo p w (Q : unit -> TW K -> Prop) :
  (forall f, cancel_fault f -> p ∉ ptrs w -> F f) ->
  WF B limbo w -> in_loop w -> p ∉ B -> p ∉ limbo ->
  (forall w', p ∈ ptrs w -> WF B limbo w' -> step B w w' -> heap w' = delete p (heap w) ->
     tm w' = erase_timer p (tm w) -> (Armed w -> Armed w') -> Q tt w') ->
  wp F (cancelTimer p) Q w.
Proof.
  intros HF Hwf Hl HpB HpL HQ. apply runInLoop_wp; [done|]. simpl.
  unfold cancelTimerInLoop, deref.
  pose proof Hwf as [].
  assert (p ∈ ptrs w -> 0 < p /\ is_Some (heap w !! p)) as Hlive.
  { intros (x & Hx)%ptr_in. destruct (wf_entry0 _ Hx) as (? & t & Ht & _). by split; [|exists t]. }
  destruct (p =? 0) eqn:E0; [wp_simpl; apply HF; [by right|]; bool_solve; intros []%Hlive; lia|].
  wp_simpl. destruct (heap w !! p) as [t|] eqn:Ht;
    [|wp_simpl; apply HF; [by left|by intros [_ []%is_Some_None]%Hlive]].
  destruct (wf_heap0 p t Ht) as [[Hc _] [Hp|]]; [|done]. wp_simpl. unfold Timer.cancel.
  rewrite Hc. simpl. unfold upd_heap, get_timers, upd_timers, delete_timer, upd_heap. wp_simpl.
  simpl.
  assert (existsb (fun e => e.2 =? p) (tm w) = true) as ->.
  { apply existsb_exists. apply ptr_in in Hp as [x Hx]. exists (x, p).
    split; [by apply list_elem_of_In|]. simpl. apply Z.eqb_refl. }
  wp_simpl. simpl. set (w1 := mkTW _ _ _ _ _).
  assert (heap w1 = delete p (heap w)) as Hh by (simpl; by rewrite delete_insert_eq).
  destruct (erase_timer_perm p (tm w) Hp) as (x & Hx & Hperm).
  assert (forall y q, (y, q) ∈ tm w1 -> (y, q) ∈ tm w /\ q <> p) as Hsub.
  { intros y q Hy. simpl in Hy. split; [rewrite Hperm; by right|]. intros ->.
    assert ((y, p) ∈ tm w) as Hyw by (rewrite Hperm; by right).
    assert (y = x) as -> by by eapply entry_unique.
    pose proof (sorted_nodup _ wf_sorted0) as Hnd.
    rewrite Hperm in Hnd. by apply NoDup_cons in Hnd as [? _]. }
  apply HQ; [done| | |done|done|].
  - constructor.
    + by apply erase_timer_sorted.
    + intros [y q] [Hy Hq]%Hsub. destruct (wf_entry0 _ Hy) as (? & ty & Hty & ?).
      split; [done|]. exists ty. by rewrite Hh, lookup_delete_ne.
    + intros q tq. rewrite Hh. intros [Hne Hq]%lookup_delete_Some.
      destruct (wf_heap0 q tq Hq) as [? [(y & Hy)%ptr_in|?]]; split; auto.
      left. apply ptr_in. exists y. by apply erase_timer_in.
    + intros q Hq. destruct (wf_limbo0 q Hq) as (? & ? & Hn). split_and!; [done| |].
      * rewrite Hh, lookup_delete_ne; [done|]. by intros ->.
      * intros (y & [Hy _]%Hsub)%ptr_in. apply Hn, ptr_in. by exists y.
    + done.
  - constructor; try done.
    + intros q Hq _. rewrite Hh, lookup_delete_ne; [done|]. by intros ->.
    + intros y q Hq Hy. apply erase_timer_in; [|done]. by intros ->.
  - unfold Armed. simpl. intros Ha.
    destruct (tm w) as [|e l]; [by apply elem_of_nil in Hp|]. simpl.
    destruct Ha as (now & ns & Har & Hns & Hle).
    destruct (e.2 =? p); [|by exists now, ns].
    destruct l as [|e' l]; [done|]. exists now, ns. split_and!; try done.
    apply StronglySorted_inv in wf_sorted0 as [_ Hall]. apply Forall_cons in Hall as [He _].
    unfold lt_entry in He. rewrite entry_lt_spec in He. lia.
Qed.

(** The faults of a call: cancelTimer of a timer that is not in the set. *)
Definition action_fault (a : action) w (f : fault) : Prop :=
  cancel_fault f /\ match a with ACancel p => p ∉ ptrs w | _ => False end.

(** A call whose times are bounded, while the timers of [B] are out of reach. *)
Lemma run_action_wp B limbo a w :
  (forall f, action_fault a w f -> F f) ->
  WF B limbo w -> in_loop w -> limbo ⊆ B -> avoids B a = true -> bounded a = true ->
  wp F (run_action a) (fun _ w' => WF B limbo w' /\ step B w w' /\ (Armed w -> Armed w')) w.
Proof.
  intros HF Hwf Hl HL Ha Hb.
  assert (forall cb iv k' at_, forallb (avoids B) cb = true ->
    time_ok at_ = true -> interval_ok iv = true -> forallb bounded cb = true ->
    wp F (addTimer cb at_ iv) (fun _ w' => WF B limbo w' /\ step B w w' /\ (Armed w -> Armed w'))
      (mkTW (queue w) (set_kernel k' (tloop w)) (heap w) (fired w) (armed w))) as Hadd.
  { intros cb iv k' at_ Hcb Hat Hiv Hbc. apply (addTimer_wp B limbo); [by destruct Hwf|done|done|done|].
    intros p w' _ ? Hst _ _ ?. split_and!; [done|destruct Hst; by constructor|done]. }
  destruct a as [p|cb at_ iv|cb iv|cb iv]; simpl in *;
    rewrite ?andb_true_iff in Hb; destruct_and?.
  - assert (p ∉ B) as HpB.
    { intros Hin. apply negb_true_iff, not_true_iff_false in Ha. apply Ha.
      apply existsb_exists. exists p. split; [by apply list_elem_of_In|]. apply Z.eqb_refl. }
    assert (p ∉ limbo) as HpL by (intros Hin; by apply HpB, HL).
    apply (cancelTimer_wp B limbo); try done. intros f Hf Hp. by apply HF.
  - wp_simpl. specialize (Hadd cb iv (kernel (tloop w)) at_).
    destruct w as [q [] h f ar]. by apply Hadd.
  - unfold runAfter, runAt. wp_simpl. apply time_now_wp. intros now k' Hnow.
    wp_simpl. apply wp_i64; [time_tac|]. wp_simpl. apply Hadd; [done|time_tac..|done].
  - unfold runEvery. wp_simpl. apply time_now_wp. intros now k' Hnow.
    wp_simpl. apply wp_i64; [time_tac|]. apply Hadd; [done|time_tac..|done].
Qed.

Context (HF : forall f, cancel_fault f -> F f).

(** The calls of a callback, while the timers of [B] are out of reach. *)
Lemma run_actions_wp B limbo l w :
  WF B limbo w -> in_loop w -> limbo ⊆ B -> forallb (avoids B) l = true ->
  forallb bounded l = true ->
  wp F (forM l run_action) (fun _ w' => WF B limbo w' /\ step B w w' /\ (Armed w -> Armed w')) w.
Proof.
  intros Hwf Hl HL. revert w Hwf Hl. induction l as [|a l IH]; intros w Hwf Hl Hav Hbd.
  { simpl. wp_simpl. done. }
  simpl in Hav, Hbd. apply andb_prop in Hav as [Ha Hav], Hbd as [Hb Hbd]. simpl. wp_simpl.
  wp_call (run_action_wp B limbo a w); [by intros f [? _]; apply HF|done..|].
  intros _ w1 (Hwf1 & Hst1 & Ha1). wp_call IH; [done|by eapply step_loop|done|done|].
  intros _ w2 (? & ? & ?). split_and!; [done|by etrans|auto].
Qed.

(** What processing one expired entry leaves for the others. *)
Record kept (B : list Z) (p : Z) w w' : Prop := mkKept {
  kp_tid : tid_ (tloop w') = tid_ (tloop w);
  kp_cur : current_tid (tloop w') = current_tid (tloop w);
  kp_heap : forall q, q ∈ B -> q <> p -> is_Some (heap w !! q) -> heap w' !! q = heap w !! q;
  kp_entry : forall x q, q ∈ B -> (x, q) ∈ tm w -> (x, q) ∈ tm w'
}.

Lemma WF_drop B p L w :
  WF B (p :: L) w -> WF B L (mkTW (queue w) (tloop w) (delete p (heap w)) (fired w) (armed w)).
Proof.
  intros []. destruct (wf_limbo0 p) as (_ & _ & Hp); [by left|].
  apply NoDup_cons in wf_nodup0 as [HpL Hnd]. constructor; simpl; try done.
  - intros e He. destruct (wf_entry0 e He) as (? & t & Ht & ?). split; [done|]. exists t.
    rewrite lookup_delete_ne; [done|]. intros ->. apply Hp. apply ptr_in. exists e.1. by destruct e.
  - intros q t [Hne Hq]%lookup_delete_Some.
    destruct (wf_heap0 q t Hq) as [? [?|[->|?]%elem_of_cons]]; auto. done.
  - intros q Hq. destruct (wf_limbo0 q) as (? & ? & ?); [by right|]. split_and!; [done| |done].
    rewrite lookup_delete_ne; [done|]. by intros ->.
Qed.

(** A repeating timer back in the set, with its next time. *)
Lemma WF_requeue B p t L w :
  let e := (when_ t + interval_ t, p) in
  let t' := mkTimer (callback_ t) (when_ t + interval_ t) (interval_ t) (repeat_ t) (canceled_ t) in
  let w' := mkTW (mkTimerQueue (timerfd_ (queue w)) (timerChannel_ (queue w))
                    (set_insert e (tm w)).1) (tloop w) (<[p := t']> (heap w)) (fired w) (armed w) in
  WF B (p :: L) w -> heap w !! p = Some t -> time_ok (when_ t + interval_ t) = true ->
  WF B L w' /\ e ∈ tm w' /\ (forall x, x ∈ tm w -> x ∈ tm w').
Proof.
  intros e t' w' [] Ht Hnext. destruct (wf_limbo0 p) as (Hpos & _ & Hp); [by left|].
  apply NoDup_cons in wf_nodup0 as [HpL Hnd].
  assert (e ∉ tm w) as He by (intros Hin; apply Hp, ptr_in; by eexists).
  destruct (set_insert_perm _ _ He) as [Hperm _].
  assert (forall x, x ∈ tm w' <-> x = e \/ x ∈ tm w) as Hin.
  { intros x. simpl. by rewrite Hperm, elem_of_cons. }
  split_and!; [|apply Hin; by left|intros x Hx; apply Hin; by right].
  constructor.
  - by apply set_insert_sorted.
  - intros x [->|Hx]%Hin; simpl.
    + split; [done|]. exists t'. by rewrite lookup_insert_eq.
    + destruct (wf_entry0 x Hx) as (? & tx & Htx & ?). split; [done|]. exists tx.
      rewrite lookup_insert_ne; [done|]. intros ->. apply Hp, ptr_in. exists x.1. by destruct x.
  - simpl. intros q tq [[<- <-]|[? Hq]]%lookup_insert_Some.
    + split; [|left; apply ptr_in; eexists; apply Hin; by left].
      destruct (wf_heap0 p t Ht) as [(? & ? & ? & []) _]. by split_and!.
    + destruct (wf_heap0 q tq Hq) as [? [(y & Hy)%ptr_in|[->|?]%elem_of_cons]]; [|done|auto].
      split; [done|]. left. apply ptr_in. exists y. apply Hin. by right.
  - intros q Hq. destruct (wf_limbo0 q) as (? & ? & Hn); [by right|].
    assert (q <> p) by (by intros ->). split_and!; [done|simpl; by rewrite lookup_insert_ne|].
    intros (y & [[= _ ->]|Hy]%Hin)%ptr_in; [done|]. apply Hn, ptr_in. by exists y.
  - done.
Qed.

(** One expired entry: its callback runs once, and then the timer is deleted
    or goes back into the set. *)
Lemma process_wp B L now e t w :
  WF B (e.2 :: L) w -> in_loop w -> e.2 :: L ⊆ B ->
  heap w !! e.2 = Some t -> when_ t = e.1 -> e.1 <= now < 2 ^ 62 ->
  wp F (process now e)
    (fun _ w' => WF B L w' /\ kept B e.2 w w' /\ fired w' = fired w ++ [e]
       /\ (repeat_ t = true -> (e.1 + interval_ t, e.2) ∈ tm w')) w.
Proof.
  intros Hwf Hl HB Ht Hw Hnow. pose proof Hwf as [].
  destruct (wf_limbo0 e.2) as (Hpos & _ & Hp); [by left|].
  destruct (wf_heap0 _ _ Ht) as [(Hc & Hr & Hav & []) _].
  assert (e.2 ∈ B) as HeB by (apply HB; by left).
  assert (forall site w1, heap w1 !! e.2 = Some t -> forall Q : Timer -> TW K -> Prop,
    Q t w1 -> wp F (deref site e.2) Q w1) as Hderef.
  { intros site w1 Hw1 Q HQ. unfold deref. rewrite (proj2 (Z.eqb_neq _ _)) by lia.
    wp_simpl. rewrite Hw1. by wp_simpl. }
  unfold process, Timer.expired, Timer.canceled, Timer.repeat. wp_simpl.
  apply Hderef; [done|]. wp_simpl. rewrite (proj2 (Z.leb_le _ _)) by lia. rewrite Hc. wp_simpl.
  simpl. wp_simpl. set (w1 := mkTW _ _ _ _ _).
  wp_call (run_actions_wp B (e.2 :: L) (callback_ t) w1); [by constructor|done..|].
  intros _ w2 (Hwf2 & Hst2 & _).
  assert (heap w2 !! e.2 = Some t) as Ht2 by (rewrite (st_heap _ _ _ Hst2); simpl; by rewrite ?Ht).
  wp_simpl. apply Hderef; [done|]. wp_simpl. rewrite Hc. cbn [negb andb].
  assert (kept B e.2 w w2) as Hk2 by (destruct Hst2; constructor; auto).
  destruct (repeat_ t) eqn:Er.
  - assert (0 < interval_ t) by (symmetry in Hr; by bool_solve).
    assert (time_ok (when_ t + interval_ t) = true) as Hnext by time_tac.
    unfold Timer.restart, of_result, upd_heap, upd_timers. rewrite Er.
    rewrite bool_decide_eq_true_2 by time_tac. wp_simpl. simpl.
    destruct (WF_requeue B e.2 t L w2 Hwf2 Ht2 Hnext) as (Hwf' & Hin & Hsub).
    unfold Timer.when. simpl. rewrite Hw, Er in *.
    split_and!; [exact Hwf'| |by rewrite (st_fired _ _ _ Hst2)|by intros _].
    destruct Hk2. constructor; simpl; try done.
    + intros q Hq Hne Hs. rewrite lookup_insert_ne by done. by apply kp_heap0.
    + intros x q Hq Hx. by apply Hsub, kp_entry0.
  - unfold delete_timer, upd_heap. wp_simpl.
    split_and!; [by apply WF_drop| |by rewrite (st_fired _ _ _ Hst2)|done].
    destruct Hk2. constructor; simpl; try done.
    intros q Hq Hne Hs. rewrite lookup_delete_ne by done. by apply kp_heap0.
Qed.

(** What is known of the batch while it is processed: [done_] went through,
    [todo] is still out of the set. *)
Record batch_inv (B L : list Z) w0 (done_ todo : list Entry) w : Prop := mkBatch {
  bi_wf : WF B (map snd todo ++ L) w;
  bi_thread : in_loop w;
  bi_todo : forall e, e ∈ todo -> exists t, heap w !! e.2 = Some t /\ heap w0 !! e.2 = Some t
    /\ when_ t = e.1;
  bi_fired : fired w = fired w0 ++ done_;
  bi_requeued : forall e t, e ∈ done_ -> heap w0 !! e.2 = Some t -> repeat_ t = true ->
    (e.1 + interval_ t, e.2) ∈ tm w
}.

Lemma batch_wp B L w0 now todo done_ w :
  batch_inv B L w0 done_ todo w -> map snd (done_ ++ todo) ++ L ⊆ B ->
  now < 2 ^ 62 -> (forall e, e ∈ todo -> e.1 <= now) ->
  wp F (forM todo (process now)) (fun _ w' => batch_inv B L w0 (done_ ++ todo) [] w') w.
Proof.
  revert done_ w. induction todo as [|e todo IH]; intros done_ w Hb HB Hclk Hnow; simpl.
  { wp_simpl. by rewrite app_nil_r. }
  wp_simpl. pose proof Hb as [Hwf Hl Htodo Hf Hrq].
  destruct (Htodo e) as (t & Ht & Ht0 & Hw); [by left|].
  assert (forall p, p ∈ e.2 :: map snd todo ++ L -> p ∈ B) as HB'.
  { intros p Hp. apply HB. rewrite map_app. simpl.
    rewrite !elem_of_app, !elem_of_cons, !elem_of_app in *. tauto. }
  pose proof (wf_nodup _ _ _ Hwf) as Hnd. simpl in Hnd. apply NoDup_cons in Hnd as [Hne Hnd].
  wp_call (process_wp B (map snd todo ++ L) now e t w); [exact Hwf|done|done|done|done| |].
  { split; [|done]. apply Hnow. by left. }
  intros _ w1 (Hwf1 & [] & Hf1 & Hq1).
  replace (done_ ++ e :: todo) with ((done_ ++ [e]) ++ todo) in * by (by rewrite <- app_assoc).
  apply IH; [|done|done|intros; apply Hnow; by right]. constructor; [done| | | |].
  - unfold isInLoopThread in *. congruence.
  - intros e' He'. destruct (Htodo e') as (t' & Ht' & ? & ?); [by right|].
    exists t'. assert (e'.2 ∈ map snd todo) as Hin.
    { apply ptr_in. exists e'.1. by destruct e'. }
    rewrite kp_heap0; [done| | |by rewrite Ht'].
    + apply HB'. right. apply elem_of_app. by left.
    + intros E. apply Hne. rewrite <- E. apply elem_of_app. by left.
  - by rewrite Hf1, Hf, <- app_assoc.
  - intros e' t' [He'| ->%list_elem_of_singleton]%elem_of_app Ht' Hr'.
    + apply kp_entry0; [|by apply Hrq]. apply HB, elem_of_app. left. apply ptr_in. exists e'.1.
      apply elem_of_app. left. apply elem_of_app. left. by destruct e'.
    + rewrite Ht0 in Ht'. injection Ht' as <-. by apply Hq1.
Qed.

(** The time that handleRead reads, and the entries due then. *)
Definition now_of w : Z :=
  (sys_now (sys_read (timerfd_ (queue w)) 8 (kernel (tloop w))).2).1.
Lemma now_of_range w : 0 <= now_of w < 2 ^ 62.
Proof. apply now_range. Qed.
Definition due w : list Entry := filter (fun e => e.1 <= now_of w) (tm w).

Lemma WF_expire B L w b rest :
  WF B L w -> tm w = b ++ rest -> NoDup (map snd (tm w)) ->
  WF B (map snd b ++ L) (mkTW (mkTimerQueue (timerfd_ (queue w)) (timerChannel_ (queue w)) rest)
                           (tloop w) (heap w) (fired w) (armed w)).
Proof.
  intros [] Htm Hnd. rewrite Htm in *. rewrite map_app in *.
  apply NoDup_app in Hnd as (Hb & Hdisj & _).
  constructor; simpl.
  - by apply sorted_app_r in wf_sorted0.
  - intros e He. apply wf_entry0, elem_of_app. by right.
  - intros p t Ht. destruct (wf_heap0 p t Ht) as [? [[?|?]%elem_of_app|?]]; split; try done;
      rewrite elem_of_app; tauto.
  - intros p [Hp|Hp]%elem_of_app.
    + split_and!; [| |by apply Hdisj]; apply ptr_in in Hp as [x Hx];
        destruct (wf_entry0 (x, p)) as (? & t & ? & _); try (apply elem_of_app; by left); eauto.
    + destruct (wf_limbo0 p Hp) as (? & ? & Hn). split_and!; try done.
      intros Hr. apply Hn, elem_of_app. by right.
  - apply NoDup_app. split_and!; [done| |done]. intros p Hp HpL.
    destruct (wf_limbo0 p HpL) as (_ & _ & Hn). apply Hn, elem_of_app. by left.
Qed.

Lemma ptrs_nodup B L w : WF B L w -> NoDup (ptrs w).
Proof.
  intros Hwf. pose proof (wf_sorted _ _ _ Hwf) as Hs.
  assert (forall x y p, (x, p) ∈ tm w -> (y, p) ∈ tm w -> x = y) as Hu
    by (intros; by eapply entry_unique).
  revert Hs Hu. generalize (tm w). intros l. induction 1 as [|[x p] l Hs IH Hall]; intros Hu.
  { constructor. }
  simpl. constructor.
  - intros (y & Hy)%ptr_in. assert (x = y) as <- by (eapply Hu; [by left|by right]).
    rewrite Forall_forall in Hall. apply Hall in Hy. unfold lt_entry in Hy.
    rewrite entry_lt_spec in Hy. simpl in Hy. lia.
  - apply IH. intros; eapply Hu; by right.
Qed.

(** handleRead up to its loop. *)
Lemma handleRead_batch_wp B L w (Q : unit -> TW K -> Prop) :
  WF B L w -> in_loop w ->
  (forall w1, WF B (map snd (due w) ++ L) w1 -> in_loop w1 -> heap w1 = heap w ->
     fired w1 = fired w -> due w ++ tm w1 = tm w ->
     wp F (forM (due w) (process (now_of w));;;
           rest <- get_timers;;
           match rest with [] => ret tt | e :: _ => timerfdSet e.1 end) Q w1) ->
  wp F handleRead Q w.
Proof.
  intros Hwf Hl HQ. unfold handleRead, timerfdRead, getExpired, upd_timers, time_now, os,
    loop_sys, assertInLoopThread. unfold get_timers at 1. wp_simpl. simpl. rewrite Hl. wp_simpl.
  simpl. fold (now_of w). pose proof (now_of_range w) as Hnow.
  apply wp_i64; [time_tac|]. wp_simpl. simpl. pose proof (lower_bound_app (now_of w + 1, 0) (tm w)) as Happ.
  assert (Forall (fun e => 0 < e.2) (tm w)) as Hpos.
  { apply Forall_forall. intros e He. by destruct (wf_entry _ _ _ Hwf e He). }
  pose proof (lower_bound_filter (now_of w) (tm w) (wf_sorted _ _ _ Hwf) Hpos) as Hdue.
  destruct (lower_bound _ _) as [b rest]. simpl in Happ, Hdue. fold (due w) in Hdue. subst b.
  wp_simpl. simpl. set (w1 := mkTW _ _ _ _ _).
  assert (WF B (map snd (due w) ++ L) w1) as Hwf1.
  { pose proof (WF_expire B L w (due w) rest Hwf (eq_sym Happ) (ptrs_nodup B L w Hwf)) as [].
    by constructor. }
  specialize (HQ w1 Hwf1 Hl eq_refl eq_refl Happ). unfold get_timers in *. by rewrite wp_bind in HQ.
Qed.

Lemma handleRead_wp B L w :
  WF B L w -> in_loop w -> map snd (due w) ++ L ⊆ B ->
  wp F handleRead
    (fun _ w' => WF B L w' /\ in_loop w' /\ Armed w' /\ fired w' = fired w ++ due w
       /\ forall e t, e ∈ due w -> heap w !! e.2 = Some t -> repeat_ t = true ->
          (e.1 + interval_ t, e.2) ∈ tm w') w.
Proof.
  intros Hwf Hl HB. apply (handleRead_batch_wp B L); [done..|].
  intros w1 Hwf1 Hl1 Hh1 Hf1 Happ. rewrite wp_bind.
  wp_call (batch_wp B L w (now_of w) (due w) [] w1); [|done|apply now_of_range| |].
  - constructor; try done; [|by rewrite app_nil_r|by intros e t ?%elem_of_nil].
    rewrite Hh1. intros e He. assert (e ∈ tm w) as Hin by (rewrite <- Happ; apply elem_of_app; by left).
    destruct (wf_entry _ _ _ Hwf e Hin) as (_ & t & ? & ?). by exists t.
  - intros e [? _]%list_elem_of_filter. done.
  - intros _ w2 []. unfold get_timers. wp_simpl. simpl in *.
    destruct (tm w2) as [|e rest2] eqn:E2.
    + wp_simpl. split_and!; try done; [unfold Armed; by rewrite E2|].
      intros e' t ? ? ?. rewrite E2. by apply (bi_requeued0 e' t).
    + assert (time_ok e.1 = true) as Hok.
      { eapply WF_time_ok; [exact bi_wf0|]. rewrite E2. by left. }
      apply timerfdSet_wp; [done|]. intros now ns k' H1 H2. split_and!; try done.
      * destruct bi_wf0. by constructor.
      * unfold Armed. simpl. rewrite E2. by eexists _, _.
      * simpl. intros e' t ? ? ?. rewrite E2. by apply (bi_requeued0 e' t).
Qed.
End calls.
End invariant.

(** ** Runs: calls on the loop's thread and timer events *)

Inductive event : Type :=
| EvCall (a : action)
| EvFire.

Section runs.
Context {K : Type} `{Posix K} `{Allocator}.

Definition run_event (e : event) : M (TW K) unit :=
  match e with
  | EvCall a => run_action a
  | EvFire => handleRead
  end.

(** The contract of the caller: the times of a call are bounded, and no callback
    cancels a timer of the batch it runs in, which handleRead goes on to use
    (self_cancel_use_after_free).  Timers may be cancelled that are gone. *)
Definition enabled (e : event) (w : TW K) : bool :=
  match e with
  | EvCall a => bounded a
  | EvFire =>
      forallb (fun pt => forallb (avoids (map snd (due w))) (callback_ pt.2))
        (map_to_list (heap w))
  end.

(** The queue as constructed, with nothing on the heap. *)
Definition fresh (w : TW K) : Prop :=
  timers_ (queue w) = [] /\ heap w = ∅ /\ isInLoopThread (tloop w) = true.

Inductive reach (w0 : TW K) : TW K -> Prop :=
| reach_fresh : fresh w0 -> reach w0 w0
| reach_event e w w' :
    reach w0 w -> enabled e w = true -> run_event e w = Ok (tt, w') -> reach w0 w'.

Fixpoint play (es : list event) (w : TW K) : option (TW K) :=
  match es with
  | [] => Some w
  | e :: es' =>
      if enabled e w then
        match run_event e w with
        | Ok (_, w') => play es' w'
        | Err _ => None
        end
      else None
  end.

Lemma tq_play_reach es w0 w w' : reach w0 w -> play es w = Some w' -> reach w0 w'.
Proof.
  revert w. induction es as [|e es IH]; simpl; intros w Hr; [by intros [= <-]|].
  destruct (enabled e w) eqn:E; [|done].
  destruct (run_event e w) as [[[] w1]|] eqn:Er; [|done].
  apply IH. by eapply reach_event.
Qed.
End runs.

Lemma avoids_nil a : avoids [] a = true.
Proof.
  revert a. fix IH 1. intros [p|cb when iv|cb iv|cb iv]; simpl; [done|..];
    (induction cb as [|a cb IHcb]; simpl; [done|by rewrite IH, IHcb]).
Qed.

Lemma avoids_nil_all l : forallb (avoids []) l = true.
Proof. induction l as [|a l IH]; simpl; [done|]. by rewrite avoids_nil, IH. Qed.

Section run_lemmas.
Context {K : Type} `{Posix K} `{!TimerfdLaws K} `{!ClockLaws K} `{Allocator}.
Implicit Types w : TW K.

Record TInv w : Prop := mkTInv {
  ti_wf : WF [] [] w;
  ti_thread : isInLoopThread (tloop w) = true;
  ti_armed : Armed w
}.

Lemma fresh_inv w : fresh w -> TInv w.
Proof.
  intros (Hq & Hh & Hl). constructor; [|done|by unfold Armed; rewrite Hq].
  constructor; rewrite ?Hq, ?Hh; try constructor; try done; try (by intros ? ?%elem_of_nil);
    try (intros ? ?; by rewrite lookup_empty); by apply elem_of_nil in H1.
Qed.

(** The invariant does not depend on the timers that callbacks avoid. *)
Lemma WF_avoid B w :
  (forall p t, heap w !! p = Some t -> forallb (avoids B) (callback_ t) = true) ->
  WF [] [] w -> WF B [] w.
Proof.
  intros HB []. constructor; try done. intros p t Ht.
  destruct (wf_heap0 p t Ht) as [(? & ? & _ & ?) ?]. split; [|done]. split_and!; try done. by eapply HB.
Qed.

Lemma WF_forget B w : WF B [] w -> WF [] [] w.
Proof.
  intros []. constructor; try done. intros p t Ht.
  destruct (wf_heap0 p t Ht) as [(? & ? & _ & ?) ?]. split; [|done]. split_and!; try done.
  apply avoids_nil_all.
Qed.

Lemma fire_enabled w :
  enabled EvFire w = true -> forall p t, heap w !! p = Some t ->
  forallb (avoids (map snd (due w))) (callback_ t) = true.
Proof.
  simpl. intros Hf p t Ht. rewrite forallb_forall in Hf.
  apply (Hf (p, t)), list_elem_of_In. by apply elem_of_map_to_list.
Qed.

(** How an event can fail: cancelTimer of a timer that is not in the set, called
    directly or by a callback that handleRead runs. *)
Definition event_fault (e : event) (w : TW K) (f : fault) : Prop :=
  match e with EvCall a => action_fault a w f | EvFire => cancel_fault f end.

Lemma tq_event_ok e w :
  TInv w -> enabled e w = true -> wp (event_fault e w) (run_event e) (fun _ => TInv) w.
Proof.
  intros [Hwf Hl Ha] He. destruct e as [a|]; cbn [run_event].
  - wp_call (run_action_wp (event_fault (EvCall a) w) [] [] a w);
      [done|done|done|by intros ?|apply avoids_nil|done|].
    intros _ w' (? & ? & ?). constructor; [done|by eapply step_loop|auto].
  - wp_call (handleRead_wp cancel_fault (fun f Hf => Hf) (map snd (due w)) [] w);
      [by apply WF_avoid; [apply fire_enabled|]|done|by rewrite app_nil_r|].
    intros _ w' (? & ? & ? & _). constructor; [by eapply WF_forget|done..].
Qed.

Lemma tq_reach_inv w0 w : reach w0 w -> TInv w.
Proof.
  induction 1 as [Hf|e w w' Hr IH He Hrun]; [by apply fresh_inv|].
  pose proof (tq_event_ok e w IH He) as Hw. unfold wp in Hw. by rewrite Hrun in Hw.
Qed.
End run_lemmas.

(** An allocator for executions: one more than the largest address in use. *)
Lemma foldr_max_ge (l : list Z) x : x ∈ l -> x <= foldr Z.max 0 l.
Proof. induction l as [|y l IH]; intros Hx; [by apply elem_of_nil in Hx|]. simpl. apply elem_of_cons in Hx as [->|Hx]; [lia|]. apply IH in Hx. lia. Qed.

#[export] Instance bump_allocator : Allocator.
Proof.
  refine {| alloc h := 1 + foldr Z.max 0 (map fst (map_to_list h)) |}.
  - intros h. destruct (h !! _) as [t|] eqn:E; [|done]. exfalso.
    apply elem_of_map_to_list in E. set (p := 1 + _) in *.
    assert (p <= foldr Z.max 0 (map fst (map_to_list h))); [|lia].
    apply foldr_max_ge. apply list_elem_of_fmap. by exists (p, t).
  - intros h. assert (0 <= foldr Z.max 0 (map fst (map_to_list h))); [|lia].
    induction (map fst (map_to_list h)); simpl; lia.
Defined.

Definition w_init (clock : Z) : TW SimK :=
  mkTW (mkTimerQueue 5 (Channel.new 6 5) [])
    (mkLoop (with_clock clock sim_init) 1 1 false false (mkEpoll 128 3) [] 4 []) ∅ [] None.

Lemma tq_w_init_fresh c : fresh (w_init c).
Proof. done. Qed.

(** ** Properties *)


(** Two timers, both due, one of them repeating and adding a third one. *)
Definition w_two : TW SimK :=
  default (w_init 0)
    (play [EvCall (AAdd [AAdd [] 9000000 0] 5000000 2000000); EvCall (AAdd [] 3000000 0)] (w_init 6000000)).

Lemma w_two_reach : reach (w_init 6000000) w_two.
Proof.
  apply (tq_play_reach [EvCall (AAdd [AAdd [] 9000000 0] 5000000 2000000); EvCall (AAdd [] 3000000 0)] _
           (w_init 6000000)); [apply reach_fresh, tq_w_init_fresh|vm_compute; reflexivity].
Qed.




(** The time that runAfter and runEvery read. *)
Definition clock {K} `{Posix K} (w : TW K) : Z := (sys_now (kernel (tloop w))).1.

(** A new timer is an entry of the set under its own time. *)
Lemma addTimer_entry {K} `{Posix K} `{!TimerfdLaws K} `{!ClockLaws K} `{Allocator} k' cb at_ iv (w : TW K) :
  TInv w -> timer_bounded (Timer.new_Timer cb at_ iv) ->
  wp no_fault (addTimer cb at_ iv)
    (fun p w' => timers_ (queue w') ≡ₚ (at_, p) :: timers_ (queue w)
       /\ heap w' = <[p := Timer.new_Timer cb at_ iv]> (heap w) /\ heap w !! p = None /\ Armed w')
    (mkTW (queue w) (set_kernel k' (tloop w)) (heap w) (fired w) (armed w)).
Proof.
  intros [Hwf Hl Ha] Hb. apply (addTimer_wp no_fault [] []); [by destruct Hwf|done|apply avoids_nil_all|done|].
  intros p w' Hp _ _ Hh Htm Harm. simpl in *. split_and!; [|done|done|by apply Harm].
  rewrite Htm. apply set_insert_perm. intros Hin.
  destruct (wf_entry _ _ _ Hwf _ Hin) as (_ & t & Ht & _). simpl in Ht. congruence.
Qed.

(** C29: runAfter with an interval of type Nanoseconds (not below -2^62) has two
    outcomes.  If the time it computes exists in int64_t, one entry is added to
    the set, for exactly the interval after the clock and with a timer that
    does not repeat, all others stay, and the timerfd is armed for it; if not,
    as for the largest interval, "never", the addition overflows, which is
    undefined. *)
Theorem runAfter_exact_or_overflows {K} `{Posix K} `{!TimerfdLaws K} `{!ClockLaws K} `{Allocator}
  (w0 w : TW K) cb interval :
  reach w0 w -> forallb bounded cb = true -> - 2 ^ 62 <= interval < 2 ^ 63 ->
  if decide (clock w + interval < 2 ^ 63) then
    wp no_fault (runAfter interval cb)
      (fun p w' => timers_ (queue w') ≡ₚ (clock w + interval, p) :: timers_ (queue w)
         /\ heap w' !! p = Some (Timer.new_Timer cb (clock w + interval) 0)
         /\ heap w !! p = None /\ Armed w') w
  else runAfter interval cb w = Err (IntegerOverflow "EventLoop::runAfter").
Proof.
  intros Hr Hcb Hiv. pose proof (tq_reach_inv w0 w Hr) as Hi.
  pose proof (now_range (kernel (tloop w))) as Hnow. fold (clock w) in Hnow.
  case_decide as Hfit.
  - unfold runAfter, runAt, time_now, os, loop_sys. wp_simpl. simpl. fold (clock w).
    apply wp_i64; [time_tac|]. wp_call addTimer_entry; [done|constructor; simpl; [time_tac|done..]|].
    intros p w' (? & Hh & ? & ?). by rewrite Hh, lookup_insert_eq.
  - apply wp_fails. unfold runAfter, time_now, os, loop_sys, i64. wp_simpl. simpl. fold (clock w).
    rewrite bool_decide_eq_false_2; [done|]. time_tac.
Qed.

(** Nanoseconds::max(). *)
Definition nanoseconds_max : Z := 2 ^ 63 - 1.

Lemma runAfter_exact_or_overflows_witness :
  wp no_fault (runAfter 4000000 [])
    (fun p w' => timers_ (queue w') ≡ₚ (10000000, p) :: timers_ (queue w_two)) w_two
  /\ runAfter nanoseconds_max [] w_two = Err (IntegerOverflow "EventLoop::runAfter").
Proof.
  split.
  - pose proof (runAfter_exact_or_overflows (w_init 6000000) w_two [] 4000000 w_two_reach eq_refl) as Hwp.
    eapply wp_mono; [apply Hwp; lia|]. intros p w' (Hp & _). exact Hp.
  - apply (runAfter_exact_or_overflows (w_init 6000000) w_two [] nanoseconds_max w_two_reach eq_refl).
    unfold nanoseconds_max. lia.
Defined.

(** The value given to timerfd_settime is normalised and never zero, which
    would disarm the timer: it is the time left, but at least a millisecond. *)
Theorem timer_never_disarmed when now :
  0 <= (timespec (duration when now)).1
  /\ 0 <= (timespec (duration when now)).2 < 1000000000
  /\ timespec (duration when now) <> (0, 0)
  /\ (timespec (duration when now)).1 * 1000000000 + (timespec (duration when now)).2
     = Z.max 1000000 (when - now).
Proof.
  destruct (duration_ok when now) as (H1 & H2 & H3 & H4 & H5).
  destruct (timespec (duration when now)) as [s n]. simpl in *. split_and!; try lia.
  - intros [= -> ->]. lia.
  - rewrite H5. unfold duration. case_bool; lia.
Qed.

(** A timer that cancels itself in its own callback is deleted there, and
    handleRead then reads the deleted object. *)
Lemma self_cancel_use_after_free {K} `{Posix K} `{!TimerfdLaws K} `{!ClockLaws K} `{Allocator} (w0 w : TW K) x l t :
  reach w0 w -> filter (fun e => e.1 <= now_of w) (timers_ (queue w)) = x :: l ->
  heap w !! x.2 = Some t -> callback_ t = [ACancel x.2] ->
  handleRead w = Err (UseAfterFree "TimerQueue::handleRead").
Proof.
  intros Hr Hdue Ht Hcb. destruct (tq_reach_inv w0 w Hr) as [Hwf Hl _].
  assert (wp (fun f => f = UseAfterFree "TimerQueue::handleRead") handleRead
            (fun _ _ => False) w) as Hwp; [|by apply wp_fails].
  apply (handleRead_batch_wp _ [] []); [done..|]. intros w1 Hwf1 Hl1 Hh1 _ _.
  fold (due w) in Hdue. rewrite Hdue in *. simpl in Hwf1. cbn [forM].
  destruct (wf_limbo _ _ _ Hwf1 x.2) as (Hpos & _ & Hn); [by left|].
  assert (heap w1 !! x.2 = Some t) as Ht1 by by rewrite Hh1.
  destruct (wf_heap _ _ _ Hwf1 x.2 t Ht1) as [(Hc & _) _].
  assert (x ∈ due w) as Hx by (rewrite Hdue; by left).
  apply list_elem_of_filter in Hx as [Hle Hx].
  destruct (wf_entry _ _ _ Hwf x Hx) as (_ & t' & Ht' & Hw). rewrite Ht in Ht'.
  injection Ht' as <-.
  unfold process, deref, Timer.expired, Timer.canceled. rewrite (proj2 (Z.eqb_neq x.2 0)) by lia.
  wp_simpl. rewrite Ht1. wp_simpl. rewrite (proj2 (Z.leb_le _ _)), Hc, Hcb by lia. simpl.
  wp_simpl. apply runInLoop_wp; [done|]. simpl. unfold cancelTimerInLoop, deref.
  rewrite (proj2 (Z.eqb_neq x.2 0)) by lia. wp_simpl. simpl. rewrite Ht1. wp_simpl.
  unfold Timer.cancel. rewrite Hc. simpl. unfold upd_heap, get_timers, delete_timer, upd_heap.
  wp_simpl. simpl.
  destruct (existsb (fun e => e.2 =? x.2) (timers_ (queue w1))) eqn:Ee.
  { exfalso. apply existsb_exists in Ee as ([y q] & Hy & Eq). apply Z.eqb_eq in Eq. simpl in Eq.
    subst q. apply Hn, ptr_in. exists y. by apply list_elem_of_In. }
  wp_simpl. simpl. rewrite lookup_delete_eq. by wp_simpl.
Qed.

Definition w_self : TW SimK :=
  default (w_init 0) (play [EvCall (AAdd [ACancel 1] 5000000 2000000)] (w_init 6000000)).

Lemma self_cancel_use_after_free_witness :
  handleRead w_self = Err (UseAfterFree "TimerQueue::handleRead").
Proof.
  apply (self_cancel_use_after_free (w_init 6000000) w_self (5000000, 1) []
           (Timer.new_Timer [ACancel 1] 5000000 2000000)); [|reflexivity|vm_compute; reflexivity|reflexivity].
  apply (tq_play_reach [EvCall (AAdd [ACancel 1] 5000000 2000000)] _ (w_init 6000000));
    [apply reach_fresh, tq_w_init_fresh|vm_compute; reflexivity].
Defined.
