(* ===== verification/EventLoopLife.v ===== *)
(** * EventLoopLife: construction and destruction of an event loop
    (src/EventLoop.cpp, src/Epoll.cpp, src/TimerQueue.cpp)

    An EventLoop owns a poller, an eventfd with its channel and a timer queue,
    and registers itself in the thread-local [t_Eventloop].  The state is what
    outlives it: the kernel, the thread that runs, and [t_Eventloop] of every
    thread.  The descriptors come from a class of their own, [LoopPosix]. *)

From S2P Require Import Prelude Posix Channel Epoll EventLoop TimerQueue.

Class LoopPosix (K : Type) : Type := {
  sys_epoll_create1 : K -> sysres Z * K;
  sys_eventfd : K -> sysres Z * K;
  sys_timerfd_create : K -> sysres Z * K
}.

#[export] Instance SimLoopPosix : LoopPosix SimK :=
  let fresh k := (SysOk (sk_nextfd k), with_nextfd (sk_nextfd k + 1) k) in
  {| sys_epoll_create1 := fresh; sys_eventfd := fresh; sys_timerfd_create := fresh |}.

(** What outlives the object. *)
Record Process (K : Type) : Type := mkProcess {
  p_kernel : K;
  p_tid : Z;                   (* the thread that runs *)
  t_Eventloop : gmap Z Z       (* by thread; a missing entry is nullptr *)
}.
Arguments mkProcess {K}.
Arguments p_kernel {K}.
Arguments p_tid {K}.
Arguments t_Eventloop {K}.

(** The object: its address, the channel of the eventfd, and the members of
    [Loop] with the timer queue. *)
Record LoopObject (K : Type) : Type := mkLoopObject {
  self : Z;
  wakeupChannel_ : Channel unit;
  members : TW K
}.
Arguments mkLoopObject {K}.
Arguments self {K}.
Arguments wakeupChannel_ {K}.
Arguments members {K}.

Module EventLoopLife.
Section life.
Context {K : Type} `{Posix K} `{LoopPosix K}.
Abbreviation MP := (M (Process K)).

Definition set_p_kernel (k : K) (p : Process K) : Process K :=
  mkProcess k (p_tid p) (t_Eventloop p).
Definition set_thread_loop (o : option Z) (p : Process K) : Process K :=
  mkProcess (p_kernel p) (p_tid p) (partial_alter (fun _ => o) (p_tid p) (t_Eventloop p)).

Definition psys {A} (f : K -> A * K) : MP A := zoom p_kernel set_p_kernel (sys f).

(** Code that runs on a part of the object, whose kernel is the process's. *)
Definition run_on {T A} (kernel_of : T -> K) (m : M T A) (t : T) : MP T :=
  fun p => match m t with
           | Ok (_, t') => Ok (t', set_p_kernel (kernel_of t') p)
           | Err f => Err f
           end.

(** Epoll::Epoll and Epoll::~Epoll *)
Definition new_Epoll : MP Epoll :=
  r <- psys sys_epoll_create1;;
  match r with
  | SysOk fd => ret (mkEpoll 128 fd)
  | SysErr _ => throw (ExitFailure "Epoll::epoll_create1")
  end.
Definition delete_Epoll (ep : Epoll) : MP unit :=
  when (negb (epollfd_ ep =? -1)) (_ <- psys (sys_close (epollfd_ ep));; ret tt).

(** The queue before its constructor has run. *)
Definition raw_queue : TimerQueue := mkTimerQueue (-1) (Channel.new 0 (-1)) [].

(** EventLoop::EventLoop, the members in their order of declaration.  [addr],
    [waddr] and [taddr] are the addresses of the object and of its two
    channels. *)
Definition construct (addr waddr taddr : Z) : MP (LoopObject K) :=
  tid <- gets p_tid;;
  ep <- new_Epoll;;
  e <- psys sys_eventfd;;
  let wakeupfd := match e with SysOk fd => fd | SysErr _ => -1 end in
  tfd <- psys sys_timerfd_create;;
  k <- gets p_kernel;;
  tw <- run_on (fun w => kernel (tloop w)) (TimerQueue.construct taddr tfd)
          (mkTW raw_queue (mkLoop k tid tid false false ep [] wakeupfd []) ∅ [] None);;
  ensure (ExitFailure "EventLoop::eventfd") (negb (wakeupfd =? -1));;;
  cl <- run_on (fun s => kernel s.2) ChannelOps.enableRead
          (Channel.setReadCallback (Some tt) (Channel.new waddr wakeupfd), tloop tw);;
  t <- gets (fun p => t_Eventloop p !! tid);;
  assert_ "EventLoop::EventLoop" (bool_decide (t = None));;;
  modify (set_thread_loop (Some addr));;;
  ret (mkLoopObject addr cl.1 (mkTW (queue tw) cl.2 (heap tw) (fired tw) (armed tw))).

(** The members as the running thread finds them. *)
Definition here (p : Process K) (o : LoopObject K) : Loop K TimerTask :=
  set_current (p_tid p) (set_kernel (p_kernel p) (tloop (members o))).

(** ~Channel *)
Definition delete_channel (c : Channel unit) : MP unit :=
  match Channel.destroy c with Ok _ => ret tt | Err f => throw f end.

(** EventLoop::~EventLoop: the body, then the members. *)
Definition destroy (o : LoopObject K) : MP unit :=
  l <- gets (fun p => here p o);;
  cl <- (if isInLoopThread l
         then run_on (fun s => kernel s.2) ChannelOps.disableAll (wakeupChannel_ o, l)
         else if pooling (wakeupChannel_ o)
         then run_on (fun s => kernel s.2) Epoll.removeChannel (wakeupChannel_ o, l)
         else ret (wakeupChannel_ o, l));;
  delete_channel cl.1;;;
  when (negb (wakeupfd_ l =? -1)) (_ <- psys (sys_close (wakeupfd_ l));; ret tt);;;
  when (isInLoopThread l)
    (p <- gets (fun p => p);;
     assert_ "EventLoop::~EventLoop" (bool_decide (t_Eventloop p !! p_tid p = Some (self o)));;;
     modify (set_thread_loop None));;;
  k <- gets p_kernel;;
  tw <- run_on (fun w => kernel (tloop w)) TimerQueue.destroy
          (mkTW (queue (members o)) (set_kernel k cl.2) (heap (members o)) (fired (members o))
             (armed (members o)));;
  delete_channel (timerChannel_ (queue tw));;;
  delete_Epoll (poller_ l).
End life.

(** ** Properties *)
Section properties.
Context {K : Type} `{Posix K} `{LoopPosix K}.

(** The operating system refuses a descriptor or a registration. *)
Definition refused (f : fault) : Prop :=
  f = ExitFailure "Epoll::epoll_create1" \/ f = Aborted "timerfd_create"
  \/ f = ExitFailure "EventLoop::eventfd" \/ f = ExitFailure "Epoll::epoll_ctl".

Lemma wp_psys {A} F (f : K -> A * K) (Q : A -> Process K -> Prop) p :
  wp F (psys f) Q p = Q (f (p_kernel p)).1 (set_p_kernel (f (p_kernel p)).2 p).
Proof. unfold psys. by rewrite wp_zoom, wp_sys. Qed.
#[local] Hint Rewrite @wp_psys : wp.

Lemma run_on_wp {T A} F (kernel_of : T -> K) (m : M T A) t Q (p : Process K) :
  wp F m (fun _ t' => Q t' (set_p_kernel (kernel_of t') p)) t -> wp F (run_on kernel_of m t) Q p.
Proof. unfold wp, run_on. by destruct (m t) as [[a t']|f]. Qed.

(** A channel that was made and enabled for reading. *)
Definition watching (addr fd : Z) : Channel unit :=
  Channel.set_pooling true (Channel.set_events 3 (Channel.setReadCallback (Some tt) (Channel.new addr fd))).

Lemma enableRead_new_wp {T} (F : fault -> Prop) addr fd (l : Loop K T) Q :
  F (ExitFailure "Epoll::epoll_ctl") -> isInLoopThread l = true ->
  (forall k, Q tt (watching addr fd, set_kernel k l)) ->
  wp F ChannelOps.enableRead Q (Channel.setReadCallback (Some tt) (Channel.new addr fd), l).
Proof.
  intros HF Hl HQ. apply ChannelSpecs.change_mask_wp; [done|done|done|]. intros r k' _ _. apply HQ.
Qed.

(** The constructor up to its last assert: the object is complete. *)
Lemma construct_wp F addr waddr taddr (Q : LoopObject K -> Process K -> Prop) p :
  (forall f, refused f -> F f) ->
  (t_Eventloop p !! p_tid p <> None -> F (AssertFailed "EventLoop::EventLoop")) ->
  (forall k epfd wfd tfd, wfd <> -1 -> t_Eventloop p !! p_tid p = None ->
     Q (mkLoopObject addr (watching waddr wfd)
          (mkTW (mkTimerQueue tfd (watching taddr tfd) [])
             (mkLoop k (p_tid p) (p_tid p) false false (mkEpoll 128 epfd) [] wfd []) ∅ [] None))
       (mkProcess k (p_tid p) (<[p_tid p := addr]> (t_Eventloop p)))) ->
  wp F (construct addr waddr taddr) Q p.
Proof.
  intros HF Ha HQ. assert (F (ExitFailure "Epoll::epoll_ctl")) as Hctl by (apply HF; right; auto).
  unfold construct, new_Epoll. wp_simpl.
  destruct (sys_epoll_create1 (p_kernel p)) as [[epfd|e] k1]; simpl; wp_simpl; [|by apply HF; left].
  cbn [p_kernel set_p_kernel]. set (wfd := match (sys_eventfd k1).1 with SysOk fd => fd | _ => -1 end). apply run_on_wp. unfold TimerQueue.construct.
  destruct (sys_timerfd_create (sys_eventfd k1).2) as [[tfd|e] k2]; simpl; wp_simpl;
    [|apply HF; right; by left].
  apply Epoll.assertInLoopThread_wp; [apply Z.eqb_refl|]. wp_simpl. simpl.
  apply enableRead_new_wp; [done|apply Z.eqb_refl|]. intros k3. wp_simpl. simpl.
  destruct (wfd =? -1) eqn:Ew; simpl; [apply HF; right; right; by left|]. bool_solve.
  apply run_on_wp. apply enableRead_new_wp; [done|apply Z.eqb_refl|]. intros k4. wp_simpl. simpl.
  case_bool_decide as Ht; [by apply HQ|by apply Ha].
Qed.

(** The destructors of the members of an object without timers. *)
Lemma members_destroy_wp F ep tfd taddr (l : Loop K TimerTask) (Q : unit -> Process K -> Prop) p :
  (forall k, Q tt (set_p_kernel k p)) ->
  wp F (tw <- run_on (fun w => kernel (tloop w)) TimerQueue.destroy
          (mkTW (mkTimerQueue tfd (watching taddr tfd) []) l ∅ [] None);;
        delete_channel (timerChannel_ (queue tw));;; delete_Epoll ep) Q p.
Proof.
  intros HQ. wp_simpl. apply run_on_wp. unfold TimerQueue.destroy, TimerQueue.get_timers. wp_simpl.
  assert (forall k, wp F (delete_channel (watching taddr tfd);;; delete_Epoll ep) Q
    (set_p_kernel k p)) as Hrest.
  { intros k. unfold delete_channel, delete_Epoll. simpl. wp_simpl.
    destruct (negb (epollfd_ ep =? -1)); wp_simpl; [apply (HQ (sys_close _ k).2)|apply HQ]. }
  simpl. wp_simpl. simpl. rewrite <- !wp_bind. destruct (negb (tfd =? -1)); wp_simpl; [|rewrite <- wp_bind; apply Hrest].
  unfold TimerQueue.os, loop_sys. wp_simpl. simpl. rewrite <- wp_bind. apply Hrest.
Qed.

(** Destroying, in its own thread, an object as the constructor left it. *)
Lemma destroy_fresh_wp F addr k tid epfd wfd tfd waddr taddr (Q : unit -> Process K -> Prop) p :
  F (ExitFailure "Epoll::epoll_ctl") -> p_tid p = tid -> t_Eventloop p !! tid = Some addr ->
  (forall k', Q tt (mkProcess k' tid (delete tid (t_Eventloop p)))) ->
  wp F (destroy (mkLoopObject addr (watching waddr wfd)
          (mkTW (mkTimerQueue tfd (watching taddr tfd) [])
             (mkLoop k tid tid false false (mkEpoll 128 epfd) [] wfd []) ∅ [] None))) Q p.
Proof.
  intros HF <- Ht HQ. unfold destroy. rewrite wp_bind, wp_gets. unfold here. simpl.
  unfold isInLoopThread. simpl. rewrite Z.eqb_refl, wp_bind. apply run_on_wp.
  apply ChannelSpecs.change_mask_wp; [apply Z.eqb_refl|done|done|]. intros r k1 _ _. simpl.
  unfold delete_channel at 1. simpl. rewrite wp_bind, wp_ret, wp_bind.
  assert (forall k2 l, wp F
    (when true (p <- gets (fun p => p);;
       assert_ "EventLoop::~EventLoop" (bool_decide (t_Eventloop p !! p_tid p = Some addr));;;
       modify (set_thread_loop None));;;
     k <- gets p_kernel;;
     tw <- run_on (fun w => kernel (tloop w)) TimerQueue.destroy
            (mkTW (mkTimerQueue tfd (watching taddr tfd) []) (set_kernel k l) ∅ [] None);;
     delete_channel (timerChannel_ (queue tw));;; delete_Epoll (mkEpoll 128 epfd)) Q (set_p_kernel k2 p))
    as Hrest.
  { intros k2 l. simpl. rewrite !wp_bind, wp_gets, wp_bind, wp_assert. simpl.
    rewrite bool_decide_eq_true_2 by done. rewrite wp_modify, wp_bind, wp_gets.
    apply members_destroy_wp. intros k3. apply HQ. }
  destruct (negb (wfd =? -1)); simpl; [|rewrite wp_ret; apply Hrest].
  rewrite wp_bind, wp_psys, wp_ret. simpl. apply Hrest.
Qed.

(** C37: in a thread that has no event loop the constructor returns, unless the
    operating system refuses a descriptor or a registration: the object is the
    thread's loop, its two channels are registered for reading, and destroying
    it in the same thread returns, without failing an assert, with the thread
    as it was, so that another loop can be made. *)
Theorem loop_create_destroy addr waddr taddr (p : Process K) :
  t_Eventloop p !! p_tid p = None ->
  wp refused (construct addr waddr taddr) (fun o p1 =>
    t_Eventloop p1 = <[p_tid p := addr]> (t_Eventloop p) /\ self o = addr
    /\ pooling (wakeupChannel_ o) = true
    /\ events_ (wakeupChannel_ o) = Z.lor EPOLLIN EPOLLPRI
    /\ pooling (timerChannel_ (queue (members o))) = true
    /\ isInLoopThread (tloop (members o)) = true /\ quit_ (tloop (members o)) = false
    /\ wp refused (destroy o) (fun _ p2 => t_Eventloop p2 = t_Eventloop p /\ p_tid p2 = p_tid p) p1) p.
Proof.
  intros Ht. apply construct_wp; [done|done|]. intros k epfd wfd tfd Hw _. simpl.
  split_and!; try done; [apply Z.eqb_refl|].
  apply destroy_fresh_wp; [right; auto|done|apply lookup_insert_eq|]. intros k'. simpl.
  split; [|done]. by rewrite delete_insert_id.
Qed.

(** A second event loop in one thread fails the assert of the constructor;
    an event loop that is destroyed by another thread fails the assert in
    Epoll::removeChannel, which the destructor calls for that very case. *)
Lemma one_thread_per_loop addr waddr taddr (p : Process K) :
  (t_Eventloop p !! p_tid p <> None ->
   wp (fun f => refused f \/ f = AssertFailed "EventLoop::EventLoop")
     (construct addr waddr taddr) (fun _ _ => False) p)
  /\ (t_Eventloop p !! p_tid p = None ->
   wp refused (construct addr waddr taddr) (fun o p1 => forall tid, tid <> p_tid p ->
     destroy o (mkProcess (p_kernel p1) tid (t_Eventloop p1))
     = Err (AssertFailed "EventLoop::assertInLoopThread")) p).
Proof.
  split; intros Ht.
  - apply construct_wp; [by left|by right|]. intros k epfd wfd tfd _ Ht'. congruence.
  - apply construct_wp; [done|done|]. intros k epfd wfd tfd _ _ tid Hne.
    apply (wp_fails _ (destroy _)). unfold destroy. rewrite wp_bind, wp_gets. unfold here. simpl.
    unfold isInLoopThread. simpl. rewrite (proj2 (Z.eqb_neq _ _)) by done.
    rewrite wp_bind. apply run_on_wp. unfold Epoll.removeChannel, Epoll.lp, assertInLoopThread.
    wp_simpl. unfold isInLoopThread. simpl. by rewrite (proj2 (Z.eqb_neq _ _)).
Qed.
End properties.

(** A process whose thread 2 has a loop. *)
Definition process0 : Process SimK := mkProcess sim_init 1 {[2 := 9]}.

Lemma loop_create_destroy_witness :
  exists o p1, construct 7 8 9 process0 = Ok (o, p1) /\ t_Eventloop p1 !! 1 = Some 7
    /\ exists p2, destroy o p1 = Ok (tt, p2) /\ t_Eventloop p2 !! 1 = None.
Proof.
  assert (t_Eventloop process0 !! p_tid process0 = None) as H0 by (vm_compute; reflexivity).
  pose proof (loop_create_destroy 7 8 9 process0 H0) as Hwp. unfold wp in Hwp.
  destruct (construct 7 8 9 process0) as [[o p1]|f] eqn:E.
  - exists o, p1. split; [reflexivity|]. destruct Hwp as (Ht & _ & _ & _ & _ & _ & _ & Hd).
    split; [rewrite Ht; vm_compute; reflexivity|].
    destruct (destroy o p1) as [[[] p2]|f] eqn:E2.
    + exists p2. split; [reflexivity|]. destruct Hd as [-> _]. vm_compute. reflexivity.
    + exfalso. vm_compute in E. injection E as <- <-. vm_compute in E2. discriminate E2.
  - exfalso. vm_compute in E. discriminate E.
Defined.

Lemma one_thread_per_loop_witness :
  (exists f, construct 7 8 9 (mkProcess sim_init 2 {[2 := 9]}) = Err f
     /\ (refused f \/ f = AssertFailed "EventLoop::EventLoop"))
  /\ exists o p1, construct 7 8 9 process0 = Ok (o, p1)
     /\ destroy o (mkProcess (p_kernel p1) 2 (t_Eventloop p1))
        = Err (AssertFailed "EventLoop::assertInLoopThread").
Proof.
  split.
  - destruct (one_thread_per_loop 7 8 9 (mkProcess sim_init 2 {[2 := 9]})) as [Hwp _].
    unfold wp in Hwp. destruct (construct 7 8 9 (mkProcess sim_init 2 {[2 := 9]})) as [[o p1]|f] eqn:E.
    + exfalso. apply Hwp. vm_compute. discriminate.
    + exists f. split; [reflexivity|]. apply Hwp. vm_compute. discriminate.
  - destruct (one_thread_per_loop 7 8 9 process0) as [_ Hwp].
    assert (t_Eventloop process0 !! p_tid process0 = None) as H0 by (vm_compute; reflexivity).
    specialize (Hwp H0). unfold wp in Hwp. destruct (construct 7 8 9 process0) as [[o p1]|f] eqn:E.
    + exists o, p1. split; [reflexivity|]. apply Hwp. discriminate.
    + exfalso. vm_compute in E. discriminate E.
Defined.
End EventLoopLife.
