(* ===== verification/LoopProtocol.v ===== *)
(** * LoopProtocol: the task queue under concurrency
    (src/EventLoop.cpp: loop, quit, queueInLoop, wakeup, handleRead,
    doPendingTasks)

    One thread runs the loop; any number of other threads call queueInLoop and
    quit.  A step of [step] is one access to shared state: taking a task out of
    or putting one into the queue (under the mutex), the eventfd counter, quit_
    and doingPendingTasks_.  Between pushing and waking a thread can be
    overtaken by every other thread.  The bodies of tasks and the callbacks of
    channels are lists of actions, [body] and [handler]. *)

From stdpp Require Import relations.
From S2P Require Import Prelude.

Section protocol.
Context {T E : Type}.

(** What code that runs in the loop does to the loop. *)
Inductive act : Type :=
| APush (t : T)        (* queueInLoop *)
| AQuit.               (* quit *)

Context (body : T -> list act) (handler : E -> list act).

(** What epoll_wait returned: the wakeup channel or another one. *)
Inductive ev : Type := Wake | Ext (e : E).

(** Where the loop's thread is.  [owe]: it has pushed and will call wakeup. *)
Inductive lpc : Type :=
| LStart (owe : bool)                               (* before loop() *)
| LTest                                             (* while (!quit_) *)
| LPoll                                             (* in epoll_wait *)
| LDispatch (evs : list ev) (acts : list act) (owe : bool)
| LSwap                                             (* doPendingTasks *)
| LSet (tasks : list T)
| LRun (tasks : list T) (acts : list act) (owe : bool)
| LExited.

Record state : Type := mkState {
  pending : list T;
  counter : Z;              (* of the eventfd *)
  quit : bool;
  doing : bool;
  pc : lpc;
  owing : list Z;           (* other threads that will call wakeup *)
  pushed : list T;          (* every task pushed so far, in order *)
  executed : list T;        (* every task started so far, in order *)
  early : bool              (* in the queue: a task of the loop's thread from before loop() *)
}.

Definition init : state := mkState [] 0 false false (LStart false) [] [] [] false.

(** The value of an eventfd stays below 2^64 - 1; a nonblocking write that
    would exceed it fails with EAGAIN. *)
Definition bump (c : Z) : Z := if c =? 2 ^ 64 - 2 then c else c + 1.

Definition push (t : T) (s : state) (pc' : lpc) (owing' : list Z) (early' : bool) : state :=
  mkState (pending s ++ [t]) (counter s) (quit s) (doing s) pc' owing' (pushed s ++ [t])
    (executed s) early'.
Definition wake (s : state) (pc' : lpc) (owing' : list Z) : state :=
  mkState (pending s) (bump (counter s)) (quit s) (doing s) pc' owing' (pushed s) (executed s)
    (early s).
Definition goto (s : state) (pc' : lpc) : state :=
  mkState (pending s) (counter s) (quit s) (doing s) pc' (owing s) (pushed s) (executed s) (early s).
Definition set_quit (b : bool) (s : state) (pc' : lpc) (owing' : list Z) : state :=
  mkState (pending s) (counter s) b (doing s) pc' owing' (pushed s) (executed s) (early s).

(** Steps of the loop's thread. *)
Inductive loop_step : state -> state -> Prop :=
| step_early_push s t :
    pc s = LStart false -> loop_step s (push t s (LStart (doing s)) (owing s) true)
| step_enter s :                                    (* quit_ = false *)
    pc s = LStart false -> loop_step s (set_quit false s LTest (owing s))
| step_test_exit s : pc s = LTest -> quit s = true -> loop_step s (goto s LExited)
| step_test_poll s : pc s = LTest -> quit s = false -> loop_step s (goto s LPoll)
| step_poll s evs :   (* epoll_wait returns: ready descriptors, or none after a signal *)
    pc s = LPoll -> (Wake ∈ evs -> 0 < counter s) ->
    loop_step s (goto s (LDispatch evs [] false))
| step_dispatch_wake s evs :                        (* handleRead *)
    pc s = LDispatch (Wake :: evs) [] false ->
    loop_step s (mkState (pending s) 0 (quit s) (doing s) (LDispatch evs [] false) (owing s)
                   (pushed s) (executed s) (early s))
| step_dispatch_ext s e evs :
    pc s = LDispatch (Ext e :: evs) [] false ->
    loop_step s (goto s (LDispatch evs (handler e) false))
| step_dispatch_push s evs t acts :
    pc s = LDispatch evs (APush t :: acts) false ->
    loop_step s (push t s (LDispatch evs acts (doing s)) (owing s) (early s))
| step_dispatch_quit s evs acts :
    pc s = LDispatch evs (AQuit :: acts) false ->
    loop_step s (set_quit true s (LDispatch evs acts false) (owing s))
| step_dispatch_owe s evs acts :
    pc s = LDispatch evs acts true ->
    loop_step s (wake s (LDispatch evs acts false) (owing s))
| step_dispatch_end s :
    pc s = LDispatch [] [] false -> loop_step s (goto s LSwap)
| step_swap s :                                     (* tasks.swap(pendingTasks_) *)
    pc s = LSwap ->
    loop_step s (mkState [] (counter s) (quit s) (doing s) (LSet (pending s)) (owing s)
                   (pushed s) (executed s) false)
| step_set s tasks :                                (* doingPendingTasks_ = true *)
    pc s = LSet tasks ->
    loop_step s (mkState (pending s) (counter s) (quit s) true (LRun tasks [] false) (owing s)
                   (pushed s) (executed s) (early s))
| step_run s t tasks :
    pc s = LRun (t :: tasks) [] false ->
    loop_step s (mkState (pending s) (counter s) (quit s) (doing s) (LRun tasks (body t) false)
                   (owing s) (pushed s) (executed s ++ [t]) (early s))
| step_run_push s tasks t acts :
    pc s = LRun tasks (APush t :: acts) false ->
    loop_step s (push t s (LRun tasks acts (doing s)) (owing s) (early s))
| step_run_quit s tasks acts :
    pc s = LRun tasks (AQuit :: acts) false ->
    loop_step s (set_quit true s (LRun tasks acts false) (owing s))
| step_run_owe s tasks acts :
    pc s = LRun tasks acts true -> loop_step s (wake s (LRun tasks acts false) (owing s))
| step_run_end s :                                  (* doingPendingTasks_ = false *)
    pc s = LRun [] [] false ->
    loop_step s (mkState (pending s) (counter s) (quit s) false LTest (owing s)
                   (pushed s) (executed s) (early s)).

(** Calls of queueInLoop and quit on other threads: two steps each. *)
Inductive other_push (i : Z) : state -> state -> Prop :=
| step_other_push s t :
    i ∉ owing s -> other_push i s (push t s (pc s) (i :: owing s) (early s))
| step_other_quit s :
    i ∉ owing s -> other_push i s (set_quit true s (pc s) (i :: owing s)).

Inductive other_wake (i : Z) : state -> state -> Prop :=
| step_other_wake s l1 l2 :
    owing s = l1 ++ i :: l2 -> other_wake i s (wake s (pc s) (l1 ++ l2)).

Inductive step : state -> state -> Prop :=
| by_loop s s' : loop_step s s' -> step s s'
| by_other i s s' : other_push i s s' -> step s s'
| by_waker i s s' : other_wake i s s' -> step s s'.

Definition reachable (s : state) : Prop := rtc step init s.

(** ** The invariant *)

(** The tasks taken out of the queue and not yet started. *)
Definition taken (p : lpc) : list T :=
  match p with
  | LSet tasks | LRun tasks _ _ => tasks
  | _ => []
  end.

Definition owes (p : lpc) : bool :=
  match p with
  | LStart b | LDispatch _ _ b | LRun _ _ b => b
  | _ => false
  end.

(** The points from which the loop can come to block before it next swaps. *)
Definition past_swap (p : lpc) : bool :=
  match p with
  | LTest | LPoll | LSet _ | LRun _ _ _ => true
  | _ => false
  end.

Definition woken (s : state) : Prop := 0 < counter s \/ owing s <> [] \/ owes (pc s) = true.

Record Inv (s : state) : Prop := mkInv {
  inv_fifo : pushed s = executed s ++ taken (pc s) ++ pending s;
  inv_counter : 0 <= counter s;
  inv_doing : doing s = match pc s with LRun _ _ _ => true | _ => false end;
  inv_owe : owes (pc s) = true -> doing s = true;
  inv_start : forall b, pc s = LStart b -> early s = false -> pending s <> [] -> woken s;
  inv_work : early s = false -> past_swap (pc s) = true -> pending s <> [] -> woken s;
  inv_quit : pc s = LPoll -> quit s = true -> woken s
}.

Lemma bump_pos c : 0 <= c -> 0 < bump c.
Proof. unfold bump. intros. case_bool; lia. Qed.

Lemma init_inv : Inv init.
Proof. by constructor. Qed.

Lemma loop_step_inv s s' : loop_step s s' -> Inv s -> Inv s'.
Proof.
  intros Hstep [Hf Hc Hd Ho Hs Hw Hq].
  pose proof (bump_pos (counter s) Hc) as Hb. unfold woken in *.
  destruct Hstep; match goal with H : pc _ = _ |- _ => rewrite H in * end; simpl in *;
    constructor; simpl; try done; try lia; try congruence;
    try (rewrite Hf, <- ?app_assoc; done); auto.
  all: try (by rewrite app_nil_r).
  all: unfold woken; simpl; intros He Hp Hn; try tauto.
  specialize (Hs _ eq_refl He Hn). tauto.
Qed.

Lemma step_inv s s' : step s s' -> Inv s -> Inv s'.
Proof.
  intros [? ? Hl|i ? ? Ho|i ? ? Hw] Hi; [by eapply loop_step_inv| |].
  - destruct Ho, Hi; constructor; simpl; unfold woken; simpl; try done; auto.
    by rewrite inv_fifo0, <- !app_assoc.
  - destruct Hw as [s0 l1 l2 Hl], Hi.
    pose proof (bump_pos (counter s0) inv_counter0) as Hb.
    constructor; simpl; unfold woken; simpl; try done; auto; lia.
Qed.

Lemma reachable_inv s : reachable s -> Inv s.
Proof.
  intros Hr. assert (forall s1 s2, rtc step s1 s2 -> Inv s1 -> Inv s2) as Hi.
  { induction 1 as [|s1 s2 s3 Hst _ IH]; [done|]. intros ?. by eapply IH, step_inv. }
  apply (Hi init); [done|apply init_inv].
Qed.

(** ** Progress *)

(** The steps that the loop's thread takes when nothing happens outside: no
    other descriptor becomes ready and no signal arrives.  epoll_wait blocks
    then, until the eventfd can be read; and the thread has no more tasks of its
    own to queue before loop(). *)
Definition quiet_step (s s' : state) : Prop :=
  loop_step s s'
  /\ (pc s = LPoll -> 0 < counter s /\ pc s' = LDispatch [Wake] [] false)
  /\ (pc s = LStart false -> pc s' = LTest).

(** Steps that help: quiet ones of the loop, or of a thread that owes a wakeup. *)
Definition help (s s' : state) : Prop := quiet_step s s' \/ exists i, other_wake i s s'.

(** The loop is blocked while the eventfd is not readable. *)
Lemma quiet_blocks s s' : pc s = LPoll -> counter s = 0 -> ~ quiet_step s s'.
Proof. intros Hpc Hc (_ & Hq & _). destruct (Hq Hpc). lia. Qed.

(** What such steps keep. *)
Record kept (s s' : state) : Prop := mkKept {
  kp_inv : Inv s';
  kp_quit : quit s' = quit s;
  kp_early : early s = false -> early s' = false;
  kp_pushed : pushed s `prefix_of` pushed s'
}.

Definition runs_to (P : state -> Prop) (s : state) : Prop :=
  exists s', rtc help s s' /\ kept s s' /\ P s'.

Lemma runs_to_here P s : Inv s -> P s -> runs_to P s.
Proof. intros Hi HP. exists s. split; [done|]. by split. Qed.

Lemma runs_to_trans P Q s : runs_to P s -> (forall s', kept s s' -> P s' -> runs_to Q s') -> runs_to Q s.
Proof.
  intros (s1 & Hr1 & Hk1 & HP) HQ. destruct (HQ s1 Hk1 HP) as (s2 & Hr2 & Hk2 & HQ2).
  exists s2. split; [by etrans|]. split; [|done]. destruct Hk1, Hk2.
  constructor; [done|congruence|auto|by etrans].
Qed.

(** Where the loop's thread waits for something outside. *)
Definition waits (p : lpc) : bool := match p with LStart _ | LPoll => true | _ => false end.

Lemma runs_to_step P s s' :
  loop_step s s' -> waits (pc s) = false -> Inv s -> quit s' = quit s -> (early s = false -> early s' = false) ->
  pushed s `prefix_of` pushed s' -> (Inv s' -> runs_to P s') -> runs_to P s.
Proof.
  intros Hl Hw Hi Hq He Hp HP. pose proof (loop_step_inv s s' Hl Hi) as Hi'.
  destruct (HP Hi') as (s2 & Hr & [] & HP2). exists s2.
  split; [eapply rtc_l; [left|done]|].
  - split_and!; [done|..]; intros Hpc; by rewrite Hpc in Hw.
  - split; [|done]. constructor; [done|congruence|auto|by etrans].
Qed.

Ltac quiet_run H :=
  eapply runs_to_step;
  [by eapply H
  |match goal with
   | E : pc ?s = _ |- waits (pc ?s) = false => by rewrite E
   | _ => reflexivity
   end|..].

(** No task and no callback calls quit. *)
Definition pushes (l : list act) : Prop := AQuit ∉ l.
Context (body_pushes : forall t, pushes (body t)) (handler_pushes : forall e, pushes (handler e)).

Definition pc_pushes (p : lpc) : Prop :=
  match p with
  | LDispatch _ acts _ | LRun _ acts _ => pushes acts
  | _ => True
  end.

Lemma loop_step_pushes s s' : loop_step s s' -> pc_pushes (pc s) -> pc_pushes (pc s').
Proof.
  unfold pc_pushes, pushes.
  destruct 1; match goal with H : pc _ = _ |- _ => rewrite H end; simpl; try done;
    rewrite ?elem_of_cons; try tauto; intros _;
    first [apply body_pushes|apply handler_pushes|apply not_elem_of_nil].
Qed.

Lemma step_pushes s s' : step s s' -> pc_pushes (pc s) -> pc_pushes (pc s').
Proof.
  intros [? ? Hl|i ? ? Ho|i ? ? Hw]; [by apply loop_step_pushes| |].
  - by destruct Ho.
  - by destruct Hw.
Qed.

Lemma reachable_pushes s : reachable s -> pc_pushes (pc s).
Proof.
  intros Hr. assert (forall s1 s2, rtc step s1 s2 -> pc_pushes (pc s1) -> pc_pushes (pc s2)) as Hi.
  { induction 1 as [|s1 s2 s3 Hst _ IH]; [done|]. intros ?. by eapply IH, step_pushes. }
  by apply (Hi init).
Qed.

(** The actions of a callback, and all the callbacks of a dispatch. *)
Lemma run_dispatch_acts s evs acts owe :
  Inv s -> pushes acts -> pc s = LDispatch evs acts owe ->
  runs_to (fun s' => pc s' = LDispatch evs [] false) s.
Proof.
  intros Hi Ha. revert s owe Hi.
  induction acts as [|a acts IH]; intros s owe Hi Hpc.
  - assert (owe = false) as ->; [|by apply runs_to_here].
    destruct Hi. rewrite Hpc in *. simpl in *. destruct owe; [|done].
    rewrite inv_doing0 in inv_owe0. by specialize (inv_owe0 eq_refl).
  - assert (owe = false) as ->.
    { destruct Hi. rewrite Hpc in *. simpl in *. destruct owe; [|done].
      rewrite inv_doing0 in inv_owe0. by specialize (inv_owe0 eq_refl). }
    destruct a as [t|]; [|exfalso; apply Ha; by left].
    quiet_run step_dispatch_push; [done|done|done|by apply prefix_app_r|].
    intros Hi'. eapply IH; [|done|done]. intros Hin. apply Ha. by right.
Qed.

Lemma run_dispatch s evs acts owe :
  Inv s -> pushes acts -> pc s = LDispatch evs acts owe ->
  runs_to (fun s' => pc s' = LSwap) s.
Proof.
  revert s acts owe. induction evs as [|e evs IH]; intros s acts owe Hi Ha Hpc.
  - eapply runs_to_trans; [by eapply run_dispatch_acts|]. intros s1 [Hi1 _ _ _] Hpc1.
    quiet_run step_dispatch_end; [done..|]. intros. by apply runs_to_here.
  - eapply runs_to_trans; [by eapply run_dispatch_acts|]. intros s1 [Hi1 _ _ _] Hpc1.
    destruct e as [|e].
    + quiet_run step_dispatch_wake; [done..|]. intros Hi2.
      eapply (IH _ [] false); [done|apply not_elem_of_nil|done].
    + quiet_run step_dispatch_ext; [done..|]. intros Hi2.
      eapply (IH _ (handler e) false); [done|apply handler_pushes|done].
Qed.

(** The batch that doPendingTasks took out runs to its end. *)
Lemma run_task_acts s tasks acts owe :
  Inv s -> pushes acts -> pc s = LRun tasks acts owe ->
  runs_to (fun s' => pc s' = LRun tasks [] false /\ executed s' = executed s) s.
Proof.
  intros Hi Ha. revert s owe Hi.
  assert (forall s acts, Inv s -> pc s = LRun tasks acts true -> forall P : state -> Prop,
    (forall s', Inv s' -> pc s' = LRun tasks acts false -> executed s' = executed s ->
       runs_to P s') -> runs_to P s) as Howe.
  { intros s l Hi Hpc P HP. quiet_run step_run_owe; [done..|].
    intros Hi'. by apply HP. }
  induction acts as [|a acts IH]; intros s owe Hi Hpc.
  - destruct owe; [|by apply runs_to_here]. eapply Howe; [done|done|].
    intros s' Hi' Hpc' He. by apply runs_to_here.
  - assert (pushes acts) as Ha' by (intros Hin; apply Ha; by right).
    assert (forall s, Inv s -> pc s = LRun tasks (a :: acts) false ->
      runs_to (fun s' => pc s' = LRun tasks [] false /\ executed s' = executed s) s) as Hpush.
    { intros s0 Hi0 Hpc0. destruct a as [t|]; [|exfalso; apply Ha; by left].
      quiet_run step_run_push; [done|done|done|by apply prefix_app_r|].
      intros Hi'. exact (IH Ha' _ (doing s0) Hi' eq_refl). }
    destruct owe; [|by apply Hpush]. eapply Howe; [done|done|].
    intros s' Hi' Hpc' <-. by apply Hpush.
Qed.

Lemma run_tasks s tasks acts owe :
  Inv s -> pushes acts -> pc s = LRun tasks acts owe ->
  runs_to (fun s' => pc s' = LTest /\ executed s' = executed s ++ tasks) s.
Proof.
  revert s acts owe. induction tasks as [|t tasks IH]; intros s acts owe Hi Ha Hpc.
  - eapply runs_to_trans; [by eapply run_task_acts|]. intros s1 [Hi1 _ _ _] [Hpc1 He1].
    quiet_run step_run_end; [done..|]. intros. apply runs_to_here; [done|].
    simpl. by rewrite He1, app_nil_r.
  - eapply runs_to_trans; [by eapply run_task_acts|]. intros s1 [Hi1 _ _ _] [Hpc1 He1].
    quiet_run step_run; [done..|]. intros Hi2.
    eapply runs_to_trans; [eapply (IH _ (body t) false); [done|apply body_pushes|done]|].
    simpl. intros s3 [] [? He3]. apply runs_to_here; [done|]. split; [done|].
    by rewrite He3, He1, <- app_assoc.
Qed.

(** From the swap on, everything pushed before it has run when the loop next
    tests quit_. *)
Lemma run_swap s :
  Inv s -> pc s = LSwap -> runs_to (fun s' => pc s' = LTest /\ executed s' = pushed s) s.
Proof.
  intros Hi Hpc. assert (pushed s = executed s ++ pending s) as Hf
    by (destruct Hi; rewrite Hpc in *; done).
  quiet_run step_swap; [done..|]. intros Hi1.
  quiet_run step_set; [done..|]. intros Hi2.
  eapply runs_to_trans; [eapply run_tasks; [done|apply not_elem_of_nil|done]|].
  simpl. intros s3 [] [? He]. apply runs_to_here; [done|]. split; [done|]. by rewrite He, Hf.
Qed.

Definition all_run (s0 s : state) : Prop := pushed s0 `prefix_of` executed s.

Lemma run_from_dispatch s evs acts owe :
  Inv s -> pushes acts -> pc s = LDispatch evs acts owe -> runs_to (all_run s) s.
Proof.
  intros Hi Ha Hpc. eapply runs_to_trans; [by eapply run_dispatch|].
  intros s1 [Hi1 _ _ Hp1] Hpc1. eapply runs_to_trans; [by apply run_swap|].
  intros s2 [] [_ He]. apply runs_to_here; [done|]. unfold all_run. by rewrite He.
Qed.

(** epoll_wait returns the wakeup channel, and enter: the steps out of a wait. *)
Lemma runs_to_quiet P s s' :
  quiet_step s s' -> Inv s -> quit s' = quit s -> early s' = early s -> pushed s' = pushed s ->
  (Inv s' -> runs_to P s') -> runs_to P s.
Proof.
  intros Hl Hi Hq He Hp HP. assert (Inv s') as Hi' by (by eapply loop_step_inv; [apply Hl|]).
  destruct (HP Hi') as (s2 & Hr & [] & HP2). exists s2.
  split; [eapply rtc_l; [by left|done]|]. split; [|done].
  constructor; [done|congruence| |by rewrite <- Hp]. intros. apply kp_early0. congruence.
Qed.

Lemma runs_to_poll P s :
  Inv s -> pc s = LPoll -> 0 < counter s ->
  (Inv (goto s (LDispatch [Wake] [] false)) -> runs_to P (goto s (LDispatch [Wake] [] false))) ->
  runs_to P s.
Proof.
  intros Hi Hpc Hc. apply runs_to_quiet; [|done..].
  split_and!; [by apply step_poll|done|]. by rewrite Hpc.
Qed.

Lemma run_from_poll s : Inv s -> pc s = LPoll -> woken s -> runs_to (all_run s) s.
Proof.
  intros Hi Hpc Hw.
  assert (forall s1, Inv s1 -> pc s1 = LPoll -> pushed s1 = pushed s -> 0 < counter s1 ->
    runs_to (all_run s) s1) as Hgo.
  { intros s1 Hi1 Hpc1 Hp1 Hc. apply (runs_to_poll _ s1); [done..|].
    intros Hi2. eapply runs_to_trans.
    - eapply run_from_dispatch; [done|apply not_elem_of_nil|done].
    - intros s3 [] Hall. apply runs_to_here; [done|]. unfold all_run in *. simpl in Hall.
      by rewrite Hp1 in Hall. }
  destruct (decide (0 < counter s)) as [Hc|Hc]; [by apply Hgo|].
  destruct Hw as [?|[Hw|Hw]]; [done| |by rewrite Hpc in Hw].
  destruct (owing s) as [|i l] eqn:Ho; [done|].
  assert (other_wake i s (wake s (pc s) l)) as Hstep by (by apply (step_other_wake i s [] l)).
  destruct (Hgo (wake s (pc s) l)) as (s2 & Hr & [] & Hall).
  - eapply step_inv; [by eapply by_waker|done].
  - done.
  - done.
  - simpl. apply bump_pos. by destruct Hi.
  - exists s2. split; [|by split]. eapply rtc_l; [right; by exists i|done].
Qed.

Lemma run_from_test s :
  Inv s -> pc s = LTest -> quit s = false -> early s = false -> runs_to (all_run s) s.
Proof.
  intros Hi Hpc Hq He. pose proof Hi as []. rewrite Hpc in *. simpl in *.
  destruct (decide (pending s = [])) as [Hp|Hp].
  { apply runs_to_here; [done|]. unfold all_run. by rewrite inv_fifo0, Hp, app_nil_r. }
  specialize (inv_work0 He eq_refl Hp).
  quiet_run step_test_poll; [done..|]. intros Hi1.
  apply (run_from_poll (goto s LPoll)); [done|done|].
  destruct inv_work0 as [?|[?|Hw]]; [by left|by right; left|by rewrite Hpc in Hw].
Qed.

(** From any point of the loop. *)
Lemma run_from_anywhere s :
  Inv s -> pc_pushes (pc s) -> quit s = false -> early s = false -> pc s <> LExited ->
  runs_to (all_run s) s.
Proof.
  intros Hi Ha Hq He Hx.
  assert (forall tasks acts owe s1, Inv s1 -> pushes acts -> pc s1 = LRun tasks acts owe ->
    quit s1 = false -> early s1 = false -> runs_to (all_run s1) s1) as Hrun.
  { intros tasks acts owe s1 Hi1 Ha1 Hpc1 Hq1 He1.
    eapply runs_to_trans; [by eapply run_tasks|]. intros s2 [Hi2 Hq2 He2 Hp2] [Hpc2 _].
    eapply runs_to_trans; [apply run_from_test; [done|done|congruence|auto]|].
    intros s3 [] Hall. apply runs_to_here; [done|]. unfold all_run in *. by etrans. }
  destruct (pc s) as [owe| | |evs acts owe| |tasks|tasks acts owe|] eqn:Hpc; simpl in Ha.
  - assert (owe = false) as ->.
    { destruct Hi. rewrite Hpc in *. simpl in *. destruct owe; [|done].
      rewrite inv_doing0 in inv_owe0. by specialize (inv_owe0 eq_refl). }
    eapply (runs_to_quiet _ s (set_quit false s LTest (owing s))); [|done..|intros Hi1].
    { split_and!; [by apply step_enter|by rewrite Hpc|done]. }
    exact (run_from_test (set_quit false s LTest (owing s)) Hi1 eq_refl eq_refl He).
  - by apply run_from_test.
  - pose proof Hi as []. rewrite Hpc in *. simpl in *.
    destruct (decide (pending s = [])) as [Hp|Hp].
    + apply runs_to_here; [done|]. unfold all_run. by rewrite inv_fifo0, Hp, app_nil_r.
    + apply run_from_poll; [done|done|by apply inv_work0].
  - by eapply run_from_dispatch.
  - eapply runs_to_trans; [by apply run_swap|]. intros s1 [] [_ Hs1]. apply runs_to_here; [done|].
    unfold all_run. by rewrite Hs1.
  - quiet_run step_set; [done..|]. intros Hi1.
    refine (Hrun tasks [] false _ Hi1 _ eq_refl Hq He). apply not_elem_of_nil.
  - by eapply Hrun.
  - done.
Qed.

(** Nothing that helps makes the loop quit. *)
Definition running (s : state) : Prop :=
  reachable s /\ quit s = false /\ early s = false /\ pc s <> LExited.

Lemma help_running s s' : help s s' -> running s -> running s' /\ pushed s `prefix_of` pushed s'.
Proof.
  intros Hh (Hr & Hq & He & Hx). pose proof (reachable_pushes s Hr) as Hp.
  assert (reachable s') as Hr'.
  { eapply rtc_r; [exact Hr|]. destruct Hh as [[Hl _]|[i Hw]]; [by apply by_loop|by eapply by_waker]. }
  split; [split; [done|]|]; destruct Hh as [(Hl & Hpoll & Hst)|[i Hw]].
  - destruct Hl; match goal with H : pc _ = _ |- _ => rewrite H in * end; simpl in *;
      try (by split_and!); try congruence.
    + by specialize (Hst eq_refl).
    + exfalso. apply Hp. by left.
    + exfalso. apply Hp. by left.
  - by destruct Hw.
  - destruct Hl; simpl; try done; by apply prefix_app_r.
  - by destruct Hw.
Qed.

Lemma help_star_running s s' :
  rtc help s s' -> running s -> running s' /\ pushed s `prefix_of` pushed s'.
Proof.
  induction 1 as [|s1 s2 s3 Hs _ IH]; [done|]. intros H1.
  destruct (help_running s1 s2 Hs H1) as [H2 Hp]. destruct (IH H2) as [H3 Hp'].
  split; [done|by etrans].
Qed.

(** ** Execution *)

(** A choice of the next step: the loop's own (with the events that epoll_wait
    returns), a call on another thread, or its wakeup. *)
Inductive label : Type :=
| Go
| GoPoll (evs : list ev)
| GoEarly (t : T)
| OtherPush (i : Z) (t : T)
| OtherQuit (i : Z)
| OtherWake (i : Z).

Definition is_wake (e : ev) : bool := match e with Wake => true | Ext _ => false end.

(** The next step of the loop's thread, when it is not in epoll_wait. *)
Definition next (s : state) : option state :=
  match pc s with
  | LStart false => Some (set_quit false s LTest (owing s))
  | LTest => Some (if quit s then goto s LExited else goto s LPoll)
  | LDispatch evs acts owe =>
      if owe then Some (wake s (LDispatch evs acts false) (owing s))
      else match acts with
           | APush t :: acts' => Some (push t s (LDispatch evs acts' (doing s)) (owing s) (early s))
           | AQuit :: acts' => Some (set_quit true s (LDispatch evs acts' false) (owing s))
           | [] =>
               match evs with
               | Wake :: evs' =>
                   Some (mkState (pending s) 0 (quit s) (doing s) (LDispatch evs' [] false)
                           (owing s) (pushed s) (executed s) (early s))
               | Ext e :: evs' => Some (goto s (LDispatch evs' (handler e) false))
               | [] => Some (goto s LSwap)
               end
           end
  | LSwap =>
      Some (mkState [] (counter s) (quit s) (doing s) (LSet (pending s)) (owing s)
              (pushed s) (executed s) false)
  | LSet tasks =>
      Some (mkState (pending s) (counter s) (quit s) true (LRun tasks [] false) (owing s)
              (pushed s) (executed s) (early s))
  | LRun tasks acts owe =>
      if owe then Some (wake s (LRun tasks acts false) (owing s))
      else match acts with
           | APush t :: acts' => Some (push t s (LRun tasks acts' (doing s)) (owing s) (early s))
           | AQuit :: acts' => Some (set_quit true s (LRun tasks acts' false) (owing s))
           | [] =>
               match tasks with
               | t :: tasks' =>
                   Some (mkState (pending s) (counter s) (quit s) (doing s)
                           (LRun tasks' (body t) false) (owing s) (pushed s) (executed s ++ [t])
                           (early s))
               | [] =>
                   Some (mkState (pending s) (counter s) (quit s) false LTest (owing s)
                           (pushed s) (executed s) (early s))
               end
           end
  | _ => None
  end.

Definition fire (l : label) (s : state) : option state :=
  match l with
  | Go => next s
  | GoPoll evs =>
      match pc s with
      | LPoll =>
          if negb (existsb is_wake evs) || (0 <? counter s)
          then Some (goto s (LDispatch evs [] false)) else None
      | _ => None
      end
  | GoEarly t =>
      match pc s with
      | LStart false => Some (push t s (LStart (doing s)) (owing s) true)
      | _ => None
      end
  | OtherPush i t =>
      if decide (i ∈ owing s) then None else Some (push t s (pc s) (i :: owing s) (early s))
  | OtherQuit i =>
      if decide (i ∈ owing s) then None else Some (set_quit true s (pc s) (i :: owing s))
  | OtherWake i =>
      match owing s with
      | j :: l => if j =? i then Some (wake s (pc s) l) else None
      | [] => None
      end
  end.

Lemma next_step s s' : next s = Some s' -> loop_step s s'.
Proof.
  unfold next. destruct (pc s) as [[]| | |evs acts owe| |tasks|tasks acts owe|] eqn:Hpc; try done.
  - intros [= <-]. by constructor.
  - destruct (quit s) eqn:Hq; intros E0; injection E0 as <-; by constructor.
  - destruct owe; [intros E0; injection E0 as <-; by constructor|].
    destruct acts as [|[t|] acts]; [destruct evs as [|[|e] evs]|..];
      intros E0; injection E0 as <-; by constructor.
  - intros [= <-]. by constructor.
  - intros [= <-]. by constructor.
  - destruct owe; [intros E0; injection E0 as <-; by constructor|].
    destruct acts as [|[t|] acts]; [destruct tasks as [|t tasks]|..];
      intros E0; injection E0 as <-; by constructor.
Qed.

Lemma fire_step l s s' : fire l s = Some s' -> step s s'.
Proof.
  destruct l as [|evs|t|i t|i|i]; simpl.
  - intros Hn. by apply by_loop, next_step.
  - destruct (pc s) eqn:Hpc; try done.
    destruct (_ || _) eqn:Eb; [|done]. intros [= <-]. apply by_loop, step_poll; [done|].
    intros Hin. apply orb_true_iff in Eb as [Eb|Eb]; [|by apply Z.ltb_lt].
    exfalso. apply negb_true_iff, not_true_iff_false in Eb. apply Eb, existsb_exists.
    exists Wake. split; [by apply list_elem_of_In|done].
  - destruct (pc s) as [[]| | | | | | |] eqn:Hpc; try done. intros [= <-]. by apply by_loop, step_early_push.
  - case_decide; [done|]. intros [= <-]. by eapply by_other, step_other_push.
  - case_decide; [done|]. intros [= <-]. by eapply by_other, step_other_quit.
  - destruct (owing s) as [|j l] eqn:Ho; [done|]. destruct (j =? i) eqn:Ej; [|done].
    intros [= <-]. bool_solve. subst. eapply by_waker. by apply (step_other_wake i s [] l).
Qed.

Fixpoint play (ls : list label) (s : state) : option state :=
  match ls with
  | [] => Some s
  | l :: ls' => match fire l s with Some s' => play ls' s' | None => None end
  end.

Lemma play_steps ls s s' : play ls s = Some s' -> rtc step s s'.
Proof.
  revert s. induction ls as [|l ls IH]; simpl; intros s; [by intros [= <-]|].
  destruct (fire l s) as [s1|] eqn:Ef; [|done]. intros Hp.
  eapply rtc_l; [by eapply fire_step|by apply IH].
Qed.
End protocol.

Arguments act : clear implicits.
Arguments ev : clear implicits.
Arguments lpc : clear implicits.
Arguments label : clear implicits.
Arguments state : clear implicits.
Arguments init {T E}.

(** ** Properties *)

(** C16: however the threads interleave, the tasks run in the order in which they
    were pushed, each exactly once: those started, those taken out by
    doPendingTasks and those in the queue are the pushed ones, in order. *)
Theorem tasks_fifo_exactly_once {T E} (body : T -> list (act T)) (handler : E -> list (act T)) s :
  reachable body handler s -> pushed s = executed s ++ taken (pc s) ++ pending s.
Proof. intros Hr. by destruct (reachable_inv body handler s Hr). Qed.


(** A run for the witnesses: two threads push while the loop runs, one of them
    has not called wakeup yet; the first task pushes a third one. *)
Definition body0 (t : nat) : list (act nat) := if (t =? 7)%nat then [APush 9%nat] else [].
Definition handler0 (e : nat) : list (act nat) := [].

Definition script : list (label nat nat) :=
  [ OtherPush 1 7%nat; OtherPush 2 8%nat; OtherWake 2; Go; Go; GoPoll [Wake]; Go; Go; Go; Go; Go;
    Go ].

Definition s_run : state nat nat := default init (play body0 handler0 script init).

Lemma s_run_reachable : reachable body0 handler0 s_run.
Proof. apply (play_steps body0 handler0 script). by vm_compute. Qed.

Lemma tasks_fifo_exactly_once_witness :
  pushed s_run = executed s_run ++ taken (pc s_run) ++ pending s_run
  /\ executed s_run = [7]%nat /\ taken (pc s_run) = [8]%nat /\ pending s_run = [9]%nat.
Proof.
  split; [exact (tasks_fifo_exactly_once body0 handler0 s_run s_run_reachable)|].
  vm_compute. by split_and!.
Defined.

(** C17: no wakeup is lost.  When the loop is about to block in epoll_wait and
    quit has been asked for, or a task is queued, the wakeup descriptor is
    readable, so the wait returns, or another thread is between its push (or its
    store to quit_) and its write and makes it readable with its next step.  The
    exception is a queue that holds a task which the loop's own thread queued
    before it called loop() ([early]): queueInLoop does not wake the loop for
    it, see before_loop_is_lost. *)
Theorem no_lost_wakeup {T E} (body : T -> list (act T)) (handler : E -> list (act T)) s :
  reachable body handler s -> pc s = LPoll ->
  (pending s <> [] /\ early s = false) \/ quit s = true ->
  (0 < counter s /\ quiet_step body handler s (goto s (LDispatch [Wake] [] false)))
  \/ (exists i s', other_wake i s s' /\ 0 < counter s').
Proof.
  intros Hr Hpc Hwork. pose proof (reachable_inv body handler s Hr) as [].
  assert (woken s) as [Hc|[Ho|Ho]].
  { rewrite Hpc in *. destruct Hwork as [[? ?]|?]; [by apply inv_work0|by apply inv_quit0]. }
  - left. split; [done|]. split_and!; [by apply step_poll|done|]. by rewrite Hpc.
  - right. destruct (owing s) as [|i l] eqn:Hl; [done|].
    exists i, (wake s (pc s) l). split; [by apply (step_other_wake i s [] l)|].
    by apply bump_pos.
  - by rewrite Hpc in Ho.
Qed.

Definition s_poll : state nat nat :=
  default init (play body0 handler0 [Go; Go; OtherPush 1 7%nat] init).

Lemma s_poll_reachable : reachable body0 handler0 s_poll.
Proof. apply (play_steps body0 handler0 [Go; Go; OtherPush 1 7%nat]). by vm_compute. Qed.

Lemma no_lost_wakeup_witness :
  (0 < counter s_poll
   /\ quiet_step body0 handler0 s_poll (goto s_poll (LDispatch [Wake] [] false)))
  \/ (exists i s', other_wake i s_poll s' /\ 0 < counter s').
Proof.
  apply (no_lost_wakeup body0 handler0 s_poll s_poll_reachable); [reflexivity|].
  left. split; [vm_compute; discriminate|reflexivity].
Defined.

(** C18: every pushed task runs without help from outside.  Let the loop be in
    any reachable state, not told to quit, with no task in its queue that its own
    thread put there before loop(); and let no task and no callback call quit().
    Whatever quiet steps of the loop and pending wakeups of other threads follow
    ([help]: no other descriptor becomes ready, no signal arrives, nobody pushes
    anything more from another thread), such steps go on to a state in which
    everything pushed so far has been started.  Blocked in epoll_wait the loop
    has no quiet step until its eventfd has been written. *)
Theorem pushed_tasks_run {T E} (body : T -> list (act T)) (handler : E -> list (act T)) s :
  (forall t, AQuit ∉ body t) -> (forall e, AQuit ∉ handler e) ->
  reachable body handler s -> quit s = false -> early s = false -> pc s <> LExited ->
  forall s1, rtc (help body handler) s s1 ->
  exists s2, rtc (help body handler) s1 s2 /\ pushed s `prefix_of` executed s2.
Proof.
  intros Hb Hh Hr Hq He Hx s1 Hs1.
  destruct (help_star_running body handler Hb Hh s s1 Hs1) as [(Hr1 & Hq1 & He1 & Hx1) Hp]; [done|].
  destruct (run_from_anywhere body handler Hb Hh s1) as (s2 & Hs2 & _ & Hall); try done.
  - by apply (reachable_inv body handler).
  - by apply (reachable_pushes body handler Hb Hh).
  - exists s2. split; [done|]. by etrans.
Qed.

Lemma pushed_tasks_run_witness :
  exists s', rtc (help body0 handler0) s_run s' /\ [7; 8; 9]%nat `prefix_of` executed s'.
Proof.
  apply (pushed_tasks_run body0 handler0 s_run).
  - intros t. unfold body0. destruct (t =? 7)%nat; [|apply not_elem_of_nil].
    rewrite elem_of_cons. intros [[=]|Hin]. by apply elem_of_nil in Hin.
  - intros e. apply not_elem_of_nil.
  - apply s_run_reachable.
  - reflexivity.
  - reflexivity.
  - vm_compute. discriminate.
  - apply rtc_refl.
Defined.

(** What happens before loop() is lost.  A task that the loop's own thread
    queues before it calls loop() stays in the queue while the loop blocks with
    nothing to wake it; and a quit() made by another thread before loop() is
    overwritten: the loop blocks although quit was called. *)
Theorem before_loop_is_lost {T E} (body : T -> list (act T)) (handler : E -> list (act T)) (t : T) :
  (exists s, reachable body handler s /\ pending s = [t] /\ pc s = LPoll
     /\ counter s = 0 /\ owing s = [])
  /\ (exists s0 s, other_push 1 init s0 /\ quit s0 = true /\ rtc (step body handler) s0 s
        /\ pc s = LPoll /\ quit s = false /\ counter s = 0 /\ owing s = []).
Proof.
  split.
  - exists (mkState [t] 0 false false LPoll [] [t] [] true). split; [|by split_and!].
    apply (play_steps body handler [GoEarly t; Go; Go]). by vm_compute.
  - exists (mkState [] 0 true false (LStart false) [1] [] [] false),
      (mkState [] 0 false false LPoll [] [] [] false).
    split; [by apply (step_other_quit 1 init), not_elem_of_nil|]. split; [done|].
    split; [|by split_and!].
    apply (play_steps body handler [OtherWake 1; Go; Go; GoPoll [Wake]; Go; Go; Go; Go; Go; Go]).
    by vm_compute.
Qed.
