(* ===== verification/LoopRefine.v ===== *)
(** * LoopRefine: the definitions of EventLoop.v refine the protocol

    LoopProtocol.v cuts EventLoop::loop and queueInLoop at their accesses to
    shared state and interleaves the pieces; EventLoop.v translates the member
    functions whole.  Here the two are tied: run by the loop's thread, [loop] is
    a path of the protocol's loop steps from its entry to its end, and
    queueInLoop and quit on another thread are the two steps of such a thread.
    Tasks and callbacks are the protocol's actions, executed by EventLoop.v. *)

From stdpp Require Import relations.
From S2P Require Import Prelude LoopProtocol Posix Channel Epoll EventLoop.

(** What the system calls promise of an eventfd: a write adds one, unless that
    exceeds its range, a read resets it, and epoll reports it, [waddr], only
    while it is positive. *)
Class EventfdLaws (K : Type) `{Posix K} (wfd waddr : Z) : Type := {
  evcount : K -> Z;
  write_count : forall k, evcount (sys_write wfd EventLoop.one_bytes k).2 = bump (evcount k);
  read_count : forall k, evcount (sys_read wfd 8 k).2 = 0;
  errno_count : forall e k, evcount (errno_after_log e k).2 = evcount k;
  wait_count : forall ep n t k, evcount (sys_epoll_wait ep n t k).2 = evcount k;
  wait_ready : forall ep n t k evs k',
    sys_epoll_wait ep n t k = (SysOk evs, k') -> waddr ∈ map ev_ptr evs -> 0 < evcount k
}.

Section refine.
Context {K : Type} `{Posix K} {T : Type} (wfd waddr : Z) `{!EventfdLaws K wfd waddr}.
Context (body : T -> list (act T)) (handler : Z -> list (act T)).

(** The loop, with the tasks pushed and started so far. *)
Record machine : Type := mkMachine {
  mloop : Loop K T;
  mpushed : list T;
  mstarted : list T
}.
Implicit Types m : machine.

#[export] Instance machine_has_loop : HasLoop K T machine :=
  {| get_loop := mloop; put_loop l m := mkMachine l (mpushed m) (mstarted m) |}.

(** Tasks and the callbacks of channels; the wakeup channel calls handleRead. *)
Definition do_act (a : act T) : M machine unit :=
  match a with
  | APush t =>
      modify (fun m => mkMachine (mloop m) (mpushed m ++ [t]) (mstarted m));;;
      on_loop (EventLoop.queueInLoop t)
  | AQuit => on_loop EventLoop.quit
  end.
Definition run_task (t : T) : M machine unit :=
  modify (fun m => mkMachine (mloop m) (mpushed m) (mstarted m ++ [t]));;;
  forM (body t) do_act.
Definition setRevents (a r : Z) : M machine unit := ret tt.
Definition handleEvents (a : Z) : M machine unit :=
  if a =? waddr then on_loop EventLoop.handleRead else forM (handler a) do_act.

Definition loop (fuel : nat) : M machine unit :=
  EventLoop.loop run_task setRevents handleEvents fuel.

(** The protocol state of a machine whose thread is at [p]. *)
Definition abs (p : lpc T Z) m : state T Z :=
  mkState (pendingTasks_ (mloop m)) (evcount (kernel (mloop m))) (quit_ (mloop m))
    (doingPendingTasks_ (mloop m)) p [] (mpushed m) (mstarted m) false.

Definition event_at (a : Z) : ev Z := if a =? waddr then Wake else Ext a.

(** In the loop's thread, with the loop's own descriptor. *)
Definition good m : Prop := isInLoopThread (mloop m) = true /\ wakeupfd_ (mloop m) = wfd.

(** How the loop can stop without returning: the bound of the model, or a wait
    that fails. *)
Definition loop_fault (f : fault) : Prop :=
  f = OutOfFuel \/ f = ExitFailure "Epoll::epoll_wait".

(** [c], entered with doingPendingTasks_ = [d], takes the thread from [p] to
    [p'] by steps of the protocol. *)
Definition path (d : bool) (p p' : lpc T Z) (c : M machine unit) : Prop :=
  forall m, good m -> doingPendingTasks_ (mloop m) = d ->
  wp loop_fault c (fun _ m' => good m' /\ doingPendingTasks_ (mloop m') = d
    /\ rtc (loop_step body handler) (abs p m) (abs p' m')) m.

Lemma path_ret d p : path d p p (ret tt).
Proof. intros m Hg Hd. by rewrite wp_ret. Qed.

Lemma path_bind d p p' p'' c (k : M machine unit) :
  path d p p' c -> path d p' p'' k -> path d p p'' (c;;; k).
Proof.
  intros Hc Hk m Hg Hd. rewrite wp_bind. wp_call Hc; [done|done|].
  intros _ m1 (Hg1 & Hd1 & Hr1). wp_call Hk; [done|done|].
  intros _ m2 (Hg2 & Hd2 & Hr2). split_and!; [apply Hg2..|done|by etrans].
Qed.

(** wakeup adds one to the counter, whatever the write returns. *)
Lemma wakeup_count_wp F (l : Loop K T) (Q : unit -> Loop K T -> Prop) :
  wakeupfd_ l = wfd ->
  (forall k', evcount k' = bump (evcount (kernel l)) -> Q tt (set_kernel k' l)) ->
  wp F EventLoop.wakeup Q l.
Proof.
  intros Hw HQ. unfold EventLoop.wakeup, loop_sys. wp_simpl. simpl.
  rewrite Hw. pose proof (write_count (kernel l)) as Hc.
  destruct (sys_write _ _ _) as [[n|e] k']; simpl in *; wp_simpl; simpl; apply HQ; [done|].
  by rewrite errno_count.
Qed.

(** ** Actions *)

Lemma in_thread (l l' : Loop K T) : tid_ l' = tid_ l -> current_tid l' = current_tid l ->
  isInLoopThread l' = isInLoopThread l.
Proof. unfold isInLoopThread. by intros -> ->. Qed.

Lemma act_dispatch evs a acts :
  path false (LDispatch evs (a :: acts) false) (LDispatch evs acts false) (do_act a).
Proof.
  intros m Hg Hd. destruct a as [t|]; simpl.
  - rewrite wp_bind, wp_modify, wp_on_loop. unfold EventLoop.queueInLoop. wp_simpl. simpl.
    destruct Hg as [Hl Hw]. rewrite (in_thread (mloop m)), Hl, Hd by done. simpl.
    split_and!; [done..|]. apply rtc_once. rewrite <- Hd at 2.
    by apply (step_dispatch_push _ _ (abs _ m)).
  - rewrite wp_on_loop. unfold EventLoop.quit. wp_simpl. simpl.
    destruct Hg as [Hl Hw]. rewrite (in_thread (mloop m)), Hl by done. simpl.
    split_and!; [done..|]. apply rtc_once. by apply (step_dispatch_quit _ _ (abs _ m)).
Qed.

Lemma acts_dispatch evs acts :
  path false (LDispatch evs acts false) (LDispatch evs [] false) (forM acts do_act).
Proof.
  induction acts as [|a acts IH]; [apply path_ret|]. eapply path_bind; [apply act_dispatch|exact IH].
Qed.

Lemma act_run ts a acts :
  path true (LRun ts (a :: acts) false) (LRun ts acts false) (do_act a).
Proof.
  intros m Hg Hd. destruct a as [t|]; simpl.
  - rewrite wp_bind, wp_modify, wp_on_loop. unfold EventLoop.queueInLoop. wp_simpl. simpl.
    destruct Hg as [Hl Hw]. rewrite (in_thread (mloop m)), Hl, Hd by done. simpl.
    apply wakeup_count_wp; [done|]. intros k' Hk. split_and!; [done..|].
    eapply rtc_l; [by apply (step_run_push _ _ (abs _ m))|]. simpl. rewrite Hd.
    apply rtc_once. unfold abs at 2. simpl. rewrite Hk.
    change (doingPendingTasks_ (mloop m)) with (doing (push t (abs (LRun ts (APush t :: acts) false) m)
      (LRun ts acts true) [] false)) at 1.
    by apply (step_run_owe _ _ (push t (abs _ m) (LRun ts acts true) [] false)).
  - rewrite wp_on_loop. unfold EventLoop.quit. wp_simpl. simpl.
    destruct Hg as [Hl Hw]. rewrite (in_thread (mloop m)), Hl by done. simpl.
    split_and!; [done..|]. apply rtc_once. by apply (step_run_quit _ _ (abs _ m)).
Qed.

Lemma acts_run ts acts : path true (LRun ts acts false) (LRun ts [] false) (forM acts do_act).
Proof.
  induction acts as [|a acts IH]; [apply path_ret|]. eapply path_bind; [apply act_run|exact IH].
Qed.

Lemma task_run t ts : path true (LRun (t :: ts) [] false) (LRun ts [] false) (run_task t).
Proof.
  unfold run_task. eapply path_bind; [|apply acts_run]. intros m Hg Hd. rewrite wp_modify.
  split_and!; [apply Hg..|done|]. apply rtc_once. by apply (step_run _ _ (abs _ m)).
Qed.

Lemma tasks_run ts : path true (LRun ts [] false) (LRun [] [] false) (forM ts run_task).
Proof.
  induction ts as [|t ts IH]; [apply path_ret|]. eapply path_bind; [apply task_run|exact IH].
Qed.

(** ** One iteration *)

Lemma assert_thread_wp m (Q : unit -> machine -> Prop) :
  good m -> Q tt m -> wp loop_fault (on_loop assertInLoopThread) Q m.
Proof.
  intros [Hl _] HQ. rewrite wp_on_loop. apply Epoll.assertInLoopThread_wp; [done|]. by destruct m.
Qed.

Lemma pending_path : path false LSwap LTest (EventLoop.doPendingTasks run_task).
Proof.
  intros m Hg Hd. unfold EventLoop.doPendingTasks. rewrite wp_bind. apply assert_thread_wp; [done|].
  rewrite wp_bind, wp_on_loop, wp_gets, wp_bind, wp_on_loop, wp_modify, wp_bind, wp_on_loop, wp_modify.
  rewrite wp_bind. simpl. set (m1 := mkMachine _ _ _). set (ts := pendingTasks_ (mloop m)).
  assert (good m1) as Hg1 by done.
  wp_call (tasks_run ts m1 Hg1); [done|]. intros _ m2 (Hg2 & Hd2 & Hr).
  rewrite wp_on_loop, wp_modify. simpl. split_and!; [apply Hg2..|done|].
  eapply rtc_l; [by apply (step_swap _ _ (abs _ m))|].
  eapply rtc_l; [by eapply step_set|]. etrans; [exact Hr|].
  apply rtc_once. by apply (step_run_end _ _ (abs _ m2)).
Qed.

Lemma channel_path a evs :
  path false (LDispatch (event_at a :: evs) [] false) (LDispatch evs [] false) (handleEvents a).
Proof.
  unfold handleEvents, event_at. destruct (a =? waddr).
  - intros m Hg Hd. rewrite wp_on_loop. unfold EventLoop.handleRead, loop_sys. wp_simpl. simpl.
    destruct Hg as [Hl Hw]. rewrite Hw. pose proof (read_count (kernel (mloop m))) as Hc.
    assert (forall k', evcount k' = 0 ->
      good (mkMachine (set_kernel k' (mloop m)) (mpushed m) (mstarted m))
      /\ doingPendingTasks_ (mloop m) = false
      /\ rtc (loop_step body handler) (abs (LDispatch (Wake :: evs) [] false) m)
           (abs (LDispatch evs [] false) (mkMachine (set_kernel k' (mloop m)) (mpushed m) (mstarted m)))) as Hk.
    { intros k' Hk. split_and!; [done..|]. apply rtc_once. unfold abs at 2. simpl. rewrite Hk.
      by apply (step_dispatch_wake _ _ (abs _ m)). }
    destruct (sys_read _ _ _) as [[n|e] k']; simpl in *; wp_simpl; simpl; apply Hk; [done|].
    by rewrite errno_count.
  - intros m Hg Hd. wp_call (acts_dispatch evs (handler a) m); [done|done|].
    intros _ m' (Hg' & Hd' & Hr). split_and!; [apply Hg'..|done|].
    eapply rtc_l; [by apply (step_dispatch_ext _ _ (abs _ m))|]. exact Hr.
Qed.

Lemma channels_path l :
  path false (LDispatch (map event_at l) [] false) (LDispatch [] [] false) (forM l handleEvents).
Proof.
  induction l as [|a l IH]; [apply path_ret|]. eapply path_bind; [apply channel_path|exact IH].
Qed.

(** The events of a wait are stored as the active channels. *)
Lemma store_events_wp evs m (Q : unit -> machine -> Prop) :
  Q tt (mkMachine (set_active (activeChannels_ (mloop m) ++ map ev_ptr evs) (mloop m))
          (mpushed m) (mstarted m)) ->
  wp loop_fault (forM evs (fun ev => setRevents (ev_ptr ev) (ev_events ev);;;
    on_loop (modify (fun l => set_active (activeChannels_ l ++ [ev_ptr ev]) l)))) Q m.
Proof.
  revert m. induction evs as [|ev evs IH]; intros m HQ; simpl.
  - rewrite wp_ret. rewrite app_nil_r in HQ. by destruct m as [[] ? ?].
  - rewrite wp_bind, wp_bind. unfold setRevents at 1. rewrite wp_ret, wp_on_loop, wp_modify.
    apply IH. simpl. by rewrite <- app_assoc.
Qed.

Lemma poll_step_wp m (Q : unit -> machine -> Prop) :
  good m -> activeChannels_ (mloop m) = [] ->
  (forall m', good m' -> doingPendingTasks_ (mloop m') = doingPendingTasks_ (mloop m) ->
     loop_step body handler (abs LPoll m)
       (abs (LDispatch (map event_at (activeChannels_ (mloop m'))) [] false) m') -> Q tt m') ->
  wp loop_fault (Epoll.poll setRevents) Q m.
Proof.
  intros Hg Ha HQ. unfold Epoll.poll, loop_sys. rewrite wp_bind. apply assert_thread_wp; [done|].
  rewrite wp_bind, wp_on_loop, wp_gets, wp_bind, wp_on_loop. wp_simpl. simpl.
  set (ep := epollfd_ _). set (n := signed 32 _).
  assert (forall evs k' p, (waddr ∈ map ev_ptr evs -> 0 < evcount (kernel (mloop m))) ->
    evcount k' = evcount (kernel (mloop m)) ->
    Q tt (mkMachine (set_poller p (set_active (map ev_ptr evs) (set_kernel k' (mloop m))))
            (mpushed m) (mstarted m))) as Hstep.
  { intros evs k' p Hr Hk. apply HQ; [done|done|]. simpl. unfold abs at 2. simpl. rewrite Hk.
    apply (step_poll _ _ (abs LPoll m)); [done|]. simpl. intros Hin. apply Hr.
    apply list_elem_of_fmap in Hin as (a & Ew & Hin). unfold event_at in Ew.
    destruct (a =? waddr) eqn:Ea; [|done]. apply Z.eqb_eq in Ea. by subst. }
  pose proof (wait_count ep n (-1) (kernel (mloop m))) as Hk.
  pose proof (wait_ready ep n (-1) (kernel (mloop m))) as Hr.
  destruct (sys_epoll_wait _ _ _ _) as [[evs|e] k'] eqn:E; simpl in *.
  - rewrite wp_bind. apply store_events_wp. simpl. rewrite Ha. simpl. wp_simpl. simpl.
    case_bool; [by apply Hstep; [eapply Hr|]|].
    specialize (Hstep evs k' (poller_ (mloop m)) ltac:(by eapply Hr) Hk). by destruct m as [[] ? ?].
  - wp_simpl. case_bool; [by right|].
    specialize (Hstep [] k' (poller_ (mloop m)) ltac:(by intros ?%elem_of_nil) Hk).
    simpl in Hstep. rewrite <- Ha in Hstep. by destruct m as [[] ? ?].
Qed.

Lemma iteration_path :
  path false LPoll LTest (EventLoop.iteration run_task setRevents handleEvents).
Proof.
  intros m Hg Hd. unfold EventLoop.iteration. rewrite wp_bind, wp_on_loop, wp_modify. simpl.
  set (m1 := mkMachine _ _ _). rewrite wp_bind. apply poll_step_wp; [done|done|].
  intros m2 Hg2 Hd2 Hs. rewrite wp_bind, wp_on_loop, wp_gets. simpl.
  replace (mkMachine (mloop m2) (mpushed m2) (mstarted m2)) with m2 by by destruct m2.
  assert (doingPendingTasks_ (mloop m2) = false) as Hd2' by by rewrite Hd2.
  rewrite wp_bind. wp_call (channels_path (activeChannels_ (mloop m2)) m2 Hg2 Hd2').
  intros _ m3 (Hg3 & Hd3 & Hr3). wp_call pending_path; [done|done|].
  intros _ m4 (Hg4 & Hd4 & Hr4). split_and!; [apply Hg4..|done|].
  eapply rtc_l; [exact Hs|]. etrans; [exact Hr3|].
  eapply rtc_l; [by apply (step_dispatch_end _ _ (abs _ m3))|]. exact Hr4.
Qed.

Lemma iterate_path fuel :
  path false LTest LExited (EventLoop.iterate run_task setRevents handleEvents fuel).
Proof.
  induction fuel as [|fuel IH]; intros m Hg Hd; cbn [EventLoop.iterate];
    rewrite wp_bind, wp_on_loop, wp_gets; simpl;
    replace (mkMachine (mloop m) (mpushed m) (mstarted m)) with m by (by destruct m).
  - destruct (quit_ (mloop m)) eqn:Hq; [|rewrite wp_throw; by left]. rewrite wp_ret.
    split_and!; [apply Hg..|done|]. apply rtc_once. by apply (step_test_exit _ _ (abs _ m)).
  - destruct (quit_ (mloop m)) eqn:Hq.
    + rewrite wp_ret. split_and!; [apply Hg..|done|]. apply rtc_once.
      by apply (step_test_exit _ _ (abs _ m)).
    + rewrite wp_bind. wp_call iteration_path; [done|done|]. intros _ m1 (Hg1 & Hd1 & Hr1).
      wp_call IH; [done|done|]. intros _ m2 (Hg2 & Hd2 & Hr2). split_and!; [apply Hg2..|done|].
      eapply rtc_l; [by apply (step_test_poll _ _ (abs _ m))|]. by etrans.
Qed.

Lemma loop_path fuel : path false (LStart false) LExited (loop fuel).
Proof.
  intros m Hg Hd. unfold loop, EventLoop.loop. rewrite wp_bind. apply assert_thread_wp; [done|].
  rewrite wp_bind, wp_on_loop, wp_modify. simpl. wp_call iterate_path; [done|done|].
  intros _ m' (Hg' & Hd' & Hr). split_and!; [apply Hg'..|done|].
  eapply rtc_l; [by apply (step_enter _ _ (abs _ m))|]. exact Hr.
Qed.

(** ** Another thread *)

Lemma other_act i a p m :
  i = current_tid (mloop m) -> isInLoopThread (mloop m) = false -> wakeupfd_ (mloop m) = wfd ->
  wp no_fault (do_act a) (fun _ m' => current_tid (mloop m') = i
    /\ exists s, other_push i (abs p m) s /\ other_wake i s (abs p m')) m.
Proof.
  intros -> Hl Hw. destruct a as [t|]; simpl.
  - rewrite wp_bind, wp_modify, wp_on_loop. unfold EventLoop.queueInLoop. wp_simpl. simpl.
    rewrite (in_thread (mloop m)), Hl by done. simpl. apply wakeup_count_wp; [done|].
    intros k' Hk. split; [done|].
    exists (push t (abs p m) p [current_tid (mloop m)] false).
    split; [apply (step_other_push _ (abs p m)), not_elem_of_nil|].
    unfold abs at 2. simpl. rewrite Hk.
    by apply (step_other_wake _ (push t (abs p m) p [current_tid (mloop m)] false) [] []).
  - rewrite wp_on_loop. unfold EventLoop.quit. wp_simpl. simpl.
    rewrite (in_thread (mloop m)), Hl by done. simpl. apply wakeup_count_wp; [done|].
    intros k' Hk. split; [done|].
    exists (LoopProtocol.set_quit true (abs p m) p [current_tid (mloop m)]).
    split; [apply (step_other_quit _ (abs p m)), not_elem_of_nil|].
    unfold abs at 2. simpl. rewrite Hk.
    by apply (step_other_wake _ (LoopProtocol.set_quit true (abs p m) p [current_tid (mloop m)]) [] []).
Qed.
End refine.

Arguments mkMachine {K T}.
Arguments mloop {K T}.
Arguments mpushed {K T}.
Arguments mstarted {K T}.

(** ** Property *)

(** C19: the member functions of EventLoop refine the protocol.  On the loop's
    thread, when EventLoop::loop returns, its run is a path of the protocol's
    loop steps from the entry to the end, and it stops in no other way than by a
    failing epoll_wait (or the bound of the model); queueInLoop and quit on any
    other thread, wherever the loop is, return and are the protocol's two steps
    of such a thread. *)
Theorem eventloop_refines_protocol {K} `{Posix K} {T} (wfd waddr : Z) `{!EventfdLaws K wfd waddr}
  (body : T -> list (act T)) (handler : Z -> list (act T)) (m : machine (K := K) (T := T)) :
  wakeupfd_ (mloop m) = wfd ->
  (isInLoopThread (mloop m) = true -> doingPendingTasks_ (mloop m) = false -> forall fuel,
   wp loop_fault (loop waddr body handler fuel)
     (fun _ m' => rtc (loop_step body handler) (abs wfd waddr (LStart false) m)
                    (abs wfd waddr LExited m')) m)
  /\ (isInLoopThread (mloop m) = false -> forall a p,
   wp no_fault (do_act a)
     (fun _ m' => exists s, other_push (current_tid (mloop m)) (abs wfd waddr p m) s
                    /\ other_wake (current_tid (mloop m)) s (abs wfd waddr p m')) m).
Proof.
  intros Hw. split.
  - intros Hl Hd fuel. wp_call (loop_path wfd waddr body handler fuel m); [done..|].
    by intros _ m' (_ & _ & Hr).
  - intros Hl a p. wp_call (other_act wfd waddr _ a p m); [done..|]. by intros _ m' [_ Hs].
Qed.

(** A kernel with one eventfd, descriptor 4, and scripted waits, which report
    the eventfd (address 100) only while its counter is positive. *)
Record EvK : Type := mkEvK { ev_count : Z; ev_waits : list (list epoll_event) }.

Definition ev_wait (k : EvK) : list epoll_event * EvK :=
  match ev_waits k with
  | [] => ([], k)
  | evs :: l =>
      (base.filter (fun ev => ev_ptr ev <> 100 \/ 0 < ev_count k) evs, mkEvK (ev_count k) l)
  end.

#[export] Instance EvPosix : Posix EvK.
Proof.
  refine {|
    sys_readv _ _ k := (SysErr EBADF, k);
    sys_read fd _ k :=
      if fd =? 4 then (SysOk EventLoop.one_bytes, mkEvK 0 (ev_waits k)) else (SysErr EBADF, k);
    sys_write fd d k :=
      if fd =? 4 then (SysOk 8, mkEvK (bump (ev_count k)) (ev_waits k)) else (SysErr EBADF, k);
    sys_shutdown_wr _ k := (SysErr EBADF, k);
    sys_close _ k := (SysErr EBADF, k);
    sys_so_error _ k := (SysErr EBADF, k);
    sys_epoll_ctl _ _ _ _ k := (SysErr EBADF, k);
    sys_epoll_wait _ _ _ k := let '(evs, k') := ev_wait k in (SysOk evs, k');
    sys_now k := (0, k);
    sys_timerfd_settime _ _ k := (SysErr EBADF, k);
    sys_socket k := (SysErr EMFILE, k);
    sys_reuseaddr _ k := (SysErr EBADF, k);
    sys_bind _ _ k := (SysErr EBADF, k);
    sys_listen _ k := (SysErr EBADF, k);
    sys_accept4 _ k := (SysErr EBADF, k);
    sys_connect _ _ k := (SysErr EBADF, k);
    sys_getsockname _ k := (SysErr EBADF, k);
    errno_after_log e k := (e, k)
  |}.
Defined.

#[export] Instance EvLaws : EventfdLaws EvK 4 100.
Proof.
  refine {| evcount := ev_count |}; simpl; try done.
  - intros _ _ _ k. unfold ev_wait. by destruct (ev_waits k).
  - intros _ _ _ k evs k'. unfold ev_wait. destruct (ev_waits k) as [|l ls]; intros [= <- <-].
    + by intros ?%elem_of_nil.
    + intros (ev & E & Hev)%list_elem_of_fmap. apply list_elem_of_filter in Hev as [[Hne|Hc] _]; [|done].
      by symmetry in E.
Defined.

(** Task 1 queues task 2, which quits; thread 9 queues task 1. *)
Definition ref_body (t : nat) : list (act nat) :=
  if (t =? 1)%nat then [APush 2%nat] else [AQuit].
Definition ref_m0 : machine (K := EvK) (T := nat) :=
  mkMachine (mkLoop (mkEvK 0 [[mkEvent EPOLLIN 100]; [mkEvent EPOLLIN 100]]) 1 9 false false
    (mkEpoll 128 3) [] 4 []) [] [].
Definition ref_m1 : machine (K := EvK) (T := nat) :=
  mkMachine (mkLoop (mkEvK 1 [[mkEvent EPOLLIN 100]; [mkEvent EPOLLIN 100]]) 1 1 false false
    (mkEpoll 128 3) [] 4 [1%nat]) [1%nat] [].

Lemma wp_returns {S A} F (m : M S A) (Q : A -> S -> Prop) s a s' :
  wp F m Q s -> m s = Ok (a, s') -> Q a s'.
Proof. unfold wp. intros Hw E. by rewrite E in Hw. Qed.

Definition ref_end : result (unit * machine (K := EvK) (T := nat)) :=
  Eval vm_compute in loop 100 ref_body (fun _ => []) 3 ref_m1.
Lemma ref_runs : loop 100 ref_body (fun _ => []) 3 ref_m1 = ref_end.
Proof. vm_compute. reflexivity. Qed.

Lemma eventloop_refines_protocol_witness :
  wp no_fault (do_act (APush 1%nat))
     (fun _ m' => exists s, other_push 9 (abs 4 100 LPoll ref_m0) s
                    /\ other_wake 9 s (abs 4 100 LPoll m')) ref_m0
  /\ exists m', loop 100 ref_body (fun _ => []) 3 ref_m1 = Ok (tt, m')
    /\ mstarted m' = [1; 2]%nat
    /\ rtc (loop_step ref_body (fun _ => [])) (abs 4 100 (LStart false) ref_m1) (abs 4 100 LExited m').
Proof.
  split.
  - destruct (eventloop_refines_protocol 4 100 ref_body (fun _ => []) ref_m0 eq_refl) as [_ H].
    exact (H eq_refl (APush 1%nat) LPoll).
  - destruct (eventloop_refines_protocol 4 100 ref_body (fun _ => []) ref_m1 eq_refl) as [H _].
    eexists. split; [exact ref_runs|]. split; [reflexivity|].
    exact (wp_returns _ _ _ _ _ _ (H eq_refl eq_refl 3%nat) ref_runs).
Defined.
