(* ===== verification/Calendar.v ===== *)
(** * Calendar: the times that the logger prints
    (timestamp of Logger.h, the time stamp of AsyncLogging::rollFile)

    gmtime and strftime of the C library, for the conversions the sources use,
    and the two texts made with them.  [gmtime_zero] and [gmtime_tick] tie
    gmtime to the calendar: it counts seconds, minutes, hours, days, months
    and years from 1970 on.  Both texts have a fixed width up to the year 9999
    and compare as strings the way their times compare ([stamp_compare],
    [timestamps_sort]). *)

From Stdlib Require Import Ascii.
From stdpp Require Import pretty.
From S2P Require Import Prelude.

(** struct tm, as far as the sources read it. *)
Record tm : Type := mkTm {
  tm_year : Z;    (* since 1900 *)
  tm_mon : Z;     (* 0 to 11 *)
  tm_mday : Z;
  tm_hour : Z;
  tm_min : Z;
  tm_sec : Z
}.

Module Calendar.

(** ** gmtime *)

Definition leap (y : Z) : bool :=
  (y mod 4 =? 0) && (negb (y mod 100 =? 0) || (y mod 400 =? 0)).

(** Days from the first day of the year 0 to the first day of the year [y]. *)
Definition days_before (y : Z) : Z :=
  365 * y + (y + 3) / 4 - (y + 99) / 100 + (y + 399) / 400.

Definition month_lengths (y : Z) : list Z :=
  [31; if leap y then 29 else 28; 31; 30; 31; 30; 31; 31; 30; 31; 30; 31].

(** The year of a day: the average year is right up to one. *)
Definition year_of (d : Z) : Z :=
  let y := 400 * d / 146097 in
  if d <? days_before y then y - 1
  else if days_before (y + 1) <=? d then y + 1 else y.

(** The month and the day in it of day [d] of a year. *)
Fixpoint month_of (lengths : list Z) (m d : Z) : Z * Z :=
  match lengths with
  | n :: rest => if d <? n then (m, d) else month_of rest (m + 1) (d - n)
  | [] => (m, d)
  end.

Definition gmtime (t : Z) : tm :=
  let d := t / 86400 + days_before 1970 in
  let y := year_of d in
  let '(m, k) := month_of (month_lengths y) 0 (d - days_before y) in
  let s := t mod 86400 in
  mkTm (y - 1900) m (k + 1) (s / 3600) (s mod 3600 / 60) (s mod 60).

(** ** strftime and the texts *)

(** std::setfill('0') << std::setw(w) *)
Fixpoint zeros (n : nat) : string :=
  match n with O => EmptyString | S n' => String "0" (zeros n') end.
Definition setw0 (w : nat) (s : string) : string := (zeros (w - String.length s) ++ s)%string.

(** The conversions of strftime that the sources use. *)
Definition conversion (f : ascii) (c : tm) : string :=
  match f with
  | "Y"%char => pretty (tm_year c + 1900)
  | "m"%char => setw0 2 (pretty (tm_mon c + 1))
  | "d"%char => setw0 2 (pretty (tm_mday c))
  | "H"%char => setw0 2 (pretty (tm_hour c))
  | "M"%char => setw0 2 (pretty (tm_min c))
  | "S"%char => setw0 2 (pretty (tm_sec c))
  | _ => EmptyString
  end.

Fixpoint strftime (format : string) (c : tm) : string :=
  match format with
  | String "%" (String f rest) => (conversion f c ++ strftime rest c)%string
  | String a rest => String a (strftime rest c)
  | EmptyString => EmptyString
  end.

(** timestamp() of Logger.h, at [now] nanoseconds; chrono truncates to zero. *)
Definition timestamp (now : Z) : string :=
  let time := Z.quot now 1000000000 in
  let ms := Z.rem (Z.quot now 1000000) 1000 in
  (strftime "%Y%m%d %H:%M:%S" (gmtime time) ++ "." ++ setw0 3 (pretty ms))%string.

(** timebuf of AsyncLogging::rollFile, at [now] seconds. *)
Definition timebuf (now : Z) : string := strftime ".%Y%m%d-%H%M%S" (gmtime now).

(** ** The calendar *)

Definition month_length (c : tm) : Z :=
  nth (Z.to_nat (tm_mon c)) (month_lengths (tm_year c + 1900)) 31.

(** One second later. *)
Definition tick (c : tm) : tm :=
  if tm_sec c <? 59 then mkTm (tm_year c) (tm_mon c) (tm_mday c) (tm_hour c) (tm_min c) (tm_sec c + 1)
  else if tm_min c <? 59 then mkTm (tm_year c) (tm_mon c) (tm_mday c) (tm_hour c) (tm_min c + 1) 0
  else if tm_hour c <? 23 then mkTm (tm_year c) (tm_mon c) (tm_mday c) (tm_hour c + 1) 0 0
  else if tm_mday c <? month_length c then mkTm (tm_year c) (tm_mon c) (tm_mday c + 1) 0 0 0
  else if tm_mon c <? 11 then mkTm (tm_year c) (tm_mon c + 1) 1 0 0 0
  else mkTm (tm_year c + 1) 0 1 0 0 0.

Lemma year_length y : days_before (y + 1) - days_before y = if leap y then 366 else 365.
Proof.
  unfold days_before, leap.
  destruct (y mod 4 =? 0) eqn:E4, (y mod 100 =? 0) eqn:E100, (y mod 400 =? 0) eqn:E400;
    cbn [negb orb andb]; bool_solve; Z.div_mod_to_equations; lia.
Qed.

Lemma days_before_mono y y' : y <= y' -> days_before y <= days_before y'.
Proof. unfold days_before. intros. Z.div_mod_to_equations. lia. Qed.

Lemma year_of_spec d : days_before (year_of d) <= d < days_before (year_of d + 1).
Proof.
  unfold year_of. set (y := 400 * d / 146097).
  assert (days_before (y - 1) <= d < days_before (y + 2)) as Hy.
  { unfold days_before, y. Z.div_mod_to_equations. lia. }
  destruct (d <? days_before y) eqn:E1; bool_solve; [replace (y - 1 + 1) with y by lia; lia|].
  destruct (days_before (y + 1) <=? d) eqn:E2; bool_solve; [|lia].
  replace (y + 1 + 1) with (y + 2) by lia. lia.
Qed.

Lemma year_of_unique d y : days_before y <= d < days_before (y + 1) -> year_of d = y.
Proof.
  intros Hy. pose proof (year_of_spec d) as Hs.
  destruct (Z.lt_trichotomy (year_of d) y) as [Hl|[He|Hg]]; [|done|].
  - pose proof (days_before_mono (year_of d + 1) y). lia.
  - pose proof (days_before_mono (y + 1) (year_of d)). lia.
Qed.

(** The position of a day among the months, and the next day. *)
Fixpoint place (lengths : list Z) (d : Z) : option (nat * Z) :=
  match lengths with
  | n :: rest =>
      if d <? n then Some (O, d)
      else option_map (fun p => (S p.1, p.2)) (place rest (d - n))
  | [] => None
  end.

Lemma month_of_place ls m d i k :
  place ls d = Some (i, k) -> month_of ls m d = (m + Z.of_nat i, k).
Proof.
  revert m d i. induction ls as [|n ls IH]; simpl; intros m d i; [done|].
  destruct (d <? n); [intros [= <- <-]; f_equal; lia|].
  destruct (place ls (d - n)) as [[j l]|] eqn:E; simpl; [|done]. intros [= <- ->].
  rewrite (IH _ _ j) by done. f_equal. lia.
Qed.

Lemma place_some ls d :
  Forall (Z.lt 0) ls -> 0 <= d < foldr Z.add 0 ls ->
  exists i k, place ls d = Some (i, k) /\ (i < length ls)%nat /\ 0 <= k < nth i ls 31.
Proof.
  intros Hp. revert d. induction Hp as [|n ls Hn _ IH]; simpl; intros d Hd; [lia|].
  destruct (d <? n) eqn:E; bool_solve; [exists O, d; split_and!; [done|lia..]|].
  destruct (IH (d - n)) as (i & k & -> & Hi & Hk); [lia|]. exists (S i), k. split_and!; [done|lia..].
Qed.

Lemma place_next ls d i k :
  Forall (Z.lt 0) ls -> 0 <= d -> place ls d = Some (i, k) ->
  place ls (d + 1) = if k + 1 <? nth i ls 31 then Some (i, k + 1)
                     else if (S i <? length ls)%nat then Some (S i, 0) else None.
Proof.
  intros Hp. revert d i. induction Hp as [|n ls Hn Hls IH]; simpl; intros d i Hd; [done|].
  destruct (d <? n) eqn:E; bool_solve.
  - intros [= <- <-]. destruct (d + 1 <? n) eqn:E1; bool_solve; [done|].
    replace (d + 1 - n) with 0 by lia. destruct Hls as [|n' ls Hn' _]; simpl; [done|].
    rewrite (proj2 (Z.ltb_lt 0 n')) by lia. done.
  - destruct (place ls (d - n)) as [[j l]|] eqn:Ep; simpl; [|done]. intros [= <- ->].
    rewrite (proj2 (Z.ltb_ge (d + 1) n)) by lia. replace (d + 1 - n) with (d - n + 1) by lia.
    rewrite (IH _ j) by (try done; lia). destruct (k + 1 <? nth j ls 31); [done|].
    change (S (S j) <? S (length ls))%nat with (S j <? length ls)%nat. by destruct (S j <? length ls)%nat.
Qed.

Lemma place_none ls d :
  Forall (Z.lt 0) ls -> foldr Z.add 0 ls <= d -> place ls d = None.
Proof.
  intros Hp. revert d. induction Hp as [|n ls Hn Hls IH]; simpl; intros d Hd; [done|].
  assert (0 <= foldr Z.add 0 ls) by (clear IH Hd; induction Hls; simpl; lia).
  rewrite (proj2 (Z.ltb_ge d n)), IH by lia. done.
Qed.

Lemma month_lengths_pos y : Forall (Z.lt 0) (month_lengths y).
Proof. unfold month_lengths. destruct (leap y); repeat constructor. Qed.
Lemma month_lengths_sum y : foldr Z.add 0 (month_lengths y) = days_before (y + 1) - days_before y.
Proof. rewrite year_length. unfold month_lengths. by destruct (leap y). Qed.

(** What gmtime makes of day [d] (from year 0 on) and second [s] of the day. *)
Definition date (d s : Z) : tm :=
  let y := year_of d in
  let '(m, k) := month_of (month_lengths y) 0 (d - days_before y) in
  mkTm (y - 1900) m (k + 1) (s / 3600) (s mod 3600 / 60) (s mod 60).

Lemma gmtime_date t : gmtime t = date (t / 86400 + days_before 1970) (t mod 86400).
Proof. done. Qed.

(** The day in its year and month. *)
Lemma date_place d s :
  exists i k, date d s = mkTm (year_of d - 1900) (Z.of_nat i) (k + 1) (s / 3600) (s mod 3600 / 60) (s mod 60)
    /\ place (month_lengths (year_of d)) (d - days_before (year_of d)) = Some (i, k)
    /\ (i < 12)%nat /\ 0 <= k < nth i (month_lengths (year_of d)) 31.
Proof.
  pose proof (year_of_spec d) as Hy.
  destruct (place_some (month_lengths (year_of d)) (d - days_before (year_of d)))
    as (i & k & Hp & Hi & Hk); [apply month_lengths_pos|rewrite month_lengths_sum; lia|].
  exists i, k. unfold date. rewrite (month_of_place _ _ _ _ _ Hp).
  split; [done|]. split; [done|]. split; [exact Hi|exact Hk].
Qed.

Lemma year_of_next d :
  year_of (d + 1) = if d + 1 <? days_before (year_of d + 1) then year_of d else year_of d + 1.
Proof.
  pose proof (year_of_spec d) as Hy. apply year_of_unique.
  destruct (d + 1 <? days_before (year_of d + 1)) eqn:E; bool_solve; [lia|].
  pose proof (year_length (year_of d + 1)). destruct (leap _); lia.
Qed.

Lemma date_next_day d : tick (date d 86399) = date (d + 1) 0.
Proof.
  destruct (date_place d 86399) as (i & k & -> & Hp & Hi & Hk). unfold date. rewrite year_of_next.
  pose proof (year_of_spec d) as Hy. pose proof (month_lengths_sum (year_of d)) as Hsum.
  set (y := year_of d) in *.
  assert (0 <= d - days_before y) as Hd by lia.
  pose proof (place_next _ _ _ _ (month_lengths_pos y) Hd Hp) as Hn.
  assert (length (month_lengths y) = 12%nat) as Hlen by done.
  unfold tick, month_length. cbn [tm_sec tm_min tm_hour tm_mday tm_mon tm_year].
  replace (y - 1900 + 1900) with y by lia. rewrite Nat2Z.id, Hlen in *.
  change (86399 mod 60 <? 59) with false. change (86399 mod 3600 / 60 <? 59) with false.
  change (86399 / 3600 <? 23) with false. cbn iota.
  destruct (d + 1 <? days_before (y + 1)) eqn:Ey; bool_solve.
  - replace (d + 1 - days_before y) with (d - days_before y + 1) by lia.
    destruct (place_some (month_lengths y) (d - days_before y + 1)) as (j & l & Hj & _);
      [apply month_lengths_pos|rewrite Hsum; lia|].
    rewrite (month_of_place _ _ _ _ _ Hj). rewrite Hj in Hn.
    destruct (k + 1 <? _) eqn:Ek; [injection Hn as -> ->|].
    { f_equal; lia. }
    destruct (Nat.ltb_spec (S i) 12) as [Hi'|]; [|done]. injection Hn as -> ->.
    rewrite (proj2 (Z.ltb_lt _ 11)) by lia. f_equal; lia.
  - rewrite place_none in Hn by (rewrite ?month_lengths_sum; try apply month_lengths_pos; lia).
    destruct (k + 1 <? _) eqn:Ek; [done|].
    destruct (Nat.ltb_spec (S i) 12) as [Hi'|]; [done|].
    rewrite (proj2 (Z.ltb_ge _ 11)) by lia. replace (d + 1) with (days_before (y + 1)) by lia.
    rewrite Z.sub_diag. cbn. f_equal; lia.
Qed.

Lemma tick_in_day d s : 0 <= s < 86399 -> tick (date d s) = date d (s + 1).
Proof.
  intros Hs. unfold date. destruct (month_of _ _ _) as [m k]. unfold tick.
  cbn [tm_sec tm_min tm_hour tm_mday tm_mon tm_year].
  repeat match goal with |- context [?a <? ?b] => destruct (a <? b) eqn:?; bool_solve end;
    try (exfalso; Z.div_mod_to_equations; lia); f_equal; Z.div_mod_to_equations; lia.
Qed.

(** gmtime starts on 1 January 1970 and follows the calendar. *)
Lemma gmtime_zero : gmtime 0 = mkTm 70 0 1 0 0 0.
Proof. reflexivity. Qed.

Lemma gmtime_tick t : gmtime (t + 1) = tick (gmtime t).
Proof.
  rewrite !gmtime_date. pose proof (Z.mod_pos_bound t 86400 eq_refl) as Hm.
  destruct (decide (t mod 86400 = 86399)) as [E|Hne].
  - rewrite E. replace ((t + 1) mod 86400) with 0 by (Z.div_mod_to_equations; lia).
    replace ((t + 1) / 86400) with (t / 86400 + 1) by (Z.div_mod_to_equations; lia).
    rewrite date_next_day. f_equal. lia.
  - replace ((t + 1) mod 86400) with (t mod 86400 + 1) by (Z.div_mod_to_equations; lia).
    replace ((t + 1) / 86400) with (t / 86400) by (Z.div_mod_to_equations; lia).
    rewrite tick_in_day by lia. done.
Qed.

(** ** Decimal texts of fixed width *)

Fixpoint fixed (w : nat) (n : Z) : string :=
  match w with
  | O => EmptyString
  | S w' => (fixed w' (n / 10) ++ String (pretty_N_char (Z.to_N (n mod 10))) EmptyString)%string
  end.

Lemma sapp_cons x (a b : string) : (String x a ++ b = String x (a ++ b))%string.
Proof. reflexivity. Qed.
Lemma sapp_nil (a : string) : ("" ++ a = a)%string.
Proof. reflexivity. Qed.
Lemma sapp_assoc (a b c : string) : ((a ++ b) ++ c = a ++ (b ++ c))%string.
Proof. induction a as [|x a IH]; [done|]. by rewrite !sapp_cons, IH. Qed.
Lemma sapp_length (a b : string) : String.length (a ++ b) = (String.length a + String.length b)%nat.
Proof. induction a as [|x a IH]; [done|]. rewrite sapp_cons. simpl. by rewrite IH. Qed.

Lemma pretty_go_app x s : pretty_N_go x s = (pretty_N_go x "" ++ s)%string.
Proof.
  revert s. induction x as [x IH] using (well_founded_ind N.lt_wf_0). intros s.
  destruct (decide (x = 0)%N) as [->|Hx]; [done|].
  assert (x / 10 < x)%N by (apply N.div_lt; lia).
  rewrite !(pretty_N_go_step x) by lia.
  rewrite (IH (x / 10)%N) by done. rewrite (IH (x / 10)%N ltac:(done) (String _ "")). by rewrite sapp_assoc.
Qed.

Lemma pretty_step n :
  10 <= n -> pretty n = (pretty (n / 10) ++ String (pretty_N_char (Z.to_N (n mod 10))) "")%string.
Proof.
  intros Hn. assert (forall z, 0 < z -> pretty z = pretty_N_go (Z.to_N z) "") as Hp.
  { intros [|p|p] Hz; [lia|reflexivity|lia]. }
  rewrite !Hp by (Z.div_mod_to_equations; lia). rewrite pretty_N_go_step by lia.
  rewrite pretty_go_app, Z2N.inj_div, Z2N.inj_mod by lia. done.
Qed.

Lemma below_ten n : 0 <= n < 10 -> In n (map Z.of_nat (seq 0 10)).
Proof. intros Hn. apply in_map_iff. exists (Z.to_nat n). rewrite in_seq. lia. Qed.

Lemma pretty_digit n : 0 <= n < 10 -> pretty n = String (pretty_N_char (Z.to_N n)) "".
Proof.
  intros Hn%below_ten. simpl in Hn. repeat destruct Hn as [<-|Hn]; done.
Qed.

Lemma fixed_length w n : String.length (fixed w n) = w.
Proof. revert n. induction w as [|w IH]; simpl; intros n; [done|]. rewrite sapp_length, IH. simpl. lia. Qed.
Lemma fixed_zero w : fixed w 0 = zeros w.
Proof.
  induction w as [|w IH]; simpl; [done|]. change (0 / 10) with 0. rewrite IH. change (0 mod 10) with 0. simpl.
  clear IH. induction w as [|w IH]; [done|]. simpl. by rewrite sapp_cons, IH.
Qed.

(** A number of [w] digits, or padded to them. *)
Lemma pretty_fixed w n : 10 ^ Z.of_nat w <= n < 10 ^ Z.of_nat (S w) -> pretty n = fixed (S w) n.
Proof.
  revert n. induction w as [|w IH]; intros n Hn.
  - change (10 ^ Z.of_nat 0) with 1 in Hn. change (10 ^ Z.of_nat 1) with 10 in Hn.
    rewrite pretty_digit by lia. simpl. by rewrite Z.mod_small by lia.
  - rewrite !Nat2Z.inj_succ, !Z.pow_succ_r in Hn by lia. assert (0 < 10 ^ Z.of_nat w) by lia.
    rewrite pretty_step by lia. rewrite (IH (n / 10)); [done|].
    rewrite Nat2Z.inj_succ, Z.pow_succ_r by lia. Z.div_mod_to_equations. lia.
Qed.

Lemma setw0_fixed w n : 0 <= n < 10 ^ Z.of_nat w -> (0 < w)%nat -> setw0 w (pretty n) = fixed w n.
Proof.
  revert n. induction w as [|w IH]; intros n Hn Hw; [lia|].
  destruct (Z.lt_ge_cases n 10) as [Hs|Hl].
  - rewrite pretty_digit by lia. unfold setw0. simpl. rewrite Nat.sub_0_r, Z.div_small, Z.mod_small by lia.
    by rewrite fixed_zero.
  - destruct w as [|w]; [change (10 ^ Z.of_nat 1) with 10 in Hn; lia|].
    rewrite Nat2Z.inj_succ, Z.pow_succ_r in Hn by lia.
    rewrite pretty_step by lia.
    change (fixed (S (S w)) n) with (fixed (S w) (n / 10) +:+ String (pretty_N_char (Z.to_N (n mod 10))) "").
    rewrite <- (IH (n / 10)); [|Z.div_mod_to_equations; lia|lia].
    unfold setw0. rewrite sapp_length, sapp_assoc. simpl String.length.
    f_equal. f_equal. lia.
Qed.

(** ** Comparing texts *)

Lemma compare_app (a b c d : string) :
  String.length a = String.length c ->
  String.compare (a ++ b) (c ++ d)
  = match String.compare a c with Eq => String.compare b d | r => r end.
Proof.
  revert c. induction a as [|x a IH]; intros [|y c] Hl; try done.
  rewrite !sapp_cons. simpl. destruct (Ascii.compare x y); [|done..]. apply IH. by injection Hl.
Qed.

Lemma compare_cons x (a b : string) : String.compare (String x a) (String x b) = String.compare a b.
Proof.
  simpl. replace (Ascii.compare x x) with Eq; [done|]. symmetry. apply N.compare_refl.
Qed.
Lemma compare_refl (a : string) : String.compare a a = Eq.
Proof. induction a as [|x a IH]; [done|]. by rewrite compare_cons. Qed.

Lemma compare_digit x y :
  0 <= x < 10 -> 0 <= y < 10 ->
  Ascii.compare (pretty_N_char (Z.to_N x)) (pretty_N_char (Z.to_N y)) = (x ?= y).
Proof.
  assert (forall z, 0 <= z < 10 -> N_of_ascii (pretty_N_char (Z.to_N z)) = Z.to_N (48 + z)) as Hd.
  { intros z Hz%below_ten. simpl in Hz. repeat destruct Hz as [<-|Hz]; done. }
  intros Hx Hy. unfold Ascii.compare. rewrite !Hd by done. destruct (Z.compare_spec x y).
  - subst. apply N.compare_refl.
  - apply N.compare_lt_iff. lia.
  - apply N.compare_gt_iff. lia.
Qed.

(** Comparing two numbers by a high and a low part. *)
Lemma compare_parts B a b x y :
  0 <= x < B -> 0 <= y < B ->
  (a * B + x ?= b * B + y) = match a ?= b with Eq => x ?= y | r => r end.
Proof.
  intros Hx Hy. destruct (Z.compare_spec a b) as [->|Hab|Hab].
  - destruct (Z.compare_spec x y) as [->|H|H]; [apply Z.compare_refl| |].
    + apply Z.compare_lt_iff. lia.
    + apply Z.compare_gt_iff. lia.
  - apply Z.compare_lt_iff. nia.
  - apply Z.compare_gt_iff. nia.
Qed.

Lemma compare_shift a b c : (a + c ?= b + c) = (a ?= b).
Proof. rewrite !(Z.add_comm _ c). apply Z.add_compare_mono_l. Qed.

Lemma compare_fixed w n m :
  0 <= n < 10 ^ Z.of_nat w -> 0 <= m < 10 ^ Z.of_nat w ->
  String.compare (fixed w n) (fixed w m) = (n ?= m).
Proof.
  revert n m. induction w as [|w IH]; intros n m Hn Hm.
  - change (10 ^ Z.of_nat 0) with 1 in *. by replace n with m by lia; rewrite Z.compare_refl.
  - rewrite Nat2Z.inj_succ, Z.pow_succ_r in Hn, Hm by lia. cbn [fixed].
    rewrite compare_app by by rewrite !fixed_length.
    rewrite IH by (Z.div_mod_to_equations; lia). simpl.
    rewrite compare_digit by (apply Z.mod_pos_bound; lia).
    replace (n ?= m) with (n / 10 * 10 + n mod 10 ?= m / 10 * 10 + m mod 10)
      by (f_equal; Z.div_mod_to_equations; lia).
    rewrite (compare_parts 10) by (apply Z.mod_pos_bound; lia).
    destruct (n / 10 ?= m / 10); [|done..]. by destruct (n mod 10 ?= m mod 10).
Qed.

(** ** The order of times *)

(** What gmtime returns in the years [y1] to [y2 - 1]. *)
Definition sound (y1 y2 : Z) (c : tm) : Prop :=
  y1 <= tm_year c + 1900 < y2 /\ 0 <= tm_mon c < 12 /\ 1 <= tm_mday c <= 31
  /\ 0 <= tm_hour c < 24 /\ 0 <= tm_min c < 60 /\ 0 <= tm_sec c < 60.

Lemma month_lengths_31 y i : nth i (month_lengths y) 31 <= 31.
Proof.
  unfold month_lengths. destruct (leap y); do 12 (destruct i as [|i]; [done|]); simpl; by destruct i.
Qed.

Lemma gmtime_sound y1 y2 t :
  days_before y1 - days_before 1970 <= t / 86400 < days_before y2 - days_before 1970 ->
  sound y1 y2 (gmtime t).
Proof.
  intros Ht. rewrite gmtime_date. set (d := t / 86400 + days_before 1970).
  destruct (date_place d (t mod 86400)) as (i & k & -> & _ & Hi & Hk).
  pose proof (month_lengths_31 (year_of d) i) as H31. pose proof (year_of_spec d) as Hy.
  assert (y1 <= year_of d < y2) as Hyr.
  { split.
    - destruct (Z.lt_ge_cases (year_of d) y1); [|done].
      pose proof (days_before_mono (year_of d + 1) y1). lia.
    - destruct (Z.lt_ge_cases (year_of d) y2); [done|].
      pose proof (days_before_mono y2 (year_of d)). lia. }
  unfold sound. cbn [tm_sec tm_min tm_hour tm_mday tm_mon tm_year]. Z.div_mod_to_equations. lia.
Qed.

(** The fields as the digits of one number. *)
Definition key (c : tm) : Z :=
  ((((tm_year c * 100 + tm_mon c) * 100 + tm_mday c) * 100 + tm_hour c) * 100 + tm_min c) * 100 + tm_sec c.

Lemma key_tick t : key (gmtime t) < key (gmtime (t + 1)).
Proof.
  rewrite gmtime_tick.
  destruct (gmtime_sound (year_of (t / 86400 + days_before 1970)) (year_of (t / 86400 + days_before 1970) + 1) t)
    as (_ & ? & ? & ? & ? & ?).
  { pose proof (year_of_spec (t / 86400 + days_before 1970)). lia. }
  unfold tick, key.
  repeat match goal with |- context [?a <? ?b] => destruct (a <? b) eqn:?; bool_solve end;
    cbn [tm_sec tm_min tm_hour tm_mday tm_mon tm_year]; lia.
Qed.

Lemma key_mono t n : 0 < n -> key (gmtime t) < key (gmtime (t + n)).
Proof.
  intros Hn. pattern n. apply Zlt_lower_bound_ind with (z := 1); [|lia]. clear n Hn. intros n IH Hn.
  destruct (decide (n = 1)) as [->|Hne]; [apply key_tick|].
  pose proof (IH (n - 1) ltac:(lia)). pose proof (key_tick (t + (n - 1))) as Hk.
  replace (t + (n - 1) + 1) with (t + n) in Hk by lia. lia.
Qed.

Lemma key_compare t1 t2 : (key (gmtime t1) ?= key (gmtime t2)) = (t1 ?= t2).
Proof.
  destruct (Z.compare_spec t1 t2) as [->|H|H].
  - apply Z.compare_refl.
  - apply Z.compare_lt_iff. replace t2 with (t1 + (t2 - t1)) by lia. apply key_mono. lia.
  - apply Z.compare_gt_iff. replace t1 with (t2 + (t1 - t2)) by lia. apply key_mono. lia.
Qed.

(** ** The texts *)

(** The first second of the year 10000. *)
Definition year_10000 : Z := 253402300800.

Lemma year_sound t : 0 <= t < year_10000 -> sound 1970 10000 (gmtime t).
Proof.
  intros Ht. apply gmtime_sound. change (days_before 1970) with 719528.
  change (days_before 10000) with 3652425. unfold year_10000 in Ht. Z.div_mod_to_equations. lia.
Qed.

(** The two formats, with [a] between date and time and [b] inside the time. *)
Definition text (a b : string) (c : tm) : string :=
  (fixed 4 (tm_year c + 1900) ++ fixed 2 (tm_mon c + 1) ++ fixed 2 (tm_mday c)
   ++ a ++ fixed 2 (tm_hour c) ++ b ++ fixed 2 (tm_min c) ++ b ++ fixed 2 (tm_sec c) ++ "")%string.

Lemma text_formats t :
  0 <= t < year_10000 ->
  strftime "%Y%m%d %H:%M:%S" (gmtime t) = text " " ":" (gmtime t)
  /\ timebuf t = String "." (text "-" "" (gmtime t)).
Proof.
  intros (? & ? & ? & ? & ? & ?)%year_sound. unfold timebuf. cbn [strftime conversion].
  rewrite (pretty_fixed 3) by (simpl; lia). rewrite !(setw0_fixed 2) by (simpl; lia). done.
Qed.

Lemma text_length a b c :
  String.length (text a b c) = (14 + String.length a + 2 * String.length b)%nat.
Proof. unfold text. rewrite !sapp_length, !fixed_length. simpl. lia. Qed.

Lemma text_compare a b t1 t2 :
  0 <= t1 < year_10000 -> 0 <= t2 < year_10000 ->
  String.compare (text a b (gmtime t1)) (text a b (gmtime t2)) = (t1 ?= t2).
Proof.
  intros H1%year_sound H2%year_sound. rewrite <- key_compare.
  destruct H1 as (? & ? & ? & ? & ? & ?), H2 as (? & ? & ? & ? & ? & ?). unfold text, key.
  rewrite !compare_app by by rewrite ?fixed_length. rewrite !compare_refl.
  rewrite !compare_fixed by (simpl; lia). rewrite !(compare_parts 100) by lia.
  rewrite !compare_shift. simpl.
  repeat match goal with |- context [match ?x with Eq => _ | _ => _ end] => destruct x end; done.
Qed.

(** ** The two texts of the logger *)

Lemma timebuf_compare t1 t2 :
  0 <= t1 < year_10000 -> 0 <= t2 < year_10000 ->
  String.compare (timebuf t1) (timebuf t2) = (t1 ?= t2).
Proof.
  intros H1 H2. rewrite (proj2 (text_formats _ H1)), (proj2 (text_formats _ H2)).
  rewrite compare_cons. by apply text_compare.
Qed.
Lemma timebuf_length t : 0 <= t < year_10000 -> String.length (timebuf t) = 16%nat.
Proof.
  intros Ht. rewrite (proj2 (text_formats _ Ht)). cbn [String.length]. by rewrite text_length.
Qed.

Lemma timestamp_compare now1 now2 :
  0 <= now1 < year_10000 * 1000000000 -> 0 <= now2 < year_10000 * 1000000000 ->
  String.compare (timestamp now1) (timestamp now2) = (now1 / 1000000 ?= now2 / 1000000).
Proof.
  intros H1 H2. unfold timestamp. rewrite !Z.quot_div_nonneg, !Z.rem_mod_nonneg by (try lia; Z.div_mod_to_equations; lia).
  assert (forall now, 0 <= now < year_10000 * 1000000000 -> 0 <= now / 1000000000 < year_10000) as Hs
    by (intros; Z.div_mod_to_equations; lia).
  rewrite (proj1 (text_formats _ (Hs _ H1))), (proj1 (text_formats _ (Hs _ H2))).
  rewrite !compare_app by by rewrite ?text_length. rewrite text_compare, compare_refl by auto.
  rewrite !(setw0_fixed 3), compare_fixed by (try apply Z.mod_pos_bound; lia).
  replace (now1 / 1000000 ?= now2 / 1000000)
    with (now1 / 1000000000 * 1000 + now1 / 1000000 mod 1000 ?= now2 / 1000000000 * 1000 + now2 / 1000000 mod 1000)
    by (f_equal; Z.div_mod_to_equations; lia).
  by rewrite (compare_parts 1000) by (apply Z.mod_pos_bound; lia).
Qed.
Lemma timestamp_length now :
  0 <= now < year_10000 * 1000000000 -> String.length (timestamp now) = 21%nat.
Proof.
  intros Hn. unfold timestamp. rewrite !Z.quot_div_nonneg, !Z.rem_mod_nonneg by (try lia; Z.div_mod_to_equations; lia).
  assert (0 <= now / 1000000000 < year_10000) as Hs by (Z.div_mod_to_equations; lia).
  rewrite (proj1 (text_formats _ Hs)), (setw0_fixed 3) by (try apply Z.mod_pos_bound; lia).
  by rewrite !sapp_length, text_length, fixed_length.
Qed.

Example timestamp_1e9 : timestamp 1000000000123456789 = "20010909 01:46:40.123"%string.
Proof. reflexivity. Qed.
End Calendar.
