(* ===== verification/AsyncLogging.v ===== *)
(** * AsyncLogging: the double-buffered log writer
    (include/knetlib/AsyncLogging.h, src/AsyncLogging.cpp)

    A buffer is its bytes; every BufferPtr is owned in one place at a time, so a
    null pointer is [None] and moving a pointer moves the bytes.  threadFunc is
    cut where it takes and releases the mutex: [collect] is the locked part of
    an iteration, [flush] the part after it, [final_flush] the code after the
    loop.  Appends of other threads come between them.  The file system is a
    map from names to contents; [disk] records every byte given to fwrite and
    [appended] every byte given to append; no definition reads them. *)

From Stdlib Require Import Ascii.
From stdpp Require Import pretty.
From S2P Require Import Prelude Calendar.

Record Fs : Type := mkFs {
  files : gmap string (list byte);
  openable : string -> bool          (* whether fopen(name, "a") succeeds *)
}.

(** The control point of the writer thread: at the test of the loop, in the loop
    before the lock is released, writing, after the loop, and not running. *)
Inductive phase : Type := AtLoop | InBody | Writing | Exiting | Stopped.

#[export] Instance phase_eq_dec : EqDecision phase.
Proof. solve_decision. Defined.

Record AsyncLogging : Type := mkAsync {
  basename_ : string;
  rollSize_ : Z;
  running_ : bool;
  currentBuffer_ : option (list byte);
  nextBuffer_ : option (list byte);
  buffers_ : list (list byte);
  (* locals of threadFunc *)
  newBuffer1 : option (list byte);
  newBuffer2 : option (list byte);
  buffersToWrite : list (list byte);
  logFile : string;
  at_ : phase;
  (* the world *)
  fs : Fs;
  disk : list byte;
  appended : list byte
}.

Module AsyncLogging.

Definition kBufferSize : Z := 65536.

(** ** File names *)

(** basename_, with ".log" unless it contains it. *)
Definition log_name (basename : string) : string :=
  match String.index 0 ".log" basename with
  | Some _ => basename
  | None => (basename ++ ".log")%string
  end.

(** std::string::find_last_of for one character. *)
Fixpoint find_last_of (c : ascii) (s : string) : option nat :=
  match s with
  | EmptyString => None
  | String a s' =>
      match find_last_of c s' with
      | Some n => Some (S n)
      | None => if Ascii.eqb a c then Some O else None
      end
  end.

Definition insert_at (pos : nat) (t s : string) : string :=
  (String.substring 0 pos s ++ t ++ String.substring pos (String.length s - pos) s)%string.

(** The rolled name: the time stamp before ".log". *)
Definition rolled_name (basename : string) (now : Z) : string :=
  let filename := log_name basename in
  match String.index 0 ".log" filename with
  | Some pos => insert_at pos (Calendar.timebuf now) filename
  | None => (filename ++ Calendar.timebuf now ++ ".log")%string
  end.

(** snprintf into a buffer of 512 characters. *)
Definition snprintf512 (s : string) : string := String.substring 0 511 s.

(** The n-th name tried when the file exists already. *)
Definition numbered (filename : string) (n : nat) : string :=
  match find_last_of "." filename with
  | Some pos =>
      snprintf512 (String.substring 0 pos filename ++ "." ++ pretty n
        ++ String.substring pos (String.length filename - pos) filename)%string
  | None => snprintf512 (filename ++ "." ++ pretty n)%string
  end.

(** access(name, F_OK) == 0 *)
Definition exists_file (f : Fs) (name : string) : bool := bool_decide (is_Some (files f !! name)).

(** while (access(finalFilename) == 0): [fuel] bounds the names tried. *)
Fixpoint free_name (f : Fs) (filename final : string) (count fuel : nat) : option string :=
  if exists_file f final then
    match fuel with
    | O => None
    | S fuel' => free_name f filename (numbered filename (S count)) (S count) fuel'
    end
  else Some final.

Definition set_files (m : gmap string (list byte)) (f : Fs) : Fs := mkFs m (openable f).

(** rename(2) *)
Definition rename (old new : string) (f : Fs) : Fs :=
  match files f !! old with
  | Some c => set_files (<[new := c]> (delete old (files f))) f
  | None => f
  end.

(** AsyncLogging::rollFile; one more attempt than there are files is enough. *)
Definition rollFile (basename : string) (now : Z) (f : Fs) : option Fs :=
  let filename := rolled_name basename now in
  match free_name f filename filename O (size (files f) + 1) with
  | None => None
  | Some final =>
      let currentFile := log_name basename in
      Some (if exists_file f currentFile then rename currentFile final f else f)
  end.

(** fopen(name, "a"), fwrite and fclose. *)
Definition append_file (name : string) (d : list byte) (f : Fs) : Fs :=
  if openable f name
  then set_files (<[name := default [] (files f !! name) ++ d]> (files f)) f
  else f.

(** ** The object *)

Definition new (basename : string) (rollSize : Z) (f : Fs) : AsyncLogging :=
  mkAsync basename rollSize false (Some []) (Some []) [] None None [] "" Stopped f [] [].

Abbreviation MA := (M AsyncLogging).

Definition set_front (cur next : option (list byte)) (bufs : list (list byte))
  (s : AsyncLogging) : AsyncLogging :=
  mkAsync (basename_ s) (rollSize_ s) (running_ s) cur next bufs (newBuffer1 s) (newBuffer2 s)
    (buffersToWrite s) (logFile s) (at_ s) (fs s) (disk s) (appended s).
Definition set_back (b1 b2 : option (list byte)) (w : list (list byte)) (p : phase)
  (s : AsyncLogging) : AsyncLogging :=
  mkAsync (basename_ s) (rollSize_ s) (running_ s) (currentBuffer_ s) (nextBuffer_ s)
    (buffers_ s) b1 b2 w (logFile s) p (fs s) (disk s) (appended s).
Definition set_world (name : string) (f : Fs) (d : list byte) (s : AsyncLogging) : AsyncLogging :=
  mkAsync (basename_ s) (rollSize_ s) (running_ s) (currentBuffer_ s) (nextBuffer_ s)
    (buffers_ s) (newBuffer1 s) (newBuffer2 s) (buffersToWrite s) name (at_ s) f d (appended s).
Definition set_running (b : bool) (s : AsyncLogging) : AsyncLogging :=
  mkAsync (basename_ s) (rollSize_ s) b (currentBuffer_ s) (nextBuffer_ s)
    (buffers_ s) (newBuffer1 s) (newBuffer2 s) (buffersToWrite s) (logFile s) (at_ s) (fs s)
    (disk s) (appended s).
Definition set_at (p : phase) (s : AsyncLogging) : AsyncLogging :=
  set_back (newBuffer1 s) (newBuffer2 s) (buffersToWrite s) p s.
Definition log_appended (d : list byte) (s : AsyncLogging) : AsyncLogging :=
  mkAsync (basename_ s) (rollSize_ s) (running_ s) (currentBuffer_ s) (nextBuffer_ s)
    (buffers_ s) (newBuffer1 s) (newBuffer2 s) (buffersToWrite s) (logFile s) (at_ s) (fs s)
    (disk s) (appended s ++ d).

(** AsyncLogging::append. *)
Definition append (logline : list byte) : MA unit :=
  s <- gets (fun s => s);;
  match currentBuffer_ s with
  | None => throw (NullDeref "AsyncLogging::append")
  | Some cur =>
      modify (log_appended logline);;;
      if zlen cur + zlen logline <? kBufferSize then
        modify (set_front (Some (cur ++ logline)) (nextBuffer_ s) (buffers_ s))
      else
        let next := match nextBuffer_ s with Some b => b | None => [] end in
        modify (set_front (Some (next ++ logline)) None (buffers_ s ++ [cur]))
  end.

(** AsyncLogging::start, and threadFunc up to its loop. *)
Definition start : MA unit :=
  modify (set_running true);;;
  modify (fun s => set_back (Some []) (Some []) [] AtLoop
            (set_world (log_name (basename_ s)) (fs s) (disk s) s)).

(** stop() up to the join. *)
Definition request_stop : MA unit := modify (set_running false).

(** while (running_) *)
Definition test : MA unit :=
  r <- gets running_;;
  modify (set_at (if r then InBody else Exiting)).

(** The locked part of an iteration, after the wait. *)
Definition collect : MA unit :=
  s <- gets (fun s => s);;
  let bufs :=
    match currentBuffer_ s with
    | Some cur => if 0 <? zlen cur then buffers_ s ++ [cur] else buffers_ s
    | None => buffers_ s
    end in
  let '(cur, bufs) :=
    match newBuffer1 s with
    | Some b => (b, bufs)
    | None =>
        match last bufs with
        | Some _ => ([], take (length bufs - 1) bufs)    (* back(), pop_back(), resize(0) *)
        | None => ([], bufs)
        end
    end in
  let '(next, b2) :=
    match nextBuffer_ s with
    | Some b => (Some b, newBuffer2 s)
    | None => (Some match newBuffer2 s with Some b => b | None => [] end, None)
    end in
  modify (set_front (Some cur) next (buffersToWrite s));;;    (* buffersToWrite.swap(buffers_) *)
  modify (set_back None b2 bufs Writing).

(** Writing one buffer, with the roll check. *)
Definition write_buffer (now : Z) (d : list byte) : MA unit :=
  s <- gets (fun s => s);;
  let big := match files (fs s) !! logFile s with
             | Some c => rollSize_ s <=? zlen c
             | None => false
             end in
  let rolled := if big then rollFile (basename_ s) now (fs s) else Some (fs s) in
  match rolled with
  | None => throw OutOfFuel
  | Some f =>
      let name := if big then log_name (basename_ s) else logFile s in
      modify (set_world name (append_file name d f)
                (disk s ++ if openable f name then d else []))
  end.

(** Reusing a written buffer, if there is one to take. *)
Definition reuse (b : option (list byte)) (w : list (list byte)) : MA (option (list byte) * list (list byte)) :=
  match b with
  | Some _ => ret (b, w)
  | None =>
      assert_ "AsyncLogging::threadFunc" (negb (bool_decide (w = [])));;;
      ret (Some [], take (length w - 1) w)
  end.

(** The loop over the buffers.  [times]: what time() returns at each of them, in
    seconds, if the file is rolled there. *)
Fixpoint write_all (times : list Z) (w : list (list byte)) : MA unit :=
  match w with
  | [] => ret tt
  | d :: w' => write_buffer (hd 0 times) d;;; write_all (tl times) w'
  end.

(** The rest of an iteration. *)
Definition flush (times : list Z) : MA unit :=
  s <- gets (fun s => s);;
  if bool_decide (buffersToWrite s = []) then
    modify (set_back (newBuffer1 s) (newBuffer2 s) [] AtLoop)
  else
    let w := if 25 <? zlen (buffersToWrite s) then ztake 2 (buffersToWrite s)
             else buffersToWrite s in
    write_all times w;;;
    let w := if 2 <? zlen w then ztake 2 w else w in
    p1 <- reuse (newBuffer1 s) w;;
    p2 <- reuse (newBuffer2 s) p1.2;;
    modify (set_back p1.1 p2.1 [] AtLoop).

(** After the loop: what is left is written, without the roll check. *)
Definition final_flush : MA unit :=
  s <- gets (fun s => s);;
  let '(cur, bufs) :=
    match currentBuffer_ s with
    | Some c => if 0 <? zlen c then (None, buffers_ s ++ [c]) else (Some c, buffers_ s)
    | None => (None, buffers_ s)
    end in
  let '(w, bufs) :=
    if bool_decide (bufs = []) then (buffersToWrite s, bufs) else (bufs, buffersToWrite s) in
  modify (set_front cur (nextBuffer_ s) bufs);;;
  modify (fun s => set_world (logFile s) (append_file (logFile s) (concat w) (fs s))
            (disk s ++ if openable (fs s) (logFile s) then concat w else []) s);;;
  modify (fun s => set_back (newBuffer1 s) (newBuffer2 s) w Stopped s).

(** The destructor. *)
Definition destroy : MA unit :=
  r <- gets running_;; when r request_stop.

(** ** Runs *)

Inductive event : Type :=
| EvAppend (logline : list byte)
| EvTest
| EvCollect
| EvFlush (times : list Z)
| EvStop
| EvFinal.

Definition run_event (e : event) : MA unit :=
  match e with
  | EvAppend l => append l
  | EvTest => test
  | EvCollect => collect
  | EvFlush t => flush t
  | EvStop => request_stop
  | EvFinal => final_flush
  end.

(** The writer's control flow: while (running_) { collect; flush } final_flush.
    The other threads append, and one calls stop(), at any time. *)
Definition may_step (e : event) (s : AsyncLogging) : bool :=
  match e, at_ s with
  | EvAppend _, _ => true
  | EvStop, _ => true
  | EvTest, AtLoop => true
  | EvCollect, InBody => true
  | EvFlush _, Writing => true
  | EvFinal, Exiting => true
  | _, _ => false
  end.
End AsyncLogging.
