(* ===== verification/AsyncLoggingSpec.v ===== *)
(** * AsyncLogging: properties

    Rolled files: a free name is found, nothing is overwritten, names sort by
    time.  Runs of the writer and the threads that append: while every iteration
    finds data only the buffers that threadFunc drops, from the third on when
    more than 25 have piled up, are lost; and what is lost after an iteration
    that finds none. *)

From Stdlib Require Import Ascii.
From stdpp Require Import pretty.
From S2P Require Import Prelude Calendar AsyncLogging.
Import AsyncLogging.

(** ** Rolled files *)

Lemma append_inj_r (a b c : string) : (a ++ c = b ++ c)%string -> a = b.
Proof.
  intros H. apply (f_equal String.list_ascii_of_string) in H.
  assert (forall s t, String.list_ascii_of_string (s ++ t)
            = (String.list_ascii_of_string s ++ String.list_ascii_of_string t)%list) as Happ.
  { intros s t. induction s as [|x s IH]; simpl; [done|]. by f_equal. }
  rewrite !Happ in H. apply app_inv_tail in H.
  rewrite <- (String.string_of_list_ascii_of_string a), H.
  apply String.string_of_list_ascii_of_string.
Qed.

Lemma string_length_app (a b : string) :
  String.length (a ++ b) = (String.length a + String.length b)%nat.
Proof. induction a; simpl; auto. Qed.

Lemma substring_all s n : (String.length s <= n)%nat -> String.substring 0 n s = s.
Proof.
  revert n. induction s as [|x s IH]; intros [|n] Hn; simpl in *; try done; try lia.
  f_equal. apply IH. lia.
Qed.

Lemma substring_split s n :
  (n <= String.length s)%nat ->
  (String.substring 0 n s ++ String.substring n (String.length s - n) s)%string = s.
Proof.
  revert n. induction s as [|x s IH]; intros [|n] Hn; simpl in *; try done; try lia.
  - cbn [String.append]. by rewrite substring_all.
  - change (String x (String.substring 0 n s ++ String.substring n (String.length s - n) s)%string
      = String x s). f_equal. apply IH. lia.
Qed.

(** The name before it is cut to 511 characters. *)
Definition full_name (filename : string) (n : nat) : string :=
  match find_last_of "." filename with
  | Some pos =>
      (String.substring 0 pos filename ++ "." ++ pretty n
        ++ String.substring pos (String.length filename - pos) filename)%string
  | None => (filename ++ "." ++ pretty n)%string
  end.

Definition short (filename : string) (n : nat) : bool :=
  (String.length (full_name filename n) <=? 511)%nat.

Lemma numbered_full filename n : short filename n = true -> numbered filename n = full_name filename n.
Proof.
  unfold short, numbered, full_name. intros Hs%Nat.leb_le.
  destruct (find_last_of "." filename); by apply substring_all.
Qed.

Lemma full_name_inj filename n m : full_name filename n = full_name filename m -> n = m.
Proof.
  unfold full_name. destruct (find_last_of "." filename) as [pos|]; intros H;
    apply (inj (String.append _)) in H; apply (inj (String.append _)) in H;
    [apply append_inj_r in H|]; by apply (inj pretty).
Qed.

Lemma find_last_of_lt c s pos : find_last_of c s = Some pos -> (pos < String.length s)%nat.
Proof.
  revert pos. induction s as [|x s IH]; simpl; intros pos; [done|].
  destruct (find_last_of c s) as [n|]; [intros [= <-]; specialize (IH n eq_refl); lia|].
  destruct (Ascii.eqb x c); [intros [= <-]; lia|done].
Qed.

Lemma full_name_longer filename n : full_name filename n <> filename.
Proof.
  intros H. apply (f_equal String.length) in H. unfold full_name in H.
  destruct (find_last_of "." filename) as [pos|] eqn:E.
  - apply find_last_of_lt in E.
    rewrite <- (substring_split filename pos) in H at 4 by lia.
    rewrite !string_length_app in H. simpl in H. lia.
  - rewrite !string_length_app in H. simpl in H. lia.
Qed.

(** The names that the loop tries: the file name, then the numbered ones. *)
Lemma free_name_none f filename final count fuel :
  free_name f filename final count fuel = None ->
  exists_file f final = true
  /\ forall i, (1 <= i <= fuel)%nat -> exists_file f (numbered filename (count + i)) = true.
Proof.
  revert final count. induction fuel as [|fuel IH]; intros final count; simpl;
    destruct (exists_file f final); try done.
  - intros _. split; [done|]. intros i Hi. lia.
  - intros Hn. apply IH in Hn as [H1 H2]. split; [done|]. intros i Hi.
    destruct i as [|[|i]]; [lia|by rewrite Nat.add_1_r|].
    replace (count + S (S i))%nat with (S count + S i)%nat by lia. apply H2. lia.
Qed.

Lemma free_name_some f filename final count fuel name :
  free_name f filename final count fuel = Some name -> exists_file f name = false.
Proof.
  revert final count. induction fuel as [|fuel IH]; intros final count; simpl;
    destruct (exists_file f final) eqn:E; try done; try (by intros [= <-]). apply IH.
Qed.

(** Counting: one attempt more than there are files finds a free name. *)
Lemma free_name_total f filename :
  (forall n, (n <= size (files f) + 1)%nat -> short filename n = true) ->
  is_Some (free_name f filename filename O (size (files f) + 1)).
Proof.
  intros Hshort. destruct (free_name _ _ _ _ _) eqn:E; [done|]. exfalso.
  apply free_name_none in E as [H0 Hn]. simpl in Hn.
  set (k := (size (files f) + 1)%nat) in *.
  set (names := filename :: map (full_name filename) (seq 1 k)).
  assert (NoDup names) as Hnd.
  { apply NoDup_cons. split.
    - intros (n & Hx & _)%list_elem_of_fmap. by apply (full_name_longer filename n).
    - apply NoDup_fmap_2_strong; [|apply NoDup_seq]. intros x y _ _. apply full_name_inj. }
  assert (list_to_set (C := gset string) names ⊆ dom (files f)) as Hsub.
  { intros x. rewrite elem_of_list_to_set, elem_of_dom. intros [->|Hx]%elem_of_cons.
    - by apply bool_decide_eq_true in H0.
    - apply list_elem_of_fmap in Hx as (n & -> & Hn'). apply elem_of_seq in Hn'.
      specialize (Hn n). rewrite numbered_full in Hn by (apply Hshort; lia).
      assert (1 <= n <= k)%nat as Hr by lia. specialize (Hn Hr).
      by apply bool_decide_eq_true in Hn. }
  apply subseteq_size in Hsub. rewrite size_list_to_set, size_dom in Hsub by done.
  subst names. simpl in Hsub. rewrite length_map, length_seq in Hsub. lia.
Qed.

Definition all_short (basename : string) (now : Z) (f : Fs) : bool :=
  forallb (short (rolled_name basename now)) (seq 0 (size (files f) + 2)).

Lemma rollFile_total basename now f :
  all_short basename now f = true -> is_Some (rollFile basename now f).
Proof.
  intros Hs. unfold rollFile.
  destruct (free_name_total f (rolled_name basename now)) as [name ->]; [|done].
  unfold all_short in Hs. rewrite forallb_forall in Hs. intros n Hn. apply Hs, in_seq. lia.
Qed.

Lemma rollFile_keeps basename now f f' :
  rollFile basename now f = Some f' ->
  openable f' = openable f /\ (size (files f') <= size (files f))%nat
  /\ (forall name c, files f !! name = Some c -> name <> log_name basename ->
        files f' !! name = Some c)
  /\ (forall c, files f !! log_name basename = Some c ->
        files f' !! log_name basename = None
        /\ exists name, files f !! name = None /\ files f' !! name = Some c
             /\ (files f !! rolled_name basename now = None -> name = rolled_name basename now)).
Proof.
  unfold rollFile. destruct (free_name _ _ _ _ _) as [final|] eqn:E; [|done].
  intros [= <-]. assert (files f !! rolled_name basename now = None -> final = rolled_name basename now) as Hfirst.
  { intros Hn. destruct (size (files f) + 1)%nat; simpl in E; unfold exists_file in E;
      rewrite bool_decide_eq_false_2 in E by (rewrite Hn; by intros [? ?]); by injection E as <-. }
  apply free_name_some in E. unfold exists_file in *.
  apply bool_decide_eq_false in E. rewrite <- eq_None_not_Some in E.
  unfold rename. destruct (files f !! log_name basename) as [c|] eqn:Ec.
  - rewrite bool_decide_eq_true_2 by done. simpl.
    assert (final <> log_name basename) as Hne by congruence. split_and!; [done| | |].
    + rewrite map_size_insert_None by (by rewrite lookup_delete_ne).
      rewrite map_size_delete, Ec. assert (size (files f) <> 0%nat); [|lia].
      intros Hz%map_size_empty_inv. rewrite Hz, lookup_empty in Ec. done.
    + intros name c' Hn Hne'. rewrite lookup_insert_ne by congruence.
      by rewrite lookup_delete_ne.
    + intros c' [= <-]. split; [by rewrite lookup_insert_ne, lookup_delete_eq|].
      exists final. by rewrite lookup_insert_eq.
  - rewrite bool_decide_eq_false_2 by (by intros [? ?]). by split_and!.
Qed.

Lemma rolled_name_compare basename t1 t2 :
  0 <= t1 < Calendar.year_10000 -> 0 <= t2 < Calendar.year_10000 ->
  String.compare (rolled_name basename t1) (rolled_name basename t2) = (t1 ?= t2).
Proof.
  intros H1 H2. unfold rolled_name, insert_at.
  destruct (String.index 0 ".log" (log_name basename));
    rewrite !Calendar.compare_app by (by rewrite ?Calendar.timebuf_length);
    rewrite !Calendar.compare_refl, Calendar.timebuf_compare by done; by destruct (t1 ?= t2).
Qed.

(** ** What is lost while every iteration finds data *)

Definition front (s : AsyncLogging) : list byte :=
  concat (buffers_ s) ++ default [] (currentBuffer_ s).

(** The bytes in memory, oldest first. *)
Definition contents (s : AsyncLogging) : list byte := concat (buffersToWrite s) ++ front s.

(** [k]: the bytes appended so far, less those dropped. *)
Record KInv (k : list byte) (s : AsyncLogging) : Prop := mkKInv {
  ai_cur : exists c, currentBuffer_ s = Some c;
  ai_data : disk s ++ contents s = k;
  ai_open : openable (fs s) (log_name (basename_ s)) = true;
  ai_file : logFile s = log_name (basename_ s);
  ai_next : nextBuffer_ s = Some []
    \/ (nextBuffer_ s = None /\ buffers_ s <> [] /\ currentBuffer_ s <> Some []);
  ai_phase : match at_ s with
    | AtLoop | InBody | Exiting => newBuffer1 s = Some [] /\ newBuffer2 s = Some [] /\ buffersToWrite s = []
    | Writing => newBuffer1 s = None /\ buffersToWrite s <> []
        /\ (newBuffer2 s = Some [] \/ (newBuffer2 s = None /\ (2 <= length (buffersToWrite s))%nat))
    | Stopped => False
    end
}.

(** Nothing has been dropped. *)
Definition AInv (s : AsyncLogging) : Prop := KInv (appended s) s.

Definition busy (s : AsyncLogging) : bool :=
  negb (bool_decide (buffers_ s = []))
  || match currentBuffer_ s with Some (_ :: _) => true | _ => false end.

(** The names that a flush may give to rolled files fit snprintf's buffer. *)
Definition fits (times : list Z) (s : AsyncLogging) : bool :=
  forallb (fun t => forallb (short (rolled_name (basename_ s) t)) (seq 0 (size (files (fs s)) + 28)))
    (0 :: times).

(** Log lines are not empty, an iteration finds data, and the names of rolled
    files fit snprintf's buffer. *)
Definition enabled (e : event) (s : AsyncLogging) : bool :=
  may_step e s
  && match e with
     | EvAppend l => negb (bool_decide (l = [])) && negb (bool_decide (at_ s = Stopped))
     | EvTest => true
     | EvCollect => busy s
     | EvFlush times => fits times s
     | EvStop => true
     | EvFinal => false
     end.

(** What happened to the bytes appended: [kept] are those written or in memory,
    [drops] counts the batches of more than 25 buffers, of which threadFunc
    writes the first two. *)
Record ghost : Type := mkGhost { kept : list byte; drops : nat }.

Definition advance (e : event) (s : AsyncLogging) (g : ghost) : ghost :=
  match e with
  | EvAppend l => mkGhost (kept g ++ l) (drops g)
  | EvFlush _ =>
      if 25 <? zlen (buffersToWrite s) then
        mkGhost (ztake (zlen (disk s) + zlen (concat (ztake 2 (buffersToWrite s)))) (kept g)
                 ++ zdrop (zlen (disk s) + zlen (concat (buffersToWrite s))) (kept g))
          (S (drops g))
      else g
  | _ => g
  end.

Lemma append_ok k l s :
  KInv k s -> l <> [] -> wp no_fault (append l) (fun _ => KInv (k ++ l)) s.
Proof.
  intros [(c & Hc) Hd Ho Hf Hn Hp] Hl. unfold append. wp_simpl. rewrite Hc. wp_simpl.
  unfold contents, front in Hd. rewrite Hc in Hd. simpl in Hd.
  case_bool; wp_simpl; constructor; unfold contents, front; simpl; try done; try by eexists.
  - rewrite <- Hd, <- !app_assoc. done.
  - destruct Hn as [Hn|(Hn & ? & ?)]; [by left|right]. split_and!; try done.
    intros [= [_ ?]%app_eq_nil]. done.
  - assert (match nextBuffer_ s with Some b => b | None => [] end = []) as ->
      by (by destruct Hn as [->|(-> & _)]).
    rewrite <- Hd, concat_app. simpl. by rewrite app_nil_r, <- !app_assoc.
  - right. split_and!; [done|by destruct (buffers_ s)|]. intros [= [_ ?]%app_eq_nil]. done.
Qed.

(** What collect takes when there is something to take. *)
Lemma collect_bufs s c :
  currentBuffer_ s = Some c ->
  let bufs := if 0 <? zlen c then buffers_ s ++ [c] else buffers_ s in
  concat bufs = front s /\ (busy s = true -> bufs <> [])
  /\ (buffers_ s <> [] -> c <> [] -> (2 <= length bufs)%nat).
Proof.
  intros Hc bufs. unfold front, busy, bufs. rewrite Hc. simpl.
  assert (0 < zlen c <-> c <> []) as Hz.
  { unfold zlen. destruct c; simpl; split; intros; try done; try lia. }
  case_bool.
  - rewrite concat_app. simpl. rewrite app_nil_r. split_and!; [done|by destruct (buffers_ s)|].
    intros Hb _. rewrite length_app. simpl. destruct (buffers_ s); [done|simpl; lia].
  - assert (c = []) as -> by (destruct c; [done|]; unfold zlen in *; simpl in *; lia).
    rewrite app_nil_r. split_and!; [done| |done]. rewrite orb_false_r.
    intros Hb%negb_true_iff%bool_decide_eq_false. done.
Qed.

Lemma collect_ok k s :
  KInv k s -> at_ s = InBody -> busy s = true -> wp no_fault collect (fun _ => KInv k) s.
Proof.
  intros [(c & Hc) Hd Ho Hf Hn Hp] Hat Hb. rewrite Hat in Hp. destruct Hp as (H1 & H2 & Hw).
  unfold collect. wp_simpl. rewrite Hc, H1, H2, Hw.
  destruct (collect_bufs s c Hc) as (Hcat & Hne & Hlen).
  set (bufs := if 0 <? zlen c then _ else _) in *.
  unfold contents in Hd. rewrite Hw in Hd. simpl in Hd.
  destruct Hn as [Hn|(Hn & Hbn & Hcn)]; rewrite Hn; wp_simpl;
    constructor; unfold contents, front in *; simpl; try done; try (by eexists);
    try (by rewrite app_nil_r, Hcat); try (by left).
  - split_and!; [done|by apply Hne|by left].
  - split_and!; [done|by apply Hne|]. right. split; [done|]. apply Hlen; [done|]. congruence.
Qed.

(** Writing one buffer. *)
Lemma write_buffer_ok t d s :
  openable (fs s) (log_name (basename_ s)) = true -> logFile s = log_name (basename_ s) ->
  (forall n, (n <= size (files (fs s)) + 1)%nat ->
     short (rolled_name (basename_ s) t) n = true) ->
  wp no_fault (write_buffer t d)
    (fun _ s' => exists f, s' = set_world (logFile s) f (disk s ++ d) s
       /\ openable f = openable (fs s) /\ (size (files f) <= size (files (fs s)) + 1)%nat) s.
Proof.
  intros Ho Hf Hs. unfold write_buffer. wp_simpl.
  set (big := match files (fs s) !! logFile s with Some _ => _ | None => _ end).
  assert (exists f, (if big then rollFile (basename_ s) t (fs s) else Some (fs s)) = Some f
    /\ openable f = openable (fs s) /\ (size (files f) <= size (files (fs s)))%nat)
    as (f & Hr & Hop & Hsz).
  { destruct big; [|by eexists].
    destruct (free_name_total (fs s) (rolled_name (basename_ s) t) Hs) as [name Hname].
    destruct (rollFile (basename_ s) t (fs s)) as [f|] eqn:E.
    - apply rollFile_keeps in E as (? & ? & _). by exists f.
    - unfold rollFile in E. by rewrite Hname in E. }
  rewrite Hr. assert ((if big then log_name (basename_ s) else logFile s) = logFile s) as ->
    by (destruct big; by rewrite ?Hf).
  wp_simpl. rewrite Hop, Hf, Ho.
  exists (append_file (logFile s) d f). unfold append_file. rewrite Hop, Hf, Ho. simpl.
  split_and!; [done|done|].
  destruct (files f !! log_name (basename_ s)) as [x|] eqn:E.
  - rewrite map_size_insert_Some by done. lia.
  - rewrite map_size_insert_None by done. lia.
Qed.

Lemma write_all_ok times w s :
  openable (fs s) (log_name (basename_ s)) = true -> logFile s = log_name (basename_ s) ->
  (forall t n, In t (0 :: times) -> (n <= size (files (fs s)) + length w)%nat ->
     short (rolled_name (basename_ s) t) n = true) ->
  wp no_fault (write_all times w)
    (fun _ s' => exists f, s' = set_world (logFile s) f (disk s ++ concat w) s
       /\ openable f = openable (fs s)) s.
Proof.
  revert times s. induction w as [|d w IH]; intros times s Ho Hf Hs; simpl.
  { wp_simpl. exists (fs s). rewrite app_nil_r. split; [by destruct s|done]. }
  wp_simpl. wp_call write_buffer_ok; [done|done|intros n Hn; apply Hs; [destruct times; simpl; auto|simpl; lia]|].
  intros _ s1 (f & -> & Hop & Hsz).
  wp_call IH; simpl; [by rewrite Hop|done|intros t n Ht Hn; apply Hs; [destruct times; simpl in *; tauto|simpl; lia]|].
  intros _ s2 (f2 & -> & Hop2). exists f2. rewrite <- app_assoc. split; [done|congruence].
Qed.

Lemma ztake_zlen_app {A} (l l' : list A) : ztake (zlen l) (l ++ l') = l.
Proof. unfold ztake, zlen. by rewrite Nat2Z.id, take_app_length. Qed.

Lemma zdrop_zlen_app {A} (l l' : list A) : zdrop (zlen l) (l ++ l') = l'.
Proof. unfold zdrop, zlen. by rewrite Nat2Z.id, drop_app_length. Qed.

(** The buffers that a batch gives to fwrite, and what that leaves of the bytes
    kept so far. *)
Definition batch (s : AsyncLogging) : list (list byte) :=
  if 25 <? zlen (buffersToWrite s) then ztake 2 (buffersToWrite s) else buffersToWrite s.

Lemma advance_kept times k n s :
  disk s ++ contents s = k ->
  kept (advance (EvFlush times) s (mkGhost k n)) = disk s ++ concat (batch s) ++ front s.
Proof.
  intros <-. unfold advance, batch, contents. destruct (25 <? _); simpl; [|done].
  rewrite <- !zlen_app. set (w := buffersToWrite s). rewrite (app_assoc (disk s) (concat w)).
  rewrite zdrop_zlen_app. rewrite <- (take_drop 2 w) at 2. rewrite concat_app.
  rewrite !(app_assoc (disk s)), <- (app_assoc _ _ (front s)), ztake_zlen_app. done.
Qed.

Lemma batch_nonempty s :
  buffersToWrite s <> [] -> batch s <> []
  /\ ((2 <= length (buffersToWrite s))%nat -> (2 <= length (batch s))%nat).
Proof.
  unfold batch, ztake, zlen. destruct (buffersToWrite s) as [|x [|y l]]; [done| |];
    case_bool; simpl in *; split; try done; try lia.
Qed.

Lemma flush_ok times k n s :
  KInv k s -> at_ s = Writing -> fits times s = true ->
  wp no_fault (flush times) (fun _ => KInv (kept (advance (EvFlush times) s (mkGhost k n)))) s.
Proof.
  intros [Hc Hd Ho Hf Hn Hp] Hat Hshort. rewrite Hat in Hp.
  destruct Hp as (H1 & Hw & H2). unfold flush. wp_simpl.
  rewrite bool_decide_eq_false_2 by done. rewrite (advance_kept times k n s Hd). fold (batch s).
  destruct (batch_nonempty s Hw) as [Hb0 Hb2].
  wp_simpl. wp_call write_all_ok; [done|done| |].
  { intros t m Ht Hn'. unfold fits in Hshort. rewrite forallb_forall in Hshort.
    specialize (Hshort t Ht). rewrite forallb_forall in Hshort. apply Hshort, in_seq.
    assert (length (batch s) <= 25)%nat; [|lia].
    unfold batch, ztake, zlen. case_bool; [rewrite length_take|]; lia. }
  intros _ s1 (f & -> & Hop). wp_simpl. unfold reuse. rewrite H1.
  set (w := if 2 <? zlen (batch s) then _ else _).
  assert (w <> [] /\ ((2 <= length (buffersToWrite s))%nat -> length w = 2%nat)) as [Hw0 Hw2].
  { unfold w, ztake, zlen. destruct (batch s) as [|x [|y l]]; [done| |].
    - simpl in *. split; [done|lia].
    - destruct l; simpl; [done|]. rewrite (proj2 (Z.ltb_lt _ _)) by lia. done. }
  rewrite bool_decide_eq_false_2 by done. wp_simpl. simpl.
  assert (forall b2, b2 = Some [] -> KInv (disk s ++ concat (batch s) ++ front s)
            (set_back (Some []) b2 [] AtLoop
              (set_world (logFile s) f (disk s ++ concat (batch s)) s))) as Hfin.
  { intros b2 ->. constructor; simpl; try done; [|by rewrite Hop].
    unfold contents. simpl. by rewrite <- app_assoc. }
  destruct H2 as [H2|[H2 Hge]]; rewrite H2; wp_simpl; simpl.
  - by apply Hfin.
  - specialize (Hw2 Hge). rewrite bool_decide_eq_false_2.
    + wp_simpl. simpl. by apply Hfin.
    + intros E. apply (f_equal length) in E. rewrite length_take, Hw2 in E. simpl in E. lia.
Qed.

(** ** Runs *)

Inductive reach (s0 : AsyncLogging) : ghost -> AsyncLogging -> Prop :=
| reach_start : reach s0 (mkGhost (appended s0) 0) s0
| reach_step g s s' e :
    reach s0 g s -> enabled e s = true -> run_event e s = Ok (tt, s') ->
    reach s0 (advance e s g) s'.

Fixpoint play (es : list event) (g : ghost) (s : AsyncLogging) : option (ghost * AsyncLogging) :=
  match es with
  | [] => Some (g, s)
  | e :: es' =>
      if enabled e s then
        match run_event e s with Ok (_, s') => play es' (advance e s g) s' | Err _ => None end
      else None
  end.

Lemma async_play_reach es s0 g s g' s' :
  reach s0 g s -> play es g s = Some (g', s') -> reach s0 g' s'.
Proof.
  revert g s. induction es as [|e es IH]; simpl; intros g s Hr; [by intros [= <- <-]|].
  destruct (enabled e s) eqn:He; [|done].
  destruct (run_event e s) as [[[] s1]|] eqn:E; [|done]. apply IH. by apply (reach_step s0 g s s1 e).
Qed.

Lemma start_ok basename rollSize f :
  openable f (log_name basename) = true -> wp no_fault start (fun _ => AInv) (new basename rollSize f).
Proof. intros Ho. unfold start. wp_simpl. constructor; simpl; try done; [by eexists|by left]. Qed.

Lemma async_run_event_ok e g s :
  KInv (kept g) s -> enabled e s = true ->
  wp no_fault (run_event e) (fun _ => KInv (kept (advance e s g))) s.
Proof.
  intros Hi [Hm He]%andb_prop. destruct g as [k n]. destruct e as [l| | |t| |]; try done.
  - apply andb_prop in He as [Hl%negb_true_iff%bool_decide_eq_false _]. by apply append_ok.
  - unfold run_event, test. wp_simpl. destruct Hi as [? ? ? ? ? Hp]. simpl in Hm.
    destruct (at_ s) eqn:E; try done. by destruct (running_ s); constructor.
  - apply collect_ok; [done| |done]. simpl in Hm. by destruct (at_ s).
  - apply flush_ok; [done| |done]. simpl in Hm. by destruct (at_ s).
  - unfold run_event, request_stop. wp_simpl. by destruct Hi; constructor.
Qed.

Lemma write_all_appended times w s :
  wp (fun _ => True) (write_all times w) (fun _ s' => appended s' = appended s) s.
Proof.
  revert times s. induction w as [|d w IH]; intros times s; simpl; [by wp_simpl|].
  wp_simpl. unfold write_buffer at 1. wp_simpl. case_match; wp_simpl; [|done].
  wp_call IH. by intros _ s' ->.
Qed.

(** Only append adds to the bytes appended. *)
Lemma run_event_appended e s s' :
  run_event e s = Ok (tt, s') ->
  appended s' = match e with EvAppend l => appended s ++ l | _ => appended s end.
Proof.
  intros E. assert (wp (fun _ => True) (run_event e) (fun _ s' =>
    appended s' = match e with EvAppend l => appended s ++ l | _ => appended s end) s) as Hwp;
    [|unfold wp in Hwp; by rewrite E in Hwp].
  clear E s'. destruct e as [l| | |t| |]; unfold run_event.
  - unfold append. wp_simpl. destruct (currentBuffer_ s); [|by rewrite wp_throw].
    wp_simpl. by case_bool; wp_simpl.
  - unfold test. by wp_simpl.
  - unfold collect. wp_simpl. repeat case_match; by wp_simpl.
  - unfold flush, reuse. wp_simpl. case_match; wp_simpl; [done|]. wp_call write_all_appended.
    intros _ s1 E. destruct (newBuffer1 s), (newBuffer2 s); wp_simpl; simpl; wp_simpl;
      repeat (case_bool; wp_simpl; simpl; wp_simpl); done.
  - unfold request_stop. by wp_simpl.
  - unfold final_flush. wp_simpl. repeat case_match; by wp_simpl.
Qed.

(** The bytes kept are the bytes appended, some of them dropped. *)
Record ghost_ok (g : ghost) (s : AsyncLogging) : Prop := mkGhostOk {
  gh_sub : kept g `sublist_of` appended s;
  gh_all : drops g = O -> kept g = appended s
}.

Lemma sublist_cut {A} (l : list A) i j :
  0 <= i <= j -> (ztake i l ++ zdrop j l) `sublist_of` l.
Proof.
  intros Hij. rewrite <- (take_drop (Z.to_nat i) l) at 3. apply sublist_app; [done|].
  unfold zdrop. replace (Z.to_nat j) with (Z.to_nat i + (Z.to_nat j - Z.to_nat i))%nat by lia.
  rewrite <- drop_drop. apply sublist_drop.
Qed.

Lemma zlen_concat_ztake {A} n (w : list (list A)) : zlen (concat (ztake n w)) <= zlen (concat w).
Proof.
  rewrite <- (take_drop (Z.to_nat n) w) at 2. rewrite concat_app, zlen_app. unfold ztake.
  pose proof (zlen_nonneg (concat (drop (Z.to_nat n) w))). lia.
Qed.

Lemma advance_ghost e g s s' :
  ghost_ok g s -> run_event e s = Ok (tt, s') -> ghost_ok (advance e s g) s'.
Proof.
  intros [Hsub Hall] E. pose proof (run_event_appended e s s' E) as Ha.
  destruct e as [l| | |t| |]; simpl; try (constructor; rewrite Ha; done).
  - constructor; rewrite Ha; simpl; [by apply sublist_app|]. intros Hn. by rewrite Hall.
  - destruct (25 <? _); [|by constructor; rewrite Ha]. constructor; rewrite Ha; simpl; [|done].
    etrans; [apply sublist_cut|done].
    pose proof (zlen_nonneg (disk s)). pose proof (zlen_nonneg (concat (ztake 2 (buffersToWrite s)))).
    pose proof (zlen_concat_ztake 2 (buffersToWrite s)). lia.
Qed.

Lemma reach_KInv s0 g s :
  AInv s0 -> reach s0 g s -> KInv (kept g) s /\ ghost_ok g s.
Proof.
  intros H0. induction 1 as [|g s s' e _ [IH Hg] He Hr]; [by split|].
  pose proof (async_run_event_ok e g s IH He) as Hwp. unfold wp in Hwp. rewrite Hr in Hwp.
  split; [done|]. by eapply advance_ghost.
Qed.

Lemma final_flush_kept k s :
  KInv k s -> may_step EvFinal s = true ->
  wp no_fault final_flush (fun _ s' => disk s' = k /\ appended s' = appended s) s.
Proof.
  intros [(c & Hc) Hd Ho Hf _ Hp] Hm. simpl in Hm. destruct (at_ s); try done.
  destruct Hp as (_ & _ & Hw). unfold final_flush. wp_simpl. rewrite Hc.
  destruct (collect_bufs s c Hc) as (Hcat & _).
  unfold contents in Hd. rewrite Hw in *. simpl in Hd. rewrite <- Hcat in Hd.
  clear Hcat. destruct (0 <? zlen c).
  - rewrite bool_decide_eq_false_2 by (by destruct (buffers_ s)). wp_simpl. simpl.
    by rewrite Hf, Ho.
  - case_bool.
    + apply bool_decide_eq_true in E. wp_simpl. simpl. by rewrite Hf, Ho, <- Hd, E.
    + wp_simpl. simpl. by rewrite Hf, Ho.
Qed.

Lemma idle_collect k s :
  KInv k s -> at_ s = InBody -> busy s = false ->
  collect s = Ok (tt, set_back None (Some []) [] Writing (set_front (Some []) (Some []) [] s))
  /\ contents s = [].
Proof.
  intros [(c & Hc) Hd Ho Hf Hn Hp] Hat [Hb1 Hb2]%orb_false_iff. rewrite Hat in Hp.
  destruct Hp as (H1 & H2 & Hw). apply negb_false_iff, bool_decide_eq_true in Hb1.
  rewrite Hc in Hb2. assert (c = []) as -> by by destruct c.
  destruct Hn as [Hn|(_ & Hbn & _)]; [|done].
  unfold collect, contents, front, bind, gets, modify. rewrite Hc, Hb1, H1, H2, Hw, Hn. by simpl.
Qed.

Lemma appends_fit ls s c :
  currentBuffer_ s = Some c -> zlen c + zlen (concat ls) < kBufferSize ->
  wp no_fault (forM ls append)
    (fun _ s' => s' = set_front (Some (c ++ concat ls)) (nextBuffer_ s) (buffers_ s)
                        (log_appended (concat ls) s)) s.
Proof.
  revert s c. induction ls as [|l ls IH]; intros s c Hc Hz; simpl in *.
  { wp_simpl. rewrite app_nil_r. destruct s; simpl in *. unfold log_appended, set_front. simpl.
    by rewrite Hc, app_nil_r. }
  rewrite zlen_app in Hz. pose proof (zlen_nonneg (concat ls)).
  wp_simpl. unfold append at 1. wp_simpl. rewrite Hc. wp_simpl.
  rewrite (proj2 (Z.ltb_lt _ _)) by lia. wp_simpl.
  wp_call (IH _ (c ++ l)); [done|rewrite zlen_app; lia|].
  intros _ s' ->. unfold set_front, log_appended. simpl. by rewrite <- !app_assoc.
Qed.

(** ** Properties *)

(** C21: what is written, and what is lost.  Let fopen of the log file succeed, and
    take any run of the writer from start() with the threads that append, in
    which no log line is empty, every iteration finds data, and the names of
    rolled files fit snprintf's buffer ([enabled]).  Then the bytes written to
    files followed by the bytes in memory are the bytes appended, in order, less
    the buffers dropped: of a batch of more than 25 buffers threadFunc writes the
    first two, and what the others held is cut out ([advance]), the rest stays;
    without such a batch nothing is missing.  No assert fails, and when stop()
    lets the thread finish, everything kept has been written. *)
Theorem nothing_lost basename rollSize f s0 g s :
  openable f (log_name basename) = true ->
  start (new basename rollSize f) = Ok (tt, s0) -> reach s0 g s ->
  disk s ++ contents s = kept g
  /\ kept g `sublist_of` appended s /\ (drops g = O -> kept g = appended s)
  /\ (forall e, enabled e s = true -> exists s', run_event e s = Ok (tt, s'))
  /\ (may_step EvFinal s = true -> exists s', final_flush s = Ok (tt, s') /\ disk s' = kept g).
Proof.
  intros Ho Hs Hr. pose proof (start_ok basename rollSize f Ho) as H0.
  unfold wp in H0. rewrite Hs in H0. destruct (reach_KInv s0 g s H0 Hr) as [Hi [Hg1 Hg2]].
  split_and!; [by destruct Hi|done|done|..].
  - intros e He. apply (async_run_event_ok e g s Hi), wp_ok in He as ([] & s' & ? & _). by exists s'.
  - intros Hm. apply (final_flush_kept (kept g) s Hi), wp_ok in Hm as ([] & s' & ? & ? & _). by exists s'.
Qed.

Definition empty_fs : Fs := mkFs ∅ (fun _ => true).
Definition s_start : AsyncLogging :=
  match start (new "app" 4 empty_fs) with Ok (_, s) => s | Err _ => new "" 0 empty_fs end.
Definition line (b : byte) : list byte := replicate 6 b.
(** The second write finds the file full and rolls it. *)
Definition async_script : list event :=
  [ EvAppend (line x61); EvTest; EvCollect; EvAppend (line x62); EvFlush [0]; EvTest; EvStop;
    EvCollect; EvFlush [0]; EvAppend (line x63); EvTest ].
Definition g_start : ghost := mkGhost [] 0.
Definition gs_async : ghost * AsyncLogging :=
  default (g_start, s_start) (play async_script g_start s_start).
Definition s_async : AsyncLogging := gs_async.2.

Lemma nothing_lost_witness :
  (disk s_async ++ contents s_async = appended s_async)
  /\ (exists s', final_flush s_async = Ok (tt, s')
        /\ files (fs s') !! "app.19700101-000000.log" = Some (line x61)
        /\ files (fs s') !! "app.log" = Some (line x62 ++ line x63)).
Proof.
  destruct (nothing_lost "app" 4 empty_fs s_start gs_async.1 s_async) as (Hd & _ & Hg & _ & Hf).
  - reflexivity.
  - reflexivity.
  - apply (async_play_reach async_script s_start g_start s_start); [apply reach_start|vm_compute; reflexivity].
  - split; [etransitivity; [exact Hd|apply Hg; vm_compute; reflexivity]|].
    destruct Hf as (s' & Hs' & _); [vm_compute; reflexivity|].
    exists s'. split; [exact Hs'|]. clear Hd Hg. vm_compute in Hs'. injection Hs' as <-.
    split; vm_compute; reflexivity.
Defined.

(** An iteration that finds nothing leaves newBuffer1 null, and then up to a
    buffer of log lines is lost: the next iteration takes the buffer it has just
    queued for writing, clears it and writes nothing. *)
Lemma idle_flush_loses basename rollSize f s0 g s t ls :
  openable f (log_name basename) = true ->
  start (new basename rollSize f) = Ok (tt, s0) -> reach s0 g s ->
  at_ s = InBody -> busy s = false -> running_ s = true -> zlen (concat ls) < kBufferSize ->
  exists s', (collect ;;; flush t ;;; test ;;; forM ls append ;;; collect ;;; flush t) s
      = Ok (tt, s')
    /\ appended s' = appended s ++ concat ls /\ disk s' = disk s /\ contents s' = [].
Proof.
  intros Ho Hs Hr Hat Hb Hrun Hz. pose proof (start_ok basename rollSize f Ho) as H0.
  unfold wp in H0. rewrite Hs in H0. destruct (reach_KInv s0 g s H0 Hr) as [Hi _].
  destruct (idle_collect (kept g) s Hi Hat Hb) as [Hcol Hcon]. pose proof Hi as [_ _ _ _ _ Hp].
  destruct Hi as [(c & Hc) _ _ _ Hn _]. rewrite Hat in Hp. destruct Hp as (_ & _ & Hw).
  apply orb_false_iff in Hb as [Hb%negb_false_iff%bool_decide_eq_true _].
  assert (wp no_fault (collect ;;; flush t ;;; test ;;; forM ls append ;;; collect ;;; flush t)
    (fun _ s' => appended s' = appended s ++ concat ls /\ disk s' = disk s /\ contents s' = []) s)
    as Hwp; [|apply wp_ok in Hwp as ([] & s' & ? & ?); by exists s'].
  wp_simpl. eapply wp_of_ok; [exact Hcol|]. unfold flush at 1. wp_simpl. simpl. wp_simpl.
  unfold test. wp_simpl. simpl. rewrite Hrun.
  wp_call (appends_fit ls _ []); [done|done|]. intros _ s' ->. simpl.
  unfold collect. wp_simpl. simpl.
  destruct (0 <? zlen (concat ls)) eqn:E; simpl; wp_simpl; unfold flush; wp_simpl; simpl; wp_simpl;
    unfold contents, front; by simpl.
Qed.

Definition s_idle : AsyncLogging := (default (g_start, s_start) (play [EvTest] g_start s_start)).2.

Lemma idle_flush_loses_witness :
  exists s', (collect ;;; flush [0] ;;; test ;;; forM [line x61] append ;;; collect ;;; flush [0])
      s_idle = Ok (tt, s')
    /\ appended s' = line x61 /\ disk s' = [] /\ contents s' = [].
Proof.
  apply (idle_flush_loses "app" 4 empty_fs s_start g_start s_idle [0] [line x61]).
  - reflexivity.
  - reflexivity.
  - apply (async_play_reach [EvTest] s_start g_start s_start); [apply reach_start|reflexivity].
  - reflexivity.
  - reflexivity.
  - reflexivity.
  - vm_compute. reflexivity.
Defined.

(** C24: rollFile terminates with a name that was free: the current file's bytes
    are kept under that name, no other file changes, and the current name is
    free again.  The name is the one with the time stamp if that is free; and
    names with stamps of different seconds sort like the seconds, up to the
    year 9999. *)
Theorem rollFile_preserves basename now f :
  all_short basename now f = true ->
  exists f', rollFile basename now f = Some f'
    /\ (forall name c, files f !! name = Some c -> name <> log_name basename ->
          files f' !! name = Some c)
    /\ (forall c, files f !! log_name basename = Some c ->
          files f' !! log_name basename = None
          /\ exists name, files f !! name = None /\ files f' !! name = Some c
             /\ (files f !! rolled_name basename now = None -> name = rolled_name basename now))
    /\ (forall later, 0 <= now < Calendar.year_10000 -> 0 <= later < Calendar.year_10000 ->
          String.compare (rolled_name basename now) (rolled_name basename later) = (now ?= later)).
Proof.
  intros [f' Hf]%rollFile_total. exists f'. split; [done|].
  apply rollFile_keeps in Hf as (_ & _ & H1 & H2). split_and!; [done|done|].
  intros later. apply rolled_name_compare.
Qed.

(** The rolled name and the first numbered one are taken. *)
Definition full_fs : Fs :=
  mkFs (list_to_map [("app.log", line x61); ("app.19700101-000000.log", line x62); ("app.19700101-000000.1.log", line x63)])
    (fun _ => true).

Lemma rollFile_preserves_witness :
  exists f', rollFile "app" 0 full_fs = Some f'
    /\ files f' !! "app.19700101-000000.2.log" = Some (line x61) /\ files f' !! "app.log" = None.
Proof.
  destruct (rollFile_preserves "app" 0 full_fs) as (f' & Hf & _ & Hc & _);
    [vm_compute; reflexivity|].
  exists f'. split; [exact Hf|].
  destruct (Hc (line x61)) as [Hnone _]; [vm_compute; reflexivity|].
  split; [|exact Hnone]. clear Hc Hnone. vm_compute in Hf. injection Hf as <-.
  vm_compute. reflexivity.
Defined.
