(* ===== verification/Logger.v ===== *)
(** * Logger: the log macros, their sinks and their configuration
    (include/knetlib/Logger.h, src/Logger.cpp)

    The global variables of the logger are one state.  The asynchronous writer
    is the object of AsyncLogging, which shares the file system with the
    synchronous sink; its thread's steps are events of a run.  A log call
    returns whether it ends in abort().  What a call takes from its environment
    (time, process id, errno text, formatted message) is part of [Call].  An
    open file is known by its name. *)

From Stdlib Require Import Ascii.
From stdpp Require Import pretty.
From S2P Require Import Prelude Calendar AsyncLogging AsyncLoggingSpec.

Inductive LOG_LEVEL : Type :=
| LOG_LEVEL_TRACE | LOG_LEVEL_DEBUG | LOG_LEVEL_INFO | LOG_LEVEL_WARN | LOG_LEVEL_ERROR
| LOG_LEVEL_FATAL.

Record Logger : Type := mkLogger {
  logFileName : string;
  ofs : option string;              (* the file that ofs is open on *)
  asyncLogging : option AsyncLogging;
  useAsyncLogging : bool;
  logLevel : LOG_LEVEL;
  cout : list byte;
  lfs : Fs
}.

Record Call : Type := mkCall {
  c_now : Z;            (* system_clock::now(), in nanoseconds *)
  c_pid : Z;            (* getpid() *)
  c_strerror : string;  (* strerror(errno) *)
  c_msg : string;       (* what printf would produce from fmt and args *)
  c_file : string;      (* __FILE__ *)
  c_line : Z            (* __LINE__ *)
}.

Inductive Macro : Type := TRACE | DEBUG | INFO | WARN | ERROR | FATAL | SYSERR | SYSFATAL.

Module Logger.

(** static_cast<unsigned>(level) *)
Definition level_num (l : LOG_LEVEL) : Z :=
  match l with
  | LOG_LEVEL_TRACE => 0 | LOG_LEVEL_DEBUG => 1 | LOG_LEVEL_INFO => 2 | LOG_LEVEL_WARN => 3
  | LOG_LEVEL_ERROR => 4 | LOG_LEVEL_FATAL => 5
  end.

Definition logLevelStr (l : LOG_LEVEL) : string :=
  match l with
  | LOG_LEVEL_TRACE => "[ TRACE]" | LOG_LEVEL_DEBUG => "[ DEBUG]" | LOG_LEVEL_INFO => "[  INFO]"
  | LOG_LEVEL_WARN => "[  WARN]" | LOG_LEVEL_ERROR => "[ ERROR]" | LOG_LEVEL_FATAL => "[ FATAL]"
  end.

(** The initial level, without and with NDEBUG. *)
Definition initial_level (ndebug : bool) : LOG_LEVEL :=
  if ndebug then LOG_LEVEL_INFO else LOG_LEVEL_DEBUG.

(** ** Lines *)

(** std::setfill(' ') << std::setw(5) *)
Definition setw5 (s : string) : string :=
  (String.substring 0 (5 - String.length s) "     " ++ s)%string.

(** A char array read as a C string. *)
Fixpoint c_string (s : string) : string :=
  match s with
  | EmptyString => EmptyString
  | String a s' => if Ascii.eqb a "000"%char then EmptyString else String a (c_string s')
  end.

(** snprintf into char buffer[4096], read back. *)
Definition buffer4096 (msg : string) : string := c_string (String.substring 0 4095 msg).

(** strrchr(file.c_str(), '/') *)
Definition filename (file : string) : string :=
  match AsyncLogging.find_last_of "/" file with
  | Some pos => String.substring (pos + 1) (String.length file - (pos + 1)) file
  | None => file
  end.

Definition newline : string := String "010"%char EmptyString.
Definition decimal (n : Z) : string := pretty n.

Definition logBase_line (l : LOG_LEVEL) (c : Call) : string :=
  (Calendar.timestamp (c_now c) ++ " [" ++ setw5 (decimal (c_pid c)) ++ "]" ++ " " ++ logLevelStr l ++ " "
   ++ buffer4096 (c_msg c) ++ " - " ++ filename (c_file c) ++ ":" ++ decimal (c_line c) ++ newline)%string.

Definition logSys_line (to_abort : bool) (c : Call) : string :=
  (Calendar.timestamp (c_now c) ++ " [" ++ setw5 (decimal (c_pid c)) ++ "] "
   ++ (if to_abort then "[ SYSFA] " else "[SYSERR] ")
   ++ buffer4096 (c_msg c) ++ ": " ++ c_strerror c ++ " - " ++ filename (c_file c) ++ ":"
   ++ decimal (c_line c) ++ newline)%string.

(** ** State *)
Definition set_sync (name : string) (o : option string) (s : Logger) : Logger :=
  mkLogger name o (asyncLogging s) (useAsyncLogging s) (logLevel s) (cout s) (lfs s).
Definition set_async (a : option AsyncLogging) (use : bool) (s : Logger) : Logger :=
  mkLogger (logFileName s) (ofs s) a use (logLevel s) (cout s) (lfs s).
Definition set_level (l : LOG_LEVEL) (s : Logger) : Logger :=
  mkLogger (logFileName s) (ofs s) (asyncLogging s) (useAsyncLogging s) l (cout s) (lfs s).
Definition set_out (o : list byte) (f : Fs) (s : Logger) : Logger :=
  mkLogger (logFileName s) (ofs s) (asyncLogging s) (useAsyncLogging s) (logLevel s) o f.

Definition init (ndebug : bool) (f : Fs) : Logger :=
  mkLogger "" None None false (initial_level ndebug) [] f.

Abbreviation ML := (M Logger).

Definition with_fs (f : Fs) (a : AsyncLogging) : AsyncLogging :=
  AsyncLogging.set_world (logFile a) f (disk a) a.

(** A step of the asynchronous object, if there is one. *)
Definition on_async (m : M AsyncLogging unit) : ML unit :=
  s <- gets (fun s => s);;
  match asyncLogging s with
  | None => ret tt
  | Some a =>
      match m (with_fs (lfs s) a) with
      | Ok (_, a') =>
          modify (fun s => set_out (cout s) (fs a') (set_async (Some a') (useAsyncLogging s) s))
      | Err f => throw f
      end
  end.

Definition bytes (s : string) : list byte := String.list_byte_of_string s.

Definition appendToAsyncLog (line : string) : ML unit := on_async (AsyncLogging.append (bytes line)).

(** ofs << output << std::flush: nothing if ofs is not open. *)
Definition write_ofs (line : string) (s : Logger) : Logger :=
  match ofs s with
  | None => s
  | Some n =>
      set_out (cout s)
        (AsyncLogging.set_files (<[n := default [] (files (lfs s) !! n) ++ bytes line]> (files (lfs s)))
           (lfs s)) s
  end.

Definition to_stdout (s : Logger) : bool :=
  String.eqb (logFileName s) "" || String.eqb (logFileName s) "stdout".

(** The end of logSys and logBase. *)
Definition emit (line : string) (to_abort : bool) : ML unit :=
  s <- gets (fun s => s);;
  if useAsyncLogging s && negb to_abort then appendToAsyncLog line
  else if to_stdout s then modify (fun s => set_out (cout s ++ bytes line) (lfs s) s)
  else modify (write_ofs line).

Definition logSys (to_abort : bool) (c : Call) : ML bool :=
  emit (logSys_line to_abort c) to_abort;;; ret to_abort.

Definition logBase (l : LOG_LEVEL) (to_abort : bool) (c : Call) : ML bool :=
  s <- gets (fun s => s);;
  if level_num l <? level_num (logLevel s) then ret false
  else emit (logBase_line l c) to_abort;;; ret to_abort.

(** The macros. *)
Definition log (m : Macro) (c : Call) : ML bool :=
  match m with
  | TRACE => logBase LOG_LEVEL_TRACE false c
  | DEBUG => logBase LOG_LEVEL_DEBUG false c
  | INFO => logBase LOG_LEVEL_INFO false c
  | WARN => logBase LOG_LEVEL_WARN false c
  | ERROR => logBase LOG_LEVEL_ERROR false c
  | FATAL => logBase LOG_LEVEL_FATAL true c
  | SYSERR => logSys false c
  | SYSFATAL => logSys true c
  end.

Definition setLogLevel (l : LOG_LEVEL) : ML unit := modify (set_level l).

(** ofs.open(name, out | app).  The file is created; an empty name cannot be
    opened; on a stream that is open the call fails, after which it takes no
    output. *)
Definition open_ofs (name : string) (s : Logger) : Logger :=
  if negb (String.eqb name "") && openable (lfs s) name && bool_decide (ofs s = None) then
    set_out (cout s)
      (AsyncLogging.set_files (<[name := default [] (files (lfs s) !! name)]> (files (lfs s))) (lfs s))
      (set_sync (logFileName s) (Some name) s)
  else set_sync (logFileName s) None s.

Definition setLogFile (fileName : string) : ML unit :=
  s <- gets (fun s => s);;
  when (negb (to_stdout s)) (modify (fun s => set_sync (logFileName s) None s));;;
  when (negb (String.eqb fileName "stdout")) (modify (open_ofs fileName));;;
  modify (fun s => set_sync fileName (ofs s) s).

(** What is left of the writer thread when stop() joins it; [times] are the
    times at which it may roll files. *)
Definition join (times : list Z) : M AsyncLogging unit :=
  a <- gets (fun a => a);;
  match at_ a with
  | InBody =>
      AsyncLogging.collect;;; AsyncLogging.flush times;;; AsyncLogging.test;;;
      AsyncLogging.final_flush
  | Writing => AsyncLogging.flush times;;; AsyncLogging.test;;; AsyncLogging.final_flush
  | AtLoop => AsyncLogging.test;;; AsyncLogging.final_flush
  | Exiting => AsyncLogging.final_flush
  | Stopped => ret tt
  end.

(** AsyncLogging::stop and the release of the object. *)
Definition stop_and_reset (times : list Z) : ML unit :=
  on_async (AsyncLogging.request_stop;;; join times);;;
  modify (fun s => set_async None (useAsyncLogging s) s).

Definition setAsyncLogging (basename : string) (rollSize : Z) (times : list Z) : ML unit :=
  stop_and_reset times;;;
  modify (fun s => set_async (Some (AsyncLogging.new basename rollSize (lfs s))) (useAsyncLogging s) s);;;
  on_async AsyncLogging.start;;;
  modify (fun s => set_async (asyncLogging s) true s).

Definition disableAsyncLogging (times : list Z) : ML unit :=
  stop_and_reset times;;;
  modify (fun s => set_async (asyncLogging s) false s).

(** ** Runs *)
Inductive op : Type :=
| OpLog (m : Macro) (c : Call)
| OpLevel (l : LOG_LEVEL)
| OpFile (fileName : string)
| OpAsync (basename : string) (rollSize : Z) (times : list Z)
| OpDisable (times : list Z)
| OpWriter (e : AsyncLogging.event).

(** The steps of the writer thread. *)
Definition writer_event (e : AsyncLogging.event) (s : Logger) : bool :=
  match e, asyncLogging s with
  | AsyncLogging.EvAppend _, _ | AsyncLogging.EvStop, _ => false
  | _, Some a => AsyncLogging.may_step e a
  | _, None => false
  end.

Definition run_op (o : op) : ML unit :=
  match o with
  | OpLog m c => _ <- log m c;; ret tt
  | OpLevel l => setLogLevel l
  | OpFile f => setLogFile f
  | OpAsync b r t => setAsyncLogging b r t
  | OpDisable t => disableAsyncLogging t
  | OpWriter e => on_async (AsyncLogging.run_event e)
  end.

Definition enabled (o : op) (s : Logger) : bool :=
  match o with OpWriter e => writer_event e s | _ => true end.

Inductive reach (s0 : Logger) : Logger -> Prop :=
| reach_start : reach s0 s0
| reach_op s s' o : reach s0 s -> enabled o s = true -> run_op o s = Ok (tt, s') -> reach s0 s'.

Fixpoint play (os : list op) (s : Logger) : option Logger :=
  match os with
  | [] => Some s
  | o :: os' =>
      if enabled o s then
        match run_op o s with Ok (_, s') => play os' s' | Err _ => None end
      else None
  end.

Lemma logger_play_reach os s0 s s' : reach s0 s -> play os s = Some s' -> reach s0 s'.
Proof.
  revert s. induction os as [|o os IH]; simpl; intros s Hr; [by intros [= <-]|].
  destruct (enabled o s) eqn:He; [|done].
  destruct (run_op o s) as [[[] s1]|] eqn:E; [|done]. apply IH. by apply (reach_op s0 s s1 o).
Qed.

(** ** The sinks *)

(** The asynchronous writer is used iff it exists; ofs is open on the file that
    was set, unless there is none or it cannot be opened. *)
Record LInv (s : Logger) : Prop := mkLInv {
  li_use : useAsyncLogging s = bool_decide (asyncLogging s <> None);
  li_ofs : ofs s = if to_stdout s || negb (openable (lfs s) (logFileName s)) then None
                   else Some (logFileName s)
}.

Definition writes_only (m : M AsyncLogging unit) : Prop :=
  forall a, wp (fun _ => True) m (fun _ a' => openable (fs a') = openable (fs a)) a.

Lemma writes_bind {A} (m : M AsyncLogging A) (k : A -> M AsyncLogging unit) :
  (forall a, wp (fun _ => True) m (fun _ a' => openable (fs a') = openable (fs a)) a) ->
  (forall x, writes_only (k x)) -> writes_only (bind m k).
Proof.
  intros Hm Hk a. wp_simpl. eapply wp_mono; [apply Hm|]. intros x a' <-. apply Hk.
Qed.

Lemma append_writes l : writes_only (AsyncLogging.append l).
Proof.
  intros a. unfold AsyncLogging.append. wp_simpl. destruct (currentBuffer_ a); wp_simpl; [|done].
  by case_bool; wp_simpl.
Qed.
Lemma collect_writes : writes_only AsyncLogging.collect.
Proof.
  intros a. unfold AsyncLogging.collect. wp_simpl.
  destruct (newBuffer1 a), (nextBuffer_ a); simpl; wp_simpl; try done; destruct (last _); by wp_simpl.
Qed.
Lemma append_file_openable n d f : openable (AsyncLogging.append_file n d f) = openable f.
Proof. unfold AsyncLogging.append_file. by case_bool. Qed.
Lemma rollFile_openable b t f f' : AsyncLogging.rollFile b t f = Some f' -> openable f' = openable f.
Proof.
  unfold AsyncLogging.rollFile. destruct (AsyncLogging.free_name _ _ _ _ _); [|done].
  intros [= <-]. case_bool; [|done]. unfold AsyncLogging.rename. by destruct (files f !! _).
Qed.
Lemma write_buffer_writes t d : writes_only (AsyncLogging.write_buffer t d).
Proof.
  intros a. unfold AsyncLogging.write_buffer. wp_simpl.
  destruct (match files (fs a) !! logFile a with Some c => _ | None => false end).
  - destruct (AsyncLogging.rollFile _ _ _) as [f|] eqn:E; wp_simpl; [|done]. simpl.
    rewrite append_file_openable. by apply (rollFile_openable _ _ _ _ E).
  - wp_simpl. simpl. apply append_file_openable.
Qed.
Lemma write_all_writes ts w : writes_only (AsyncLogging.write_all ts w).
Proof.
  revert ts. induction w as [|d w IH]; intros ts; simpl; [intros a; by wp_simpl|].
  apply writes_bind; [apply write_buffer_writes|]. intros _. apply IH.
Qed.
Lemma flush_writes t : writes_only (AsyncLogging.flush t).
Proof.
  intros a. unfold AsyncLogging.flush. wp_simpl. case_bool; wp_simpl; [done|].
  wp_call write_all_writes. intros _ a' <-. unfold AsyncLogging.reuse.
  destruct (newBuffer1 a); wp_simpl; [|case_bool; wp_simpl; [|done]];
    (destruct (newBuffer2 a); wp_simpl; [done|]; case_bool; by wp_simpl).
Qed.
Lemma final_writes : writes_only AsyncLogging.final_flush.
Proof.
  intros a. unfold AsyncLogging.final_flush. wp_simpl.
  destruct (match currentBuffer_ a with Some c => _ | None => _ end) as [cur bufs].
  case_bool; wp_simpl; simpl; apply append_file_openable.
Qed.
Lemma test_writes : writes_only AsyncLogging.test.
Proof. intros a. unfold AsyncLogging.test. by wp_simpl. Qed.
Create HintDb writes.
#[local] Hint Resolve append_writes collect_writes flush_writes final_writes test_writes : writes.

Lemma join_writes t : writes_only (join t).
Proof.
  intros a. unfold join. wp_simpl. revert a.
  assert (forall m, writes_only m -> forall a, wp (fun _ => True) m
    (fun _ a' => openable (fs a') = openable (fs a)) a) as Hw by done.
  intros a. destruct (at_ a); apply Hw; repeat (apply writes_bind; [auto with writes|intros _]);
    auto with writes.
Qed.
Lemma event_writes e : writes_only (AsyncLogging.run_event e).
Proof. destruct e; simpl; auto with writes. Qed.

(** The configuration is what the invariant reads. *)
Lemma LInv_same s s' :
  LInv s -> logFileName s' = logFileName s -> ofs s' = ofs s ->
  bool_decide (asyncLogging s' <> None) = bool_decide (asyncLogging s <> None) ->
  useAsyncLogging s' = useAsyncLogging s -> openable (lfs s') = openable (lfs s) -> LInv s'.
Proof.
  intros [Hu Ho] Hn Hf Ha Hu' Hop. constructor; [congruence|].
  unfold to_stdout. by rewrite Hf, Hn, Hop, Ho.
Qed.

(** A step of the asynchronous object changes that object and the files. *)
Lemma on_async_wp (m : M AsyncLogging unit) s :
  writes_only m ->
  wp (fun _ => True) (on_async m) (fun _ s' => exists a f, s' = set_out (cout s) f (set_async a (useAsyncLogging s) s)
    /\ openable f = openable (lfs s)
    /\ bool_decide (a <> None) = bool_decide (asyncLogging s <> None)) s.
Proof.
  intros Hm. unfold on_async. wp_simpl. destruct (asyncLogging s) as [a|] eqn:E; wp_simpl.
  - specialize (Hm (with_fs (lfs s) a)). unfold wp in Hm.
    destruct (m _) as [[[] a']|f]; wp_simpl; [|done]. by exists (Some a'), (fs a').
  - exists None, (lfs s). split_and!; [|done|done]. by destruct s; simpl in *; subst.
Qed.

Lemma on_async_inv m s :
  writes_only m -> LInv s -> wp (fun _ => True) (on_async m) (fun _ => LInv) s.
Proof.
  intros Hm Hi. wp_call on_async_wp; [done|]. intros _ s' (a & f & -> & Hf & Ha).
  by apply (LInv_same s).
Qed.

Lemma write_ofs_inv line s : LInv s -> LInv (write_ofs line s).
Proof. intros Hi. unfold write_ofs. destruct (ofs s) eqn:E; [|done]. by apply (LInv_same s). Qed.

Lemma emit_inv line b s : LInv s -> wp (fun _ => True) (emit line b) (fun _ => LInv) s.
Proof.
  intros Hi. unfold emit. wp_simpl. destruct (useAsyncLogging s && negb b).
  - apply on_async_inv; [apply append_writes|done].
  - destruct (to_stdout s); wp_simpl; [by apply (LInv_same s)|by apply write_ofs_inv].
Qed.

Lemma log_inv m c s : LInv s -> wp (fun _ => True) (log m c) (fun _ => LInv) s.
Proof.
  intros Hi. assert (forall l b, wp (fun _ => True) (logBase l b c) (fun _ => LInv) s) as Hb.
  { intros l b. unfold logBase. wp_simpl. case_bool; wp_simpl; [done|].
    wp_call emit_inv; [done|]. by intros _ s' ?. }
  assert (forall b, wp (fun _ => True) (logSys b c) (fun _ => LInv) s) as Hs.
  { intros b. unfold logSys. wp_simpl. wp_call emit_inv; [done|]. by intros _ s' ?. }
  destruct m; simpl; auto.
Qed.

Lemma setLogFile_inv name s : LInv s -> wp (fun _ => True) (setLogFile name) (fun _ => LInv) s.
Proof.
  intros [Hu Ho]. unfold setLogFile. wp_simpl.
  assert (forall s1, ofs s1 = None -> bool_decide (asyncLogging s1 <> None) = useAsyncLogging s1 ->
    openable (lfs s1) = openable (lfs s) ->
    if negb (String.eqb name "stdout")
    then LInv (set_sync name (ofs (open_ofs name s1)) (open_ofs name s1))
    else LInv (set_sync name (ofs s1) s1)) as Hfin.
  { intros s1 H1 Ha Hop. unfold open_ofs. rewrite H1, bool_decide_eq_true_2, andb_true_r by done.
    destruct (String.eqb name "stdout") eqn:E1; simpl.
    - constructor; simpl; [done|]. unfold to_stdout. simpl. by rewrite E1, orb_true_r.
    - destruct (String.eqb name "") eqn:E2; simpl.
      + constructor; simpl; [done|]. unfold to_stdout. simpl. by rewrite E2.
      + destruct (openable (lfs s1) name) eqn:E3; simpl; constructor; simpl; try done;
          unfold to_stdout; simpl; by rewrite E1, E2, E3. }
  destruct (to_stdout s) eqn:E; simpl.
  - specialize (Hfin s). destruct (negb (String.eqb name "stdout")); wp_simpl; by apply Hfin.
  - specialize (Hfin (set_sync (logFileName s) None s)).
    destruct (negb (String.eqb name "stdout")); wp_simpl; by apply Hfin.
Qed.

Lemma stop_and_reset_wp t s :
  wp (fun _ => True) (stop_and_reset t)
    (fun _ s' => exists f, s' = set_out (cout s) f (set_async None (useAsyncLogging s) s)
       /\ openable f = openable (lfs s)) s.
Proof.
  unfold stop_and_reset. wp_simpl. wp_call on_async_wp.
  - apply writes_bind; [intros a; unfold AsyncLogging.request_stop; by wp_simpl|].
    intros _. apply join_writes.
  - intros _ s' (a & f & -> & Hf & _). wp_simpl. by exists f.
Qed.

Lemma async_inv b r t s : LInv s -> wp (fun _ => True) (setAsyncLogging b r t) (fun _ => LInv) s.
Proof.
  intros [Hu Ho]. unfold setAsyncLogging. wp_simpl. wp_call stop_and_reset_wp.
  intros _ s1 (f & -> & Hf). wp_simpl. wp_call on_async_wp.
  - intros a. unfold AsyncLogging.start. by wp_simpl.
  - intros _ s2 (a & f2 & -> & Hf2 & Ha). simpl in *. wp_simpl. constructor; simpl; [by rewrite Ha|].
    unfold to_stdout in *. simpl. by rewrite Hf2, Hf, Ho.
Qed.

Lemma disable_inv t s : LInv s -> wp (fun _ => True) (disableAsyncLogging t) (fun _ => LInv) s.
Proof.
  intros [Hu Ho]. unfold disableAsyncLogging. wp_simpl. wp_call stop_and_reset_wp.
  intros _ s1 (f & -> & Hf). wp_simpl. constructor; simpl; [done|].
  unfold to_stdout in *. simpl. by rewrite Hf, Ho.
Qed.

Lemma logger_reach_inv ndebug f s : reach (init ndebug f) s -> LInv s.
Proof.
  induction 1 as [|s s' o _ IH _ Hr]; [by constructor|].
  assert (wp (fun _ => True) (run_op o) (fun _ => LInv) s) as Hwp.
  { destruct o as [m c|l|n|b r t|t|e]; simpl.
    - wp_simpl. wp_call log_inv; [done|]. by intros b s1 ?.
    - unfold setLogLevel. wp_simpl. by apply (LInv_same s).
    - by apply setLogFile_inv.
    - by apply async_inv.
    - by apply disable_inv.
    - apply on_async_inv; [apply event_writes|done]. }
  unfold wp in Hwp. by rewrite Hr in Hwp.
Qed.

(** ** Specification of a log call *)

Definition aborts (m : Macro) : bool := match m with FATAL | SYSFATAL => true | _ => false end.
Definition level_of (m : Macro) : option LOG_LEVEL :=
  match m with
  | TRACE => Some LOG_LEVEL_TRACE | DEBUG => Some LOG_LEVEL_DEBUG | INFO => Some LOG_LEVEL_INFO
  | WARN => Some LOG_LEVEL_WARN | ERROR => Some LOG_LEVEL_ERROR | FATAL => Some LOG_LEVEL_FATAL
  | SYSERR | SYSFATAL => None
  end.
Definition suppressed (m : Macro) (s : Logger) : bool :=
  match level_of m with Some l => level_num l <? level_num (logLevel s) | None => false end.
Definition line_of (m : Macro) (c : Call) : string :=
  match level_of m with Some l => logBase_line l c | None => logSys_line (aborts m) c end.

Lemma log_emit m c s :
  log m c s = if suppressed m s then Ok (false, s)
              else match emit (line_of m c) (aborts m) s with
                   | Ok (_, s') => Ok (aborts m, s')
                   | Err f => Err f
                   end.
Proof.
  assert (forall l b, logBase l b c s
    = if level_num l <? level_num (logLevel s) then Ok (false, s)
      else match emit (logBase_line l c) b s with Ok (_, s') => Ok (b, s') | Err f => Err f end) as Hb.
  { intros l b. unfold logBase, bind, gets. cbn beta iota.
    by destruct (level_num l <? level_num (logLevel s)). }
  destruct m; unfold suppressed, line_of; simpl; rewrite ?Hb; done.
Qed.

Lemma append_fs l a a' : AsyncLogging.append l a = Ok (tt, a') -> fs a' = fs a.
Proof.
  intros E. assert (wp (fun _ => True) (AsyncLogging.append l) (fun _ a' => fs a' = fs a) a) as Hwp.
  { unfold AsyncLogging.append. wp_simpl. destruct (currentBuffer_ a); wp_simpl; [|done].
    by case_bool; wp_simpl. }
  unfold wp in Hwp. by rewrite E in Hwp.
Qed.

(** The writer thread's last write, into the file that is open. *)
Lemma final_flush_file a :
  AInv a -> AsyncLogging.may_step AsyncLogging.EvFinal a = true ->
  wp no_fault AsyncLogging.final_flush
    (fun _ a' => files (fs a') = <[logFile a := default [] (files (fs a) !! logFile a) ++ contents a]>
                                   (files (fs a))) a.
Proof.
  intros [(c & Hc) Hd Ho Hf _ Hp] Hm. simpl in Hm. destruct (at_ a); try done.
  destruct Hp as (_ & _ & Hw). unfold AsyncLogging.final_flush. wp_simpl. rewrite Hc.
  destruct (collect_bufs a c Hc) as (Hcat & _). unfold contents. rewrite Hw, <- Hcat. clear Hcat.
  destruct (0 <? zlen c).
  - rewrite bool_decide_eq_false_2 by (by destruct (buffers_ a)). wp_simpl. simpl.
    unfold AsyncLogging.append_file. by rewrite Hf, Ho.
  - case_bool; wp_simpl; simpl; unfold AsyncLogging.append_file; rewrite Hf, Ho; [|done].
    apply bool_decide_eq_true in E. by rewrite E.
Qed.

(** ** Properties *)

(** C22: a log call is suppressed exactly when its level is below the current one,
    FATAL, SYSFATAL and SYSERR never; otherwise its line goes to exactly one
    place: the asynchronous writer if there is one and the call does not abort,
    or else standard output if no file is set, or else the end of the file that
    was set last, unless that file cannot be opened.  Exactly FATAL and SYSFATAL
    end in abort(), and they do not flush the asynchronous writer. *)
Theorem log_call_delivers ndebug f s m c :
  reach (init ndebug f) s ->
  (aborts m = true -> suppressed m s = false)
  /\ log m c s =
    if suppressed m s then Ok (false, s)
    else match asyncLogging s, aborts m with
      | Some a, false =>
          match AsyncLogging.append (bytes (line_of m c)) (with_fs (lfs s) a) with
          | Ok (_, a') => Ok (false, set_async (Some a') true s)
          | Err e => Err e
          end
      | _, _ =>
          if to_stdout s then Ok (aborts m, set_out (cout s ++ bytes (line_of m c)) (lfs s) s)
          else if openable (lfs s) (logFileName s) then
            Ok (aborts m, set_out (cout s)
              (AsyncLogging.set_files (<[logFileName s := default [] (files (lfs s) !! logFileName s)
                                           ++ bytes (line_of m c)]> (files (lfs s))) (lfs s)) s)
          else Ok (aborts m, s)
      end.
Proof.
  intros [Hu Ho]%logger_reach_inv. split; [intros Ha; destruct m; try done; by destruct s as [? ? ? ? []]|].
  rewrite log_emit. destruct (suppressed m s) eqn:Hsup; [done|].
  assert (forall line, write_ofs line s
    = if to_stdout s || negb (openable (lfs s) (logFileName s)) then s else
      set_out (cout s) (AsyncLogging.set_files (<[logFileName s :=
        default [] (files (lfs s) !! logFileName s) ++ bytes line]> (files (lfs s))) (lfs s)) s) as Hw.
  { intros line. unfold write_ofs. rewrite Ho. by destruct (_ || _). }
  unfold emit, bind, gets. rewrite Hu. destruct (asyncLogging s) as [a|] eqn:Ha.
  - rewrite bool_decide_eq_true_2 by done. destruct (aborts m); simpl.
    + destruct (to_stdout s) eqn:Et; [done|]. unfold modify. rewrite Hw.
      by destruct (openable _ _).
    + unfold appendToAsyncLog, on_async, bind, gets. rewrite Ha.
      destruct (AsyncLogging.append _ _) as [[[] a']|] eqn:E; [|done].
      unfold modify. rewrite (append_fs _ _ _ E), Hu, bool_decide_eq_true_2 by done. by destruct s.
  - rewrite bool_decide_eq_false_2 by (by intros []). simpl.
    destruct (to_stdout s) eqn:Et; [done|]. unfold modify. rewrite Hw.
    by destruct (openable _ _).
Qed.

(** A run on a machine where every file can be opened: an asynchronous writer, a
    file, a suppressed message. *)
Definition a_call (msg : string) : Call := mkCall 1000000000123456789 42 "Success" msg "src/main.cpp" 7.
Definition log_script : list op :=
  [ OpAsync "app" 1000 []; OpFile "sync.log"; OpLog INFO (a_call "up"); OpLevel LOG_LEVEL_WARN;
    OpLog INFO (a_call "hidden") ].
Definition s_logger : Logger := default (init true empty_fs) (play log_script (init true empty_fs)).

Lemma log_call_delivers_witness :
  exists s', log FATAL (a_call "end") s_logger = Ok (true, s')
    /\ files (lfs s') !! "sync.log" = Some (bytes ("20010909 01:46:40.123 [   42] [ FATAL] end - main.cpp:7" ++ newline)%string)
    /\ asyncLogging s' = asyncLogging s_logger
    /\ option_map appended (asyncLogging s') = Some (bytes ("20010909 01:46:40.123 [   42] [  INFO] up - main.cpp:7" ++ newline)%string).
Proof.
  destruct (log_call_delivers true empty_fs s_logger FATAL (a_call "end")) as [Hs Hl].
  - apply (logger_play_reach log_script (init true empty_fs) (init true empty_fs)); [apply reach_start|].
    vm_compute. reflexivity.
  - rewrite Hs in Hl by reflexivity. clear Hs. eexists. split.
    + rewrite Hl. vm_compute. reflexivity.
    + clear Hl. split_and!; vm_compute; reflexivity.
Defined.

(** C23: log lines sort by time.  Up to the year 9999, whatever macros wrote
    them and whatever they say, two lines logged in different milliseconds compare
    as text like their times: the time stamp stands first and has a fixed width. *)
Theorem log_lines_sort m1 m2 c1 c2 :
  0 <= c_now c1 < Calendar.year_10000 * 1000000000 ->
  0 <= c_now c2 < Calendar.year_10000 * 1000000000 ->
  c_now c1 / 1000000 <> c_now c2 / 1000000 ->
  String.compare (line_of m1 c1) (line_of m2 c2) = (c_now c1 ?= c_now c2).
Proof.
  intros H1 H2 Hne.
  assert (forall m c, exists rest, line_of m c = (Calendar.timestamp (c_now c) ++ rest)%string) as Hline.
  { intros m c. unfold line_of. destruct (level_of m); by eexists. }
  destruct (Hline m1 c1) as [r1 ->], (Hline m2 c2) as [r2 ->].
  rewrite Calendar.compare_app by by rewrite !Calendar.timestamp_length.
  rewrite Calendar.timestamp_compare by done.
  destruct (Z.compare_spec (c_now c1 / 1000000) (c_now c2 / 1000000)) as [|Hlt|Hgt]; [done| |]; symmetry.
  - apply Z.compare_lt_iff. Z.div_mod_to_equations. lia.
  - apply Z.compare_gt_iff. Z.div_mod_to_equations. lia.
Qed.

(** The last millisecond of a leap day and the next one. *)
Definition leap_day : Call := mkCall 1709251199999000000 42 "Success" "z" "src/main.cpp" 7.
Definition march : Call := mkCall 1709251200000000000 42 "Success" "a" "src/main.cpp" 8.

Lemma log_lines_sort_witness :
  line_of SYSERR march = ("20240301 00:00:00.000 [   42] [SYSERR] a: Success - main.cpp:8" ++ newline)%string
  /\ Calendar.timestamp (c_now leap_day) = "20240229 23:59:59.999"%string
  /\ String.compare (line_of INFO leap_day) (line_of SYSERR march) = Lt.
Proof.
  split; [reflexivity|]. split; [reflexivity|].
  apply (log_lines_sort INFO SYSERR leap_day march); [split; [discriminate|reflexivity]..|discriminate].
Defined.

(** Switching the asynchronous writer off while its thread is between two
    iterations and healthy returns, writes every byte that is in memory to the
    end of its file, changes no other file, and the calls that follow are
    synchronous. *)
Lemma disable_flushes ndebug f s a times :
  reach (init ndebug f) s -> asyncLogging s = Some a -> AInv (with_fs (lfs s) a) ->
  at_ a = AtLoop \/ at_ a = Exiting ->
  exists s', disableAsyncLogging times s = Ok (tt, s')
    /\ asyncLogging s' = None /\ useAsyncLogging s' = false
    /\ logFileName s' = logFileName s /\ ofs s' = ofs s /\ cout s' = cout s
    /\ files (lfs s') = <[logFile a := default [] (files (lfs s) !! logFile a) ++ contents a]>
                          (files (lfs s)).
Proof.
  intros Hr Ha Hi Hat.
  assert (wp no_fault (AsyncLogging.request_stop;;; join times)
    (fun _ a' => files (fs a') = <[logFile a := default [] (files (lfs s) !! logFile a) ++ contents a]>
                          (files (lfs s))) (with_fs (lfs s) a)) as Hwp.
  { unfold AsyncLogging.request_stop, join. wp_simpl. simpl.
    assert (forall a1, at_ a1 = Exiting -> AInv a1 -> logFile a1 = logFile a -> fs a1 = lfs s ->
      contents a1 = contents a -> wp no_fault AsyncLogging.final_flush
        (fun _ a' => files (fs a') = <[logFile a := default [] (files (lfs s) !! logFile a) ++ contents a]>
                          (files (lfs s))) a1) as Hfin.
    { intros a1 Hat1 Hi1 Hl Hf Hc. wp_call (final_flush_file a1 Hi1); [simpl; by rewrite Hat1|].
      intros _ a' ->. by rewrite Hl, Hf, Hc. }
    destruct Hi. simpl in *. destruct Hat as [Hat|Hat]; rewrite Hat in ai_phase |- *; simpl in *.
    - unfold AsyncLogging.test. wp_simpl.
      apply Hfin; simpl; [done|by constructor|done..].
    - apply Hfin; simpl; [done|constructor; simpl; rewrite ?Hat; done|done..]. }
  apply wp_ok in Hwp as ([] & a' & E & Hf).
  unfold disableAsyncLogging, stop_and_reset, on_async. unfold bind at 1 2 3, gets. rewrite Ha, E.
  eexists. split; [reflexivity|]. by split_and!.
Qed.

Definition s_writer : AsyncLogging :=
  default (AsyncLogging.new "" 0 empty_fs) (asyncLogging s_logger).

Lemma s_writer_inv : AInv (with_fs (lfs s_logger) s_writer).
Proof. constructor; [eexists| | | |left|]; vm_compute; by split_and?. Qed.

Lemma disable_flushes_witness :
  exists s', disableAsyncLogging [] s_logger = Ok (tt, s') /\ asyncLogging s' = None
    /\ files (lfs s') !! "app.log"
       = Some (bytes ("20010909 01:46:40.123 [   42] [  INFO] up - main.cpp:7" ++ newline)%string).
Proof.
  destruct (disable_flushes true empty_fs s_logger s_writer []) as (s' & Hd & Hn & _ & _ & _ & _ & Hf).
  - apply (logger_play_reach log_script (init true empty_fs) (init true empty_fs)); [apply reach_start|].
    vm_compute. reflexivity.
  - vm_compute. reflexivity.
  - exact s_writer_inv.
  - left. vm_compute. reflexivity.
  - exists s'. split; [exact Hd|]. split; [exact Hn|]. rewrite Hf. clear Hd Hn Hf.
    vm_compute. reflexivity.
Defined.
End Logger.
