(* ===== verification/AsyncDemo.v ===== *)
(** * AsyncDemo: the demonstration of the asynchronous log
    (main of examples/async_logging_demo.cpp)

    main, its five threads and the writer thread as interleaved steps over the
    logger of Logger.v.  A step of a program's thread is one statement; a log
    call takes the mutex once, so it is atomic.  The time that sleep_for lets
    pass is the steps that the writer takes meanwhile.  [logged] records the
    calls; no definition reads it. *)

From Stdlib Require Import Ascii.
From stdpp Require Import pretty.
From S2P Require Import Prelude Calendar AsyncLogging AsyncLoggingSpec Logger.

Module AsyncDemo.

(** What a log call finds in its environment. *)
Record Env : Type := mkEnv { e_now : Z; e_pid : Z; e_strerror : string }.

(** The control point of main. *)
Inductive main_pc : Type :=
| MSetAsync | MSetLevel | MBanner
| MSpawn                      (* the loop that creates the threads *)
| MJoin (i : nat)             (* the loop that joins them *)
| MCompleted | MSleep | MFinished | MDisable | MReturned.

Inductive origin : Type := Main | Thread (i : nat).

Record Demo : Type := mkDemo {
  logger : Logger;
  pc : main_pc;
  threads : list nat;               (* j of each thread that was created *)
  logged : list (origin * Call)
}.

Definition numThreads : nat := 5.
Definition messagesPerThread : nat := 100.
Definition basename : string := "/tmp/knetlib_demo".
Definition rollSize : Z := 500 * 1024 * 1024.

(** __FILE__; a log line shows what follows the last slash. *)
Definition this_file : string := "examples/async_logging_demo.cpp".
Definition msg_started : string := "=== Async Logging Demo Started ===".
Definition msg_completed : string := "=== All threads completed ===".
Definition msg_finished : string := "=== Demo finished, check /tmp/knetlib_demo.log ===".
Definition msg_thread (i j : nat) : string :=
  ("Thread " ++ pretty i ++ ": Message " ++ pretty j ++ " - This is a test log message")%string.

Definition the_call (msg : string) (line : Z) (e : Env) : Call :=
  mkCall (e_now e) (e_pid e) (e_strerror e) msg this_file line.

Abbreviation MD := (M Demo).

Definition on_logger (m : M Logger unit) : MD unit :=
  zoom logger (fun l d => mkDemo l (pc d) (threads d) (logged d)) m.
Definition goto (p : main_pc) : MD unit :=
  modify (fun d => mkDemo (logger d) p (threads d) (logged d)).
Definition set_threads (f : list nat -> list nat) : MD unit :=
  modify (fun d => mkDemo (logger d) (pc d) (f (threads d)) (logged d)).

(** INFO(...) *)
Definition info (o : origin) (c : Call) : MD unit :=
  on_logger (_ <- Logger.log INFO c;; ret tt);;;
  modify (fun d => mkDemo (logger d) (pc d) (threads d) (logged d ++ [(o, c)])).

(** One statement of main; [times]: the times at which files may be rolled. *)
Definition main_step (e : Env) (times : list Z) : MD unit :=
  d <- gets (fun d => d);;
  match pc d with
  | MSetAsync => on_logger (Logger.setAsyncLogging basename rollSize times);;; goto MSetLevel
  | MSetLevel => on_logger (Logger.setLogLevel LOG_LEVEL_INFO);;; goto MBanner
  | MBanner => info Main (the_call msg_started 18 e);;; goto MSpawn
  | MSpawn =>
      if (length (threads d) <? numThreads)%nat then set_threads (fun l => l ++ [O])
      else goto (MJoin 0)
  | MJoin i => if (i <? numThreads)%nat then goto (MJoin (S i)) else goto MCompleted
  | MCompleted => info Main (the_call msg_completed 38 e);;; goto MSleep
  | MSleep => goto MFinished
  | MFinished => info Main (the_call msg_finished 43 e);;; goto MDisable
  | MDisable => on_logger (Logger.disableAsyncLogging times);;; goto MReturned
  | MReturned => ret tt
  end.

(** One message of thread [i]. *)
Definition thread_step (i : nat) (e : Env) : MD unit :=
  d <- gets (fun d => d);;
  match threads d !! i with
  | Some j =>
      when (j <? messagesPerThread)%nat
        (info (Thread i) (the_call (msg_thread i j) 28 e);;; set_threads (<[i := S j]>))
  | None => ret tt
  end.

(** ** Runs *)

Inductive event : Type :=
| EvMain (e : Env) (times : list Z)
| EvThread (i : nat) (e : Env)
| EvWriter (e : AsyncLogging.event).

Definition run_event (ev : event) : MD unit :=
  match ev with
  | EvMain e times => main_step e times
  | EvThread i e => thread_step i e
  | EvWriter e => on_logger (Logger.on_async (AsyncLogging.run_event e))
  end.

(** join() returns when the thread has sent its messages. *)
Definition joinable (i : nat) (d : Demo) : bool :=
  bool_decide (threads d !! i = Some messagesPerThread) || (numThreads <=? i)%nat.

(** Who can take a step. *)
Definition may_step (ev : event) (d : Demo) : bool :=
  match ev with
  | EvMain _ _ => match pc d with MJoin i => joinable i d | MReturned => false | _ => true end
  | EvThread i _ => match threads d !! i with Some j => (j <? messagesPerThread)%nat | None => false end
  | EvWriter e => Logger.writer_event e (logger d)
  end.

Definition start (ndebug : bool) (f : Fs) : Demo := mkDemo (Logger.init ndebug f) MSetAsync [] [].

(** The clock shows a year before 10000, and a process id has at most 7 digits. *)
Definition env_ok (e : Env) : bool :=
  (0 <=? e_now e) && (e_now e <? Calendar.year_10000 * 1000000000)
  && (String.length (Logger.decimal (e_pid e)) <=? 7)%nat.

(** The writer finds data in every iteration. *)
Definition busy_writer (e : AsyncLogging.event) (l : Logger) : bool :=
  match e, asyncLogging l with
  | AsyncLogging.EvCollect, Some a => busy (Logger.with_fs (lfs l) a)
  | _, _ => true
  end.

Definition enabled (ev : event) (d : Demo) : bool :=
  may_step ev d
  && match ev with
     | EvMain e _ | EvThread _ e => env_ok e
     | EvWriter e => busy_writer e (logger d)
     end.

Inductive reach (d0 : Demo) : Demo -> Prop :=
| reach_start : reach d0 d0
| reach_step d d' ev :
    reach d0 d -> enabled ev d = true -> run_event ev d = Ok (tt, d') -> reach d0 d'.

Fixpoint play (evs : list event) (d : Demo) : option Demo :=
  match evs with
  | [] => Some d
  | ev :: evs' =>
      if enabled ev d then
        match run_event ev d with Ok (_, d') => play evs' d' | Err _ => None end
      else None
  end.

Lemma demo_play_reach evs d0 d d' : reach d0 d -> play evs d = Some d' -> reach d0 d'.
Proof.
  revert d. induction evs as [|ev evs IH]; simpl; intros d Hr; [by intros [= <-]|].
  destruct (enabled ev d) eqn:He; [|done].
  destruct (run_event ev d) as [[[] d1]|] eqn:E; [|done]. apply IH. by apply (reach_step d0 d d1 ev).
Qed.
End AsyncDemo.
