(* ===== verification/AsyncDemoSpec.v ===== *)
(** * AsyncDemo: properties

    The whole log of the demonstration fits one buffer of the writer
    ([lines_fit]), so the writer's state has few shapes: [WInv].  With the trace
    of what was said, [TInv], it gives the contents of the file; [Idle] is the
    shape after an iteration without data. *)

From Stdlib Require Import Ascii.
From stdpp Require Import pretty.
From S2P Require Import Prelude Calendar AsyncLogging AsyncLoggingSpec Logger AsyncDemo.
Import AsyncDemo.

Module AsyncDemoSpec.

(** ** The text of the lines *)

Definition file_name : string := "/tmp/knetlib_demo.log".
Definition line (c : Call) : list byte := Logger.bytes (Logger.logBase_line LOG_LEVEL_INFO c).
Definition lines (l : list (origin * Call)) : list byte := concat (map (fun oc => line oc.2) l).
Definition max_line : Z := 120.

Lemma bytes_length t : zlen (Logger.bytes t) = Z.of_nat (String.length t).
Proof.
  unfold zlen, Logger.bytes, String.list_byte_of_string. rewrite length_map.
  f_equal. induction t as [|a t IH]; simpl; [done|by rewrite IH].
Qed.

Lemma substring_length n m t :
  (String.length (String.substring n m t) <= m)%nat
  /\ (String.length (String.substring n m t) <= String.length t)%nat.
Proof.
  revert n m. induction t as [|a t IH]; intros [|n] [|m]; simpl; try lia.
  - specialize (IH O m). lia.
  - specialize (IH n O). lia.
  - specialize (IH n (S m)). lia.
Qed.

Lemma c_string_length t : (String.length (Logger.c_string t) <= String.length t)%nat.
Proof. induction t as [|a t IH]; simpl; [done|]. destruct (Ascii.eqb _ _); simpl; lia. Qed.

Lemma setw5_length t : (String.length (Logger.setw5 t) <= Nat.max 5 (String.length t))%nat.
Proof.
  unfold Logger.setw5. rewrite string_length_app.
  pose proof (substring_length 0 (5 - String.length t) "     "). lia.
Qed.

Lemma line_short msg n e :
  env_ok e = true -> (String.length msg <= 50)%nat -> String.length (Logger.decimal n) = 2%nat ->
  zlen (line (the_call msg n e)) <= max_line.
Proof.
  intros [[H1%Z.leb_le H2%Z.ltb_lt]%andb_prop Hp%Nat.leb_le]%andb_prop Hm Hn.
  unfold line. rewrite bytes_length. unfold max_line, Logger.logBase_line, the_call. simpl c_now.
  simpl c_pid. simpl c_msg. simpl c_file. simpl c_line.
  change (Logger.filename this_file) with "async_logging_demo.cpp"%string.
  rewrite !string_length_app, Calendar.timestamp_length, Hn by done. unfold Logger.buffer4096.
  pose proof (setw5_length (Logger.decimal (e_pid e))).
  pose proof (c_string_length (String.substring 0 4095 msg)).
  pose proof (substring_length 0 4095 msg). simpl String.length. lia.
Qed.

Lemma msg_thread_short i j :
  (i < numThreads)%nat -> (j < messagesPerThread)%nat -> (String.length (msg_thread i j) <= 50)%nat.
Proof.
  assert (forallb (fun i => forallb (fun j => (String.length (msg_thread i j) <=? 50)%nat)
    (seq 0 messagesPerThread)) (seq 0 numThreads) = true) as H by (vm_compute; reflexivity).
  intros Hi Hj. rewrite forallb_forall in H. specialize (H i). rewrite in_seq in H.
  specialize (H (conj (Nat.le_0_l _) Hi)). rewrite forallb_forall in H. apply Nat.leb_le, H, in_seq.
  split; [lia|exact Hj].
Qed.

Lemma lines_app l1 l2 : lines (l1 ++ l2) = lines l1 ++ lines l2.
Proof. unfold lines. by rewrite map_app, concat_app. Qed.

Lemma lines_bound l :
  Forall (fun oc => zlen (line oc.2) <= max_line) l -> zlen (lines l) <= max_line * zlen l.
Proof.
  unfold lines, max_line. induction 1 as [|oc l Hoc Hl IH]; simpl; [done|].
  rewrite zlen_app. unfold zlen in *. simpl length. lia.
Qed.

(** ** The writer, while the log fits one buffer *)

(** What the file holds at the start, and [L] after it: a part of [L] is in the
    file, the next one is being written, the rest is in the current buffer. *)
Definition old (f : Fs) : list byte := default [] (files f !! file_name).

Record written (f : Fs) (D : list byte) (g : Fs) : Prop := mkWritten {
  wr_file : default [] (files g !! file_name) = old f ++ D;
  wr_other : forall n, n <> file_name -> files g !! n = files f !! n;
  wr_open : openable g file_name = true
}.

Record WInv (f : Fs) (L : list byte) (a : AsyncLogging) : Prop := mkWInv {
  wi_roll : rollSize_ a = rollSize;
  wi_run : running_ a = true;
  wi_next : nextBuffer_ a = Some [];
  wi_bufs : buffers_ a = [];
  wi_new2 : newBuffer2 a = Some [];
  wi_file : logFile a = file_name;
  wi_data : exists D P C, written f D (fs a) /\ currentBuffer_ a = Some C /\ L = D ++ P ++ C
    /\ match at_ a with
       | AtLoop | InBody => newBuffer1 a = Some [] /\ buffersToWrite a = [] /\ P = []
       | Writing => newBuffer1 a = None /\ buffersToWrite a = [P]
       | Exiting | Stopped => False
       end
}.

Section writer.
Context (f : Fs) (Hsmall : zlen (old f) + AsyncLogging.kBufferSize <= rollSize).

Lemma append_demo L l a :
  zlen (L ++ l) < AsyncLogging.kBufferSize -> WInv f L a ->
  wp no_fault (AsyncLogging.append l) (fun _ => WInv f (L ++ l)) a.
Proof.
  intros Hz [Hr Hrun Hn Hb H2 Hf (D & P & C & Hd & Hc & -> & Hat)].
  rewrite !zlen_app in Hz. pose proof (zlen_nonneg D). pose proof (zlen_nonneg P).
  unfold AsyncLogging.append. wp_simpl. rewrite Hc. wp_simpl.
  rewrite (proj2 (Z.ltb_lt _ _)) by lia. wp_simpl. constructor; simpl; try done.
  exists D, P, (C ++ l). split_and!; [done|done|by rewrite !app_assoc|done].
Qed.

Lemma append_file_written D d g : written f D g ->
  written f (D ++ d) (AsyncLogging.append_file file_name d g)
  /\ files (AsyncLogging.append_file file_name d g) !! file_name = Some (old f ++ D ++ d).
Proof.
  intros [Hf Ho Hop]. unfold AsyncLogging.append_file. rewrite Hop. simpl. split; [constructor; simpl|].
  - by rewrite lookup_insert_eq, Hf, app_assoc.
  - intros n Hn. rewrite lookup_insert_ne by congruence. by apply Ho.
  - done.
  - by rewrite lookup_insert_eq, Hf, app_assoc.
Qed.

(** The file stays too small to be rolled. *)
Lemma write_buffer_demo t D d a :
  rollSize_ a = rollSize -> logFile a = file_name -> written f D (fs a) ->
  zlen D < AsyncLogging.kBufferSize ->
  wp no_fault (AsyncLogging.write_buffer t d)
    (fun _ a' => exists g, a' = AsyncLogging.set_world file_name g (disk a ++ d) a /\ written f (D ++ d) g) a.
Proof.
  intros Hr Hf Hw Hz. pose proof Hw as [Hd _ Hop]. unfold AsyncLogging.write_buffer. wp_simpl.
  rewrite Hf, Hr.
  assert (match files (fs a) !! file_name with Some c => rollSize <=? zlen c | None => false end = false) as ->.
  { destruct (files (fs a) !! file_name) as [c|]; [|done]. simpl in Hd. subst c.
    apply Z.leb_gt. rewrite zlen_app. lia. }
  wp_simpl. rewrite Hop. eexists. split; [done|]. by apply append_file_written.
Qed.

(** The locked part of an iteration, with and without data. *)
Lemma collect_demo L a : WInv f L a -> at_ a = InBody -> busy a = true ->
  wp no_fault AsyncLogging.collect (fun _ a' => WInv f L a' /\ at_ a' = Writing) a.
Proof.
  intros [Hr Hrun Hn Hb H2 Hf (D & P & C & Hd & Hc & -> & Hat)] Hp Hbusy. rewrite Hp in Hat.
  destruct Hat as (H1 & Hw & ->). unfold busy in Hbusy. rewrite Hb, Hc in Hbusy. simpl in Hbusy.
  destruct C as [|b C]; [done|]. unfold AsyncLogging.collect. wp_simpl. rewrite Hc, H1, Hb, Hn, Hw, H2.
  simpl. wp_simpl. split; [|done]. constructor; simpl; try done.
  exists D, (b :: C), []. by rewrite app_nil_r.
Qed.

Lemma flush_demo t L a : WInv f L a -> at_ a = Writing -> zlen L < AsyncLogging.kBufferSize ->
  wp no_fault (AsyncLogging.flush t) (fun _ a' => WInv f L a' /\ at_ a' = AtLoop) a.
Proof.
  intros [Hr Hrun Hn Hb H2 Hf (D & P & C & Hd & Hc & -> & Hat)] Hp Hz. rewrite Hp in Hat.
  destruct Hat as (H1 & Hw). unfold AsyncLogging.flush. wp_simpl. rewrite Hw. wp_simpl. simpl.
  wp_simpl. rewrite zlen_app in Hz. pose proof (zlen_nonneg (P ++ C)).
  wp_call (write_buffer_demo (hd 0 t) D P a); [done|done|done|lia|]. intros _ a' (g & -> & Hg).
  wp_simpl. simpl. unfold AsyncLogging.reuse. rewrite H1, H2. wp_simpl. simpl. wp_simpl. simpl.
  split; [|done]. constructor; simpl; try done.
  exists (D ++ P), [], C. split_and!; try done. by rewrite app_assoc.
Qed.

Lemma test_demo L a : WInv f L a -> at_ a = AtLoop ->
  wp no_fault AsyncLogging.test (fun _ => WInv f L) a.
Proof.
  intros [Hr Hrun Hn Hb H2 Hf Hd] Hp. unfold AsyncLogging.test. wp_simpl. rewrite Hrun.
  constructor; try done. rewrite Hp in Hd. exact Hd.
Qed.

(** A step of the writer's thread. *)
Lemma writer_demo L e a :
  WInv f L a -> zlen L < AsyncLogging.kBufferSize -> AsyncLogging.may_step e a = true ->
  match e with
  | AsyncLogging.EvAppend _ | AsyncLogging.EvStop => False
  | AsyncLogging.EvCollect => busy a = true
  | _ => True
  end ->
  wp no_fault (AsyncLogging.run_event e) (fun _ => WInv f L) a.
Proof.
  intros Hi Hz Hm He. destruct e as [l| | |t| |]; simpl in *; try done;
    destruct (at_ a) eqn:Hat; try done.
  - by apply test_demo.
  - wp_call collect_demo; [done..|]. by intros _ a' [].
  - wp_call flush_demo; [done..|]. by intros _ a' [].
  - destruct Hi as [? ? ? ? ? ? (D & P & C & _ & _ & _ & Hp)]. by rewrite Hat in Hp.
Qed.

(** After stop(): the file gets all that is in memory. *)
Definition flushed (L : list byte) (g : Fs) : Prop :=
  files g !! file_name = Some (old f ++ L) /\ forall n, n <> file_name -> files g !! n = files f !! n.

Lemma final_demo D C a :
  at_ a = Exiting -> nextBuffer_ a = Some [] -> buffers_ a = [] -> buffersToWrite a = [] ->
  logFile a = file_name -> currentBuffer_ a = Some C -> written f D (fs a) ->
  wp no_fault AsyncLogging.final_flush (fun _ a' => flushed (D ++ C) (fs a')) a.
Proof.
  intros Hat Hn Hb Hw Hf Hc Hd. unfold AsyncLogging.final_flush. wp_simpl. rewrite Hc, Hb, Hw.
  assert (forall d, d = C -> flushed (D ++ C) (AsyncLogging.append_file file_name d (fs a))) as Hfin.
  { intros d ->. destruct (append_file_written D C (fs a) Hd) as [[_ Ho _] Hfile]. done. }
  destruct (0 <? zlen C) eqn:E.
  - rewrite bool_decide_eq_false_2 by done. wp_simpl. simpl. rewrite Hf. apply Hfin. simpl. apply app_nil_r.
  - rewrite bool_decide_eq_true_2 by done. wp_simpl. simpl. rewrite Hf. apply Hfin. bool_solve. symmetry. apply zlen_0_nil.
    pose proof (zlen_nonneg C). lia.
Qed.

Lemma stop_demo times L a :
  WInv f L a -> zlen L < AsyncLogging.kBufferSize ->
  wp no_fault (AsyncLogging.request_stop;;; Logger.join times) (fun _ a' => flushed L (fs a')) a.
Proof.
  intros [Hr Hrun Hn Hb H2 Hf (D & P & C & Hd & Hc & -> & Hp)] Hz.
  rewrite zlen_app in Hz. pose proof (zlen_nonneg (P ++ C)).
  unfold AsyncLogging.request_stop. wp_simpl. unfold Logger.join. wp_simpl. simpl.
  destruct (at_ a) eqn:Hat; try done.
  - destruct Hp as (_ & Hw & ->). wp_simpl. unfold AsyncLogging.test. wp_simpl. simpl.
    by apply final_demo.
  - destruct Hp as (H1 & Hw & ->). wp_simpl. unfold AsyncLogging.collect. wp_simpl. simpl.
    rewrite Hc, H1, Hb, Hn, Hw, H2. destruct C as [|b C]; simpl; wp_simpl; unfold AsyncLogging.flush;
      wp_simpl; simpl; wp_simpl; unfold AsyncLogging.test; wp_simpl; simpl.
    + by apply final_demo.
    + wp_call (write_buffer_demo (hd 0 times) D (b :: C)); [done|done|done|simpl; lia|].
      intros _ a' (g & -> & Hg). wp_simpl. unfold AsyncLogging.reuse. simpl. wp_simpl. simpl.
      wp_simpl. simpl. rewrite <- (app_nil_r (D ++ b :: C)). by apply final_demo.
  - destruct Hp as (H1 & Hw). wp_simpl. unfold AsyncLogging.flush. wp_simpl. simpl. rewrite Hw. simpl.
    wp_simpl. wp_call (write_buffer_demo (hd 0 times) D P); [done|done|done|lia|].
    intros _ a' (g & -> & Hg). wp_simpl. unfold AsyncLogging.reuse. simpl. rewrite H1, H2. wp_simpl. simpl.
    wp_simpl. unfold AsyncLogging.test. wp_simpl. simpl. rewrite app_assoc. by apply final_demo.
Qed.
End writer.

(** ** The logger with its writer *)

Record Running (f : Fs) (L : list byte) (l : Logger) : Prop := mkRunning {
  ru_async : exists a, asyncLogging l = Some a /\ fs a = lfs l /\ WInv f L a;
  ru_use : useAsyncLogging l = true;
  ru_level : Logger.level_num (logLevel l) <= 2
}.

Section logger.
Context (f : Fs) (Hsmall : zlen (old f) + AsyncLogging.kBufferSize <= rollSize).
Context (Hopen : openable f file_name = true).

Lemma on_async_demo m a l (Q : unit -> Logger -> Prop) :
  asyncLogging l = Some a -> fs a = lfs l ->
  wp no_fault m (fun _ a' => Q tt (Logger.set_out (cout l) (fs a')
    (Logger.set_async (Some a') (useAsyncLogging l) l))) a ->
  wp no_fault (Logger.on_async m) Q l.
Proof.
  intros Ha Hf Hm. unfold Logger.on_async. wp_simpl. rewrite Ha.
  assert (Logger.with_fs (lfs l) a = a) as -> by (destruct a; unfold Logger.with_fs; by simpl in *; subst).
  unfold wp in Hm. destruct (m a) as [[[] a']|]; [|done]. by wp_simpl.
Qed.

Lemma running_step m L L' l :
  Running f L l ->
  (forall a, asyncLogging l = Some a -> fs a = lfs l -> WInv f L a -> wp no_fault m (fun _ => WInv f L') a) ->
  wp no_fault (Logger.on_async m) (fun _ => Running f L') l.
Proof.
  intros [(a & Ha & Hf & Hi) Hu Hl] Hm. apply (on_async_demo m a); [done..|].
  wp_call (Hm a); [done..|]. intros _ a' Hi'. constructor; simpl; [by exists a'|done..].
Qed.

Lemma info_running c L l :
  Running f L l -> zlen (L ++ line c) < AsyncLogging.kBufferSize ->
  wp no_fault (_ <- Logger.log INFO c;; ret tt) (fun _ => Running f (L ++ line c)) l.
Proof.
  intros Hr Hz. wp_simpl. simpl. unfold Logger.logBase. wp_simpl. pose proof (ru_level _ _ _ Hr).
  simpl. rewrite (proj2 (Z.ltb_ge _ _)) by done. unfold Logger.emit. wp_simpl.
  rewrite (ru_use _ _ _ Hr). simpl. unfold Logger.appendToAsyncLog. wp_call running_step; [done| |].
  - intros a _ _ Hi. by apply append_demo.
  - intros _ l' Hr'. by wp_simpl.
Qed.

Lemma writer_running e L l :
  Running f L l -> zlen L < AsyncLogging.kBufferSize ->
  Logger.writer_event e l = true -> busy_writer e l = true ->
  wp no_fault (Logger.on_async (AsyncLogging.run_event e)) (fun _ => Running f L) l.
Proof.
  intros Hr Hz He Hb. apply (running_step _ L); [done|]. intros a Ha Hf Hi.
  unfold Logger.writer_event, busy_writer in *. rewrite Ha in He, Hb.
  apply writer_demo; [done..| |]; [by destruct e|]. by destruct e.
Qed.

Lemma set_async_running ndebug times :
  wp no_fault (Logger.setAsyncLogging basename rollSize times) (fun _ => Running f []) (Logger.init ndebug f).
Proof.
  unfold Logger.setAsyncLogging, Logger.stop_and_reset, Logger.on_async, Logger.init. wp_simpl. simpl.
  wp_simpl. simpl. wp_simpl.
  constructor; simpl; [|done|by destruct ndebug]. eexists. split_and!; [done|done|].
  constructor; try done. exists [], [], []. split_and!; try done.
  constructor; simpl; [by rewrite app_nil_r|done..].
Qed.

Lemma disable_running times L l :
  Running f L l -> zlen L < AsyncLogging.kBufferSize ->
  wp no_fault (Logger.disableAsyncLogging times)
    (fun _ l' => asyncLogging l' = None /\ flushed f L (lfs l')) l.
Proof.
  intros [(a & Ha & Hf & Hi) _ _] Hz. unfold Logger.disableAsyncLogging, Logger.stop_and_reset. wp_simpl.
  apply (on_async_demo _ a); [done..|]. wp_call (stop_demo f Hsmall times L); [done..|].
  intros _ a' Hfl. by wp_simpl.
Qed.
End logger.

(** ** What was said *)

#[export] Instance origin_eq_dec : EqDecision origin.
Proof. solve_decision. Defined.

Definition said (oc : origin * Call) : origin * string := (oc.1, c_msg oc.2).
Definition from_thread (i : nat) (tr : list (origin * string)) : list string :=
  map snd (filter (fun x => x.1 = Thread i) tr).
Definition total (ths : list nat) : nat := foldr Nat.add O ths.

(** What main says before its threads start and after they ended. *)
Definition before (p : main_pc) : list (origin * string) :=
  match p with MSetAsync | MSetLevel | MBanner => [] | _ => [(Main, msg_started)] end.
Definition after (p : main_pc) : list (origin * string) :=
  match p with
  | MSleep | MFinished => [(Main, msg_completed)]
  | MDisable | MReturned => [(Main, msg_completed); (Main, msg_finished)]
  | _ => []
  end.

Record mids (ths : list nat) (mid : list (origin * string)) : Prop := mkMids {
  md_origin : Forall (fun x => exists i, x.1 = Thread i /\ (i < length ths)%nat) mid;
  md_order : forall i j, ths !! i = Some j -> from_thread i mid = map (msg_thread i) (seq 0 j);
  md_length : length mid = total ths
}.

Record TInv (p : main_pc) (ths : list nat) (tr : list (origin * string)) : Prop := mkTInv {
  ti_trace : exists mid, tr = before p ++ mid ++ after p /\ mids ths mid;
  ti_count : (length ths <= numThreads)%nat /\ Forall (fun j => (j <= messagesPerThread)%nat) ths;
  ti_threads : match p with
    | MSetAsync | MSetLevel | MBanner => ths = []
    | MSpawn => True
    | MJoin i => length ths = numThreads /\ (i <= numThreads)%nat
        /\ forall k, (k < i)%nat -> ths !! k = Some messagesPerThread
    | _ => ths = replicate numThreads messagesPerThread
    end
}.

Lemma total_insert ths i j : ths !! i = Some j -> total (<[i := S j]> ths) = S (total ths).
Proof.
  revert i. induction ths as [|x ths IH]; intros [|i]; simpl; [done..|intros [= ->]; done|].
  intros Hi. rewrite IH by done. lia.
Qed.

Lemma from_thread_app i l1 l2 : from_thread i (l1 ++ l2) = from_thread i l1 ++ from_thread i l2.
Proof. unfold from_thread. by rewrite filter_app, map_app. Qed.

(** A thread says its next message. *)
Lemma mids_thread ths mid i j :
  mids ths mid -> ths !! i = Some j -> mids (<[i := S j]> ths) (mid ++ [(Thread i, msg_thread i j)]).
Proof.
  intros [Ho Hs Hl] Hi. pose proof (lookup_lt_Some _ _ _ Hi) as Hlt. constructor.
  - rewrite length_insert. apply Forall_app. split; [done|]. constructor; [by exists i|constructor].
  - intros k j' Hk. rewrite from_thread_app. unfold from_thread at 2. rewrite filter_cons.
    destruct (decide (k = i)) as [->|Hne].
    + rewrite list_lookup_insert_eq in Hk by done. injection Hk as <-.
      rewrite decide_True by done. rewrite (Hs i j Hi), seq_S, map_app. done.
    + rewrite list_lookup_insert_ne in Hk by done. rewrite decide_False by (simpl; congruence).
      simpl. by rewrite app_nil_r, (Hs k j').
  - rewrite length_app, Hl, (total_insert _ _ j) by done. simpl. lia.
Qed.

(** A thread is created. *)
Lemma mids_spawn ths mid : mids ths mid -> mids (ths ++ [O]) mid.
Proof.
  intros [Ho Hs Hl]. constructor.
  - eapply Forall_impl; [exact Ho|]. intros x (i & ? & ?). exists i. rewrite length_app. simpl. split; [done|lia].
  - intros i j Hi. apply lookup_app_Some in Hi as [Hi|[Hge Hi]]; [by apply Hs|].
    apply list_lookup_singleton_Some in Hi as [Hi <-]. simpl. unfold from_thread.
    rewrite filter_none; [done|]. intros x Hx E. rewrite Forall_forall in Ho.
    destruct (Ho x Hx) as (k & Hk & ?). rewrite Hk in E. injection E as ->. lia.
  - rewrite Hl. unfold total. induction ths as [|x ths IH]; simpl; [done|]. f_equal. clear -x.
    induction ths as [|y ths IH]; simpl; [done|]. by rewrite IH.
Qed.

Lemma total_bound ths :
  Forall (fun j => (j <= messagesPerThread)%nat) ths -> (total ths <= messagesPerThread * length ths)%nat.
Proof.
  unfold total, messagesPerThread. induction 1 as [|j ths Hj Hths IH]; cbn [foldr length]; lia.
Qed.

Lemma TInv_length p ths tr : TInv p ths tr -> (length tr <= 503)%nat.
Proof.
  intros [(mid & -> & [_ _ Hl]) [Hn Hj] _]. apply total_bound in Hj.
  unfold numThreads, messagesPerThread in *. rewrite !length_app, Hl.
  assert (length (before p) <= 1)%nat by (destruct p; simpl; lia).
  assert (length (after p) <= 2)%nat by (destruct p; simpl; lia). lia.
Qed.

(** main goes on without a message. *)
Lemma TInv_goto p p' ths tr :
  TInv p ths tr -> before p' = before p -> after p' = after p ->
  match p' with
  | MSetAsync | MSetLevel | MBanner => ths = []
  | MSpawn => True
  | MJoin i => length ths = numThreads /\ (i <= numThreads)%nat
      /\ forall k, (k < i)%nat -> ths !! k = Some messagesPerThread
  | _ => ths = replicate numThreads messagesPerThread
  end -> TInv p' ths tr.
Proof. intros [Ht Hc _] Hb Ha Hp. constructor; [by rewrite Hb, Ha|done..]. Qed.

Lemma TInv_started tr : TInv MBanner [] tr -> TInv MSpawn [] (tr ++ [(Main, msg_started)]).
Proof.
  intros [(mid & -> & Hm) Hc _]. constructor; [|done..]. exists [].
  assert (mid = []) as -> by (by apply nil_length_inv, (md_length [])). done.
Qed.

(** A message of main after its threads. *)
Lemma TInv_ended p p' ths tr msg :
  TInv p ths tr -> ths = replicate numThreads messagesPerThread ->
  before p' = before p -> after p' = after p ++ [(Main, msg)] ->
  match p' with MSleep | MFinished | MDisable | MReturned => True | _ => False end ->
  TInv p' ths (tr ++ [(Main, msg)]).
Proof.
  intros [(mid & -> & Hm) Hc _] Hths Hb Ha Hp. constructor; [|done|by destruct p'].
  exists mid. by rewrite Hb, Ha, <- !app_assoc.
Qed.

Lemma TInv_spawn ths tr :
  TInv MSpawn ths tr -> (length ths < numThreads)%nat -> TInv MSpawn (ths ++ [O]) tr.
Proof.
  intros [(mid & -> & Hm) [Hn Hj] _] Hlt. constructor; [|split|done].
  - exists mid. split; [done|by apply mids_spawn].
  - rewrite length_app. simpl. lia.
  - apply Forall_app. split; [done|]. constructor; [lia|constructor].
Qed.

(** A thread's message: main is creating or joining threads. *)
Lemma TInv_thread p ths tr i j :
  TInv p ths tr -> ths !! i = Some j -> (j < messagesPerThread)%nat ->
  TInv p (<[i := S j]> ths) (tr ++ [(Thread i, msg_thread i j)]) /\ p <> MSetAsync /\ p <> MReturned.
Proof.
  intros [(mid & -> & Hm) [Hn Hj] Hp] Hi Hlt.
  assert (ths <> replicate numThreads messagesPerThread) as Hne.
  { intros ->. apply lookup_replicate in Hi as [-> _]. lia. }
  assert (after p = []) as Ha by (destruct p; try done; by destruct Hne).
  split; [|split; intros ->; by subst].
  constructor.
  - exists (mid ++ [(Thread i, msg_thread i j)]). rewrite Ha, !app_nil_r, <- app_assoc.
    split; [done|by apply mids_thread].
  - rewrite length_insert. split; [done|]. by apply Forall_insert.
  - destruct p as [| | | |k| | | | |]; try done; try (by subst); try (by destruct Hne).
    destruct Hp as (Hl & Hk & Hdone). rewrite length_insert. split_and!; [done..|].
    intros q Hq. destruct (decide (q = i)) as [->|]; [|rewrite list_lookup_insert_ne; auto].
    rewrite (Hdone i Hq) in Hi. injection Hi as <-. lia.
Qed.

(** All threads were joined. *)
Lemma all_joined ths :
  length ths = numThreads -> (forall k, (k < numThreads)%nat -> ths !! k = Some messagesPerThread) ->
  ths = replicate numThreads messagesPerThread.
Proof.
  intros Hl Hk. apply list_eq_same_length with numThreads; [by rewrite length_replicate|done|].
  intros k x y Hlt Hx Hy. rewrite Hk in Hx by done. apply lookup_replicate in Hy as [-> _]. congruence.
Qed.

(** ** The invariant of runs *)

Record DInv (ndebug : bool) (f : Fs) (d : Demo) : Prop := mkDInv {
  di_trace : TInv (pc d) (threads d) (map said (logged d));
  di_short : Forall (fun oc => zlen (line oc.2) <= max_line) (logged d);
  di_logger : match pc d with
    | MSetAsync => logger d = Logger.init ndebug f
    | MReturned => asyncLogging (logger d) = None /\ flushed f (lines (logged d)) (lfs (logger d))
    | _ => Running f (lines (logged d)) (logger d)
    end
}.

Section demo.
Context (ndebug : bool) (f : Fs).
Context (Hsmall : zlen (old f) + AsyncLogging.kBufferSize <= rollSize).
Context (Hopen : openable f file_name = true).

Lemma lines_fit d c :
  DInv ndebug f d -> zlen (line c) <= max_line ->
  zlen (lines (logged d) ++ line c) < AsyncLogging.kBufferSize.
Proof.
  intros [Ht Hs _] Hc. apply TInv_length in Ht. rewrite length_map in Ht. apply lines_bound in Hs.
  rewrite zlen_app. unfold AsyncLogging.kBufferSize, max_line, zlen in *. lia.
Qed.

Lemma lines_fit_now d : DInv ndebug f d -> zlen (lines (logged d)) < AsyncLogging.kBufferSize.
Proof.
  intros [Ht Hs _]. apply TInv_length in Ht. rewrite length_map in Ht. apply lines_bound in Hs.
  unfold AsyncLogging.kBufferSize, max_line, zlen in *. lia.
Qed.

(** A log call of any thread while the writer exists. *)
Lemma info_wp o c d (Q : unit -> Demo -> Prop) :
  DInv ndebug f d -> zlen (line c) <= max_line -> Running f (lines (logged d)) (logger d) ->
  (forall l, Running f (lines (logged d ++ [(o, c)])) l ->
     Forall (fun oc => zlen (line oc.2) <= max_line) (logged d ++ [(o, c)]) ->
     Q tt (mkDemo l (pc d) (threads d) (logged d ++ [(o, c)]))) ->
  wp no_fault (info o c) Q d.
Proof.
  intros Hi Hc Hr HQ. unfold info, on_logger. rewrite wp_bind, wp_zoom.
  wp_call info_running; [exact Hr|by apply lines_fit|]. intros _ l Hl. wp_simpl. apply HQ.
  - rewrite lines_app. unfold lines at 2. simpl. by rewrite app_nil_r.
  - apply Forall_app. split; [by destruct Hi|]. by constructor.
Qed.

Lemma thread_step_ok i e d :
  DInv ndebug f d -> may_step (EvThread i e) d = true -> env_ok e = true ->
  wp no_fault (thread_step i e) (fun _ => DInv ndebug f) d.
Proof.
  intros Hi Hm He. unfold thread_step. wp_simpl. simpl in Hm.
  destruct (threads d !! i) as [j|] eqn:Hj; [|done]. rewrite Hm. apply Nat.ltb_lt in Hm.
  destruct (TInv_thread _ _ _ i j (di_trace _ _ _ Hi) Hj Hm) as (Ht & Hp1 & Hp2).
  assert (Running f (lines (logged d)) (logger d)) as Hr.
  { pose proof (di_logger _ _ _ Hi) as Hl. by destruct (pc d). }
  assert (i < numThreads)%nat as Hin.
  { destruct (ti_count _ _ _ (di_trace _ _ _ Hi)) as [Hn _]. apply lookup_lt_Some in Hj. lia. }
  wp_simpl. apply info_wp; [done|by apply line_short; [|apply msg_thread_short|]|done|].
  intros l Hl Hs. unfold set_threads. wp_simpl. constructor; simpl; [|done|by destruct (pc d)].
  by rewrite map_app.
Qed.

Lemma writer_step_ok e d :
  DInv ndebug f d -> Logger.writer_event e (logger d) = true -> busy_writer e (logger d) = true ->
  wp no_fault (run_event (EvWriter e)) (fun _ => DInv ndebug f) d.
Proof.
  intros Hi He Hb. pose proof (lines_fit_now d Hi) as Hz. simpl. unfold on_logger. wp_simpl.
  assert (asyncLogging (logger d) <> None) as Hne.
  { intros Hn. unfold Logger.writer_event in He. rewrite Hn in He. by destruct e. }
  pose proof Hi as [Ht Hs Hl].
  assert (pc d <> MSetAsync) as Hp1 by (intros Hp; rewrite Hp in Hl; by rewrite Hl in Hne).
  assert (pc d <> MReturned) as Hp2 by (intros Hp; rewrite Hp in Hl; by destruct Hl).
  assert (Running f (lines (logged d)) (logger d)) as Hr by (by destruct (pc d)).
  wp_call (writer_running f Hsmall e); [done..|]. intros _ l Hr'. constructor; simpl; [done..|].
  by destruct (pc d).
Qed.

(** main goes on without touching the logger. *)
Lemma goto_ok p' d :
  DInv ndebug f d -> TInv p' (threads d) (map said (logged d)) ->
  Running f (lines (logged d)) (logger d) -> p' <> MSetAsync -> p' <> MReturned ->
  wp no_fault (goto p') (fun _ => DInv ndebug f) d.
Proof.
  intros [Ht Hs _] Ht' Hr H1 H2. unfold goto. wp_simpl. constructor; simpl; [done..|]. by destruct p'.
Qed.

(** main logs a message and goes on. *)
Lemma main_info_ok msg n e p' d :
  DInv ndebug f d -> Running f (lines (logged d)) (logger d) -> env_ok e = true ->
  (String.length msg <= 50)%nat -> String.length (Logger.decimal n) = 2%nat ->
  TInv p' (threads d) (map said (logged d) ++ [(Main, msg)]) -> p' <> MSetAsync -> p' <> MReturned ->
  wp no_fault (info Main (the_call msg n e);;; goto p') (fun _ => DInv ndebug f) d.
Proof.
  intros Hi Hr He Hm Hn Ht H1 H2. wp_simpl. apply info_wp; [done|by apply line_short|done|].
  intros l Hl Hs. unfold goto. wp_simpl. constructor; simpl; [by rewrite map_app|done|by destruct p'].
Qed.

Lemma main_loops_ok e times d :
  DInv ndebug f d -> may_step (EvMain e times) d = true ->
  match pc d with MSpawn | MJoin _ => True | _ => False end ->
  wp no_fault (main_step e times) (fun _ => DInv ndebug f) d.
Proof.
  intros Hi Hm Hpc. pose proof Hi as [Ht Hs Hl]. unfold main_step. wp_simpl. simpl in Hm.
  destruct (pc d) as [| | | |k| | | | |] eqn:Hp; try done.
  - destruct (length (threads d) <? numThreads)%nat eqn:E.
    + apply Nat.ltb_lt in E. unfold set_threads. wp_simpl.
      constructor; simpl; rewrite ?Hp; [by apply TInv_spawn|done..].
    + apply Nat.ltb_ge in E. apply goto_ok; [done| |done..].
      apply (TInv_goto MSpawn); [done..|]. pose proof (proj1 (ti_count _ _ _ Ht)).
      split_and!; [lia|lia|]. intros k Hk. lia.
  - pose proof (ti_threads _ _ _ Ht) as (Hn & Hk & Hdone). simpl in Hn, Hk, Hdone.
    destruct (k <? numThreads)%nat eqn:E.
    + apply Nat.ltb_lt in E. apply goto_ok; [done| |done..]. apply (TInv_goto (MJoin k)); [done..|].
      split_and!; [done|lia|]. intros q Hq. destruct (decide (q = k)) as [->|]; [|apply Hdone; lia].
      unfold joinable in Hm. rewrite (proj2 (Nat.leb_gt _ _) E), orb_false_r in Hm.
      by apply bool_decide_eq_true in Hm.
    + apply Nat.ltb_ge in E. apply goto_ok; [done| |done..]. apply (TInv_goto (MJoin k)); [done..|].
      apply all_joined; [done|]. intros q Hq. apply Hdone. lia.
Qed.

Lemma main_step_ok e times d :
  DInv ndebug f d -> may_step (EvMain e times) d = true -> env_ok e = true ->
  wp no_fault (main_step e times) (fun _ => DInv ndebug f) d.
Proof.
  intros Hi Hm He. pose proof Hi as [Ht Hs Hl]. pose proof (ti_threads _ _ _ Ht) as Hth.
  assert (match pc d with MSpawn | MJoin _ => True | _ => False end ->
    wp no_fault (main_step e times) (fun _ => DInv ndebug f) d) as Hloop by (by apply main_loops_ok).
  unfold main_step in *. rewrite wp_bind, wp_gets in *. simpl in Hm.
  destruct (pc d) eqn:Hp; try done; try (by apply Hloop).
  - unfold on_logger. rewrite wp_bind, wp_zoom, Hl. wp_call set_async_running; [done..|].
    intros _ l Hr. unfold goto. wp_simpl. constructor; simpl; [by apply (TInv_goto MSetAsync)|done|].
    destruct (ti_trace _ _ _ Ht) as (mid & Htr & Hmid). rewrite Hth in Hmid.
    pose proof (md_length _ _ Hmid) as Hlen. apply nil_length_inv in Hlen as ->.
    by apply map_eq_nil in Htr as ->.
  - unfold on_logger, Logger.setLogLevel. wp_simpl. unfold goto. wp_simpl.
    constructor; simpl; [by apply (TInv_goto MSetLevel)|done|]. by destruct Hl; constructor.
  - rewrite Hth in Ht. apply main_info_ok; try done; [simpl; lia|].
    rewrite Hth. by apply TInv_started.
  - apply main_info_ok; try done; [simpl; lia|]. by apply (TInv_ended MCompleted).
  - apply goto_ok; [done| |done..]. by apply (TInv_goto MSleep).
  - apply main_info_ok; try done. by apply (TInv_ended MFinished).
  - unfold on_logger. rewrite wp_bind, wp_zoom. pose proof (lines_fit_now d Hi) as Hz.
    wp_call disable_running; [done..|]. intros _ l Hfl. unfold goto. wp_simpl.
    constructor; simpl; [by apply (TInv_goto MDisable)|done..].
Qed.

Lemma demo_event_ok ev d :
  DInv ndebug f d -> enabled ev d = true -> wp no_fault (run_event ev) (fun _ => DInv ndebug f) d.
Proof.
  intros Hi [Hm He]%andb_prop. destruct ev as [e times|i e|e].
  - by apply main_step_ok.
  - by apply thread_step_ok.
  - by apply writer_step_ok.
Qed.

Lemma demo_reach_inv d : reach (start ndebug f) d -> DInv ndebug f d.
Proof.
  induction 1 as [|d d' ev _ IH He Hr].
  - constructor; simpl; [|constructor|done]. constructor; [|split; [simpl; lia|constructor]|done].
    exists []. split; [done|]. constructor; [constructor|by intros ? ? ?|done].
  - pose proof (demo_event_ok ev d IH He) as Hwp. unfold wp in Hwp. by rewrite Hr in Hwp.
Qed.
End demo.

(** ** The number of steps *)

Definition rank (p : main_pc) : Z :=
  match p with
  | MSetAsync => 14 | MSetLevel => 13 | MBanner => 12 | MSpawn => 11
  | MJoin i => 5 + (Z.of_nat numThreads - Z.of_nat i)
  | MCompleted => 4 | MSleep => 3 | MFinished => 2 | MDisable => 1 | MReturned => 0
  end.
Definition steps_left (d : Demo) : Z :=
  rank (pc d) + 505 - zlen (threads d) - Z.of_nat (total (threads d)).
Definition by_writer (ev : event) : bool := match ev with EvWriter _ => true | _ => false end.

Definition any_fault (f : fault) : Prop := True.

(** The logger does not move the threads. *)
Lemma on_logger_keeps m d (Q : unit -> Demo -> Prop) :
  (forall l, Q tt (mkDemo l (pc d) (threads d) (logged d))) -> wp any_fault (on_logger m) Q d.
Proof.
  intros HQ. unfold on_logger. rewrite wp_zoom. unfold wp. by destruct (m (logger d)) as [[[] l]|].
Qed.

Lemma total_app l1 l2 : total (l1 ++ l2) = (total l1 + total l2)%nat.
Proof. unfold total. induction l1 as [|x l1 IH]; simpl; [done|]. rewrite IH. lia. Qed.

Lemma event_counts ndebug f ev d :
  DInv ndebug f d -> may_step ev d = true ->
  wp any_fault (run_event ev)
    (fun _ d' => steps_left d' = steps_left d - (if by_writer ev then 0 else 1)) d.
Proof.
  intros [Ht _ _] Hm. pose proof (ti_threads _ _ _ Ht) as Hth. unfold steps_left.
  destruct ev as [e times|i e|e]; simpl run_event; simpl by_writer; cbn iota; simpl in Hm.
  - unfold main_step, info. wp_simpl.
    destruct (pc d) eqn:Hp; wp_simpl; rewrite ?wp_bind;
      try (apply on_logger_keeps; intros l; unfold goto; wp_simpl; simpl; rewrite ?Hp; simpl; lia).
    + case_bool; [|unfold goto; wp_simpl; simpl; unfold numThreads; lia].
      unfold set_threads. wp_simpl. simpl. rewrite Hp, zlen_app, total_app. unfold zlen. simpl. lia.
    + destruct Hth as (_ & Hi & _). destruct (i <? numThreads)%nat eqn:E; unfold goto; wp_simpl; simpl.
      * unfold numThreads. lia.
      * apply Nat.ltb_ge in E. unfold numThreads in *. lia.
    + unfold goto. wp_simpl. simpl. lia.
    + done.
  - unfold thread_step, info. wp_simpl. destruct (threads d !! i) as [j|] eqn:Hj; [|done].
    rewrite Hm. wp_simpl. apply on_logger_keeps. intros l. unfold set_threads. wp_simpl. simpl.
    rewrite (total_insert _ _ j) by done. unfold zlen. rewrite length_insert. lia.
  - apply on_logger_keeps. intros l. simpl. lia.
Qed.

Lemma steps_left_0 ndebug f d : DInv ndebug f d -> steps_left d = 0 <-> pc d = MReturned.
Proof.
  intros [[_ [Hn Hj] Hth] _ _]. apply total_bound in Hj. unfold steps_left, zlen.
  unfold numThreads, messagesPerThread in *. split.
  - intros H0. destruct (pc d); simpl in *; try done; try lia.
    unfold numThreads in *. lia.
  - intros Hp. rewrite Hp in *. rewrite Hth. reflexivity.
Qed.

(** While main has not returned, it or a thread can go on. *)
Lemma demo_progress ndebug f d :
  DInv ndebug f d -> pc d <> MReturned -> exists ev, by_writer ev = false /\ enabled ev d = true.
Proof.
  intros [[_ [Hn Hj] Hth] _ _] Hp. set (e := mkEnv 0 1 "").
  destruct (may_step (EvMain e []) d) eqn:Hm.
  { exists (EvMain e []). split; [done|]. unfold enabled. by rewrite Hm. }
  simpl in Hm. destruct (pc d) as [| | | |i| | | | |] eqn:E; try done.
  destruct Hth as (Hl & Hi & _). unfold joinable in Hm. apply orb_false_iff in Hm as [Hd Hi2].
  apply Nat.leb_gt in Hi2. apply bool_decide_eq_false in Hd.
  destruct (lookup_lt_is_Some_2 (threads d) i) as [j Hij]; [lia|].
  rewrite Forall_lookup in Hj. pose proof (Hj i j Hij) as Hle.
  exists (EvThread i e). split; [done|]. unfold enabled. simpl. rewrite Hij.
  rewrite (proj2 (Nat.ltb_lt j messagesPerThread)); [done|].
  assert (j <> messagesPerThread) by (intros ->; done). lia.
Qed.

(** ** After an iteration without data *)

(** The writer waits with newBuffer1 null; [C] is in the current buffer. *)
Record Idle (f : Fs) (L C : list byte) (a : AsyncLogging) : Prop := mkIdle {
  id_at : at_ a = InBody;
  id_run : running_ a = true;
  id_front : currentBuffer_ a = Some C /\ nextBuffer_ a = Some [] /\ buffers_ a = [];
  id_back : newBuffer1 a = None /\ newBuffer2 a = Some [] /\ buffersToWrite a = [];
  id_file : logFile a = file_name;
  id_data : written f L (fs a)
}.

Definition idle_turn (t : list Z) : M AsyncLogging unit :=
  AsyncLogging.collect;;; AsyncLogging.flush t;;; AsyncLogging.test.

Lemma idle_turn_ok f L t a :
  WInv f L a -> at_ a = InBody -> busy a = false -> wp no_fault (idle_turn t) (fun _ => Idle f L []) a.
Proof.
  intros [Hr Hrun Hn Hb H2 Hf (D & P & C & Hd & Hc & -> & Hp)] Hat Hbusy. rewrite Hat in Hp.
  destruct Hp as (H1 & Hw & ->). unfold busy in Hbusy. rewrite Hb, Hc in Hbusy.
  destruct C; [|done]. unfold idle_turn, AsyncLogging.collect. wp_simpl. rewrite Hc, H1, Hb, Hn, Hw, H2.
  simpl. wp_simpl. unfold AsyncLogging.flush. wp_simpl. simpl. wp_simpl. unfold AsyncLogging.test.
  wp_simpl. simpl. rewrite Hrun. constructor; simpl; try done. by rewrite app_nil_r.
Qed.

Lemma idle_append f L l a :
  Idle f L [] a -> zlen l < AsyncLogging.kBufferSize ->
  wp no_fault (AsyncLogging.append l) (fun _ => Idle f L l) a.
Proof.
  intros [Hat Hrun (Hc & Hn & Hb) Hbk Hf Hd] Hz. unfold AsyncLogging.append. wp_simpl. rewrite Hc. wp_simpl.
  rewrite (proj2 (Z.ltb_lt _ _)) by (simpl; done). wp_simpl. by constructor.
Qed.

(** stop(): the buffer that was just queued is taken for the next lines. *)
Lemma idle_stop f L C times a :
  Idle f L C a -> wp no_fault (AsyncLogging.request_stop;;; Logger.join times) (fun _ a' => flushed f L (fs a')) a.
Proof.
  intros [Hat Hrun (Hc & Hn & Hb) (H1 & H2 & Hw) Hf Hd]. rewrite <- (app_nil_r L).
  unfold AsyncLogging.request_stop. wp_simpl. unfold Logger.join. wp_simpl. simpl. rewrite Hat. wp_simpl.
  unfold AsyncLogging.collect. wp_simpl. simpl. rewrite Hc, H1, Hb, Hn, Hw, H2.
  destruct (0 <? zlen C); simpl; wp_simpl; unfold AsyncLogging.flush; wp_simpl; simpl; wp_simpl;
    unfold AsyncLogging.test; wp_simpl; simpl; by apply final_demo.
Qed.

(** The last message is lost when the writer's wait times out during the sleep. *)
Lemma demo_idle_loses_last ndebug f d a t e times :
  openable f file_name = true -> zlen (old f) + AsyncLogging.kBufferSize <= rollSize ->
  reach (start ndebug f) d -> pc d = MFinished -> env_ok e = true ->
  asyncLogging (logger d) = Some a -> at_ a = InBody -> busy a = false ->
  exists d', (on_logger (Logger.on_async (idle_turn t));;; main_step e times;;; main_step e times) d
      = Ok (tt, d')
    /\ pc d' = MReturned /\ map said (logged d') = map said (logged d) ++ [(Main, msg_finished)]
    /\ files (lfs (logger d')) !! file_name = Some (old f ++ lines (logged d)).
Proof.
  intros Ho Hz Hr Hp He Ha Hat Hb. pose proof (demo_reach_inv ndebug f Hz Ho d Hr) as [_ _ Hl].
  rewrite Hp in Hl. destruct Hl as [(a0 & Ha0 & Hf & Hi) Hu Hlv]. rewrite Ha in Ha0. injection Ha0 as <-.
  assert (wp no_fault (on_logger (Logger.on_async (idle_turn t));;; main_step e times;;; main_step e times)
    (fun _ d' => pc d' = MReturned /\ map said (logged d') = map said (logged d) ++ [(Main, msg_finished)]
       /\ files (lfs (logger d')) !! file_name = Some (old f ++ lines (logged d))) d) as Hwp;
    [|apply wp_ok in Hwp as ([] & d' & ? & ?); by exists d'].
  rewrite wp_bind. unfold on_logger at 1. rewrite wp_zoom. apply (on_async_demo _ a); [done..|].
  wp_call (idle_turn_ok f _ t a Hi Hat Hb). intros _ a1 H1. rewrite wp_bind.
  unfold main_step at 1. rewrite wp_bind, wp_gets. simpl. rewrite Hp. unfold info, on_logger. wp_simpl.
  simpl. unfold Logger.logBase. wp_simpl. simpl. rewrite (proj2 (Z.ltb_ge _ _)) by done.
  unfold Logger.emit. wp_simpl. simpl. rewrite Hu. simpl. unfold Logger.appendToAsyncLog.
  apply (on_async_demo _ a1); [done..|].
  pose proof (line_short msg_finished 43 e He (le_n _) eq_refl) as Hline. unfold line in Hline.
  wp_call idle_append; [exact H1|unfold AsyncLogging.kBufferSize, max_line in *; lia|].
  intros _ a2 H2. unfold goto. wp_simpl. unfold main_step. wp_simpl. simpl. unfold on_logger.
  wp_simpl. simpl. unfold Logger.disableAsyncLogging, Logger.stop_and_reset. wp_simpl.
  apply (on_async_demo _ a2); [done..|]. wp_call idle_stop; [exact H2|]. intros _ a3 [Hfl _].
  unfold goto. wp_simpl. simpl. split_and!; [done|by rewrite map_app|exact Hfl].
Qed.

(** ** Properties *)

(** C39: the demonstration of the asynchronous log, with the writer finding data
    in each of its iterations: every step of main and its threads succeeds and
    brings main one step nearer to its return, until then one of them can take
    a step, and when main has returned the log file has kept what it held and
    got, byte for byte, the 503 lines: the first message, the 500 messages of
    the threads interleaved in some way, those of each thread in order, and the
    last two messages.  No other file has changed. *)
Theorem demo_log_complete ndebug f d :
  openable f file_name = true -> zlen (old f) + AsyncLogging.kBufferSize <= rollSize ->
  reach (start ndebug f) d ->
  (forall ev, enabled ev d = true -> exists d', run_event ev d = Ok (tt, d')
     /\ steps_left d' = steps_left d - (if by_writer ev then 0 else 1))
  /\ (steps_left d = 0 <-> pc d = MReturned)
  /\ (pc d <> MReturned -> exists ev, by_writer ev = false /\ enabled ev d = true)
  /\ (pc d = MReturned ->
       files (lfs (logger d)) !! file_name = Some (old f ++ lines (logged d))
       /\ (forall n, n <> file_name -> files (lfs (logger d)) !! n = files f !! n)
       /\ exists mid, map said (logged d)
            = (Main, msg_started) :: mid ++ [(Main, msg_completed); (Main, msg_finished)]
          /\ length mid = 500%nat
          /\ forall i, (i < 5)%nat -> from_thread i mid = map (msg_thread i) (seq 0 100)).
Proof.
  intros Ho Hz Hr. pose proof (demo_reach_inv ndebug f Hz Ho d Hr) as Hi. split_and!.
  - intros ev He. pose proof (demo_event_ok ndebug f Hz Ho ev d Hi He) as Hwp.
    apply wp_ok in Hwp as ([] & d' & E & _). exists d'. split; [done|].
    apply andb_prop in He as [Hm _]. pose proof (event_counts ndebug f ev d Hi Hm) as Hc.
    unfold wp in Hc. by rewrite E in Hc.
  - by apply (steps_left_0 ndebug f).
  - by apply (demo_progress ndebug f).
  - intros Hp. destruct Hi as [[(mid & Ht & [_ Hord Hlen]) _ Hth] _ Hl]. rewrite Hp in *.
    destruct Hl as (_ & Hfile & Hoth). split_and!; [done..|]. exists mid.
    rewrite Hth in Hlen, Hord. split_and!; [done|by rewrite Hlen|].
    intros i Hi. apply Hord. by apply lookup_replicate.
Qed.

(** A run: the threads take turns, the writer wakes up twice. *)
Definition demo_env (j : nat) : Env := mkEnv (1709251199000000000 + Z.of_nat j * 1000000) 4242 "Success".
Definition main_steps (n : nat) : list event := replicate n (EvMain (demo_env 200) []).
Definition writer_turn : list event :=
  [EvWriter AsyncLogging.EvTest; EvWriter AsyncLogging.EvCollect; EvWriter (AsyncLogging.EvFlush [])].
Definition round (j : nat) : list event := map (fun i => EvThread i (demo_env j)) (seq 0 5).
Definition sleeping_script : list event :=
  main_steps 9 ++ concat (map round (seq 0 60)) ++ writer_turn
  ++ concat (map round (seq 60 40)) ++ main_steps 7 ++ writer_turn ++ main_steps 1
  ++ [EvWriter AsyncLogging.EvTest].
Definition play_or (evs : list event) (d : Demo) : Demo := default d (play evs d).
Definition d_sleeping : Demo := play_or sleeping_script (start true empty_fs).
Definition d_demo : Demo := play_or (main_steps 2) d_sleeping.

Definition at_end (d : Demo) : bool := match pc d with MReturned => true | _ => false end.
(** The writer waits, and there is nothing to write. *)
Definition waiting (d : Demo) : bool :=
  match pc d, asyncLogging (logger d) with
  | MFinished, Some a => bool_decide (at_ a = InBody) && negb (busy a)
  | _, _ => false
  end.

Lemma play_or_some evs d d' : play evs d = Some d' -> play_or evs d = d'.
Proof. unfold play_or. by intros ->. Qed.

Lemma play_two (P Q : Demo -> bool) evs1 evs2 d0 :
  match play evs1 d0 with
  | Some d => P d && match play evs2 d with Some d' => Q d' | None => false end
  | None => false
  end = true ->
  exists d d', play evs1 d0 = Some d /\ play evs2 d = Some d' /\ P d = true /\ Q d' = true.
Proof.
  destruct (play evs1 d0) as [d|]; [|done]. intros [HP HQ]%andb_prop.
  destruct (play evs2 d) as [d'|] eqn:E; [|done]. by exists d, d'.
Qed.

Lemma d_demo_runs :
  (reach (start true empty_fs) d_sleeping /\ waiting d_sleeping = true)
  /\ reach (start true empty_fs) d_demo /\ pc d_demo = MReturned.
Proof.
  destruct (play_two waiting at_end sleeping_script (main_steps 2) (start true empty_fs))
    as (d & d' & E & E' & Hw & He); [vm_compute; reflexivity|].
  pose proof (demo_play_reach _ _ _ _ (reach_start _) E) as Hr.
  pose proof (demo_play_reach _ _ _ _ Hr E') as Hr'. apply play_or_some in E, E'.
  unfold d_demo, d_sleeping. rewrite E, E'. split_and!; [exact Hr|exact Hw|exact Hr'|].
  clear -He. unfold at_end in He. by destruct (pc d').
Qed.

Lemma waiting_spec d : waiting d = true ->
  exists a, pc d = MFinished /\ asyncLogging (logger d) = Some a /\ at_ a = InBody /\ busy a = false.
Proof.
  unfold waiting. destruct (pc d); try done. destruct (asyncLogging (logger d)) as [a|]; [|done].
  intros [Hat%bool_decide_eq_true Hb%negb_true_iff]%andb_prop. by exists a.
Qed.

Lemma trace_length l a b c mid : map said l = a :: mid ++ [b; c] -> length l = (3 + length mid)%nat.
Proof.
  intros H. apply (f_equal length) in H. rewrite length_map in H. simpl in H. rewrite length_app in H.
  simpl in H. lia.
Qed.

Lemma demo_log_complete_witness :
  files (lfs (logger d_demo)) !! file_name = Some (lines (logged d_demo))
  /\ length (logged d_demo) = 503%nat /\ steps_left d_demo = 0.
Proof.
  destruct d_demo_runs as [_ [Hr Hp]].
  destruct (demo_log_complete true empty_fs d_demo) as (_ & Hs & _ & Hfile);
    [reflexivity|vm_compute; discriminate|exact Hr|].
  destruct (Hfile Hp) as (Hf & _ & mid & Ht & Hlen & _). assert (old empty_fs = []) as E by reflexivity.
  rewrite E, app_nil_l in Hf. pose proof (trace_length _ _ _ _ _ Ht) as Hn. rewrite Hlen in Hn.
  split; [exact Hf|]. split; [exact Hn|exact (proj2 Hs Hp)].
Defined.

Lemma demo_idle_loses_last_witness :
  exists d', (on_logger (Logger.on_async (idle_turn []));;; main_step (demo_env 200) [];;;
      main_step (demo_env 200) []) d_sleeping = Ok (tt, d')
    /\ map said (logged d') = map said (logged d_sleeping) ++ [(Main, msg_finished)]
    /\ files (lfs (logger d')) !! file_name = Some (old empty_fs ++ lines (logged d_sleeping)).
Proof.
  destruct d_demo_runs as [[Hr Hw] _]. apply waiting_spec in Hw as (a & Hp & Ha & Hat & Hb).
  destruct (demo_idle_loses_last true empty_fs d_sleeping a [] (demo_env 200) []) as (d' & Hd & _ & Hrest);
    [reflexivity|vm_compute; discriminate|exact Hr|exact Hp|reflexivity|exact Ha|exact Hat|exact Hb|].
  exists d'. split; [exact Hd|exact Hrest].
Defined.
End AsyncDemoSpec.
