(* ===== verification/ThreadPool.v ===== *)
(** * ThreadPool (include/knetlib/ThreadPool.h, src/ThreadPool.cpp)

    Worker threads, any number of threads that call add, and one that runs the
    destructor interleave.  A step is a critical section of task_mtx, a
    notification, the end of a task, or the joins of the destructor.  A worker
    that waits on the condition variable sleeps until it is notified, or wakes
    spuriously.  [added], [started] and [finished] record the run; no
    definition reads them. *)

From stdpp Require Import relations.
From S2P Require Import Prelude.

Section pool.
Context {T : Type}.

(** A worker: about to take task_mtx, asleep in cv.wait, running a task, or
    returned. *)
Inductive worker : Type := WTop | WSleep | WRun (t : T) | WDone.

(** The destructor: not called, before notify_all, joining, returned. *)
Inductive dtor : Type := DNone | DNotify | DJoin | DDone.

Record pool : Type := mkPool {
  threads : list worker;
  tasks : list T;
  stop : bool;
  notifying : nat;         (* threads in add, before cv.notify_one() *)
  dying : dtor;
  added : list T;
  started : list T;
  finished : list T
}.

(** ThreadPool::ThreadPool(int size): no thread for a size that is not positive. *)
Definition construct (size : Z) : pool :=
  mkPool (replicate (Z.to_nat size) WTop) [] false 0 DNone [] [] [].

(** The critical section of add. *)
Definition add (t : T) (p : pool) : result pool :=
  if stop p then Err (Thrown "enqueue on stopped ThreadPool")
  else Ok (mkPool (threads p) (tasks p ++ [t]) (stop p) (S (notifying p)) (dying p)
             (added p ++ [t]) (started p) (finished p)).

(** The critical section of a worker: what it does next, the tasks left and
    the task taken. *)
Definition take_task (p : pool) : worker * list T * list T :=
  if stop p && bool_decide (tasks p = []) then (WDone, tasks p, [])
  else match tasks p with
       | [] => (WSleep, [], [])
       | t :: ts => (WRun t, ts, [t])
       end.

Definition wake (w : worker) : worker := match w with WSleep => WTop | _ => w end.
Definition is_asleep (w : worker) : bool := match w with WSleep => true | _ => false end.
Definition is_done (w : worker) : bool := match w with WDone => true | _ => false end.

Definition set_threads (ws : list worker) (p : pool) : pool :=
  mkPool ws (tasks p) (stop p) (notifying p) (dying p) (added p) (started p) (finished p).
Definition set_notifying (n : nat) (p : pool) : pool :=
  mkPool (threads p) (tasks p) (stop p) n (dying p) (added p) (started p) (finished p).
Definition set_dying (b : bool) (d : dtor) (p : pool) : pool :=
  mkPool (threads p) (tasks p) b (notifying p) d (added p) (started p) (finished p).

(** What the threads of the program do. *)
Inductive own_step : pool -> pool -> Prop :=
| step_add t p p' : add t p = Ok p' -> own_step p p'
| step_notify_one p n l1 l2 :                       (* cv.notify_one() with a waiter *)
    notifying p = S n -> threads p = l1 ++ WSleep :: l2 ->
    own_step p (set_notifying n (set_threads (l1 ++ WTop :: l2) p))
| step_notify_none p n :                            (* cv.notify_one() without one *)
    notifying p = S n -> forallb (fun w => negb (is_asleep w)) (threads p) = true ->
    own_step p (set_notifying n p)
| step_take p l1 l2 w ts started' :
    threads p = l1 ++ WTop :: l2 -> take_task p = (w, ts, started') ->
    own_step p (mkPool (l1 ++ w :: l2) ts (stop p) (notifying p) (dying p) (added p)
              (started p ++ started') (finished p))
| step_finish p l1 l2 t :
    threads p = l1 ++ WRun t :: l2 ->
    own_step p (mkPool (l1 ++ WTop :: l2) (tasks p) (stop p) (notifying p) (dying p) (added p)
              (started p) (finished p ++ [t]))
| step_destroy p :                                  (* stop = true *)
    dying p = DNone -> own_step p (set_dying true DNotify p)
| step_notify_all p :
    dying p = DNotify -> own_step p (set_dying (stop p) DJoin (set_threads (map wake (threads p)) p))
| step_join p :
    dying p = DJoin -> forallb is_done (threads p) = true ->
    own_step p (set_dying (stop p) DDone p).

(** cv.wait may also return although nobody has notified; no thread makes it. *)
Inductive spurious_wakeup : pool -> pool -> Prop :=
| step_spurious p l1 l2 :
    threads p = l1 ++ WSleep :: l2 -> spurious_wakeup p (set_threads (l1 ++ WTop :: l2) p).

Definition step (p p' : pool) : Prop := own_step p p' \/ spurious_wakeup p p'.

Definition reachable (size : Z) (p : pool) : Prop := rtc step (construct size) p.

(** ** The invariant *)

Definition running (w : worker) : list T := match w with WRun t => [t] | _ => [] end.
Definition in_progress (p : pool) : list T := concat (map running (threads p)).

Definition awake (w : worker) : Prop := match w with WTop | WRun _ => True | _ => False end.

Record Inv (p : pool) : Prop := mkInv {
  inv_fifo : added p = started p ++ tasks p;
  inv_once : started p ≡ₚ finished p ++ in_progress p;
  (* a queued task, or the stop, does not go unnoticed *)
  inv_noticed : tasks p <> [] -> (notifying p <> 0)%nat \/ Exists awake (threads p);
  inv_done : WDone ∈ threads p -> stop p = true /\ tasks p = [];
  inv_stop : stop p = match dying p with DNone => false | _ => true end;
  inv_join : match dying p with
    | DNone | DNotify => True
    | DJoin => WSleep ∉ threads p
    | DDone => Forall (fun w => is_done w = true) (threads p)
    end
}.

Lemma in_progress_app l1 w l2 :
  concat (map running (l1 ++ w :: l2)) ≡ₚ running w ++ concat (map running (l1 ++ l2)).
Proof.
  rewrite !map_app, !concat_app. simpl. rewrite !app_assoc.
  by rewrite (Permutation_app_comm _ (running w)).
Qed.

Lemma awake_app l1 w l2 : awake w -> Exists awake (l1 ++ w :: l2).
Proof. intros Hw. apply Exists_app. right. by left. Qed.

Lemma awake_replace l1 w w' l2 :
  (awake w -> awake w') -> Exists awake (l1 ++ w :: l2) -> Exists awake (l1 ++ w' :: l2).
Proof. rewrite !Exists_app, !Exists_cons. tauto. Qed.

Lemma wake_awake ws : Exists awake ws -> Exists awake (map wake ws).
Proof. induction 1 as [[]|]; simpl; [by left|done|by left|done|by right]. Qed.

Lemma wake_running ws : map running (map wake ws) = map running ws.
Proof. induction ws as [|[]]; simpl; congruence. Qed.

Lemma no_sleep ws : WSleep ∉ map wake ws.
Proof. induction ws as [|[] ws IH]; simpl; rewrite ?elem_of_cons; [apply not_elem_of_nil|naive_solver..]. Qed.

Lemma not_done ws : WDone ∈ map wake ws -> WDone ∈ ws.
Proof. induction ws as [|[] ws IH]; simpl; rewrite ?elem_of_cons; naive_solver. Qed.

(** A worker exists, and none has returned: one is awake or all are asleep. *)
Lemma all_asleep ws :
  WDone ∉ ws -> Exists awake ws \/ Forall (fun w => is_asleep w = true) ws.
Proof.
  induction ws as [|w ws IH]; intros Hd; [by right|].
  apply not_elem_of_cons in Hd as [Hw Hd]. destruct w; try done; [by left; left| |by left; left].
  destruct (IH Hd); [left; by right|right; by constructor].
Qed.

Lemma construct_inv size : Inv (construct size).
Proof.
  constructor; simpl; try done.
  - unfold in_progress. simpl. induction (Z.to_nat size); simpl; done.
  - intros Hin. apply elem_of_replicate in Hin as [? _]. done.
Qed.

(** What take_task yields. *)
Lemma take_task_spec p w ts ts' :
  take_task p = (w, ts, ts') ->
  tasks p = ts' ++ ts /\ running w = ts'
  /\ ((awake w /\ ts' <> []) \/ (w = WSleep /\ tasks p = [] /\ stop p = false)
      \/ (w = WDone /\ tasks p = [] /\ stop p = true)).
Proof.
  unfold take_task. destruct (stop p); simpl.
  - case_bool_decide as Ht; [|destruct (tasks p)]; intros [= <- <- <-]; [|done|].
    + rewrite Ht. split_and!; [done|done|]. by do 2 right.
    + split_and!; [done|done|]. by left.
  - destruct (tasks p); intros [= <- <- <-]; (split_and!; [done|done|]); [right; by left|by left].
Qed.

Lemma in_replace {A} (x y : A) l1 z l2 : x ∈ l1 ++ y :: l2 -> x = y \/ x ∈ l1 ++ z :: l2.
Proof. rewrite !elem_of_app, !elem_of_cons. tauto. Qed.

(** Replacing a worker by one that runs the same task. *)
Lemma replace_inv p l1 w w' l2 n :
  Inv p -> threads p = l1 ++ w :: l2 -> running w' = running w -> awake w' ->
  is_done w = false -> Inv (set_notifying n (set_threads (l1 ++ w' :: l2) p)).
Proof.
  intros [Hf Ho Hn Hd Hst Hj] Hth Hr Ha Hw. unfold in_progress in *. rewrite Hth in *.
  constructor; simpl; try done.
  - unfold in_progress. simpl. by rewrite Ho, !in_progress_app, Hr.
  - intros _. right. by apply awake_app.
  - intros Hin. apply (in_replace _ _ _ w) in Hin as [<-|Hin]; [done|by apply Hd].
  - destruct (dying p); try done.
    + intros Hin. apply (in_replace _ _ _ w) in Hin as [<-|Hin]; done.
    + rewrite Forall_app, Forall_cons in Hj. destruct Hj as (_ & ? & _). congruence.
Qed.

Lemma take_inv p l1 l2 w ts ts' :
  Inv p -> threads p = l1 ++ WTop :: l2 -> take_task p = (w, ts, ts') ->
  Inv (mkPool (l1 ++ w :: l2) ts (stop p) (notifying p) (dying p) (added p) (started p ++ ts')
         (finished p)).
Proof.
  intros [Hf Ho Hn Hd Hst Hj] Hth Ht. apply take_task_spec in Ht as (Hts & Hr & Hcase).
  unfold in_progress in *. rewrite Hth in *. constructor; simpl.
  - by rewrite Hf, Hts, app_assoc.
  - unfold in_progress. simpl. rewrite Ho, !in_progress_app, Hr. simpl.
    by rewrite <- !app_assoc, (Permutation_app_comm ts').
  - intros Hne. destruct Hcase as [[Ha _]|Hcase]; [right; by apply awake_app|].
    assert (tasks p = []) as E by (by destruct Hcase as [(_ & E & _)|(_ & E & _)]).
    rewrite E in Hts. symmetry in Hts. by apply app_eq_nil in Hts as [_ ?].
  - intros Hin. apply (in_replace _ _ _ WTop) in Hin as [<-|Hin].
    + destruct Hcase as [[[] _]|[[[=] _]|(_ & E & Es)]]. rewrite E in Hts. symmetry in Hts.
      by apply app_eq_nil in Hts as [_ ->].
    + apply Hd in Hin as [? E]. rewrite E in Hts. symmetry in Hts.
      by apply app_eq_nil in Hts as [_ ->].
  - done.
  - destruct (dying p); try done.
    + intros Hin. apply (in_replace _ _ _ WTop) in Hin as [<-|Hin]; [|done].
      destruct Hcase as [[[] _]|[(_ & _ & Es)|([=] & _)]]. congruence.
    + rewrite Forall_app, Forall_cons in Hj. by destruct Hj as (_ & ? & _).
Qed.

Lemma pool_step_inv p p' : threads p <> [] -> step p p' -> Inv p -> Inv p'.
Proof.
  intros Hne [Hs|[p1 l1 l2 Hth]] Hi; [|by apply (replace_inv p1 l1 WSleep WTop l2 (notifying p1))].
  destruct Hs as [t p p' Ha|p n l1 l2 _ Hth|p n _ Hall|p l1 l2 w ts ts' Hth Ht
    |p l1 l2 t Hth|p Hdy|p Hdy|p Hdy Hall].
  - unfold add in Ha. destruct (stop p) eqn:Es; simplify_eq.
    destruct Hi as [Hf Ho Hn Hd Hst Hj]. constructor; simpl; try done.
    + by rewrite Hf, app_assoc.
    + intros _. by left.
    + intros Hin. apply Hd in Hin as [? _]. congruence.
    + by rewrite <- Hst.
  - by apply (replace_inv p l1 WSleep).
  - destruct Hi as [Hf Ho Hn Hd Hst Hj]. constructor; simpl; try done. intros Ht. right.
    destruct (threads p) as [|w ws] eqn:E; [done|]. simpl in Hall.
    destruct w; [by left|done|by left|]. exfalso. destruct Hd; [by left|done].
  - by apply take_inv.
  - destruct Hi as [Hf Ho Hn Hd Hst Hj]. unfold in_progress in *. rewrite Hth in *.
    constructor; simpl; try done.
    + unfold in_progress. simpl. rewrite Ho, !in_progress_app. simpl.
      by rewrite <- app_assoc.
    + intros _. right. by apply awake_app.
    + intros Hin. apply (in_replace _ _ _ (WRun t)) in Hin as [[=]|Hin]. by apply Hd.
    + destruct (dying p); try done.
      * intros Hin. apply (in_replace _ _ _ (WRun t)) in Hin as [[=]|Hin]. done.
      * rewrite Forall_app, Forall_cons in Hj. by destruct Hj as (_ & ? & _).
  - destruct Hi as [Hf Ho Hn Hd Hst Hj]. constructor; simpl; try done.
    intros Hin. split; [done|]. by apply Hd in Hin as [_ ?].
  - destruct Hi as [Hf Ho Hn Hd Hst Hj]. rewrite Hdy in *. constructor; simpl; try done.
    + unfold in_progress in *. simpl. by rewrite wake_running.
    + intros Ht. destruct (Hn Ht) as [?|?]; [by left|right; by apply wake_awake].
    + intros Hin%not_done. by apply Hd.
    + apply no_sleep.
  - destruct Hi as [Hf Ho Hn Hd Hst Hj]. rewrite Hdy in *. constructor; simpl; try done.
    apply Forall_forall. intros x Hx. rewrite forallb_forall in Hall.
    by apply Hall, list_elem_of_In.
Qed.

Lemma step_threads p p' : threads p <> [] -> step p p' -> threads p' <> [].
Proof.
  intros Hne [Hs|Hs]; destruct Hs; simpl; try done; try (by destruct l1).
  - unfold add in *. destruct (stop p); by simplify_eq.
  - by destruct (threads p).
Qed.

Lemma pool_reachable_inv size p : 0 < size -> reachable size p -> threads p <> [] /\ Inv p.
Proof.
  intros Hs Hr. unfold reachable in Hr.
  assert (threads (construct size) <> [] /\ Inv (construct size)) as H0.
  { split; [|apply construct_inv]. simpl. destruct (Z.to_nat size) eqn:E; [lia|done]. }
  revert H0. induction Hr as [x|x y z Hstep _ IH]; [done|].
  intros [Hne Hi]. apply IH. split; [by eapply step_threads|by eapply pool_step_inv].
Qed.

(** ** Termination of the destructor *)

Definition weight (w : worker) : nat :=
  match w with WTop => 1 | WSleep => 2 | WRun _ => 2 | WDone => 0 end.
Definition weights (ws : list worker) : nat := foldr (fun w n => (weight w + n)%nat) 0%nat ws.

(** What is left to do once the destructor has set stop. *)
Definition work_left (p : pool) : nat :=
  (2 * length (tasks p) + weights (threads p) + notifying p
   + match dying p with DNone => 3 | DNotify => 2 | DJoin => 1 | DDone => 0 end)%nat.

Lemma weights_app l1 w l2 : weights (l1 ++ w :: l2) = (weight w + weights (l1 ++ l2))%nat.
Proof. induction l1 as [|x l1 IH]; simpl in *; [done|]. rewrite IH. lia. Qed.

Lemma weights_wake ws : (weights (map wake ws) <= weights ws)%nat.
Proof. induction ws as [|[] ws IH]; simpl; lia. Qed.

Lemma work_decreases p p' :
  Inv p -> stop p = true -> step p p' ->
  stop p' = true /\ added p' = added p /\ (work_left p' < work_left p)%nat.
Proof.
  intros [Hf Ho Hn Hd Hst Hj] Hs [Hstep|Hw]; unfold work_left;
    [|destruct Hw as [p l1 l2 Hth]; simpl; rewrite Hth, !weights_app; simpl;
      split_and!; [done|done|lia]].
  destruct Hstep as [t p p' Ha|p n l1 l2 Hno Hth|p n Hno _|p l1 l2 w ts ts' Hth Ht
    |p l1 l2 t Hth|p Hdy|p Hdy|p Hdy Hall]; simpl; try (by rewrite Hdy in Hst; congruence).
  - unfold add in Ha. by rewrite Hs in Ha.
  - rewrite Hno, Hth, !weights_app. simpl. split_and!; [done|done|lia].
  - rewrite Hno. split_and!; [done|done|lia].
  - apply take_task_spec in Ht as (Hts & _ & Hcase). rewrite Hth, !weights_app, Hts, length_app.
    split_and!; [done|done|]. destruct Hcase as [[Ha Hne]|[(_ & _ & ?)|(-> & E & _)]]; [|congruence|].
    + destruct ts'; [done|]. destruct w; simpl in *; try done; lia.
    + rewrite E in Hts. symmetry in Hts. apply app_eq_nil in Hts as [-> ->]. simpl. lia.
  - rewrite Hth, !weights_app. simpl. split_and!; [done|done|lia].
  - rewrite Hdy. pose proof (weights_wake (threads p)). split_and!; [done|done|lia].
  - rewrite Hdy. split_and!; [done|done|lia].
Qed.

Lemma find_busy (ws : list worker) :
  forallb is_done ws = false -> exists l1 w l2, ws = l1 ++ w :: l2 /\ is_done w = false.
Proof.
  induction ws as [|w ws IH]; simpl; [done|]. destruct (is_done w) eqn:E.
  - intros (l1 & x & l2 & -> & ?)%IH. by exists (w :: l1), x, l2.
  - intros _. by exists [], w, ws.
Qed.

(** Nobody needs a spurious wakeup: once the destructor is past notify_all no
    worker sleeps. *)
Lemma progress p :
  Inv p -> stop p = true ->
  (exists p', own_step p p') \/ (dying p = DDone /\ forallb is_done (threads p) = true).
Proof.
  intros [Hf Ho Hn Hd Hst Hj] Hs. destruct (dying p) eqn:Hdy; [congruence| | |].
  - left. eexists. by apply step_notify_all.
  - left. destruct (forallb is_done (threads p)) eqn:E; [eexists; by apply step_join|].
    apply find_busy in E as (l1 & w & l2 & Hth & Hw). destruct w as [| |t|]; [| | |done].
    + destruct (take_task p) as [[w ts] ts'] eqn:Ht. eexists. by eapply step_take.
    + exfalso. apply Hj. rewrite Hth. apply elem_of_app. right. by left.
    + eexists. by eapply step_finish.
  - right. split; [done|]. apply forallb_forall. intros x Hx%list_elem_of_In.
    rewrite Forall_forall in Hj. by apply Hj.
Qed.

Lemma done_idle (ws : list worker) : forallb is_done ws = true -> concat (map running ws) = [].
Proof. induction ws as [|[] ws IH]; simpl; auto; done. Qed.

(** ** Runs for the witnesses *)

Inductive label : Type :=
| Add (t : T) | NotifyOne (i : nat) | Take (i : nat) | Finish (i : nat) | Destroy | NotifyAll | Join.

Definition put (i : nat) (w : worker) (ws : list worker) : list worker :=
  take i ws ++ w :: drop (S i) ws.

Definition fire (l : label) (p : pool) : option pool :=
  match l with
  | Add t => match add t p with Ok p' => Some p' | Err _ => None end
  | NotifyOne i =>
      match notifying p, threads p !! i with
      | S n, Some WSleep => Some (set_notifying n (set_threads (put i WTop (threads p)) p))
      | S n, _ => if forallb (fun w => negb (is_asleep w)) (threads p)
                  then Some (set_notifying n p) else None
      | O, _ => None
      end
  | Take i =>
      match threads p !! i with
      | Some WTop =>
          let '(w, ts, ts') := take_task p in
          Some (mkPool (put i w (threads p)) ts (stop p) (notifying p) (dying p) (added p)
                  (started p ++ ts') (finished p))
      | _ => None
      end
  | Finish i =>
      match threads p !! i with
      | Some (WRun t) =>
          Some (mkPool (put i WTop (threads p)) (tasks p) (stop p) (notifying p) (dying p)
                  (added p) (started p) (finished p ++ [t]))
      | _ => None
      end
  | Destroy => match dying p with DNone => Some (set_dying true DNotify p) | _ => None end
  | NotifyAll =>
      match dying p with
      | DNotify => Some (set_dying (stop p) DJoin (set_threads (map wake (threads p)) p))
      | _ => None
      end
  | Join =>
      match dying p with
      | DJoin => if forallb is_done (threads p) then Some (set_dying (stop p) DDone p) else None
      | _ => None
      end
  end.

Fixpoint play (ls : list label) (p : pool) : option pool :=
  match ls with
  | [] => Some p
  | l :: ls' => match fire l p with Some p' => play ls' p' | None => None end
  end.

Lemma split_at (ws : list worker) i w :
  ws !! i = Some w -> ws = take i ws ++ w :: drop (S i) ws.
Proof. intros Hi. by rewrite (take_drop_middle ws i w Hi). Qed.

Lemma pool_fire_step l p p' : fire l p = Some p' -> own_step p p'.
Proof.
  destruct l as [t|i|i|i| | |]; simpl.
  - destruct (add t p) eqn:E; [|done]. intros [= <-]. by apply (step_add t).
  - destruct (notifying p) as [|n] eqn:En; [done|].
    assert (forall o, (if forallb (fun w => negb (is_asleep w)) (threads p)
              then Some (set_notifying n p) else o) = Some p' -> o = None -> own_step p p') as Hnone.
    { intros o. destruct (forallb _ _) eqn:Ea; [|by intros -> ?]. intros [= <-] _.
      by apply step_notify_none. }
    destruct (threads p !! i) as [[]|] eqn:Ei; try (intros H; by apply (Hnone None)).
    intros [= <-]. apply step_notify_one; [done|by apply split_at].
  - destruct (threads p !! i) as [[]|] eqn:Ei; try done.
    destruct (take_task p) as [[w ts] ts'] eqn:Et. intros [= <-].
    apply step_take; [by apply split_at|done].
  - destruct (threads p !! i) as [[]|] eqn:Ei; try done. intros [= <-].
    apply step_finish. by apply split_at.
  - destruct (dying p) eqn:E; try done. intros [= <-]. by apply step_destroy.
  - destruct (dying p) eqn:E; try done. intros [= <-]. by apply step_notify_all.
  - destruct (dying p) eqn:E; try done. destruct (forallb is_done _) eqn:Ea; [|done].
    intros [= <-]. by apply step_join.
Qed.

Lemma pool_play_steps ls p p' : play ls p = Some p' -> rtc step p p'.
Proof.
  revert p. induction ls as [|l ls IH]; simpl; intros p; [by intros [= <-]|].
  destruct (fire l p) as [p1|] eqn:Ef; [|done]. intros Hp.
  eapply rtc_l; [left; by eapply pool_fire_step|by apply IH].
Qed.
End pool.

Arguments worker : clear implicits.
Arguments pool : clear implicits.
Arguments label : clear implicits.
Arguments construct {T}.

(** ** Properties *)

(** Tasks start in the order in which they were added and each exactly once:
    the added tasks are those started followed by those queued, and the started
    ones are those that have finished and those that a worker is running.  A
    queued task is noticed: a worker is awake, or a thread is about to notify
    one. *)
Lemma tasks_start_once {T} size (p : pool T) :
  0 < size -> reachable size p ->
  added p = started p ++ tasks p
  /\ started p ≡ₚ finished p ++ in_progress p
  /\ (tasks p <> [] -> (notifying p <> 0)%nat \/ Exists awake (threads p)).
Proof. intros Hs Hr. by destruct (pool_reachable_inv size p Hs Hr) as [_ []]. Qed.

(** Two workers, three tasks; the destructor comes while one of them waits. *)
Definition pool_script : list (label nat) :=
  [ Take 0; Take 1; Add 1%nat; Add 2%nat; NotifyOne 0; Take 0; NotifyOne 1; Add 3%nat; Take 1;
    Finish 1; Destroy ].
Definition p_run : pool nat := default (construct 0) (play pool_script (construct 2)).

Lemma p_run_reachable : reachable 2 p_run.
Proof. apply (pool_play_steps pool_script). by vm_compute. Qed.

Lemma tasks_start_once_witness :
  added p_run = started p_run ++ tasks p_run /\ started p_run = [1; 2]%nat
  /\ tasks p_run = [3]%nat /\ in_progress p_run = [1]%nat.
Proof.
  destruct (tasks_start_once 2 p_run eq_refl p_run_reachable) as [Hf _].
  split; [exact Hf|]. clear Hf. vm_compute. by split_and!.
Defined.

(** C30: once the destructor has set stop, no task is added any more; every run,
    with or without spurious wakeups, ends within [work_left] steps; and as long
    as the destructor has not returned, some thread of the program has a step of
    its own, so that nobody waits for a spurious wakeup: the runs end with the
    destructor returned and every task ever added finished. *)
Theorem destructor_drains {T} size (p : pool T) :
  0 < size -> reachable size p -> stop p = true ->
  (forall t, add t p = Err (Thrown "enqueue on stopped ThreadPool"))
  /\ (forall n p', nsteps step n p p' -> (n <= work_left p)%nat)
  /\ (forall p', rtc step p p' -> (exists p'', own_step p' p'')
       \/ (dying p' = DDone /\ tasks p' = [] /\ added p' = added p /\ finished p' ≡ₚ added p)).
Proof.
  intros Hsz Hr Hs. destruct (pool_reachable_inv size p Hsz Hr) as [Hne Hi].
  split; [intros t; unfold add; by rewrite Hs|]. clear Hr. split.
  - intros n p' Hn. revert Hne Hi Hs. induction Hn as [|n x y z Hstep _ IH]; intros Hne Hi Hs; [lia|].
    destruct (work_decreases x y Hi Hs Hstep) as (Hs' & _ & Hlt).
    assert (n <= work_left y)%nat; [|lia].
    apply IH; [by eapply step_threads|by eapply pool_step_inv|done].
  - intros p' Hn. revert Hne Hi Hs. induction Hn as [x|x y z Hstep _ IH]; intros Hne Hi Hs.
    + destruct (progress x Hi Hs) as [?|[Hd Hall]]; [by left|right].
      destruct Hi as [Hf Ho Hn' Hd' _ _]. destruct (threads x) as [|w ws] eqn:E; [done|].
      destruct Hd' as [_ Ht].
      { simpl in Hall. destruct w; try done. by left. }
      split_and!; [done|done|done|]. rewrite Hf, Ht, app_nil_r, Ho.
      unfold in_progress. by rewrite E, done_idle, app_nil_r.
    + destruct (work_decreases x y Hi Hs Hstep) as (Hs' & Ha & _). rewrite <- Ha.
      apply IH; [by eapply step_threads|by eapply pool_step_inv|done].
Qed.

Definition p_end : pool nat :=
  default (construct 0)
    (play [NotifyAll; NotifyOne 0; Take 1; Finish 1; Take 1; Finish 0; Take 0; Join] p_run).

Lemma destructor_drains_witness :
  add 4%nat p_run = Err (Thrown "enqueue on stopped ThreadPool")
  /\ (8 <= work_left p_run)%nat
  /\ dying p_end = DDone /\ finished p_end ≡ₚ [1; 2; 3]%nat.
Proof.
  destruct (destructor_drains 2 p_run eq_refl p_run_reachable eq_refl) as (Ha & _ & Hend).
  split; [exact (Ha 4%nat)|]. split; [vm_compute; lia|].
  destruct (Hend p_end) as [(q & Hq)|(Hd & _ & _ & Hf)].
  - apply (pool_play_steps [NotifyAll; NotifyOne 0; Take 1; Finish 1; Take 1; Finish 0; Take 0; Join]).
    vm_compute. reflexivity.
  - clear Hend Ha. split; [vm_compute; reflexivity|vm_compute].
    symmetry. apply (Permutation_cons_append [2; 3]%nat 1%nat).
  - clear Hend Ha. split; [exact Hd|exact Hf].
Defined.
