(* ===== verification/EventLoopThread.v ===== *)
(** * EventLoopThread and EventLoopThreadPool
    (include/knetlib/EventLoopThread.h, src/EventLoopThread.cpp,
    include/knetlib/EventLoopThreadPool.h, src/EventLoopThreadPool.cpp)

    Module EventLoopThread: the owner, which calls startLoop and stop, and the
    new thread, which runs threadFunc, interleave; a step of [fire] is one
    access to what they share.  The EventLoop is seen through what the class
    uses of it: its lifetime, and quit_, which loop() sets to false when it
    starts and tests in its while condition (LoopProtocol shows that a quit()
    of another thread ends a blocked wait).  A third party may call quit() as
    well.  Module EventLoopThreadPool: the pool, over any way of starting a
    loop. *)

From stdpp Require Import relations.
From S2P Require Import Prelude.

Module EventLoopThread.

(** The owner: before startLoop, in startLoop about to test loop_ under the
    lock, asleep in cond_.wait, after startLoop; in stop before loop_->quit(),
    joining, and after stop. *)
Inductive owner : Type := OIdle | OTest | OSleep | OStarted | OQuit | OJoin | OStopped.

(** threadFunc: not started, before the critical section that publishes loop_,
    before loop(), in the loop, after it, before the end of the scope, ended. *)
Inductive thread : Type := TNone | TPublish | TEnter | TLooping | TExit | TCleared | TEnded.
#[global] Instance thread_eq_dec : EqDecision thread.
Proof. solve_decision. Defined.

Record state : Type := mkState {
  loop_ : bool;         (* loop_ is not null *)
  exiting_ : bool;
  at_owner : owner;
  at_thread : thread;
  alive : bool;         (* the EventLoop object exists *)
  quit_ : bool;         (* its quit_ *)
  quits : bool          (* quit() has been called *)
}.

Definition init : state := mkState false false OIdle TNone false false false.

Inductive label : Type :=
| StartLoop | Test | Spurious | Stop | Quit | Join
| ThreadStep
| ThirdQuit.

Definition goto (o : owner) (s : state) : state :=
  mkState (loop_ s) (exiting_ s) o (at_thread s) (alive s) (quit_ s) (quits s).
Definition set_thread (l : bool) (o : owner) (t : thread) (a q : bool) (s : state) : state :=
  mkState l (exiting_ s) o t a q (quits s).
Definition set_quit (o : owner) (s : state) : state :=
  mkState (loop_ s) (exiting_ s) o (at_thread s) (alive s) true true.

(** The next step of threadFunc. *)
Definition thread_step (s : state) : option state :=
  match at_thread s with
  | TNone => None
  | TPublish =>               (* loop_ = &loop; cond_.notify_one(); *)
      let o := match at_owner s with OSleep => OTest | o => o end in
      Some (set_thread true o TEnter (alive s) (quit_ s) s)
  | TEnter => Some (set_thread (loop_ s) (at_owner s) TLooping (alive s) false s)
  | TLooping =>
      if quit_ s then Some (set_thread (loop_ s) (at_owner s) TExit (alive s) (quit_ s) s) else None
  | TExit => Some (set_thread false (at_owner s) TCleared (alive s) (quit_ s) s)
  | TCleared => Some (set_thread (loop_ s) (at_owner s) TEnded false (quit_ s) s)
  | TEnded => None
  end.

(** [Err] is undefined behaviour or a failed assert. *)
Definition fire (l : label) (s : state) : option (result state) :=
  match l, at_owner s with
  | StartLoop, OIdle =>
      if loop_ s then Some (Err (AssertFailed "EventLoopThread::startLoop"))
      else Some (Ok (set_thread (loop_ s) OTest TPublish true false s))
  | Test, OTest => Some (Ok (goto (if loop_ s then OStarted else OSleep) s))
  | Spurious, OSleep => Some (Ok (goto OTest s))
  | Stop, (OIdle | OStarted | OStopped) =>
      if exiting_ s then Some (Ok (goto OStopped s))
      else
        let o := if loop_ s then OQuit else OJoin in
        Some (Ok (mkState (loop_ s) true o (at_thread s) (alive s) (quit_ s) (quits s)))
  | Quit, OQuit =>
      if alive s then Some (Ok (set_quit OJoin s))
      else Some (Err (UseAfterFree "EventLoopThread::stop"))
  | Join, OJoin =>
      match at_thread s with
      | TNone | TEnded => Some (Ok (goto OStopped s))
      | _ => None
      end
  | ThreadStep, _ =>
      match thread_step s with Some s' => Some (Ok s') | None => None end
  | ThirdQuit, (OStarted | OQuit | OJoin) =>
      if alive s then Some (Ok (set_quit (at_owner s) s)) else None
  | _, _ => None
  end.

Definition step (s s' : state) : Prop := exists l, fire l s = Some (Ok s').
Definition reachable (s : state) : Prop := rtc step init s.

Fixpoint play (ls : list label) (s : state) : option state :=
  match ls with
  | [] => Some s
  | l :: ls' => match fire l s with Some (Ok s') => play ls' s' | _ => None end
  end.

Lemma thread_play_steps ls s s' : play ls s = Some s' -> rtc step s s'.
Proof.
  revert s. induction ls as [|l ls IH]; simpl; intros s; [by intros [= <-]|].
  destruct (fire l s) as [[s1|]|] eqn:E; try done. intros Hp. eapply rtc_l; [by exists l|by apply IH].
Qed.

(** Where loop_ is set and where the loop object exists. *)
Definition published (t : thread) : bool :=
  match t with TEnter | TLooping | TExit => true | _ => false end.
Definition exists_in (t : thread) : bool :=
  match t with TPublish | TEnter | TLooping | TExit | TCleared => true | _ => false end.

Record Inv (s : state) : Prop := mkInv {
  inv_loop : loop_ s = published (at_thread s);
  inv_alive : alive s = exists_in (at_thread s);
  inv_owner : match at_owner s with
    | OIdle => at_thread s = TNone
    | OTest => at_thread s <> TNone
    | OSleep => at_thread s = TPublish
    | OStarted => at_thread s <> TNone /\ at_thread s <> TPublish
    | _ => at_thread s <> TPublish
    end;
  inv_quits : quits s = false -> quit_ s = false
    /\ match at_thread s with TExit | TCleared | TEnded => False | _ => True end;
  inv_fresh : match at_owner s with OIdle | OTest | OSleep => quits s = false | _ => True end
}.

Lemma thread_step_inv s s' : Inv s -> step s s' -> Inv s'.
Proof.
  intros [Hl Ha Ho Hq Hf] [l Hs].
  destruct s as [lp ex o t al q qs]. simpl in *.
  destruct l, o; simpl in *; unfold thread_step in *; simpl in *;
    destruct t; simpl in *; subst; simpl in *;
    repeat match goal with
    | H : context [if ?b then _ else _] |- _ => destruct b
    end; simplify_eq; constructor; simpl; try done; try tauto; try naive_solver.
Qed.

Lemma thread_reachable_inv s : reachable s -> Inv s.
Proof.
  intros Hr. assert (Inv init) as H0 by (by constructor). unfold reachable in Hr.
  revert H0. induction Hr as [|x y z Hs _ IH]; [done|]. intros H0. apply IH. by eapply thread_step_inv.
Qed.

(** Steps that the class itself makes: not spurious wakeups, not a third party. *)
Definition own (s s' : state) : Prop :=
  exists l, l <> Spurious /\ l <> ThirdQuit /\ l <> Stop /\ fire l s = Some (Ok s').

Lemma own_step l s s' :
  l <> Spurious -> l <> ThirdQuit -> l <> Stop -> fire l s = Some (Ok s') -> own s s'.
Proof. intros. by exists l. Qed.

(** ** Properties *)

(** C31: startLoop returns, and returns a loop that runs.  While the owner waits
    in it, steps of the two threads alone lead to its return; and when it has
    returned and nobody has called quit(), loop_ is set, the EventLoop exists
    and the thread is in loop() or about to call it. *)
Theorem startLoop_handshake s :
  reachable s ->
  (at_owner s = OTest \/ at_owner s = OSleep -> exists s', rtc own s s' /\ at_owner s' = OStarted)
  /\ (at_owner s = OStarted -> quits s = false ->
      loop_ s = true /\ alive s = true /\ (at_thread s = TEnter \/ at_thread s = TLooping)).
Proof.
  intros Hr. destruct (thread_reachable_inv s Hr) as [Hl Ha Ho Hq Hf].
  destruct s as [lp ex o t al q qs]. simpl in *. split.
  - assert (forall s, at_owner s = OTest -> loop_ s = true ->
              exists s', rtc own s s' /\ at_owner s' = OStarted) as Htest.
    { intros s Hs Hls. exists (goto OStarted s). split; [|done]. apply rtc_once.
      apply (own_step Test); [done..|]. simpl. by rewrite Hs, Hls. }
    assert (forall o, o = OTest \/ o = OSleep -> t = TPublish ->
              exists s', rtc own (mkState lp ex o t al q qs) s' /\ at_owner s' = OStarted) as Hpub.
    { intros o' Ho' ->. destruct (Htest (set_thread true OTest TEnter al q
        (mkState lp ex o' TPublish al q qs))) as (s' & Hs' & Hat); [done|done|].
      exists s'. split; [|done]. eapply rtc_l; [|exact Hs'].
      apply (own_step ThreadStep); [done..|]. simpl. by destruct Ho' as [->| ->]. }
    intros [->| ->]; [|by apply Hpub; [right|]].
    destruct (Hq Hf) as [_ Ht]. destruct (decide (t = TPublish)) as [->|Hp]; [by apply Hpub; [left|]|].
    apply Htest; [done|]. simpl. rewrite Hl. by destruct t.
  - intros -> ->. destruct Ho as [H1 H2], (Hq eq_refl) as [_ H3]. rewrite Hl, Ha.
    destruct t; try done; (split_and!; [done|done|tauto]).
Qed.

Definition s_wait : state := default init (play [StartLoop; Test] init).
Definition s_started : state := default init (play [StartLoop; Test; ThreadStep; Test] init).

Lemma startLoop_handshake_witness :
  (exists s', rtc own s_wait s' /\ at_owner s' = OStarted)
  /\ loop_ s_started = true /\ alive s_started = true.
Proof.
  split.
  - apply (startLoop_handshake s_wait).
    + apply (thread_play_steps [StartLoop; Test]). reflexivity.
    + right. reflexivity.
  - destruct (startLoop_handshake s_started) as [_ Hs].
    + apply (thread_play_steps [StartLoop; Test; ThreadStep; Test]). reflexivity.
    + destruct Hs as (H1 & H2 & _); [reflexivity|reflexivity|]. split; [exact H1|exact H2].
Defined.

(** Stop() right after startLoop can hang: if its quit() comes before the
    new thread is in loop(), loop() overwrites quit_; the thread stays in the
    loop and stop() in join, and no step of either is possible.  If the thread
    is in loop() when quit() is called, it ends and stop() returns.  If a third
    party has called quit() meanwhile, the loop can be gone when stop(), which
    read loop_ without the lock, calls quit() on it. *)
Lemma stop_can_hang :
  (exists s, reachable s /\ quits s = true /\ at_owner s = OJoin /\ at_thread s = TLooping
     /\ forall s', ~ own s s')
  /\ (forall s, reachable s -> at_owner s = OQuit -> at_thread s = TLooping ->
       exists s', rtc own s s' /\ at_owner s' = OStopped /\ at_thread s' = TEnded)
  /\ (exists s, reachable s /\ at_owner s = OQuit
       /\ fire Quit s = Some (Err (UseAfterFree "EventLoopThread::stop"))).
Proof.
  split; [|split].
  - set (ls := [StartLoop; Test; ThreadStep; Test; Stop; Quit; ThreadStep]).
    exists (mkState true true OJoin TLooping true false true). split; [|split_and!; try done].
    + by apply (thread_play_steps ls).
    + intros s' (l & H1 & H2 & H3 & Hf). by destruct l.
  - intros s Hr Ho Ht. destruct (thread_reachable_inv s Hr) as [Hl Ha _ _ _].
    destruct s as [lp ex o t al q qs]. simpl in *. subst. simpl in *.
    exists (mkState false ex OStopped TEnded false true true). split; [|done].
    eapply rtc_l; [by apply (own_step Quit)|]. do 3 (eapply rtc_l; [by apply (own_step ThreadStep)|]).
    eapply rtc_l; [by apply (own_step Join)|]. apply rtc_refl.
  - set (ls := [StartLoop; Test; ThreadStep; Test; ThreadStep; ThirdQuit; ThreadStep; Stop;
                ThreadStep; ThreadStep]).
    exists (mkState false true OQuit TEnded false true true). split; [|done].
    by apply (thread_play_steps ls).
Qed.
End EventLoopThread.

Module EventLoopThreadPool.

(** The loops are pointers; [started_threads] counts the EventLoopThread objects. *)
Record pool : Type := mkPool {
  baseLoop_ : Z;
  numThreads_ : Z;
  next_ : Z;
  started_ : bool;
  started_threads : nat;
  loops_ : list Z
}.

(** EventLoopThreadPool::EventLoopThreadPool *)
Definition new (baseLoop : Z) : result pool :=
  if baseLoop =? 0 then Err (AssertFailed "EventLoopThreadPool::EventLoopThreadPool")
  else Ok (mkPool baseLoop 0 0 false 0 []).

Abbreviation MP := (M pool).

Definition setThreadNum (numThreads : Z) : MP unit :=
  modify (fun p => mkPool (baseLoop_ p) numThreads (next_ p) (started_ p) (started_threads p)
                     (loops_ p)).

Section pool.
(** [startLoop n]: what startLoop of the n-th EventLoopThread returns.
    [in_base]: whether the caller is on the thread of baseLoop_. *)
Variable startLoop : nat -> Z.
Variable in_base : bool.

(** EventLoopThreadPool::start *)
Definition start : MP unit :=
  s <- gets started_;;
  assert_ "EventLoopThreadPool::start" (negb s);;;
  assert_ "EventLoopThreadPool::start" in_base;;;
  modify (fun p => mkPool (baseLoop_ p) (numThreads_ p) (next_ p) true (started_threads p)
                     (loops_ p));;;
  n <- gets numThreads_;;
  forM (seq 0 (Z.to_nat n)) (fun _ =>
    modify (fun p => mkPool (baseLoop_ p) (numThreads_ p) (next_ p) (started_ p)
                       (S (started_threads p)) (loops_ p ++ [startLoop (started_threads p)]))).

(** EventLoopThreadPool::getNextLoop *)
Definition getNextLoop : MP Z :=
  s <- gets started_;;
  assert_ "EventLoopThreadPool::getNextLoop" s;;;
  assert_ "EventLoopThreadPool::getNextLoop" in_base;;;
  p <- gets (fun p => p);;
  if bool_decide (loops_ p = []) then ret (baseLoop_ p)
  else
    match (if next_ p <? 0 then None else loops_ p !! Z.to_nat (next_ p)) with
    | None => throw OutOfBounds
    | Some loop =>
        let next := next_ p + 1 in
        let next := if zlen (loops_ p) <=? next then 0 else next in
        modify (fun p => mkPool (baseLoop_ p) (numThreads_ p) next (started_ p)
                           (started_threads p) (loops_ p));;;
        ret loop
    end.

(** EventLoopThreadPool::getAllLoops *)
Definition getAllLoops : MP (list Z) :=
  s <- gets started_;;
  assert_ "EventLoopThreadPool::getAllLoops" s;;;
  gets (fun p => baseLoop_ p :: loops_ p).

(** Calls of getNextLoop one after the other. *)
Fixpoint assign (n : nat) : MP (list Z) :=
  match n with
  | O => ret []
  | S n' => l <- getNextLoop;; ls <- assign n';; ret (l :: ls)
  end.
End pool.

(** Round robin: the i-th loop handed out, counted from where the pool stands. *)
Definition nth_loop (p : pool) (i : nat) : Z :=
  if bool_decide (loops_ p = []) then baseLoop_ p
  else default 0 (loops_ p !! ((Z.to_nat (next_ p) + i) mod length (loops_ p))%nat).

Definition WF (p : pool) : Prop :=
  started_ p = true /\ 0 <= next_ p /\ (loops_ p = [] \/ next_ p < zlen (loops_ p)).

Lemma start_spec startLoop p :
  started_ p = false -> next_ p = 0 -> loops_ p = [] -> started_threads p = O ->
  wp no_fault (start startLoop true)
    (fun _ p' => WF p' /\ loops_ p' = map startLoop (seq 0 (Z.to_nat (numThreads_ p)))
       /\ baseLoop_ p' = baseLoop_ p /\ next_ p' = 0) p.
Proof.
  intros Hs Hn Hl Ht. unfold start. wp_simpl. rewrite Hs. simpl. wp_simpl. simpl.
  eapply wp_mono; [apply (wp_forM _ (fun l p' =>
    exists done, done ++ l = seq 0 (Z.to_nat (numThreads_ p)) /\ started_ p' = true
      /\ next_ p' = 0 /\ baseLoop_ p' = baseLoop_ p
      /\ started_threads p' = length done /\ loops_ p' = map startLoop done))|].
  - exists []. by rewrite Ht, Hl.
  - intros a l p' (dn & Hd & Hst & Hnx & Hb & Hth & Hlo). wp_simpl. simpl. exists (dn ++ [a]).
    assert (a = length dn) as ->.
    { assert ((dn ++ a :: l) !! length dn = Some a) as E by by rewrite list_lookup_middle.
      rewrite Hd in E. by apply lookup_seq in E as [-> _]. }
    rewrite <- app_assoc, length_app, Hth, Hlo, map_app. simpl. split_and!; try done. lia.
  - intros _ p' (dn & Hd & Hst & Hnx & Hb & Hth & Hlo). rewrite app_nil_r in Hd. subst dn.
    split_and!; try done. split_and!; [done|lia|]. rewrite Hnx, Hlo.
    destruct (seq _ _); [by left|right]. unfold zlen. simpl. lia.
Qed.

Lemma getNextLoop_spec p :
  WF p -> wp no_fault (getNextLoop true)
    (fun l p' => WF p' /\ l = nth_loop p 0 /\ forall i, nth_loop p' i = nth_loop p (S i)) p.
Proof.
  intros Hwf. pose proof Hwf as (Hs & Hn & Hl). unfold getNextLoop, nth_loop. wp_simpl. rewrite Hs. wp_simpl.
  destruct (decide (loops_ p = [])) as [E|Hne].
  { rewrite E. simpl. wp_simpl. split; [done|]. split; [done|]. by rewrite E. }
  rewrite !bool_decide_eq_false_2 by done. wp_simpl.
  destruct Hl as [?|Hlt]; [done|]. unfold zlen in *.
  rewrite (proj2 (Z.ltb_ge _ _)) by lia.
  destruct (lookup_lt_is_Some_2 (loops_ p) (Z.to_nat (next_ p))) as [x Hx]; [lia|].
  rewrite Hx. wp_simpl. simpl. split; [split_and!; simpl; [done| |right]|].
  - case_bool; lia.
  - unfold zlen. case_bool; lia.
  - split; [by rewrite Nat.add_0_r, Nat.mod_small, Hx by lia|].
    intros i. rewrite bool_decide_eq_false_2 by done. do 2 f_equal. unfold zlen.
    case_bool.
    + assert (Z.to_nat (next_ p) + S i = i + 1 * length (loops_ p))%nat as -> by lia.
      by rewrite Nat.Div0.mod_add.
    + f_equal. lia.
Qed.

Lemma assign_spec n p :
  WF p -> wp no_fault (assign true n) (fun ls p' => WF p' /\ ls = map (nth_loop p) (seq 0 n)) p.
Proof.
  revert p. induction n as [|n IH]; intros p Hp; simpl; wp_simpl; [done|].
  wp_call getNextLoop_spec; [done|]. intros l p1 (H1 & -> & Hnth). wp_simpl.
  wp_call IH; [done|]. intros ls p2 (H2 & ->). wp_simpl. split; [done|]. f_equal.
  rewrite <- seq_shift, map_map. by apply map_ext.
Qed.

Lemma nth_loop_started startLoop num p i :
  loops_ p = map startLoop (seq 0 (Z.to_nat num)) -> next_ p = 0 ->
  nth_loop p i = if num <=? 0 then baseLoop_ p else startLoop (i mod Z.to_nat num)%nat.
Proof.
  intros Hl Hnx. unfold nth_loop. rewrite Hl, Hnx, length_map, length_seq. simpl.
  destruct (num <=? 0) eqn:E; bool_solve.
  - by replace (Z.to_nat num) with O by lia.
  - rewrite bool_decide_eq_false_2.
    + rewrite list_lookup_fmap, lookup_seq_lt; [done|]. apply Nat.mod_upper_bound. lia.
    + intros Hnil%(f_equal length). rewrite length_map, length_seq in Hnil. simpl in Hnil. lia.
Qed.

(** After start() the pool hands out its loops in turn: the i-th call of
    getNextLoop returns the loop of thread i modulo their number, or the base
    loop when there is none; no access leaves the vector and no assert fails. *)
Theorem getNextLoop_round_robin startLoop base num p n :
  new base = Ok p ->
  wp no_fault (setThreadNum num ;;; start startLoop true ;;; assign true n)
    (fun ls _ => ls = map (fun i =>
       if num <=? 0 then base else startLoop (i mod Z.to_nat num)%nat) (seq 0 n)) p.
Proof.
  unfold new. destruct (base =? 0); [done|]. intros [= <-]. unfold setThreadNum. wp_simpl. simpl.
  wp_call start_spec; [done..|]. intros _ p1 (Hwf & Hl & Hb & Hnx). simpl in *.
  wp_call assign_spec; [done|]. intros ls p2 [_ ->]. apply map_ext. intros i.
  rewrite (nth_loop_started startLoop num) by done. by rewrite Hb.
Qed.

Lemma getNextLoop_round_robin_witness :
  wp no_fault (setThreadNum 3 ;;; start (fun i => 100 + Z.of_nat i) true ;;; assign true 5)
    (fun ls _ => ls = [100; 101; 102; 100; 101]) (mkPool 50 0 0 false 0 []).
Proof.
  exact (getNextLoop_round_robin (fun i => 100 + Z.of_nat i) 50 3 _ 5 eq_refl).
Defined.
End EventLoopThreadPool.
