(* ===== verification/Acceptor.v ===== *)
(** * Acceptor: the listening socket
    (include/knetlib/Acceptor.h, src/Acceptor.cpp)

    The operations act on any state that contains the acceptor and its loop
    ([HasAcceptor], [HasLoop]); the callback newConnectionCallback_ is an
    argument, whatever its owner passes.  SYSFATAL and FATAL end the process. *)

From S2P Require Import Prelude InetAddress Posix Channel Epoll EventLoop.

Record Acceptor : Type := mkAcceptor {
  listening_ : bool;
  acceptfd_ : Z;
  acceptChannel_ : Channel unit;
  alocal_ : sockaddr_in;
  newConnectionCallback_ : bool     (* whether the callback is set *)
}.

(** States that contain an acceptor. *)
Class HasAcceptor (S : Type) : Type := {
  get_acceptor : S -> Acceptor;
  put_acceptor : Acceptor -> S -> S
}.

(** The acceptor and the loop are different parts of the state. *)
Class HasAcceptorLaws (K T S : Type) `{HasLoop K T S} `{HasAcceptor S} : Prop := {
  acceptor_put : forall a (s : S), get_acceptor (put_acceptor a s) = a;
  acceptor_put_loop : forall l (s : S), get_acceptor (put_loop l s) = get_acceptor s;
  loop_put_acceptor : forall a (s : S), get_loop (put_acceptor a s) = get_loop s
}.

Module Acceptor.
Section acceptor.
Context {K : Type} `{Posix K} {T S : Type} `{HasLoop K T S} `{HasAcceptor S}.

Definition os {A} (f : K -> A * K) : M S A := on_loop (loop_sys f).

(** A system call whose failure is reported with SYSFATAL. *)
Definition fatal {A} (msg : string) (f : K -> sysres A * K) : M S A :=
  r <- os f;;
  match r with SysOk a => ret a | SysErr _ => throw (Aborted msg) end.

Definition createSocket : M S Z := fatal "Acceptor createSocket" sys_socket.

(** Acceptor::Acceptor; [addr] is the address of the channel member. *)
Definition construct (addr : Z) (local : sockaddr_in) : M S Acceptor :=
  fd <- createSocket;;
  fatal "Acceptor setsockopt SO_REUSEADDR" (sys_reuseaddr fd);;;
  fatal "Acceptor bind" (sys_bind fd (InetAddress.getSockaddr local));;;
  ret (mkAcceptor false fd (Channel.new addr fd) local false).

(** Acceptor::~Acceptor: the descriptor is closed; the channel is not removed. *)
Definition destroy : M S unit :=
  fd <- gets (fun s => acceptfd_ (get_acceptor s));;
  when (negb (fd =? -1)) (_ <- os (sys_close fd);; ret tt).

Definition upd (f : Acceptor -> Acceptor) : M S unit :=
  modify (fun s => put_acceptor (f (get_acceptor s)) s).
Definition set_channel (c : Channel unit) (a : Acceptor) : Acceptor :=
  mkAcceptor (listening_ a) (acceptfd_ a) c (alocal_ a) (newConnectionCallback_ a).
Definition set_listening (a : Acceptor) : Acceptor :=
  mkAcceptor true (acceptfd_ a) (acceptChannel_ a) (alocal_ a) (newConnectionCallback_ a).

Definition listening (a : Acceptor) : bool := listening_ a.

Definition setNewConnectionCallback (f : bool) (a : Acceptor) : Acceptor :=
  mkAcceptor (listening_ a) (acceptfd_ a) (acceptChannel_ a) (alocal_ a) f.

Definition on_channel {A} (m : M (Channel unit * Loop K T) A) : M S A :=
  zoom (fun s => (acceptChannel_ (get_acceptor s), get_loop s))
    (fun p s => put_loop p.2 (put_acceptor (set_channel p.1 (get_acceptor s)) s)) m.

(** Acceptor::listen *)
Definition listen : M S unit :=
  on_loop assertInLoopThread;;;
  fd <- gets (fun s => acceptfd_ (get_acceptor s));;
  fatal "Acceptor listen fatal" (sys_listen fd);;;
  upd set_listening;;;
  upd (fun a => set_channel (Channel.setReadCallback (Some tt) (acceptChannel_ a)) a);;;
  on_channel ChannelOps.enableRead.

(** Acceptor::handleRead.  SYSERR and strerror may change errno; the switch is
    on the value saved before. *)
Definition handleRead (callback : Z -> sockaddr_in -> sockaddr_in -> M S unit) : M S unit :=
  on_loop assertInLoopThread;;;
  fd <- gets (fun s => acceptfd_ (get_acceptor s));;
  r <- os (sys_accept4 fd);;
  match r with
  | SysErr savedErrno =>
      _ <- os (errno_after_log savedErrno);;
      if (savedErrno =? ECONNABORTED) || (savedErrno =? EMFILE) then ret tt
      else throw (Aborted "unexpected accept4() error")
  | SysOk (sockfd, addr) =>
      a <- gets get_acceptor;;
      if newConnectionCallback_ a then
        callback sockfd (alocal_ a) (InetAddress.setAddress addr InetAddress.default)
      else _ <- os (sys_close sockfd);; ret tt
  end.

(** ** Specifications *)

Definition set_os (k : K) (s : S) : S := put_loop (set_kernel k (get_loop s)) s.

Context `{!HasLoopLaws K T S} `{!HasAcceptorLaws K T S}.

Lemma acceptor_os_wp {A} F (f : K -> A * K) (Q : A -> S -> Prop) s :
  Q (f (kernel (get_loop s))).1 (set_os (f (kernel (get_loop s))).2 s) -> wp F (os f) Q s.
Proof. intros HQ. unfold os, loop_sys. by wp_simpl. Qed.

Lemma acceptor_in_loop_wp F (Q : unit -> S -> Prop) s :
  isInLoopThread (get_loop s) = true -> Q tt s -> wp F (on_loop assertInLoopThread) Q s.
Proof.
  intros Hl HQ. rewrite wp_on_loop. apply Epoll.assertInLoopThread_wp; [done|].
  by rewrite put_get_loop.
Qed.

(** handleRead on every outcome of accept4. *)
Lemma acceptor_handleRead_wp F callback (Q : unit -> S -> Prop) s :
  isInLoopThread (get_loop s) = true ->
  (let a := get_acceptor s in
   let '(r, k1) := sys_accept4 (acceptfd_ a) (kernel (get_loop s)) in
   match r with
   | SysOk (sockfd, addr) =>
       if newConnectionCallback_ a
       then wp F (callback sockfd (alocal_ a) addr) Q (set_os k1 s)
       else Q tt (set_os (sys_close sockfd k1).2 s)
   | SysErr e =>
       if (e =? ECONNABORTED) || (e =? EMFILE) then Q tt (set_os (errno_after_log e k1).2 s)
       else F (Aborted "unexpected accept4() error")
   end) ->
  wp F (handleRead callback) Q s.
Proof.
  intros Hl HQ. unfold handleRead. rewrite wp_bind. apply acceptor_in_loop_wp; [done|].
  wp_simpl. apply acceptor_os_wp. destruct (sys_accept4 _ _) as [r k1] eqn:E. simpl in *.
  rewrite E in HQ.
  assert (forall k2, set_os k2 (set_os k1 s) = set_os k2 s) as Hset.
  { intros k2. unfold set_os. by rewrite get_put_loop, put_put_loop. }
  assert (kernel (get_loop (set_os k1 s)) = k1) as Hk
    by (unfold set_os; by rewrite get_put_loop).
  destruct r as [[sockfd addr]|e].
  - wp_simpl. assert (get_acceptor (set_os k1 s) = get_acceptor s) as ->
      by apply acceptor_put_loop.
    destruct (newConnectionCallback_ (get_acceptor s)); [done|].
    wp_simpl. apply acceptor_os_wp. rewrite Hset, Hk. by wp_simpl.
  - wp_simpl. apply acceptor_os_wp. rewrite Hset, Hk. destruct (_ || _); by wp_simpl.
Qed.
End acceptor.
End Acceptor.
