(* ===== verification/ConnectionI.v ===== *)
(** * ConnectionI: what a connection promises to the servers

    TcpServerSingle, TcpServer and TcpClient create connections, close them and
    are told when one closes.  [ConnectionI] names the operations they use, and
    [ConnectionLaws] what they rely on.  An EventLoop* is the id of the loop's
    thread: a thread has at most one loop (EventLoopLife), and calls are made on
    the thread of some loop.  TcpConnection implements the interface:
    [tcp_connection], [tcp_connection_laws]. *)

From S2P Require Import Prelude InetAddress Posix Buffer Channel Epoll EventLoop TcpConnection TcpConnectionSpec TcpConnectionRuns.

Class ConnectionI (C E : Type) : Type := {
  (* make_shared with the loop, setMessageCallback, setWriteCompleteCallback
     (whether each callback is set) and setCloseCallback *)
  conn_new : Z -> bool -> bool -> Z -> sockaddr_in -> sockaddr_in -> C;
  conn_loop : C -> Z;
  (* connectEstablished, called on a thread *)
  conn_establish : Z -> C -> result C;
  (* an event of the connection, and whether the environment can cause it *)
  conn_event : E -> C -> result C;
  conn_enabled : E -> C -> bool;
  (* forceClose, called on a thread *)
  conn_force_close : Z -> C -> result C;
  conn_disconnected : C -> bool;
  (* how often the close callback has run *)
  conn_closes : C -> nat;
  (* descriptors that no loop uses itself *)
  conn_fd_ok : Z -> bool
}.

(** A result that is [P], or stops with a fault that [F] allows. *)
Definition holds {A} (F : fault -> Prop) (P : A -> Prop) (r : result A) : Prop :=
  match r with Ok a => P a | Err f => F f end.

Lemma holds_mono {A} F (P P' : A -> Prop) r :
  (forall a, P a -> P' a) -> holds F P r -> holds F P' r.
Proof. destruct r; simpl; auto. Qed.

(** Faults of a connection are its own; a call on the wrong thread is none. *)
Definition own_fault (f : fault) : Prop :=
  match f with
  | Aborted _ | UseAfterFree _ | IteratorInvalidated _ | NullDeref _ => False
  | AssertFailed site => site <> "EventLoop::assertInLoopThread"
  | _ => True
  end.

Class ConnectionLaws (C E : Type) `{ConnectionI C E} : Type := {
  conn_ok : C -> Prop;
  establish_ok : forall l m w fd local peer, conn_fd_ok fd = true ->
    holds own_fault (fun c => conn_ok c /\ conn_loop c = l /\ conn_disconnected c = false)
      (conn_establish l (conn_new l m w fd local peer));
  event_ok_law : forall e c, conn_ok c -> conn_enabled e c = true ->
    holds own_fault (fun c' => conn_ok c' /\ conn_loop c' = conn_loop c
        /\ (conn_disconnected c = true -> conn_disconnected c' = true)) (conn_event e c);
  force_close_ok : forall c, conn_ok c -> conn_disconnected c = false ->
    holds own_fault (fun c' => conn_ok c' /\ conn_loop c' = conn_loop c
        /\ conn_disconnected c' = true) (conn_force_close (conn_loop c) c);
  force_close_remote_ok : forall me c, conn_ok c -> me <> conn_loop c ->
    holds own_fault (fun c' => conn_ok c' /\ conn_loop c' = conn_loop c
        /\ conn_disconnected c' = conn_disconnected c) (conn_force_close me c);
  closes_once : forall c, conn_ok c ->
    conn_closes c = if conn_disconnected c then 1%nat else 0%nat
}.

(** ** TcpConnection implements it *)

(** The events of a connection of a server: its own ones, and whatever the rest
    of the process and the network do to the system meanwhile. *)
Inductive conn_step (K : Type) : Type :=
| Own (e : event)
| Others (k : K).
Arguments Own {K}.
Arguments Others {K}.

Section tcp.
Context {K : Type} `{Posix K} `{!SocketLaws K} `{!ReadvLaws K}.

(** What the user's close callback does, the loops as a new connection finds
    them, the address of its channel, and the descriptors that accept4 and
    socket can return. *)
Variables (on_close : list api) (loops : Z -> Loop K ConnTask) (addr : Z) (fd_ok : Z -> bool).

Definition result_of {A} (m : M (CW K) A) (w : CW K) : result (CW K) :=
  match m w with Ok (_, w') => Ok w' | Err f => Err f end.

Definition tcp_new (l : Z) (m wc : bool) (fd : Z) (local peer : sockaddr_in) : CW K :=
  mkCW (TcpConnection.setCloseCallback true (TcpConnection.setWriteCompleteCallback wc
          (TcpConnection.setMessageCallback m (TcpConnection.new addr fd local peer b0)))) (loops l) [].

(** The thread [me] goes on with the connection. *)
Definition on_thread (me : Z) (w : CW K) : CW K :=
  mkCW (conn w) (set_current me (loop w)) (trace w).

Definition tcp_force_close (me : Z) (w : CW K) : result (CW K) :=
  result_of (if me =? tid_ (loop w) then TcpConnection.call on_close AForceClose
             else TcpConnection.remote_call on_close me AForceClose) w.

Definition tcp_step (e : conn_step K) (w : CW K) : result (CW K) :=
  match e with
  | Own e => result_of (run_event on_close e) w
  | Others k => Ok (mkCW (conn w) (set_kernel k (loop w)) (trace w))
  end.

(** Others do not write to the connection's descriptor. *)
Definition tcp_enabled (e : conn_step K) (w : CW K) : bool :=
  match e with
  | Own e => enabled e w
  | Others k => bool_decide (sent k (sockfd_ (conn w)) = sent_by w)
  end.

Definition tcp_connection : ConnectionI (CW K) (conn_step K) := {|
  conn_new := tcp_new;
  conn_loop w := tid_ (loop w);
  conn_establish me w := result_of (TcpConnection.connectEstablished 1) (on_thread me w);
  conn_event := tcp_step;
  conn_enabled := tcp_enabled;
  conn_force_close := tcp_force_close;
  conn_disconnected w := TcpConnection.disconnected (conn w);
  conn_closes w := closes (trace w);
  conn_fd_ok := fd_ok
|}.

(** The loops are named by their threads. *)
Context (on_close_ok : forallb api_okb on_close = true)
  (loops_named : forall l, tid_ (loops l) = l) (loops_tasks : forall l, pendingTasks_ (loops l) = [])
  (loops_fd : forall l fd, fd_ok fd = true -> wakeupfd_ (loops l) <> fd).

(** A connection at some point of a run: the invariant of its runs, from the
    state in which the loop has found it. *)
Definition tcp_ok (w : CW K) : Prop :=
  exists w0, fresh w0 /\ TcpConnection.closeCallback_ (conn w0) = true
    /\ kernel (loop w0) = kernel (loops (tid_ (loop w)))
    /\ RInv (sent_by w0) w /\ later w0 w.

Lemma conn_fault_own f : conn_fault f -> own_fault f.
Proof. by intros [[-> | ->]|[-> | ->]]. Qed.

Lemma event_fault_own e (w : CW K) f : event_fault on_close e w f -> own_fault f.
Proof. intros [?| ->]%event_fault_conn; [by apply conn_fault_own|done]. Qed.

Lemma holds_result_of {A} F (m : M (CW K) A) (P : CW K -> Prop) w :
  (forall f, F f -> own_fault f) ->
  wp F m (fun _ w' => P w') w -> holds own_fault P (result_of m w).
Proof.
  intros HF. unfold wp, result_of, holds. destruct (m w) as [[a w']|f]; [done|]. apply HF.
Qed.

Lemma tcp_new_fresh l m wc fd local peer :
  fd_ok fd = true -> fresh (on_thread l (tcp_new l m wc fd local peer)).
Proof.
  intros Hfd. destruct (Buffer.new_Buffer_spec Buffer.kInitialSize) as (b & Hb & Hwf & Hc & _);
    [by vm_compute..|].
  assert (b = b0) as -> by (unfold b0; by rewrite Hb). constructor; simpl; try done.
  - by apply loops_fd.
  - unfold isInLoopThread. simpl. by rewrite loops_named, Z.eqb_refl.
Qed.

Lemma tcp_establish_ok l m wc fd local peer :
  fd_ok fd = true ->
  holds own_fault (fun w => tcp_ok w /\ tid_ (loop w) = l /\ TcpConnection.disconnected (conn w) = false)
    (result_of (TcpConnection.connectEstablished 1) (on_thread l (tcp_new l m wc fd local peer))).
Proof.
  intros Hfd. pose proof (tcp_new_fresh l m wc fd local peer Hfd) as Hfr.
  set (w0 := on_thread _ _) in *.
  apply (holds_result_of conn_fault); [exact conn_fault_own|].
  eapply wp_mono; [apply (wp_and conn_fault _ (fun _ w => RInv (sent_by w0) w /\ later w0 w)
    (fun _ w => state_ (conn w) = kConnected))|].
  - by apply connectEstablished_ok.
  - unfold TcpConnection.connectEstablished. cw_simpl. simpl. cw_simpl.
    apply chan_mask_wp; simpl; [by destruct Hfr|done|by left; left|]. done.
  - intros _ w [[Hi Hl] Hst].
    assert (tid_ (loop w) = l) as Ht by (destruct Hl; rewrite lt_tid; apply loops_named).
    split_and!; [|done|].
    + exists w0. split_and!; [done|done| |done|done]. by rewrite Ht.
    + unfold TcpConnection.disconnected. by rewrite Hst.
Qed.

(** What an event keeps. *)
Lemma tcp_ok_later w w' :
  tcp_ok w -> (forall base, RInv base w -> RInv base w') -> later w w' -> tcp_ok w'.
Proof.
  intros (w0 & Hf & Hc & Hk & Hi & Hl) Hi' Hl'. exists w0. split_and!; [done|done| |by apply Hi'|by etrans].
  destruct Hl'. by rewrite lt_tid.
Qed.

Lemma tcp_event_wp e w :
  tcp_ok w -> enabled e w = true ->
  wp (event_fault on_close e w) (run_event on_close e) (fun _ w' => tcp_ok w' /\ later w w') w.
Proof.
  intros (w0 & Hf & Hc & Hk & Hi & Hl) He.
  wp_call (TcpConnectionRuns.event_ok on_close on_close_ok _ e w Hi He).
  intros _ w' (_ & Hi' & Hl'). split; [|done]. exists w0. split_and!; [done|done| |done|by etrans].
  destruct Hl'. by rewrite lt_tid.
Qed.

Lemma later_disconnected (w w' : CW K) :
  later w w' -> TcpConnection.disconnected (conn w) = true ->
  TcpConnection.disconnected (conn w') = true.
Proof.
  intros [] Hd%bool_decide_eq_true. apply bool_decide_eq_true. rewrite Hd in lt_rank.
  destruct (state_ (conn w')); simpl in *; try lia; done.
Qed.

(** The rest of the system changes. *)
Lemma tcp_others_ok k w :
  tcp_ok w -> sent k (sockfd_ (conn w)) = sent_by w ->
  tcp_ok (mkCW (conn w) (set_kernel k (loop w)) (trace w)).
Proof.
  intros Hw Hk. apply (tcp_ok_later w); [done| |by constructor].
  intros base [[[] Hs] ? ? ?]. unfold sent_by in Hk. constructor; [split| |..]; simpl; try done.
  - constructor; simpl; try done. by rewrite Hk.
  - intros Hd. rewrite Hk. by apply Hs.
Qed.

(** forceClose on the loop's thread closes before it returns. *)
Lemma tcp_force_close_wp w :
  tcp_ok w -> state_ (conn w) <> kDisconnected ->
  wp conn_fault (TcpConnection.call on_close AForceClose)
    (fun _ w' => state_ (conn w') = kDisconnected) w.
Proof.
  intros (w0 & _ & _ & _ & [Hi Hl _ _] & _) Hd.
  unfold TcpConnection.call, TcpConnection.run_api, TcpConnection.forceClose,
    TcpConnection.forceClose_exchange, TcpConnection.stateAtomicGetAndSet, TcpConnection.forceCloseInLoop.
  cw_simpl. rewrite bool_decide_eq_false_2 by done. cw_simpl.
  destruct (Inv_disconnecting _ w Hd Hi) as [Hi1 Hk1]. set (w1 := mkCW _ _ _) in *.
  apply in_loop_wp. change (isInLoopThread (loop w1)) with (isInLoopThread (loop w)).
  rewrite Hl. cw_simpl. apply assert_loop_wp; [done|]. cw_simpl. simpl. cw_simpl.
  wp_call (handleClose_ok conn_fault); [by intros f Hfa; left| |done|done|exact (Inv0_weaken _ _ Hi1)|].
  { apply apis_conn_allowed; [done|]. by apply apis_okb_ok. }
  by intros _ w2 (_ & _ & ?).
Qed.

(** From another thread it only queues the close. *)
Lemma tcp_remote_close_wp me w :
  tcp_ok w -> me <> tid_ (loop w) ->
  wp conn_fault (TcpConnection.remote_call on_close me AForceClose)
    (fun _ w' => TcpConnection.disconnected (conn w') = TcpConnection.disconnected (conn w)) w.
Proof.
  intros (w0 & _ & _ & _ & [Hi _ _ _] & _) Hme.
  unfold TcpConnection.remote_call. cw_simpl. rewrite wp_on_loop, wp_gets. cw_simpl.
  rewrite wp_on_loop, wp_modify. cw_simpl. simpl.
  set (w1 := mkCW (conn w) (set_current me (loop w)) (trace w)).
  assert (Inv (sent_by w0) w1) as Hi1 by (destruct Hi as [[] Hs]; split; [by constructor|done]).
  unfold TcpConnection.call, TcpConnection.run_api, TcpConnection.forceClose,
    TcpConnection.forceClose_exchange, TcpConnection.stateAtomicGetAndSet, TcpConnection.disconnected.
  cw_simpl. change (state_ (conn w1)) with (state_ (conn w)).
  case_bool_decide as Hd; cbn [negb]; cw_simpl; [rewrite wp_on_loop, wp_modify; by apply bool_decide_eq_true|].
  destruct (Inv_disconnecting _ w1 Hd Hi1) as [Hi2 _].
  assert (isInLoopThread (set_current me (loop w)) = false) as Hn.
  { unfold isInLoopThread. simpl. apply Z.eqb_neq. congruence. }
  apply in_loop_wp. cbn [loop w1]. rewrite Hn.
  apply queue_wp; [by destruct Hi2 as [[] _]|done|]. intros l' _ _.
  rewrite wp_on_loop, wp_modify. done.
Qed.

Lemma tcp_not_disconnected (w : CW K) :
  TcpConnection.disconnected (conn w) = false -> state_ (conn w) <> kDisconnected.
Proof. apply bool_decide_eq_false. Qed.

Lemma tcp_closes w :
  tcp_ok w -> closes (trace w) = if TcpConnection.disconnected (conn w) then 1%nat else 0%nat.
Proof.
  intros (w0 & _ & Hc & _ & [[[] _] _ _ _] & []). by rewrite inv_closes, lt_close, Hc.
Qed.

(** An event with what else is known of it. *)
Lemma tcp_own_event e w (P : CW K -> Prop) :
  tcp_ok w -> enabled e w = true -> wp conn_fault (run_event on_close e) (fun _ => P) w ->
  holds own_fault (fun w' => tcp_ok w' /\ tid_ (loop w') = tid_ (loop w) /\ later w w' /\ P w')
    (result_of (run_event on_close e) w).
Proof.
  intros Hw He HP. pose proof (tcp_event_wp e w Hw He) as Hwp. unfold holds, result_of, wp in *.
  destruct (run_event on_close e w) as [[[] w']|f]; [|by apply conn_fault_own].
  destruct Hwp as [? Hl]. split_and!; [done|by destruct Hl|done|done].
Qed.

Definition tcp_connection_laws : @ConnectionLaws (CW K) (conn_step K) tcp_connection.
Proof.
  refine (@Build_ConnectionLaws _ _ tcp_connection tcp_ok _ _ _ _ _); simpl.
  - intros l m w fd local peer Hfd. by apply tcp_establish_ok.
  - intros [e|k] w Hw He; simpl in *.
    + apply (holds_result_of (event_fault on_close e w)); [apply event_fault_own|].
      wp_call tcp_event_wp; [done|done|]. intros _ w' [Hw' Hl].
      split_and!; [done|by destruct Hl|by apply later_disconnected].
    + apply bool_decide_eq_true in He. split_and!; [by apply tcp_others_ok|done|done].
  - intros w Hw Hd. unfold tcp_force_close. rewrite Z.eqb_refl.
    eapply holds_mono; [|exact (tcp_own_event (EvCall AForceClose) w _ Hw eq_refl
      (tcp_force_close_wp w Hw (tcp_not_disconnected w Hd)))].
    intros w' (? & ? & _ & ?). split_and!; [done|done|by apply bool_decide_eq_true].
  - intros me w Hw Hme. unfold tcp_force_close. rewrite (proj2 (Z.eqb_neq _ _)) by done.
    assert (enabled (EvRemote me AForceClose) w = true) as He.
    { simpl. by rewrite (proj2 (Z.eqb_neq _ _)). }
    eapply holds_mono; [|exact (tcp_own_event (EvRemote me AForceClose) w _ Hw He
      (tcp_remote_close_wp me w Hw Hme))]. by intros w' (? & ? & _ & ?).
  - apply tcp_closes.
Defined.
End tcp.

(** ** Connections of the simulated system, for the witnesses *)

Definition sim_loops (l : Z) : Loop SimK ConnTask :=
  mkLoop sim_init l l false false (mkEpoll 128 3) [] (4 + l mod 6) [].
Definition sim_fd_ok (fd : Z) : bool := 10 <=? fd.

Lemma sim_loops_fd l fd : sim_fd_ok fd = true -> wakeupfd_ (sim_loops l) <> fd.
Proof. unfold sim_fd_ok, sim_loops. simpl. pose proof (Z.mod_pos_bound l 6). lia. Qed.

Definition sim_conn : ConnectionI (CW SimK) (conn_step SimK) :=
  tcp_connection [] sim_loops 7 sim_fd_ok.
Definition sim_conn_laws : @ConnectionLaws (CW SimK) (conn_step SimK) sim_conn :=
  tcp_connection_laws [] sim_loops 7 sim_fd_ok eq_refl (fun _ => eq_refl) (fun _ => eq_refl)
    sim_loops_fd.
