(* ===== verification/Connector.v ===== *)
(** * Connector: one attempt to connect
    (include/knetlib/Connector.h, src/Connector.cpp)

    The operations act on any state that contains the connector and its loop
    ([HasConnector], [HasLoop]); the two callbacks are arguments. *)

From S2P Require Import Prelude InetAddress Posix Channel Epoll EventLoop Acceptor.

Record Connector : Type := mkConnector {
  peer_ : sockaddr_in;
  sockfd_ : Z;
  connected_ : bool;
  started_ : bool;
  channel_ : Channel unit;
  newConnectionCallback_ : bool;    (* whether the callbacks are set *)
  errorCallback_ : bool
}.

(** States that contain a connector. *)
Class HasConnector (S : Type) : Type := {
  get_connector : S -> Connector;
  put_connector : Connector -> S -> S
}.

Class HasConnectorLaws (K T S : Type) `{HasLoop K T S} `{HasConnector S} : Prop := {
  connector_put : forall c (s : S), get_connector (put_connector c s) = c;
  connector_put_loop : forall l (s : S), get_connector (put_loop l s) = get_connector s;
  loop_put_connector : forall c (s : S), get_loop (put_connector c s) = get_loop s
}.

Module Connector.
Section connector.
Context {K : Type} `{Posix K} {T S : Type} `{HasLoop K T S} `{HasConnector S}.

Definition os {A} (f : K -> A * K) : M S A := on_loop (loop_sys f).

Definition createSocket : M S Z :=
  r <- os sys_socket;;
  match r with SysOk fd => ret fd | SysErr _ => throw (Aborted "Connector createSocket") end.

(** Connector::Connector; [addr] is the address of the channel member. *)
Definition construct (addr : Z) (peer : sockaddr_in) : M S Connector :=
  fd <- createSocket;;
  ret (mkConnector peer fd false false (Channel.setWriteCallback (Some tt) (Channel.new addr fd))
         false false).

Definition upd (f : Connector -> Connector) : M S unit :=
  modify (fun s => put_connector (f (get_connector s)) s).
Definition set_channel (c : Channel unit) (a : Connector) : Connector :=
  mkConnector (peer_ a) (sockfd_ a) (connected_ a) (started_ a) c (newConnectionCallback_ a)
    (errorCallback_ a).
Definition set_flags (co st : bool) (a : Connector) : Connector :=
  mkConnector (peer_ a) (sockfd_ a) co st (channel_ a) (newConnectionCallback_ a)
    (errorCallback_ a).

Definition setNewConnectionCallback (b : bool) (a : Connector) : Connector :=
  mkConnector (peer_ a) (sockfd_ a) (connected_ a) (started_ a) (channel_ a) b (errorCallback_ a).
Definition setErrorCallback (b : bool) (a : Connector) : Connector :=
  mkConnector (peer_ a) (sockfd_ a) (connected_ a) (started_ a) (channel_ a)
    (newConnectionCallback_ a) b.

Definition on_channel {A} (m : M (Channel unit * Loop K T) A) : M S A :=
  zoom (fun s => (channel_ (get_connector s), get_loop s))
    (fun p s => put_loop p.2 (put_connector (set_channel p.1 (get_connector s)) s)) m.

(** Connector::~Connector *)
Definition destroy : M S unit :=
  c <- gets get_connector;;
  when (started_ c && negb (connected_ c) && pooling (channel_ c))
    (on_channel ChannelOps.loop_removeChannel);;;
  when (negb (connected_ c) && negb (sockfd_ c =? -1))
    (_ <- os (sys_close (sockfd_ c));; ret tt).

Section callbacks.
Variables (on_new : Z -> sockaddr_in -> sockaddr_in -> M S unit) (on_error : M S unit).

(** Connector::handleWrite.  If getsockopt fails, errno is its error; if
    getsockname fails, the local address is indeterminate and stands as the
    default one here. *)
Definition handleWrite : M S unit :=
  on_loop assertInLoopThread;;;
  c <- gets get_connector;;
  assert_ "Connector::handleWrite" (started_ c);;;
  on_channel ChannelOps.loop_removeChannel;;;
  r <- os (sys_so_error (sockfd_ c));;
  let errno := match r with SysOk err => err | SysErr e => e end in
  if negb (errno =? 0) then
    _ <- os (errno_after_log errno);;
    when (errorCallback_ c) on_error
  else
    when (newConnectionCallback_ c)
      (a <- os (sys_getsockname (sockfd_ c));;
       local <- match a with
                | SysOk addr => ret addr
                | SysErr e => _ <- os (errno_after_log e);; ret InetAddress.default
                end;;
       upd (fun c => set_flags true (started_ c) c);;;
       on_new (sockfd_ c) local (peer_ c)).

(** Connector::start *)
Definition start : M S unit :=
  on_loop assertInLoopThread;;;
  c <- gets get_connector;;
  assert_ "Connector::start" (negb (started_ c));;;
  upd (fun c => set_flags (connected_ c) true c);;;
  r <- os (sys_connect (sockfd_ c) (InetAddress.getSockaddr (peer_ c)));;
  match r with
  | SysErr e => if negb (e =? EINPROGRESS) then handleWrite else on_channel ChannelOps.enableWrite
  | SysOk _ => handleWrite
  end.
End callbacks.
End connector.
End Connector.
