(* ===== verification/TcpClient.v ===== *)
(** * TcpClient: a connector, a retry timer and at most one connection
    (include/knetlib/TcpClient.h, src/TcpClient.cpp)

    The connection is any implementation of [ConnectionI].  Of the loop's timer
    queue the client sees the Timer objects that exist ([timers]): cancelTimer
    marks its argument and deletes it, so a null or deleted one is a fault, and
    a timer that is deleted while its callback runs is used afterwards
    (TimerQueueSpec.self_cancel_use_after_free).  [handed] and [closed] record
    what happens to the descriptors of the connectors. *)

From S2P Require Import Prelude InetAddress Posix Channel Epoll EventLoop Connector ConnectionI.

Record TcpClient (C K : Type) : Type := mkClient {
  loop_ : Loop K unit;              (* its tasks are closures of disconnect *)
  cpeer_ : sockaddr_in;
  connected_ : bool;
  retryTimer_ : Z;
  connector_ : Connector;
  connection_ : option C;
  connectionCallback_ : bool;       (* whether the callbacks are set *)
  messageCallback_ : bool;
  writeCompleteCallback_ : bool;
  cerrorCallback_ : bool;
  timers : gset Z;
  next_timer : Z;
  handed : list Z;
  closed : list Z
}.
Arguments mkClient {C K}.
Arguments loop_ {C K}.
Arguments cpeer_ {C K}.
Arguments connected_ {C K}.
Arguments retryTimer_ {C K}.
Arguments connector_ {C K}.
Arguments connection_ {C K}.
Arguments connectionCallback_ {C K}.
Arguments messageCallback_ {C K}.
Arguments writeCompleteCallback_ {C K}.
Arguments cerrorCallback_ {C K}.
Arguments timers {C K}.
Arguments next_timer {C K}.
Arguments handed {C K}.
Arguments closed {C K}.

Module TcpClient.

#[export] Instance client_has_loop {C K} : HasLoop K unit (TcpClient C K) :=
  {| get_loop := loop_;
     put_loop l s := mkClient l (cpeer_ s) (connected_ s) (retryTimer_ s) (connector_ s) (connection_ s)
       (connectionCallback_ s) (messageCallback_ s) (writeCompleteCallback_ s) (cerrorCallback_ s)
       (timers s) (next_timer s) (handed s) (closed s) |}.
#[export] Instance client_has_loop_laws {C K} : HasLoopLaws K unit (TcpClient C K).
Proof. constructor; [done..|by intros []]. Qed.
#[export] Instance client_has_connector {C K} : HasConnector (TcpClient C K) :=
  {| get_connector := connector_;
     put_connector c s := mkClient (loop_ s) (cpeer_ s) (connected_ s) (retryTimer_ s) c (connection_ s)
       (connectionCallback_ s) (messageCallback_ s) (writeCompleteCallback_ s) (cerrorCallback_ s)
       (timers s) (next_timer s) (handed s) (closed s) |}.
#[export] Instance client_has_connector_laws {C K} : HasConnectorLaws K unit (TcpClient C K).
Proof. by constructor. Qed.

Section operations.
Context {C E K : Type} `{Posix K} `{ConnectionI C E}.
Abbreviation MC := (M (TcpClient C K)).

Definition set_connection (b : bool) (c : option C) (s : TcpClient C K) : TcpClient C K :=
  mkClient (loop_ s) (cpeer_ s) b (retryTimer_ s) (connector_ s) c
    (connectionCallback_ s) (messageCallback_ s) (writeCompleteCallback_ s) (cerrorCallback_ s)
    (timers s) (next_timer s) (handed s) (closed s).
Definition set_timer (p : Z) (live : gset Z) (n : Z) (s : TcpClient C K) : TcpClient C K :=
  mkClient (loop_ s) (cpeer_ s) (connected_ s) p (connector_ s) (connection_ s)
    (connectionCallback_ s) (messageCallback_ s) (writeCompleteCallback_ s) (cerrorCallback_ s)
    live n (handed s) (closed s).
Definition set_callbacks (c m w e : bool) (s : TcpClient C K) : TcpClient C K :=
  mkClient (loop_ s) (cpeer_ s) (connected_ s) (retryTimer_ s) (connector_ s) (connection_ s)
    c m w e (timers s) (next_timer s) (handed s) (closed s).
Definition record_fds (h c : list Z) (s : TcpClient C K) : TcpClient C K :=
  mkClient (loop_ s) (cpeer_ s) (connected_ s) (retryTimer_ s) (connector_ s) (connection_ s)
    (connectionCallback_ s) (messageCallback_ s) (writeCompleteCallback_ s) (cerrorCallback_ s)
    (timers s) (next_timer s) (handed s ++ h) (closed s ++ c).

(** TcpClient::TcpClient; its connector [c] is Connector(loop, peer). *)
Definition new (l : Loop K unit) (peer : sockaddr_in) (c : Connector) : TcpClient C K :=
  mkClient l peer false 0 (Connector.setNewConnectionCallback true c) None false false false false
    ∅ 1 [] [].

Definition setConnectionCallback (b : bool) (s : TcpClient C K) : TcpClient C K :=
  set_callbacks b (messageCallback_ s) (writeCompleteCallback_ s) (cerrorCallback_ s) s.
Definition setMessageCallback (b : bool) (s : TcpClient C K) : TcpClient C K :=
  set_callbacks (connectionCallback_ s) b (writeCompleteCallback_ s) (cerrorCallback_ s) s.
Definition setWriteCompleteCallback (b : bool) (s : TcpClient C K) : TcpClient C K :=
  set_callbacks (connectionCallback_ s) (messageCallback_ s) b (cerrorCallback_ s) s.
Definition setErrorCallback (b : bool) (s : TcpClient C K) : TcpClient C K :=
  put_connector (Connector.setErrorCallback b (connector_ s))
    (set_callbacks (connectionCallback_ s) (messageCallback_ s) (writeCompleteCallback_ s) b s).

Definition of_result {A} (r : result A) : MC A :=
  match r with Ok a => ret a | Err f => throw f end.

(** The timer queue of the loop. *)
Definition runEvery : MC Z :=
  s <- gets (fun s => s);;
  modify (set_timer (retryTimer_ s) ({[next_timer s]} ∪ timers s) (next_timer s + 1));;;
  ret (next_timer s).
Definition cancelTimer (p : Z) : MC unit :=
  s <- gets (fun s => s);;
  ensure (NullDeref "TimerQueue::cancelTimer") (negb (p =? 0));;;
  ensure (UseAfterFree "TimerQueue::cancelTimer") (bool_decide (p ∈ timers s));;;
  modify (set_timer (retryTimer_ s) (timers s ∖ {[p]}) (next_timer s)).

(** TcpClient::newConnection. *)
Definition newConnection (connfd : Z) (local peer : sockaddr_in) : MC unit :=
  on_loop assertInLoopThread;;;
  p <- gets retryTimer_;;
  cancelTimer p;;;
  modify (fun s => set_timer 0 (timers s) (next_timer s) s);;;
  modify (record_fds [connfd] []);;;
  s <- gets (fun s => s);;
  let c := conn_new (tid_ (loop_ s)) (messageCallback_ s) (writeCompleteCallback_ s) connfd local peer in
  modify (set_connection true (Some c));;;
  c' <- of_result (conn_establish (current_tid (loop_ s)) c);;
  modify (set_connection true (Some c')).

(** The error callback is the user's. *)
Definition on_error : MC unit := ret tt.

(** TcpClient::start *)
Definition start : MC unit :=
  on_loop assertInLoopThread;;;
  Connector.start newConnection on_error;;;
  p <- runEvery;;
  modify (fun s => set_timer p (timers s) (next_timer s) s).

(** TcpClient::retry; [addr] is the address of the new connector's channel. *)
Definition retry (addr : Z) : MC unit :=
  on_loop assertInLoopThread;;;
  s <- gets (fun s => s);;
  if connected_ s then ret tt
  else
    let old := connector_ s in
    Connector.destroy;;;
    modify (record_fds [] (if Connector.connected_ old then [] else [sockfd_ old]));;;
    c <- Connector.construct addr (cpeer_ s);;
    modify (put_connector (Connector.setErrorCallback (cerrorCallback_ s)
              (Connector.setNewConnectionCallback true c)));;;
    Connector.start newConnection on_error.

(** TcpClient::closeConnection, the connection's close callback. *)
Definition closeConnection : MC unit :=
  on_loop assertInLoopThread;;;
  modify (set_connection false None).

(** Something happens to the connection; if its close callback runs, so does
    closeConnection. *)
Definition run_conn (f : C -> result C) : MC unit :=
  s <- gets (fun s => s);;
  match connection_ s with
  | None => ret tt
  | Some c =>
      c' <- of_result (f c);;
      if (conn_closes c <? conn_closes c')%nat then closeConnection
      else modify (set_connection (connected_ s) (Some c'))
  end.

(** TcpClient::disconnect, given what shutdown does to a connection: the closure
    queued on the loop, and the call. *)
Definition disconnect_task (shutdown : C -> result C) (_ : unit) : MC unit :=
  c <- gets connection_;;
  match c with
  | None => ret tt
  | Some c => when (negb (conn_disconnected c)) (run_conn shutdown)
  end.
Definition disconnect (shutdown : C -> result C) : MC unit :=
  c <- gets connection_;;
  match c with
  | None => ret tt
  | Some c =>
      when (negb (conn_disconnected c))
        (b <- on_loop (gets isInLoopThread);;
         if (b : bool) then run_conn shutdown
         else EventLoop.runInLoop (disconnect_task shutdown) tt)
  end.

(** TcpClient::~TcpClient *)
Definition destroy : MC unit :=
  s <- gets (fun s => s);;
  match connection_ s with
  | None => ret tt
  | Some c => when (negb (conn_disconnected c)) (run_conn (conn_force_close (current_tid (loop_ s))))
  end;;;
  p <- gets retryTimer_;;
  when (negb (p =? 0)) (cancelTimer p);;;
  Connector.destroy.

(** The write callback of the connector's channel. *)
Definition writable : MC unit := Connector.handleWrite newConnection on_error.

(** The retry timer [p] fires: TimerQueue::handleRead calls retry and then reads
    the Timer object. *)
Definition fire (addr : Z) : MC unit :=
  p <- gets retryTimer_;;
  retry addr;;;
  s <- gets (fun s => s);;
  ensure (UseAfterFree "TimerQueue::handleRead") (bool_decide (p ∈ timers s)).

(** ** Runs *)
Inductive event : Type :=
| EvWritable
| EvRetry (addr : Z)
| EvConn (e : E).

Definition run_event (e : event) : MC unit :=
  match e with
  | EvWritable => writable
  | EvRetry addr => fire addr
  | EvConn e => run_conn (conn_event e)
  end.

(** The channel of the connector is registered, the timer exists, the
    connection can have the event. *)
Definition enabled (e : event) (s : TcpClient C K) : bool :=
  match e with
  | EvWritable => pooling (channel_ (connector_ s)) && conn_fd_ok (sockfd_ (connector_ s))
  | EvRetry _ => negb (retryTimer_ s =? 0)
  | EvConn e => match connection_ s with Some c => conn_enabled e c | None => false end
  end.

Inductive reach (s0 : TcpClient C K) : TcpClient C K -> Prop :=
| reach_start : reach s0 s0
| reach_event s s' e :
    reach s0 s -> enabled e s = true -> run_event e s = Ok (tt, s') -> reach s0 s'.

Fixpoint play (es : list event) (s : TcpClient C K) : option (TcpClient C K) :=
  match es with
  | [] => Some s
  | e :: es' =>
      if enabled e s then
        match run_event e s with Ok (_, s') => play es' s' | Err _ => None end
      else None
  end.

Lemma client_play_reach es s0 s s' : reach s0 s -> play es s = Some s' -> reach s0 s'.
Proof.
  revert s. induction es as [|e es IH]; simpl; intros s Hr; [by intros [= <-]|].
  destruct (enabled e s) eqn:He; [|done].
  destruct (run_event e s) as [[[] s1]|] eqn:E1; [|done]. apply IH. by apply (reach_event s0 s s1 e).
Qed.
End operations.
End TcpClient.
