(* ===== verification/TcpClientSpec.v ===== *)
(** * TcpClient: properties *)

From S2P Require Import Prelude InetAddress Posix TcpConnection TcpConnectionSpec TcpConnectionRuns ConnectionI Channel Epoll EventLoop Connector TcpClient.
Import TcpClient.

(** A kernel on which a nonblocking connect is answered later: [asy] holds of
    its states, and the calls of a client keep it. *)
Class AsyncConnect (K : Type) `{Posix K} (asy : K -> Prop) : Prop := {
  asy_connect : forall fd a k, asy k -> exists k', sys_connect fd a k = (SysErr EINPROGRESS, k') /\ asy k';
  asy_ctl : forall ep op fd ev k, asy k -> asy (sys_epoll_ctl ep op fd ev k).2;
  asy_close : forall fd k, asy k -> asy (sys_close fd k).2;
  asy_socket : forall k, asy k -> asy (sys_socket k).2;
  asy_so_error : forall fd k, asy k -> asy (sys_so_error fd k).2;
  asy_getsockname : forall fd k, asy k -> asy (sys_getsockname fd k).2;
  asy_log : forall e k, asy k -> asy (errno_after_log e k).2
}.

#[export] Instance SimAsync : AsyncConnect SimK (fun k => sk_connects k = []).
Proof.
  constructor; simpl; try done.
  - intros fd a k Hk. rewrite Hk. by exists k.
  - intros _ op fd ev k Hk. unfold sim_epoll_ctl. by destruct op, (sk_epoll k !! fd).
  - intros _ k Hk. by destruct (sk_soerrors k).
Qed.

Section invariant.
Context {C E K : Type} `{Posix K} (asy : K -> Prop) `{!AsyncConnect K asy} `{ConnectionLaws C E}.
Implicit Types s : TcpClient C K.

(** The three situations of a client: connecting (a retry timer is pending),
    connected, and after the connection was closed. *)
Inductive phase : Type := Connecting | Connected | Lost.

Definition client_phase s : phase :=
  if connected_ s then Connected
  else if Connector.connected_ (connector_ s) then Lost else Connecting.

Record CInv s : Prop := mkCInv {
  ci_thread : isInLoopThread (loop_ s) = true;
  ci_kernel : asy (kernel (loop_ s));
  ci_next : 0 < next_timer s /\ retryTimer_ s < next_timer s;
  ci_connector : started_ (connector_ s) = true
    /\ newConnectionCallback_ (connector_ s) = true;
  ci_timers : timers s = if retryTimer_ s =? 0 then ∅ else {[retryTimer_ s]};
  ci_phase : match client_phase s with
    | Connecting => retryTimer_ s <> 0 /\ connection_ s = None /\ handed s = []
    | Connected => retryTimer_ s = 0 /\ handed s = [sockfd_ (connector_ s)]
        /\ Connector.connected_ (connector_ s) = true
        /\ exists c, connection_ s = Some c /\ conn_ok c /\ conn_disconnected c = false
    | Lost => retryTimer_ s = 0 /\ connection_ s = None /\ handed s = [sockfd_ (connector_ s)]
    end;
  ci_pooling : pooling (channel_ (connector_ s)) = true -> client_phase s = Connecting
}.

Definition client_fault (f : fault) : Prop := own_fault f \/ f = Aborted "Connector createSocket".

Lemma client_of_result_wp F (r : result C) (P : C -> Prop) (Q : C -> TcpClient C K -> Prop) s :
  holds own_fault P r -> (forall f, own_fault f -> F f) -> (forall c, P c -> Q c s) ->
  wp F (of_result r) Q s.
Proof. intros Hr HF HQ. destruct r as [c|f]; simpl in *; [by apply HQ|by apply HF]. Qed.

Lemma client_os_wp {A} F (f : K -> A * K) (Q : A -> TcpClient C K -> Prop) s :
  Q (f (kernel (loop_ s))).1 (put_loop (set_kernel (f (kernel (loop_ s))).2 (loop_ s)) s) ->
  wp F (Connector.os f) Q s.
Proof. intros HQ. unfold Connector.os, loop_sys. by wp_simpl. Qed.

Lemma client_in_loop_wp F (Q : unit -> TcpClient C K -> Prop) s :
  isInLoopThread (loop_ s) = true -> Q tt s -> wp F (on_loop assertInLoopThread) Q s.
Proof.
  intros Hl HQ. rewrite wp_on_loop. apply Epoll.assertInLoopThread_wp; [done|]. by destruct s.
Qed.

(** Taking the connector's channel out of the poller. *)
Definition removed s (k : K) : TcpClient C K :=
  put_loop (set_kernel k (loop_ s))
    (put_connector (Connector.set_channel (Channel.set_pooling false (channel_ (connector_ s)))
                      (connector_ s)) s).

Lemma client_remove_wp F (Q : unit -> TcpClient C K -> Prop) s :
  isInLoopThread (loop_ s) = true -> asy (kernel (loop_ s)) -> F (ExitFailure "Epoll::epoll_ctl") ->
  (forall k, asy k -> Q tt (removed s k)) ->
  wp F (Connector.on_channel ChannelOps.loop_removeChannel) Q s.
Proof.
  intros Hl Hk HF HQ. unfold Connector.on_channel. wp_simpl. simpl.
  apply ChannelSpecs.loop_removeChannel_wp; [done|done| |]; simpl.
  - intros Hp. specialize (HQ _ Hk). unfold removed in HQ.
    replace (Channel.set_pooling false (channel_ (connector_ s))) with (channel_ (connector_ s)) in HQ.
    + by replace (set_kernel (kernel (loop_ s)) (loop_ s)) with (loop_ s) in HQ by by destruct (loop_ s).
    + destruct (channel_ (connector_ s)); simpl in *; by subst.
  - intros _ r k' Hctl _. apply HQ. unfold Epoll.ctl in Hctl.
    match type of Hctl with ?x = _ => assert (k' = x.2) as -> by (by rewrite Hctl) end.
    by apply asy_ctl.
Qed.

Lemma CInv_kernel s k : CInv s -> asy k -> CInv (put_loop (set_kernel k (loop_ s)) s).
Proof. intros []. by constructor. Qed.

Lemma CInv_removed s k : CInv s -> asy k -> CInv (removed s k).
Proof. intros []. constructor; simpl; done. Qed.

(** A connector that has connected hands its descriptor over. *)
Lemma client_newConnection_ok local peer s :
  CInv s -> client_phase s = Connecting -> pooling (channel_ (connector_ s)) = false ->
  conn_fd_ok (sockfd_ (connector_ s)) = true ->
  wp client_fault (newConnection (sockfd_ (connector_ s)) local peer) (fun _ => CInv)
    (put_connector (Connector.set_flags true (started_ (connector_ s)) (connector_ s)) s).
Proof.
  intros [] Hph Hpool Hfd. rewrite Hph in ci_phase0. destruct ci_phase0 as (Hp & Hc & Hh).
  unfold newConnection. rewrite wp_bind. apply client_in_loop_wp; [done|]. wp_simpl. simpl.
  unfold cancelTimer. wp_simpl. simpl. rewrite (proj2 (Z.eqb_neq _ _)) by done. simpl.
  rewrite (proj2 (Z.eqb_neq _ _)) in ci_timers0 by done. rewrite ci_timers0.
  rewrite bool_decide_eq_true_2 by set_solver. simpl. wp_simpl. simpl.
  assert (current_tid (loop_ s) = tid_ (loop_ s)) as -> by (by apply Z.eqb_eq in ci_thread0).
  eapply client_of_result_wp; [by apply establish_ok|by left|]. intros c (Hok & _ & Hd). wp_simpl.
  constructor; unfold client_phase; simpl; try done.
  - lia.
  - set_solver.
  - rewrite Hh. split_and!; [done|done|done|]. by exists c.
  - congruence.
Qed.

Lemma writable_ok s :
  CInv s -> pooling (channel_ (connector_ s)) = true ->
  conn_fd_ok (sockfd_ (connector_ s)) = true -> wp client_fault writable (fun _ => CInv) s.
Proof.
  intros Hi Hpool Hfd. pose proof Hi as []. unfold writable, Connector.handleWrite. rewrite wp_bind.
  apply client_in_loop_wp; [done|]. wp_simpl. simpl. destruct ci_connector0 as [-> Hcb].
  apply client_remove_wp; [done|done|by left|]. intros k Hk. wp_simpl.
  apply client_os_wp. simpl. set (r := (sys_so_error _ _).1).
  assert (CInv (put_loop (set_kernel (sys_so_error (sockfd_ (connector_ s)) k).2
                  (set_kernel k (loop_ s))) (removed s k))) as Hi2.
  { apply (CInv_kernel (removed s k)); [by apply CInv_removed|by apply asy_so_error]. }
  destruct (negb _); wp_simpl.
  - apply client_os_wp. wp_simpl.
    assert (CInv (put_loop (set_kernel (errno_after_log (match r with SysOk e | SysErr e => e end)
        (sys_so_error (sockfd_ (connector_ s)) k).2).2 (loop_ s)) (removed s k))) as Hi3.
    { apply (CInv_kernel (removed s k)); [by apply CInv_removed|by apply asy_log, asy_so_error]. }
    unfold on_error. by case_bool; wp_simpl.
  - rewrite Hcb. wp_simpl. apply client_os_wp. simpl. wp_simpl.
    assert (forall local k3, asy k3 -> wp client_fault
      (Connector.upd (fun c => Connector.set_flags true (started_ c) c);;;
       newConnection (sockfd_ (connector_ s)) local (peer_ (connector_ s))) (fun _ => CInv)
      (put_loop (set_kernel k3 (loop_ s)) (removed s k))) as Hnew.
    { intros local k3 Hk3. unfold Connector.upd. wp_simpl. simpl.
      pose proof (CInv_kernel _ _ (CInv_removed s k Hi Hk) Hk3) as Hi4.
      apply (client_newConnection_ok local (peer_ (connector_ s)) _ Hi4); [|done|done].
      unfold client_phase. simpl. by apply ci_pooling0 in Hpool. }
    destruct (sys_getsockname _ _) as [[addr|e] k2] eqn:Eg; simpl; wp_simpl.
    + apply Hnew. match type of Eg with ?x = _ => assert (k2 = x.2) as -> by (by rewrite Eg) end.
      by apply asy_getsockname, asy_so_error.
    + apply client_os_wp. simpl. wp_simpl. apply Hnew. apply asy_log.
      match type of Eg with ?x = _ => assert (k2 = x.2) as -> by (by rewrite Eg) end.
      by apply asy_getsockname, asy_so_error.
Qed.
(** Starting a connector: the channel is registered for EPOLLOUT. *)
Lemma connector_start_wp (Q : unit -> TcpClient C K -> Prop) s :
  isInLoopThread (loop_ s) = true -> asy (kernel (loop_ s)) ->
  started_ (connector_ s) = false -> pooling (channel_ (connector_ s)) = false ->
  (forall ch k, asy k ->
     Q tt (put_loop (set_kernel k (loop_ s))
             (put_connector (Connector.set_channel ch
                (Connector.set_flags (Connector.connected_ (connector_ s)) true (connector_ s))) s))) ->
  wp client_fault (Connector.start newConnection on_error) Q s.
Proof.
  intros Hl Hk Hst Hp HQ. unfold Connector.start. rewrite wp_bind.
  apply client_in_loop_wp; [done|]. wp_simpl. simpl. rewrite Hst. simpl. unfold Connector.upd.
  wp_simpl. apply client_os_wp. simpl.
  destruct (asy_connect (sockfd_ (connector_ s)) (peer_ (connector_ s)) _ Hk) as (k' & Hc & Hk').
  unfold InetAddress.getSockaddr. rewrite Hc. simpl. unfold Connector.on_channel. wp_simpl. simpl.
  apply ChannelSpecs.change_mask_wp; [done| |by left|].
  { intros _. apply (Channel.testbit_nonzero _ 2). unfold Channel.mask_enableWrite.
    by rewrite Z.lor_spec, orb_true_r. }
  intros r k2 Hctl _. simpl. apply HQ. unfold Epoll.ctl in Hctl.
  match type of Hctl with ?x = _ => assert (k2 = x.2) as -> by (by rewrite Hctl) end.
  by apply asy_ctl.
Qed.

(** ~Connector in a state that is still connecting. *)
Lemma connector_destroy_wp (Q : unit -> TcpClient C K -> Prop) s :
  isInLoopThread (loop_ s) = true -> asy (kernel (loop_ s)) ->
  (forall c k, asy k -> Q tt (put_loop (set_kernel k (loop_ s)) (put_connector c s))) ->
  wp client_fault Connector.destroy Q s.
Proof.
  intros Hl Hk HQ. unfold Connector.destroy. wp_simpl. simpl.
  set (b1 := started_ _ && _ && _). set (b2 := negb _ && negb _). clearbody b1 b2.
  assert (forall c k, asy k ->
    (if b2 then wp client_fault (Connector.os (sys_close (sockfd_ (connector_ s))))
                  (fun _ s' => Q tt s') (put_loop (set_kernel k (loop_ s)) (put_connector c s))
     else Q tt (put_loop (set_kernel k (loop_ s)) (put_connector c s)))) as Hclose.
  { intros c k Hk1. destruct b2; [|by apply HQ]. apply client_os_wp. simpl.
    apply (HQ c (sys_close (sockfd_ (connector_ s)) k).2). by apply asy_close. }
  destruct b1.
  - apply client_remove_wp; [done|done|by left|]. intros k Hk1. wp_simpl. by apply Hclose.
  - specialize (Hclose (connector_ s) (kernel (loop_ s)) Hk). by destruct s, loop_.
Qed.

Lemma fire_ok addr s :
  CInv s -> retryTimer_ s <> 0 -> wp client_fault (fire addr) (fun _ => CInv) s.
Proof.
  intros [] Hp. assert (client_phase s = Connecting) as Hph.
  { destruct (client_phase s); [done| |]; by destruct ci_phase0. }
  rewrite Hph in ci_phase0. destruct ci_phase0 as (_ & Hc & Hh). unfold client_phase in Hph.
  destruct (connected_ s) eqn:Eco; [done|].
  destruct (Connector.connected_ (connector_ s)) eqn:Ecc; [done|].
  rewrite (proj2 (Z.eqb_neq _ _) Hp) in ci_timers0.
  unfold fire. wp_simpl. unfold retry. rewrite wp_bind. apply client_in_loop_wp; [done|].
  wp_simpl. rewrite Eco. wp_simpl. apply connector_destroy_wp; [done|done|]. intros c1 k1 Hk1.
  wp_simpl. rewrite Ecc. unfold Connector.construct, Connector.createSocket. wp_simpl.
  apply client_os_wp. simpl. destruct (sys_socket k1) as [[fd|e] k2] eqn:Es; simpl; wp_simpl; [|by right].
  assert (asy k2) as Hk2.
  { match type of Es with ?x = _ => assert (k2 = x.2) as -> by (by rewrite Es) end. by apply asy_socket. }
  apply connector_start_wp; simpl; try done. intros ch k3 Hk3. wp_simpl. simpl.
  rewrite ci_timers0, bool_decide_eq_true_2 by set_solver.
  constructor; unfold client_phase; simpl; rewrite ?Eco; try done.
  - by rewrite (proj2 (Z.eqb_neq _ _) Hp).
  - by rewrite Hh.
Qed.

Lemma client_conn_ok e c s :
  CInv s -> connection_ s = Some c -> conn_enabled e c = true ->
  wp client_fault (run_conn (conn_event e)) (fun _ => CInv) s.
Proof.
  intros Hi Hc He. pose proof Hi as []. unfold run_conn. wp_simpl. rewrite Hc. wp_simpl.
  assert (client_phase s = Connected) as Hph.
  { destruct (client_phase s); [|done|]; destruct ci_phase0 as (_ & ? & _); congruence. }
  rewrite Hph in ci_phase0. destruct ci_phase0 as (Hp & Hh & Hcc & c0 & Hc0 & Hok & Hd).
  rewrite Hc in Hc0. injection Hc0 as <-.
  eapply client_of_result_wp; [by apply event_ok_law|by left|]. intros c' (Hok' & _ & _). wp_simpl.
  rewrite (closes_once c), (closes_once c'), Hd by done.
  assert (connected_ s = true) as Eco.
  { unfold client_phase in Hph. destruct (connected_ s); [done|].
    by destruct (Connector.connected_ (connector_ s)). }
  destruct (conn_disconnected c') eqn:Hd'; simpl.
  - unfold closeConnection. rewrite wp_bind. apply client_in_loop_wp; [done|]. wp_simpl.
    constructor; unfold client_phase; simpl; rewrite ?Hcc; try done.
    intros Hpool. apply ci_pooling0 in Hpool. congruence.
  - wp_simpl. constructor; unfold client_phase; simpl; rewrite ?Eco; try done.
    + split_and!; [done|done|done|]. by exists c'.
    + intros Hpool. apply ci_pooling0 in Hpool. congruence.
Qed.

Lemma client_event_ok e s :
  CInv s -> enabled e s = true -> wp client_fault (run_event e) (fun _ => CInv) s.
Proof.
  intros Hi He. destruct e as [|addr|e]; simpl in *.
  - apply andb_prop in He as [? ?]. by apply writable_ok.
  - apply fire_ok; [done|]. by apply negb_true_iff, Z.eqb_neq in He.
  - destruct (connection_ s) as [c|] eqn:Hc; [|done]. by apply (client_conn_ok e c).
Qed.

Lemma client_reach_inv s0 s : CInv s0 -> reach s0 s -> CInv s.
Proof.
  intros Hs0. induction 1 as [|s s' e _ IH He Hr]; [done|].
  pose proof (client_event_ok e s IH He) as Hwp. unfold wp in Hwp. by rewrite Hr in Hwp.
Qed.

(** A client as its constructor and setters leave it. *)
Definition unstarted s : Prop :=
  isInLoopThread (loop_ s) = true /\ connected_ s = false /\ retryTimer_ s = 0
  /\ connection_ s = None /\ timers s = ∅ /\ 0 < next_timer s /\ handed s = []
  /\ Connector.connected_ (connector_ s) = false /\ started_ (connector_ s) = false
  /\ newConnectionCallback_ (connector_ s) = true /\ pooling (channel_ (connector_ s)) = false.

Lemma client_start_ok s :
  unstarted s -> asy (kernel (loop_ s)) -> wp client_fault start (fun _ => CInv) s.
Proof.
  intros (Hl & Hco & Hrt & Hcn & Ht & Hnx & Hh & Hcc & Hst & Hcb & Hp) Hk. unfold start.
  rewrite wp_bind. apply client_in_loop_wp; [done|]. rewrite wp_bind.
  apply connector_start_wp; [done..|]. intros ch k Hk1. unfold runEvery. wp_simpl. simpl.
  constructor; unfold client_phase; simpl; rewrite ?Hco, ?Hcc; try done.
  - lia.
  - rewrite Ht, (proj2 (Z.eqb_neq _ _)) by lia. set_solver.
  - split_and!; [lia|done|done].
Qed.
End invariant.

(** ** Properties *)

(** A client with a connector for the witnesses, on a kernel whose connects are
    answered later and whose first attempt is refused. *)
#[local] Existing Instance sim_conn.
#[local] Existing Instance sim_conn_laws.

Definition client_loop (k : SimK) : Loop SimK unit :=
  mkLoop k 1 1 false false (mkEpoll 128 3) [] 4 [].
Definition connector0 : Connector :=
  mkConnector (InetAddress.of_port 80 true) 20 false false
    (Channel.setWriteCallback (Some tt) (Channel.new 8 20)) false false.
Definition client_new (k : SimK) : TcpClient (CW SimK) SimK :=
  TcpClient.new (client_loop k) (InetAddress.of_port 80 true) connector0.
Definition client0 : TcpClient (CW SimK) SimK :=
  client_new (with_soerrors [SysOk ECONNREFUSED] sim_init).
Definition client_started : TcpClient (CW SimK) SimK :=
  match start client0 with Ok (_, s) => s | Err _ => client0 end.
Definition client_script : list (TcpClient.event (E := conn_step SimK)) :=
  [EvWritable; EvRetry 9; EvWritable].
Definition client_run : TcpClient (CW SimK) SimK :=
  default client0 (play client_script client_started).

(** C35: when connect is answered asynchronously, a started client is in one of
    three situations: it is connecting, with exactly one Timer (the retry timer)
    and no connection; it is connected, with an open connection on the
    connector's descriptor and no Timer; or the connection was closed.  Its
    events do not fail except for faults of the connection's own and a refused
    socket(): no Timer is cancelled twice or used after its deletion, and the
    connection keeps the client's state in step. *)
Theorem client_lifecycle {C E K} `{Posix K} (asy : K -> Prop) `{!AsyncConnect K asy}
  `{ConnectionLaws C E} (s0 s1 s : TcpClient C K) :
  unstarted s0 -> asy (kernel (loop_ s0)) -> start s0 = Ok (tt, s1) -> reach s1 s ->
  match client_phase s with
  | Connecting => retryTimer_ s <> 0 /\ timers s = {[retryTimer_ s]} /\ connection_ s = None
  | Connected => timers s = ∅ /\ handed s = [sockfd_ (connector_ s)]
      /\ exists c, connection_ s = Some c /\ conn_disconnected c = false
  | Lost => timers s = ∅ /\ connection_ s = None /\ forall e, enabled e s = false
  end
  /\ (forall e, enabled e s = true -> wp client_fault (run_event e) (fun _ s' => reach s1 s') s).
Proof.
  intros Hu Hk Hst Hr. pose proof (client_start_ok asy s0 Hu Hk) as Hinv1. unfold wp in Hinv1.
  rewrite Hst in Hinv1. pose proof (client_reach_inv asy s1 s Hinv1 Hr) as Hi. split.
  - destruct Hi. rewrite ci_timers0. destruct (client_phase s) eqn:Hph.
    + destruct ci_phase0 as (Hp & ? & _). by rewrite (proj2 (Z.eqb_neq _ _) Hp).
    + destruct ci_phase0 as (-> & ? & _ & c & ? & _ & ?). split_and!; [done|done|]. by exists c.
    + destruct ci_phase0 as (Hp & Hc & _). rewrite Hp. split_and!; [done|done|].
      intros [|addr|e]; simpl; [|by rewrite Hp|by rewrite Hc].
      destruct (pooling _); [|done]. by specialize (ci_pooling0 eq_refl).
  - intros e He. pose proof (client_event_ok asy e s Hi He) as Hwp. unfold wp in *.
    destruct (run_event e s) as [[[] s']|] eqn:E1; [|done]. by apply (reach_event s1 s s' e).
Qed.

Lemma client_lifecycle_witness :
  timers client_run = ∅ /\ handed client_run = [sockfd_ (connector_ client_run)]
  /\ closed client_run = [20].
Proof.
  destruct (client_lifecycle (fun k => sk_connects k = []) client0 client_started client_run)
    as [Hph _].
  - unfold unstarted. split_and!; reflexivity.
  - reflexivity.
  - vm_compute. reflexivity.
  - apply (client_play_reach client_script client_started client_started); [apply reach_start|].
    vm_compute. reflexivity.
  - clear - Hph.
    assert (client_phase client_run = Connected) as E by (vm_compute; reflexivity).
    rewrite E in Hph. destruct Hph as (Ht & Hh & _).
    split; [exact Ht|]. split; [exact Hh|]. vm_compute. reflexivity.
Defined.

(** The write handler of a connector whose channel is not registered, on a
    socket without a pending error, when there is no retry timer. *)
Lemma writable_no_timer {C E K} `{Posix K} `{ConnectionI C E} (s : TcpClient C K) k2 Q :
  isInLoopThread (loop_ s) = true -> Connector.started_ (connector_ s) = true ->
  pooling (channel_ (connector_ s)) = false -> newConnectionCallback_ (connector_ s) = true ->
  retryTimer_ s = 0 -> sys_so_error (sockfd_ (connector_ s)) (kernel (loop_ s)) = (SysOk 0, k2) ->
  wp (fun f => f = NullDeref "TimerQueue::cancelTimer") writable Q s.
Proof.
  intros Hl Hst Hp Hcb Hrt Hso. unfold writable, Connector.handleWrite. rewrite wp_bind.
  apply client_in_loop_wp; [done|]. wp_simpl. simpl. rewrite Hst. simpl.
  unfold Connector.on_channel. wp_simpl. simpl.
  apply ChannelSpecs.loop_removeChannel_idle; [done|done|]. simpl.
  wp_simpl. apply client_os_wp. simpl. rewrite Hso. simpl. rewrite Hcb. wp_simpl.
  assert (forall fd local peer s', isInLoopThread (loop_ s') = true -> retryTimer_ s' = 0 ->
    wp (fun f => f = NullDeref "TimerQueue::cancelTimer")
      (Connector.upd (fun c => Connector.set_flags true (started_ c) c);;;
       newConnection fd local peer) Q s') as Hnew.
  { clear. intros fd local peer s' Hl Hrt. unfold Connector.upd, newConnection. wp_simpl.
    apply Epoll.assertInLoopThread_wp; [done|]. wp_simpl. simpl. rewrite Hrt. unfold cancelTimer. by wp_simpl. }
  apply client_os_wp. simpl. destruct (sys_getsockname _ _) as [[a|e] k3]; simpl; wp_simpl.
  - by apply Hnew.
  - apply client_os_wp. simpl. wp_simpl. by apply Hnew.
Qed.

(** C36: if connect is answered at once, with success or with an error, and the
    socket reports no pending error, start() takes it for a success and
    newConnection cancels the retry timer, which is still null. *)
Theorem sync_connect_crashes {C E K} `{Posix K} `{ConnectionI C E} (s : TcpClient C K) r k1 k2 :
  unstarted s ->
  sys_connect (sockfd_ (connector_ s)) (peer_ (connector_ s)) (kernel (loop_ s)) = (r, k1) ->
  r <> SysErr EINPROGRESS ->
  sys_so_error (sockfd_ (connector_ s)) k1 = (SysOk 0, k2) ->
  start s = Err (NullDeref "TimerQueue::cancelTimer").
Proof.
  intros (Hl & Hco & Hrt & Hcn & Ht & Hnx & Hh & Hcc & Hst & Hcb & Hp) Hc Hr Hso.
  apply (wp_fails _ start). unfold start. rewrite wp_bind. apply client_in_loop_wp; [done|].
  unfold Connector.start. wp_simpl. simpl. apply Epoll.assertInLoopThread_wp; [done|].
  wp_simpl. simpl. rewrite Hst. simpl. unfold Connector.upd. wp_simpl. apply client_os_wp. simpl.
  unfold InetAddress.getSockaddr. rewrite Hc. simpl.
  destruct r as [[]|e].
  - by eapply (writable_no_timer _ k2).
  - rewrite (proj2 (Z.eqb_neq _ _)) by congruence. by eapply (writable_no_timer _ k2).
Qed.

Lemma sync_connect_crashes_witness :
  start (client_new (with_connects [SysErr ENETUNREACH] sim_init))
  = Err (NullDeref "TimerQueue::cancelTimer").
Proof.
  eapply sync_connect_crashes with (r := SysErr ENETUNREACH);
    [by vm_compute|by vm_compute|discriminate|by vm_compute].
Defined.
