(* ===== verification/ConsoleClient.v ===== *)
(** * ConsoleClient: the interactive client (examples/client.cpp)

    Three pieces of code share the globals g_connection, g_connected,
    g_should_exit and g_conn_mutex: main with the callbacks that its event loop
    runs, inputThread, which reads lines and sends them, and signalHandler,
    which interrupts one of the two threads.  A step of [fire] is one access to
    what they share.  [cw] is the TcpConnection with the loop's task queue, as
    in TcpRemote: what the loop's thread does to it are its dispatches and
    tasks, what inputThread does is send, split at its load of the state, and
    what the handler does is shutdown.  Of the EventLoop there are also quit_ and
    whether its eventfd has been written ([wakes]); LoopProtocol is about them.
    TcpClient makes at most one connection (TcpClientSpec); [Established] is
    its newConnection, [Refused] the connector's error callback. *)

From stdpp Require Import relations.
From S2P Require Import Prelude Posix Buffer Channel Epoll EventLoop TcpConnection TcpConnectionSpec TcpConnectionRuns TcpReply TcpRemote.

Module ConsoleClient.

Abbreviation line := (list byte).

Definition quit_command : line := String.list_byte_of_string "quit".
Definition exit_command : line := String.list_byte_of_string "exit".
Definition is_command (l : line) : bool :=
  bool_decide (l = quit_command) || bool_decide (l = exit_command).

(** inputThread: not started; waiting for the connection for the n-th time; after
    the wait; at the loop's test; in getline; with a line; before, inside and at
    the end of the lock's scope ([stop]: by break); after the loop. *)
Inductive ipc : Type :=
| INone | IWait (n : nat) | IWaited | ITest | IGetline | ILine (l : line)
| ILock (l : line) | ILocked (l : line) | ISend (l : line) | IFinish (l : line) (seen : ConnectState)
| IUnlock (stop : bool)
| IEnd | IQuit | IWake | IDone.

(** main: before the thread is started, client.start(), loop(); at the test of
    quit_, in epoll_wait, dispatching, with n tasks to run; in the connection
    callback, before its lock, at its two assignments and at the end of its
    scope, with the place to go on ([None]: dispatching); in the error callback;
    joining; at the end. *)
Inductive mpc : Type :=
| MBoot | MStart | MEnter | MTest | MPoll | MRound | MTasks (n : nat)
| MCallback (up : bool) (k : option nat) | MFirst (up : bool) (k : option nat)
| MSecond (up : bool) (k : option nat) | MUnlock (up : bool) (k : option nat)
| MError | MErrorQuit | MJoin | MReturn.

#[global] Instance mpc_eq_dec : EqDecision mpc.
Proof. solve_decision. Defined.

Inductive thread : Type := Main | Input.
#[global] Instance thread_eq_dec : EqDecision thread.
Proof. solve_decision. Defined.

(** signalHandler. *)
Inductive hpc : Type := HExit | HLock | HLocked | HShutdown | HUnlock | HQuit | HWake.

(** The message callback takes the text and prints it. *)
Definition on_message : list api := [ARetrieveAll].

(** Who holds g_conn_mutex. *)
Inductive holder : Type := ByMain | ByInput | ByHandler.

Record state (K : Type) : Type := mkState {
  cw : CW K;
  created : bool;               (* TcpClient has made its connection *)
  g_connection : bool;          (* not null *)
  g_connected : bool;
  g_should_exit : bool;
  g_conn_mutex : option holder;
  quit_ : bool;
  wakes : bool;
  main_at : mpc;
  input_at : ipc;
  signal_at : option (thread * hpc);
  typed : list line;            (* every line that getline returned *)
  handed : list line;           (* every line that send passed on *)
  late : bool                   (* inputThread called quit() after loop() began *)
}.
Arguments mkState {K}.
Arguments cw {K}.
Arguments created {K}.
Arguments g_connection {K}.
Arguments g_connected {K}.
Arguments g_should_exit {K}.
Arguments g_conn_mutex {K}.
Arguments quit_ {K}.
Arguments wakes {K}.
Arguments main_at {K}.
Arguments input_at {K}.
Arguments signal_at {K}.
Arguments typed {K}.
Arguments handed {K}.
Arguments late {K}.

Section client.
Context {K : Type} `{Posix K}.
Implicit Types s : state K.

(** The connection as make_shared leaves it, and the id of the input thread. *)
Variables (w0 : CW K) (input_tid : Z).

Definition init : state K :=
  mkState w0 false false false false None false false MBoot INone None [] [] false.

(** Assignments. *)
Definition set_main (p : mpc) s : state K :=
  mkState (cw s) (created s) (g_connection s) (g_connected s) (g_should_exit s) (g_conn_mutex s)
    (quit_ s) (wakes s) p (input_at s) (signal_at s) (typed s) (handed s) (late s).
Definition set_input (p : ipc) s : state K :=
  mkState (cw s) (created s) (g_connection s) (g_connected s) (g_should_exit s) (g_conn_mutex s)
    (quit_ s) (wakes s) (main_at s) p (signal_at s) (typed s) (handed s) (late s).
Definition set_signal (o : option (thread * hpc)) s : state K :=
  mkState (cw s) (created s) (g_connection s) (g_connected s) (g_should_exit s) (g_conn_mutex s)
    (quit_ s) (wakes s) (main_at s) (input_at s) o (typed s) (handed s) (late s).
Definition set_cw (w : CW K) s : state K :=
  mkState w (created s) (g_connection s) (g_connected s) (g_should_exit s) (g_conn_mutex s)
    (quit_ s) (wakes s) (main_at s) (input_at s) (signal_at s) (typed s) (handed s) (late s).
Definition set_created (b : bool) s : state K :=
  mkState (cw s) b (g_connection s) (g_connected s) (g_should_exit s) (g_conn_mutex s)
    (quit_ s) (wakes s) (main_at s) (input_at s) (signal_at s) (typed s) (handed s) (late s).
Definition set_conn (c d : bool) s : state K :=
  mkState (cw s) (created s) c d (g_should_exit s) (g_conn_mutex s)
    (quit_ s) (wakes s) (main_at s) (input_at s) (signal_at s) (typed s) (handed s) (late s).
Definition should_exit s : state K :=
  mkState (cw s) (created s) (g_connection s) (g_connected s) true (g_conn_mutex s)
    (quit_ s) (wakes s) (main_at s) (input_at s) (signal_at s) (typed s) (handed s) (late s).
Definition set_mutex (o : option holder) s : state K :=
  mkState (cw s) (created s) (g_connection s) (g_connected s) (g_should_exit s) o
    (quit_ s) (wakes s) (main_at s) (input_at s) (signal_at s) (typed s) (handed s) (late s).
Definition set_loop (q w : bool) s : state K :=
  mkState (cw s) (created s) (g_connection s) (g_connected s) (g_should_exit s) (g_conn_mutex s)
    q w (main_at s) (input_at s) (signal_at s) (typed s) (handed s) (late s).
Definition record_lines (ts hs : list line) (b : bool) s : state K :=
  mkState (cw s) (created s) (g_connection s) (g_connected s) (g_should_exit s) (g_conn_mutex s)
    (quit_ s) (wakes s) (main_at s) (input_at s) (signal_at s) ts hs b.

(** lock_guard: the thread waits while somebody holds the mutex. *)
Definition lock (h : holder) s : option (state K) :=
  match g_conn_mutex s with None => Some (set_mutex (Some h) s) | Some _ => None end.

(** g_connection && g_connection->connected() *)
Definition usable s : bool :=
  g_connection s && TcpConnection.connected (conn (cw s)).

Definition after_enter (p : mpc) : bool :=
  match p with MBoot | MStart | MEnter => false | _ => true end.

(** inputThread, up to getline, which is [Line] and [Eof] below. *)
Definition input_step s : option (result (state K)) :=
  let go p s' := Some (Ok (set_input p s')) in
  match input_at s with
  | INone | IGetline | IDone => None
  | IWait n =>
      if negb (g_should_exit s) && negb (g_connected s) && (n <? 100)%nat
      then go (IWait (S n)) s else go IWaited s
  | IWaited => go (if g_connected s then ITest else IEnd) s
  | ITest => go (if g_should_exit s then IEnd else IGetline) s
  | ILine l =>
      if g_should_exit s then go IEnd s
      else if is_command l then go IEnd (should_exit s)
      else go (ILock l) s
  | ILock l => match lock ByInput s with Some s' => go (ILocked l) s' | None => None end
  | ILocked l => go (if usable s then ISend l else IUnlock true) s
  | ISend l => go (IFinish l (state_ (conn (cw s)))) s
  | IFinish l seen =>
      match finish_remote input_tid seen l (cw s) with
      | Ok (_, w') =>
          let push := bool_decide (seen = kConnected) in
          go (IUnlock false) (set_loop (quit_ s) (push || wakes s) (record_lines (typed s)
            (if push then handed s ++ [l] else handed s) (late s) (set_cw w' s)))
      | Err f => Some (Err f)
      end
  | IUnlock stop => go (if stop then IEnd else ITest) (set_mutex None s)
  | IEnd => go IQuit (should_exit s)
  | IQuit => go IWake (set_loop true (wakes s)
      (record_lines (typed s) (handed s) (after_enter (main_at s)) s))
  | IWake => go IDone (set_loop (quit_ s) true s)
  end.

(** The connection callback is called with connected() = [up]. *)
Definition back (k : option nat) : mpc :=
  match k with None => MRound | Some n => MTasks n end.
Definition after_io (k : option nat) (w' : CW K) s : state K :=
  let closes := negb (TcpConnection.disconnected (conn (cw s)))
                && TcpConnection.disconnected (conn w') in
  set_main (if closes then MCallback false k else back k) (set_cw w' s).

(** main, where it depends on nothing outside the program. *)
Definition main_step s : option (result (state K)) :=
  let go p s' := Some (Ok (set_main p s')) in
  match main_at s with
  | MBoot => go MStart (set_input (IWait 0) s)       (* std::thread input_thread(inputThread) *)
  | MStart => go MEnter s                            (* client.start() *)
  | MEnter => go MTest (set_loop false (wakes s) s)
  | MTest => go (if quit_ s then MJoin else MPoll) s
  | MPoll => if wakes s then go MRound (set_loop (quit_ s) false s) else None
  | MRound => go (MTasks (length (pendingTasks_ (loop (cw s))))) s
  | MTasks O => go MTest s
  | MTasks (S n) =>
      match TcpConnection.run_next [] [] (cw s) with
      | Ok (_, w') => Some (Ok (after_io (Some n) w' s))
      | Err f => Some (Err f)
      end
  | MCallback up k => match lock ByMain s with Some s' => go (MFirst up k) s' | None => None end
  | MFirst up k =>
      go (MSecond up k) (if up then set_conn true (g_connected s) s
                         else set_conn (g_connection s) false s)
  | MSecond up k =>
      go (MUnlock up k) (if up then set_conn (g_connection s) true s
                         else set_conn false (g_connected s) s)
  | MUnlock up k => go (back k) (set_mutex None s)
  | MError => go MErrorQuit (should_exit s)
  | MErrorQuit => go MRound (set_loop true (wakes s) s)
  | MJoin => match input_at s with IDone => go MReturn s | _ => None end
  | MReturn => None
  end.

(** signalHandler on the thread [t]. *)
Definition handler_step (t : thread) (p : hpc) s : option (result (state K)) :=
  let go p s' := Some (Ok (set_signal (Some (t, p)) s')) in
  match p with
  | HExit => go HLock (should_exit s)
  | HLock => match lock ByHandler s with Some s' => go HLocked s' | None => None end
  | HLocked => go (if usable s then HShutdown else HUnlock) s
  | HShutdown =>
      let tid := if decide (t = Main) then tid_ (loop (cw s)) else input_tid in
      match TcpConnection.remote_call [] tid AShutdown (cw s) with
      | Ok (_, w') => go HUnlock (set_loop (quit_ s)
          (bool_decide (t = Input) || wakes s) (set_cw w' s))
      | Err f => Some (Err f)
      end
  | HUnlock => go HQuit (set_mutex None s)
  | HQuit =>
      if decide (t = Main) then Some (Ok (set_signal None (set_loop true (wakes s) s)))
      else go HWake (set_loop true (wakes s) s)
  | HWake => Some (Ok (set_signal None (set_loop (quit_ s) true s)))
  end.

(** The steps: of the two threads and the handler, and what comes from outside:
    a line or the end of the input, events of the loop, signals. *)
Inductive label : Type :=
| MainStep | InputStep | HandlerStep
| Line (l : line) | Eof
| Event                         (* epoll_wait returns for another descriptor *)
| Established (self : Z) | Refused | Dispatch (revents : Z)
| Signal (t : thread).

(** A thread does not run while the handler runs on it. *)
Definition interrupted (t : thread) s : bool :=
  match signal_at s with Some (t', _) => bool_decide (t' = t) | None => false end.

Definition getline_returns (p : ipc) (ts : list line) s : option (result (state K)) :=
  match input_at s with
  | IGetline =>
      if interrupted Input s then None
      else Some (Ok (set_input p (record_lines (typed s ++ ts) (handed s) (late s) s)))
  | _ => None
  end.
(** The loop's thread is at [p], and [b] holds. *)
Definition main_waits (p : mpc) (b : bool) s : bool :=
  bool_decide (main_at s = p) && b && negb (interrupted Main s).

Definition fire (l : label) s : option (result (state K)) :=
  match l with
  | MainStep => if interrupted Main s then None else main_step s
  | InputStep => if interrupted Input s then None else input_step s
  | HandlerStep => match signal_at s with Some (t, p) => handler_step t p s | None => None end
  | Line l => if zlen l <=? Buffer.max_size then getline_returns (ILine l) [l] s else None
  | Eof => getline_returns IEnd [] s
  | Event => if main_waits MPoll true s then Some (Ok (set_main MRound s)) else None
  | Established self =>
      if main_waits MRound (negb (created s)) s
      then match TcpConnection.connectEstablished self (cw s) with
           | Ok (_, w') => Some (Ok (set_main (MCallback true None) (set_created true (set_cw w' s))))
           | Err f => Some (Err f)
           end
      else None
  | Refused =>
      if main_waits MRound (negb (created s)) s then Some (Ok (set_main MError s)) else None
  | Dispatch r =>
      if main_waits MRound (created s && enabled (EvDispatch r on_message) (cw s)) s
      then match TcpConnection.dispatch [] on_message r (cw s) with
           | Ok (_, w') => Some (Ok (after_io None w' s))
           | Err f => Some (Err f)
           end
      else None
  | Signal t =>
      let runs := match t with
                  | Main => match main_at s with MReturn => false | _ => true end
                  | Input => match input_at s with INone | IDone => false | _ => true end
                  end in
      match signal_at s with
      | None => if runs then Some (Ok (set_signal (Some (t, HExit)) s)) else None
      | Some _ => None
      end
  end.

Definition step s s' : Prop := exists l, fire l s = Some (Ok s').
Definition reachable s : Prop := rtc step init s.

Fixpoint play (ls : list label) s : option (state K) :=
  match ls with
  | [] => Some s
  | l :: ls' => match fire l s with Some (Ok s') => play ls' s' | _ => None end
  end.

Lemma client_play_steps ls s s' : play ls s = Some s' -> rtc step s s'.
Proof.
  revert s. induction ls as [|l ls IH]; simpl; intros s; [by intros [= <-]|].
  destruct (fire l s) as [[s1|]|] eqn:E; try done. intros Hp. eapply rtc_l; [by exists l|by apply IH].
Qed.

(** ** The invariant of the globals *)

Definition holds_main (p : mpc) : bool :=
  match p with MFirst _ _ | MSecond _ _ | MUnlock _ _ => true | _ => false end.
Definition holds_input (p : ipc) : bool :=
  match p with ILocked _ | ISend _ | IFinish _ _ | IUnlock _ => true | _ => false end.
Definition holds_handler (o : option (thread * hpc)) : bool :=
  match o with Some (_, (HLocked | HShutdown | HUnlock)) => true | _ => false end.

Definition has_main (o : option holder) : bool := match o with Some ByMain => true | _ => false end.
Definition has_input (o : option holder) : bool := match o with Some ByInput => true | _ => false end.
Definition has_handler (o : option holder) : bool := match o with Some ByHandler => true | _ => false end.

(** The code follows g_connection, so it must not be null. *)
Definition input_uses (p : ipc) : bool := match p with ISend _ | IFinish _ _ => true | _ => false end.
Definition handler_uses (o : option (thread * hpc)) : bool :=
  match o with Some (_, HShutdown) => true | _ => false end.
(** The connection callback has its argument. *)
Definition in_callback (p : mpc) : bool :=
  match p with MCallback _ _ | MFirst _ _ | MSecond _ _ => true | _ => false end.

Record CInv s : Prop := mkCInv {
  ci_main : holds_main (main_at s) = has_main (g_conn_mutex s);
  ci_input : holds_input (input_at s) = has_input (g_conn_mutex s);
  ci_handler : holds_handler (signal_at s) = has_handler (g_conn_mutex s);
  ci_callback : in_callback (main_at s) = true -> created s = true;
  ci_created : g_connection s = true -> created s = true;
  ci_input_uses : input_uses (input_at s) = true -> g_connection s = true;
  ci_handler_uses : handler_uses (signal_at s) = true -> g_connection s = true;
  ci_boot : main_at s = MBoot -> input_at s = INone;
  ci_late : late s = true -> after_enter (main_at s) = true;
  ci_quit : late s = true -> quit_ s = true;
  ci_after : late s = true -> input_at s = IWake \/ input_at s = IDone;
  ci_wake : late s = true -> input_at s = IDone -> main_at s = MPoll -> wakes s = true
}.

Ltac fire_cases :=
  repeat match goal with
  | H : Some _ = Some _ |- _ => injection H as H
  | H : Ok _ = Ok _ |- _ => injection H as H
  | H : None = Some _ |- _ => discriminate H
  | H : Err _ = Ok _ |- _ => discriminate H
  | H : context [match ?x with _ => _ end] |- _ => destruct x eqn:?
  end.

Ltac globals := simpl in *; first
  [ done | congruence | tauto | intuition congruence
  | match goal with p : ipc |- _ => destruct p; simpl in *; intuition congruence end
  | match goal with o : option (thread * hpc) |- _ =>
      destruct o as [[? []]|]; simpl in *; intuition congruence end ].

Ltac split_globals :=
  simpl in *; bool_solve;
  try match goal with o : option holder |- _ => destruct o as [[]|]; try discriminate end;
  try match goal with |- CInv (set_main (back ?k) _) => destruct k end.

Definition closes_in (w' : CW K) s : bool :=
  negb (TcpConnection.disconnected (conn (cw s))) && TcpConnection.disconnected (conn w').

Lemma CInv_back k (w' : CW K) s :
  CInv s -> holds_main (main_at s) = false -> after_enter (main_at s) = true ->
  (closes_in w' s = true -> created s = true) -> CInv (after_io k w' s).
Proof.
  intros [] Hm Ha Hc. unfold after_io. change (_ && _)%bool with (closes_in w' s).
  destruct (closes_in w' s), k, s; constructor; globals.
Qed.

Lemma CInv_main s s' :
  CInv s -> (created s = false -> TcpConnection.run_next [] [] (cw s) = Ok (tt, cw s)) ->
  main_step s = Some (Ok s') -> CInv s'.
Proof.
  intros Hi Hn Hf. unfold main_step in Hf. destruct (main_at s) eqn:E; simpl in Hf.
  7: destruct n.
  8: { destruct (TcpConnection.run_next [] [] (cw s)) as [[[] w']|] eqn:Er; [|done].
       injection Hf as <-. apply CInv_back; [done|by rewrite E|by rewrite E|].
       intros Hc. destruct (created s); [done|]. specialize (Hn eq_refl). injection Hn as ->.
       unfold closes_in in Hc. by destruct (TcpConnection.disconnected _). }
  all: unfold lock in Hf; destruct s; simpl in *; subst; destruct Hi; fire_cases; subst; split_globals.
  all: constructor; globals.
Qed.

Lemma CInv_input s s' : CInv s -> input_step s = Some (Ok s') -> CInv s'.
Proof.
  intros Hi Hf. unfold input_step in Hf. destruct (input_at s) eqn:E; simpl in Hf.
  all: unfold lock, usable in Hf; destruct s; simpl in *; subst; destruct Hi; fire_cases; subst; split_globals.
  all: constructor; globals.
Qed.

Lemma CInv_handler t p s s' :
  CInv s -> signal_at s = Some (t, p) -> handler_step t p s = Some (Ok s') -> CInv s'.
Proof.
  intros Hi E Hf. unfold handler_step in Hf. destruct t, p; simpl in Hf.
  all: unfold lock, usable in Hf; destruct s; simpl in *; subst; destruct Hi; fire_cases; subst; split_globals.
  all: constructor; globals.
Qed.

(** What the loop has of w0 before the connection: its task queue is empty. *)
Definition untouched s : Prop :=
  created s = false -> cw s = w0 /\ handed s = [].

Lemma run_next_idle (w : CW K) :
  pendingTasks_ (loop w) = [] -> TcpConnection.run_next [] [] w = Ok (tt, w).
Proof.
  intros Hp. unfold TcpConnection.run_next, bind, on_loop, zoom, gets. simpl. rewrite Hp.
  by destruct w.
Qed.

Context (w0_tasks : pendingTasks_ (loop w0) = []).

Lemma main_waits_at p b s : main_waits p b s = true -> main_at s = p /\ b = true.
Proof. unfold main_waits. intros Hw. bool_solve. split; [by eapply bool_decide_eq_true|done]. Qed.

Lemma CInv_step s s' : CInv s -> untouched s -> step s s' -> CInv s'.
Proof.
  intros Hi Hu [l Hf]. destruct l; simpl in Hf.
  1:{ destruct (interrupted Main s); [done|]. eapply CInv_main; [done| |done].
      intros Hc. destruct (Hu Hc) as [-> _]. by apply run_next_idle. }
  1:{ destruct (interrupted Input s); [done|]. by eapply CInv_input. }
  1:{ destruct (signal_at s) as [[t p]|] eqn:E; [|done]. by eapply CInv_handler. }
  6:{ destruct (main_waits _ _ _) eqn:Ew; [|done]. apply main_waits_at in Ew as [E Hb].
      destruct (TcpConnection.dispatch _ _ _ _) as [[[] w']|]; [|done]. injection Hf as <-.
      bool_solve. by apply CInv_back; [|rewrite E|rewrite E|]. }
  3:{ destruct (main_waits _ _ _) eqn:Ew; [|done]. apply main_waits_at in Ew as [E _].
      injection Hf as <-. destruct s, Hi; simpl in *; subst; split_globals; constructor; globals. }
  3,4: destruct (main_waits _ _ _) eqn:Ew; [|done]; apply main_waits_at in Ew as [E _].
  all: unfold getline_returns in Hf; destruct Hi; destruct s; simpl in *; fire_cases; subst.
  all: split_globals; constructor; globals.
Qed.

(** ** The connection: a run of TcpRemote *)

Context `{!SocketLaws K} `{!ReadvLaws K} `{!RecvLaws K}.
Context (w0_fresh : fresh w0) (input_other : input_tid <> tid_ (loop w0)).

Abbreviation st s := (state_ (conn (cw s))).

Definition runs s : Prop := created s = true -> remote_run w0 (handed s) (cw s).

Lemma CInv_uses s : CInv s ->
  input_uses (input_at s) = true \/ handler_uses (signal_at s) = true -> created s = true.
Proof. intros [] [E|E]; auto. Qed.

Lemma runs_RInv s : runs s -> created s = true ->
  RInv (sent_by w0) (cw s) /\ input_tid <> tid_ (loop (cw s)).
Proof.
  intros Hr Hc. specialize (Hr Hc). split; [by apply (remote_run_inv w0 (handed s))|].
  by rewrite (lt_tid _ _ (remote_run_later _ _ _ w0_fresh Hr)).
Qed.

(** What a step does to the connection. *)
Definition advances s s' : Prop :=
  untouched s' /\ runs s' /\ (rank (st s) <= rank (st s'))%nat.

Lemma advances_same s s' :
  untouched s -> runs s -> cw s' = cw s -> created s' = created s -> handed s' = handed s ->
  advances s s'.
Proof. unfold advances, untouched, runs. intros ? ? -> -> ->. auto. Qed.

Lemma advances_run s s' :
  runs s -> created s = true -> created s' = true -> handed s' = handed s ->
  (RInv (sent_by w0) (cw s) -> later (cw s) (cw s')) ->
  (remote_run w0 (handed s) (cw s) -> remote_run w0 (handed s) (cw s')) -> advances s s'.
Proof.
  intros Hr Hc Hc' Hh Hl Hs. split_and!.
  - intros Hf. congruence.
  - intros _. rewrite Hh. by apply Hs, Hr.
  - apply lt_rank, Hl. by apply (runs_RInv s Hr).
Qed.

Lemma main_advances s s' :
  untouched s -> runs s -> main_step s = Some (Ok s') -> advances s s'.
Proof.
  intros Hu Hr Hf. unfold main_step, lock in Hf. destruct (main_at s) eqn:E.
  7: destruct n.
  8:{ destruct (TcpConnection.run_next [] [] (cw s)) as [[[] w']|] eqn:Er; [|done].
      injection Hf as <-. destruct (created s) eqn:Hc.
      - apply advances_run; [done..| |]; simpl.
        + intros Hi. by apply (event_later _ (EvTask []) _ _ Hi).
        + intros Hrun. by eapply remote_task.
      - destruct (Hu Hc) as [Hw _]. rewrite Hw, run_next_idle in Er by done. injection Er as <-.
        by apply advances_same. }
  all: fire_cases; subst; by apply advances_same.
Qed.

Lemma input_advances s s' :
  CInv s -> untouched s -> runs s ->
  match input_at s with IFinish l _ => zlen l <= Buffer.max_size | _ => True end ->
  input_step s = Some (Ok s') -> advances s s'.
Proof.
  intros Hi Hu Hr Hz Hf. unfold input_step, lock in Hf. destruct (input_at s) eqn:E.
  10:{ assert (created s = true) as Hc by (apply CInv_uses; [done|left; by rewrite E]).
       destruct (runs_RInv s Hr Hc) as [HR Ht].
       destruct (finish_remote input_tid seen l (cw s)) as [[[] w']|] eqn:Er; [|done].
       injection Hf as <-. split_and!; simpl.
       - intros Hf'. simpl in Hf'. congruence.
       - intros _. simpl. by apply (remote_send w0 input_tid seen l (handed s) (cw s) w'); auto.
       - by apply lt_rank, (finish_remote_later input_tid seen l). }
  all: fire_cases; subst; by apply advances_same.
Qed.

Lemma handler_advances t p s s' :
  CInv s -> untouched s -> runs s -> signal_at s = Some (t, p) ->
  handler_step t p s = Some (Ok s') -> advances s s'.
Proof.
  intros Hi Hu Hr E Hf. unfold handler_step, lock in Hf. destruct p.
  4:{ assert (created s = true) as Hc by (apply CInv_uses; [done|right; by rewrite E]).
      destruct (TcpConnection.remote_call _ _ _ _) as [[[] w']|] eqn:Er; [|done].
      injection Hf as <-. apply advances_run; [done..| |]; simpl.
      - intros HR. by eapply shutdown_later.
      - intros Hrun. by eapply remote_shutdown. }
  all: fire_cases; subst; by apply advances_same.
Qed.

(** ** The lines *)

(** [agree s ts]: the lines handed on are [ts], or a prefix after the end of the
    connection. *)
Definition agree s (ts : list line) : Prop :=
  handed s = ts \/ (handed s `prefix_of` ts /\ (2 <= rank (st s))%nat).

(** The line in hand, not a command and of a size that a string can have. *)
Definition in_hand s (l : line) (P : list line -> Prop) : Prop :=
  zlen l <= Buffer.max_size /\ exists ts, typed s = ts ++ [l] /\ P ts.

Record TInv s : Prop := mkTInv {
  ti_prefix : handed s `prefix_of` typed s;
  ti_lines : Forall (fun l => is_command l = false) (handed s);
  ti_at : match input_at s with
    | INone | IWait _ | IWaited => typed s = []
    | ITest | IGetline | IUnlock false => agree s (typed s)
    | ILine l => in_hand s l (agree s)
    | ILock l | ILocked l => is_command l = false /\ in_hand s l (agree s)
    | ISend l => is_command l = false
        /\ in_hand s l (fun ts => handed s = ts /\ (1 <= rank (st s))%nat)
    | IFinish l c => is_command l = false
        /\ in_hand s l (fun ts => handed s = ts /\ (1 <= rank c <= rank (st s))%nat)
    | _ => True
    end
}.

Lemma agree_later s s' ts :
  agree s ts -> handed s' = handed s -> (rank (st s) <= rank (st s'))%nat -> agree s' ts.
Proof. intros [<-|[? ?]] Hh ?; rewrite <- Hh in *; [by left|right; split; [done|lia]]. Qed.

(** Steps of the other thread, and of the handler. *)
Lemma TInv_later s s' :
  TInv s -> input_at s' = input_at s -> typed s' = typed s -> handed s' = handed s ->
  (rank (st s) <= rank (st s'))%nat -> TInv s'.
Proof.
  intros [Hp Hl Ha] Ei Et Eh Hr. constructor; rewrite ?Et, ?Eh; [done..|].
  unfold in_hand in *. rewrite Ei, Et.
  assert (forall ts, agree s ts -> agree s' ts) as Hag by (intros; by eapply agree_later).
  destruct (input_at s) eqn:E; try done.
  all: repeat match goal with
  | x : bool |- _ => destruct x; [done|]
  | H : _ /\ _ |- _ => destruct H
  | H : exists _, _ |- _ => destruct H
  end; rewrite ?Eh; eauto 8 with lia.
Qed.

Lemma usable_rank s : usable s = true -> rank (st s) = 1%nat.
Proof.
  unfold usable, TcpConnection.connected. intros [_ Hc]%andb_prop.
  apply bool_decide_eq_true in Hc. by rewrite Hc.
Qed.

(** The line is passed on, or the connection has ended. *)
Lemma TInv_finish s l c w' q wk :
  TInv s -> input_at s = IFinish l c -> (rank (st s) <= rank (state_ (conn w')))%nat ->
  let push := bool_decide (c = kConnected) in
  TInv (set_input (IUnlock false) (set_loop q wk (record_lines (typed s)
    (if push then handed s ++ [l] else handed s) (late s) (set_cw w' s)))).
Proof.
  intros [Hp Hl Ha] E Hr. rewrite E in Ha. destruct Ha as (Hnc & _ & ts & Ht & Hh & Hc).
  cbv zeta. case_bool_decide as Hk; constructor; simpl; try done.
  - by rewrite Ht, Hh.
  - apply Forall_app. split; [done|]. by constructor.
  - left. simpl. by rewrite Ht, Hh.
  - right. simpl. split; [done|]. assert (2 <= rank c)%nat; [|lia].
    destruct c; simpl in *; try done; lia.
Qed.

Lemma TInv_input s s' :
  TInv s -> (rank (st s) <= rank (st s'))%nat -> input_step s = Some (Ok s') -> TInv s'.
Proof.
  intros Hi Hr Hf. unfold input_step, lock in Hf. destruct (input_at s) eqn:E.
  10:{ destruct (finish_remote input_tid seen l (cw s)) as [[[] w']|] eqn:Er; [|done].
       injection Hf as <-. by apply TInv_finish. }
  all: destruct Hi as [Hp Hl Ha]; rewrite E in Ha; fire_cases; subst; constructor; try done.
  - simpl. left. rewrite Ha in *. by apply prefix_nil_inv.
  - destruct Ha as (Hnc & Hz & ts & Ht & Hag). split; [done|]. split; [done|]. exists ts.
    split; [done|]. pose proof (usable_rank s Heqb) as Hk. simpl in *.
    destruct Hag as [Hh|[_ Hh]]; [split; [done|lia]|lia].
  - destruct Ha as (Hnc & Hz & ts & Ht & Hh & Hk). split; [done|]. split; [done|]. exists ts.
    by split; [|split; [|split]].
Qed.

Lemma TInv_line s l :
  TInv s -> input_at s = IGetline -> zlen l <= Buffer.max_size ->
  TInv (set_input (ILine l) (record_lines (typed s ++ [l]) (handed s) (late s) s)).
Proof.
  intros [Hp Hl Ha] E Hz. rewrite E in Ha. constructor; simpl.
  - by apply prefix_app_r.
  - done.
  - split; [done|]. by exists (typed s).
Qed.

(** ** All invariants, in every reachable state *)

Record Inv s : Prop := mkInv {
  i_globals : CInv s;
  i_untouched : untouched s;
  i_runs : runs s;
  i_lines : TInv s
}.

Lemma init_Inv : Inv init.
Proof.
  constructor; [by constructor|done|done|]. constructor; simpl; [done|constructor|done].
Qed.

Lemma other_Inv s s' :
  Inv s -> CInv s' -> advances s s' -> input_at s' = input_at s -> typed s' = typed s ->
  handed s' = handed s -> Inv s'.
Proof.
  intros [] ? (? & ? & ?) ? ? ?. constructor; [done..|]. by apply (TInv_later s).
Qed.

Lemma main_Inv s s' : Inv s -> main_step s = Some (Ok s') -> Inv s'.
Proof.
  intros Hi Hf. pose proof Hi as [Hc Hu Hr Ht].
  assert (CInv s') as Hc'.
  { eapply CInv_main; [done| |done]. intros E. destruct (Hu E) as [-> _]. by apply run_next_idle. }
  pose proof (main_advances s s' Hu Hr Hf) as Ha.
  destruct (decide (main_at s = MBoot)) as [E|Hne].
  - unfold main_step in Hf. rewrite E in Hf. injection Hf as <-. destruct Ha as (? & ? & ?).
    constructor; [done..|]. destruct Ht as [Hp Hl Hat]. constructor; [done..|]. simpl.
    by rewrite (ci_boot s Hc E) in Hat.
  - assert (input_at s' = input_at s /\ typed s' = typed s /\ handed s' = handed s) as (? & ? & ?).
    { clear Ha Hc'. unfold main_step, lock, after_io in Hf. destruct (main_at s) eqn:E; try done.
      all: fire_cases; by subst. }
    by apply (other_Inv s).
Qed.

Lemma input_Inv s s' : Inv s -> input_step s = Some (Ok s') -> Inv s'.
Proof.
  intros [Hc Hu Hr Ht] Hf. assert (advances s s') as (? & ? & ?).
  { apply input_advances; [done..| |done]. destruct Ht as [_ _ Ha]. destruct (input_at s); try done.
    by destruct Ha as (_ & ? & _). }
  constructor; [by eapply CInv_input|done|done|by eapply TInv_input].
Qed.

Lemma handler_Inv t p s s' :
  Inv s -> signal_at s = Some (t, p) -> handler_step t p s = Some (Ok s') -> Inv s'.
Proof.
  intros Hi E Hf. pose proof Hi as [Hc Hu Hr Ht].
  assert (input_at s' = input_at s /\ typed s' = typed s /\ handed s' = handed s) as (? & ? & ?).
  { unfold handler_step, lock in Hf. destruct p; fire_cases; by subst. }
  apply (other_Inv s); [done|by eapply CInv_handler|by eapply handler_advances|done..].
Qed.

Lemma established_advances self w' s :
  Inv s -> created s = false -> TcpConnection.connectEstablished self (cw s) = Ok (tt, w') ->
  advances s (set_main (MCallback true None) (set_created true (set_cw w' s))).
Proof.
  intros [_ Hu _ _] Hc E. destruct (Hu Hc) as [Hw Hh]. rewrite Hw in E. split_and!.
  - done.
  - intros _. simpl. rewrite Hh. by eapply remote_start.
  - simpl. rewrite Hw. apply lt_rank. apply (remote_run_later w0 []); [done|]. by eapply remote_start.
Qed.

Lemma dispatch_advances r w' s :
  Inv s -> created s = true -> enabled (EvDispatch r on_message) (cw s) = true ->
  TcpConnection.dispatch [] on_message r (cw s) = Ok (tt, w') -> advances s (after_io None w' s).
Proof.
  intros [_ _ Hr _] Hc He E. apply advances_run; [done..| |]; simpl.
  - intros HR. by apply (event_later _ (EvDispatch r on_message) _ _ HR).
  - intros Hrun. by eapply remote_dispatch.
Qed.

Lemma step_Inv s s' : Inv s -> step s s' -> Inv s'.
Proof.
  intros Hi Hs. pose proof Hi as [Hc Hu Hr Ht]. pose proof (CInv_step s s' Hc Hu Hs) as Hc'.
  destruct Hs as [l Hf]. destruct l; simpl in Hf.
  - destruct (interrupted Main s); [done|]. by apply (main_Inv s).
  - destruct (interrupted Input s); [done|]. by apply (input_Inv s).
  - destruct (signal_at s) as [[t p]|] eqn:E; [|done]. by apply (handler_Inv t p s).
  - destruct (zlen l <=? Buffer.max_size) eqn:Ez; [|done]. bool_solve.
    unfold getline_returns in Hf. destruct (input_at s) eqn:E; try done.
    destruct (interrupted Input s); [done|]. injection Hf as <-.
    constructor; [done..|]. by apply TInv_line.
  - unfold getline_returns in Hf. destruct (input_at s) eqn:E; try done.
    destruct (interrupted Input s); [done|]. injection Hf as <-.
    constructor; [done..|]. destruct Ht. constructor; simpl; [by rewrite app_nil_r|done..].
  - destruct (main_waits _ _ _); [|done]. injection Hf as <-. apply (other_Inv s); try done; by apply advances_same.
  - destruct (main_waits _ _ _) eqn:Ew; [|done]. apply main_waits_at in Ew as [E Hb].
    destruct (TcpConnection.connectEstablished _ _) as [[[] w']|] eqn:Er; [|done]. injection Hf as <-.
    apply (other_Inv s); [done..| |done|done|done]. apply (established_advances self); [done| |done].
    by apply negb_true_iff.
  - destruct (main_waits _ _ _); [|done]. injection Hf as <-. apply (other_Inv s); try done; by apply advances_same.
  - destruct (main_waits _ _ _) eqn:Ew; [|done]. apply main_waits_at in Ew as [E Hb].
    destruct (TcpConnection.dispatch _ _ _ _) as [[[] w']|] eqn:Er; [|done]. injection Hf as <-.
    apply andb_prop in Hb as [? ?]. apply (other_Inv s); try done. by apply (dispatch_advances revents).
  - destruct (signal_at s); [done|].
    assert (s' = set_signal (Some (t, HExit)) s) as -> by (destruct t; repeat case_match; congruence).
    apply (other_Inv s); try done; by apply advances_same.
Qed.

Lemma reachable_Inv s : reachable s -> Inv s.
Proof.
  intros Hr. pose proof init_Inv as H0. unfold reachable in Hr. revert H0.
  induction Hr as [|x y z Hs _ IH]; [done|]. intros H0. apply IH. by eapply step_Inv.
Qed.

(** ** The end of the program *)

Fixpoint run (ls : list label) s : option (result (state K)) :=
  match ls with
  | [] => Some (Ok s)
  | l :: ls' => match fire l s with Some (Ok s') => run ls' s' | r => r end
  end.

Lemma run_play ls s s' : run ls s = Some (Ok s') -> play ls s = Some s'.
Proof.
  revert s. induction ls as [|l ls IH]; simpl; intros s; [by intros [= ->]|].
  destruct (fire l s) as [[s1|f]|]; [apply IH|done..].
Qed.

(** An upper bound of the steps that main takes when nothing more happens. *)
Definition tasks_left (n : nat) : nat := 3 + 6 * n.
Definition back_left (pending : nat) (k : option nat) : nat :=
  match k with Some n => tasks_left n | None => S (tasks_left pending) end.
Definition steps_left s : nat :=
  let pending := length (pendingTasks_ (loop (cw s))) in
  match main_at s with
  | MReturn => 0
  | MJoin => 1
  | MTest => 2
  | MTasks n => tasks_left n
  | MUnlock _ k => 1 + back_left pending k
  | MSecond _ k => 2 + back_left pending k
  | MFirst _ k => 3 + back_left pending k
  | MCallback _ k => 4 + back_left pending k
  | MRound => back_left pending None
  | MPoll | MErrorQuit => 1 + back_left pending None
  | MError => 2 + back_left pending None
  | MBoot | MStart | MEnter => 0
  end.

(** inputThread has ended and called quit() after loop() began; no handler. *)
Definition ending s : Prop :=
  input_at s = IDone /\ signal_at s = None /\ late s = true.

Lemma task_progress n s :
  Inv s -> main_at s = MTasks (S n) ->
  match main_step s with
  | Some (Ok s') => (steps_left s' < steps_left s)%nat /\ input_at s' = input_at s
      /\ signal_at s' = signal_at s /\ late s' = late s
  | Some (Err f) => conn_fault f
  | None => False
  end.
Proof.
  intros [Hc Hu Hr Ht] E. unfold main_step. rewrite E.
  assert (forall w', (steps_left (after_io (Some n) w' s) < steps_left s)%nat) as Hd.
  { intros w'. unfold after_io. destruct (_ && _)%bool; unfold steps_left; simpl; rewrite E; simpl; unfold tasks_left; lia. }
  destruct (created s) eqn:Hcr.
  - destruct (runs_RInv s Hr Hcr) as [HR _].
    pose proof (event_ok [] eq_refl _ (EvTask []) _ HR eq_refl) as Hw. unfold wp in Hw. simpl in Hw.
    destruct (TcpConnection.run_next [] [] (cw s)) as [[[] w']|f].
    + by split; [apply Hd|].
    + by apply (event_fault_quiet [] (EvTask []) (cw s)).
  - destruct (Hu Hcr) as [-> _]. rewrite run_next_idle by done. by split; [apply Hd|].
Qed.

Lemma main_progress s :
  Inv s -> ending s -> main_at s <> MReturn ->
  match main_step s with
  | Some (Ok s') => (steps_left s' < steps_left s)%nat /\ ending s'
  | Some (Err f) => conn_fault f
  | None => False
  end.
Proof.
  intros Hi (Hin & Hsg & Hl) Hne. pose proof Hi as [[] _ _ _].
  assert (g_conn_mutex s = None \/ g_conn_mutex s = Some ByMain) as Hmx.
  { rewrite Hin in ci_input0. rewrite Hsg in ci_handler0. by destruct (g_conn_mutex s) as [[]|]; auto. }
  pose proof (ci_late0 Hl) as Hen. pose proof (ci_wake0 Hl Hin) as Hwk.
  unfold ending. destruct (main_at s) eqn:E; try done; simpl in *.
  4: destruct n.
  5:{ pose proof (task_progress n s Hi E) as Hp. destruct (main_step s) as [[s'|f]|]; [|done..].
      destruct Hp as (? & -> & -> & ->). by split_and!. }
  all: unfold main_step, lock; rewrite E.
  all: rewrite ?Hin, ?(ci_quit0 Hl), ?(Hwk eq_refl).
  all: try (destruct Hmx as [Hmx|Hmx]; rewrite Hmx in *; simpl in *; try done).
  all: unfold steps_left; simpl; rewrite ?E; simpl; split_and!; try done; unfold tasks_left; try lia.
  all: destruct k, up; simpl; unfold tasks_left; first [done|lia].
Qed.

Lemma steps_left_pos s :
  after_enter (main_at s) = true -> main_at s <> MReturn -> (0 < steps_left s)%nat.
Proof.
  unfold steps_left, tasks_left, back_left. destruct (main_at s); simpl; try done; lia.
Qed.

Lemma ending_returns n s :
  Inv s -> ending s -> (steps_left s <= n)%nat ->
  exists m r, (m <= n)%nat /\ run (replicate m MainStep) s = Some r
    /\ match r with Ok s' => main_at s' = MReturn | Err f => conn_fault f end.
Proof.
  revert s. induction n as [|n IH]; intros s Hi He Hn.
  all: destruct (decide (main_at s = MReturn)) as [E|Hne]; [exists O, (Ok s); split; [lia|done]|].
  all: pose proof (steps_left_pos s (ci_late s (i_globals s Hi) (proj2 (proj2 He))) Hne) as Hpos.
  1: lia.
  pose proof (main_progress s Hi He Hne) as Hp.
  assert (fire MainStep s = main_step s) as Hf
    by (simpl; unfold interrupted; by rewrite (proj1 (proj2 He))).
  destruct (main_step s) as [[s'|f]|] eqn:Em; [| |done].
  - destruct Hp as [Hlt He'].
    destruct (IH s') as (m & r & Hm & Hrun & Hres); [by apply (main_Inv s)|done|lia|].
    exists (S m), r. split; [lia|]. split; [|done]. cbn [replicate run]. by rewrite Hf.
  - exists 1%nat, (Err f). split; [lia|]. split; [|done]. cbn [replicate run]. by rewrite Hf.
Qed.

(** The input thread after a line that it does not send. *)
Definition ended (l : line) s : state K :=
  set_input IDone (set_loop true true (record_lines (typed s ++ [l]) (handed s)
    (after_enter (main_at s)) (should_exit s))).

Lemma exits_at_line l s :
  g_should_exit s = true -> input_at s = IGetline -> signal_at s = None -> zlen l <= Buffer.max_size ->
  run [Line l; InputStep; InputStep; InputStep; InputStep] s = Some (Ok (ended l s)).
Proof.
  intros He Hi Hs Hl. destruct s. simpl in *. subst.
  unfold run, fire, getline_returns, interrupted, input_step. cbn.
  rewrite (proj2 (Z.leb_le _ _) Hl). reflexivity.
Qed.

(** ** A signal during the connection callback *)

(** The handler runs on the thread that holds the mutex it waits for. *)
Definition stuck s : Prop :=
  signal_at s = Some (Main, HLock) /\ g_conn_mutex s = Some ByMain /\ holds_main (main_at s) = true.

Lemma stuck_step s s' : Inv s -> stuck s -> step s s' -> stuck s'.
Proof.
  intros [[] _ _ _] (Hsg & Hmx & Hm) [l Hf].
  assert (interrupted Main s = true) as Him by by (unfold interrupted; rewrite Hsg).
  assert (forall p b, main_waits p b s = false) as Hw.
  { intros p b. unfold main_waits. rewrite Him. apply andb_false_r. }
  rewrite Hmx in ci_input0. simpl in ci_input0.
  destruct l; simpl in Hf; rewrite ?Him, ?Hw, ?Hsg in Hf; try done.
  - unfold input_step, lock in Hf. rewrite Hmx in Hf. unfold interrupted in Hf. rewrite Hsg in Hf.
    simpl in Hf. destruct (input_at s) eqn:E; try done; fire_cases; subst; by rewrite ?Hsg.
  - unfold handler_step, lock in Hf. by rewrite Hmx in Hf.
  - unfold getline_returns in Hf. fire_cases; subst; done.
  - unfold getline_returns in Hf. fire_cases; subst; done.
Qed.
End client.

(** ** The lines of a run *)

Lemma reachable_lines {K} `{Posix K} `{!SocketLaws K} `{!ReadvLaws K} `{!RecvLaws K} w0 tid s :
  fresh w0 -> tid <> tid_ (loop w0) -> reachable w0 tid s ->
  handed s `prefix_of` typed s
  /\ Forall (fun l => is_command l = false) (handed s)
  /\ sent_by (cw s) `prefix_of` sent_by w0 ++ concat (handed s)
  /\ (created s = true -> state_ (conn (cw s)) <> kDisconnected ->
      sent_by (cw s) ++ Buffer.content (outputBuffer_ (conn (cw s)))
        ++ queued_sends (pendingTasks_ (loop (cw s))) = sent_by w0 ++ concat (handed s))
  /\ (input_at s = IGetline -> TcpConnection.connected (conn (cw s)) = true -> handed s = typed s).
Proof.
  intros Hf Ht Hr.
  destruct (reachable_Inv w0 tid (fresh_tasks _ Hf) Hf Ht s Hr) as [Hc Hu Hrun [Hp Hl Ha]].
  split_and!; [done|done| | |].
  - destruct (created s) eqn:E; [|by destruct (Hu E) as [-> ->]; exists []; rewrite !app_nil_r].
    destruct (remote_run_inv w0 _ _ Hf (Hrun E)) as [[[[] Hs] _ _ _] []].
    etrans; [exact inv_prefix|]. by apply prefix_app.
  - intros E Hd. destruct (remote_run_inv w0 _ _ Hf (Hrun E)) as [[[[] Hs] _ _ _] []].
    unfold sent_by at 1. by rewrite app_assoc, (Hs Hd), <- app_assoc, rm_order.
  - intros E Hk%bool_decide_eq_true. rewrite E in Ha. destruct Ha as [?|[_ Hrk]]; [done|].
    rewrite Hk in Hrk. simpl in Hrk. lia.
Qed.

(** What the message callback has printed: all that was read. *)
Definition shown {K} (s : state K) : list (list byte) := messages (trace (cw s)).

Lemma reachable_shown {K} `{Posix K} `{!SocketLaws K} `{!ReadvLaws K} `{!RecvLaws K} w0 tid s :
  ready w0 -> tid <> tid_ (loop w0) -> reachable w0 tid s ->
  got_by (cw s) = got_by w0 ++ concat (shown s).
Proof.
  intros Hw Ht Hr. pose proof Hw as [Hf _].
  destruct (reachable_Inv w0 tid (fresh_tasks _ Hf) Hf Ht s Hr) as [_ Hu Hrun _]. unfold shown.
  destruct (created s) eqn:E.
  - by destruct (remote_run_heard w0 _ _ Hw (Hrun E)).
  - destruct (Hu E) as [-> _]. by rewrite (fresh_trace _ Hf), app_nil_r.
Qed.

(** ** Properties *)

(** C11: what the user types reaches the socket in order.  In every run of the
    program, with any interleaving of the input thread, the event loop and
    signals: the lines handed to the connection are the first lines that were
    typed, none of them a command to quit; the socket has been given a prefix of
    their bytes; until the connection is closed it has been given all of them but
    what the output buffer and the loop's queue hold; and while the connection is
    open and the input thread waits in getline, every line typed so far has
    been handed on. *)
Theorem typed_lines_are_sent {K} `{Posix K} `{!SocketLaws K} `{!ReadvLaws K} `{!RecvLaws K} w0 tid s :
  fresh w0 -> tid <> tid_ (loop w0) -> reachable w0 tid s ->
  handed s `prefix_of` typed s
  /\ Forall (fun l => is_command l = false) (handed s)
  /\ sent_by (cw s) `prefix_of` sent_by w0 ++ concat (handed s)
  /\ (created s = true -> state_ (conn (cw s)) <> kDisconnected ->
      sent_by (cw s) ++ Buffer.content (outputBuffer_ (conn (cw s)))
        ++ queued_sends (pendingTasks_ (loop (cw s))) = sent_by w0 ++ concat (handed s))
  /\ (input_at s = IGetline -> TcpConnection.connected (conn (cw s)) = true -> handed s = typed s).
Proof. apply reachable_lines. Qed.

(** The connection is made, two lines are typed; the loop sends the first one and
    four bytes of the second one before another line is typed. *)
Definition client_w0 : CW SimK := w_init [SysOk 8; SysOk 3; SysOk 8; SysOk 2].
Definition connects : list label :=
  [MainStep; InputStep; MainStep; MainStep; MainStep; Event; Established 1;
   MainStep; MainStep; MainStep; MainStep; MainStep; MainStep; MainStep;
   InputStep; InputStep; InputStep].
Definition types (l : line) : list label := Line l :: replicate 7 InputStep.
Definition one_round : list label := [MainStep; MainStep; MainStep; MainStep; MainStep].
Definition client_script : list label :=
  connects ++ types [x61; x62; x63] ++ one_round ++ types [x64; x65; x66] ++ one_round ++ types [x67].
Definition client_end : state SimK :=
  Eval vm_compute in default (init client_w0) (play 8 client_script (init client_w0)).

Lemma client_script_ends : play 8 client_script (init client_w0) = Some client_end.
Proof. vm_compute. reflexivity. Qed.

Lemma typed_lines_are_sent_witness :
  handed client_end = [[x61; x62; x63]; [x64; x65; x66]; [x67]]
  /\ sent_by (cw client_end) = [x61; x62; x63; x64; x65]
  /\ sent_by (cw client_end) ++ Buffer.content (outputBuffer_ (conn (cw client_end)))
       ++ queued_sends (pendingTasks_ (loop (cw client_end)))
     = [x61; x62; x63; x64; x65; x66; x67].
Proof.
  destruct (typed_lines_are_sent client_w0 8 client_end (w_init_fresh _) ltac:(discriminate)
    (client_play_steps 8 _ _ _ client_script_ends)) as (_ & _ & _ & Hd & _).
  split; [reflexivity|]. split; [reflexivity|]. apply Hd; [reflexivity|discriminate].
Defined.

(** C12: the program ends.  When it has been asked to exit, after loop() began and
    with no signal handler running, the next line that getline returns ends the
    input thread in four steps, without sending that line; and once the input
    thread has ended, main alone leaves the loop and returns within
    [steps_left] steps, unless the operating system refuses a call. *)
Theorem client_exits {K} `{Posix K} `{!SocketLaws K} `{!ReadvLaws K} `{!RecvLaws K} w0 tid s l :
  fresh w0 -> tid <> tid_ (loop w0) -> reachable w0 tid s ->
  g_should_exit s = true -> input_at s = IGetline -> signal_at s = None ->
  after_enter (main_at s) = true -> zlen l <= Buffer.max_size ->
  exists s' n r,
    run tid [Line l; InputStep; InputStep; InputStep; InputStep] s = Some (Ok s')
    /\ input_at s' = IDone /\ handed s' = handed s /\ (n <= steps_left s)%nat
    /\ run tid (replicate n MainStep) s' = Some r
    /\ match r with Ok s2 => main_at s2 = MReturn | Err f => conn_fault f end.
Proof.
  intros Hf Ht Hr He Hi Hs Hen Hl.
  set (ls := [Line l; InputStep; InputStep; InputStep; InputStep]). set (s' := ended l s).
  assert (run tid ls s = Some (Ok s')) as Hrun by by apply exits_at_line.
  assert (reachable w0 tid s') as Hr'.
  { unfold reachable in *. etrans; [exact Hr|]. by apply (client_play_steps tid ls), run_play. }
  destruct (ending_returns w0 tid (fresh_tasks _ Hf) Hf Ht (steps_left s) s') as (n & r & Hn & Hmr & Hres).
  - apply (reachable_Inv w0 tid (fresh_tasks _ Hf) Hf Ht s' Hr').
  - by split_and!.
  - done.
  - by exists s', n, r.
Qed.

(** A signal interrupts main in epoll_wait; its handler half-closes the
    connection and calls quit(); the input thread is in getline. *)
Definition signalled : state SimK :=
  Eval vm_compute in default (init client_w0)
    (play 8 (client_script ++ Signal Main :: replicate 6 HandlerStep) (init client_w0)).

Lemma signalled_ends :
  play 8 (client_script ++ Signal Main :: replicate 6 HandlerStep) (init client_w0) = Some signalled.
Proof. vm_compute. reflexivity. Qed.

Lemma client_exits_witness :
  state_ (conn (cw signalled)) = kDisconnecting /\ quit_ signalled = true
  /\ exists s' n r,
    run 8 [Line [x68]; InputStep; InputStep; InputStep; InputStep] signalled = Some (Ok s')
    /\ input_at s' = IDone /\ handed s' = handed signalled /\ (n <= steps_left signalled)%nat
    /\ run 8 (replicate n MainStep) s' = Some r
    /\ match r with Ok s2 => main_at s2 = MReturn | Err f => conn_fault f end.
Proof.
  split; [reflexivity|]. split; [reflexivity|].
  apply (client_exits client_w0 8 signalled [x68] (w_init_fresh _) ltac:(discriminate)
    (client_play_steps 8 _ _ _ signalled_ends)); [reflexivity..|discriminate].
Defined.

(** A signal that interrupts main while its connection callback holds
    g_conn_mutex: the handler waits for ever for the thread it interrupted, and
    main never returns, whatever else happens. *)
Lemma signal_in_callback_hangs {K} `{Posix K} `{!SocketLaws K} `{!ReadvLaws K} `{!RecvLaws K} w0 tid s s' :
  fresh w0 -> tid <> tid_ (loop w0) -> reachable w0 tid s -> stuck s -> rtc (step tid) s s' ->
  stuck s' /\ main_at s' <> MReturn.
Proof.
  intros Hf Ht Hr Hst Hs. pose proof (reachable_Inv w0 tid (fresh_tasks _ Hf) Hf Ht s Hr) as Hi. clear Hr.
  assert (stuck s') as Hst'.
  { induction Hs as [|x y z Hxy _ IH]; [done|]. apply IH; [by eapply stuck_step|].
    by apply (step_Inv w0 tid (fresh_tasks _ Hf) Hf Ht x). }
  split; [done|]. destruct Hst' as (_ & _ & Hm). by destruct (main_at s').
Qed.

(** Such a state is reached: the signal comes between the two assignments. *)
Lemma signal_in_callback_happens : exists s : state SimK, reachable client_w0 8 s /\ stuck s.
Proof.
  set (ls := take 8 connects ++ [Signal Main; HandlerStep]).
  destruct (play 8 ls (init client_w0)) as [s|] eqn:E; [|by vm_compute in E].
  exists s. split; [by apply (client_play_steps 8 ls)|]. vm_compute in E. injection E as <-. done.
Qed.
End ConsoleClient.
