(* ===== verification/EndToEnd.v ===== *)
(** * EndToEnd: the console client and a server that answers, over one TCP connection
    (examples/client.cpp with examples/server.cpp or examples/benchmark_server.cpp)

    The program of ConsoleClient and the server's end of its connection, as in
    TcpReply, each on a kernel of its own.  Between the two kernels is the network:
    what one side has read is a prefix of what the other side has given to its
    descriptor ([wire]); a step that would break this cannot happen.  Nothing
    else relates the two sides: the network may delay and split at will. *)

From stdpp Require Import relations.
From S2P Require Import Prelude Posix Buffer Channel Epoll EventLoop TcpConnection TcpConnectionSpec TcpConnectionRuns TcpReply TcpRemote ConsoleClient.

Module EndToEnd.

Record both (K1 K2 : Type) : Type := mkBoth {
  client : ConsoleClient.state K1;
  server : option (CW K2)          (* once it has accepted the connection *)
}.
Arguments mkBoth {K1 K2}.
Arguments client {K1 K2}.
Arguments server {K1 K2}.

Inductive label : Type :=
| ClientStep (l : ConsoleClient.label) | Accept (self : Z) | ServerStep (e : reply_event).

Section composition.
Context {K1 K2 : Type} `{Posix K1} `{!RecvLaws K1} `{!SocketLaws K1} `{!ReadvLaws K1}.
Context `{Posix K2} `{!RecvLaws K2} `{!SocketLaws K2} `{!ReadvLaws K2}.
(** The two ends as their owners make them, the client's input thread, and the
    server's message callback. *)
Variables (w0 : CW K1) (input_tid : Z) (s0 : CW K2) (cb : list byte -> list api).
Implicit Types b : both K1 K2.

Definition server_got b : list byte := match server b with Some w => got_by w | None => [] end.
Definition server_sent b : list byte := match server b with Some w => sent_by w | None => [] end.
Definition client_got b : list byte := got_by (ConsoleClient.cw (client b)).
Definition client_sent b : list byte := sent_by (ConsoleClient.cw (client b)).

Definition wire b : bool :=
  bool_decide (server_got b `prefix_of` client_sent b)
  && bool_decide (client_got b `prefix_of` server_sent b).

(** A step of one side. *)
Definition move (l : label) b : option (both K1 K2) :=
  match l with
  | ClientStep l =>
      match ConsoleClient.fire input_tid l (client b) with
      | Some (Ok c) => Some (mkBoth c (server b))
      | _ => None
      end
  | Accept self =>
      match server b, TcpConnection.connectEstablished self s0 with
      | None, Ok (_, w) => Some (mkBoth (client b) (Some w))
      | _, _ => None
      end
  | ServerStep e =>
      match server b with
      | Some w =>
          if enabled (to_event cb e w) w then
            match run_event [] (to_event cb e w) w with
            | Ok (_, w') => Some (mkBoth (client b) (Some w'))
            | Err _ => None
            end
          else None
      | None => None
      end
  end.
Definition fire (l : label) b : option (both K1 K2) :=
  match move l b with Some b' => if wire b' then Some b' else None | None => None end.

Definition init : both K1 K2 := mkBoth (ConsoleClient.init w0) None.
Definition step b b' : Prop := exists l, fire l b = Some b'.
Definition reachable b : Prop := rtc step init b.

Fixpoint play (ls : list label) b : option (both K1 K2) :=
  match ls with
  | [] => Some b
  | l :: ls' => match fire l b with Some b' => play ls' b' | None => None end
  end.

Lemma ends_play_steps ls b b' : play ls b = Some b' -> rtc step b b'.
Proof.
  revert b. induction ls as [|l ls IH]; simpl; intros b; [by intros [= <-]|].
  destruct (fire l b) as [b1|] eqn:E; [|done]. intros Hp. eapply rtc_l; [by exists l|by apply IH].
Qed.

(** Each side of a run is a run of that side. *)
Record EInv b : Prop := mkEInv {
  ee_client : ConsoleClient.reachable w0 input_tid (client b);
  ee_server : forall w, server b = Some w -> reply_run cb s0 w;
  ee_wire : server_got b `prefix_of` client_sent b /\ client_got b `prefix_of` server_sent b
}.

Lemma move_EInv l b b' :
  EInv b -> move l b = Some b' ->
  ConsoleClient.reachable w0 input_tid (client b') /\ forall w, server b' = Some w -> reply_run cb s0 w.
Proof.
  intros [Hc Hs _] Hm. destruct l as [l|self|e]; simpl in Hm.
  - destruct (ConsoleClient.fire _ _ _) as [[c|]|] eqn:E; [|done..]. injection Hm as <-. split; [|done].
    eapply rtc_r; [exact Hc|by exists l].
  - destruct (server b); [done|]. destruct (TcpConnection.connectEstablished _ _) as [[[] w]|] eqn:E; [|done].
    injection Hm as <-. split; [done|]. simpl. intros ? [= <-]. by eapply reply_start.
  - destruct (server b) as [w|]; [|done]. destruct (enabled _ _) eqn:En; [|done].
    destruct (run_event _ _ _) as [[[] w']|] eqn:E; [|done]. injection Hm as <-. split; [done|].
    simpl. intros ? [= <-]. eapply reply_step; [by apply Hs|done..].
Qed.

Lemma reachable_EInv b : got_by w0 = [] -> reachable b -> EInv b.
Proof.
  intros Hg Hr. refine (rtc_ind_r EInv init _ _ b Hr).
  - constructor; [apply rtc_refl|done|]. unfold client_got. simpl. rewrite Hg.
    split; apply prefix_nil.
  - intros b1 b2 _ [l Hf] Hi. unfold fire in Hf. destruct (move l b1) as [b3|] eqn:E; [|done].
    destruct (wire b3) eqn:Ew; [|done]. injection Hf as <-.
    destruct (move_EInv l b1 b3 Hi E) as [Hc Hs]. constructor; [done|done|].
    unfold wire in Ew. apply andb_prop in Ew as [?%bool_decide_eq_true ?%bool_decide_eq_true]. done.
Qed.

(** Nothing is under way: both connections are open and hold no output, and what
    was sent has been read. *)
Definition quiet b w : Prop :=
  let c := client b in
  ConsoleClient.created c = true
  /\ state_ (conn (ConsoleClient.cw c)) <> kDisconnected /\ state_ (conn w) <> kDisconnected
  /\ Buffer.content (outputBuffer_ (conn (ConsoleClient.cw c))) = []
  /\ queued_sends (pendingTasks_ (loop (ConsoleClient.cw c))) = []
  /\ Buffer.content (outputBuffer_ (conn w)) = []
  /\ got_by w = client_sent b /\ client_got b = sent_by w.
End composition.

(** ** Property *)

(** C13: the conversation of the console client with a server that answers what it
    reads.  In every run of the two, however the network delays and splits the
    bytes and the threads and signals of the client interleave: what the server
    has read is a prefix of the lines that the client handed over, which are the
    first lines typed; what the client has shown is a prefix of the answers to the
    server's reads, in order; and when nothing is under way the server has read
    all the lines and the client has shown all the answers. *)
Theorem echo_end_to_end {K1 K2} `{Posix K1} `{!RecvLaws K1} `{!SocketLaws K1} `{!ReadvLaws K1}
    `{Posix K2} `{!RecvLaws K2} `{!SocketLaws K2} `{!ReadvLaws K2}
    (w0 : CW K1) input_tid (s0 : CW K2) cb f b w :
  answers cb f -> ready w0 -> input_tid <> tid_ (loop w0) -> ready s0 ->
  got_by w0 = [] -> sent_by w0 = [] -> got_by s0 = [] -> sent_by s0 = [] ->
  reachable w0 input_tid s0 cb b -> server b = Some w ->
  exists reads,
    got_by w = concat reads
    /\ concat reads `prefix_of` concat (ConsoleClient.handed (client b))
    /\ ConsoleClient.handed (client b) `prefix_of` ConsoleClient.typed (client b)
    /\ concat (ConsoleClient.shown (client b)) `prefix_of` concat (map f reads)
    /\ (quiet b w -> concat reads = concat (ConsoleClient.handed (client b))
         /\ concat (ConsoleClient.shown (client b)) = concat (map f reads)).
Proof.
  intros Hcb Hw Ht Hs Hg0 Hs0 Hg1 Hs1 Hr Hb.
  destruct (reachable_EInv w0 input_tid s0 cb b Hg0 Hr) as [Hc Hrun [Hw1 Hw2]].
  destruct (ConsoleClient.reachable_lines w0 input_tid _ (proj1 Hw) Ht Hc) as (Hp & _ & Hsent & Hall & _).
  destruct (reply_run_answers cb f Hcb s0 w Hs (Hrun w Hb)) as (_ & Hgot & Hpre & Hopen).
  pose proof (ConsoleClient.reachable_shown w0 input_tid _ Hw Ht Hc) as Hshown.
  fold (client_got b) in Hshown. rewrite Hg0, app_nil_l in Hshown. rewrite <- Hshown.
  exists (messages (trace w)). unfold server_got, server_sent, client_sent in *. rewrite Hb in *.
  rewrite Hg1, Hs0, Hs1 in *. rewrite app_nil_l in *. rewrite Hgot in *.
  split; [done|]. split; [by etrans|]. split; [done|]. split; [by etrans|].
  intros (Hcr & Hd1 & Hd2 & Ho1 & Hq & Ho2 & Hn1 & Hn2).
  specialize (Hall Hcr Hd1). rewrite Ho1, Hq, app_nil_r in Hall. unfold client_sent in *.
  destruct (Hopen Hd2) as [_ Ho]. rewrite Ho2, app_nil_r in Ho.
  split; [by rewrite <- Hall, <- Hn1|by rewrite Hn2, Ho].
Qed.

(** The echo server: a line is typed, answered in two writes, and the answer is
    read in two reads. *)
Definition abc : list byte := [x61; x62; x63].
Definition client_end : CW SimK := e_init [SysOk (lit "Echo: a"); SysOk (lit "bc")] [].
Definition server_end : CW SimK := e_init [SysOk abc] [SysOk 7].
Definition conversation : list label :=
  map ClientStep (ConsoleClient.connects ++ ConsoleClient.types abc ++ ConsoleClient.one_round)
  ++ [Accept 1; ServerStep (RDispatch EPOLLIN)]
  ++ map ClientStep [ConsoleClient.Event; ConsoleClient.Dispatch EPOLLIN]
  ++ [ServerStep (RDispatch EPOLLOUT)]
  ++ map ClientStep [ConsoleClient.Dispatch EPOLLIN].
Definition talk_end : both SimK SimK :=
  Eval vm_compute in
    default (init client_end) (play 8 server_end echo_server_callback conversation (init client_end)).
Definition talk_server : CW SimK := Eval vm_compute in default server_end (server talk_end).

Lemma conversation_ends :
  play 8 server_end echo_server_callback conversation (init client_end) = Some talk_end.
Proof. vm_compute. reflexivity. Qed.

Lemma echo_end_to_end_witness :
  exists reads, concat reads = abc /\ concat (ConsoleClient.shown (client talk_end)) = concat (map echo_answer reads)
    /\ ConsoleClient.shown (client talk_end) = [lit "Echo: a"; lit "bc"].
Proof.
  destruct (echo_end_to_end client_end 8 server_end echo_server_callback echo_answer talk_end talk_server)
    as (reads & _ & _ & _ & _ & Hq).
  - intros i _. left. reflexivity.
  - apply e_init_ready.
  - discriminate.
  - apply e_init_ready.
  - reflexivity.
  - reflexivity.
  - reflexivity.
  - reflexivity.
  - exact (ends_play_steps 8 server_end echo_server_callback conversation _ _ conversation_ends).
  - reflexivity.
  - destruct Hq as [H1 H2].
    + split_and!; try discriminate; reflexivity.
    + exists reads. split; [exact H1|]. split; [exact H2|reflexivity].
Defined.
End EndToEnd.
