(* ===== verification/TcpServerSingle.v ===== *)
(** * TcpServerSingle: the server of one loop
    (include/knetlib/TcpServerSingle.h, src/TcpServerSingle.cpp)

    Connections are objects of any implementation of [ConnectionI], kept by
    their identity (the shared_ptr) in [heap]; they stay there after they leave
    connections_, since a queued task may still hold them.  connections_ is the
    list of the elements of the unordered_set in the order of its iteration,
    which no theorem depends on.  A close callback runs closeConnection.  What
    the user's connection callback does to its connection is an event of the
    connection after newConnection.  [ups] and [downs] record its calls. *)

From S2P Require Import Prelude InetAddress Posix Channel Epoll EventLoop Acceptor ConnectionI.

Record TcpServerSingle (C K T : Type) : Type := mkServer {
  acceptor_ : Acceptor;
  loop_ : Loop K T;
  connections_ : list Z;
  connectionCallback_ : bool;        (* whether the callback is set *)
  messageCallback_ : bool;
  writeCompleteCallback_ : bool;
  heap : gmap Z C;
  next_id : Z;
  gone : bool;                       (* the server object was destroyed *)
  ups : list Z;
  downs : list Z
}.
Arguments mkServer {C K T}.
Arguments acceptor_ {C K T}.
Arguments loop_ {C K T}.
Arguments connections_ {C K T}.
Arguments connectionCallback_ {C K T}.
Arguments messageCallback_ {C K T}.
Arguments writeCompleteCallback_ {C K T}.
Arguments heap {C K T}.
Arguments next_id {C K T}.
Arguments gone {C K T}.
Arguments ups {C K T}.
Arguments downs {C K T}.

Module TcpServerSingle.

#[export] Instance server_has_loop {C K T} : HasLoop K T (TcpServerSingle C K T) :=
  {| get_loop := loop_;
     put_loop l s := mkServer (acceptor_ s) l (connections_ s) (connectionCallback_ s)
       (messageCallback_ s) (writeCompleteCallback_ s) (heap s) (next_id s) (gone s) (ups s)
       (downs s) |}.
#[export] Instance server_has_loop_laws {C K T} : HasLoopLaws K T (TcpServerSingle C K T).
Proof. constructor; [done..|by intros []]. Qed.
#[export] Instance server_has_acceptor {C K T} : HasAcceptor (TcpServerSingle C K T) :=
  {| get_acceptor := acceptor_;
     put_acceptor a s := mkServer a (loop_ s) (connections_ s) (connectionCallback_ s)
       (messageCallback_ s) (writeCompleteCallback_ s) (heap s) (next_id s) (gone s) (ups s)
       (downs s) |}.
#[export] Instance server_has_acceptor_laws {C K T} : HasAcceptorLaws K T (TcpServerSingle C K T).
Proof. by constructor. Qed.

Section operations.
Context {C E K T : Type} `{Posix K} `{ConnectionI C E}.
Abbreviation Sv := (TcpServerSingle C K T).

(** Assignments. *)
Definition set_connections (l : list Z) (s : Sv) : Sv :=
  mkServer (acceptor_ s) (loop_ s) l (connectionCallback_ s) (messageCallback_ s)
    (writeCompleteCallback_ s) (heap s) (next_id s) (gone s) (ups s) (downs s).
Definition set_callbacks (c m w : bool) (s : Sv) : Sv :=
  mkServer (acceptor_ s) (loop_ s) (connections_ s) c m w (heap s) (next_id s) (gone s) (ups s)
    (downs s).
Definition set_heap (h : gmap Z C) (n : Z) (s : Sv) : Sv :=
  mkServer (acceptor_ s) (loop_ s) (connections_ s) (connectionCallback_ s) (messageCallback_ s)
    (writeCompleteCallback_ s) h n (gone s) (ups s) (downs s).
Definition set_gone (s : Sv) : Sv :=
  mkServer (acceptor_ s) (loop_ s) [] (connectionCallback_ s) (messageCallback_ s)
    (writeCompleteCallback_ s) (heap s) (next_id s) true (ups s) (downs s).
Definition log (u d : list Z) (s : Sv) : Sv :=
  mkServer (acceptor_ s) (loop_ s) (connections_ s) (connectionCallback_ s) (messageCallback_ s)
    (writeCompleteCallback_ s) (heap s) (next_id s) (gone s) (ups s ++ u) (downs s ++ d).

(** The constructor, after its acceptor, which gets newConnection as callback. *)
Definition new (l : Loop K T) (a : Acceptor) : Sv :=
  mkServer (Acceptor.setNewConnectionCallback true a) l [] false false false ∅ 1 false [] [].

Definition setConnectionCallback (b : bool) (s : Sv) : Sv :=
  set_callbacks b (messageCallback_ s) (writeCompleteCallback_ s) s.
Definition setMessageCallback (b : bool) (s : Sv) : Sv :=
  set_callbacks (connectionCallback_ s) b (writeCompleteCallback_ s) s.
Definition setWriteCompleteCallback (b : bool) (s : Sv) : Sv :=
  set_callbacks (connectionCallback_ s) (messageCallback_ s) b s.

Definition start : M Sv unit := Acceptor.listen.

Definition of_result {A} (r : result A) : M Sv A :=
  match r with Ok a => ret a | Err f => throw f end.

(** TcpServerSingle::newConnection. *)
Definition newConnection (connfd : Z) (local peer : sockaddr_in) : M Sv unit :=
  on_loop assertInLoopThread;;;
  s <- gets (fun s => s);;
  let id := next_id s in
  let c := conn_new (tid_ (loop_ s)) (messageCallback_ s) (writeCompleteCallback_ s) connfd local
             peer in
  modify (set_connections (connections_ s ++ [id]));;;
  modify (set_heap (<[id := c]> (heap s)) (id + 1));;;
  c' <- of_result (conn_establish (current_tid (loop_ s)) c);;
  modify (fun s => set_heap (<[id := c']> (heap s)) (next_id s) s);;;
  when (connectionCallback_ s) (modify (log [id] [])).

(** TcpServerSingle::closeConnection: the close callback of a connection, which
    holds the server by a plain pointer. *)
Definition closeConnection (id : Z) : M Sv unit :=
  s <- gets (fun s => s);;
  ensure (UseAfterFree "TcpServerSingle::closeConnection") (negb (gone s));;;
  on_loop assertInLoopThread;;;
  when (connectionCallback_ s) (modify (log [] [id]));;;
  let ret_ := zlen (filter (fun i => i = id) (connections_ s)) in
  modify (set_connections (filter (fun i => i <> id) (connections_ s)));;;
  ensure (Aborted "TcpServerSingle::closeConnection") (ret_ =? 1).

(** Something happens to the connection [id]; if its close callback runs, so
    does closeConnection. *)
Definition run_conn (id : Z) (f : C -> result C) : M Sv unit :=
  s <- gets (fun s => s);;
  match heap s !! id with
  | None => throw (UseAfterFree "TcpConnection")
  | Some c =>
      c' <- of_result (f c);;
      modify (set_heap (<[id := c']> (heap s)) (next_id s));;;
      when (conn_closes c <? conn_closes c')%nat (closeConnection id)
  end.

(** if (conn && !conn->disconnected()) conn->forceClose(); *)
Definition close_if_open (f : C -> result C) (id : Z) : M Sv unit :=
  s <- gets (fun s => s);;
  match heap s !! id with
  | None => throw (UseAfterFree "TcpConnection")
  | Some c => when (negb (conn_disconnected c)) (run_conn id f)
  end.

(** for (auto& conn : connections_): the element the iterator points to must
    still be in the set when the iterator advances. *)
Fixpoint iterate (site : string) (body : Z -> M Sv unit) (l : list Z) : M Sv unit :=
  match l with
  | [] => ret tt
  | id :: l' =>
      body id;;;
      s <- gets connections_;;
      ensure (IteratorInvalidated site) (bool_decide (id ∈ s));;;
      iterate site body l'
  end.

(** TcpServerSingle::stop; the empty task at its end does nothing. *)
Definition stop : M Sv unit :=
  on_loop assertInLoopThread;;;
  me <- on_loop (gets current_tid);;
  l <- gets connections_;;
  iterate "TcpServerSingle::stop" (close_if_open (conn_force_close me)) l.

(** TcpServerSingle::~TcpServerSingle.  Both branches on isInLoopThread() make
    the same calls; the empty task of the first one does nothing. *)
Definition destroy : M Sv unit :=
  me <- on_loop (gets current_tid);;
  l <- gets connections_;;
  iterate "TcpServerSingle::~TcpServerSingle" (close_if_open (conn_force_close me)) l;;;
  modify (set_connections []);;;
  Acceptor.destroy;;;
  modify set_gone.

(** ** Runs: the acceptor is readable, or something happens to a connection. *)
Inductive event : Type :=
| EvAccept
| EvConn (id : Z) (e : E).

Definition run_event (e : event) : M Sv unit :=
  match e with
  | EvAccept => Acceptor.handleRead newConnection
  | EvConn id e => run_conn id (conn_event e)
  end.

Definition enabled (e : event) (s : Sv) : bool :=
  match e with
  | EvAccept =>
      match (sys_accept4 (acceptfd_ (acceptor_ s)) (kernel (loop_ s))).1 with
      | SysOk (fd, _) => conn_fd_ok fd
      | SysErr _ => true
      end
  | EvConn id e => match heap s !! id with Some c => conn_enabled e c | None => false end
  end.

Inductive reach (s0 : Sv) : Sv -> Prop :=
| reach_start : reach s0 s0
| reach_event s s' e :
    reach s0 s -> enabled e s = true -> run_event e s = Ok (tt, s') -> reach s0 s'.

Fixpoint play (es : list event) (s : Sv) : option Sv :=
  match es with
  | [] => Some s
  | e :: es' =>
      if enabled e s then
        match run_event e s with Ok (_, s') => play es' s' | Err _ => None end
      else None
  end.

Lemma server_play_reach es s0 s s' : reach s0 s -> play es s = Some s' -> reach s0 s'.
Proof.
  revert s. induction es as [|e es IH]; simpl; intros s Hr; [by intros [= <-]|].
  destruct (enabled e s) eqn:He; [|done].
  destruct (run_event e s) as [[[] s1]|] eqn:E1; [|done]. apply IH. by apply (reach_event s0 s s1 e).
Qed.
End operations.
End TcpServerSingle.
