(* ===== verification/TcpServerSingleSpec.v ===== *)
(** * TcpServerSingle: properties *)

From S2P Require Import Prelude InetAddress Posix Buffer Channel Epoll EventLoop Acceptor TcpConnection TcpConnectionSpec TcpConnectionRuns ConnectionI TcpServerSingle.
Import TcpServerSingle.

Section invariant.
Context {C E K T : Type} `{Posix K} `{ConnectionI C E} `{!ConnectionLaws C E}.
Implicit Types s : TcpServerSingle C K T.

Definition open_conn s (id : Z) : Prop :=
  exists c, heap s !! id = Some c /\ conn_disconnected c = false.
Definition closed_conn s (id : Z) : Prop :=
  exists c, heap s !! id = Some c /\ conn_disconnected c = true.

(** connections_ are the open connections; the connection callback has been
    called once for every connection and once more for every closed one. *)
Record SInv s : Prop := mkSInv {
  si_thread : isInLoopThread (loop_ s) = true;
  si_alive : gone s = false;
  si_accept : newConnectionCallback_ (acceptor_ s) = true;
  si_nodup : NoDup (connections_ s);
  si_open : forall id, id ∈ connections_ s <-> open_conn s id;
  si_conn : forall id c, heap s !! id = Some c ->
    conn_ok c /\ conn_loop c = tid_ (loop_ s) /\ id < next_id s;
  si_ups : NoDup (ups s) /\ forall id, id ∈ ups s <->
    connectionCallback_ s = true /\ is_Some (heap s !! id);
  si_downs : NoDup (downs s) /\ forall id, id ∈ downs s <->
    connectionCallback_ s = true /\ closed_conn s id
}.

(** The faults of a run: a fault of a connection, or accept4 fails. *)
Definition server_fault (f : fault) : Prop :=
  own_fault f \/ f = Aborted "unexpected accept4() error".

Lemma of_result_wp F (r : result C) (P : C -> Prop) (Q : C -> TcpServerSingle C K T -> Prop) s :
  holds own_fault P r -> (forall f, own_fault f -> F f) -> (forall c, P c -> Q c s) ->
  wp F (of_result r) Q s.
Proof. intros Hr HF HQ. destruct r as [c|f]; simpl in *; [by apply HQ|by apply HF]. Qed.

Lemma server_in_loop_wp F (Q : unit -> TcpServerSingle C K T -> Prop) s :
  isInLoopThread (loop_ s) = true -> Q tt s -> wp F (on_loop assertInLoopThread) Q s.
Proof. exact (Acceptor.acceptor_in_loop_wp F Q s). Qed.

Lemma fresh_id s id : SInv s -> is_Some (heap s !! id) -> id <> next_id s.
Proof. intros [] [c Hc] ->. apply si_conn0 in Hc as (_ & _ & ?). lia. Qed.

Lemma not_some_next s : SInv s -> heap s !! next_id s = None.
Proof. intros Hi. destruct (heap s !! next_id s) eqn:E0; [|done]. by destruct (fresh_id s (next_id s) Hi). Qed.

(** A new connection, established. *)
Lemma SInv_new s c :
  SInv s -> conn_ok c -> conn_loop c = tid_ (loop_ s) -> conn_disconnected c = false ->
  SInv (log (if connectionCallback_ s then [next_id s] else []) []
          (set_heap (<[next_id s := c]> (heap s)) (next_id s + 1)
             (set_connections (connections_ s ++ [next_id s]) s))).
Proof.
  intros Hi Hc Hlp Hd. pose proof (not_some_next s Hi) as Hn. pose proof Hi as [].
  destruct si_ups0 as [Hu1 Hu2], si_downs0 as [Hd1 Hd2].
  assert (forall id c', <[next_id s := c]> (heap s) !! id = Some c' <->
            (id = next_id s /\ c' = c) \/ heap s !! id = Some c') as Hl.
  { intros id c'. destruct (decide (id = next_id s)) as [->|Hne].
    - rewrite lookup_insert_eq, Hn. naive_solver.
    - rewrite lookup_insert_ne by done. naive_solver. }
  constructor; simpl; try done.
  - apply NoDup_app. split_and!; [done| |apply NoDup_singleton].
    intros id Hid ->%list_elem_of_singleton. apply si_open0 in Hid as (c' & Hc' & _). congruence.
  - intros id. rewrite elem_of_app, list_elem_of_singleton, si_open0. unfold open_conn. simpl.
    setoid_rewrite Hl. naive_solver.
  - intros id c' [[-> ->]|Hc']%Hl; [split_and!; [done|done|lia]|].
    apply si_conn0 in Hc' as (? & ? & ?). split_and!; [done|done|lia].
  - split.
    + apply NoDup_app. split_and!; [done| |destruct (connectionCallback_ s); [apply NoDup_singleton|apply NoDup_nil_2]].
      intros id Hid%Hu2 Hin. destruct (connectionCallback_ s); [|by apply elem_of_nil in Hin].
      apply list_elem_of_singleton in Hin as ->. destruct Hid as [_ [c' Hc']]. congruence.
    + intros id. unfold is_Some. setoid_rewrite Hl. rewrite elem_of_app, Hu2. unfold is_Some.
      destruct (connectionCallback_ s); rewrite ?list_elem_of_singleton, ?elem_of_nil; naive_solver.
  - rewrite app_nil_r. split; [done|]. intros id. rewrite Hd2. unfold closed_conn. simpl.
    setoid_rewrite Hl. naive_solver congruence.
Qed.

Lemma newConnection_ok F fd local peer s :
  (forall f, own_fault f -> F f) ->
  SInv s -> conn_fd_ok fd = true -> wp F (newConnection fd local peer) (fun _ => SInv) s.
Proof.
  intros HF Hi Hfd. unfold newConnection. rewrite wp_bind.
  apply server_in_loop_wp; [by destruct Hi|]. wp_simpl. simpl.
  assert (current_tid (loop_ s) = tid_ (loop_ s)) as ->.
  { destruct Hi as [Ht _ _ _ _ _ _ _]. by apply Z.eqb_eq in Ht. }
  eapply of_result_wp; [by apply establish_ok|done|]. intros c (Hc & Hlp & Hd). wp_simpl. simpl.
  rewrite insert_insert_eq. pose proof (SInv_new s c Hi Hc Hlp Hd) as Hnew. unfold log in Hnew. simpl in *.
  destruct (connectionCallback_ s) eqn:Ecb; unfold set_heap, log in *; simpl in *; rewrite ?Ecb in *; [done|].
  by rewrite !app_nil_r in Hnew.
Qed.

(** Storing the next state of a connection that does not close. *)
Lemma SInv_update s id c c' :
  SInv s -> heap s !! id = Some c -> conn_ok c' ->
  conn_loop c' = conn_loop c -> conn_disconnected c' = conn_disconnected c ->
  SInv (set_heap (<[id := c']> (heap s)) (next_id s) s).
Proof.
  intros [] Hc Hok Hlp Hd.
  assert (forall i x, <[id := c']> (heap s) !! i = Some x <->
            (i = id /\ x = c') \/ (i <> id /\ heap s !! i = Some x)) as Hl.
  { intros i x. destruct (decide (i = id)) as [->|Hne].
    - rewrite lookup_insert_eq. naive_solver.
    - rewrite lookup_insert_ne by done. naive_solver. }
  assert (forall i b, (exists x, <[id := c']> (heap s) !! i = Some x /\ conn_disconnected x = b) <->
            (exists x, heap s !! i = Some x /\ conn_disconnected x = b)) as Hex.
  { intros i b. setoid_rewrite Hl. destruct (decide (i = id)) as [->|Hne]; [|naive_solver].
    split; [|intros (x & Hx & <-)].
    - intros (x & [[_ ->]|[? _]] & <-); [|done]. exists c. by rewrite Hd.
    - exists c'. split; [by left|]. congruence. }
  constructor; simpl; try done.
  - intros i. rewrite si_open0. unfold open_conn. simpl. by rewrite Hex.
  - intros i x [[-> ->]|[_ Hx]]%Hl; [|by apply si_conn0]. split; [done|].
    rewrite Hlp. by apply si_conn0 in Hc as [_ ?].
  - destruct si_ups0 as [Hn Hu]. split; [done|]. intros i. rewrite Hu. split; intros [? Hs]; (split; [done|]).
    + apply lookup_insert_is_Some'. by right.
    + apply lookup_insert_is_Some' in Hs as [<-|?]; [by eexists|done].
  - destruct si_downs0 as [Hn Hu]. split; [done|]. intros i. rewrite Hu. unfold closed_conn. simpl.
    by rewrite Hex.
Qed.

(** The state after a connection has closed. *)
Definition close_state s (id : Z) (c' : C) : TcpServerSingle C K T :=
  set_connections (filter (fun i => i <> id) (connections_ s))
    (log [] (if connectionCallback_ s then [id] else [])
       (set_heap (<[id := c']> (heap s)) (next_id s) s)).

Lemma SInv_close s id c c' :
  SInv s -> heap s !! id = Some c -> conn_disconnected c = false ->
  conn_ok c' -> conn_loop c' = conn_loop c -> conn_disconnected c' = true ->
  SInv (close_state s id c').
Proof.
  intros [] Hc Hd Hok Hlp Hd'. destruct si_downs0 as [Hn Hu].
  assert (id ∉ downs s) as Hnew.
  { intros [_ (x & Hx & Hx')]%Hu. congruence. }
  constructor; unfold open_conn, closed_conn; simpl; try done.
  - by apply NoDup_filter.
  - intros i. rewrite list_elem_of_filter, si_open0. unfold open_conn.
    destruct (decide (i = id)) as [->|Hne].
    + rewrite lookup_insert_eq. naive_solver congruence.
    + rewrite lookup_insert_ne by done. naive_solver.
  - intros i x. destruct (decide (i = id)) as [->|Hne].
    + rewrite lookup_insert_eq. intros [= <-]. split; [done|].
      rewrite Hlp. by apply si_conn0 in Hc as [_ ?].
    + rewrite lookup_insert_ne by done. apply si_conn0.
  - rewrite app_nil_r. destruct si_ups0 as [Hn' Hu']. split; [done|]. intros i. rewrite Hu'.
    rewrite lookup_insert_is_Some'. naive_solver.
  - split.
    + apply NoDup_app. split_and!; [done| |destruct (connectionCallback_ s); [apply NoDup_singleton|apply NoDup_nil_2]].
      intros i Hi Hin. destruct (connectionCallback_ s); [|by apply elem_of_nil in Hin].
      by apply list_elem_of_singleton in Hin as ->.
    + intros i. rewrite elem_of_app, Hu. unfold closed_conn. destruct (decide (i = id)) as [->|Hne].
      * rewrite lookup_insert_eq, Hc.
        destruct (connectionCallback_ s); rewrite ?list_elem_of_singleton, ?elem_of_nil; naive_solver.
      * rewrite lookup_insert_ne by done.
        destruct (connectionCallback_ s); rewrite ?list_elem_of_singleton, ?elem_of_nil; naive_solver.
Qed.

(** Erasing an element that is in the set finds it once. *)
Lemma erase_once (l : list Z) id :
  NoDup l -> id ∈ l -> zlen (filter (fun i => i = id) l) = 1.
Proof.
  induction 1 as [|x l Hx Hnd IH]; intros Hin; [by apply elem_of_nil in Hin|].
  rewrite filter_cons. case_decide as E0; [subst x|].
  - rewrite filter_none; [done|]. intros y Hy ->. done.
  - apply elem_of_cons in Hin as [?|Hin]; [done|by apply IH].
Qed.

(** run_conn, for an operation that keeps closed connections closed. *)
Lemma run_conn_wp F id (f : C -> result C) (P : C -> Prop) (Q : unit -> TcpServerSingle C K T -> Prop) s c :
  (forall fl, own_fault fl -> F fl) -> SInv s -> heap s !! id = Some c ->
  holds own_fault P (f c) ->
  (forall c', P c' -> conn_ok c' /\ (conn_disconnected c = true -> conn_disconnected c' = true)) ->
  (forall c', P c' -> conn_disconnected c' = conn_disconnected c ->
     Q tt (set_heap (<[id := c']> (heap s)) (next_id s) s)) ->
  (forall c', P c' -> conn_disconnected c = false -> conn_disconnected c' = true ->
     Q tt (close_state s id c')) ->
  wp F (run_conn id f) Q s.
Proof.
  intros HF Hi Hc Hf HP Hsame Hclose. unfold run_conn. wp_simpl. rewrite Hc. wp_simpl.
  eapply of_result_wp; [exact Hf|done|]. intros c' Hc'. wp_simpl.
  destruct (HP c' Hc') as [Hok Hdd]. pose proof Hi as [].
  rewrite (closes_once c), (closes_once c') by (done || by apply (si_conn0 id)).
  destruct (conn_disconnected c) eqn:Hd, (conn_disconnected c') eqn:Hd'; simpl;
    try (by apply Hsame); [by specialize (Hdd eq_refl)|].
  unfold closeConnection. wp_simpl. simpl. rewrite si_alive0. simpl.
  apply Epoll.assertInLoopThread_wp; [done|]. wp_simpl. simpl.
  assert (id ∈ connections_ s) as Hin by (apply si_open0; by exists c).
  rewrite (erase_once (connections_ s) id) by done. simpl.
  specialize (Hclose c' Hc' eq_refl Hd'). unfold close_state, log in Hclose.
  destruct (connectionCallback_ s) eqn:Ecb; unfold set_connections, set_heap, log in *; simpl in *;
    rewrite ?Ecb, ?si_alive0, ?app_nil_r in *; done.
Qed.

Lemma run_event_ok e s :
  SInv s -> enabled e s = true -> wp server_fault (run_event e) (fun _ => SInv) s.
Proof.
  intros Hi He. assert (forall f, own_fault f -> server_fault f) as HF by (by left).
  destruct e as [|id e]; simpl in *.
  - apply Acceptor.acceptor_handleRead_wp; [by destruct Hi|]. simpl.
    destruct (sys_accept4 _ _) as [[[fd addr]|er] k1]; simpl in *.
    + destruct (newConnectionCallback_ (acceptor_ s)) eqn:Ecb; [|by destruct Hi; congruence].
      apply newConnection_ok; [done| |done]. by destruct Hi; constructor.
    + case_bool; [|by right]. by destruct Hi; constructor.
  - destruct (heap s !! id) as [c|] eqn:Hc; [|done]. pose proof Hi as [].
    apply si_conn0 in Hc as Hcc. destruct Hcc as [Hok _].
    eapply run_conn_wp; [done|done|done|by apply event_ok_law|..].
    + by intros c' (? & _ & ?).
    + intros c' (Hok' & Hlp & _) Hd. by eapply SInv_update.
    + intros c' (Hok' & Hlp & _) Hd Hd'. by eapply SInv_close.
Qed.

Lemma server_reach_inv s0 s : SInv s0 -> reach s0 s -> SInv s.
Proof.
  intros Hs0. induction 1 as [|s s' e _ IH He Hr]; [done|].
  pose proof (run_event_ok e s IH He) as Hwp. unfold wp in Hwp. by rewrite Hr in Hwp.
Qed.

Lemma new_SInv l a cb m w :
  isInLoopThread l = true -> SInv (set_callbacks cb m w (new l a)).
Proof.
  intros Hl. constructor; unfold open_conn, closed_conn; simpl; try done.
  - constructor.
  - intros id. rewrite elem_of_nil. split; [done|]. intros (c & Hc & _). done.
  - split; [constructor|]. intros id. rewrite elem_of_nil. split; [done|]. by intros [_ [? ?]].
  - split; [constructor|]. intros id. rewrite elem_of_nil. split; [done|].
    by intros [_ (? & ? & _)].
Qed.

(** ** Stopping *)

(** A forceClose in the iteration erases the element the iterator points to. *)
Lemma iterate_faults site F l s id :
  (forall f, own_fault f -> F f) -> F (IteratorInvalidated site) ->
  SInv s -> id ∈ connections_ s ->
  wp F (iterate site (close_if_open (conn_force_close (current_tid (loop_ s)))) (id :: l))
    (fun _ _ => False) s.
Proof.
  intros HF HI Hi Hin. pose proof Hi as []. apply si_open0 in Hin as (c & Hc & Hd). simpl.
  wp_simpl. unfold close_if_open. wp_simpl. rewrite Hc, Hd. simpl. wp_simpl.
  eapply run_conn_wp; [done|done|done| | |..].
  - assert (current_tid (loop_ s) = conn_loop c) as ->.
    { apply si_conn0 in Hc as (_ & -> & _). by apply Z.eqb_eq in si_thread0. }
    apply force_close_ok; [by apply (si_conn0 id)|done].
  - by intros c' (? & _ & ?).
  - intros c' (_ & _ & ?) ?. congruence.
  - intros c' _ _ _. wp_simpl. simpl. rewrite bool_decide_eq_false_2; [done|].
    rewrite list_elem_of_filter. by intros [? _].
Qed.

(** What the asynchronous forceClose of the destructor keeps. *)
Definition same_conns s s' : Prop :=
  connections_ s' = connections_ s
  /\ (forall id c, heap s !! id = Some c -> conn_ok c ->
        exists c', heap s' !! id = Some c' /\ conn_ok c' /\ conn_loop c' = conn_loop c
          /\ conn_disconnected c' = conn_disconnected c).

#[local] Instance same_conns_preorder : PreOrder same_conns.
Proof.
  split.
  - intros s. split; [done|]. intros id c Hc Hok. by exists c.
  - intros s1 s2 s3 [Hc1 Hh1] [Hc2 Hh2]. split; [congruence|]. intros id c Hc Hok.
    destruct (Hh1 id c Hc Hok) as (c' & H1 & H2 & H3 & H4).
    destruct (Hh2 id c' H1 H2) as (c'' & ? & ? & ? & ?). exists c''.
    split_and!; [done|done|congruence..].
Qed.

Lemma close_if_open_remote me id s c :
  heap s !! id = Some c -> conn_ok c -> me <> conn_loop c ->
  wp own_fault (close_if_open (conn_force_close me) id) (fun _ s' => same_conns s s') s.
Proof.
  intros Hc Hok Hme. unfold close_if_open. wp_simpl. rewrite Hc.
  destruct (conn_disconnected c) eqn:Hd; simpl; wp_simpl; [done|].
  unfold run_conn. wp_simpl. rewrite Hc. wp_simpl.
  eapply of_result_wp; [by apply force_close_remote_ok|done|]. intros c' (Hok' & Hlp & Hd'). wp_simpl.
  rewrite (closes_once c), (closes_once c'), Hd', Hd by done. simpl.
  split; [done|]. simpl. intros i ci Hci Hoki. destruct (decide (i = id)) as [->|Hne].
  - rewrite lookup_insert_eq. exists c'. split_and!; [done|done|congruence..].
  - rewrite lookup_insert_ne by done. by exists ci.
Qed.

Lemma iterate_remote site me l s :
  (forall id, id ∈ l -> id ∈ connections_ s
     /\ exists c, heap s !! id = Some c /\ conn_ok c /\ me <> conn_loop c) ->
  wp own_fault (iterate site (close_if_open (conn_force_close me)) l)
    (fun _ s' => same_conns s s') s.
Proof.
  revert s. induction l as [|id l IH]; intros s Hl; simpl; [by wp_simpl|].
  destruct (Hl id) as (Hin & c & Hc & Hok & Hme); [by left|]. rewrite wp_bind.
  wp_call close_if_open_remote; [done|done|done|]. intros _ s1 Hs1. pose proof Hs1 as [Hc1 Hh1].
  wp_simpl. rewrite Hc1, bool_decide_eq_true_2 by done. wp_call IH.
  - intros i Hi. rewrite Hc1. destruct (Hl i) as (? & ci & Hci & Hoki & ?); [by right|].
    split; [done|]. destruct (Hh1 i ci Hci Hoki) as (c' & ? & ? & Hlp & _). exists c'.
    split_and!; [done|done|congruence].
  - intros _ s2 Hs2. by etrans.
Qed.

(** The destructor on another thread returns while the connections are open. *)
Lemma destroy_remote other s :
  SInv s -> (other =? tid_ (loop_ s)) = false ->
  wp own_fault destroy
    (fun _ s' => gone s' = true /\ forall id, id ∈ connections_ s ->
       exists c, heap s' !! id = Some c /\ conn_ok c /\ conn_disconnected c = false)
    (put_loop (set_current other (loop_ s)) s).
Proof.
  intros [] Ho%Z.eqb_neq. unfold destroy. wp_simpl. simpl. wp_call iterate_remote.
  - intros id Hid. split; [done|]. apply si_open0 in Hid as (c & Hc & _). exists c. split; [done|].
    apply (si_conn0 id) in Hc as (? & -> & _). done.
  - intros _ s1 [Hc1 Hh1]. wp_simpl. unfold Acceptor.destroy. wp_simpl. simpl.
    assert (forall id, id ∈ connections_ s ->
       exists c, heap s1 !! id = Some c /\ conn_ok c /\ conn_disconnected c = false) as Hconn.
    { intros id Hid. apply si_open0 in Hid as (c & Hc & Hd).
      destruct (Hh1 id c Hc) as (c' & ? & ? & _ & ?); [by apply (si_conn0 id)|].
      exists c'. split_and!; [done|done|congruence]. }
    case_bool; wp_simpl; [|done]. apply Acceptor.acceptor_os_wp. by wp_simpl.
Qed.
End invariant.

(** A server that has just been started. *)
Record started {C K T} (s : TcpServerSingle C K T) : Prop := mkStarted {
  st_thread : isInLoopThread (loop_ s) = true;
  st_accept : newConnectionCallback_ (acceptor_ s) = true;
  st_empty : connections_ s = [] /\ heap s = ∅ /\ ups s = [] /\ downs s = [] /\ gone s = false
}.

Lemma started_SInv {C E K T} `{ConnectionLaws C E} (s : TcpServerSingle C K T) :
  started s -> SInv s.
Proof.
  intros [Ht Ha (Hc & Hh & Hu & Hd & Hg)].
  constructor; unfold open_conn, closed_conn; rewrite ?Hc, ?Hh, ?Hu, ?Hd; try done.
  - constructor.
  - intros id. rewrite elem_of_nil. split; [done|]. by intros (c & ? & _).
  - split; [constructor|]. intros id. rewrite elem_of_nil. split; [done|]. by intros [_ [? ?]].
  - split; [constructor|]. intros id. rewrite elem_of_nil. split; [done|].
    by intros [_ (? & ? & _)].
Qed.

(** ** Properties *)

(** A server of TcpConnections for the witnesses: two clients connect and one of
    them is closed. *)
#[local] Existing Instance sim_conn.
#[local] Existing Instance sim_conn_laws.

Definition clients : list (sysres (Z * sockaddr_in)) :=
  [SysOk (10, InetAddress.of_port 5000 true); SysOk (11, InetAddress.of_port 5001 true)].
Definition server0 : TcpServerSingle (CW SimK) SimK unit :=
  TcpServerSingle.setConnectionCallback true
    (TcpServerSingle.new (mkLoop (with_accepts clients sim_init) 1 1 false false (mkEpoll 128 3) [] 4 [])
       (mkAcceptor true 5 (Channel.new 6 5) InetAddress.default false)).

Lemma server0_started : started server0.
Proof. by constructor. Qed.

Definition server_script : list (TcpServerSingle.event (E := conn_step SimK)) :=
  [EvAccept; EvAccept; EvConn 1 (Own (EvCall AForceClose))].
Definition server1 : TcpServerSingle (CW SimK) SimK unit :=
  default server0 (play server_script server0).

Lemma server1_reach : reach server0 server1.
Proof. apply (server_play_reach server_script server0 server0); [apply reach_start|by vm_compute]. Qed.

(** In every run of the server, connections_ holds exactly the connections
    that are not disconnected, each once; the connection callback has been
    called exactly once for every connection that came up and once more for
    each that went down; the next event does not fail, except for a fault of the
    connection's own or an accept4 that the acceptor treats as fatal: in
    particular closeConnection always finds the connection in the set. *)
Lemma connections_tracked {C E K T} `{Posix K} `{ConnectionLaws C E}
  (s0 s : TcpServerSingle C K T) :
  started s0 -> reach s0 s ->
  NoDup (connections_ s)
  /\ (forall id, id ∈ connections_ s <->
        exists c, heap s !! id = Some c /\ conn_disconnected c = false)
  /\ (connectionCallback_ s = true ->
      NoDup (ups s) /\ NoDup (downs s)
      /\ (forall id, id ∈ ups s <-> is_Some (heap s !! id))
      /\ (forall id, id ∈ downs s <-> is_Some (heap s !! id) /\ id ∉ connections_ s))
  /\ (forall e, enabled e s = true -> wp server_fault (run_event e) (fun _ s' => reach s0 s') s).
Proof.
  intros Hst Hr. pose proof (server_reach_inv s0 s (started_SInv s0 Hst) Hr) as Hi.
  pose proof Hi as [_ _ _ Hn Ho _ [Hun Hu] [Hdn Hd]]. split_and!; [done|done| |].
  - intros Hcb. split_and!; [done|done| |].
    + intros id. rewrite Hu. naive_solver.
    + intros id. rewrite Hd, Ho. unfold closed_conn, open_conn. split.
      * intros (_ & c & Hc & Hdc). split; [by eexists|]. intros (c' & Hc' & ?). congruence.
      * intros [[c Hc] Hno]. split; [done|]. exists c. split; [done|].
        destruct (conn_disconnected c) eqn:E1; [done|]. destruct Hno. by exists c.
  - intros e He. pose proof (run_event_ok e s Hi He) as Hwp. unfold wp in *.
    destruct (run_event e s) as [[[] s']|] eqn:E1; [|done]. by apply (reach_event s0 s s' e).
Qed.

Lemma connections_tracked_witness :
  NoDup (connections_ server1) /\ connections_ server1 = [2]
  /\ NoDup (ups server1) /\ ups server1 = [1; 2] /\ downs server1 = [1].
Proof.
  destruct (connections_tracked server0 server1 server0_started server1_reach)
    as (Hn & _ & Hcb & _).
  destruct Hcb as (Hu & _); [vm_compute; reflexivity|].
  split; [exact Hn|]. split; [vm_compute; reflexivity|]. split; [exact Hu|].
  split; vm_compute; reflexivity.
Defined.

(** ** Servers of TcpConnections *)

Section streams.
Context {K T : Type} `{Posix K} `{!SocketLaws K} `{!ReadvLaws K}.
Context (on_close : list api) (loops : Z -> Loop K ConnTask) (addr : Z) (fd_ok : Z -> bool).
Context (on_close_ok : forallb api_okb on_close = true)
  (loops_named : forall l, tid_ (loops l) = l) (loops_tasks : forall l, pendingTasks_ (loops l) = [])
  (loops_fd : forall l fd, fd_ok fd = true -> wakeupfd_ (loops l) <> fd).
#[local] Instance tcp_server_conn : ConnectionI (CW K) (conn_step K) :=
  tcp_connection on_close loops addr fd_ok.
#[local] Instance tcp_server_laws : ConnectionLaws (CW K) (conn_step K) :=
  tcp_connection_laws on_close loops addr fd_ok on_close_ok loops_named loops_tasks loops_fd.

(** C32: every connection that a server has ever accepted, in every run of the
    server, in which between two events of the connection the rest of the
    process may change the system in any way but by writing to the connection's
    descriptor: it runs on the server's loop; it is in connections_ exactly
    until it is closed; the bytes given to its descriptor are a prefix of the
    bytes it accepted for sending, and until the close they and its output
    buffer are exactly those; at a half-close nothing waits in the output; its
    close callback has run once if it is closed and not at all otherwise.  A
    forceClose of another thread is one step here: the runs in which the close
    overtakes its exchange are those of [TcpConnectionRace]. *)
Theorem server_streams (s0 s : TcpServerSingle (CW K) K T) id w :
  started s0 -> reach s0 s -> heap s !! id = Some w ->
  tid_ (loop w) = tid_ (loop_ s) /\ isInLoopThread (loop w) = true
  /\ (id ∈ connections_ s <-> state_ (conn w) <> kDisconnected)
  /\ sent_by w `prefix_of` sent (kernel (loops (tid_ (loop_ s)))) (sockfd_ (conn w)) ++ accepted (trace w)
  /\ (state_ (conn w) <> kDisconnected ->
      sent_by w ++ Buffer.content (outputBuffer_ (conn w))
      = sent (kernel (loops (tid_ (loop_ s)))) (sockfd_ (conn w)) ++ accepted (trace w))
  /\ Forall flushed (trace w)
  /\ closes (trace w) = if bool_decide (state_ (conn w) = kDisconnected) then 1%nat else 0%nat.
Proof.
  intros Hst Hr Hw. pose proof (server_reach_inv s0 s (started_SInv s0 Hst) Hr) as [].
  destruct (si_conn0 id w Hw) as ((w0 & Hf & Hc & Hk & [[[] Hs] ? ? ?] & []) & Hl & _).
  simpl in Hl. unfold sent_by in *. rewrite Hk, <- lt_fd, Hl in *. split_and!; try done.
  - rewrite si_open0. unfold open_conn. simpl. unfold TcpConnection.disconnected. split.
    + intros (w' & Hw' & Hd). rewrite Hw in Hw'. injection Hw' as <-. by apply bool_decide_eq_false in Hd.
    + intros Hd. exists w. split; [done|]. by apply bool_decide_eq_false.
  - by rewrite inv_closes, lt_close, Hc.
Qed.
End streams.

(** Two clients; the first sends four bytes and is closed. *)
Definition streams_script : list (TcpServerSingle.event (E := conn_step SimK)) :=
  [EvAccept; EvConn 1 (Own (EvCall (ASend [x61; x62; x63; x64]))); EvAccept;
   EvConn 2 (Others (with_soerrors [SysOk ECONNREFUSED] sim_init));
   EvConn 2 (Own (EvCall (ASend [x65]))); EvConn 1 (Own (EvCall AForceClose))].
Definition streams1 : TcpServerSingle (CW SimK) SimK unit :=
  default server0 (play streams_script server0).

Lemma streams1_reach : reach server0 streams1.
Proof. apply (server_play_reach streams_script server0 server0); [apply reach_start|by vm_compute]. Qed.

Lemma server_streams_witness :
  match heap streams1 !! 1, heap streams1 !! 2 with
  | Some w1, Some w2 => closes (trace w1) = 1%nat /\ tid_ (loop w2) = 1 /\ 2 ∈ connections_ streams1
      /\ sent_by w2 ++ Buffer.content (outputBuffer_ (conn w2)) = [x65]
  | _, _ => False
  end.
Proof.
  destruct (heap streams1 !! 1) as [w1|] eqn:E1; [|vm_compute in E1; discriminate E1].
  destruct (heap streams1 !! 2) as [w2|] eqn:E2; [|vm_compute in E2; discriminate E2].
  destruct (server_streams [] sim_loops 7 sim_fd_ok eq_refl (fun _ => eq_refl) (fun _ => eq_refl)
    sim_loops_fd server0 streams1 1 w1 server0_started streams1_reach E1) as (_ & _ & _ & _ & _ & _ & Hc).
  destruct (server_streams [] sim_loops 7 sim_fd_ok eq_refl (fun _ => eq_refl) (fun _ => eq_refl)
    sim_loops_fd server0 streams1 2 w2 server0_started streams1_reach E2) as (Hl & _ & Hin & _ & Hs & _).
  vm_compute in E1, E2. injection E1 as <-. injection E2 as <-.
  split; [exact Hc|]. split; [exact Hl|]. split; [apply Hin; discriminate|]. rewrite Hs; [reflexivity|discriminate].
Defined.

(** Stop() on the loop's thread does not return while a connection is open:
    forceClose closes it at once, closeConnection erases it from the set, and
    the loop of stop() advances an iterator to an erased element.  The
    destructor on another thread returns while the connections are open, and
    the first one that closes afterwards calls the destroyed server. *)
Lemma stop_unsafe {C E K T} `{Posix K} `{ConnectionLaws C E} (s0 s : TcpServerSingle C K T) other :
  started s0 -> reach s0 s -> connections_ s <> [] -> (other =? tid_ (loop_ s)) = false ->
  wp (fun f => own_fault f \/ f = IteratorInvalidated "TcpServerSingle::stop") stop
    (fun _ _ => False) s
  /\ wp own_fault destroy
      (fun _ s1 => forall id e c c', id ∈ connections_ s -> heap s1 !! id = Some c ->
         conn_enabled e c = true -> conn_event e c = Ok c' -> conn_disconnected c' = true ->
         run_event (EvConn id e) s1 = Err (UseAfterFree "TcpServerSingle::closeConnection"))
      (put_loop (set_current other (loop_ s)) s).
Proof.
  intros Hst Hr Hne Ho. pose proof (server_reach_inv s0 s (started_SInv s0 Hst) Hr) as Hi. split.
  - unfold stop. rewrite wp_bind. apply server_in_loop_wp; [by destruct Hi|]. wp_simpl.
    rewrite !put_get_loop. change (get_loop s) with (loop_ s).
    destruct (connections_ s) as [|id l] eqn:El; [done|].
    apply iterate_faults; [by left|by right|done|]. rewrite El. by left.
  - wp_call destroy_remote; [done|done|]. intros _ s1 [Hg Hc] id e c c' Hid Hl He Hev Hd.
    destruct (Hc id Hid) as (c1 & Hl1 & Hok & Hdc). rewrite Hl in Hl1. injection Hl1 as <-.
    pose proof (event_ok_law e c Hok He) as Hlaw. rewrite Hev in Hlaw. destruct Hlaw as [Hok' _].
    simpl. unfold run_conn, bind, gets. rewrite Hl, Hev. unfold of_result, ret. simpl.
    unfold modify. rewrite (closes_once c), (closes_once c'), Hdc, Hd by done. simpl.
    unfold closeConnection, bind, gets. simpl. by rewrite Hg.
Qed.

Lemma stop_unsafe_witness :
  stop server1 = Err (IteratorInvalidated "TcpServerSingle::stop")
  /\ wp (fun f => own_fault f \/ f = IteratorInvalidated "TcpServerSingle::stop") stop
      (fun _ _ => False) server1.
Proof.
  split; [vm_compute; reflexivity|].
  destruct (stop_unsafe server0 server1 9 server0_started server1_reach) as [Hs _].
  - vm_compute. discriminate.
  - vm_compute. reflexivity.
  - exact Hs.
Defined.
