(* ===== verification/TcpServer.v ===== *)
(** * TcpServer: one acceptor, a pool of loops
    (include/knetlib/TcpServer.h, src/TcpServer.cpp)

    Loops are pointers, that is, names of threads (ConnectionI); [queue] holds the tasks that runInLoop has queued on
    loops other than the caller's, in the order in which they were queued, and
    [EvRun l] is the thread of [l] running its next one, [EvConn] an event of
    a connection that is alive.  The acceptor is the
    TcpServerSingle of the base loop, whose newConnection callback is replaced,
    so that it keeps no connection; what its accept4 returns is an event.  A
    connection is owned by the shared_ptr of the lambda that creates it and by
    those the user's connection callback keeps ([keep]), for the rest of the run.  [assigned], [created] and [dropped] record the run. *)

From S2P Require Import Prelude InetAddress Posix Epoll EventLoop Acceptor EventLoopThread ConnectionI TcpServerSingle.
Import EventLoopThreadPool.

(** The closures that the server passes to runInLoop. *)
Inductive ServerTask : Type :=
| TStart                                             (* startInLoop *)
| TThreadInit (i : nat)                              (* threadInitCallback_(i) *)
| TCreate (ioLoop sockfd : Z) (local peer : sockaddr_in)   (* the lambda of newConnection *)
| TStopAcceptor.                                     (* the lambda of ~TcpServer *)

Record TcpServer (C : Type) : Type := mkTcpServer {
  threadPool_ : pool;
  acceptor_ : bool;                (* acceptor_ is not null, and listening *)
  started_ : bool;
  local_ : sockaddr_in;
  threadInitCallback_ : bool;      (* whether the callback is set *)
  connectionCallback_ : bool;
  messageCallback_ : bool;
  writeCompleteCallback_ : bool;
  queue : list (Z * ServerTask);
  conns : gmap Z C;                (* by descriptor: the live TcpConnections *)
  inits : list nat;                (* calls of threadInitCallback_ *)
  assigned : list (Z * Z);         (* accepted descriptors with their loop *)
  created : list (Z * Z * bool);   (* created connections: thread, descriptor, kept *)
  dropped : list Z;                (* descriptors closed by ~TcpConnection *)
  ups : list Z;                    (* calls of connectionCallback_, by descriptor: *)
  downs : list Z                   (* of new connections, of closed ones *)
}.
Arguments mkTcpServer {C}.
Arguments threadPool_ {C}.
Arguments acceptor_ {C}.
Arguments started_ {C}.
Arguments local_ {C}.
Arguments threadInitCallback_ {C}.
Arguments connectionCallback_ {C}.
Arguments messageCallback_ {C}.
Arguments writeCompleteCallback_ {C}.
Arguments queue {C}.
Arguments conns {C}.
Arguments inits {C}.
Arguments assigned {C}.
Arguments created {C}.
Arguments dropped {C}.
Arguments ups {C}.
Arguments downs {C}.

(** What a server finds when it starts: the loop of the n-th thread, the state
    of the base loop, and the address of the channel of its acceptor. *)
Record ServerEnv (K : Type) : Type := mkServerEnv {
  startLoop : nat -> Z;
  base_loop : Loop K unit;
  accept_channel : Z
}.
Arguments mkServerEnv {K}.
Arguments startLoop {K}.
Arguments base_loop {K}.
Arguments accept_channel {K}.

Module TcpServer.
Section operations.
Context {C E K : Type} `{Posix K} `{ConnectionI C E}.
Abbreviation MS := (M (TcpServer C)).

Definition set_pool (p : pool) (s : TcpServer C) : TcpServer C :=
  mkTcpServer p (acceptor_ s) (started_ s) (local_ s) (threadInitCallback_ s)
    (connectionCallback_ s) (messageCallback_ s) (writeCompleteCallback_ s) (queue s) (conns s)
    (inits s) (assigned s) (created s) (dropped s) (ups s) (downs s).
Definition set_flags (a st : bool) (s : TcpServer C) : TcpServer C :=
  mkTcpServer (threadPool_ s) a st (local_ s) (threadInitCallback_ s)
    (connectionCallback_ s) (messageCallback_ s) (writeCompleteCallback_ s) (queue s) (conns s)
    (inits s) (assigned s) (created s) (dropped s) (ups s) (downs s).
Definition set_callbacks (t c m w : bool) (s : TcpServer C) : TcpServer C :=
  mkTcpServer (threadPool_ s) (acceptor_ s) (started_ s) (local_ s) t c m w (queue s) (conns s)
    (inits s) (assigned s) (created s) (dropped s) (ups s) (downs s).
Definition set_queue (q : list (Z * ServerTask)) (s : TcpServer C) : TcpServer C :=
  mkTcpServer (threadPool_ s) (acceptor_ s) (started_ s) (local_ s) (threadInitCallback_ s)
    (connectionCallback_ s) (messageCallback_ s) (writeCompleteCallback_ s) q (conns s)
    (inits s) (assigned s) (created s) (dropped s) (ups s) (downs s).
Definition set_conns (m : gmap Z C) (cr : list (Z * Z * bool)) (dr : list Z) (s : TcpServer C)
  : TcpServer C :=
  mkTcpServer (threadPool_ s) (acceptor_ s) (started_ s) (local_ s) (threadInitCallback_ s)
    (connectionCallback_ s) (messageCallback_ s) (writeCompleteCallback_ s) (queue s) m
    (inits s) (assigned s) cr dr (ups s) (downs s).
Definition add_init (i : nat) (s : TcpServer C) : TcpServer C :=
  mkTcpServer (threadPool_ s) (acceptor_ s) (started_ s) (local_ s) (threadInitCallback_ s)
    (connectionCallback_ s) (messageCallback_ s) (writeCompleteCallback_ s) (queue s) (conns s)
    (inits s ++ [i]) (assigned s) (created s) (dropped s) (ups s) (downs s).
Definition assign_fd (l fd : Z) (s : TcpServer C) : TcpServer C :=
  mkTcpServer (threadPool_ s) (acceptor_ s) (started_ s) (local_ s) (threadInitCallback_ s)
    (connectionCallback_ s) (messageCallback_ s) (writeCompleteCallback_ s) (queue s) (conns s)
    (inits s) (assigned s ++ [(l, fd)]) (created s) (dropped s) (ups s) (downs s).
Definition log (u d : list Z) (s : TcpServer C) : TcpServer C :=
  mkTcpServer (threadPool_ s) (acceptor_ s) (started_ s) (local_ s) (threadInitCallback_ s)
    (connectionCallback_ s) (messageCallback_ s) (writeCompleteCallback_ s) (queue s) (conns s)
    (inits s) (assigned s) (created s) (dropped s) (ups s ++ u) (downs s ++ d).

(** TcpServer::TcpServer *)
Definition new (loop : Z) (local : sockaddr_in) : result (TcpServer C) :=
  match EventLoopThreadPool.new loop with
  | Err f => Err f
  | Ok p => Ok (mkTcpServer p false false local false false false false [] ∅ [] [] [] [] [] [])
  end.

Definition on_pool {A} (m : M pool A) : MS A := zoom threadPool_ set_pool m.

(** TcpServer::setNumThread, with its conversion of size_t to int. *)
Definition setNumThread (n : Z) : MS unit :=
  s <- gets started_;;
  assert_ "TcpServer::setNumThread" (negb s);;;
  when (0 <? n) (on_pool (setThreadNum (signed 32 n))).

Definition setThreadInitCallback (b : bool) (s : TcpServer C) : TcpServer C :=
  set_callbacks b (connectionCallback_ s) (messageCallback_ s) (writeCompleteCallback_ s) s.
Definition setConnectionCallback (b : bool) (s : TcpServer C) : TcpServer C :=
  set_callbacks (threadInitCallback_ s) b (messageCallback_ s) (writeCompleteCallback_ s) s.
Definition setMessageCallback (b : bool) (s : TcpServer C) : TcpServer C :=
  set_callbacks (threadInitCallback_ s) (connectionCallback_ s) b (writeCompleteCallback_ s) s.
Definition setWriteCompleteCallback (b : bool) (s : TcpServer C) : TcpServer C :=
  set_callbacks (threadInitCallback_ s) (connectionCallback_ s) (messageCallback_ s) b s.

(** runInLoop of the loop [l], called on the thread of the loop [me]. *)
Definition runInLoop (me l : Z) (t : ServerTask) (body : MS unit) : MS unit :=
  if me =? l then body else modify (fun s => set_queue (queue s ++ [(l, t)]) s).

Definition of_result {A} (r : result A) : MS A :=
  match r with Ok a => ret a | Err f => throw f end.

Variable env : ServerEnv K.

(** The lambda of newConnection, run by the thread [me]; [ioLoop] is the loop of
    the TcpConnection.  When it returns, its shared_ptr goes, and with it the
    connection, unless the user's callback has kept another one. *)
Definition create (me ioLoop sockfd : Z) (local peer : sockaddr_in) (keep : bool) : MS unit :=
  s <- gets (fun s => s);;
  c <- of_result (conn_establish me
         (conn_new ioLoop (messageCallback_ s) (writeCompleteCallback_ s) sockfd local peer));;
  when (connectionCallback_ s) (modify (log [sockfd] []));;;
  s <- gets (fun s => s);;
  let kept := connectionCallback_ s && keep in
  if kept then
    modify (set_conns (<[sockfd := c]> (conns s)) (created s ++ [(me, sockfd, true)])
              (dropped s))
  else
    modify (set_conns (conns s) (created s ++ [(me, sockfd, false)]) (dropped s ++ [sockfd])).

(** TcpServer::newConnection, the callback of the acceptor; [me] is the loop
    whose thread calls it. *)
Definition newConnection (me sockfd : Z) (local peer : sockaddr_in) (keep : bool) : MS unit :=
  base <- gets (fun s => baseLoop_ (threadPool_ s));;
  assert_ "TcpServer::newConnection" (me =? base);;;
  ioLoop <- on_pool (getNextLoop (me =? base));;
  modify (assign_fd ioLoop sockfd);;;
  runInLoop me ioLoop (TCreate ioLoop sockfd local peer)
    (create me ioLoop sockfd local peer keep).

(** TcpServer::closeConnection, the close callback of a connection, only calls
    the user back. *)
Definition closeConnection (sockfd : Z) : MS unit :=
  s <- gets (fun s => s);;
  when (connectionCallback_ s) (modify (log [] [sockfd])).

(** Something happens to a connection that is alive, on its loop; if its close
    callback runs, so does closeConnection. *)
Definition run_conn (sockfd : Z) (f : C -> result C) : MS unit :=
  s <- gets (fun s => s);;
  match conns s !! sockfd with
  | None => throw (UseAfterFree "TcpConnection")
  | Some c =>
      c' <- of_result (f c);;
      modify (set_conns (<[sockfd := c']> (conns s)) (created s) (dropped s));;;
      when (conn_closes c <? conn_closes c')%nat (closeConnection sockfd)
  end.

(** The thread initialisation of startInLoop: index 0 at once, then a task for
    every worker loop. *)
Definition init_threads : MS unit :=
  modify (add_init 0);;;
  loops <- on_pool getAllLoops;;
  base <- gets (fun s => baseLoop_ (threadPool_ s));;
  forM (seq 1 (length loops - 1)) (fun i =>
    match loops !! i with
    | None => throw OutOfBounds
    | Some l => runInLoop base l (TThreadInit i) (modify (add_init i))
    end).

(** The TcpServerSingle on the base loop, and its start(): socket, setsockopt,
    bind, listen and epoll_ctl, any of which may end the process. *)
Definition open_acceptor (local : sockaddr_in) : result (TcpServerSingle C K unit) :=
  match Acceptor.construct (accept_channel env) local (base_loop env) with
  | Err f => Err f
  | Ok (a, l) =>
      match TcpServerSingle.start (TcpServerSingle.new l a) with
      | Ok (_, acceptor) => Ok acceptor
      | Err f => Err f
      end
  end.

(** TcpServer::startInLoop, on the thread [me]. *)
Definition startInLoop (me : Z) : MS unit :=
  s <- gets (fun s => s);;
  assert_ "TcpServer::startInLoop" (me =? baseLoop_ (threadPool_ s));;;
  assert_ "TcpServer::startInLoop" (negb (acceptor_ s));;;
  on_pool (start (startLoop env) (me =? baseLoop_ (threadPool_ s)));;;
  when (threadInitCallback_ s) init_threads;;;
  _ <- of_result (open_acceptor (local_ s));;
  modify (fun s => set_flags true (started_ s) s).

(** TcpServer::start: the exchange, then startInLoop on the base loop. *)
Definition start_server (me : Z) : MS unit :=
  s <- gets (fun s => s);;
  modify (set_flags (acceptor_ s) true);;;
  when (negb (started_ s)) (runInLoop me (baseLoop_ (threadPool_ s)) TStart (startInLoop me)).

(** TcpServer::~TcpServer.  The acceptor keeps no connection: its stop does
    nothing else than check the thread. *)
Definition destroy (me : Z) : MS unit :=
  s <- gets (fun s => s);;
  when (acceptor_ s) (runInLoop me (baseLoop_ (threadPool_ s)) TStopAcceptor (ret tt)).

(** A queued task; [keep] is what the user's callback decides. *)
Definition run_task (me : Z) (t : ServerTask) (keep : bool) : MS unit :=
  match t with
  | TStart => startInLoop me
  | TThreadInit i => s <- gets threadInitCallback_;; when s (modify (add_init i))
  | TCreate ioLoop fd local peer => create me ioLoop fd local peer keep
  | TStopAcceptor => ret tt
  end.

(** The next task of the loop [l] and the other ones. *)
Fixpoint next_task (l : Z) (q : list (Z * ServerTask)) : option (ServerTask * list (Z * ServerTask)) :=
  match q with
  | [] => None
  | (l', t) :: q' =>
      if l' =? l then Some (t, q')
      else match next_task l q' with
           | Some (t', q'') => Some (t', (l', t) :: q'')
           | None => None
           end
  end.

(** ** Runs of a started server *)
Inductive event : Type :=
| EvAccept (sockfd : Z) (peer : sockaddr_in) (keep : bool)
| EvRun (l : Z) (keep : bool)
| EvConn (sockfd : Z) (e : E).

Definition run_event (e : event) : MS unit :=
  match e with
  | EvAccept fd peer keep =>
      s <- gets (fun s => s);;
      newConnection (baseLoop_ (threadPool_ s)) fd (local_ s) peer keep
  | EvRun l keep =>
      q <- gets queue;;
      match next_task l q with
      | None => ret tt
      | Some (t, q') => modify (set_queue q');;; run_task l t keep
      end
  | EvConn fd e => run_conn fd (conn_event e)
  end.

(** The descriptors of connections that are not created yet. *)
Definition creating (x : Z * ServerTask) : option Z :=
  match x.2 with TCreate _ fd _ _ => Some fd | _ => None end.

(** accept4 does not return a descriptor that is open. *)
Definition enabled (e : event) (s : TcpServer C) : bool :=
  match e with
  | EvAccept fd _ _ => conn_fd_ok fd && bool_decide (conns s !! fd = None)
      && bool_decide (fd ∉ omap creating (queue s))
  | EvRun _ _ => true
  | EvConn fd e => match conns s !! fd with Some c => conn_enabled e c | None => false end
  end.

Inductive reach (s0 : TcpServer C) : TcpServer C -> Prop :=
| reach_start : reach s0 s0
| reach_event s s' e :
    reach s0 s -> enabled e s = true -> run_event e s = Ok (tt, s') -> reach s0 s'.

Fixpoint play (es : list event) (s : TcpServer C) : option (TcpServer C) :=
  match es with
  | [] => Some s
  | e :: es' =>
      if enabled e s then match run_event e s with Ok (_, s') => play es' s' | Err _ => None end
      else None
  end.

Lemma tcp_server_play_reach es s0 s s' : reach s0 s -> play es s = Some s' -> reach s0 s'.
Proof.
  revert s. induction es as [|e es IH]; simpl; intros s Hr; [by intros [= <-]|].
  destruct (enabled e s) eqn:He; [|done].
  destruct (run_event e s) as [[[] s1]|] eqn:E1; [|done]. apply IH. by apply (reach_event s0 s s1 e).
Qed.
End operations.
End TcpServer.
