(* ===== verification/TcpServerSpec.v ===== *)
(** * TcpServer: properties *)

From S2P Require Import Prelude InetAddress Posix Buffer Channel Epoll EventLoop EventLoopThread TcpConnection TcpConnectionSpec TcpConnectionRuns ConnectionI TcpServer.
Import EventLoopThreadPool TcpServer.

Section invariant.
Context {C E K : Type} `{Posix K} `{ConnectionLaws C E}.
Variable env : ServerEnv K.
Implicit Types s : TcpServer C.

(** The connections that are assigned to a loop but not created yet. *)
Definition to_create (x : Z * ServerTask) : list (Z * Z) :=
  match x.2 with TCreate _ fd _ _ => [(x.1, fd)] | _ => [] end.
Definition pending_creates s : list (Z * Z) := concat (map to_create (queue s)).

Definition not_kept (x : Z * Z * bool) : list Z := if x.2 then [] else [x.1.2].

Definition task_fd_ok (x : Z * ServerTask) : Prop :=
  match x.2 with
  | TCreate ioLoop fd _ _ => conn_fd_ok fd = true /\ x.1 = ioLoop
  | TStart => False
  | _ => True
  end.

(** How often a list of calls names a descriptor. *)
Definition calls (fd : Z) (l : list Z) : nat := length (filter (fun x => x = fd) l).

Lemma calls_snoc fd fd' l : calls fd (l ++ [fd']) = (calls fd l + if decide (fd' = fd) then 1 else 0)%nat.
Proof.
  unfold calls. rewrite filter_app, length_app. f_equal. rewrite filter_cons. by case_decide.
Qed.

Lemma creating_pending (q : list (Z * ServerTask)) :
  omap creating q = map snd (concat (map to_create q)).
Proof.
  induction q as [|[l t] q IH]; [done|]. rewrite map_cons. simpl. rewrite map_app, <- IH.
  by destruct t.
Qed.

(** [p0]: the pool when the server started. *)
Record TInv (p0 : pool) s : Prop := mkTInv {
  ti_pool : WF (threadPool_ s);
  ti_turn : forall i, nth_loop (threadPool_ s) i = nth_loop p0 (length (assigned s) + i);
  ti_loops : map fst (assigned s) = map (nth_loop p0) (seq 0 (length (assigned s)));
  ti_once : assigned s ≡ₚ map fst (created s) ++ pending_creates s;
  ti_dropped : dropped s = concat (map not_kept (created s));
  ti_conns : forall fd c, conns s !! fd = Some c -> conn_ok c /\ (conn_loop c, fd, true) ∈ created s;
  ti_tasks : Forall task_fd_ok (queue s);
  ti_distinct : NoDup (map snd (pending_creates s));
  ti_fresh : forall fd, fd ∈ map snd (pending_creates s) -> conns s !! fd = None;
  ti_ups : ups s = if connectionCallback_ s then map (fun x => x.1.2) (created s) else [];
  ti_downs : forall fd, calls fd (downs s)
    = match conns s !! fd with
      | Some c => if connectionCallback_ s then conn_closes c else O
      | None => O
      end
}.

(** Fields that the invariant does not read. *)
Lemma TInv_frame p0 s s' :
  TInv p0 s -> threadPool_ s' = threadPool_ s -> assigned s' = assigned s ->
  created s' = created s -> queue s' = queue s -> dropped s' = dropped s -> conns s' = conns s ->
  ups s' = ups s -> downs s' = downs s -> connectionCallback_ s' = connectionCallback_ s ->
  TInv p0 s'.
Proof.
  intros [] Hp Ha Hc Hq Hd Hn Hu Hw Hcb.
  constructor; unfold pending_creates in *; rewrite ?Hp, ?Ha, ?Hc, ?Hq, ?Hd, ?Hn, ?Hu, ?Hw, ?Hcb; done.
Qed.

(** The server after a connection was created: [kept] by the user or not. *)
Definition after_create l fd (c : C) (kept : bool) s : TcpServer C :=
  set_conns (if kept then <[fd := c]> (conns s) else conns s) (created s ++ [(l, fd, kept)])
    (dropped s ++ not_kept (l, fd, kept)) (log (if connectionCallback_ s then [fd] else []) [] s).

Lemma created_TInv p0 l fd local peer c s rest :
  TInv p0 (set_queue ((l, TCreate l fd local peer) :: rest) s) ->
  conn_ok c -> conn_loop c = l -> conn_disconnected c = false ->
  forall kept, TInv p0 (after_create l fd c kept (set_queue rest s)).
Proof.
  intros [] Hok Hlp Hdc kept. unfold pending_creates in *. simpl in *. inversion ti_tasks0; subst.
  apply NoDup_cons in ti_distinct0 as [Hnew Hnd].
  assert (conns s !! fd = None) as Hfd by (apply ti_fresh0; by left).
  constructor; unfold pending_creates; simpl; try done.
  - rewrite map_app, <- app_assoc. simpl. by rewrite ti_once0.
  - by rewrite map_app, concat_app, ti_dropped0; simpl; rewrite app_nil_r.
  - intros fd' c' Hc'. destruct kept; [apply lookup_insert_Some in Hc' as [[<- <-]|[_ Hc']]|].
    1:{ split; [done|]. rewrite elem_of_app. right. by left. }
    all: apply ti_conns0 in Hc' as [? ?]; split; [done|]; rewrite elem_of_app; by left.
  - intros fd' Hin. destruct kept; [|apply ti_fresh0; by right].
    rewrite lookup_insert_ne by (intros ->; done). apply ti_fresh0. by right.
  - rewrite ti_ups0. destruct (connectionCallback_ s); [|done]. by rewrite map_app.
  - intros fd'. rewrite app_nil_r, ti_downs0. destruct kept; [|done].
    destruct (decide (fd' = fd)) as [->|Hne]; [|by rewrite lookup_insert_ne].
    rewrite lookup_insert_eq, Hfd, closes_once, Hdc by done. by destruct (connectionCallback_ s).
Qed.

(** The connection [(l, fd)] is created: it leaves the pending ones. *)
Lemma create_wp p0 (Q : unit -> TcpServer C -> Prop) l fd local peer keep s rest :
  TInv p0 (set_queue ((l, TCreate l fd local peer) :: rest) s) -> conn_fd_ok fd = true ->
  (forall s', TInv p0 s' -> Q tt s') ->
  wp own_fault (create l l fd local peer keep) Q (set_queue rest s).
Proof.
  intros Hi Hfd HQ. unfold create. wp_simpl. simpl.
  set (c0 := conn_new _ _ _ _ _ _).
  pose proof (establish_ok l (messageCallback_ s) (writeCompleteCallback_ s) fd local peer Hfd) as He.
  fold c0 in He. destruct (conn_establish l c0) as [c|f]; simpl in *; [|by wp_simpl].
  destruct He as (Hok & Hlp & Hdc). wp_simpl.
  pose proof (created_TInv p0 l fd local peer c s rest Hi Hok Hlp Hdc) as Hfin.
  unfold after_create in Hfin. simpl in Hfin.
  destruct (connectionCallback_ s) eqn:Hcb; wp_simpl; simpl; rewrite Hcb; simpl.
  - destruct keep; wp_simpl; apply HQ.
    + specialize (Hfin true). simpl in Hfin. by rewrite app_nil_r in Hfin.
    + apply (Hfin false).
  - wp_simpl. apply HQ. apply (TInv_frame _ _ _ (Hfin false)); simpl; try done; by rewrite app_nil_r.
Qed.

Lemma next_task_perm l q t q' :
  next_task l q = Some (t, q') ->
  exists q1 q2, q = q1 ++ (l, t) :: q2 /\ q' = q1 ++ q2.
Proof.
  revert t q'. induction q as [|[l' t'] q IH]; simpl; intros t q'; [done|].
  destruct (l' =? l) eqn:El; bool_solve.
  - intros [= <- <-]. subst. by exists [], q.
  - destruct (next_task l q) as [[t1 q1]|]; [|done]. intros [= <- <-].
    destruct (IH _ _ eq_refl) as (qa & qb & -> & ->). by exists ((l', t') :: qa), qb.
Qed.

Lemma pending_perm (q q' : list (Z * ServerTask)) :
  q ≡ₚ q' -> concat (map to_create q) ≡ₚ concat (map to_create q').
Proof.
  intros Hq. induction Hq as [|x q q' _ IH|x y q|q1 q2 q3 _ IH1 _ IH2]; simpl; [done| | |by etrans].
  - by rewrite IH.
  - rewrite !app_assoc. by rewrite (Permutation_app_comm (to_create y)).
Qed.

(** The order of the queue does not matter. *)
Lemma TInv_perm p0 s q : TInv p0 s -> q ≡ₚ queue s -> TInv p0 (set_queue q s).
Proof.
  intros [] Hq. pose proof (pending_perm _ _ Hq) as Hp. unfold pending_creates in *.
  assert (map snd (concat (map to_create q)) ≡ₚ map snd (concat (map to_create (queue s)))) as Hs
    by by rewrite Hp.
  constructor; unfold pending_creates; simpl; try done.
  - by rewrite Hp.
  - by rewrite Hq.
  - by rewrite Hs.
  - intros fd Hfd. apply ti_fresh0. by rewrite <- Hs.
Qed.

(** Moving the task that runs to the front of the queue. *)
Lemma TInv_front p0 s q1 q2 x :
  TInv p0 s -> queue s = q1 ++ x :: q2 -> TInv p0 (set_queue (x :: q1 ++ q2) s).
Proof. intros Hi Hq. apply TInv_perm; [done|]. rewrite Hq. by rewrite Permutation_middle. Qed.

Lemma TInv_pop p0 s q1 q2 x :
  TInv p0 (set_queue (x :: q1 ++ q2) s) -> to_create x = [] -> TInv p0 (set_queue (q1 ++ q2) s).
Proof.
  intros [] Hx. unfold pending_creates in *. simpl in *. rewrite Hx in *.
  constructor; unfold pending_creates; simpl; try done. by inversion ti_tasks0.
Qed.

(** A descriptor is assigned to the next loop. *)
Lemma TInv_assign p0 s p fd local peer q :
  TInv p0 s -> conn_fd_ok fd = true -> WF p ->
  conns s !! fd = None -> fd ∉ map snd (pending_creates s) ->
  (forall i, nth_loop p i = nth_loop (threadPool_ s) (S i)) ->
  q ≡ₚ (nth_loop (threadPool_ s) 0, TCreate (nth_loop (threadPool_ s) 0) fd local peer) :: queue s ->
  TInv p0 (set_queue q (assign_fd (nth_loop (threadPool_ s) 0) fd (set_pool p s))).
Proof.
  intros Hi Hfd Hwf Hnew Hnot Hturn Hq. set (l := nth_loop (threadPool_ s) 0) in *.
  assert (TInv p0 (set_queue ((l, TCreate l fd local peer) :: queue s) (assign_fd l fd (set_pool p s)))) as Hi'.
  { destruct Hi. constructor; unfold pending_creates in *; simpl; try done.
    - intros i. rewrite Hturn, ti_turn0, length_app. simpl. f_equal. lia.
    - rewrite map_app, ti_loops0, length_app, seq_app, map_app. simpl. unfold l.
      by rewrite ti_turn0, Nat.add_0_r.
    - rewrite ti_once0, Permutation_app_comm. simpl. by rewrite <- Permutation_middle.
    - by constructor.
    - by apply NoDup_cons.
    - intros fd' [->|Hin]%elem_of_cons; [done|by apply ti_fresh0]. }
  by apply (TInv_perm p0 _ q Hi').
Qed.

Lemma accept_ok p0 s fd peer keep :
  TInv p0 s -> conn_fd_ok fd = true -> conns s !! fd = None -> fd ∉ map snd (pending_creates s) ->
  wp own_fault (newConnection (baseLoop_ (threadPool_ s)) fd (local_ s) peer keep)
    (fun _ => TInv p0) s.
Proof.
  intros Hi Hfd Hnew Hnot. unfold newConnection. wp_simpl. rewrite Z.eqb_refl. wp_simpl.
  unfold on_pool. wp_simpl. pose proof Hi as [].
  eapply wp_mono; [eapply wp_fault_mono; [by apply getNextLoop_spec|done]|].
  cbn beta. intros l p (Hwf & -> & Hturn). wp_simpl. unfold runInLoop. case_bool.
  - assert (forall q, set_queue q (assign_fd (nth_loop (threadPool_ s) 0) fd (set_pool p s))
      = set_queue q (set_queue (queue s) (assign_fd (nth_loop (threadPool_ s) 0) fd (set_pool p s))))
      as Hsq by done.
    rewrite E0. apply (create_wp p0 _ _ fd (local_ s) peer keep (assign_fd (nth_loop (threadPool_ s) 0) fd (set_pool p s))
             (queue s)); [|done|done].
    by apply (TInv_assign p0 s p fd (local_ s) peer).
  - wp_simpl. simpl. apply (TInv_assign p0 s p fd (local_ s) peer); try done.
    by rewrite Permutation_app_comm.
Qed.

Lemma run_ok p0 s l keep :
  TInv p0 s -> wp own_fault (run_event env (EvRun l keep)) (fun _ => TInv p0) s.
Proof.
  intros Hi. simpl. wp_simpl. destruct (next_task l (queue s)) as [[t q']|] eqn:En; wp_simpl; [|done].
  apply next_task_perm in En as (q1 & q2 & Hq & ->).
  pose proof (TInv_front p0 s q1 q2 (l, t) Hi Hq) as Hf.
  pose proof (ti_tasks _ _ Hf) as Ht. simpl in Ht. inversion Ht as [|? ? Hok _]; subst.
  destruct t as [|i|io fd local peer|]; simpl in *; [done| | |].
  - apply TInv_pop in Hf; [|done]. wp_simpl. simpl. case_bool; wp_simpl; [|done].
    by apply (TInv_frame _ _ _ Hf).
  - destruct Hok as [Hfd Hio]. simpl in Hio. subst io.
    by apply (create_wp p0 _ l fd local peer keep s (q1 ++ q2) Hf Hfd).
  - wp_simpl. by apply TInv_pop in Hf.
Qed.

(** A live connection after an event, and the calls of the close callback. *)
Lemma evolved_TInv p0 s fd c c' :
  TInv p0 s -> conns s !! fd = Some c -> conn_ok c' -> conn_loop c' = conn_loop c ->
  let n := if connectionCallback_ s then (conn_closes c' - conn_closes c)%nat else O in
  (conn_closes c <= conn_closes c' <= 1)%nat ->
  TInv p0 (log [] (replicate n fd) (set_conns (<[fd := c']> (conns s)) (created s) (dropped s) s)).
Proof.
  intros [] Hc Hok Hlp n Hn. constructor; unfold pending_creates in *; simpl; try done.
  - intros fd' x [[<- <-]|[_ Hx]]%lookup_insert_Some; [|by apply ti_conns0].
    split; [done|]. rewrite Hlp. by apply (ti_conns0 fd c).
  - intros fd' Hin. destruct (decide (fd' = fd)) as [->|Hne]; [|rewrite lookup_insert_ne by done; by apply ti_fresh0].
    apply ti_fresh0 in Hin. congruence.
  - by rewrite app_nil_r.
  - intros fd'. specialize (ti_downs0 fd').
    assert (calls fd' (downs s ++ replicate n fd) = calls fd' (downs s) + if decide (fd = fd') then n else 0)%nat as ->.
    { assert (n <= 1)%nat as Hle by (unfold n; case_bool; lia). destruct n as [|[|]]; [| |lia]; simpl.
      - rewrite app_nil_r. case_decide; lia.
      - by rewrite calls_snoc. }
    rewrite ti_downs0. case_decide as Efd.
    + subst fd'. rewrite lookup_insert_eq, Hc. unfold n. destruct (connectionCallback_ s); lia.
    + rewrite lookup_insert_ne by done. lia.
Qed.

Lemma conn_event_ok p0 s fd e :
  TInv p0 s -> enabled (EvConn fd e) s = true ->
  wp own_fault (run_event env (EvConn fd e)) (fun _ => TInv p0) s.
Proof.
  intros Hi He. simpl in *. unfold run_conn. wp_simpl. destruct (conns s !! fd) as [c|] eqn:Hc; [|done].
  destruct (ti_conns p0 s Hi fd c Hc) as [Hok _].
  pose proof (event_ok_law e c Hok He) as Hlaw. destruct (conn_event e c) as [c'|f]; simpl in *;
    [|by wp_simpl]. destruct Hlaw as (Hok' & Hlp & Hd). wp_simpl. unfold closeConnection. wp_simpl. simpl.
  assert (conn_closes c <= conn_closes c' <= 1)%nat as Hn.
  { rewrite !closes_once by done. destruct (conn_disconnected c), (conn_disconnected c'); lia. }
  pose proof (evolved_TInv p0 s fd c c' Hi Hc Hok' Hlp Hn) as Hfin.
  assert (forall n, (if connectionCallback_ s then conn_closes c' - conn_closes c else 0)%nat = n ->
    TInv p0 (log [] (replicate n fd) (set_conns (<[fd:=c']> (conns s)) (created s) (dropped s) s))) as Hfin'
    by by intros n <-.
  assert (TInv p0 (log [] [] (set_conns (<[fd:=c']> (conns s)) (created s) (dropped s) s)) ->
    TInv p0 (set_conns (<[fd:=c']> (conns s)) (created s) (dropped s) s)) as Hlog.
  { intros Hf. apply (TInv_frame _ _ _ Hf); simpl; try done; by rewrite app_nil_r. }
  destruct (conn_closes c <? conn_closes c')%nat eqn:El; wp_simpl; simpl.
  - apply Nat.ltb_lt in El. destruct (connectionCallback_ s); wp_simpl.
    + apply (Hfin' 1%nat). lia.
    + by apply Hlog, (Hfin' O).
  - apply Nat.ltb_ge in El. apply Hlog, (Hfin' O). destruct (connectionCallback_ s); lia.
Qed.

Lemma tcp_event_ok p0 e s :
  TInv p0 s -> enabled e s = true -> wp own_fault (run_event env e) (fun _ => TInv p0) s.
Proof.
  intros Hi He. destruct e as [fd peer keep|l keep|fd e]; [|by apply run_ok|by apply conn_event_ok].
  cbn [run_event enabled] in *. wp_simpl.
  apply andb_prop in He as [[Hfd Hnew]%andb_prop Hnot]. apply bool_decide_eq_true in Hnew, Hnot.
  rewrite creating_pending in Hnot. by apply accept_ok.
Qed.

Lemma tcp_reach_inv p0 s0 s : TInv p0 s0 -> reach env s0 s -> TInv p0 s.
Proof.
  intros Hp0. induction 1 as [|s s' e _ IH He Hr]; [done|].
  pose proof (tcp_event_ok p0 e s IH He) as Hwp. unfold wp in Hwp. by rewrite Hr in Hwp.
Qed.

(** *** Starting *)

Lemma init_threads_wp F s (Q : unit -> TcpServer C -> Prop) :
  WF (threadPool_ s) ->
  (forall s', threadPool_ s' = threadPool_ s -> assigned s' = assigned s ->
     created s' = created s -> dropped s' = dropped s -> conns s' = conns s ->
     ups s' = ups s -> downs s' = downs s ->
     concat (map to_create (queue s')) = concat (map to_create (queue s)) ->
     (Forall task_fd_ok (queue s) -> Forall task_fd_ok (queue s')) -> Q tt s') ->
  wp F init_threads Q s.
Proof.
  intros Hwf HQ. unfold init_threads. wp_simpl. unfold on_pool, getAllLoops. wp_simpl. simpl.
  destruct Hwf as (-> & _). wp_simpl. simpl.
  eapply wp_mono; [apply (wp_forM _ (fun l s' =>
    Forall (fun i => i <= length (loops_ (threadPool_ s)))%nat l
    /\ threadPool_ s' = threadPool_ s /\ assigned s' = assigned s /\
    created s' = created s /\ dropped s' = dropped s /\ conns s' = conns s /\
    ups s' = ups s /\ downs s' = downs s /\
    concat (map to_create (queue s')) = concat (map to_create (queue s)) /\
    (Forall task_fd_ok (queue s) -> Forall task_fd_ok (queue s'))))|].
  - split_and!; try done. apply Forall_seq. intros i. simpl. lia.
  - intros i l s' (Hl & Hp & Ha & Hc & Hd & Hn & Hu & Hw & Hq & Ht). inversion Hl as [|? ? Hi Hl']; subst.
    destruct (lookup_lt_is_Some_2 (baseLoop_ (threadPool_ s) :: loops_ (threadPool_ s)) i) as [x Hx];
      [simpl; lia|]. rewrite Hx. unfold runInLoop. case_bool; wp_simpl; simpl; split_and!; try done.
    + by rewrite map_app, concat_app, Hq, app_nil_r.
    + intros Hok. apply Forall_app. split; [by apply Ht|by repeat constructor].
  - intros [] s' (_ & ? & ? & ? & ? & ? & ? & ? & ? & ?). by apply HQ.
Qed.

Lemma any_result_wp {A} (r : result A) (Q : A -> TcpServer C -> Prop) s :
  (forall a, Q a s) -> wp (fun _ => True) (TcpServer.of_result r) Q s.
Proof. intros HQ. destruct r; [apply HQ|exact I]. Qed.

(** The pool starts; the acceptor may fail. *)
Lemma start_server_wp base num s :
  threadPool_ s = mkPool base num 0 false 0 [] -> acceptor_ s = false -> TcpServer.started_ s = false ->
  queue s = [] -> assigned s = [] -> created s = [] -> dropped s = [] -> conns s = ∅ ->
  ups s = [] -> downs s = [] ->
  wp (fun _ => True) (start_server env base)
    (fun _ s0 => TInv (threadPool_ s0) s0 /\ assigned s0 = []
       /\ forall i, nth_loop (threadPool_ s0) i
            = if num <=? 0 then base else startLoop env (i mod Z.to_nat num)%nat) s.
Proof.
  intros Hp Hac Hst Hq Ha Hc Hd Hn Hu Hw. unfold start_server. wp_simpl. rewrite Hst, Hp. simpl. wp_simpl.
  unfold runInLoop. rewrite Z.eqb_refl. unfold startInLoop. wp_simpl. simpl. rewrite Hp, Z.eqb_refl. wp_simpl.
  rewrite Hac. wp_simpl. unfold on_pool. wp_simpl. simpl. rewrite Hp.
  eapply wp_mono; [eapply wp_fault_mono; [by apply start_spec|done]|].
  cbn beta. intros _ p (Hwf & Hl & Hb & Hnx). simpl in Hl, Hb. wp_simpl. simpl.
  assert (forall s', threadPool_ s' = p -> assigned s' = assigned s -> created s' = created s ->
     dropped s' = dropped s -> conns s' = conns s -> ups s' = ups s -> downs s' = downs s ->
     concat (map to_create (queue s')) = [] ->
     Forall task_fd_ok (queue s') ->
     TInv (threadPool_ s') s' /\ assigned s' = [] /\ forall i, nth_loop (threadPool_ s') i
            = if num <=? 0 then base else startLoop env (i mod Z.to_nat num)%nat) as Hfin.
  { intros s' Hp' Ha' Hc' Hd' Hn' Hu' Hw' Hq' Ht'. rewrite Hp', Ha', Ha. split_and!; [|done|].
    - constructor; unfold pending_creates;
        rewrite ?Hp', ?Ha', ?Ha, ?Hc', ?Hc, ?Hd', ?Hd, ?Hn', ?Hn, ?Hu', ?Hu, ?Hw', ?Hw, ?Hq'; try done.
      + constructor.
      + by destruct (connectionCallback_ s').
    - intros i. by rewrite (nth_loop_started (startLoop env) num), Hb. }
  destruct (threadInitCallback_ s); wp_simpl.
  - apply init_threads_wp; [done|]. simpl. intros s' Hp' Ha' Hc' Hd' Hn' Hu' Hw' Hq' Ht'. wp_simpl.
    apply any_result_wp. intros a. wp_simpl. rewrite Hq in *. apply Hfin; simpl; try done. by apply Ht'.
  - apply any_result_wp. intros a. wp_simpl. apply (Hfin (set_flags true true (set_pool p (set_flags false true s)))); simpl; try done; by rewrite Hq.
Qed.

(** A server that has just been started. *)
Lemma started_TInv base local t c m w n sn s0 :
  TcpServer.new base local = Ok sn ->
  (setNumThread n ;;; start_server env base) (set_callbacks t c m w sn) = Ok (tt, s0) ->
  let num := if 0 <? n then signed 32 n else 0 in
  exists p0, TInv p0 s0 /\ assigned s0 = []
    /\ forall i, nth_loop p0 i
         = if num <=? 0 then base else startLoop env (i mod Z.to_nat num)%nat.
Proof.
  intros Hnew Hrun num. unfold TcpServer.new, EventLoopThreadPool.new in Hnew.
  destruct (base =? 0); [done|]. injection Hnew as <-.
  match type of Hrun with _ ?s = _ => assert (wp (fun _ => True) (setNumThread n ;;; start_server env base)
    (fun _ s0 => TInv (threadPool_ s0) s0 /\ assigned s0 = [] /\ forall i, nth_loop (threadPool_ s0) i
         = if num <=? 0 then base else startLoop env (i mod Z.to_nat num)%nat) s) as Hwp end;
    [|unfold wp in Hwp; rewrite Hrun in Hwp; by exists (threadPool_ s0)].
  clear Hrun s0. unfold setNumThread. wp_simpl. simpl. wp_simpl. unfold num.
  destruct (0 <? n); wp_simpl.
  - unfold on_pool, setThreadNum. wp_simpl. simpl. by apply start_server_wp.
  - by apply start_server_wp.
Qed.
End invariant.

(** ** Properties *)

(** C34: a started server hands its connections to its loops in turn: the i-th
    accepted descriptor goes to the loop of thread i modulo the number of
    threads (the base loop without threads), every one is created exactly once,
    on the thread of that loop, or still waits in its queue, and no assert
    fails.  The server itself keeps no connection: those whose shared_ptr the
    user's callback did not keep are destroyed, and their descriptors closed,
    as soon as they are created. *)
Theorem connections_spread {C E K} `{Posix K} `{ConnectionLaws C E} (env : ServerEnv K) base local t c m w n sn
  (s0 s : TcpServer C) :
  TcpServer.new base local = Ok sn ->
  (setNumThread n ;;; start_server env base) (set_callbacks t c m w sn) = Ok (tt, s0) ->
  reach env s0 s ->
  let num := if 0 <? n then signed 32 n else 0 in
  map fst (assigned s) = map (fun i => if num <=? 0 then base
      else startLoop env (i mod Z.to_nat num)%nat) (seq 0 (length (assigned s)))
  /\ assigned s ≡ₚ map fst (created s) ++ pending_creates s
  /\ dropped s = concat (map not_kept (created s))
  /\ (forall fd, is_Some (conns s !! fd) -> exists l, (l, fd, true) ∈ created s)
  /\ (forall e, enabled e s = true ->
        wp own_fault (run_event env e) (fun _ s' => reach env s0 s') s).
Proof.
  intros Hnew Hrun Hr num.
  destruct (started_TInv env base local t c m w n sn s0 Hnew Hrun) as (p0 & Hi0 & _ & Hnth).
  pose proof (tcp_reach_inv env p0 s0 s Hi0 Hr) as Hi. pose proof Hi as []. split_and!; try done.
  - rewrite ti_loops0. apply map_ext. intros i. by rewrite Hnth.
  - intros fd [x Hx]. apply ti_conns0 in Hx as [_ ?]. by eexists.
  - intros e He. pose proof (tcp_event_ok env p0 e s Hi He) as Hwp. unfold wp in *.
    destruct (run_event env e s) as [[[] s']|] eqn:E1; [|done]. by apply (reach_event env s0 s s' e).
Qed.

(** Two worker threads, three clients; the user keeps the first connection. *)
#[local] Existing Instance sim_conn.
#[local] Existing Instance sim_conn_laws.

Definition demo_env : ServerEnv SimK :=
  mkServerEnv (fun i => 100 + Z.of_nat i) (mkLoop sim_init 50 50 false false (mkEpoll 128 3) [] 4 []) 6.
Definition server_new : TcpServer (CW SimK) :=
  mkTcpServer (mkPool 50 0 0 false 0 []) false false InetAddress.default false false false false
    [] ∅ [] [] [] [] [] [].
Definition server_started : TcpServer (CW SimK) :=
  match (setNumThread 2 ;;; start_server demo_env 50) (set_callbacks true true true false server_new) with
  | Ok (_, s) => s
  | Err _ => server_new
  end.
Lemma server_starts :
  (setNumThread 2 ;;; start_server demo_env 50) (set_callbacks true true true false server_new)
  = Ok (tt, server_started).
Proof. vm_compute. reflexivity. Qed.

Definition spread_script : list (TcpServer.event (E := conn_step SimK)) :=
  [ EvAccept 10 InetAddress.default true; EvAccept 11 InetAddress.default true;
    EvAccept 12 InetAddress.default false; EvRun 101 false; EvRun 100 true; EvRun 101 false;
    EvRun 100 true ].
Definition server_run : TcpServer (CW SimK) :=
  default server_new (play demo_env spread_script server_started).

Lemma connections_spread_witness :
  map fst (assigned server_run) = [100; 101; 100]
  /\ dropped server_run = [11] /\ inits server_run = [0; 2; 1]%nat.
Proof.
  destruct (connections_spread demo_env 50 InetAddress.default true true true false 2 server_new
              server_started server_run) as (Ha & _).
  - reflexivity.
  - vm_compute. reflexivity.
  - apply (tcp_server_play_reach demo_env spread_script server_started server_started); [apply reach_start|].
    vm_compute. reflexivity.
  - split; [exact Ha|]. clear Ha. split; vm_compute; reflexivity.
Defined.

Section streams.
Context {K : Type} `{Posix K} `{!SocketLaws K} `{!ReadvLaws K}.
Context (on_close : list api) (loops : Z -> Loop K ConnTask) (addr : Z) (fd_ok : Z -> bool).
Context (on_close_ok : forallb api_okb on_close = true)
  (loops_named : forall l, tid_ (loops l) = l) (loops_tasks : forall l, pendingTasks_ (loops l) = [])
  (loops_fd : forall l fd, fd_ok fd = true -> wakeupfd_ (loops l) <> fd).
#[local] Instance multi_server_conn : ConnectionI (CW K) (conn_step K) :=
  tcp_connection on_close loops addr fd_ok.
#[local] Instance multi_server_laws : ConnectionLaws (CW K) (conn_step K) :=
  tcp_connection_laws on_close loops addr fd_ok on_close_ok loops_named loops_tasks loops_fd.

(** C33: the connections of a server with worker threads, in every run of the
    started server, in which between two events of a connection the rest of the
    process may change the system in any way but by writing to its descriptor:
    a connection that the user keeps runs on the loop that its descriptor was
    assigned to, and was created by that loop's thread; the bytes given to its
    descriptor are a prefix of the bytes it accepted for sending, and until the
    close they and its output buffer are exactly those; at a half-close nothing
    waits; and the connection callback was called once for every connection
    that was created and once more for this one exactly if it has been closed.
    A forceClose of another thread is one step here: the runs in which the
    close overtakes its exchange are those of [TcpConnectionRace]. *)
Theorem pool_server_streams (env : ServerEnv K) base local t c m wc n sn (s0 s : TcpServer (CW K)) fd w :
  TcpServer.new base local = Ok sn ->
  (setNumThread n ;;; start_server env base) (set_callbacks t c m wc sn) = Ok (tt, s0) ->
  reach env s0 s -> conns s !! fd = Some w ->
  let l := tid_ (loop w) in
  (l, fd, true) ∈ created s /\ (l, fd) ∈ assigned s /\ isInLoopThread (loop w) = true
  /\ sent_by w `prefix_of` sent (kernel (loops l)) (sockfd_ (conn w)) ++ accepted (trace w)
  /\ (state_ (conn w) <> kDisconnected ->
      sent_by w ++ Buffer.content (outputBuffer_ (conn w))
      = sent (kernel (loops l)) (sockfd_ (conn w)) ++ accepted (trace w))
  /\ Forall flushed (trace w)
  /\ (connectionCallback_ s = true ->
      ups s = map (fun x => x.1.2) (created s)
      /\ calls fd (downs s) = if bool_decide (state_ (conn w) = kDisconnected) then 1%nat else 0%nat).
Proof.
  intros Hnew Hrun Hr Hw l.
  destruct (started_TInv env base local t c m wc n sn s0 Hnew Hrun) as (p0 & Hi0 & _ & _).
  pose proof (tcp_reach_inv env p0 s0 s Hi0 Hr) as [].
  destruct (ti_conns0 fd w Hw) as [(w0 & Hf & Hc & Hk & [[[] Hs] ? ? ?] & []) Hcr]. simpl in Hcr.
  unfold sent_by in *. rewrite Hk, <- lt_fd in *. split_and!; try done.
  - rewrite ti_once0, elem_of_app. left. apply list_elem_of_fmap. by exists (l, fd, true).
  - intros Hcb. rewrite ti_ups0, ti_downs0, Hw, Hcb. split; [done|]. simpl.
    by rewrite inv_closes, lt_close, Hc.
Qed.
End streams.

(** The connection that the user keeps sends four bytes and is closed. *)
Definition pool_script : list (TcpServer.event (E := conn_step SimK)) :=
  spread_script ++ [EvConn 10 (Own (EvCall (ASend [x61; x62; x63; x64])));
   EvConn 10 (Own (EvCall AForceClose))].
Definition pool_run : TcpServer (CW SimK) :=
  default server_new (play demo_env pool_script server_started).

Lemma pool_server_streams_witness :
  match conns pool_run !! 10 with
  | Some w => tid_ (loop w) = 100 /\ (tid_ (loop w), 10) ∈ assigned pool_run
      /\ closes (trace w) = 1%nat /\ calls 10 (downs pool_run) = 1%nat
      /\ ups pool_run = [11; 10] /\ sent_by w `prefix_of` [x61; x62; x63; x64]
  | None => False
  end.
Proof.
  destruct (conns pool_run !! 10) as [w|] eqn:E; [|vm_compute in E; discriminate E].
  assert (reach demo_env server_started pool_run) as Hr.
  { apply (tcp_server_play_reach demo_env pool_script server_started server_started); [apply reach_start|].
    vm_compute. reflexivity. }
  destruct (pool_server_streams [] sim_loops 7 sim_fd_ok eq_refl (fun _ => eq_refl) (fun _ => eq_refl)
    sim_loops_fd demo_env 50 InetAddress.default true true true false 2 server_new server_started
    pool_run 10 w eq_refl server_starts Hr E) as (_ & Ha & _ & Hp & _ & _ & Hc).
  destruct (Hc ltac:(vm_compute; reflexivity)) as [Hu Hd].
  vm_compute in E. injection E as <-. split; [reflexivity|]. split; [exact Ha|].
  split; [reflexivity|]. split; [exact Hd|].
  split; [rewrite Hu; vm_compute; reflexivity|exact Hp].
Defined.
