(* ===== verification/Programs.v ===== *)
(** * Programs: what the example programs set up
    (examples/server.cpp, examples/benchmark_server.cpp, examples/client.cpp)

    The arguments of main, the address, the server with its callbacks and
    threads, up to loop().  What the programs do in their callbacks is in
    TcpReply, Http and ConsoleClient, what loop() does in Reactor and
    LoopProtocol.  Text on standard output is left out. *)

From Stdlib Require Import Ascii.
From stdpp Require Import pretty.
From S2P Require Import Prelude Calendar InetAddress Posix Epoll EventLoop EventLoopThread TcpConnection ConnectionI TcpServer TcpServerSpec.
Import EventLoopThreadPool TcpServer.

(** ** std::stoi and std::stoul of <string>, base 10 *)
Module Numbers.

Definition isspace (c : ascii) : bool :=
  let n := Z.of_nat (nat_of_ascii c) in (n =? 32) || ((9 <=? n) && (n <=? 13)).
Definition digit_of (c : ascii) : option Z :=
  let n := Z.of_nat (nat_of_ascii c) in
  if (48 <=? n) && (n <=? 57) then Some (n - 48) else None.

Fixpoint skip_space (s : string) : string :=
  match s with
  | String c s' => if isspace c then skip_space s' else s
  | EmptyString => s
  end.

(** The digits at the front of [s], after [acc]; [any]: there was one before. *)
Fixpoint digits (s : string) (acc : Z) (any : bool) : option Z :=
  let stop := if any then Some acc else None in
  match s with
  | EmptyString => stop
  | String c s' =>
      match digit_of c with
      | Some d => digits s' (acc * 10 + d) true
      | None => stop
      end
  end.

(** Sign and magnitude, or nothing when no conversion can be done. *)
Definition number (s : string) : option (bool * Z) :=
  match skip_space s with
  | String "-" s' => option_map (fun n => (true, n)) (digits s' 0 false)
  | String "+" s' => option_map (fun n => (false, n)) (digits s' 0 false)
  | s' => option_map (fun n => (false, n)) (digits s' 0 false)
  end.

Definition stoi (s : string) : result Z :=
  match number s with
  | None => Err (Thrown "std::invalid_argument")
  | Some (minus, n) =>
      let z := if (minus : bool) then - n else n in
      if (- 2 ^ 31 <=? z) && (z <? 2 ^ 31) then Ok z else Err (Thrown "std::out_of_range")
  end.

(** A minus sign is allowed and wraps around. *)
Definition stoul (s : string) : result Z :=
  match number s with
  | None => Err (Thrown "std::invalid_argument")
  | Some (minus, n) =>
      if n <? 2 ^ 64 then Ok (u64 (if (minus : bool) then - n else n))
      else Err (Thrown "std::out_of_range")
  end.

Lemma digit_of_char r : (r < 10)%N -> digit_of (pretty_N_char r) = Some (Z.of_N r).
Proof.
  intros Hr. rewrite <- (N2Z.id r) at 1.
  assert (0 <= Z.of_N r < 10) as Hz%Calendar.below_ten by lia. simpl in Hz.
  repeat destruct Hz as [<-|Hz]; done.
Qed.

Lemma digits_go x s any : (0 < x)%N -> digits (pretty_N_go x s) 0 any = digits s (Z.of_N x) true.
Proof.
  revert s. induction x as [x IH] using (well_founded_ind N.lt_wf_0). intros s Hx.
  rewrite pretty_N_go_step by done.
  assert (x = 10 * (x / 10) + x mod 10)%N as Hdiv by (apply N.div_mod; lia).
  assert (x mod 10 < 10)%N as Hmod by (by apply N.mod_lt).
  destruct (decide (x / 10 = 0)%N) as [E|Hne].
  - rewrite E. cbn [digits pretty_N_go]. change (pretty_N_go 0 ?t) with t. cbn [digits].
    rewrite digit_of_char by done. f_equal. lia.
  - rewrite IH by (try apply N.div_lt; lia). cbn [digits]. rewrite digit_of_char by done. f_equal. lia.
Qed.

Lemma digits_pretty n : digits (pretty n) 0 false = Some (Z.of_N n).
Proof.
  unfold pretty, pretty_N. case_decide as E; [by subst|]. rewrite digits_go by lia. done.
Qed.

Lemma number_digit c s n :
  digits (String c s) 0 false = Some n -> number (String c s) = Some (false, n).
Proof.
  intros Hd. destruct (digit_of c) as [d|] eqn:Ed; [|by simpl in Hd; rewrite Ed in Hd].
  unfold number. assert (skip_space (String c s) = String c s) as ->.
  { simpl. replace (isspace c) with false; [done|]. unfold digit_of, isspace in *.
    destruct (_ && _)%bool eqn:E; [|done]. bool_solve. symmetry. apply orb_false_iff.
    split; [apply Z.eqb_neq; lia|]. apply andb_false_iff. right. apply Z.leb_gt. lia. }
  change (Some (false, n)) with (option_map (fun n => (false, n)) (Some n)). rewrite <- Hd.
  destruct c as [[] [] [] [] [] [] [] []]; try done; by vm_compute in Ed.
Qed.

Lemma number_pretty n : number (pretty n) = Some (false, Z.of_N n).
Proof.
  pose proof (digits_pretty n) as Hd. destruct (pretty n) as [|c s]; [done|]. by apply number_digit.
Qed.

(** Decimal text of an integer. *)
Definition print (z : Z) : string :=
  if z <? 0 then String "-" (pretty (Z.to_N (- z))) else pretty (Z.to_N z).

Lemma number_print z : number (print z) = Some (z <? 0, Z.abs z).
Proof.
  unfold print. destruct (z <? 0) eqn:E; bool_solve.
  - unfold number. cbn [skip_space]. change (isspace "-") with false. cbn iota.
    rewrite digits_pretty. simpl. do 2 f_equal. lia.
  - rewrite number_pretty. do 2 f_equal. lia.
Qed.

Lemma stoi_print z :
  stoi (print z) = if (- 2 ^ 31 <=? z) && (z <? 2 ^ 31) then Ok z else Err (Thrown "std::out_of_range").
Proof.
  unfold stoi. rewrite number_print. replace (if z <? 0 then - Z.abs z else Z.abs z) with z; [done|].
  destruct (z <? 0) eqn:E; bool_solve; lia.
Qed.

Lemma stoul_print z : 0 <= z < 2 ^ 64 -> stoul (print z) = Ok z.
Proof.
  intros Hz. unfold stoul. rewrite number_print, Z.abs_eq by lia.
  rewrite (proj2 (Z.ltb_lt _ _)), (proj2 (Z.ltb_ge _ _)) by lia. by rewrite u64_small.
Qed.
End Numbers.

Module Programs.
Import Numbers.

Definition the_first (argv : list string) : option string := argv !! 1%nat.
Definition the_second (argv : list string) : option string := argv !! 2%nat.

(** static_cast<uint16_t>, and the conversion to the port of an InetAddress. *)
Definition to_uint16 (z : Z) : Z := z mod 2 ^ 16.

(** *** client.cpp: the address of the server *)

Definition client_address `{Inet} (argv : list string) : result sockaddr_in :=
  let port := match the_first argv with
              | None => Ok 8888
              | Some s => match stoi s with Ok p => Ok (to_uint16 p) | Err f => Err f end
              end in
  match port with
  | Err f => Err f
  | Ok p => InetAddress.of_ip (default "127.0.0.1"%string (the_second argv)) p
  end.

(** *** server.cpp, benchmark_server.cpp: signalHandler; [g_loop]: it is not null *)

Definition signalHandler {K T} `{Posix K} (g_loop : bool) : M (Loop K T) unit :=
  when g_loop EventLoop.quit.

(** On the loop's own thread the handler only sets quit_: nothing makes an
    epoll_wait return that starts after the loop has tested quit_. *)
Lemma signalHandler_no_wakeup {K T} `{Posix K} (l : Loop K T) :
  isInLoopThread l = true -> signalHandler true l = Ok (tt, set_quit true l).
Proof.
  intros Hl. unfold signalHandler, EventLoop.quit, bind, modify, gets. simpl.
  change (isInLoopThread (set_quit true l)) with (isInLoopThread l). by rewrite Hl.
Qed.

Section servers.
Context {C E K : Type} `{Posix K} `{ConnectionI C E}.
Variable env : ServerEnv K.

(** *** server.cpp: main up to loop(); [loop] is the event loop of main *)

Definition server_main (loop : Z) : result (TcpServer C) :=
  match TcpServer.new loop (InetAddress.of_port 8888 false) with
  | Err f => Err f
  | Ok server =>
      match start_server env loop
              (TcpServer.setMessageCallback true (TcpServer.setConnectionCallback true server)) with
      | Ok (_, server) => Ok server
      | Err f => Err f
      end
  end.

(** *** benchmark_server.cpp *)

Definition or_default (s : option string) (convert : string -> result Z) (d : Z) : result Z :=
  match s with Some s => convert s | None => Ok d end.

Definition benchmark_args (argv : list string) : result (Z * Z) :=
  match or_default (the_first argv) stoi 8888 with
  | Err f => Err f
  | Ok port =>
      match or_default (the_second argv) stoul 1 with
      | Err f => Err f
      | Ok numThreads => Ok (port, numThreads)
      end
  end.

Definition benchmark_main (loop : Z) (argv : list string) : result (TcpServer C) :=
  match benchmark_args argv with
  | Err f => Err f
  | Ok (port, numThreads) =>
      match TcpServer.new loop (InetAddress.of_port (to_uint16 port) false) with
      | Err f => Err f
      | Ok server =>
          match (when (1 <? numThreads) (setNumThread numThreads);;;
                 start_server env loop;;;
                 TcpServer.runInLoop loop loop TStopAcceptor (ret tt))    (* runInLoop([](){}) *)
                (TcpServer.setMessageCallback true (TcpServer.setConnectionCallback true server)) with
          | Ok (_, server) => Ok server
          | Err f => Err f
          end
      end
  end.

(** Starting a server without thread callback, on its loop. *)
Lemma start_plain_wp loop num (s : TcpServer C) :
  threadPool_ s = mkPool loop num 0 false 0 [] -> acceptor_ s = false ->
  TcpServer.started_ s = false -> threadInitCallback_ s = false ->
  (exists a, open_acceptor (C := C) env (local_ s) = Ok a) ->
  wp no_fault (start_server env loop)
    (fun _ s' => exists p, s' = set_flags true true (set_pool p s) /\ WF p /\ next_ p = 0
       /\ baseLoop_ p = loop /\ loops_ p = map (startLoop env) (seq 0 (Z.to_nat num))) s.
Proof.
  intros Hp Ha Hs Ht [a Hop]. unfold start_server. wp_simpl. rewrite Hs, Hp. simpl. wp_simpl.
  unfold TcpServer.runInLoop. rewrite Z.eqb_refl. unfold startInLoop. wp_simpl. simpl. rewrite Hp, Z.eqb_refl.
  wp_simpl. rewrite Ha. wp_simpl. unfold on_pool. wp_simpl. simpl. rewrite Hp. wp_call start_spec; [done..|].
  intros _ p (Hwf & Hl & Hb & Hnx). wp_simpl. rewrite Ht. wp_simpl. simpl. rewrite Hop. wp_simpl.
  exists p. by split_and!.
Qed.

Lemma benchmark_args_print prog port threads rest :
  - 2 ^ 31 <= port < 2 ^ 31 -> 0 <= threads < 2 ^ 64 ->
  benchmark_args (prog :: print port :: print threads :: rest) = Ok (port, threads).
Proof.
  intros Hp Ht. unfold benchmark_args. simpl. rewrite stoi_print, stoul_print by done.
  by rewrite (proj2 (Z.leb_le _ _)), (proj2 (Z.ltb_lt _ _)) by lia.
Qed.

(** The threads that the pool is asked for. *)
Definition worker_threads (numThreads : Z) : Z :=
  if 1 <? numThreads then signed 32 numThreads else 0.
End servers.

(** ** Property *)

(** The benchmark server does what its arguments say.  Whatever port and
    number of threads are printed on the command line, main reads them back,
    and, when the system lets it bind and listen, reaches loop() with a server that is started and listens on the port
    (modulo 2^16: a larger one is truncated without a message), with both
    callbacks set, and whose connections go to the worker threads in turn, or
    all to the loop of main when there is at most one thread. *)
Lemma benchmark_configures {C E K} `{Posix K} `{ConnectionI C E} (env : ServerEnv K) loop prog port
  threads rest :
  (exists a, open_acceptor (C := C) env (InetAddress.of_port (to_uint16 port) false) = Ok a) -> loop <> 0 -> - 2 ^ 31 <= port < 2 ^ 31 -> 0 <= threads < 2 ^ 64 ->
  exists server : TcpServer C,
    benchmark_main env loop (prog :: print port :: print threads :: rest) = Ok server
    /\ InetAddress.toPort (local_ server) = port mod 2 ^ 16
    /\ acceptor_ server = true /\ TcpServer.started_ server = true
    /\ connectionCallback_ server = true /\ messageCallback_ server = true
    /\ queue server = [] /\ created server = []
    /\ forall i, nth_loop (threadPool_ server) i =
         if worker_threads threads <=? 0 then loop
         else startLoop env (i mod Z.to_nat (worker_threads threads))%nat.
Proof.
  intros Hop Hl Hp Ht. unfold benchmark_main. rewrite benchmark_args_print by done.
  unfold TcpServer.new, EventLoopThreadPool.new. rewrite (proj2 (Z.eqb_neq _ _)) by done.
  set (s := TcpServer.setMessageCallback true _).
  assert (wp no_fault (when (1 <? threads) (setNumThread threads);;; start_server env loop;;;
      TcpServer.runInLoop loop loop TStopAcceptor (ret tt))
    (fun _ s' => exists p, s' = set_flags true true (set_pool p s) /\ WF p /\ next_ p = 0
       /\ baseLoop_ p = loop /\ loops_ p = map (startLoop env) (seq 0 (Z.to_nat (worker_threads threads)))) s)
    as Hwp.
  { unfold worker_threads, setNumThread, on_pool, setThreadNum, TcpServer.runInLoop. rewrite Z.eqb_refl.
    wp_simpl. case_bool; wp_simpl; simpl; wp_simpl.
    - rewrite (proj2 (Z.ltb_lt 0 threads)) by lia. wp_simpl.
      wp_call (start_plain_wp env loop (signed 32 threads)); [done..|].
      intros _ s' (q & -> & Hq). wp_simpl. by exists q.
    - wp_call (start_plain_wp env loop 0); [done..|]. intros _ s' (q & -> & Hq). wp_simpl. by exists q. }
  apply wp_ok in Hwp as ([] & s' & -> & q & -> & Hq & Hn & Hb & Hlo). eexists. split; [done|]. simpl.
  split_and!; try done.
  - unfold InetAddress.toPort. simpl. unfold to_uint16. apply InetAddress.htons_htons.
    by apply Z.mod_pos_bound.
  - intros i. by rewrite (nth_loop_started (startLoop env) (worker_threads threads)), Hb.
Qed.

#[local] Existing Instance sim_conn.

(** Port 70000 and two threads: it listens on port 4464. *)
Lemma benchmark_configures_witness :
  exists server : TcpServer (CW SimK),
    benchmark_main demo_env 50 ["benchmark_server"; "70000"; "2"]%string = Ok server
    /\ InetAddress.toPort (local_ server) = 4464
    /\ map (nth_loop (threadPool_ server)) [0; 1; 2]%nat = [100; 101; 100].
Proof.
  assert (print 70000 = "70000"%string /\ print 2 = "2"%string) as [E1 E2] by (split; reflexivity).
  destruct (benchmark_configures demo_env 50 "benchmark_server" 70000 2 [])
    as (server & Hs & Hp & _ & _ & _ & _ & _ & _ & Hn).
  - by eexists.
  - discriminate.
  - split; [discriminate|reflexivity].
  - split; [discriminate|reflexivity].
  - exists server. rewrite E1, E2 in Hs. split; [exact Hs|]. split; [exact Hp|].
    simpl. rewrite !Hn. reflexivity.
Defined.
End Programs.
