(* ===== verification/Legacy.v ===== *)
(** * Legacy: the first server of the library
    (include/knetlib/Socket.h, Connection.h and Server.h, src/Socket.cpp,
    src/Connection.cpp, src/Server.cpp, src/utils.cpp)

    The sub-reactors share one kernel: a call on one of them runs on its members
    with the kernel and the thread of the process.  A Connection lives exactly
    as long as its entry in [connections].  The messages on standard output are
    left out. *)

From S2P Require Import Prelude InetAddress Posix Buffer Channel Epoll EventLoop Acceptor TcpConnectionSpec TimerQueue EventLoopLife.

(** System calls that only this part uses. *)
Class SockPosix (K : Type) : Type := {
  sys_stream_socket : K -> sysres Z * K;                  (* blocking *)
  sys_accept : Z -> K -> sysres (Z * sockaddr_in) * K;
  sys_getfl : Z -> K -> Z * K;
  sys_setfl : Z -> Z -> K -> sysres unit * K
}.

#[export] Instance SimSockPosix : SockPosix SimK :=
  {| sys_stream_socket := sys_socket; sys_accept := sys_accept4;
     sys_getfl _ k := (0, k); sys_setfl _ _ k := (SysOk tt, k) |}.

(** errif: perror and exit(EXIT_FAILURE). *)
Definition errif {S} (condition : bool) (errmsg : string) : M S unit :=
  ensure (ExitFailure errmsg) (negb condition).

Definition is_err {A} (r : sysres A) : bool := match r with SysErr _ => true | SysOk _ => false end.

Definition O_NONBLOCK : Z := 2048.

(** ** Socket *)
Module Socket.
Section socket.
Context {K : Type} `{Posix K} `{SockPosix K}.

(** A Socket is its descriptor. *)
Definition new : M K Z :=
  r <- sys sys_stream_socket;;
  errif (is_err r) "socket create error";;;
  ret match r with SysOk fd => fd | SysErr _ => -1 end.
Definition of_fd (fd : Z) : M K Z := errif (fd =? -1) "socket create error";;; ret fd.
Definition destroy (fd : Z) : M K unit :=
  when (negb (fd =? -1)) (_ <- sys (sys_close fd);; ret tt).
Definition bind_ (fd : Z) (addr : sockaddr_in) : M K unit :=
  r <- sys (sys_bind fd (InetAddress.getAddr addr));; errif (is_err r) "socket bind error".
Definition listen (fd : Z) : M K unit :=
  r <- sys (sys_listen fd);; errif (is_err r) "socket listen error".
Definition setnonblocking (fd : Z) : M K unit :=
  fl <- sys (sys_getfl fd);; _ <- sys (sys_setfl fd (Z.lor fl O_NONBLOCK));; ret tt.

(** The descriptor, or -1 if no client waits, and the address written to. *)
Definition accept (fd : Z) (addr : sockaddr_in) : M K (Z * sockaddr_in) :=
  r <- sys (sys_accept fd);;
  match r with
  | SysErr e =>
      if e =? EAGAIN then ret (-1, addr)
      else errif true "socket accept error";;; ret (-1, addr)
  | SysOk (clnt, a) => ret (clnt, InetAddress.setInetAddr a 16 addr)
  end.
Definition connect (fd : Z) (addr : sockaddr_in) : M K unit :=
  r <- sys (sys_connect fd (InetAddress.getAddr addr));; errif (is_err r) "socket connect error".
Definition getFd (fd : Z) : Z := fd.
End socket.
End Socket.

(** ** Connection and Server *)

Record Connection : Type := mkConnection {
  cloop : nat;                       (* index of its sub-reactor *)
  sock : Z;
  chan : Channel unit;
  deleteConnectionCallBack : bool;   (* whether the callback is set *)
  readBuffer : Buffer
}.

Record Server (K : Type) : Type := mkServer {
  skernel : K;
  stid : Z;                          (* the thread that runs *)
  subReactors : list (Loop K unit);
  connections : gmap Z Connection
}.
Arguments mkServer {K}.
Arguments skernel {K}.
Arguments stid {K}.
Arguments subReactors {K}.
Arguments connections {K}.

Definition READ_BUFFER_SIZE : Z := 1024.

Module Legacy.
Section legacy.
Context {K : Type} `{Posix K}.
Abbreviation MS := (M (Server K)).

Definition set_skernel (k : K) (s : Server K) : Server K :=
  mkServer k (stid s) (subReactors s) (connections s).
Definition set_subs (l : list (Loop K unit)) (s : Server K) : Server K :=
  mkServer (skernel s) (stid s) l (connections s).
Definition set_connections (m : gmap Z Connection) (s : Server K) : Server K :=
  mkServer (skernel s) (stid s) (subReactors s) m.
Definition with_chan (c : Channel unit) (x : Connection) : Connection :=
  mkConnection (cloop x) (sock x) c (deleteConnectionCallBack x) (readBuffer x).
Definition with_buffer (b : Buffer) (x : Connection) : Connection :=
  mkConnection (cloop x) (sock x) (chan x) (deleteConnectionCallBack x) b.

Definition ksys {A} (f : K -> A * K) : MS A := zoom skernel set_skernel (sys f).

(** Members of a sub-reactor, as the running thread finds them. *)
Definition sub (i : nat) (s : Server K) : option (Loop K unit) :=
  option_map (fun l => set_current (stid s) (set_kernel (skernel s) l)) (subReactors s !! i).

(** A call on a channel and the sub-reactor [i]. *)
Definition on_sub (i : nat) (c : Channel unit) (m : M (Channel unit * Loop K unit) unit)
  : MS (Channel unit) :=
  l <- gets (sub i);;
  match l with
  | None => throw OutOfBounds
  | Some l =>
      match m (c, l) with
      | Err f => throw f
      | Ok (_, (c', l')) =>
          modify (fun s => set_skernel (kernel l') (set_subs (<[i := l']> (subReactors s)) s));;;
          ret c'
      end
  end.

(** The connection registered for a descriptor: [this] of its methods. *)
Definition this (fd : Z) : MS Connection :=
  m <- gets connections;;
  match m !! fd with
  | Some c => ret c
  | None => throw (UseAfterFree "Connection")
  end.
Definition upd (fd : Z) (f : Connection -> Connection) : MS unit :=
  modify (fun s => set_connections (alter f fd (connections s)) s).

(** Connection::Connection; [addr] is the address of the new Channel. *)
Definition new_Connection (addr : Z) (i : nat) (fd : Z) : MS Connection :=
  c <- on_sub i (Channel.new addr fd) ChannelOps.enableRead;;
  match Buffer.new_Buffer Buffer.kInitialSize with
  | Err f => throw f
  | Ok b => ret (mkConnection i fd (Channel.setReadCallback (Some tt) c) false b)
  end.

Definition setDeleteConnectionCallBack (x : Connection) : Connection :=
  mkConnection (cloop x) (sock x) (chan x) true (readBuffer x).

(** Connection::~Connection: delete chan, sock and the buffers. *)
Definition delete_Connection (x : Connection) : MS unit :=
  match Channel.destroy (chan x) with
  | Err f => throw f
  | Ok _ => when (negb (sock x =? -1)) (_ <- ksys (sys_close (sock x));; ret tt)
  end.

(** Server::newConnection *)
Definition newConnection (addr sockfd : Z) : MS unit :=
  when (negb (sockfd =? -1))
    (s <- gets (fun s => s);;
     let size := zlen (subReactors s) in
     ensure DivisionByZero (negb (size =? 0));;;
     let random := u64 sockfd mod size in
     x <- new_Connection addr (Z.to_nat random) sockfd;;
     modify (fun s => set_connections (<[sockfd := setDeleteConnectionCallBack x]> (connections s)) s)).

(** Server::deleteConnection *)
Definition deleteConnection (sockfd : Z) : MS unit :=
  when (negb (sockfd =? -1))
    (m <- gets connections;;
     match m !! sockfd with
     | None => ret tt
     | Some x =>
         modify (fun s => set_connections (delete sockfd (connections s)) s);;;
         delete_Connection x
     end).

(** The call of deleteConnectionCallBack. *)
Definition call_delete (fd sockfd : Z) : MS unit :=
  x <- this fd;;
  if deleteConnectionCallBack x then deleteConnection sockfd
  else throw (Thrown "std::bad_function_call").

(** Connection::echo of the connection of [fd]; [fuel] bounds the number of
    reads. *)
Fixpoint echo (fuel : nat) (fd sockfd : Z) : MS unit :=
  match fuel with
  | O => throw OutOfFuel
  | Datatypes.S n =>
      r <- ksys (sys_read sockfd READ_BUFFER_SIZE);;
      match r with
      | SysOk [] => call_delete fd sockfd
      | SysOk d =>
          x <- this fd;;
          match Buffer.append d (readBuffer x) with
          | Err f => throw f
          | Ok (_, b) => upd fd (with_buffer b);;; echo n fd sockfd
          end
      | SysErr e =>
          if e =? EINTR then echo n fd sockfd
          else if e =? EAGAIN then
            x <- this fd;;
            w <- ksys (sys_write sockfd (Buffer.content (readBuffer x)));;
            errif (is_err w) "socket write error"
          else call_delete fd sockfd
      end
  end.

(** Connection::send of the bytes [buf]; [fuel] bounds the number of writes. *)
Fixpoint send_loop (fuel : nat) (sockfd : Z) (buf : list byte) (data_left : Z) : MS unit :=
  if data_left =? 0 then ret tt
  else match fuel with
  | O => throw OutOfFuel
  | Datatypes.S n =>
      r <- ksys (sys_write sockfd (zdrop (zlen buf - data_left) buf));;
      match r with
      | SysErr _ => ret tt           (* break on EAGAIN, return otherwise *)
      | SysOk bytes_write => send_loop n sockfd buf (u64 (data_left - bytes_write))
      end
  end.
Definition send (fuel : nat) (fd sockfd : Z) : MS unit :=
  x <- this fd;;
  let data_size := Buffer.size (readBuffer x) in
  if data_size =? 0 then ret tt
  else send_loop fuel sockfd (Buffer.content (readBuffer x)) data_size.

(** chan->handleEvents() of the connection of [fd], whose read callback is echo
    with the descriptor bound at construction. *)
Definition loop_of (fd : Z) : HasLoop K unit (Server K) :=
  {| get_loop s :=
       match connections s !! fd ≫= fun x => sub (cloop x) s with
       | Some l => l
       | None => mkLoop (skernel s) 0 1 false false (mkEpoll 0 0) [] 0 []
       end;
     put_loop l s := set_skernel (kernel l) s |}.
Definition handleEvents (fuel : nat) (fd : Z) : MS unit :=
  x <- this fd;;
  @ChannelOps.handleEvents K unit unit (Server K) (loop_of fd)
    (fun s => match connections s !! fd with Some x => chan x | None => Channel.new 0 0 end)
    (fun c s => set_connections (alter (with_chan c) fd (connections s)) s)
    (fun _ => echo fuel fd (sock x)) (fun _ _ => true).

(** Server::~Server after the loops and the pool are gone: the connections. *)
Definition delete_connections : MS unit :=
  m <- gets connections;;
  forM (map_to_list m) (fun p => delete_Connection p.2);;;
  modify (set_connections ∅).
End legacy.

(** ** The constructor of the server *)
Section server_construct.
Context {K : Type} `{Posix K} `{LoopPosix K}.

Definition run_in {T A} (kernel_of : T -> K) (m : M T A) (t : T) : M (Process K) A :=
  fun p => match m t with
           | Ok (a, t') => Ok (a, EventLoopLife.set_p_kernel (kernel_of t') p)
           | Err f => Err f
           end.

(** new EventLoop(), once for each address triple. *)
Fixpoint make_subs (addrs : list (Z * Z * Z)) : M (Process K) (list (LoopObject K)) :=
  match addrs with
  | [] => ret []
  | a :: l =>
      o <- EventLoopLife.construct a.1.1 a.1.2 a.2;;
      os <- make_subs l;;
      ret (o :: os)
  end.

(** Server::Server on the loop [main]; there are as many addresses as
    std::thread::hardware_concurrency() says.  The pool gets one task per loop. *)
Definition construct (main : Loop K unit) (aaddr : Z) (local : sockaddr_in)
  (addrs : list (Z * Z * Z)) : M (Process K) (Acceptor * list (LoopObject K) * list Z) :=
  p <- gets (fun p => p);;
  acceptor <- run_in kernel (Acceptor.construct aaddr local)
                (set_current (p_tid p) (set_kernel (p_kernel p) main));;
  subs <- make_subs addrs;;
  ret (Acceptor.setNewConnectionCallback true acceptor, subs, map self subs).

(** ** The destructor of the server *)

(** loop->quit() of a sub-reactor. *)
Definition quit_sub (o : LoopObject K) : M (Process K) (LoopObject K) :=
  p <- gets (fun p => p);;
  l <- EventLoopLife.run_on kernel EventLoop.quit (EventLoopLife.here p o);;
  ret (mkLoopObject (self o) (wakeupChannel_ o)
         (mkTW (queue (members o)) l (heap (members o)) (fired (members o)) (armed (members o)))).

Fixpoint mapM {A B} (f : A -> M (Process K) B) (l : list A) : M (Process K) (list B) :=
  match l with
  | [] => ret []
  | a :: l' => b <- f a;; bs <- mapM f l';; ret (b :: bs)
  end.

#[local] Instance pair_has_loop : HasLoop K unit (Acceptor * Loop K unit) :=
  {| get_loop := snd; put_loop l s := (s.1, l) |}.
#[local] Instance pair_has_acceptor : HasAcceptor (Acceptor * Loop K unit) :=
  {| get_acceptor := fst; put_acceptor a s := (a, s.2) |}.

(** Server::~Server.  [join] is delete thpool: what the threads do to the loops
    until they have left loop() (ThreadPool, LoopProtocol). *)
Definition delete_Server (join : list (LoopObject K) -> M (Process K) (list (LoopObject K)))
  (main : Loop K unit) (acceptor : Acceptor) (subs : list (LoopObject K)) (conns : gmap Z Connection)
  : M (Process K) unit :=
  subs <- mapM quit_sub subs;;
  subs <- join subs;;
  forM subs EventLoopLife.destroy;;;
  p <- gets (fun p => p);;
  run_in (fun s => kernel s.2) Acceptor.destroy
    (acceptor, set_current (p_tid p) (set_kernel (p_kernel p) main));;;
  p <- gets (fun p => p);;
  run_in skernel delete_connections (mkServer (p_kernel p) (p_tid p) [] conns).
End server_construct.

(** ** Specifications *)
Section specs.
Context {K : Type} `{Posix K}.
Implicit Types s : Server K.

Lemma wp_ksys {A} F (f : K -> A * K) (Q : A -> Server K -> Prop) s :
  wp F (ksys f) Q s = Q (f (skernel s)).1 (set_skernel (f (skernel s)).2 s).
Proof. unfold ksys. by rewrite wp_zoom, wp_sys. Qed.

Lemma wp_this F fd x (Q : Connection -> Server K -> Prop) s :
  connections s !! fd = Some x -> Q x s -> wp F (this fd) Q s.
Proof. intros Hx HQ. unfold this. wp_simpl. by rewrite Hx. Qed.

Lemma set_skernel_twice k1 k2 s : set_skernel k1 (set_skernel k2 s) = set_skernel k1 s.
Proof. done. Qed.

Lemma ztake_add_split n m (l : list byte) :
  0 <= n -> 0 <= m -> ztake (n + m) l = ztake n l ++ ztake m (zdrop n l).
Proof.
  intros Hn Hm. unfold ztake, zdrop. rewrite Z2Nat.inj_add by done. by rewrite take_take_drop.
Qed.

Lemma send_loop_wp `{!SocketLaws K} (acc : K -> Prop) fd buf fuel n s :
  acc (skernel s) ->
  0 <= n <= zlen buf -> zlen buf - n <= Z.of_nat fuel -> zlen buf < 2 ^ 63 ->
  (forall d k m k', acc k -> d <> [] -> sys_write fd d k = (SysOk m, k') -> 1 <= m /\ acc k') ->
  wp no_fault (send_loop fuel fd buf (zlen buf - n)) (fun _ s' => exists k' n',
     s' = set_skernel k' s /\ n <= n' <= zlen buf
     /\ sent k' fd = sent (skernel s) fd ++ ztake (n' - n) (zdrop n buf)
     /\ (n' = zlen buf \/ exists k1 e, sys_write fd (zdrop n' buf) k1 = (SysErr e, k'))) s.
Proof.
  intros Hacc Hn Hfuel Hmax Hpos. revert n s Hacc Hn Hfuel.
  assert (forall n s, zlen buf - n = 0 -> exists k' n', s = set_skernel k' s /\ n <= n' <= zlen buf
     /\ sent k' fd = sent (skernel s) fd ++ ztake (n' - n) (zdrop n buf)
     /\ (n' = zlen buf \/ exists k1 e, sys_write fd (zdrop n' buf) k1 = (SysErr e, k'))) as Hdone.
  { intros n s E. exists (skernel s), n. split_and!; [by destruct s|lia|lia| |left; lia].
    by rewrite Z.sub_diag, ztake_0, app_nil_r. }
  induction fuel as [|fuel IH]; intros n s Hacc Hn Hfuel; cbn [send_loop];
    (destruct (zlen buf - n =? 0) eqn:E; bool_solve; [by apply Hdone|]); [lia|].
  rewrite wp_bind, wp_ksys. replace (zlen buf - (zlen buf - n)) with n by lia.
  destruct (sys_write fd (zdrop n buf) (skernel s)) as [[m|e] k1] eqn:Ew; cbn [fst snd].
  - pose proof Ew as Hm. apply Hpos in Hm as [Hm Hacc1]; [|done|intros Hnil; apply (f_equal zlen) in Hnil;
      rewrite zlen_zdrop, zlen_nil in Hnil by lia; lia].
    apply write_ok in Ew as [Hle Hsent]. rewrite zlen_zdrop in Hle by lia.
    replace (u64 (zlen buf - n - m)) with (zlen buf - (n + m)) by (u64_tac; lia).
    wp_call (IH (n + m)); [done|lia|lia|]. intros _ s' (k' & n' & -> & Hn' & Hs & Hend).
    exists k', n'. split_and!; [done|lia|lia| |done]. simpl in Hs. rewrite Hs, Hsent, <- app_assoc.
    f_equal. replace (n' - n) with (m + (n' - (n + m))) by lia.
    rewrite ztake_add_split by lia. by rewrite zdrop_zdrop by lia.
  - rewrite wp_ret. exists k1, n. apply write_err in Ew as Hs. split_and!; [done|lia|lia| |].
    + by rewrite Z.sub_diag, ztake_0, app_nil_r.
    + right. by exists (skernel s), e.
Qed.

(** What reading a descriptor until it has no more data gives: [n] reads, the
    bytes, and the answer that ends the round. *)
Inductive drained (fd : Z) : nat -> K -> list byte -> sysres (list byte) -> K -> Prop :=
| drained_end k r k' :
    sys_read fd READ_BUFFER_SIZE k = (r, k') ->
    match r with SysOk d => d = [] | SysErr e => e <> EINTR end ->
    drained fd 1 k [] r k'
| drained_intr n k k1 ds r k' :
    sys_read fd READ_BUFFER_SIZE k = (SysErr EINTR, k1) ->
    drained fd n k1 ds r k' -> drained fd (Datatypes.S n) k ds r k'
| drained_data n k d k1 ds r k' :
    sys_read fd READ_BUFFER_SIZE k = (SysOk d, k1) -> d <> [] ->
    drained fd n k1 ds r k' -> drained fd (Datatypes.S n) k (d ++ ds) r k'.

(** The state after the bytes were read into the connection's buffer. *)
Definition received (fd : Z) (b : Buffer) (k : K) (s : Server K) : Server K :=
  set_skernel k (set_connections (alter (with_buffer b) fd (connections s)) s).

(** The end of a round: all that the buffer holds is written, or the connection
    is deleted. *)
Definition finish (fd : Z) (r : sysres (list byte)) : M (Server K) unit :=
  match r with
  | SysErr e =>
      if e =? EAGAIN then
        x <- this fd;;
        w <- ksys (sys_write fd (Buffer.content (readBuffer x)));;
        errif (is_err w) "socket write error"
      else call_delete fd fd
  | SysOk _ => call_delete fd fd
  end.

Lemma received_here fd x k s :
  connections s !! fd = Some x -> received fd (readBuffer x) k s = set_skernel k s.
Proof.
  intros Hx. unfold received, set_connections, set_skernel. simpl. f_equal.
  apply map_eq. intros i. destruct (decide (i = fd)) as [->|].
  - rewrite lookup_alter_eq, Hx. simpl. by destruct x.
  - by rewrite lookup_alter_ne.
Qed.

Lemma echo_data fd n d x b k1 s :
  sys_read fd READ_BUFFER_SIZE (skernel s) = (SysOk d, k1) -> d <> [] ->
  connections s !! fd = Some x -> Buffer.append d (readBuffer x) = Ok (tt, b) ->
  echo (Datatypes.S n) fd fd s = echo n fd fd (received fd b k1 s).
Proof.
  intros Hr Hd Hx Ha. cbn [echo].
  unfold ksys, this, upd. unfold bind, zoom, sys, gets, modify. rewrite Hr. destruct d as [|c d]; [done|].
  unfold set_skernel. simpl. rewrite Hx. unfold ret. by rewrite Ha.
Qed.

Lemma echo_drained fd n r k' ds s x :
  drained fd n (skernel s) ds r k' -> connections s !! fd = Some x ->
  Buffer.wf (readBuffer x) -> Buffer.fits (readBuffer x) (zlen ds) ->
  exists b, Buffer.wf b /\ Buffer.content b = Buffer.content (readBuffer x) ++ ds
    /\ echo n fd fd s = finish fd r (received fd b k' s).
Proof.
  intros Hd. remember (skernel s) as k eqn:Hk. revert s x Hk.
  induction Hd as [k r k' Hr He|n k k1 ds r k' Hr _ IH|n k d k1 ds r k' Hr Hne _ IH];
    intros s x -> Hx Hwf Hfit.
  - exists (readBuffer x). rewrite app_nil_r, (received_here fd x) by done. split_and!; try done.
    cbn [echo]. unfold bind at 1, ksys at 1, zoom, sys. rewrite Hr. unfold finish.
    destruct r as [d|e]; [by subst|]. by rewrite (proj2 (Z.eqb_neq _ _)).
  - destruct (IH (set_skernel k1 s) x) as (b & Hb & Hc & Heq); [done..|].
    exists b. split_and!; [done|done|]. cbn [echo]. unfold bind at 1, ksys at 1, zoom, sys.
    rewrite Hr. exact Heq.
  - rewrite zlen_app in Hfit. pose proof (zlen_nonneg ds). pose proof (zlen_nonneg d).
    assert (wp no_fault (Buffer.append d) (fun _ b => Buffer.wf b
      /\ Buffer.content b = Buffer.content (readBuffer x) ++ d /\ Buffer.fits b (zlen ds)) (readBuffer x))
      as Hwp.
    { wp_call Buffer.append_spec; [done|left; unfold Buffer.fits in *; lia|].
      intros _ b1 (? & ? & ?). split_and!; [done|done|]. unfold Buffer.fits in *. lia. }
    apply wp_ok in Hwp as ([] & b1 & Ha & Hb1 & Hc1 & Hf1).
    destruct (IH (received fd b1 k1 s) (with_buffer b1 x)) as (b & Hb & Hc & Heq); [done| |done..|].
    { simpl. by rewrite lookup_alter_eq, Hx. }
    exists b. split_and!; [done|by rewrite Hc; simpl; rewrite Hc1, <- app_assoc|].
    rewrite (echo_data fd n d x b1 k1), Heq by done.
    f_equal. unfold received, set_connections, set_skernel. simpl. f_equal.
    rewrite alter_alter_eq. by apply alter_ext.
Qed.

(** A connection as newConnection leaves it, with input reported. *)
Definition readable (fd : Z) (x : Connection) (s : Server K) : Prop :=
  connections s !! fd = Some x /\ fd <> -1 /\ sock x = fd /\ deleteConnectionCallBack x = true
  /\ (exists l, sub (cloop x) s = Some l /\ isInLoopThread l = true)
  /\ tied_ (chan x) = false /\ revents_ (chan x) = EPOLLIN
  /\ readCallback_ (chan x) = Some tt /\ Buffer.wf (readBuffer x).

(** Deleting the connection while its channel handles events. *)
Lemma call_delete_handling fd x s :
  connections s !! fd = Some x -> fd <> -1 -> deleteConnectionCallBack x = true ->
  handlingEvents_ (chan x) = true ->
  call_delete fd fd s = Err (AssertFailed "Channel::~Channel").
Proof.
  intros Hx Hfd Hcb Hh. apply (wp_fails _ (call_delete fd fd)). unfold call_delete. wp_simpl.
  apply (wp_this _ fd x); [done|]. rewrite Hcb. unfold deleteConnection.
  rewrite (proj2 (Z.eqb_neq _ _)) by done. simpl. wp_simpl. rewrite Hx. wp_simpl.
  unfold delete_Connection, Channel.destroy. rewrite Hh. by wp_simpl.
Qed.

(** The read event of a connection: raising the flag, echo, lowering it. *)
Definition flag (b : bool) (fd : Z) (x : Connection) (s : Server K) : Server K :=
  set_connections (alter (with_chan (Channel.set_handling b (chan x))) fd (connections s)) s.

Lemma flag_lookup b fd x s :
  connections s !! fd = Some x ->
  connections (flag b fd x s) !! fd = Some (with_chan (Channel.set_handling b (chan x)) x).
Proof. intros Hx. simpl. by rewrite lookup_alter_eq, Hx. Qed.

Lemma handleEvents_wp F n fd x (Q : unit -> Server K -> Prop) s :
  readable fd x s ->
  wp F (echo n fd fd) (fun _ s' => exists x', connections s' !! fd = Some x'
      /\ revents_ (chan x') = EPOLLIN /\ Q tt (flag false fd x' s')) (flag true fd x s) ->
  wp F (handleEvents n fd) Q s.
Proof.
  intros (Hx & Hfd & Hs & _ & (l & Hl & Ht) & Htied & Hr & Hcb & _) Hecho.
  unfold handleEvents, ChannelOps.handleEvents. wp_simpl. apply (wp_this _ fd x); [done|].
  wp_simpl. simpl. rewrite Hx. simpl. rewrite Hl. apply Epoll.assertInLoopThread_wp; [done|].
  assert (kernel l = skernel s) as ->.
  { unfold sub in Hl. destruct (subReactors s !! cloop x); [by injection Hl as <-|done]. }
  replace (set_skernel (skernel s) s) with s by by destruct s.
  wp_simpl. rewrite Hx, Htied. unfold ChannelOps.handleEventWithGuard, ChannelOps.call_if.
  wp_simpl. rewrite Hx. fold (flag true fd x s). rewrite !(flag_lookup true fd x s Hx).
  simpl chan. simpl revents_. rewrite Hr.
  change (Channel.wants_close EPOLLIN) with false. change (Channel.wants_error EPOLLIN) with false.
  change (Channel.wants_read EPOLLIN) with true. cbn iota. simpl readCallback_. rewrite Hcb, Hs.
  eapply wp_mono; [exact Hecho|]. intros [] s' (x' & Hx' & Hr' & HQ). cbn beta. wp_simpl.
  rewrite !Hx', Hr'. change (Channel.wants_write EPOLLIN) with false. cbn iota. wp_simpl.
  exact HQ.
Qed.
End specs.

(** ** Properties *)

(** Connection::send terminates when every successful write takes at least
    one byte, after at most as many writes as there are bytes; it hands the
    kernel a prefix of the buffer, in order, and all of it unless a write
    failed, which it does not report; nothing else changes. *)
Lemma send_delivers {K} `{SocketLaws K} (acc : K -> Prop) (s : Server K) fd sockfd x :
  connections s !! fd = Some x -> Buffer.wf (readBuffer x) -> acc (skernel s) ->
  (forall d k m k', acc k -> d <> [] -> sys_write sockfd d k = (SysOk m, k') -> 1 <= m /\ acc k') ->
  let buf := Buffer.content (readBuffer x) in
  exists k' n, send (length buf) fd sockfd s = Ok (tt, set_skernel k' s)
    /\ 0 <= n <= zlen buf
    /\ sent k' sockfd = sent (skernel s) sockfd ++ ztake n buf
    /\ (n = zlen buf \/ exists k1 e, sys_write sockfd (zdrop n buf) k1 = (SysErr e, k')).
Proof.
  intros Hx Hwf Hacc Hpos buf.
  assert (Buffer.size (readBuffer x) = zlen buf /\ zlen buf < 2 ^ 63) as [Hsz Hmax].
  { pose proof (Buffer.readable_wf _ Hwf) as Hr. destruct Hwf as [].
    unfold buf. rewrite Buffer.zlen_content by done. unfold Buffer.size, signed. rewrite Hr.
    unfold Buffer.max_size in *. rewrite Z.mod_small by lia. rewrite (proj2 (Z.ltb_lt _ _)) by lia. lia. }
  assert (wp no_fault (send (length buf) fd sockfd) (fun _ s' => exists k' n, s' = set_skernel k' s
    /\ 0 <= n <= zlen buf /\ sent k' sockfd = sent (skernel s) sockfd ++ ztake n buf
    /\ (n = zlen buf \/ exists k1 e, sys_write sockfd (zdrop n buf) k1 = (SysErr e, k'))) s) as Hwp.
  { unfold send. wp_simpl. apply (wp_this _ fd x); [done|]. rewrite Hsz. fold buf.
    assert (wp no_fault (send_loop (length buf) sockfd buf (zlen buf - 0)) (fun _ s' => exists k' n,
      s' = set_skernel k' s /\ 0 <= n <= zlen buf
      /\ sent k' sockfd = sent (skernel s) sockfd ++ ztake (n - 0) (zdrop 0 buf)
      /\ (n = zlen buf \/ exists k1 e, sys_write sockfd (zdrop n buf) k1 = (SysErr e, k'))) s) as Hl.
    { pose proof (zlen_nonneg buf). apply (send_loop_wp acc); [done|lia|unfold zlen; lia|done|done]. }
    rewrite Z.sub_0_r, zdrop_0 in Hl. destruct (zlen buf =? 0) eqn:E.
    - wp_simpl. bool_solve. apply zlen_0_nil in E. exists (skernel s), 0. rewrite E.
      split_and!; [by destruct s|done|done|by rewrite ztake_0, app_nil_r|by left].
    - wp_call Hl. intros _ s' (k' & n & H'). rewrite Z.sub_0_r in H'. by exists k', n. }
  apply wp_ok in Hwp as ([] & s' & Heq & k' & n & -> & Hrest). by exists k', n.
Qed.

(** C38: one round of echo is read everything, then write the whole buffer once.
    When the input is drained the bytes read are added to those of all earlier
    rounds, all of them are written again in a single call whose short count is
    ignored, and none is retrieved; a write error ends the process.  When the
    peer has closed or reset the connection, echo deletes it while its channel
    handles the event, and the assert of the channel's destructor fails. *)
Theorem echo_round {K} `{Posix K} n fd x ds r k' (s : Server K) :
  readable fd x s -> drained fd n (skernel s) ds r k' -> Buffer.fits (readBuffer x) (zlen ds) ->
  let all := Buffer.content (readBuffer x) ++ ds in
  match r with
  | SysErr e =>
      if e =? EAGAIN then
        match sys_write fd all k' with
        | (SysErr _, _) => handleEvents n fd s = Err (ExitFailure "socket write error")
        | (SysOk _, k2) => exists s' x', handleEvents n fd s = Ok (tt, s') /\ skernel s' = k2
            /\ connections s' !! fd = Some x' /\ Buffer.content (readBuffer x') = all
            /\ (forall i, i <> fd -> connections s' !! i = connections s !! i)
        end
      else handleEvents n fd s = Err (AssertFailed "Channel::~Channel")
  | SysOk _ => handleEvents n fd s = Err (AssertFailed "Channel::~Channel")
  end.
Proof.
  intros Hrd Hdr Hfit all. pose proof Hrd as (Hx & Hfd & _ & Hdel & _ & _ & Hrev & _ & Hwf).
  destruct (echo_drained fd n r k' ds (flag true fd x s)
              (with_chan (Channel.set_handling true (chan x)) x))
    as (b & Hb & Hc & Heq); [done|by apply flag_lookup|done|done|].
  set (s1 := received fd b k' (flag true fd x s)) in *.
  set (x1 := with_buffer b (with_chan (Channel.set_handling true (chan x)) x)).
  assert (connections s1 !! fd = Some x1) as Hx1 by (simpl; by rewrite !lookup_alter_eq, Hx).
  assert (forall f, finish fd r s1 = Err f -> handleEvents n fd s = Err f) as Herr.
  { intros f Hf. apply (wp_fails _ (handleEvents n fd)). apply (handleEvents_wp _ n fd x); [done|].
    unfold wp. by rewrite Heq, Hf. }
  assert (call_delete fd fd s1 = Err (AssertFailed "Channel::~Channel")) as Hcd
    by (by apply (call_delete_handling fd x1)).
  destruct r as [d|e]; [by apply Herr|]. unfold finish in *. destruct (e =? EAGAIN); [|by apply Herr].
  change (Buffer.content b = all) in Hc.
  assert (forall w k2, sys_write fd all k' = (w, k2) ->
    (x <- this fd;; w <- ksys (sys_write fd (Buffer.content (readBuffer x)));;
     errif (is_err w) "socket write error") s1
    = if is_err w then Err (ExitFailure "socket write error") else Ok (tt, set_skernel k2 s1)) as Hfin.
  { intros w k2 Hw. unfold this, bind, gets, ksys, zoom, sys, ret. simpl. rewrite !lookup_alter_eq, Hx.
    simpl. rewrite Hc, Hw. by destruct w. }
  destruct (sys_write fd all k') as [w k2] eqn:Hw. specialize (Hfin w k2 eq_refl).
  destruct w as [m|e']; simpl in Hfin; [|by apply Herr].
  assert (wp no_fault (handleEvents n fd) (fun _ s' => exists x', skernel s' = k2
            /\ connections s' !! fd = Some x' /\ Buffer.content (readBuffer x') = all
            /\ (forall i, i <> fd -> connections s' !! i = connections s !! i)) s) as Hwp.
  { apply (handleEvents_wp _ n fd x); [done|]. unfold wp. rewrite Heq, Hfin.
    exists x1. split_and!; [done|done|]. eexists. split_and!; [done|by apply flag_lookup|done|].
    intros i Hi. simpl. by rewrite !lookup_alter_ne by done. }
  apply wp_ok in Hwp as ([] & s' & Hh & x' & Hrest). by exists s', x'.
Qed.

Lemma run_in_wp {K T A} F (kernel_of : T -> K) (m : M T A) t Q (p : Process K) :
  wp F m (fun a t' => Q a (EventLoopLife.set_p_kernel (kernel_of t') p)) t -> wp F (run_in kernel_of m t) Q p.
Proof. unfold wp, run_in. by destruct (m t) as [[a t']|f]. Qed.

Lemma acceptor_aborts {K} `{Posix K} addr local (l : Loop K unit) :
  wp (fun f => exists msg, f = Aborted msg) (Acceptor.construct addr local) (fun _ _ => True) l.
Proof.
  unfold Acceptor.construct, Acceptor.createSocket, Acceptor.fatal, Acceptor.os, loop_sys.
  repeat (wp_simpl; simpl; try match goal with
    | |- context [match ?r with SysOk _ => _ | SysErr _ => _ end] => destruct r
    end); try done; by eexists.
Qed.

(** Server::Server in a thread that has an event loop already, as its argument
    says it has: the first sub-reactor fails the assert of EventLoop's
    constructor, unless the operating system refuses something before. *)
Lemma server_construct_fails {K} `{Posix K} `{LoopPosix K} (main : Loop K unit) aaddr local a addrs
  (p : Process K) :
  t_Eventloop p !! p_tid p <> None ->
  wp (fun f => EventLoopLife.refused f \/ f = AssertFailed "EventLoop::EventLoop"
        \/ exists msg, f = Aborted msg)
    (construct main aaddr local (a :: addrs)) (fun _ _ => False) p.
Proof.
  intros Ht. unfold construct. wp_simpl.
  assert (forall k, wp (fun f => EventLoopLife.refused f \/ f = AssertFailed "EventLoop::EventLoop"
        \/ exists msg, f = Aborted msg) (make_subs (a :: addrs)) (fun _ _ => False)
     (EventLoopLife.set_p_kernel k p)) as Hsubs.
  { intros k. simpl. wp_simpl. apply EventLoopLife.construct_wp; [by left|by right; left|].
    intros k1 epfd wfd tfd _ Hn. simpl in Hn. congruence. }
  unfold wp at 1, run_in.
  set (l := set_current (p_tid p) (set_kernel (p_kernel p) main)).
  pose proof (acceptor_aborts aaddr local l) as Ha.
  unfold wp in Ha. destruct (Acceptor.construct aaddr local l) as [[acc l']|f]; [|by right; right].
  wp_simpl. eapply wp_mono; [apply Hsubs|]. by intros.
Qed.

(** The task of the pool, EventLoop::loop of a sub-reactor: the thread that made
    the sub-reactor is the one that made the server, so that the first assert of
    loop() fails in the thread of the pool. *)
Lemma sub_loop_fails {K S T} `{Posix K} `{HasLoop K T S} `{LoopPosix K} run_task setRev handle fuel
  addr waddr taddr (p : Process K) :
  wp (fun f => EventLoopLife.refused f \/ f = AssertFailed "EventLoop::EventLoop")
    (EventLoopLife.construct addr waddr taddr) (fun o _ => forall worker (s : S),
       worker <> p_tid p -> tid_ (get_loop s) = tid_ (tloop (members o)) ->
       current_tid (get_loop s) = worker ->
       EventLoop.loop (K := K) (T := T) run_task setRev handle fuel s
       = Err (AssertFailed "EventLoop::assertInLoopThread")) p.
Proof.
  apply EventLoopLife.construct_wp; [by left|by right|]. intros k epfd wfd tfd _ _ worker s Hne Ht Hc.
  simpl in Ht. unfold EventLoop.loop, bind, on_loop, zoom, assertInLoopThread.
  assert (isInLoopThread (get_loop s) = false) as Hin.
  { unfold isInLoopThread. rewrite Ht, Hc. apply Z.eqb_neq. congruence. }
  unfold wp, bind, gets, assert_, ensure, throw. by rewrite Hin.
Qed.

Lemma delete_connections_wp {K} `{Posix K} F (s : Server K) :
  map_Forall (fun _ x => handlingEvents_ (chan x) = false) (connections s) ->
  wp F delete_connections (fun _ s' => connections s' = ∅ /\ stid s' = stid s) s.
Proof.
  intros Hx. unfold delete_connections. wp_simpl.
  eapply wp_mono; [apply (wp_forM _ (fun l s' => stid s' = stid s
    /\ Forall (fun p => handlingEvents_ (chan p.2) = false) l))|].
  - split; [done|]. apply Forall_forall. intros [i x] Hi. apply elem_of_map_to_list in Hi. by apply (Hx i).
  - intros [i x] l s' [Ht [Hh Hl]%Forall_cons]. simpl in Hh. unfold delete_Connection, Channel.destroy.
    simpl. rewrite Hh, wp_when. case_bool; [|done]. by rewrite wp_bind, wp_ksys, wp_ret.
  - intros _ s' [Ht _]. by rewrite wp_modify.
Qed.

(** When hardware_concurrency() is 0 the server has no sub-reactor: it is made,
    unless a system call of the acceptor fails, and its destructor returns
    provided that no channel of a connection is handling events. *)
Lemma server_without_subs {K} `{Posix K} `{LoopPosix K} (main : Loop K unit) aaddr local conns
  (p : Process K) :
  map_Forall (fun _ x => handlingEvents_ (chan x) = false) conns ->
  wp (fun f => exists msg, f = Aborted msg)
    (x <- construct main aaddr local [];; delete_Server (fun l => ret l) main x.1.1 x.1.2 conns)
    (fun _ p' => t_Eventloop p' = t_Eventloop p /\ p_tid p' = p_tid p) p.
Proof.
  intros Hx. unfold construct. wp_simpl.
  set (l := set_current (p_tid p) (set_kernel (p_kernel p) main)).
  pose proof (acceptor_aborts aaddr local l) as Ha.
  unfold wp at 1, run_in at 1. unfold wp in Ha.
  destruct (Acceptor.construct aaddr local l) as [[acc l']|f]; [|done].
  simpl. wp_simpl. unfold delete_Server. simpl. wp_simpl. simpl. wp_simpl.
  apply run_in_wp. unfold Acceptor.destroy. wp_simpl. simpl.
  assert (forall k, wp (fun f => exists msg, f = Aborted msg) (p <- gets (fun p => p);;
      run_in skernel delete_connections (mkServer (p_kernel p) (p_tid p) [] conns))
    (fun _ p' => t_Eventloop p' = t_Eventloop p /\ p_tid p' = p_tid p) (EventLoopLife.set_p_kernel k p)) as Hc.
  { intros k. wp_simpl. apply run_in_wp. by wp_call delete_connections_wp. }
  case_bool; [|apply Hc]. unfold Acceptor.os, loop_sys. rewrite wp_on_loop, wp_zoom, wp_sys, wp_ret. apply Hc.
Qed.

(** A server with one sub-reactor and a connection on descriptor 7 whose buffer
    holds three bytes. *)
Definition sub_loop : Loop SimK unit := mkLoop sim_init 1 1 false false (mkEpoll 128 3) [] 4 [].
Definition held (d : list byte) : Buffer :=
  match Buffer.new_Buffer Buffer.kInitialSize with
  | Ok b => match Buffer.append d b with Ok (_, b') => b' | Err _ => b end
  | Err _ => mkBuffer [] 0 0
  end.
Definition a_connection (r : Z) : Connection :=
  mkConnection 0 7 (Channel.setRevents r (EventLoopLife.watching 70 7)) true (held [x61; x62; x63]).
Definition a_server (k : SimK) : Server SimK :=
  mkServer k 1 [sub_loop] {[7 := a_connection EPOLLIN]}.

Lemma held_wf : Buffer.wf (held [x61; x62; x63]).
Proof. constructor; vm_compute; by try (intros [=]). Qed.

(** Every scripted write takes at least one byte. *)
Definition takes_bytes (k : SimK) : Prop :=
  Forall (fun r => match r with SysOk m => 1 <= m | SysErr _ => True end) (sk_writes k).

Lemma sim_takes_bytes fd d k m k' :
  takes_bytes k -> d <> [] -> sys_write fd d k = (SysOk m, k') -> 1 <= m /\ takes_bytes k'.
Proof.
  intros Hk Hd. assert (1 <= zlen d) by (destruct d; [done|unfold zlen; simpl; lia]).
  simpl. unfold sim_write, takes_bytes in *.
  destruct (sk_writes k) as [|[n|e] l] eqn:E; intros [= <- <-]; simpl.
  - rewrite E. split; [done|constructor].
  - apply Forall_cons in Hk as [? ?]. split; [unfold clip; lia|done].
Qed.

(** The first write takes two bytes, the second is refused. *)
Lemma send_delivers_witness :
  let s := a_server (with_writes [SysOk 2; SysErr EAGAIN] sim_init) in
  exists k', send 3 7 7 s = Ok (tt, set_skernel k' s) /\ sk_sent k' !! 7 = Some [x61; x62].
Proof.
  intros s. destruct (send_delivers takes_bytes (a_server (with_writes [SysOk 2; SysErr EAGAIN] sim_init))
    7 7 (a_connection EPOLLIN)) as (k' & n & Hs & _).
  - reflexivity.
  - exact held_wf.
  - by repeat constructor.
  - apply sim_takes_bytes.
  - exists k'. change (length (Buffer.content (readBuffer (a_connection EPOLLIN)))) with 3%nat in Hs.
    split; [exact Hs|]. clear s. vm_compute in Hs. injection Hs as <-. vm_compute. reflexivity.
Defined.

(** Two bytes arrive and then no more: five are written.  Or the peer closes. *)
Lemma echo_round_witness :
  (exists s' x', handleEvents 2 7 (a_server (with_reads [SysOk [x64; x65]] sim_init)) = Ok (tt, s')
     /\ connections s' !! 7 = Some x'
     /\ Buffer.content (readBuffer x') = [x61; x62; x63; x64; x65]
     /\ sk_sent (skernel s') !! 7 = Some [x61; x62; x63; x64; x65])
  /\ handleEvents 1 7 (a_server (with_reads [SysOk []] sim_init))
     = Err (AssertFailed "Channel::~Channel").
Proof.
  assert (forall k, readable 7 (a_connection EPOLLIN) (a_server k)) as Hr.
  { intros k. split; [reflexivity|]. split; [discriminate|]. split; [reflexivity|].
    split; [reflexivity|]. split; [eexists; split; reflexivity|]. split; [reflexivity|].
    split; [reflexivity|]. split; [reflexivity|exact held_wf]. }
  split.
  - destruct (echo_round 2 7 (a_connection EPOLLIN) [x64; x65] (SysErr EAGAIN)
      (with_got [x64; x65] sim_init)
      (a_server (with_reads [SysOk [x64; x65]] sim_init))) as (s' & x' & Hh & Hk & Hc & Hb & _).
    + apply Hr.
    + apply (drained_data 7 1 _ [x64; x65] (with_got [x64; x65] sim_init) []); [reflexivity|discriminate|].
      apply drained_end; [reflexivity|discriminate].
    + vm_compute. discriminate.
    + exists s', x'. split; [exact Hh|]. split; [exact Hc|]. split; [exact Hb|]. rewrite Hk.
      clear. vm_compute. reflexivity.
  - apply (echo_round 1 7 (a_connection EPOLLIN) [] (SysOk []) sim_init
      (a_server (with_reads [SysOk []] sim_init))).
    + apply Hr.
    + apply drained_end; reflexivity.
    + vm_compute. discriminate.
Defined.
End Legacy.
